(* ===== verification/_CoqProject ===== *)
-Q . S2P
Prelude.v
Binary.v
Types.v
Wire.v
Store.v
RaftNode.v
RaftVotes.v
Election.v
RaftLog.v
LogMatching.v
Replies.v
Completeness.v
KVServer.v
KVRefine.v
WalJson.v
Wal.v
WalSpec.v
WalTrunc.v
WalCrash.v
Persister.v
FileUtil.v
PersisterSpec.v
SnapFiles.v
TcpProxy.v
Client.v
ClientSpec.v
ClientCalls.v
Cluster.v
ClusterSpec.v
ClusterWeights.v
ClusterSync.v
EndToEnd.v
Conf.v
Pool.v
Labgob.v
Main.v
