(* ===== verification/Prelude.v ===== *)
(** * raft-kv-service: a verification development

    The program is a replicated key/value store.  A client (server/client.go)
    sends binary requests to a TCP proxy (proxy/tcpproxy.go), which copies them
    to the cluster manager (server/clustermg.go); the manager picks a node for
    each request, retries failed ones and returns the answers, and nodes report
    their state to it.  A node runs the key/value service (server/server.go) on
    top of a Raft peer (raft/raft.go).  The peer
    saves its vote, term, log and snapshots through a persister
    (persister/persister.go), which keeps the log in a write-ahead log
    (wal/wal.go).  The service proposes writes with [Start], receives
    committed entries and snapshots on [applyCh], applies them to its map and
    answers; reads wait for a read index obtained from the leader.

    ** Files

    - Prelude (this file): Go results ([go]: value, error, panic), slices and
      indexing with Go's bounds, wrap-around of machine integers, tactics
      ([go_inv], [go_step]) and shared lemmas on lists.
    - Binary: encoding/binary as used by the wire formats and the write-ahead
      log: little-endian integers at a fixed width, varints, [io.ReadFull].
    - Types: the protobuf messages of rpc/rpc.pb.go and the error codes of
      common/common.go.
    - Wire: proxy/client_message.go, client_pack.go, response.go, body_pack.go,
      syncmsg.go and server/message_proc.go; Module [Framing] is the request
      loop of [handleClientConnection] on a byte stream.
    - Store: the interface the Raft peer needs from its persister, as type
      classes with laws (the vote and term, the log that may come back after a
      crash, a log that is never lost), and an in-memory implementation of it
      to run the model.
    - RaftNode (Module [Raft]): the struct [Raftserver] and every handler of
      raft/raft.go that changes it, one function per critical section.
    - RaftVotes: what each handler may do to term, vote and role.
    - Election: a cluster as a step relation over the handlers, with crashes,
      restarts and lost, delayed or reordered calls; an executable scheduler.
    - RaftLog: the behaviour of the handlers on the log.
    - LogMatching: the cluster of Election with AppendEntries and
      InstallSnapshot requests in flight: what a leader sends is a piece of its
      log, delivered any number of times to any node, or never; an invariant
      over the entries every leader ever created; an executable scheduler.
    - Replies: the same network with the replies to AppendEntries, and the
      ghost state of the argument on commitment (leaders, their logs, ballots,
      acknowledgements).
    - Completeness: its invariant through every step, commitment, and a run.
    - KVServer (Module [KV]): the struct [KVServer] and its handlers.
    - KVRefine: the service as a replicated map; the link from the apply loop
      of a peer to the map of its service.
    - WalJson: the JSON entries of wal/wal.go, with what it uses of
      unicode/utf8, encoding/json and encoding/base64; the scanner gjson is a
      class with its law, and an instance of it.
    - Wal: wal/wal.go and wal/config.go over a directory of files on a disk
      where any call may fail: opening, reading, writing (also in the middle),
      syncing, seeking, closing, renaming and removing.
    - WalSpec: the write-ahead log as a list of entries: writing and reading.
    - WalTrunc: truncation at both ends, and opening the directory again.
    - WalCrash: truncations and batches that the disk interrupts at any call,
      and what [Open] makes of the directory they leave.
    - Persister (Module [PS]): persister/persister.go and snapshotter.go: the
      state file, the queue of entries, the checksums, the two background
      goroutines and start-up, on top of Wal.
    - FileUtil (Module [FU]): persister/util.go and state.go over directories of
      files, each call of the operating system with its outcome as an argument;
      a file is its contents and what a crash may leave of it.
    - PersisterSpec: the persister as an instance of the interface of Store,
      what a crash at any moment leaves of the state file, and what becomes of
      the log entries handed to [Save].
    - SnapFiles (Module [Snap]): persister/snapshotter.go by file names, on top
      of FileUtil, as a refinement of the snapshots of Persister.
    - TcpProxy: proxy/tcpproxy.go: the choice of a remote, the dial loop, alone
      and with the critical sections of other connections and of the monitor in
      between, the copying until one direction ends; what they guarantee.
    - Client (Module [Client]): the clerk of server/client.go: requests, the
      table of waiting calls, the two receive buffers.
    - ClientSpec: the receive buffers against the stream of responses.
    - ClientCalls: [Get], [Put], [Append] and the connection set-up.
    - Cluster (Module [Cluster]): server/clustermg.go: its goroutines as program
      counters, one step per critical section, channel operation or exchange on
      a connection; weights and [pick].
    - ClusterSpec: invariants of every interleaving of those goroutines, the
      runs in which the manager stops, an executable scheduler.
    - ClusterWeights: the weights as sums of their adjustments, and [pick].
    - ClusterSync: nodes and manager together: registration, status messages,
      and the way of an operation through the manager.
    - EndToEnd: a call of the client through the steps of the manager's
      goroutines (queues, [pick], the tables of connections) to a replica and
      back.
    - Conf: conf/globalobj.go and the wiring of main/main.go.
    - Pool: pool/channel_pool.go.
    - Labgob: the checks of labgob/labgob.go around encoding/gob.
    - Main: main/main.go: the choice of the entry point, the start and stop of
      the server's parts, the loop of the client; of raft/raft.go the
      connection to the peers and the random time-outs.

    ** What is proved

    - Elections: at most one leader per term in every reachable state of a
      cluster of odd size, one vote per node and term across restarts.  Three
      closed runs show that the assumptions are needed: the code separates the
      two critical sections of [collectVote], a node may have become leader
      before it handles the answer to [SendCommitIndex], which raises its term,
      and the quorum test is not a majority in a cluster of even size.
    - Log: exact outcome of RequestVote, AppendEntries (acceptance, resulting
      log, hints), Start, InstallSnapshot and Snapshot on every branch; a leader
      of at least three nodes moves its commit index exactly to the last entry of
      its term a quorum holds; a replication round transfers the rest of the
      leader's log; the apply loop delivers the committed entries once and in
      order, whatever other critical sections run in between, as long as the
      commit index is not past the end of the log.
    - Agreement: in every reachable state two logs that agree on the term at an
      index are equal up to it; the handlers named in [handlers_return]
      dereference no nil entry and index inside the log; what a leader commits
      on a reply is in the log of every leader of that or a later term, and two
      leaders never commit different entries.  Assumed: an odd number of nodes (three at least for
      commitment), the two sections of [collectVote] run together, the answer to
      [SendCommitIndex] is handled on a node that is not the leader, the services
      take no snapshot ([Snapshot] is not called), a follower whose
      [commitIndex] is [PrevLogIndex] has the sender's term there, [Save] does
      not fail, and for commitment a store that loses no saved log, which the
      repository's persister is not.  Two closed runs show what
      happens otherwise: followers commit entries no leader committed, and
      without the assumption on the shortcut log matching itself fails.
    - Service: in any state a committed command is applied without a panic and
      answered, a read waits for its index and returns the value in the replica's
      map, and a repeated request is answered from the history on the node that
      started it.  When the log repeats no request, then in every interleaving of
      any number of replicas, snapshots and restarts included, a replica's map is
      the fold of the operations it has applied; with repetitions replicas may
      differ, as a closed run shows.
    - Formats: requests, responses, status messages and log entries are read
      back as written, entries in the binary and in the JSON format; a
      malformed body is a panic.
    - Write-ahead log: writing, batches, reading and truncation at both ends
      implement the operations of a list, over segment files, memory and cache;
      everything a log holds between two operations is on disk and is found
      again by [Open].  A truncation interrupted at any call of the operating
      system leaves a directory in which [Open] finds the log before it or the
      log after it, and an interrupted batch one in which it finds the log with
      the first entries of the batch; only an entry written in part makes it
      refuse the log.  Closed runs show what the error handling loses: entries,
      when the error of the temporary file is dropped, the entry written after a
      failed write, and a panic after a segment that could not be read.
    - Persister: the vote and term handed to [Save] survive the background
      goroutines and a restart, which is the promise the election theorems
      assume, except for a crash inside a write of the state file; logs that
      continue the one on disk reach it after a start, always the first and the
      later ones if the log had sixteen entries, and are read back after a
      restart.
    - Files: writing a file reports the first error of its calls, and without
      one the data is on disk whatever crash follows, except that a new file may
      be absent, since its directory is not synced; a directory listing is
      sorted and filtered; saving and loading snapshots by file name, with
      failing calls, orphaned and broken files, is saving and loading them by
      term and index.  The state file is rewritten in place: a crash can forget
      a vote.
    - Proxy: a remote is picked whenever one is active, of the best priority
      class when that class has weights; the dial loop ends, with a connection
      or after every active remote has refused; each side receives a prefix of
      what the other sent, all of it in the direction that ends first.
    - Client: however the network cuts the stream, the calls receive exactly the
      responses it carries, within the bounds of the buffers; a call returns
      what the answer to its own request says; connecting ends in success, in
      an error, or not at all, each exactly when stated.
    - Manager: in every interleaving it writes to nodes only requests it read or
      rebuilt from a retried answer, and to the proxy only final answers, on a
      connection of their clerk; [pick] returns a node that has a weight, in
      proportion to the weights; a node that registers is dialled at the address
      on which it listens; requests pass through byte for byte.  A reachable
      run deadlocks it.
    - Together: a [Get] through an idle manager returns the value in the map of
      the replica the manager picks, and a [Put] or [Append] that this node
      started and Raft delivers next is performed on its map and answered; the
      answer must fit the client's buffer of 2048 bytes.
    - Configuration: the addresses of the files reach the proxy and the nodes.
    - Entry points: a client session executes the commands typed and shows
      their results; at the end of its input it repeats the last one for ever.
      Connecting a node to its peers ends, with a client for each or with an
      error.
    - labgob: the walk over a type ends and warns once per lower-case field.
    - Where the code departs from its comments or from Raft, a theorem states
      what it does: the commit index of a follower, the placement of an
      installed snapshot, the first round of a new leader, duplicate entries,
      a replaced last entry that is not saved, the first saves of a new node,
      responses larger than the client's buffer, a nil result in [Append], the
      balancing of weights, lost requests of the manager, its fixed addresses,
      and what stopping the manager, the proxy or a client with a pending call
      does.

    ** Bounds and fuel

    Terms and log indices are [int64] or [uint64] in the code and unbounded
    integers here; integers that cross the wire keep their width, and lengths
    carry their bounds in the statements.  Loops that are not structural take
    fuel computed from the state: the distance between two indices for the
    loops over the log, the number of node ids for the loop over a growing map,
    the length of the data for the loops over bytes, the number of segments
    for the binary search, the number of remotes for the dial loop, the bytes
    in a buffer for the response loop; the theorems on these functions show
    that they return the result the loop is for, so the fuel is enough.  Three
    take their fuel as an argument: [checkType] and [connectToPeers], whose
    theorems give a sufficient amount, and the retry loop of [connectToProxy],
    which may run for ever, as its theorem says.  Integers of the manager's weights and of
    the client's lengths wrap at their width.

    ** Not modelled

    Timers (outcomes of clock comparisons are arguments), the gRPC server of
    a peer and the calls between peers (a client is there or not, and a call
    delivers its message or does not), log output, the starting of openresty,
    and generated protobuf code other than the messages' fields.  TCP
    connections are byte streams; what a dial, a listen, an accept, a read or a
    write gives is an argument, and so is what [fmt.Scan] reads.

    Outside the sources and therefore parameters with laws: the LRU cache, the
    JSON scanner gjson, the protobuf encoding of saved messages, the gob
    encoding of snapshots, the package size limit of proxy/utils, the types
    that the reflect package describes.  The outcome of decoding a
    configuration file is an argument.  In Persister.v a write of the state file
    is one step that succeeds and a crash falls between two critical sections;
    PersisterSpec adds crashes inside such a write, and Wal, FileUtil and
    SnapFiles have failures of every call.  Each persister has a snapshot
    directory of its own, where the code has one for all nodes of a working
    directory.  In the cluster of Election and its extensions a crash falls
    between two critical sections.  In Wal what was written is on disk: bytes
    written and not yet synced are not lost.

    ** Left open

    Agreement of logs with compaction ([Snapshot] during the run); the
    persister's log as an instance of [LogStore]: it writes entries one at a
    time and keeps a conflicting last entry, so what a restart reads need not be
    the log of one [Save], which the agreement theorems ask of a store. *)

From stdpp Require Export base gmap strings list fin_maps pretty.
From Stdlib Require Export ZArith Lia.
From Stdlib.Strings Require Export Byte.

#[global] Open Scope Z_scope.

(** ** Go results

    [go A] is the outcome of running a piece of Go code: a value, a returned
    [error], or a run-time panic (index out of range, nil dereference).  The
    errors are the sentinel values the modelled packages return; [ErrReply]
    carries the error code of a response, and [ErrBlocked] marks a call that
    never returns because it waits for itself. *)

Inductive error :=
  | EOF
  | ErrUnexpectedEOF
  | ErrMsgType
  | ErrTooLargeMsg
  | ErrCorrupt
  | ErrClosed
  | ErrNotFound
  | ErrNotNext (need got : Z) (* the error wal.writeBatch makes for an index that is not the next *)
  | ErrBadFile                (* a nil or closed *os.File *)
  | ErrOutOfRange
  | ErrNotExist
  | ErrInvalidSeek
  | ErrWrongLeader
  | ErrRpc
  | ErrBlocked
  | ErrOpType
  | ErrNoConn
  | ErrDial
  | ErrTimeout
  | ErrShortWrite
  | ErrNotEmpty
  | ErrPermission
  | Errno (n : Z)
  | ErrReply (code : Z).

#[export] Instance error_eq_dec : EqDecision error.
Proof. solve_decision. Defined.

Inductive go (A : Type) :=
  | Ok (a : A)
  | Err (e : error)
  | Panic.

Arguments Ok {A} a.
Arguments Err {A} e.
Arguments Panic {A}.

#[export] Instance go_eq_dec {A} `{EqDecision A} : EqDecision (go A).
Proof. solve_decision. Defined.

#[export] Instance go_ret : MRet go := fun A a => Ok a.
#[export] Instance go_bind : MBind go := fun A B f m =>
  match m with
  | Ok a => f a
  | Err e => Err e
  | Panic => Panic
  end.

(** A nil-able Go pointer is an [option]; dereferencing nil panics. *)
Definition deref {A} (p : option A) : go A :=
  match p with
  | Some a => Ok a
  | None => Panic
  end.

Lemma bind_Ok {A B} (m : go A) (f : A -> go B) b :
  (m ≫= f) = Ok b <-> exists a, m = Ok a /\ f a = Ok b.
Proof.
  destruct m as [a|e|]; simpl; split; intros H; try discriminate.
  - by exists a.
  - destruct H as (? & [= ->] & H). done.
  - by destruct H as (? & ? & _).
  - by destruct H as (? & ? & _).
Qed.

(** Injectivity as lemmas: the [injection] tactic would reduce the arguments. *)
Lemma Ok_inj {A} (a b : A) : Ok a = Ok b -> a = b.
Proof. congruence. Qed.

Lemma pair_eq_inv {A B} (a a' : A) (b b' : B) : (a, b) = (a', b') -> a = a' /\ b = b'.
Proof. by intros [= -> ->]. Qed.

Lemma deref_Ok {A} (p : option A) a : deref p = Ok a <-> p = Some a.
Proof. destruct p; simpl; naive_solver. Qed.

(** ** Go integers: a [w]-bit integer is a [Z], wrapped after an operation *)

Definition wrap_u (w x : Z) : Z := x mod 2 ^ w.
Definition wrap_s (w x : Z) : Z := (x + 2 ^ (w - 1)) mod 2 ^ w - 2 ^ (w - 1).

Definition in_u (w x : Z) : Prop := 0 <= x < 2 ^ w.
Definition in_s (w x : Z) : Prop := - 2 ^ (w - 1) <= x < 2 ^ (w - 1).

Lemma wrap_u_id w x : in_u w x -> wrap_u w x = x.
Proof. apply Z.mod_small. Qed.

Lemma wrap_s_id w x : 0 < w -> in_s w x -> wrap_s w x = x.
Proof.
  unfold in_s, wrap_s. intros Hw Hx.
  assert (2 ^ w = 2 * 2 ^ (w - 1)) as E.
  { rewrite <- Z.pow_succ_r by lia. f_equal. lia. }
  rewrite Z.mod_small; lia.
Qed.

Lemma wrap_u_range w x : 0 <= w -> in_u w (wrap_u w x).
Proof. intros. apply Z.mod_pos_bound. lia. Qed.

Lemma wrap_s_range w x : 0 < w -> in_s w (wrap_s w x).
Proof.
  unfold in_s, wrap_s. intros Hw.
  assert (2 ^ w = 2 * 2 ^ (w - 1)) as E.
  { rewrite <- Z.pow_succ_r by lia. f_equal. lia. }
  pose proof (Z.mod_pos_bound (x + 2 ^ (w - 1)) (2 ^ w)) as H. lia.
Qed.

(** ** Go slices

    Indexing and re-slicing panic out of range.  [slice_to] uses the length
    where Go uses the capacity: every re-slice of the modelled code is of a
    slice whose capacity is its length, or is checked by the code first. *)

Definition zlen {A} (l : list A) : Z := Z.of_nat (length l).

Definition idx {A} (l : list A) (i : Z) : go A :=
  if i <? 0 then Panic
  else match l !! Z.to_nat i with
       | Some a => Ok a
       | None => Panic
       end.

Definition slice_from {A} (l : list A) (i : Z) : go (list A) :=
  if (i <? 0) || (zlen l <? i) then Panic else Ok (drop (Z.to_nat i) l).

Definition slice_to {A} (l : list A) (i : Z) : go (list A) :=
  if (i <? 0) || (zlen l <? i) then Panic else Ok (take (Z.to_nat i) l).

Definition slice {A} (l : list A) (lo hi : Z) : go (list A) :=
  if (lo <? 0) || (hi <? lo) || (zlen l <? hi) then Panic
  else Ok (take (Z.to_nat (hi - lo)) (drop (Z.to_nat lo) l)).

(** [copy(dst, src)]: the new contents of [dst]. *)
Definition copy {A} (dst src : list A) : list A :=
  take (length dst) src ++ drop (length src) dst.

Section slices.
Context {A : Type}.
Implicit Types (l : list A) (i : Z).

Lemma zlen_nonneg l : 0 <= zlen l.
Proof. unfold zlen. lia. Qed.

Lemma zlen_app l1 l2 : zlen (l1 ++ l2) = zlen l1 + zlen l2.
Proof. unfold zlen. rewrite length_app. lia. Qed.

Lemma zlen_cons x l : zlen (x :: l) = 1 + zlen l.
Proof. unfold zlen. simpl. lia. Qed.

Lemma zlen_nil : zlen (@nil A) = 0.
Proof. done. Qed.

Lemma idx_Ok l i a : idx l i = Ok a <-> 0 <= i /\ l !! Z.to_nat i = Some a.
Proof.
  unfold idx. destruct (Z.ltb_spec i 0); [naive_solver lia|].
  destruct (l !! Z.to_nat i); naive_solver.
Qed.

Lemma idx_bound l i a : idx l i = Ok a -> 0 <= i < zlen l.
Proof.
  rewrite idx_Ok. intros [? H]. apply lookup_lt_Some in H. unfold zlen. lia.
Qed.

Lemma idx_in_range l i : 0 <= i < zlen l -> exists a, idx l i = Ok a.
Proof.
  unfold zlen. intros H. setoid_rewrite idx_Ok.
  destruct (lookup_lt_is_Some_2 l (Z.to_nat i)) as [a Ha]; [lia|]. eauto with lia.
Qed.

Lemma slice_from_Ok l i l' :
  slice_from l i = Ok l' <-> 0 <= i <= zlen l /\ l' = drop (Z.to_nat i) l.
Proof.
  unfold slice_from. destruct (Z.ltb_spec i 0), (Z.ltb_spec (zlen l) i); simpl; naive_solver lia.
Qed.

Lemma slice_to_Ok l i l' :
  slice_to l i = Ok l' <-> 0 <= i <= zlen l /\ l' = take (Z.to_nat i) l.
Proof.
  unfold slice_to. destruct (Z.ltb_spec i 0), (Z.ltb_spec (zlen l) i); simpl; naive_solver lia.
Qed.

Lemma zlen_drop l i : 0 <= i <= zlen l -> zlen (drop (Z.to_nat i) l) = zlen l - i.
Proof. unfold zlen. rewrite length_drop. lia. Qed.

Lemma slice_Ok l lo hi l' :
  slice l lo hi = Ok l' <->
  0 <= lo <= hi /\ hi <= zlen l /\ l' = take (Z.to_nat (hi - lo)) (drop (Z.to_nat lo) l).
Proof.
  unfold slice. destruct (Z.ltb_spec lo 0), (Z.ltb_spec hi lo), (Z.ltb_spec (zlen l) hi); simpl; naive_solver lia.
Qed.

Lemma length_copy (dst src : list A) : length (copy dst src) = length dst.
Proof. unfold copy. rewrite length_app, length_take, length_drop. lia. Qed.

End slices.

(** ** Bytes and Go strings

    A Go string is a byte sequence. *)

#[export] Instance byte_eq_dec : EqDecision byte := Byte.byte_eq_dec.

#[export] Program Instance byte_countable : Countable byte :=
  inj_countable Byte.to_N Byte.of_N _.
Next Obligation. apply Byte.of_to_N. Qed.

#[export] Instance byte_inhabited : Inhabited byte := populate Byte.x00.

Abbreviation gostring := (list byte).

Definition byte_to_Z (b : byte) : Z := Z.of_N (Byte.to_N b).

Definition byte_of_Z (z : Z) : byte :=
  default Byte.x00 (Byte.of_N (Z.to_N (z mod 256))).

Lemma byte_to_Z_range b : 0 <= byte_to_Z b < 256.
Proof. unfold byte_to_Z. pose proof (Byte.to_N_bounded b). lia. Qed.

Lemma byte_of_to_Z b : byte_of_Z (byte_to_Z b) = b.
Proof.
  unfold byte_of_Z. rewrite Z.mod_small by apply byte_to_Z_range.
  unfold byte_to_Z. rewrite N2Z.id, Byte.of_to_N. done.
Qed.

Lemma byte_to_of_Z z : byte_to_Z (byte_of_Z z) = z mod 256.
Proof.
  unfold byte_of_Z, byte_to_Z. pose proof (Z.mod_pos_bound z 256 ltac:(lia)) as Hz.
  destruct (Byte.of_N (Z.to_N (z mod 256))) as [b|] eqn:E; simpl.
  - apply Byte.to_of_N_iff in E. rewrite E. lia.
  - apply Byte.of_N_None_iff in E. lia.
Qed.

(** ** A code for countable types, used to run the model *)

(** A self-delimiting code of any countable type: the bits of its number, one
    per byte, and an end mark. *)
Fixpoint pos_bytes (p : positive) : list byte :=
  match p with
  | xI p => x01 :: pos_bytes p
  | xO p => x00 :: pos_bytes p
  | xH => [x02]
  end.

Fixpoint bytes_pos (bs : list byte) : option (positive * list byte) :=
  match bs with
  | x01 :: bs => '(p, rest) ← bytes_pos bs; Some (xI p, rest)
  | x00 :: bs => '(p, rest) ← bytes_pos bs; Some (xO p, rest)
  | x02 :: bs => Some (xH, bs)
  | _ => None
  end.

Lemma bytes_pos_bytes p rest : bytes_pos (pos_bytes p ++ rest) = Some (p, rest).
Proof. induction p as [p IH|p IH|]; simpl; [by rewrite IH..|done]. Qed.

Definition count_encode {A} `{Countable A} (a : A) : list byte := pos_bytes (encode a).

Definition count_decode {A} `{Countable A} (bs : list byte) : option (A * list byte) :=
  '(p, rest) ← bytes_pos bs; a ← decode p; Some (a, rest).

Lemma count_decode_encode {A} `{Countable A} (a : A) rest :
  count_decode (count_encode a ++ rest) = Some (a, rest).
Proof. unfold count_decode, count_encode. rewrite bytes_pos_bytes. simpl. by rewrite decode_encode. Qed.

(** ** fmt, strconv, strings and math/rand

    [fmt_d] is the verb [%d].  [rand_Intn r n] is [rand.Intn(n)] (and
    [rand.Int31n]) when the generator is at [r]: every value of [0, n) is
    obtained for some [r], and a non-positive bound panics. *)

Definition fmt_d (z : Z) : list byte := String.list_byte_of_string (pretty z).

(** [strconv.Atoi]: an optional sign and decimal digits within [int]. *)
Definition digit (b : byte) : option Z :=
  if (48 <=? byte_to_Z b) && (byte_to_Z b <=? 57) then Some (byte_to_Z b - 48) else None.

Fixpoint digits (acc : Z) (s : list byte) : option Z :=
  match s with
  | [] => Some acc
  | b :: s => d ← digit b; digits (10 * acc + d) s
  end.

Definition Atoi (s : list byte) : option Z :=
  let '(sign, ds) := match s with
                     | Byte.x2d :: ds => (-1, ds)
                     | Byte.x2b :: ds => (1, ds)
                     | _ => (1, s)
                     end in
  match ds with
  | [] => None
  | _ => n ← digits 0 ds;
         if (- 2 ^ 63 <=? sign * n) && (sign * n <? 2 ^ 63) then Some (sign * n) else None
  end.

(** The decimal digits of a number, before a given suffix. *)
Lemma pretty_N_char_digit x :
  (x < 10)%N -> digit (Ascii.byte_of_ascii (pretty_N_char x)) = Some (Z.of_N x).
Proof.
  intros. assert (x = 0 \/ x = 1 \/ x = 2 \/ x = 3 \/ x = 4 \/ x = 5 \/ x = 6 \/ x = 7 \/ x = 8 \/ x = 9)%N as Hx by lia.
  by destruct Hx as [->|[->|[->|[->|[->|[->|[->|[->|[->| ->]]]]]]]]].
Qed.

Lemma pretty_N_go_digits x s :
  exists ds, String.list_byte_of_string (pretty_N_go x s) = ds ++ String.list_byte_of_string s
    /\ Forall (fun b => is_Some (digit b)) ds /\ ((0 < x)%N -> ds <> [])
    /\ forall t, digits 0 (ds ++ t) = digits (Z.of_N x) t.
Proof.
  revert s. induction (N.lt_wf_0 x) as [x _ IH]. intros s.
  destruct (decide (x = 0)%N) as [->|Hx]; [exists []; by rewrite pretty_N_go_0|].
  rewrite pretty_N_go_step by lia.
  assert (x mod 10 < 10)%N as Hm by (apply N.mod_lt; lia).
  destruct (IH (x / 10)%N ltac:(apply N.div_lt; lia) (String (pretty_N_char (x mod 10)) s)) as (ds & E & Hd & _ & Hv).
  pose proof (pretty_N_char_digit (x mod 10) Hm) as Hc.
  exists (ds ++ [Ascii.byte_of_ascii (pretty_N_char (x mod 10))]). rewrite E, <- app_assoc.
  split_and!; [done| |by intros _ [_ ?]%app_nil|].
  - rewrite Forall_app, Forall_singleton. split; [done|]. rewrite Hc. by eexists.
  - intros t. rewrite <- app_assoc, Hv. simpl. rewrite Hc. simpl. f_equal.
    pose proof (N.div_mod x 10). lia.
Qed.

Lemma fmt_d_digits z :
  0 <= z -> Forall (fun b => is_Some (digit b)) (fmt_d z) /\ fmt_d z <> [] /\ digits 0 (fmt_d z) = Some z.
Proof.
  intros Hz. unfold fmt_d. destruct (decide (z = 0)) as [->|Hne].
  { split_and!; [repeat constructor; by eexists|done|done]. }
  assert (pretty z = pretty_N_go (Z.to_N z) "") as ->.
  { destruct z as [|p|p]; [done| |lia]. done. }
  destruct (pretty_N_go_digits (Z.to_N z) "") as (ds & E & Hd & Hn & Hv).
  rewrite E. simpl. rewrite app_nil_r. split_and!; [done|apply Hn; lia|].
  specialize (Hv []). rewrite app_nil_r in Hv. rewrite Hv. simpl. f_equal. lia.
Qed.

Lemma Atoi_fmt_d z : 0 <= z < 2 ^ 63 -> Atoi (fmt_d z) = Some z.
Proof.
  intros Hz. destruct (fmt_d_digits z) as (Hd & Hn & Hv); [lia|].
  destruct (fmt_d z) as [|b ds]; [done|]. inversion Hd as [|? ? Hb _]; subst.
  unfold Atoi. assert (forall X (x y w : X), match b with Byte.x2d => x | Byte.x2b => y | _ => w end = w) as Hm.
  { intros. destruct b; try done; by destruct Hb. }
  rewrite Hm, Hv. simpl. destruct (Z.leb_spec (- 2 ^ 63) (1 * z)), (Z.ltb_spec (1 * z) (2 ^ 63)); simpl; f_equal; lia.
Qed.

(** [strings.Split] on a one-byte separator: always at least one part. *)
Fixpoint Split (s : list byte) (sep : byte) : list (list byte) :=
  match s with
  | [] => [[]]
  | b :: s =>
      match Split s sep with
      | part :: parts => if bool_decide (b = sep) then [] :: part :: parts else (b :: part) :: parts
      | [] => [[b]]
      end
  end.

Lemma Split_none s sep : sep ∉ s -> Split s sep = [s].
Proof.
  induction s as [|b s IH]; intros H; [done|]. apply not_elem_of_cons in H as [Hne H].
  simpl. rewrite IH by done. by rewrite bool_decide_false by done.
Qed.

Lemma Split_one a b sep : sep ∉ a -> sep ∉ b -> Split (a ++ sep :: b) sep = [a; b].
Proof.
  intros Ha Hb. induction a as [|x a IH]; simpl.
  - rewrite Split_none by done. by rewrite bool_decide_true.
  - apply not_elem_of_cons in Ha as [Hne Ha]. rewrite IH by done. by rewrite bool_decide_false by done.
Qed.

Definition rand_Intn (r n : Z) : go Z :=
  if n <=? 0 then Panic else Ok (r mod n).

Lemma rand_Intn_pos r n : 0 < n -> exists c, rand_Intn r n = Ok c /\ 0 <= c < n.
Proof.
  intros. unfold rand_Intn. destruct (Z.leb_spec n 0); [lia|].
  eexists. split; [done|]. apply Z.mod_pos_bound. lia.
Qed.

(** ** Automation *)

(** Case analysis on the boolean integer comparisons of the goal. *)
Ltac zcase :=
  repeat match goal with
  | |- context [?a <? ?b] => destruct (Z.ltb_spec a b); simpl
  | |- context [?a <=? ?b] => destruct (Z.leb_spec a b); simpl
  | |- context [?a =? ?b] => destruct (Z.eqb_spec a b); simpl
  end.

(** Run the monad only, leaving the definitions folded. *)
Ltac go_step := cbn [mbind go_bind mret go_ret fst snd].

(** Decompose an equation [m = Ok x] where [m] is a sequence of Go
    statements, one hypothesis per statement that can fail. *)
Ltac go_inv_step :=
  match goal with
  | H : _ ≫= _ = Ok _ |- _ => apply bind_Ok in H; destruct H as (? & ? & ?)
  | H : mret _ = Ok _ |- _ => unfold mret, go_ret in H
  | H : Ok _ = Ok _ |- _ => apply Ok_inj in H; try (progress subst)
  | H : Err _ = Ok _ |- _ => discriminate H
  | H : Panic = Ok _ |- _ => discriminate H
  | H : (_, _) = (_, _) |- _ =>
      apply pair_eq_inv in H; destruct H; try (progress subst)
  | H : deref _ = Ok _ |- _ => apply deref_Ok in H
  end.

Ltac go_inv := repeat (go_inv_step; simpl in * ).

(** Turn a hypothesis on a boolean comparison into its [Prop]. *)
Ltac zbool :=
  repeat match goal with
  | H : (_ <? _) = true |- _ => apply Z.ltb_lt in H
  | H : (_ <? _) = false |- _ => apply Z.ltb_ge in H
  | H : (_ <=? _) = true |- _ => apply Z.leb_le in H
  | H : (_ <=? _) = false |- _ => apply Z.leb_gt in H
  | H : (_ =? _) = true |- _ => apply Z.eqb_eq in H
  | H : (_ =? _) = false |- _ => apply Z.eqb_neq in H
  | H : (_ && _) = true |- _ => apply andb_true_iff in H; destruct H
  | H : (_ || _) = false |- _ => apply orb_false_iff in H; destruct H
  end.

Create HintDb slices.
Create Rewrite HintDb slices.
#[export] Hint Rewrite @zlen_app @zlen_cons @zlen_nil : slices.
#[export] Hint Resolve zlen_nonneg : slices.
