(* ===== verification/Binary.v ===== *)
(** * Binary: the parts of Go's [encoding/binary] and [io] the wire format and
    the write-ahead log use

    Fixed-width little-endian integers ([binary.Write], [binary.Read] on a
    [bytes.Reader], [io.ReadFull]) and the base-128 varints of
    [binary.PutUvarint] and [binary.Uvarint].  A reader consumes a prefix of a
    byte stream and returns the rest of it. *)

From S2P Require Import Prelude.

(** ** Little-endian integers *)

(** The low [n] bytes of [x], least significant first; for a negative [x]
    these are the bytes of its two's complement. *)
Fixpoint le_put (n : nat) (x : Z) : list byte :=
  match n with
  | O => []
  | S n => byte_of_Z x :: le_put n (x / 256)
  end.

Fixpoint le_get (bs : list byte) : Z :=
  match bs with
  | [] => 0
  | b :: bs => byte_to_Z b + 256 * le_get bs
  end.

Definition bool_put (b : bool) : list byte := [if b then Byte.x01 else Byte.x00].

(** ** Readers *)

Abbreviation reader A := (list byte -> go (A * list byte)).

(** [io.ReadFull] with a buffer of [n] bytes. *)
Definition read_full (n : nat) : reader (list byte) := fun s =>
  if (length s <? n)%nat then
    match s with
    | [] => Err EOF
    | _ => Err ErrUnexpectedEOF
    end
  else Ok (take n s, drop n s).

(** [binary.Read] into an unsigned, a signed and a boolean variable. *)
Definition read_u (n : nat) : reader Z := fun s =>
  '(bs, s) ← read_full n s; mret (le_get bs, s).

Definition read_s (n : nat) : reader Z := fun s =>
  '(bs, s) ← read_full n s; mret (wrap_s (8 * Z.of_nat n) (le_get bs), s).

Definition read_bool : reader bool := fun s =>
  '(bs, s) ← read_full 1 s; mret (negb (le_get bs =? 0), s).

Lemma length_le_put n x : length (le_put n x) = n.
Proof. revert x. induction n; intros; simpl; auto. Qed.

Lemma length_bool_put b : length (bool_put b) = 1%nat.
Proof. done. Qed.

#[export] Hint Rewrite length_le_put length_bool_put : slices.

Lemma le_get_put n x : le_get (le_put n x) = x mod 2 ^ (8 * Z.of_nat n).
Proof.
  revert x. induction n as [|n IH]; intros x; cbn [le_put le_get].
  - by rewrite Z.mod_1_r.
  - rewrite IH, byte_to_of_Z.
    replace (8 * Z.of_nat (S n)) with (8 + 8 * Z.of_nat n) by lia.
    rewrite Z.pow_add_r by lia. change (2 ^ 8) with 256.
    rewrite Z.rem_mul_r by lia. done.
Qed.

Lemma le_get_range bs : 0 <= le_get bs < 2 ^ (8 * zlen bs).
Proof.
  induction bs as [|b bs IH]; cbn [le_get].
  - change (2 ^ (8 * zlen [])) with 1. lia.
  - rewrite zlen_cons. replace (8 * (1 + zlen bs)) with (8 + 8 * zlen bs) by lia.
    rewrite Z.pow_add_r by (pose proof (zlen_nonneg bs); lia). change (2 ^ 8) with 256.
    pose proof (byte_to_Z_range b). lia.
Qed.

Lemma le_put_get bs : le_put (length bs) (le_get bs) = bs.
Proof.
  induction bs as [|b bs IH]; cbn [le_get le_put length]; [done|].
  pose proof (byte_to_Z_range b) as Hb.
  replace ((byte_to_Z b + 256 * le_get bs) / 256) with (le_get bs).
  2:{ rewrite Z.mul_comm, Z.div_add, (Z.div_small (byte_to_Z b)); lia. }
  rewrite IH. f_equal.
  rewrite <- (byte_of_to_Z b) at 2. unfold byte_of_Z.
  rewrite Z.mul_comm, Z.mod_add by lia. done.
Qed.

Lemma read_full_app n bs s : length bs = n -> read_full n (bs ++ s) = Ok (bs, s).
Proof.
  intros <-. unfold read_full. rewrite length_app.
  destruct (Nat.ltb_spec (length bs + length s) (length bs)); [lia|].
  by rewrite take_app_length, drop_app_length.
Qed.

Lemma read_full_Ok n s bs s' :
  read_full n s = Ok (bs, s') <-> s = bs ++ s' /\ length bs = n.
Proof.
  split.
  - unfold read_full. destruct (Nat.ltb_spec (length s) n); [by destruct s|].
    intros [= <- <-]. rewrite take_drop, length_take. split; [done|lia].
  - intros [-> <-]. by apply read_full_app.
Qed.

Lemma read_full_short n s :
  (length s < n)%nat ->
  read_full n s = Err (if decide (s = []) then EOF else ErrUnexpectedEOF).
Proof.
  intros. unfold read_full. destruct (Nat.ltb_spec (length s) n); [|lia].
  by destruct s.
Qed.

Lemma read_u_put n x s :
  in_u (8 * Z.of_nat n) x -> read_u n (le_put n x ++ s) = Ok (x, s).
Proof.
  intros Hx. unfold read_u. rewrite read_full_app by apply length_le_put. simpl.
  rewrite le_get_put. by rewrite Z.mod_small.
Qed.

Lemma wrap_s_mod w x : 0 < w -> in_s w x -> wrap_s w (x mod 2 ^ w) = x.
Proof.
  intros Hw Hx. unfold wrap_s. rewrite Zplus_mod_idemp_l.
  by apply wrap_s_id.
Qed.

Lemma read_s_put n x s :
  (0 < n)%nat -> in_s (8 * Z.of_nat n) x -> read_s n (le_put n x ++ s) = Ok (x, s).
Proof.
  intros Hn Hx. unfold read_s. rewrite read_full_app by apply length_le_put. simpl.
  rewrite le_get_put, wrap_s_mod by (done || lia). done.
Qed.

Lemma read_bool_put b s : read_bool (bool_put b ++ s) = Ok (b, s).
Proof. by destruct b. Qed.

#[global] Opaque le_put le_get.

(** ** Varints *)

(** [binary.PutUvarint(buf[:], x)] into a buffer of [fuel] bytes: it indexes
    past the buffer, and panics, when [x] needs more. *)
Fixpoint put_uvarint (fuel : nat) (x : Z) : go (list byte) :=
  match fuel with
  | O => Panic
  | S fuel =>
      if x <? 128 then Ok [byte_of_Z x]
      else
        bs ← put_uvarint fuel (Z.shiftr x 7);
        mret (byte_of_Z (Z.lor (Z.land x 255) 128) :: bs)
  end.

Definition MaxVarintLen64 : Z := 10.

(** The loop of [binary.Uvarint] from byte [i] on, with the value [x] and the
    shift [s] accumulated so far: the value and the number of bytes read, 0
    when the buffer is too small and negative on overflow. *)
Fixpoint uvarint_loop (buf : list byte) (i x s : Z) : Z * Z :=
  match buf with
  | [] => (0, 0)
  | b :: buf =>
      if i =? MaxVarintLen64 then (0, - (i + 1))
      else
        let b := byte_to_Z b in
        if b <? 128 then
          if (i =? MaxVarintLen64 - 1) && (1 <? b) then (0, - (i + 1))
          else (Z.lor x (wrap_u 64 (Z.shiftl b s)), i + 1)
        else
          uvarint_loop buf (i + 1)
            (Z.lor x (wrap_u 64 (Z.shiftl (Z.land b 127) s))) (s + 7)
  end.

Definition Uvarint (buf : list byte) : Z * Z := uvarint_loop buf 0 0 0.

(** A value below [2 ^ 64] fits ten varint bytes. *)
Lemma put_uvarint_total (n : nat) x :
  0 <= x < 2 ^ (7 * Z.of_nat n) -> (0 < n)%nat ->
  exists bs, put_uvarint n x = Ok bs /\ (0 < length bs <= n)%nat.
Proof.
  revert x. induction n as [|n IH]; intros x Hx Hn; [lia|]. cbn [put_uvarint].
  destruct (Z.ltb_spec x 128); [eexists; split; [done|simpl; lia]|].
  destruct n as [|n']. { change (7 * Z.of_nat 1) with 7 in Hx. lia. }
  destruct (IH (Z.shiftr x 7)) as (bs & E & Hb); [|lia|].
  - rewrite Z.shiftr_div_pow2 by lia. split; [apply Z.div_pos; lia|].
    apply Z.div_lt_upper_bound; [lia|]. rewrite <- Z.pow_add_r by lia.
    replace (7 + 7 * Z.of_nat (S n')) with (7 * Z.of_nat (S (S n'))) by lia. lia.
  - rewrite E. simpl. eexists. split; [done|]. simpl. lia.
Qed.

Lemma lor_shiftl_split x a s :
  0 <= s -> 0 <= a < 2 ^ s -> Z.lor a (Z.shiftl x s) = a + x * 2 ^ s.
Proof.
  intros Hs Ha. rewrite <- Z.shiftl_mul_pow2 by lia. symmetry. apply Z.add_nocarry_lor.
  apply Z.bits_inj'. intros n Hn. rewrite Z.land_spec, Z.bits_0.
  destruct (Z.lt_ge_cases n s).
  - by rewrite Z.shiftl_spec_low, andb_false_r.
  - by rewrite <- (Z.mod_small a (2 ^ s)), Z.mod_pow2_bits_high by lia.
Qed.

(** A continuation byte carries the low seven bits and its high bit is set. *)
Lemma cont_byte_high b : 128 <= Z.lor (byte_to_Z b) 128 < 256.
Proof. by destruct b. Qed.

Lemma cont_byte y :
  byte_to_Z (byte_of_Z (Z.lor (Z.land y 255) 128)) = Z.lor (Z.land y 255) 128
  /\ 128 <= Z.lor (Z.land y 255) 128
  /\ Z.land (Z.lor (Z.land y 255) 128) 127 = y mod 128.
Proof.
  assert (Z.land y 255 = byte_to_Z (byte_of_Z y)) as E.
  { rewrite byte_to_of_Z. change 255 with (Z.ones 8). by rewrite Z.land_ones. }
  pose proof (cont_byte_high (byte_of_Z y)) as Hb. rewrite <- E in Hb.
  split_and!; [|lia|].
  - rewrite byte_to_of_Z. apply Z.mod_small. lia.
  - rewrite Z.land_lor_distr_l, <- Z.land_assoc. change (Z.land 255 127) with (Z.ones 7).
    change (Z.land 128 127) with 0. by rewrite Z.lor_0_r, Z.land_ones.
Qed.

Lemma uvarint_step y acc s :
  0 <= s -> 0 <= acc < 2 ^ s -> 0 <= y -> acc + y * 2 ^ s < 2 ^ 64 ->
  Z.lor acc (wrap_u 64 (Z.shiftl (y mod 128) s)) = acc + (y mod 128) * 2 ^ s
  /\ 0 <= acc + (y mod 128) * 2 ^ s < 2 ^ (s + 7)
  /\ acc + (y mod 128) * 2 ^ s + Z.shiftr y 7 * 2 ^ (s + 7) = acc + y * 2 ^ s.
Proof.
  intros Hs Ha Hy Hlt. pose proof (Z.mod_pos_bound y 128 ltac:(lia)) as Hm.
  assert (0 < 2 ^ s) by (apply Z.pow_pos_nonneg; lia).
  assert (y mod 128 <= y) by (apply Z.mod_le; lia).
  rewrite Z.pow_add_r, Z.shiftr_div_pow2 by lia. change (2 ^ 7) with 128.
  pose proof (Z.div_mod y 128 ltac:(lia)) as E.
  split_and!; [|nia|nia|nia].
  rewrite wrap_u_id; [by apply lor_shiftl_split|].
  rewrite Z.shiftl_mul_pow2 by lia. unfold in_u. nia.
Qed.

Lemma uvarint_loop_put (n : nat) y bs i acc rest :
  put_uvarint n y = Ok bs -> i + Z.of_nat n = 10 -> 0 <= i ->
  0 <= acc < 2 ^ (7 * i) -> 0 <= y -> acc + y * 2 ^ (7 * i) < 2 ^ 64 ->
  uvarint_loop (bs ++ rest) i acc (7 * i) = (acc + y * 2 ^ (7 * i), i + zlen bs).
Proof.
  revert y bs i acc. induction n as [|n IH]; intros y bs i acc Hp Hi Hi0 Hacc Hy Hlt;
    [discriminate|]. cbn [put_uvarint] in Hp.
  destruct (uvarint_step y acc (7 * i)) as (E1 & E2 & E3); [lia..|].
  destruct (Z.ltb_spec y 128).
  - injection Hp as <-. cbn [app uvarint_loop]. unfold MaxVarintLen64.
    destruct (Z.eqb_spec i 10); [lia|].
    rewrite byte_to_of_Z, (Z.mod_small y 256) by lia.
    rewrite (Z.mod_small y 128) in E1 by lia. rewrite E1.
    destruct (Z.ltb_spec y 128); [|lia]. change (zlen [byte_of_Z y]) with 1.
    destruct (Z.eqb_spec i (10 - 1)) as [->|], (Z.ltb_spec 1 y); try done.
    change (2 ^ (7 * (10 - 1))) with (2 ^ 63) in Hlt. lia.
  - go_inv. destruct (cont_byte y) as (C1 & C2 & C3).
    cbn [app uvarint_loop]. rewrite C1, C3, E1. unfold MaxVarintLen64.
    destruct (Z.eqb_spec i 10); [lia|].
    destruct (Z.ltb_spec (Z.lor (Z.land y 255) 128) 128); [lia|].
    replace (7 * i + 7) with (7 * (i + 1)) in * by lia.
    rewrite (IH (Z.shiftr y 7) x (i + 1)); [|done|lia|lia|lia| |lia].
    + rewrite E3, zlen_cons. f_equal. lia.
    + by apply Z.shiftr_nonneg.
Qed.

Lemma Uvarint_put x bs rest :
  in_u 64 x -> put_uvarint 10 x = Ok bs -> Uvarint (bs ++ rest) = (x, zlen bs).
Proof.
  intros [Hx0 Hx] Hp. unfold Uvarint.
  rewrite (uvarint_loop_put 10 x bs 0 0); [f_equal; lia|done|lia..|].
  rewrite Z.mul_0_r, Z.mul_1_r. lia.
Qed.

Lemma put_uvarint_u64 x :
  in_u 64 x -> exists bs, put_uvarint 10 x = Ok bs /\ (0 < length bs <= 10)%nat.
Proof.
  intros [? ?]. apply put_uvarint_total; [|lia].
  change (7 * Z.of_nat 10) with 70.
  assert (2 ^ 64 <= 2 ^ 70) by (apply Z.pow_le_mono_r; lia). lia.
Qed.

(** The first bytes of a varint are not enough. *)
Lemma uvarint_loop_short (n : nat) y bs i acc s k :
  put_uvarint n y = Ok bs -> i + Z.of_nat n <= 10 -> (k < length bs)%nat -> uvarint_loop (take k bs) i acc s = (0, 0).
Proof.
  revert y bs i acc s k. induction n as [|n IH]; intros y bs i acc s k Hp Hi Hk; [discriminate|]. cbn [put_uvarint] in Hp.
  destruct k as [|k]; [done|]. destruct (Z.ltb_spec y 128); [injection Hp as <-; simpl in Hk; lia|].
  go_inv. destruct (cont_byte y) as (C1 & C2 & C3). simpl in Hk. cbn [take uvarint_loop]. unfold MaxVarintLen64. rewrite C1.
  destruct (Z.eqb_spec i 10); [lia|]. destruct (Z.ltb_spec (Z.lor (Z.land y 255) 128) 128); [lia|].
  eapply IH; [done|lia|lia].
Qed.

Lemma Uvarint_short x bs k : put_uvarint 10 x = Ok bs -> (k < length bs)%nat -> Uvarint (take k bs) = (0, 0).
Proof. intros Hp Hk. unfold Uvarint. by eapply (uvarint_loop_short 10). Qed.
