(* ===== verification/Types.v ===== *)
(** * Types: the data the components exchange

    The protobuf messages of package [rrpc] (rpc.pb.go) as records, and the
    error codes of package [common].  [int64], [int32], [uint64] and [uint32]
    fields are [Z]; the well-formedness predicates give their ranges where a
    theorem depends on the width. *)

From S2P Require Import Prelude.

(** ** Package rrpc *)

Record Op := mkOp {
  Optype : Z;          (* uint32 *)
  IncrId : Z;          (* uint64 *)
  ClerkId : Z;         (* int32 *)
  Key : gostring;
  Value : gostring
}.

Record Entry := mkEntry {
  Term : Z;            (* int64 *)
  Command : option Op  (* pointer, nil for a placeholder *)
}.

#[export] Instance Op_eq_dec : EqDecision Op.
Proof. solve_decision. Defined.

#[export] Instance Entry_eq_dec : EqDecision Entry.
Proof. solve_decision. Defined.

(** The zero value [&rrpc.Op{}]. *)
Definition zero_Op : Op := mkOp 0 0 0 [] [].

Definition op_wf (op : Op) : Prop :=
  in_u 32 (Optype op) /\ in_u 64 (IncrId op) /\ in_s 32 (ClerkId op).

Module RequestVoteArgs.
Record t := mk {
  Term : Z;
  CandidateId : Z;
  LastLogIndex : Z;
  LastLogTerm : Z
}.
End RequestVoteArgs.

Module RequestVoteReply.
Record t := mk {
  Term : Z;
  VoteGranted : bool
}.
End RequestVoteReply.

Module AppendEntriesArgs.
Record t := mk {
  Term : Z;
  LeaderId : Z;
  PrevLogIndex : Z;
  PrevLogTerm : Z;
  LeaderCommit : Z;
  Entries : list (option Entry)  (* nil and empty slices coincide on the wire *)
}.
End AppendEntriesArgs.

Module AppendEntriesReply.
Record t := mk {
  Term : Z;
  Success : bool;
  XTerm : Z;
  XIndex : Z;
  XLen : Z
}.
End AppendEntriesReply.

Module InstallSnapshotArgs.
Record t := mk {
  Term : Z;
  LastIncludedIndex : Z;
  LastIncludedTerm : Z;
  LeaderId : Z;
  LastIncludedCommand : option Op;
  Data : list byte
}.
End InstallSnapshotArgs.

Module InstallSnapshotReply.
Record t := mk {
  Term : Z
}.
End InstallSnapshotReply.

Module GetCommitIndexReply.
Record t := mk {
  Term : Z;
  CommitIndex : Z
}.
End GetCommitIndexReply.

(** ** Package common: error names and their codes *)

Module Common.

Inductive ErrName :=
  | OK
  | NoKey
  | WrongLeader
  | LeaderChanged
  | HandleTimeout
  | ChanClosed.

(** [ErrMap]. *)
Definition ErrMap (e : ErrName) : Z :=
  match e with
  | OK => 200
  | NoKey => 100
  | WrongLeader => 101
  | LeaderChanged => 102
  | HandleTimeout => 103
  | ChanClosed => 104
  end.

(** [ErrIdMap]; Go reads the empty string for an absent code. *)
Definition ErrIdMap (c : Z) : option ErrName :=
  if c =? 200 then Some OK
  else if c =? 100 then Some NoKey
  else if c =? 101 then Some WrongLeader
  else if c =? 102 then Some LeaderChanged
  else if c =? 103 then Some HandleTimeout
  else if c =? 104 then Some ChanClosed
  else None.

(** The two tables are inverse to each other. *)
Lemma ErrIdMap_ErrMap c e : ErrIdMap c = Some e <-> c = ErrMap e.
Proof.
  split; [|intros ->; by destruct e].
  unfold ErrIdMap.
  repeat match goal with |- context [?a =? ?b] => destruct (Z.eqb_spec a b) end;
    intros [= <-]; done.
Qed.

End Common.

(** Operation codes, package server. *)
Definition GET : Z := 0.
Definition PUT : Z := 1.
Definition APPEND : Z := 2.
