(* ===== verification/Wire.v ===== *)
(** * Wire: the client, response and sync message formats

    Package [proxy] (client_message.go, client_pack.go, response.go,
    body_pack.go, syncmsg.go) and the conversions of server/message_proc.go.
    Every [Pack] is a little-endian header followed by the payload; every
    [Unpack] reads the header back and leaves the payload to the caller.

    [MaxPackageSize] is [utils.GlobalObject.MaxPackageSize]: package
    proxy/utils is not part of the repository, so the limit is an argument of
    the two [Unpack] functions that consult it. *)

From S2P Require Import Prelude Binary Types.

(** ** Messages *)

Module ClientMessage.
Record t := mk {
  OpId : Z;       (* uint32 *)
  DataLen : Z;    (* uint32 *)
  IncrId : Z;     (* uint64 *)
  ClerkId : Z;    (* int32 *)
  Data : list byte
}.

Definition NewCliMsgPackage (id clerkId incrId : Z) (data : list byte) : t :=
  mk id (wrap_u 32 (zlen data)) incrId clerkId data.

Definition SetData (d : list byte) (m : t) : t :=
  mk (OpId m) (DataLen m) (IncrId m) (ClerkId m) d.

Definition head_wf (m : t) : Prop :=
  in_u 32 (OpId m) /\ in_u 32 (DataLen m) /\ in_u 64 (IncrId m) /\ in_s 32 (ClerkId m).
End ClientMessage.

Module ServerResponse.
Record t := mk {
  OpId : Z;       (* uint32 *)
  DataLen : Z;    (* uint32 *)
  IncrId : Z;     (* uint64 *)
  ClerkId : Z;    (* int32 *)
  ServerId : Z;   (* int32 *)
  Err : Z;        (* uint32 *)
  Data : list byte
}.

Definition zero : t := mk 0 0 0 0 0 0 [].

Definition NewSerRespPackage (id clerkId incrId serverId err : Z) (data : list byte) : t :=
  mk id (wrap_u 32 (zlen data)) incrId clerkId serverId err data.

Definition SetData (d : list byte) (m : t) : t :=
  mk (OpId m) (DataLen m) (IncrId m) (ClerkId m) (ServerId m) (Err m) d.

Definition SetErrId (e : Z) (m : t) : t :=
  mk (OpId m) (DataLen m) (IncrId m) (ClerkId m) (ServerId m) e (Data m).

Definition head_wf (m : t) : Prop :=
  in_u 32 (OpId m) /\ in_u 32 (DataLen m) /\ in_u 64 (IncrId m) /\ in_s 32 (ClerkId m)
  /\ in_s 32 (ServerId m) /\ in_u 32 (Err m).

#[export] Instance eq_dec : EqDecision t.
Proof. solve_decision. Defined.
End ServerResponse.

(** The interface [siface.IMessage] with the two types that implement it; the
    packers recover the concrete type with a type assertion. *)
Inductive IMessage :=
  | IClient (m : ClientMessage.t)
  | IResponse (m : ServerResponse.t).

Definition GetData (m : IMessage) : list byte :=
  match m with
  | IClient m => ClientMessage.Data m
  | IResponse m => ServerResponse.Data m
  end.

(** ** Request header: 20 bytes *)

Module ClientDataPack.
Definition requestLen : Z := 20.

Definition GetHeadLen : Z := requestLen.

Definition Pack (msg : IMessage) : go (list byte) :=
  match msg with
  | IClient m =>
      Ok (le_put 4 (ClientMessage.OpId m)
          ++ le_put 4 (ClientMessage.DataLen m)
          ++ le_put 8 (ClientMessage.IncrId m)
          ++ le_put 4 (ClientMessage.ClerkId m)
          ++ ClientMessage.Data m)
  | IResponse _ => Err ErrMsgType
  end.

Definition Unpack (MaxPackageSize : Z) (data : list byte) : go ClientMessage.t :=
  '(opId, data) ← read_u 4 data;
  '(dataLen, data) ← read_u 4 data;
  '(incrId, data) ← read_u 8 data;
  '(clerkId, data) ← read_s 4 data;
  if (0 <? MaxPackageSize) && (MaxPackageSize <? dataLen) then Err ErrTooLargeMsg
  else Ok (ClientMessage.mk opId dataLen incrId clerkId []).
End ClientDataPack.

(** ** Response header: 28 bytes *)

Module SerRespPack.
Definition respHeadLen : Z := 28.

Definition GetHeadLen : Z := respHeadLen.

Definition Pack (msg : IMessage) : go (list byte) :=
  match msg with
  | IResponse m =>
      Ok (le_put 4 (ServerResponse.OpId m)
          ++ le_put 4 (ServerResponse.DataLen m)
          ++ le_put 8 (ServerResponse.IncrId m)
          ++ le_put 4 (ServerResponse.ClerkId m)
          ++ le_put 4 (ServerResponse.ServerId m)
          ++ le_put 4 (ServerResponse.Err m)
          ++ ServerResponse.Data m)
  | IClient _ => Err ErrMsgType
  end.

Definition Unpack (MaxPackageSize : Z) (data : list byte) : go ServerResponse.t :=
  '(opId, data) ← read_u 4 data;
  '(dataLen, data) ← read_u 4 data;
  '(incrId, data) ← read_u 8 data;
  '(clerkId, data) ← read_s 4 data;
  '(serverId, data) ← read_s 4 data;
  '(err, data) ← read_u 4 data;
  if (0 <? MaxPackageSize) && (MaxPackageSize <? dataLen) then Err ErrTooLargeMsg
  else Ok (ServerResponse.mk opId dataLen incrId clerkId serverId err []).
End SerRespPack.

(** ** Body: key length, then key and value *)

Module BodyPack.
Record Body := mk {
  KeyLen : Z;     (* uint32 *)
  KeyValue : list byte
}.

Definition GetKey (b : Body) : go gostring := slice_to (KeyValue b) (KeyLen b).

Definition GetValue (b : Body) : go gostring := slice_from (KeyValue b) (KeyLen b).

Definition Pack (b : Body) : go (list byte) :=
  Ok (le_put 4 (KeyLen b) ++ KeyValue b).

Definition Unpack (data : list byte) : go Body :=
  '(keyLen, _) ← read_u 4 data;
  kv ← slice_from data 4;
  mret (mk keyLen kv).
End BodyPack.

(** ** Status messages of a node to the cluster manager: 15-byte head *)

Module SyncMsgPack.
Record SyncMsg := mk {
  CommitIndex : Z;  (* int64 *)
  IsLeader : bool;
  IpLen : Z;        (* int16 *)
  ServerId : Z;     (* int32 *)
  Port : Z;         (* int32 *)
  Ip : gostring
}.

Definition headLen : Z := 15.

Definition GetHeadLen : Z := headLen.

Definition PackAddr (m : SyncMsg) : go (list byte) :=
  Ok (le_put 8 (CommitIndex m) ++ bool_put (IsLeader m) ++ le_put 2 (IpLen m)
      ++ le_put 4 (ServerId m) ++ le_put 4 (Port m) ++ Ip m).

Definition Pack (m : SyncMsg) : go (list byte) :=
  Ok (le_put 8 (CommitIndex m) ++ bool_put (IsLeader m) ++ le_put 2 (IpLen m)
      ++ le_put 4 (ServerId m)).

Definition UnpackHead (data : list byte) : go SyncMsg :=
  '(commitIndex, data) ← read_s 8 data;
  '(isLeader, data) ← read_bool data;
  '(ipLen, data) ← read_s 2 data;
  '(serverId, data) ← read_s 4 data;
  mret (mk commitIndex isLeader ipLen serverId 0 []).

Definition UnpackBody (data : list byte) (m : SyncMsg) : go SyncMsg :=
  head ← slice_to data 4;
  '(port, _) ← read_s 4 head;
  ip ← slice_from data 4;
  mret (mk (CommitIndex m) (IsLeader m) (IpLen m) (ServerId m) port ip).

Definition head_wf (m : SyncMsg) : Prop :=
  in_s 64 (CommitIndex m) /\ in_s 16 (IpLen m) /\ in_s 32 (ServerId m) /\ in_s 32 (Port m).
End SyncMsgPack.

(** ** server/message_proc.go *)

Module MsgProcess.
Definition ClientMsgToBit (msg : IMessage) : go (list byte) := ClientDataPack.Pack msg.

Definition ClientMsgToOp (msg : IMessage) : go Op :=
  match msg with
  | IClient m =>
      body ← BodyPack.Unpack (GetData msg);
      key ← BodyPack.GetKey body;
      value ← BodyPack.GetValue body;
      mret (mkOp (ClientMessage.OpId m) (ClientMessage.IncrId m)
                 (ClientMessage.ClerkId m) key value)
  | IResponse _ => Err ErrMsgType
  end.

(** The body both [OpToBinary] and [OpToResp] build for an operation. *)
Definition op_body (op : Op) : BodyPack.Body :=
  BodyPack.mk (wrap_u 32 (zlen (Key op))) (Key op ++ Value op).

Definition OpToBinary (op : Op) : go (list byte) :=
  binaryData ← BodyPack.Pack (op_body op);
  ClientDataPack.Pack
    (IClient (ClientMessage.mk (Optype op) (wrap_u 32 (zlen binaryData))
                               (IncrId op) (ClerkId op) binaryData)).

Definition OpToResp (op : Op) (errId : Z) : go ServerResponse.t :=
  binaryData ← BodyPack.Pack (op_body op);
  mret (ServerResponse.mk (Optype op) (wrap_u 32 (zlen binaryData))
                          (IncrId op) (ClerkId op) 0 errId binaryData).

Definition RespToReq (r : ServerResponse.t) : ClientMessage.t :=
  ClientMessage.mk (ServerResponse.OpId r) (ServerResponse.DataLen r)
    (ServerResponse.IncrId r) (ServerResponse.ClerkId r) (ServerResponse.Data r).

Definition RespToBinary (r : ServerResponse.t) : go (list byte) :=
  SerRespPack.Pack (IResponse r).
End MsgProcess.

(** ** Framing: one message off a TCP stream *)

Module Framing.

(** One iteration of [KVServer.handleClientConnection] up to the operation it
    queues: head, size-checked header, body, operation. *)
Definition read_request (MaxPackageSize : Z) : reader Op := fun s =>
  '(headBuffer, s) ← read_full (Z.to_nat ClientDataPack.GetHeadLen) s;
  msg ← ClientDataPack.Unpack MaxPackageSize headBuffer;
  '(buffer, s) ← read_full (Z.to_nat (ClientMessage.DataLen msg)) s;
  op ← MsgProcess.ClientMsgToOp (IClient (ClientMessage.SetData buffer msg));
  mret (op, s).

(** One iteration of [Cluster.serveServ]: the response of a node. *)
Definition read_response (MaxPackageSize : Z) : reader ServerResponse.t := fun s =>
  '(headBuffer, s) ← read_full (Z.to_nat SerRespPack.GetHeadLen) s;
  resp ← SerRespPack.Unpack MaxPackageSize headBuffer;
  '(bodyBuff, s) ← read_full (Z.to_nat (ServerResponse.DataLen resp)) s;
  mret (ServerResponse.SetData bodyBuff resp, s).

(** The loop of [handleClientConnection] on a stream: the operations it
    queues in order, and the outcome that ends it.  Every iteration consumes
    the 20 bytes of a header, so [S (length s)] units of fuel reach the end. *)
Fixpoint request_loop (MaxPackageSize : Z) (fuel : nat) (s : list byte)
    : list Op * go unit :=
  match fuel with
  | O => ([], Ok tt)
  | S fuel =>
      match read_request MaxPackageSize s with
      | Ok (op, s) =>
          let '(ops, r) := request_loop MaxPackageSize fuel s in (op :: ops, r)
      | Err e => ([], Err e)
      | Panic => ([], Panic)
      end
  end.

Definition handleClientConnection (MaxPackageSize : Z) (s : list byte) : list Op * go unit :=
  request_loop MaxPackageSize (S (length s)) s.

End Framing.

(** ** Lemmas *)

(** Evaluate a sequence of reads of freshly written integers. *)
Ltac wire_read :=
  repeat first
    [ rewrite read_u_put by assumption
    | rewrite read_s_put by (assumption || lia)
    | rewrite read_bool_put
    | progress go_step ].

(** The size of an operation's body fits [uint32] and the configured limit. *)
Definition op_fits (MaxPackageSize : Z) (op : Op) : Prop :=
  4 + zlen (Key op) + zlen (Value op) < 2 ^ 32
  /\ (MaxPackageSize <= 0 \/ 4 + zlen (Key op) + zlen (Value op) <= MaxPackageSize).

Lemma ClientDataPack_Unpack_Pack max m data s :
  ClientMessage.head_wf m ->
  max <= 0 \/ ClientMessage.DataLen m <= max ->
  read_full 20
    (le_put 4 (ClientMessage.OpId m) ++ le_put 4 (ClientMessage.DataLen m)
     ++ le_put 8 (ClientMessage.IncrId m) ++ le_put 4 (ClientMessage.ClerkId m) ++ data) = Ok s ->
  exists head, s = (head, data)
    /\ ClientDataPack.Unpack max head = Ok (ClientMessage.SetData [] m).
Proof.
  intros (H1 & H2 & H3 & H4) Hmax Hr. rewrite !app_assoc, read_full_app in Hr.
  2:{ by rewrite !length_app, !length_le_put. }
  go_inv. eexists. split; [done|]. unfold ClientDataPack.Unpack.
  rewrite <- !app_assoc. rewrite <- (app_nil_r (le_put 4 (ClientMessage.ClerkId m))).
  wire_read. destruct (Z.ltb_spec 0 max), (Z.ltb_spec max (ClientMessage.DataLen m)); (done || lia).
Qed.

Lemma SerRespPack_Unpack_Pack max m data s :
  ServerResponse.head_wf m ->
  max <= 0 \/ ServerResponse.DataLen m <= max ->
  read_full 28
    (le_put 4 (ServerResponse.OpId m) ++ le_put 4 (ServerResponse.DataLen m)
     ++ le_put 8 (ServerResponse.IncrId m) ++ le_put 4 (ServerResponse.ClerkId m)
     ++ le_put 4 (ServerResponse.ServerId m) ++ le_put 4 (ServerResponse.Err m) ++ data) = Ok s ->
  exists head, s = (head, data)
    /\ SerRespPack.Unpack max head = Ok (ServerResponse.SetData [] m).
Proof.
  intros (H1 & H2 & H3 & H4 & H5 & H6) Hmax Hr. rewrite !app_assoc, read_full_app in Hr.
  2:{ by rewrite !length_app, !length_le_put. }
  go_inv. eexists. split; [done|]. unfold SerRespPack.Unpack.
  rewrite <- !app_assoc. rewrite <- (app_nil_r (le_put 4 (ServerResponse.Err m))).
  wire_read. destruct (Z.ltb_spec 0 max), (Z.ltb_spec max (ServerResponse.DataLen m)); (done || lia).
Qed.

Lemma op_body_Unpack op :
  zlen (Key op) < 2 ^ 32 ->
  exists bin, BodyPack.Pack (MsgProcess.op_body op) = Ok bin
    /\ zlen bin = 4 + zlen (Key op) + zlen (Value op)
    /\ BodyPack.Unpack bin = Ok (BodyPack.mk (zlen (Key op)) (Key op ++ Value op)).
Proof.
  intros Hk. pose proof (zlen_nonneg (Key op)). eexists. split; [done|].
  unfold MsgProcess.op_body. simpl. rewrite wrap_u_id by (unfold in_u; lia).
  assert (zlen (le_put 4 (zlen (Key op))) = 4) as E.
  { unfold zlen at 1. by rewrite length_le_put. }
  split; [autorewrite with slices; lia|].
  unfold BodyPack.Unpack. rewrite read_u_put by (unfold in_u; lia). simpl.
  unfold slice_from. autorewrite with slices.
  pose proof (zlen_nonneg (Value op)). pose proof (zlen_nonneg (Key op ++ Value op)).
  autorewrite with slices in *. zcase; try lia.
  change (Z.to_nat 4) with 4%nat. simpl.
  by rewrite drop_app_length' by (by rewrite length_le_put).
Qed.

Lemma Body_key_value k v :
  BodyPack.GetKey (BodyPack.mk (zlen k) (k ++ v)) = Ok k
  /\ BodyPack.GetValue (BodyPack.mk (zlen k) (k ++ v)) = Ok v.
Proof.
  pose proof (zlen_nonneg k). pose proof (zlen_nonneg v).
  unfold BodyPack.GetKey, BodyPack.GetValue, slice_to, slice_from; simpl.
  autorewrite with slices. zcase; try lia. simpl.
  unfold zlen. rewrite Nat2Z.id, take_app_length, drop_app_length. done.
Qed.

Lemma ClientMsgToOp_body op bin dl :
  BodyPack.Unpack bin = Ok (BodyPack.mk (zlen (Key op)) (Key op ++ Value op)) ->
  MsgProcess.ClientMsgToOp
    (IClient (ClientMessage.mk (Optype op) dl (IncrId op) (ClerkId op) bin)) = Ok op.
Proof.
  intros E. unfold MsgProcess.ClientMsgToOp. simpl. rewrite E. simpl.
  destruct (Body_key_value (Key op) (Value op)) as [-> ->]. simpl. by destruct op.
Qed.

(** A request written by [OpToBinary] is read back by the server's framing
    whatever follows it on the stream. *)
Lemma read_request_OpToBinary max op rest :
  op_wf op -> op_fits max op ->
  exists bs, MsgProcess.OpToBinary op = Ok bs
    /\ (20 <= length bs)%nat
    /\ Framing.read_request max (bs ++ rest) = Ok (op, rest).
Proof.
  intros (Ho & Hi & Hc) [Hs Hm].
  pose proof (zlen_nonneg (Key op)). pose proof (zlen_nonneg (Value op)).
  destruct (op_body_Unpack op) as (bin & Hp & Hl & Hu); [lia|].
  unfold MsgProcess.OpToBinary. rewrite Hp. simpl. eexists. split; [done|].
  split; [rewrite !length_app, !length_le_put; lia|].
  rewrite (wrap_u_id 32 (zlen bin)) by (unfold in_u; lia).
  set (m := ClientMessage.mk (Optype op) (zlen bin) (IncrId op) (ClerkId op) bin).
  unfold Framing.read_request. change (Z.to_nat ClientDataPack.GetHeadLen) with 20%nat.
  rewrite <- !app_assoc.
  destruct (read_full 20 _) as [s|e|] eqn:Hr.
  2,3: rewrite !app_assoc, read_full_app in Hr; [done|];
    by rewrite !length_app, !length_le_put.
  apply (ClientDataPack_Unpack_Pack max m) in Hr as (head & -> & E);
    [|split_and!; try done; unfold in_u; simpl; lia|simpl; lia].
  go_step. rewrite E. go_step.
  rewrite read_full_app by (simpl; unfold zlen; lia). go_step.
  change (ClientMessage.SetData bin (ClientMessage.SetData [] m)) with m.
  unfold m. by rewrite ClientMsgToOp_body.
Qed.

Lemma request_loop_requests max ops fuel :
  Forall (fun op => op_wf op /\ op_fits max op) ops ->
  exists bss, mapM MsgProcess.OpToBinary ops = Ok bss
    /\ (length ops <= length (concat bss))%nat
    /\ ((length ops < fuel)%nat ->
        Framing.request_loop max fuel (concat bss) = (ops, Err EOF)).
Proof.
  revert fuel. induction ops as [|op ops IH]; intros fuel Hall.
  - exists []. split_and!; [done|simpl; lia|]. by destruct fuel; [lia|].
  - apply Forall_cons_1 in Hall as [[Hw Hf] Hall].
    destruct (IH (pred fuel) Hall) as (bss & Hm & Hl & Hloop).
    destruct (read_request_OpToBinary max op (concat bss) Hw Hf) as (bs & Hb & Hlen & Hr).
    exists (bs :: bss). cbn [mapM]. rewrite Hb. go_step. rewrite Hm. go_step.
    cbn [length concat]. split_and!; [done|rewrite length_app; lia|]. intros Hfuel. destruct fuel as [|fuel]; [lia|].
    cbn [Framing.request_loop pred] in *. rewrite Hr. by rewrite Hloop by lia.
Qed.

(** ** Properties *)

(** C39 (round trip): a client stream that is the concatenation of any number
    of encoded operations, each within the field widths and the package size
    limit, is split by the server's connection loop into exactly those
    operations in order, and the loop then ends with end of file: messages
    that TCP glues together are separated correctly. *)
Theorem client_stream_roundtrip max ops :
  Forall (fun op => op_wf op /\ op_fits max op) ops ->
  exists bss, mapM MsgProcess.OpToBinary ops = Ok bss
    /\ Framing.handleClientConnection max (concat bss) = (ops, Err EOF).
Proof.
  intros Hall.
  destruct (request_loop_requests max ops 0 Hall) as (bss & Hm & Hl & _).
  exists bss. split; [done|].
  destruct (request_loop_requests max ops (S (length (concat bss))) Hall)
    as (bss' & Hm' & _ & H).
  rewrite Hm in Hm'. apply Ok_inj in Hm' as <-. apply H. lia.
Qed.

Definition sample_ops : list Op :=
  [mkOp APPEND 7 101 [x6b] [x76; x77]; mkOp GET 8 (-3) [x6b] []].

Lemma client_stream_roundtrip_witness :
  exists bss, mapM MsgProcess.OpToBinary sample_ops = Ok bss
    /\ Framing.handleClientConnection 4096 (concat bss) = (sample_ops, Err EOF).
Proof.
  apply (client_stream_roundtrip 4096 sample_ops).
  repeat constructor; vm_compute; intuition congruence.
Defined.

(** A response packed by [RespToBinary], whose [DataLen] is
    the length of its payload, is recovered whole by the cluster manager's
    response reader, with the rest of the stream untouched. *)
Theorem response_roundtrip max r rest :
  ServerResponse.head_wf r ->
  ServerResponse.DataLen r = zlen (ServerResponse.Data r) ->
  max <= 0 \/ ServerResponse.DataLen r <= max ->
  exists bs, MsgProcess.RespToBinary r = Ok bs
    /\ Framing.read_response max (bs ++ rest) = Ok (r, rest).
Proof.
  intros Hwf Hlen Hmax. eexists. split; [done|].
  unfold Framing.read_response. change (Z.to_nat SerRespPack.GetHeadLen) with 28%nat.
  rewrite <- !app_assoc.
  destruct (read_full 28 _) as [s|e|] eqn:Hr.
  2,3: rewrite !app_assoc, read_full_app in Hr; [done|];
    by rewrite !length_app, !length_le_put.
  apply (SerRespPack_Unpack_Pack max r) in Hr as (head & -> & E); [|done..].
  simpl. rewrite E. simpl. rewrite read_full_app by (rewrite Hlen; unfold zlen; lia).
  simpl. by destruct r.
Qed.

(** A request the cluster manager rebuilds from a failed response
    ([RespToReq] of [OpToResp]) decodes to the very operation that failed, so a retry repeats the client's command. *)
Theorem retry_preserves_op op errId :
  zlen (Key op) < 2 ^ 32 ->
  exists r, MsgProcess.OpToResp op errId = Ok r
    /\ MsgProcess.ClientMsgToOp (IClient (MsgProcess.RespToReq r)) = Ok op.
Proof.
  intros Hk. destruct (op_body_Unpack op Hk) as (bin & Hp & _ & Hu).
  unfold MsgProcess.OpToResp. rewrite Hp. simpl. eexists. split; [done|].
  by apply (ClientMsgToOp_body op bin (wrap_u 32 (zlen bin))).
Qed.

(** The first status message of a node ([PackAddr]) splits
    into a head of [GetHeadLen] bytes and a body, and the cluster manager's
    two unpackers recover commit index, leadership, id, port and address. *)
Lemma sync_addr_roundtrip m :
  SyncMsgPack.head_wf m -> SyncMsgPack.IpLen m = zlen (SyncMsgPack.Ip m) ->
  exists head body h, SyncMsgPack.PackAddr m = Ok (head ++ body)
    /\ zlen head = SyncMsgPack.GetHeadLen
    /\ zlen body = 4 + SyncMsgPack.IpLen m
    /\ SyncMsgPack.UnpackHead head = Ok h
    /\ SyncMsgPack.UnpackBody body h = Ok m.
Proof.
  intros (H1 & H2 & H3 & H4) Hlen.
  eexists (le_put 8 _ ++ bool_put _ ++ le_put 2 _ ++ le_put 4 _), (le_put 4 _ ++ _),
    (SyncMsgPack.mk (SyncMsgPack.CommitIndex m) (SyncMsgPack.IsLeader m)
       (SyncMsgPack.IpLen m) (SyncMsgPack.ServerId m) 0 []).
  split; [unfold SyncMsgPack.PackAddr; by rewrite <- !app_assoc|].
  split; [unfold zlen; by rewrite !length_app, !length_le_put|].
  split; [rewrite zlen_app; unfold zlen at 1; rewrite length_le_put, Hlen; done|].
  split.
  - unfold SyncMsgPack.UnpackHead.
    rewrite <- (app_nil_r (le_put 4 (SyncMsgPack.ServerId m))). wire_read. done.
  - unfold SyncMsgPack.UnpackBody, slice_to, slice_from.
    pose proof (zlen_nonneg (SyncMsgPack.Ip m)). rewrite zlen_app.
    assert (zlen (le_put 4 (SyncMsgPack.Port m)) = 4) as -> by
      (unfold zlen; by rewrite length_le_put).
    zcase; try lia. change (Z.to_nat 4) with 4%nat.
    rewrite take_app_length', drop_app_length' by (by rewrite length_le_put).
    rewrite <- (app_nil_r (le_put 4 (SyncMsgPack.Port m))). wire_read.
    by destruct m.
Qed.

(** The outcome of decoding a request body: [BodyPack.Unpack] does not check
    the declared key length against the bytes that follow. *)
Lemma ClientMsgToOp_cases m :
  MsgProcess.ClientMsgToOp (IClient m) =
  let d := ClientMessage.Data m in
  if zlen d <? 4 then Err (if decide (d = []) then EOF else ErrUnexpectedEOF)
  else
    let kl := le_get (take 4 d) in
    if zlen d - 4 <? kl then Panic
    else Ok (mkOp (ClientMessage.OpId m) (ClientMessage.IncrId m) (ClientMessage.ClerkId m)
               (take (Z.to_nat kl) (drop 4 d)) (drop (Z.to_nat kl) (drop 4 d))).
Proof.
  unfold MsgProcess.ClientMsgToOp, BodyPack.Unpack, read_u. cbn [GetData].
  set (d := ClientMessage.Data m). cbv zeta. destruct (Z.ltb_spec (zlen d) 4).
  - by rewrite read_full_short by (unfold zlen in *; lia).
  - destruct (read_full 4 d) as [[bs s]|e|] eqn:Hr.
    2,3: unfold read_full in Hr; destruct (Nat.ltb_spec (length d) 4);
      [unfold zlen in *; lia|done].
    unfold read_full in Hr. destruct (Nat.ltb_spec (length d) 4); [unfold zlen in *; lia|].
    injection Hr as <- <-. go_step.
    unfold slice_from at 1. destruct (Z.ltb_spec 4 0), (Z.ltb_spec (zlen d) 4); try lia.
    change (Z.to_nat 4) with 4%nat. cbn [orb]. go_step.
    pose proof (le_get_range (take 4 d)) as Hg.
    assert (zlen (drop 4 d) = zlen d - 4) as Hd by (unfold zlen in *; rewrite length_drop; lia).
    unfold BodyPack.GetKey, BodyPack.GetValue, slice_to, slice_from.
    cbn [BodyPack.KeyLen BodyPack.KeyValue]. rewrite Hd.
    destruct (Z.ltb_spec (le_get (take 4 d)) 0), (Z.ltb_spec (zlen d - 4) (le_get (take 4 d)));
      try lia; done.
Qed.

(** A request body that is at least four bytes long makes the
    server's decoder panic exactly when its declared key length exceeds the
    bytes that follow; otherwise it decodes.  Nothing on the path checks the
    length, so one malformed request stops the node. *)
Theorem malformed_body_panics m :
  4 <= zlen (ClientMessage.Data m) ->
  MsgProcess.ClientMsgToOp (IClient m) = Panic
  <-> zlen (ClientMessage.Data m) - 4 < le_get (take 4 (ClientMessage.Data m)).
Proof.
  intros H4. rewrite ClientMsgToOp_cases. cbv zeta.
  destruct (Z.ltb_spec (zlen (ClientMessage.Data m)) 4); [lia|].
  destruct (Z.ltb_spec (zlen (ClientMessage.Data m) - 4) (le_get (take 4 (ClientMessage.Data m))));
    split; (done || lia).
Qed.

