(* ===== verification/Store.v ===== *)
(** * Store: what the Raft node needs from its persister

    The interface between raft/raft.go and persister/persister.go.  [Save] is
    the only write the node makes, [ReadRaftState] and [ReadSnapshot] are its
    reads at start-up.  The laws say that the vote and the term handed to
    [Save] are on disk when it returns, and that neither the persister's own
    goroutines nor a restart of the process change them; the log entries are
    written later by a background goroutine, so nothing is promised about
    them. *)

From S2P Require Import Prelude Types.

(** persister.State, the durable half of a node's election state. *)
Record State := mkState {
  VotedFor : Z;
  CurrentTerm : Z
}.

#[export] Instance State_eq_dec : EqDecision State.
Proof. solve_decision. Defined.

Class RaftStore (P : Type) := {
  (** [Save(snapshot, state, logs, lastIncludeIndex, lastTerm, commitIndex)] *)
  Save : P -> list byte -> State -> list Entry -> Z -> Z -> Z -> go P;
  (** log, vote, term and commit index; reading may fill a cache *)
  ReadRaftState : P -> go (P * (list (option Entry) * Z * Z * Z));
  (** snapshot bytes, its last index and its last term *)
  ReadSnapshot : P -> list byte * Z * Z;
  (** one step of the persister's own goroutines *)
  background : P -> P -> Prop;
  (** the process dies and [MakePersister] reads the disk again *)
  reboot : P -> go P;
  (** the election state on disk *)
  durable : P -> State
}.

Class RaftStoreLaws (P : Type) `{RaftStore P} := {
  Save_durable p snap st logs li lt ci p' :
    Save p snap st logs li lt ci = Ok p' -> durable p' = st;
  background_durable p p' : background p p' -> durable p' = durable p;
  reboot_durable p p' : reboot p = Ok p' -> durable p' = durable p;
  reboot_reads p p' p'' logs v t c :
    reboot p = Ok p' -> ReadRaftState p' = Ok (p'', (logs, v, t, c)) ->
    durable p = mkState v t /\ durable p'' = durable p'
}.

(** What one [Save] hands over beside the vote and the term. *)
Record Image := mkImage {
  img_snapshot : list byte;
  img_entries : list Entry;
  img_lastIndex : Z;
  img_lastTerm : Z
}.

(** A store that may lose its latest writes but does not mix them: what a
    restart reads was on disk at the start or handed to one [Save].  The log
    comes back behind a placeholder whose term is the index of the snapshot. *)
Class LogStore (P : Type) `{RaftStore P} := {
  saved : P -> Image -> Prop;
  Save_saved p snap st logs li lt ci p' img :
    Save p snap st logs li lt ci = Ok p' -> saved p' img ->
    saved p img \/ img = mkImage snap logs li lt;
  background_saved p p' img : background p p' -> saved p' img -> saved p img;
  reboot_saved p p' p'' logs v t c :
    reboot p = Ok p' -> ReadRaftState p' = Ok (p'', (logs, v, t, c)) ->
    (forall img, saved p'' img -> saved p img)
    /\ exists img, saved p img
         /\ logs = Some (mkEntry (img_lastIndex img) None) :: map Some (img_entries img)
         /\ ReadSnapshot p'' = (img_snapshot img, img_lastIndex img, img_lastTerm img)
}.

(** A store that loses nothing: only the last image can come back. *)
Class DurableLog (P : Type) `{LogStore P} :=
  Save_latest p snap st logs li lt ci p' img :
    Save p snap st logs li lt ci = Ok p' -> saved p' img -> img = mkImage snap logs li lt.

(** A store that keeps the last [Save] in memory and loses nothing, the
    simplest implementation of the interface; used to run the model. *)
Module MemStore.
Record t := mk {
  state : State;
  logs : list Entry;
  snapshot : list byte;
  lastIndex : Z;
  lastTerm : Z;
  commitIndex : Z
}.

Definition empty : t := mk (mkState (-1) 0) [] [] 0 0 0.

#[global] Instance mem_store : RaftStore t := {
  Save p snap st logs li lt ci := Ok (mk st logs snap li lt ci);
  ReadRaftState p :=
    Ok (p, (Some (mkEntry (lastIndex p) None) :: map Some (logs p),
            VotedFor (state p), CurrentTerm (state p), commitIndex p));
  ReadSnapshot p := (snapshot p, lastIndex p, lastTerm p);
  background p p' := p' = p;
  reboot p := Ok p;
  durable p := state p
}.

#[global] Instance mem_store_laws : RaftStoreLaws t.
Proof.
  split; simpl; intros; go_inv; try done; try (by subst).
  split; [|done]. by match goal with |- state ?q = _ => destruct (state q) end.
Qed.

Definition image (p : t) : Image := mkImage (snapshot p) (logs p) (lastIndex p) (lastTerm p).

#[global, refine] Instance mem_log_store : LogStore t := { saved p img := img = image p }.
Proof.
  - simpl. intros p snap st logs li lt ci p' img [= <-] ->. by right.
  - simpl. intros p p' img -> ->. done.
  - simpl. intros p p' p'' logs v t c [= ->] [= <- <- <- <- <-].
    split; [done|]. by exists (image p').
Defined.

#[global] Instance mem_durable_log : DurableLog t.
Proof. intros p snap st logs li lt ci p' img. simpl. by intros [= <-] ->. Qed.
End MemStore.
