(* ===== verification/RaftNode.v ===== *)
(** * RaftNode: one Raft peer (raft/raft.go)

    The state of [Raftserver] and every handler that changes it, each as a
    function from the state under the mutex to the state when the mutex is
    released.  A handler that releases the lock in the middle
    ([InstallSnapshot], [CommitCheck], [collectVote]) is one function per
    critical section.  [go] gives the run-time panics: an entry pointer of the
    log can be nil, and every index into the log is checked.

    Time is not part of the state: where the code compares clocks, the
    outcome of the comparison is an argument.  Terms and log indices are
    [int64] in the code and unbounded here.  The persister is any
    implementation of the interface of Store.v. *)

From S2P Require Import Prelude Types Store.

Module Raft.

Inductive Role := Leader | Follower | Candidate.

#[export] Instance Role_eq_dec : EqDecision Role.
Proof. solve_decision. Defined.

Record Raftserver (P : Type) := mkRaft {
  me : Z;  (* int32: this peer's id *)
  peers : list Z;  (* keys of the map of RPC clients: the other nodes *)
  dead : Z;  (* int32, set by Kill *)
  leaderIdx : Z;  (* int32 *)
  log : list (option Entry);  (* slice of entry pointers, slot 0 is a placeholder *)
  currentTerm : Z;  (* int64 *)
  votedFor : Z;  (* int32, -1 for none *)
  commitIndex : Z;  (* int64 *)
  lastApplied : Z;  (* int64 *)
  nextIndex : gmap Z Z;  (* map[int32]int64, global indices *)
  matchIndex : gmap Z Z;  (* map[int32]int64, global indices *)
  role : Role;
  voteCount : Z;  (* int32 *)
  snapShot : list byte;
  lastIncludedIndex : Z;  (* int64 *)
  lastIncludedTerm : Z;  (* int64 *)
  persister : P
}.

Arguments mkRaft {P}.
Arguments me {P}.
Arguments peers {P}.
Arguments dead {P}.
Arguments leaderIdx {P}.
Arguments log {P}.
Arguments currentTerm {P}.
Arguments votedFor {P}.
Arguments commitIndex {P}.
Arguments lastApplied {P}.
Arguments nextIndex {P}.
Arguments matchIndex {P}.
Arguments role {P}.
Arguments voteCount {P}.
Arguments snapShot {P}.
Arguments lastIncludedIndex {P}.
Arguments lastIncludedTerm {P}.
Arguments persister {P}.

Definition set_me {P} (x : Z) (rf : Raftserver P) : Raftserver P :=
  mkRaft x (rf.(peers)) (rf.(dead)) (rf.(leaderIdx)) (rf.(log)) (rf.(currentTerm))
  (rf.(votedFor)) (rf.(commitIndex)) (rf.(lastApplied)) (rf.(nextIndex)) (rf.(matchIndex))
  (rf.(role)) (rf.(voteCount)) (rf.(snapShot)) (rf.(lastIncludedIndex))
  (rf.(lastIncludedTerm)) (rf.(persister)).
Definition set_peers {P} (x : list Z) (rf : Raftserver P) : Raftserver P :=
  mkRaft (rf.(me)) x (rf.(dead)) (rf.(leaderIdx)) (rf.(log)) (rf.(currentTerm))
  (rf.(votedFor)) (rf.(commitIndex)) (rf.(lastApplied)) (rf.(nextIndex)) (rf.(matchIndex))
  (rf.(role)) (rf.(voteCount)) (rf.(snapShot)) (rf.(lastIncludedIndex))
  (rf.(lastIncludedTerm)) (rf.(persister)).
Definition set_dead {P} (x : Z) (rf : Raftserver P) : Raftserver P :=
  mkRaft (rf.(me)) (rf.(peers)) x (rf.(leaderIdx)) (rf.(log)) (rf.(currentTerm))
  (rf.(votedFor)) (rf.(commitIndex)) (rf.(lastApplied)) (rf.(nextIndex)) (rf.(matchIndex))
  (rf.(role)) (rf.(voteCount)) (rf.(snapShot)) (rf.(lastIncludedIndex))
  (rf.(lastIncludedTerm)) (rf.(persister)).
Definition set_leaderIdx {P} (x : Z) (rf : Raftserver P) : Raftserver P :=
  mkRaft (rf.(me)) (rf.(peers)) (rf.(dead)) x (rf.(log)) (rf.(currentTerm)) (rf.(votedFor))
  (rf.(commitIndex)) (rf.(lastApplied)) (rf.(nextIndex)) (rf.(matchIndex)) (rf.(role))
  (rf.(voteCount)) (rf.(snapShot)) (rf.(lastIncludedIndex)) (rf.(lastIncludedTerm))
  (rf.(persister)).
Definition set_log {P} (x : list (option Entry)) (rf : Raftserver P) : Raftserver P :=
  mkRaft (rf.(me)) (rf.(peers)) (rf.(dead)) (rf.(leaderIdx)) x (rf.(currentTerm))
  (rf.(votedFor)) (rf.(commitIndex)) (rf.(lastApplied)) (rf.(nextIndex)) (rf.(matchIndex))
  (rf.(role)) (rf.(voteCount)) (rf.(snapShot)) (rf.(lastIncludedIndex))
  (rf.(lastIncludedTerm)) (rf.(persister)).
Definition set_currentTerm {P} (x : Z) (rf : Raftserver P) : Raftserver P :=
  mkRaft (rf.(me)) (rf.(peers)) (rf.(dead)) (rf.(leaderIdx)) (rf.(log)) x (rf.(votedFor))
  (rf.(commitIndex)) (rf.(lastApplied)) (rf.(nextIndex)) (rf.(matchIndex)) (rf.(role))
  (rf.(voteCount)) (rf.(snapShot)) (rf.(lastIncludedIndex)) (rf.(lastIncludedTerm))
  (rf.(persister)).
Definition set_votedFor {P} (x : Z) (rf : Raftserver P) : Raftserver P :=
  mkRaft (rf.(me)) (rf.(peers)) (rf.(dead)) (rf.(leaderIdx)) (rf.(log)) (rf.(currentTerm)) x
  (rf.(commitIndex)) (rf.(lastApplied)) (rf.(nextIndex)) (rf.(matchIndex)) (rf.(role))
  (rf.(voteCount)) (rf.(snapShot)) (rf.(lastIncludedIndex)) (rf.(lastIncludedTerm))
  (rf.(persister)).
Definition set_commitIndex {P} (x : Z) (rf : Raftserver P) : Raftserver P :=
  mkRaft (rf.(me)) (rf.(peers)) (rf.(dead)) (rf.(leaderIdx)) (rf.(log)) (rf.(currentTerm))
  (rf.(votedFor)) x (rf.(lastApplied)) (rf.(nextIndex)) (rf.(matchIndex)) (rf.(role))
  (rf.(voteCount)) (rf.(snapShot)) (rf.(lastIncludedIndex)) (rf.(lastIncludedTerm))
  (rf.(persister)).
Definition set_lastApplied {P} (x : Z) (rf : Raftserver P) : Raftserver P :=
  mkRaft (rf.(me)) (rf.(peers)) (rf.(dead)) (rf.(leaderIdx)) (rf.(log)) (rf.(currentTerm))
  (rf.(votedFor)) (rf.(commitIndex)) x (rf.(nextIndex)) (rf.(matchIndex)) (rf.(role))
  (rf.(voteCount)) (rf.(snapShot)) (rf.(lastIncludedIndex)) (rf.(lastIncludedTerm))
  (rf.(persister)).
Definition set_nextIndex {P} (x : gmap Z Z) (rf : Raftserver P) : Raftserver P :=
  mkRaft (rf.(me)) (rf.(peers)) (rf.(dead)) (rf.(leaderIdx)) (rf.(log)) (rf.(currentTerm))
  (rf.(votedFor)) (rf.(commitIndex)) (rf.(lastApplied)) x (rf.(matchIndex)) (rf.(role))
  (rf.(voteCount)) (rf.(snapShot)) (rf.(lastIncludedIndex)) (rf.(lastIncludedTerm))
  (rf.(persister)).
Definition set_matchIndex {P} (x : gmap Z Z) (rf : Raftserver P) : Raftserver P :=
  mkRaft (rf.(me)) (rf.(peers)) (rf.(dead)) (rf.(leaderIdx)) (rf.(log)) (rf.(currentTerm))
  (rf.(votedFor)) (rf.(commitIndex)) (rf.(lastApplied)) (rf.(nextIndex)) x (rf.(role))
  (rf.(voteCount)) (rf.(snapShot)) (rf.(lastIncludedIndex)) (rf.(lastIncludedTerm))
  (rf.(persister)).
Definition set_role {P} (x : Role) (rf : Raftserver P) : Raftserver P :=
  mkRaft (rf.(me)) (rf.(peers)) (rf.(dead)) (rf.(leaderIdx)) (rf.(log)) (rf.(currentTerm))
  (rf.(votedFor)) (rf.(commitIndex)) (rf.(lastApplied)) (rf.(nextIndex)) (rf.(matchIndex)) x
  (rf.(voteCount)) (rf.(snapShot)) (rf.(lastIncludedIndex)) (rf.(lastIncludedTerm))
  (rf.(persister)).
Definition set_voteCount {P} (x : Z) (rf : Raftserver P) : Raftserver P :=
  mkRaft (rf.(me)) (rf.(peers)) (rf.(dead)) (rf.(leaderIdx)) (rf.(log)) (rf.(currentTerm))
  (rf.(votedFor)) (rf.(commitIndex)) (rf.(lastApplied)) (rf.(nextIndex)) (rf.(matchIndex))
  (rf.(role)) x (rf.(snapShot)) (rf.(lastIncludedIndex)) (rf.(lastIncludedTerm))
  (rf.(persister)).
Definition set_snapShot {P} (x : list byte) (rf : Raftserver P) : Raftserver P :=
  mkRaft (rf.(me)) (rf.(peers)) (rf.(dead)) (rf.(leaderIdx)) (rf.(log)) (rf.(currentTerm))
  (rf.(votedFor)) (rf.(commitIndex)) (rf.(lastApplied)) (rf.(nextIndex)) (rf.(matchIndex))
  (rf.(role)) (rf.(voteCount)) x (rf.(lastIncludedIndex)) (rf.(lastIncludedTerm))
  (rf.(persister)).
Definition set_lastIncludedIndex {P} (x : Z) (rf : Raftserver P) : Raftserver P :=
  mkRaft (rf.(me)) (rf.(peers)) (rf.(dead)) (rf.(leaderIdx)) (rf.(log)) (rf.(currentTerm))
  (rf.(votedFor)) (rf.(commitIndex)) (rf.(lastApplied)) (rf.(nextIndex)) (rf.(matchIndex))
  (rf.(role)) (rf.(voteCount)) (rf.(snapShot)) x (rf.(lastIncludedTerm)) (rf.(persister)).
Definition set_lastIncludedTerm {P} (x : Z) (rf : Raftserver P) : Raftserver P :=
  mkRaft (rf.(me)) (rf.(peers)) (rf.(dead)) (rf.(leaderIdx)) (rf.(log)) (rf.(currentTerm))
  (rf.(votedFor)) (rf.(commitIndex)) (rf.(lastApplied)) (rf.(nextIndex)) (rf.(matchIndex))
  (rf.(role)) (rf.(voteCount)) (rf.(snapShot)) (rf.(lastIncludedIndex)) x (rf.(persister)).
Definition set_persister {P} (x : P) (rf : Raftserver P) : Raftserver P :=
  mkRaft (rf.(me)) (rf.(peers)) (rf.(dead)) (rf.(leaderIdx)) (rf.(log)) (rf.(currentTerm))
  (rf.(votedFor)) (rf.(commitIndex)) (rf.(lastApplied)) (rf.(nextIndex)) (rf.(matchIndex))
  (rf.(role)) (rf.(voteCount)) (rf.(snapShot)) (rf.(lastIncludedIndex))
  (rf.(lastIncludedTerm)) x.

Arguments set_me {P} x rf /.
Arguments set_peers {P} x rf /.
Arguments set_dead {P} x rf /.
Arguments set_leaderIdx {P} x rf /.
Arguments set_log {P} x rf /.
Arguments set_currentTerm {P} x rf /.
Arguments set_votedFor {P} x rf /.
Arguments set_commitIndex {P} x rf /.
Arguments set_lastApplied {P} x rf /.
Arguments set_nextIndex {P} x rf /.
Arguments set_matchIndex {P} x rf /.
Arguments set_role {P} x rf /.
Arguments set_voteCount {P} x rf /.
Arguments set_snapShot {P} x rf /.
Arguments set_lastIncludedIndex {P} x rf /.
Arguments set_lastIncludedTerm {P} x rf /.
Arguments set_persister {P} x rf /.

Record ApplyMsg := mkApplyMsg {
  CommandValid : bool;
  MsgCommand : option Op;
  CommandIndex : Z;
  SnapshotValid : bool;
  MsgSnapshot : list byte;
  SnapshotTerm : Z;
  SnapshotIndex : Z
}.

#[export] Instance ApplyMsg_eq_dec : EqDecision ApplyMsg.
Proof. solve_decision. Defined.

(** A Go map read: the zero value for an absent key. *)
Definition mget (m : gmap Z Z) (k : Z) : Z := default 0 (m !! k).

Section node.
Context {P : Type} `{!RaftStore P}.
Implicit Types rf : Raftserver P.

(** ** Index conversion and log access *)

Definition GlobalToLocal rf (globalIndex : Z) : Z := globalIndex - rf.(lastIncludedIndex).

Definition LocalToGlobal rf (localIndex : Z) : Z := localIndex + rf.(lastIncludedIndex).

(** [rf.log[i].Term] at a local index. *)
Definition log_term (l : list (option Entry)) (i : Z) : go Z :=
  p ← idx l i; e ← deref p; mret (Term e).

(** [rf.log[len(rf.log)-1].Term] *)
Definition last_term rf : go Z := log_term rf.(log) (zlen rf.(log) - 1).

(** The global index of the last entry. *)
Definition last_index rf : Z := LocalToGlobal rf (zlen rf.(log) - 1).

Definition GetState rf : Z * bool :=
  (rf.(commitIndex), bool_decide (rf.(role) = Leader)).

Definition killed rf : bool := rf.(dead) =? 1.

Definition Kill rf : Raftserver P := set_dead 1 rf.

(** ** Persistence *)

(** The copy [persist] makes of one entry: a nil command becomes the zero
    operation. *)
Definition persist_entry (p : option Entry) : go Entry :=
  cur ← deref p;
  mret (mkEntry (Term cur)
          (Some (match Command cur with
                 | Some c => mkOp (Optype c) (IncrId c) (ClerkId c) (Key c) (Value c)
                 | None => zero_Op
                 end))).

Definition persist rf : go (Raftserver P) :=
  if 0 <? zlen rf.(log) then
    logs ← mapM persist_entry (drop 1 rf.(log));
    p ← Save rf.(persister) rf.(snapShot) (mkState rf.(votedFor) rf.(currentTerm)) logs
          rf.(lastIncludedIndex) rf.(lastIncludedTerm) rf.(commitIndex);
    mret (set_persister p rf)
  else mret rf.

Definition readPersist rf (logs : list (option Entry)) (voteFor curTerm commit : Z)
    : Raftserver P :=
  let rf := set_commitIndex commit (set_currentTerm curTerm (set_votedFor voteFor rf)) in
  if zlen logs <? 1 then rf else set_log logs rf.

(** [for i := range m { if i == me { continue }; m[i] = x }] *)
Definition set_others (self x : Z) (m : gmap Z Z) : gmap Z Z :=
  map_imap (fun i v => Some (if i =? self then v else x)) m.

Definition readSnapshot rf (data : list byte) (lastIndex lastTerm : Z) : Raftserver P :=
  if zlen data <? 1 then rf
  else
    let rf := set_lastIncludedTerm lastTerm (set_lastIncludedIndex lastIndex (set_snapShot data rf)) in
    let rf := set_nextIndex (set_others rf.(me) (lastIndex + 1) rf.(nextIndex)) rf in
    let rf := set_matchIndex (set_others rf.(me) lastIndex rf.(matchIndex)) rf in
    set_lastApplied lastIndex rf.

(** ** Applying committed entries *)

(** The message [CommitCheck] and [QuickApply] build for global index [i]. *)
Definition apply_msg rf (i : Z) : go ApplyMsg :=
  p ← idx rf.(log) (GlobalToLocal rf i);
  e ← deref p;
  mret (mkApplyMsg ((rf.(lastIncludedIndex) <? i) && bool_decide (Command e <> None))
          (Command e) i false [] (Term e) 0).

(** The loop [for rf.commitIndex > tmpApplied] of [CommitCheck]. *)
Fixpoint buffer_loop (fuel : nat) rf (tmpApplied : Z) : go (list ApplyMsg) :=
  match fuel with
  | O => Ok []
  | S fuel =>
      if tmpApplied <? rf.(commitIndex) then
        message ← apply_msg rf (tmpApplied + 1);
        buffer ← buffer_loop fuel rf (tmpApplied + 1);
        mret (message :: buffer)
      else Ok []
  end.

(** First critical section of [CommitCheck], entered once
    [commitIndex > lastApplied]: the messages to deliver. *)
Definition CommitCheck_buffer rf : go (list ApplyMsg) :=
  buffer_loop (Z.to_nat (rf.(commitIndex) - rf.(lastApplied))) rf rf.(lastApplied).

(** Second critical section, per message: whether to deliver it, and the
    [currentLastApplied] read if so. *)
Definition CommitCheck_check rf (msg : ApplyMsg) : option Z :=
  if negb (CommandIndex msg =? rf.(lastApplied) + 1) then None else Some rf.(lastApplied).

(** Third critical section, after the message went out on [applyCh]. *)
Definition CommitCheck_done rf (msg : ApplyMsg) (currentLastApplied : Z) : Raftserver P :=
  if negb (CommandIndex msg =? currentLastApplied + 1) then rf
  else set_lastApplied (Z.max rf.(lastApplied) (CommandIndex msg)) rf.

(** The delivery loop over the buffer when no other critical section
    intervenes: the messages sent and the state after the last one. *)
Fixpoint CommitCheck_deliver rf (buffer : list ApplyMsg) : list ApplyMsg * Raftserver P :=
  match buffer with
  | [] => ([], rf)
  | msg :: buffer =>
      match CommitCheck_check rf msg with
      | None => CommitCheck_deliver rf buffer
      | Some cur =>
          let '(sent, rf') := CommitCheck_deliver (CommitCheck_done rf msg cur) buffer in
          (msg :: sent, rf')
      end
  end.

(** [QuickApply], run at start-up without the lock. *)
Fixpoint quick_apply_loop (fuel : nat) rf : go (list ApplyMsg * Raftserver P) :=
  match fuel with
  | O => Ok ([], rf)
  | S fuel =>
      if rf.(lastApplied) <? rf.(commitIndex) then
        let rf := set_lastApplied (rf.(lastApplied) + 1) rf in
        message ← apply_msg rf rf.(lastApplied);
        '(sent, rf) ← quick_apply_loop fuel rf;
        mret (message :: sent, rf)
      else Ok ([], rf)
  end.

Definition QuickApply rf : go (list ApplyMsg * Raftserver P) :=
  quick_apply_loop (Z.to_nat (rf.(commitIndex) - rf.(lastApplied))) rf.

(** ** Snapshots taken by the service *)

Definition Snapshot rf (index : Z) (snapshot : list byte) : go (Raftserver P) :=
  if (rf.(commitIndex) <? index) || (index <=? rf.(lastIncludedIndex)) then mret rf
  else
    t ← log_term rf.(log) (GlobalToLocal rf index);
    l ← slice_from rf.(log) (GlobalToLocal rf index);
    let rf := set_snapShot snapshot rf in
    let rf := set_lastIncludedTerm t rf in
    let rf := set_log l rf in
    let rf := set_lastIncludedIndex index rf in
    let rf := if rf.(lastApplied) <? index then set_lastApplied index rf else rf in
    persist rf.

(** ** RequestVote *)

Definition RequestVote rf (args : RequestVoteArgs.t)
    : go (Raftserver P * RequestVoteReply.t) :=
  if RequestVoteArgs.Term args <? rf.(currentTerm) then
    mret (rf, RequestVoteReply.mk rf.(currentTerm) false)
  else
    rf ← (if rf.(currentTerm) <? RequestVoteArgs.Term args then
            persist (set_role Follower
                       (set_currentTerm (RequestVoteArgs.Term args) (set_votedFor (-1) rf)))
          else mret rf);
    let refuse := mret (rf, RequestVoteReply.mk rf.(currentTerm) false) in
    if (rf.(votedFor) =? -1) || (rf.(votedFor) =? RequestVoteArgs.CandidateId args) then
      lt ← last_term rf;
      if (lt <? RequestVoteArgs.LastLogTerm args)
         || ((last_index rf <=? RequestVoteArgs.LastLogIndex args)
             && (RequestVoteArgs.LastLogTerm args =? lt)) then
        let rf := set_votedFor (RequestVoteArgs.CandidateId args)
                    (set_currentTerm (RequestVoteArgs.Term args) rf) in
        let reply := RequestVoteReply.mk rf.(currentTerm) true in
        rf ← persist rf;
        mret (set_role Follower rf, reply)
      else refuse
    else refuse.

(** ** Commit index of the leader, for reads on a follower *)

Definition GetCommitIndex rf : GetCommitIndexReply.t :=
  GetCommitIndexReply.mk rf.(currentTerm) rf.(commitIndex).

(** What [SendCommitIndex] does with the outcome of its RPC, [None] for an
    error or a timeout: the value sent on the channel, and the error. *)
Definition SendCommitIndex rf (r : option GetCommitIndexReply.t)
    : Raftserver P * Z * option error :=
  match r with
  | None => (rf, -1, Some ErrRpc)
  | Some r =>
      if (GetCommitIndexReply.Term r <? rf.(commitIndex))
         || (GetCommitIndexReply.CommitIndex r <? rf.(commitIndex)) then
        (rf, -1, Some ErrWrongLeader)
      else
        let rf := if rf.(currentTerm) <? GetCommitIndexReply.Term r
                  then set_currentTerm (GetCommitIndexReply.Term r) rf else rf in
        (rf, GetCommitIndexReply.CommitIndex r, None)
  end.

(** ** AppendEntries *)

(** [for i > lastIncludedIndex && log[i].Term == XTerm { i -= 1 }] *)
Fixpoint conflict_scan (fuel : nat) rf (xterm i : Z) : go Z :=
  match fuel with
  | O => Ok i
  | S fuel =>
      if rf.(lastIncludedIndex) <? i then
        t ← log_term rf.(log) (GlobalToLocal rf i);
        if t =? xterm then conflict_scan fuel rf xterm (i - 1) else Ok i
      else Ok i
  end.

(** The consistency check at [PrevLogIndex]: [None] when it passes, else the
    hints [XTerm], [XIndex] and [XLen] of the refusal. *)
Definition prev_check rf (args : AppendEntriesArgs.t) : go (option (Z * Z * Z)) :=
  let prev := AppendEntriesArgs.PrevLogIndex args in
  if LocalToGlobal rf (zlen rf.(log)) <=? prev then
    mret (Some (-1, 0, LocalToGlobal rf (zlen rf.(log))))
  else if prev <? rf.(lastIncludedIndex) then
    mret (Some (-1, 0, rf.(lastIncludedIndex) + 1))
  else if rf.(commitIndex) =? prev then mret None
  else
    t ← log_term rf.(log) (GlobalToLocal rf prev);
    if negb (t =? AppendEntriesArgs.PrevLogTerm args) then
      i ← conflict_scan (Z.to_nat (prev - rf.(lastIncludedIndex))) rf t prev;
      mret (Some (t, i + 1, LocalToGlobal rf (zlen rf.(log))))
    else mret None.

(** The loop over [args.Entries]: [ridx] is the local index of the first
    entry of [es]; it stops at the first entry that conflicts or is new. *)
Fixpoint append_loop (l : list (option Entry)) (ridx : Z) (es : list (option Entry))
    : go (list (option Entry)) :=
  match es with
  | [] => Ok l
  | e :: es' =>
      if ridx <? zlen l then
        cur ← log_term l ridx;
        new ← deref e;
        if negb (cur =? Term new) then
          keep ← slice_to l ridx;
          mret (keep ++ es)
        else append_loop l (ridx + 1) es'
      else if ridx =? zlen l then
        _ ← deref e;
        _ ← log_term es (zlen es - 1);
        mret (l ++ es)
      else append_loop l (ridx + 1) es'
  end.

Definition AppendEntries rf (args : AppendEntriesArgs.t)
    : go (Raftserver P * AppendEntriesReply.t) :=
  if AppendEntriesArgs.Term args <? rf.(currentTerm) then
    _ ← last_term rf;
    mret (rf, AppendEntriesReply.mk rf.(currentTerm) false 0 0 0)
  else
    rf ← (if rf.(currentTerm) <? AppendEntriesArgs.Term args then
            rf ← persist (set_votedFor (-1) (set_currentTerm (AppendEntriesArgs.Term args) rf));
            mret (set_role Follower rf)
          else mret rf);
    conflict ← prev_check rf args;
    match conflict with
    | Some (xterm, xindex, xlen) =>
        mret (rf, AppendEntriesReply.mk rf.(currentTerm) false xterm xindex xlen)
    | None =>
        l ← (if bool_decide (rf.(role) <> Leader)
             then append_loop rf.(log) (GlobalToLocal rf (AppendEntriesArgs.PrevLogIndex args) + 1)
                    (AppendEntriesArgs.Entries args)
             else mret rf.(log));
        rf ← persist (set_log l rf);
        let reply := AppendEntriesReply.mk rf.(currentTerm) true 0 rf.(lastIncludedIndex) 0 in
        let rf := set_leaderIdx (AppendEntriesArgs.LeaderId args) rf in
        let rf :=
          if rf.(commitIndex) <? AppendEntriesArgs.LeaderCommit args
          then set_commitIndex (Z.max (AppendEntriesArgs.LeaderCommit args) (last_index rf)) rf
          else rf in
        mret (rf, reply)
    end.

(** ** Replication by the leader *)

(** What [StartSendAppendEntries] decides to send to one peer. *)
Inductive SendPlan :=
  | PlanInstallSnapshot
  | PlanAppend (args : AppendEntriesArgs.t).

Definition StartSendAppendEntries_peer rf (i : Z) : go SendPlan :=
  let prev := mget rf.(nextIndex) i - 1 in
  if prev <? rf.(lastIncludedIndex) then mret PlanInstallSnapshot
  else
    es ← (if prev <? last_index rf
          then slice_from rf.(log) (GlobalToLocal rf (mget rf.(nextIndex) i))
          else mret []);
    t ← log_term rf.(log) (GlobalToLocal rf (mget rf.(nextIndex) i - 1));
    mret (PlanAppend (AppendEntriesArgs.mk rf.(currentTerm) rf.(me) prev t rf.(commitIndex) es)).

(** One round of the heartbeat loop; [None] when the node is not the leader
    and the loop ends. *)
Definition StartSendAppendEntries rf : go (option (list (Z * SendPlan))) :=
  if bool_decide (rf.(role) <> Leader) then mret None
  else
    plans ← mapM (fun i => p ← StartSendAppendEntries_peer rf i; mret (i, p)) rf.(peers);
    mret (Some plans).

(** The heartbeats of [SingleHeartBeat]; [None] when not the leader. *)
Definition SingleHeartBeat_args rf : go (option (list (Z * AppendEntriesArgs.t))) :=
  if bool_decide (rf.(role) <> Leader) then mret None
  else
    calls ← mapM (fun i =>
      t ← log_term rf.(log) (GlobalToLocal rf (mget rf.(nextIndex) i - 1));
      mret (i, AppendEntriesArgs.mk rf.(currentTerm) rf.(me) (mget rf.(nextIndex) i - 1) t
                 rf.(commitIndex) [])) rf.(peers);
    mret (Some calls).

(** More than half, counting the node itself and the map of the others:
    [count > len(rf.peers)/2]. *)
Definition is_quorum rf (count : Z) : bool := zlen rf.(peers) / 2 <? count.

(** [SingleHeartBeat]'s verdict on the outcomes of its calls. *)
Definition SingleHeartBeat_confirm rf (oks : list bool) : bool :=
  is_quorum rf (1 + zlen (filter (fun b : bool => b = true) oks)).

(** Replicas known to hold index [c] when [log[c]] is of the current term. *)
Fixpoint commit_count rf (c : Z) (ps : list Z) : go Z :=
  match ps with
  | [] => Ok 1
  | i :: ps =>
      n ← commit_count rf c ps;
      if c <=? mget rf.(matchIndex) i then
        t ← log_term rf.(log) (GlobalToLocal rf c);
        mret (if t =? rf.(currentTerm) then n + 1 else n)
      else mret n
  end.

(** [for commitLastLog > rf.commitIndex]: the highest index a quorum holds. *)
Fixpoint commit_loop (fuel : nat) rf (c : Z) : go Z :=
  match fuel with
  | O => Ok c
  | S fuel =>
      if rf.(commitIndex) <? c then
        count ← commit_count rf c rf.(peers);
        if is_quorum rf count then
          _ ← log_term rf.(log) (GlobalToLocal rf c);
          mret c
        else commit_loop fuel rf (c - 1)
      else Ok c
  end.

(** [for i > lastIncludedIndex && log[i].Term > reply.Term { i-- }] *)
Fixpoint backoff_scan (fuel : nat) rf (t i : Z) : go Z :=
  match fuel with
  | O => Ok i
  | S fuel =>
      if rf.(lastIncludedIndex) <? i then
        t' ← log_term rf.(log) (GlobalToLocal rf i);
        if t <? t' then backoff_scan fuel rf t (i - 1) else Ok i
      else Ok i
  end.

(** Where [nextIndex] goes after a refusal with [XTerm <> -1]. *)
Definition backoff_next rf (server : Z) (reply : AppendEntriesReply.t) : go Z :=
  let i := Z.max (mget rf.(nextIndex) server - 1) rf.(lastIncludedIndex) in
  i ← backoff_scan (Z.to_nat (i - rf.(lastIncludedIndex))) rf (AppendEntriesReply.Term reply) i;
  t ← log_term rf.(log) (GlobalToLocal rf i);
  mret (if (i =? rf.(lastIncludedIndex)) && (AppendEntriesReply.Term reply <? t)
        then rf.(lastIncludedIndex)
        else if t =? AppendEntriesReply.Term reply then i + 1
        else if AppendEntriesReply.XIndex reply <=? rf.(lastIncludedIndex)
        then rf.(lastIncludedIndex)
        else AppendEntriesReply.XIndex reply).

(** [sendAppendEntriesToServer] from the moment the reply is in: the new
    state, and whether it starts a snapshot transfer to the peer. *)
Definition sendAppendEntriesToServer rf (server : Z) (args : AppendEntriesArgs.t)
    (reply : AppendEntriesReply.t) : go (Raftserver P * bool) :=
  if negb (AppendEntriesArgs.Term args =? rf.(currentTerm)) then mret (rf, false)
  else if AppendEntriesReply.Success reply then
    let m := Z.max (mget rf.(matchIndex) server)
               (AppendEntriesArgs.PrevLogIndex args + zlen (AppendEntriesArgs.Entries args)) in
    let rf := set_matchIndex (<[server := m]> rf.(matchIndex)) rf in
    let rf := set_nextIndex (<[server := m + 1]> rf.(nextIndex)) rf in
    let snap := AppendEntriesReply.XIndex reply <? rf.(lastIncludedIndex) in
    c ← commit_loop (Z.to_nat (last_index rf - rf.(commitIndex))) rf (last_index rf);
    mret (set_commitIndex c rf, snap)
  else if rf.(currentTerm) <? AppendEntriesReply.Term reply then
    _ ← last_term rf;
    rf ← persist (set_votedFor (-1) (set_currentTerm (AppendEntriesReply.Term reply) rf));
    mret (set_role Follower rf, false)
  else if (AppendEntriesReply.Term reply =? rf.(currentTerm)) && bool_decide (rf.(role) = Leader) then
    if AppendEntriesReply.XTerm reply =? -1 then
      let n := if AppendEntriesReply.XLen reply <=? rf.(lastIncludedTerm)
               then rf.(lastIncludedIndex) else AppendEntriesReply.XLen reply in
      mret (set_nextIndex (<[server := n]> rf.(nextIndex)) rf, false)
    else
      n ← backoff_next rf server reply;
      mret (set_nextIndex (<[server := n]> rf.(nextIndex)) rf, false)
  else mret (rf, false).

(** ** InstallSnapshot *)

(** The search for the snapshot's last entry in the log, from index [r]. *)
Fixpoint find_in_log rf (l : list (option Entry)) (r : Z) (index term : Z) : go (option Z) :=
  match l with
  | [] => Ok None
  | p :: l =>
      if LocalToGlobal rf r =? index then
        e ← deref p;
        if Term e =? term then Ok (Some r) else find_in_log rf l (r + 1) index term
      else find_in_log rf l (r + 1) index term
  end.

(** The handler up to the unlock before the message is sent on [applyCh]; the
    message is [None] on the early returns. *)
Definition InstallSnapshot_recv rf (args : InstallSnapshotArgs.t)
    : go (Raftserver P * InstallSnapshotReply.t * option ApplyMsg) :=
  if InstallSnapshotArgs.Term args <? rf.(currentTerm) then
    mret (rf, InstallSnapshotReply.mk rf.(currentTerm), None)
  else
    let rf := if rf.(currentTerm) <? InstallSnapshotArgs.Term args
              then set_votedFor (-1) (set_currentTerm (InstallSnapshotArgs.Term args) rf) else rf in
    let rf := set_role Follower rf in
    let lii := InstallSnapshotArgs.LastIncludedIndex args in
    let reply := InstallSnapshotReply.mk rf.(currentTerm) in
    if (lii <? rf.(lastIncludedIndex)) || (lii <? rf.(commitIndex)) then mret (rf, reply, None)
    else
      hit ← find_in_log rf rf.(log) 0 lii (InstallSnapshotArgs.LastIncludedTerm args);
      let msg := mkApplyMsg false None 0 true (InstallSnapshotArgs.Data args)
                   (InstallSnapshotArgs.LastIncludedTerm args) lii in
      l ← match hit with
          | Some rIdx => slice_from rf.(log) rIdx
          | None => mret [None; Some (mkEntry (InstallSnapshotArgs.LastIncludedTerm args)
                                              (InstallSnapshotArgs.LastIncludedCommand args))]
          end;
      let rf := set_log l rf in
      let rf := set_snapShot (InstallSnapshotArgs.Data args) rf in
      let rf := set_lastIncludedIndex lii rf in
      let rf := set_lastIncludedTerm (InstallSnapshotArgs.LastIncludedTerm args) rf in
      let rf := if rf.(commitIndex) <? lii then set_commitIndex lii rf else rf in
      let rf := set_lastApplied (Z.max rf.(lastApplied) lii) rf in
      mret (rf, reply, Some msg).

(** After the send: the lock is taken again and the state persisted. *)
Definition InstallSnapshot_finish rf : go (Raftserver P) := persist rf.

(** The request [sendInstallSnapshotToServer] builds; [None] when the node is
    not the leader. *)
Definition sendInstallSnapshot_args rf : go (option InstallSnapshotArgs.t) :=
  if bool_decide (rf.(role) <> Leader) then mret None
  else
    p ← idx rf.(log) 0;
    e ← deref p;
    mret (Some (InstallSnapshotArgs.mk rf.(currentTerm) rf.(lastIncludedIndex)
                  rf.(lastIncludedTerm) rf.(me) (Command e) rf.(snapShot))).

(** What it does with the reply. *)
Definition sendInstallSnapshotToServer rf (server : Z) (reply : InstallSnapshotReply.t)
    : go (Raftserver P) :=
  if rf.(currentTerm) <? InstallSnapshotReply.Term reply then
    persist (set_votedFor (-1) (set_role Follower
               (set_currentTerm (InstallSnapshotReply.Term reply) rf)))
  else
    mret (set_nextIndex (<[server := Z.max (LocalToGlobal rf 1) (mget rf.(nextIndex) server)]>
                           rf.(nextIndex)) rf).

(** ** Proposals *)

Definition Start rf (command : option Op) : go (Raftserver P * (Z * Z * bool)) :=
  if bool_decide (rf.(role) <> Leader) then mret (rf, (-1, -1, false))
  else
    rf ← persist (set_log (rf.(log) ++ [Some (mkEntry rf.(currentTerm) command)]) rf);
    mret (rf, (last_index rf, rf.(currentTerm), true)).

(** ** Elections *)

(** [StartElection]: the new state and the arguments sent to every peer. *)
Definition StartElection rf : go (Raftserver P * RequestVoteArgs.t) :=
  rf ← persist (set_votedFor rf.(me) (set_role Candidate
                  (set_currentTerm (rf.(currentTerm) + 1) rf)));
  let rf := set_voteCount 1 rf in
  lt ← last_term rf;
  mret (rf, RequestVoteArgs.mk rf.(currentTerm) rf.(me) (last_index rf) lt).

(** [ticker]'s test, the clock comparison given. *)
Definition ticker rf (heartbeatExpired : bool) : bool :=
  bool_decide (rf.(role) <> Leader) && heartbeatExpired.

(** [procVoteAnswer] once the reply is in: the new state and its result. *)
Definition procVoteAnswer rf (args : RequestVoteArgs.t) (reply : RequestVoteReply.t)
    : go (Raftserver P * bool) :=
  if bool_decide (rf.(role) <> Candidate)
     || negb (RequestVoteArgs.Term args =? rf.(currentTerm)) then mret (rf, false)
  else
    rf ← (if rf.(currentTerm) <? RequestVoteReply.Term reply then
            rf ← persist (set_votedFor (-1) (set_currentTerm (RequestVoteReply.Term reply) rf));
            mret (set_role Follower rf)
          else mret rf);
    mret (rf, RequestVoteReply.VoteGranted reply).

(** [for i = 0; i < int32(len(rf.nextIndex)); i++]: the bound is read again on
    every turn, and a key that is not in the map is added to it. *)
Fixpoint reset_next (fuel : nat) (x : Z) (i : Z) (m : gmap Z Z) : gmap Z Z :=
  match fuel with
  | O => m
  | S fuel =>
      if i <? Z.of_nat (size m) then reset_next fuel x (i + 1) (<[i := x]> m) else m
  end.

(** The same loop over both maps, as [collectVote] writes it: the bound is the
    size of [nextIndex]. *)
Fixpoint reset_both (fuel : nat) (x y : Z) (i : Z) (next mtch : gmap Z Z)
    : gmap Z Z * gmap Z Z :=
  match fuel with
  | O => (next, mtch)
  | S fuel =>
      if i <? Z.of_nat (size next)
      then reset_both fuel x y (i + 1) (<[i := x]> next) (<[i := y]> mtch)
      else (next, mtch)
  end.

(** Turns the loop may take: one per node id up to the largest key. *)
Definition reset_fuel (m : gmap Z Z) : nat :=
  Z.to_nat (map_fold (fun k _ acc => Z.max k acc) (-1) m + 2).

(** The critical section of [collectVote] after a granted vote; [outTime] says
    the election timed out.  The second component says the node became leader
    and starts its heartbeats. *)
Definition collectVote rf (outTime : bool) : go (Raftserver P * bool) :=
  if is_quorum rf rf.(voteCount) then mret (rf, false)
  else
    let rf := set_voteCount (rf.(voteCount) + 1) rf in
    if is_quorum rf rf.(voteCount) && bool_decide (rf.(role) = Candidate) && negb outTime then
      let rf := set_leaderIdx rf.(me) (set_role Leader rf) in
      let '(next, mtch) := reset_both (reset_fuel rf.(nextIndex))
                             (LocalToGlobal rf (zlen rf.(log))) rf.(lastIncludedIndex)
                             0 rf.(nextIndex) rf.(matchIndex) in
      let rf := set_matchIndex mtch (set_nextIndex next rf) in
      _ ← last_term rf;
      mret (rf, true)
    else mret (rf, false).

(** ** Start-up *)

(** The state [Make] builds and [connectToPeers] completes: a client for every
    other address. *)
Definition Make (nodes : list Z) (self : Z) (p : P) : Raftserver P :=
  mkRaft self (filter (fun i => i <> self) nodes) 0 0 [] 0 (-1) 0 0 ∅ ∅ Follower 0 [] 0 0 p.

(** [startWork]: load the persisted state and snapshot, reset [nextIndex],
    apply what is committed; the messages are the ones sent on [applyCh]. *)
Definition startWork rf : go (list ApplyMsg * Raftserver P) :=
  '(p, (logs, v, t, c)) ← ReadRaftState rf.(persister);
  let rf := readPersist (set_persister p rf) logs v t c in
  let '(data, li, lt) := ReadSnapshot rf.(persister) in
  let rf := readSnapshot rf data li lt in
  let rf := set_nextIndex (reset_next (reset_fuel rf.(nextIndex))
                             (LocalToGlobal rf (zlen rf.(log))) 0 rf.(nextIndex)) rf in
  QuickApply rf.

(** The client [SendCommitIndex] calls: [rf.peers[rf.leaderIdx]], a nil
    interface, and so a panic, when the node knows no such peer. *)
Definition SendCommitIndex_target rf : go Z :=
  if bool_decide (rf.(leaderIdx) ∈ rf.(peers)) then mret rf.(leaderIdx) else Panic.

End node.
End Raft.
