(* ===== verification/RaftVotes.v ===== *)
(** * RaftVotes: what each handler of a node may do to its term, vote and role

    [frame] collects the guarantees every handler but the two that run an
    election gives: the term never decreases, the vote of a term is never
    changed once cast, what reaches the disk is the current vote and term, and
    no handler makes a node a candidate or a leader.  The lemma of each handler
    is the same case analysis, done by [solve_frame]. *)

From S2P Require Import Prelude Types Store RaftNode.
Import Raft.

Section frame.
Context {P : Type} `{!RaftStore P} `{!RaftStoreLaws P}.
Implicit Types rf : Raftserver P.

(** The vote of a term is cast at most once. *)
Definition vote_kept rf rf' : Prop :=
  rf.(currentTerm) < rf'.(currentTerm)
  \/ (rf'.(currentTerm) = rf.(currentTerm)
      /\ (rf'.(votedFor) = rf.(votedFor) \/ rf.(votedFor) = -1)).

(** The disk holds what it held, or the vote and term of the new state. *)
Definition durable_kept rf rf' : Prop :=
  durable rf'.(persister) = durable rf.(persister)
  \/ durable rf'.(persister) = mkState rf'.(votedFor) rf'.(currentTerm).

Definition role_kept rf rf' : Prop :=
  (rf'.(role) = Leader -> rf.(role) = Leader /\ rf'.(currentTerm) = rf.(currentTerm))
  /\ (rf'.(role) = Candidate -> rf.(role) = Candidate /\ rf'.(voteCount) = rf.(voteCount)).

Definition frame rf rf' : Prop :=
  rf'.(me) = rf.(me) /\ rf'.(peers) = rf.(peers)
  /\ vote_kept rf rf' /\ durable_kept rf rf' /\ role_kept rf rf'.

Lemma frame_refl rf : frame rf rf.
Proof. unfold frame, vote_kept, durable_kept, role_kept. intuition auto. Qed.

(** [persist] only writes the store, and writes the current vote and term
    unless the log is empty. *)
Lemma persist_Ok rf rf' :
  persist rf = Ok rf' ->
  exists p', rf' = set_persister p' rf
    /\ (durable p' = mkState rf.(votedFor) rf.(currentTerm)
        \/ (rf.(log) = [] /\ p' = rf.(persister))).
Proof.
  unfold persist. destruct (Z.ltb_spec 0 (zlen (log rf))) as [Hl|Hl]; intros Hp.
  - apply bind_Ok in Hp as (logs & _ & Hp). apply bind_Ok in Hp as (p' & Hs & Hp).
    apply Ok_inj in Hp as <-. exists p'. split; [done|]. left. by eapply Save_durable.
  - apply Ok_inj in Hp as <-. exists (persister rf). split; [by destruct rf|]. right.
    split; [|done]. destruct (log rf); [done|]. unfold zlen in Hl. simpl in Hl. lia.
Qed.

Lemma last_term_nonempty rf t : last_term rf = Ok t -> rf.(log) <> [].
Proof.
  unfold last_term, log_term. intros H. go_inv.
  match goal with H : idx _ _ = Ok _ |- _ => apply idx_bound in H; intros E; rewrite E in H end.
  unfold zlen in *. simpl in *. lia.
Qed.

End frame.

(** Decompose a handler that returned: split its conditionals, replace each
    [persist] by its effect. *)
Ltac raft_inv :=
  repeat first
    [ progress go_inv
    | match goal with
      | H : persist _ = Ok _ |- _ =>
          let p := fresh "p" in
          let E := fresh "Hp" in
          apply persist_Ok in H as (p & -> & E)
      | H : last_term _ = Ok _ |- _ => apply last_term_nonempty in H; simpl in H
      | H : (if ?b then _ else _) = Ok _ |- _ => destruct b eqn:?
      | H : (match ?x with _ => _ end) = Ok _ |- _ => destruct x eqn:?
      end ].

Ltac split_ifs :=
  repeat match goal with
  | |- context [if ?b then _ else _] => destruct b eqn:?
  end.

Ltac solve_frame :=
  unfold frame, vote_kept, durable_kept, role_kept; split_ifs; simpl in *; zbool;
  intuition (try congruence; try lia).

Section handlers.
Context {P : Type} `{!RaftStore P} `{!RaftStoreLaws P}.
Implicit Types rf : Raftserver P.

Lemma persist_frame rf rf' : persist rf = Ok rf' -> frame rf rf'.
Proof. intros. raft_inv; solve_frame. Qed.

Lemma RequestVote_frame rf args rf' reply :
  RequestVote rf args = Ok (rf', reply) -> frame rf rf'.
Proof. unfold RequestVote. intros. raft_inv; solve_frame. Qed.

Lemma AppendEntries_frame rf args rf' reply :
  AppendEntries rf args = Ok (rf', reply) -> frame rf rf'.
Proof. unfold AppendEntries. intros. raft_inv; solve_frame. Qed.

Lemma Snapshot_frame rf index snap rf' :
  Snapshot rf index snap = Ok rf' -> frame rf rf'.
Proof. unfold Snapshot. intros. raft_inv; solve_frame. Qed.

Lemma InstallSnapshot_recv_frame rf args rf' reply msg :
  InstallSnapshot_recv rf args = Ok (rf', reply, msg) -> frame rf rf'.
Proof. unfold InstallSnapshot_recv. intros. raft_inv; solve_frame. Qed.

Lemma InstallSnapshot_finish_frame rf rf' : InstallSnapshot_finish rf = Ok rf' -> frame rf rf'.
Proof. apply persist_frame. Qed.

Lemma sendAppendEntriesToServer_frame rf server args reply rf' b :
  sendAppendEntriesToServer rf server args reply = Ok (rf', b) -> frame rf rf'.
Proof. unfold sendAppendEntriesToServer. intros. raft_inv; solve_frame. Qed.

Lemma sendInstallSnapshotToServer_frame rf server reply rf' :
  sendInstallSnapshotToServer rf server reply = Ok rf' -> frame rf rf'.
Proof. unfold sendInstallSnapshotToServer. intros. raft_inv; solve_frame. Qed.

Lemma Start_frame rf cmd rf' r : Start rf cmd = Ok (rf', r) -> frame rf rf'.
Proof. unfold Start. intros. raft_inv; solve_frame. Qed.

Lemma CommitCheck_done_frame rf msg cur : frame rf (CommitCheck_done rf msg cur).
Proof. unfold CommitCheck_done. solve_frame. Qed.

Lemma Kill_frame rf : frame rf (Kill rf).
Proof. solve_frame. Qed.

Lemma SendCommitIndex_frame rf r rf' v e :
  rf.(role) <> Leader -> SendCommitIndex rf r = (rf', v, e) -> frame rf rf'.
Proof.
  unfold SendCommitIndex. intros. destruct r; [|go_inv; solve_frame].
  repeat match goal with H : (if ?b then _ else _) = _ |- _ => destruct b eqn:? end;
    go_inv; solve_frame.
Qed.

Lemma procVoteAnswer_frame rf args reply rf' b :
  procVoteAnswer rf args reply = Ok (rf', b) -> frame rf rf'.
Proof. unfold procVoteAnswer. intros. raft_inv; solve_frame. Qed.

(** A background step of the persister keeps the frame. *)
Lemma background_frame rf p' : background rf.(persister) p' -> frame rf (set_persister p' rf).
Proof. intros Hb. apply background_durable in Hb. solve_frame. Qed.

(** ** The two handlers that run an election *)

(** [procVoteAnswer] answers true only for a candidate still in the term of
    the request. *)
Lemma procVoteAnswer_true rf args reply rf' :
  procVoteAnswer rf args reply = Ok (rf', true) ->
  RequestVoteReply.Term reply = RequestVoteArgs.Term args ->
  rf' = rf /\ rf.(role) = Candidate /\ RequestVoteArgs.Term args = rf.(currentTerm)
  /\ RequestVoteReply.VoteGranted reply = true.
Proof.
  unfold procVoteAnswer. intros H E.
  destruct (bool_decide_reflect (role rf <> Candidate)) as [?|Hr]; [by raft_inv|].
  assert (role rf = Candidate) by (destruct (role rf); (done || by destruct Hr)).
  destruct (Z.eqb_spec (RequestVoteArgs.Term args) (currentTerm rf)); simpl in H; [|by raft_inv].
  destruct (Z.ltb_spec (currentTerm rf) (RequestVoteReply.Term reply)); [lia|].
  raft_inv. by split_and!.
Qed.

Lemma StartElection_Ok rf rf' args :
  StartElection rf = Ok (rf', args) ->
  rf'.(me) = rf.(me) /\ rf'.(peers) = rf.(peers)
  /\ rf'.(currentTerm) = rf.(currentTerm) + 1 /\ rf'.(votedFor) = rf.(me)
  /\ rf'.(role) = Candidate /\ rf'.(voteCount) = 1
  /\ durable rf'.(persister) = mkState rf.(me) (rf.(currentTerm) + 1)
  /\ RequestVoteArgs.Term args = rf.(currentTerm) + 1
  /\ RequestVoteArgs.CandidateId args = rf.(me).
Proof. unfold StartElection. intros. raft_inv; intuition congruence. Qed.

Lemma collectVote_Ok rf outTime rf' b :
  collectVote rf outTime = Ok (rf', b) ->
  rf'.(me) = rf.(me) /\ rf'.(peers) = rf.(peers)
  /\ rf'.(currentTerm) = rf.(currentTerm) /\ rf'.(votedFor) = rf.(votedFor)
  /\ rf'.(persister) = rf.(persister)
  /\ (rf'.(role) = rf.(role) /\ (is_quorum rf rf.(voteCount) = true /\ rf' = rf
                                 \/ rf'.(voteCount) = rf.(voteCount) + 1)
      \/ rf.(role) = Candidate /\ rf'.(role) = Leader
         /\ is_quorum rf (rf.(voteCount) + 1) = true).
Proof.
  unfold collectVote, is_quorum. simpl. intros H.
  destruct (zlen (peers rf) / 2 <? voteCount rf) eqn:Hq; [raft_inv; intuition auto|].
  destruct (zlen (peers rf) / 2 <? voteCount rf + 1) eqn:Hq'; simpl in H;
    [|raft_inv; intuition auto].
  destruct (bool_decide_reflect (role rf = Candidate)) as [Hr|Hr]; simpl in H;
    [|raft_inv; intuition auto].
  destruct outTime; simpl in H; [raft_inv; intuition auto|].
  destruct (reset_both _ _ _ _ _ _). raft_inv. intuition auto.
Qed.

(** A granted vote: the voter is in the candidate's term, has recorded the
    candidate, and the record is on disk. *)
Lemma RequestVote_granted rf args rf' reply :
  RequestVote rf args = Ok (rf', reply) -> RequestVoteReply.VoteGranted reply = true ->
  rf'.(votedFor) = RequestVoteArgs.CandidateId args
  /\ rf'.(currentTerm) = RequestVoteArgs.Term args
  /\ durable rf'.(persister)
     = mkState (RequestVoteArgs.CandidateId args) (RequestVoteArgs.Term args)
  /\ RequestVoteReply.Term reply = RequestVoteArgs.Term args.
Proof. unfold RequestVote. intros. raft_inv; simpl in *; intuition congruence. Qed.

End handlers.
