(* ===== verification/Election.v ===== *)
(** * Election: a cluster of nodes electing leaders

    The nodes of a cluster run the handlers of RaftNode.v and exchange
    RequestVote calls.  A step is one critical section of one node (or a
    crash and restart, or a lost call); the calls in flight are the
    [collectVote] goroutines of raft/raft.go, one per candidate, peer and term,
    and a [Granted] one is between [procVoteAnswer] and the counting section of
    [collectVote].  AppendEntries, InstallSnapshot, replies and client commands
    reach a node with arbitrary arguments, which covers every message a peer
    could send.

    [step true] is the schedule in which the two critical sections of
    [collectVote] are not separated by another one of the same node, and a
    node that asked another one for its commit index is not the leader when it
    handles the answer.  [step false] is every schedule of the code. *)

From S2P Require Import Prelude Types Store RaftNode RaftVotes.
Import Raft.

Inductive VoteRpc :=
  | Called (args : RequestVoteArgs.t)
  | Answered (args : RequestVoteArgs.t) (reply : RequestVoteReply.t)
  | Granted.

Section cluster.
Context {P : Type} `{!RaftStore P}.
Variable ids : list Z.

(** The nodes, the vote calls by candidate, peer and term, and the history of
    votes cast for a candidate that asked: voter, term, candidate. *)
Record World := mkWorld {
  nodes : gmap Z (Raftserver P);
  calls : gmap (Z * Z * Z) VoteRpc;
  votes : gset (Z * Z * Z)
}.

(** One critical section of a node that is not part of counting votes. *)
Inductive local_step (atomic : bool) : Raftserver P -> Raftserver P -> Prop :=
  | ls_RequestVote args rf rf' reply :
      RequestVote rf args = Ok (rf', reply) -> local_step atomic rf rf'
  | ls_AppendEntries args rf rf' reply :
      AppendEntries rf args = Ok (rf', reply) -> local_step atomic rf rf'
  | ls_AppendReply server args reply rf rf' snap :
      sendAppendEntriesToServer rf server args reply = Ok (rf', snap) -> local_step atomic rf rf'
  | ls_InstallSnapshot args rf rf' reply msg :
      InstallSnapshot_recv rf args = Ok (rf', reply, msg) -> local_step atomic rf rf'
  | ls_InstallSnapshot_finish rf rf' :
      InstallSnapshot_finish rf = Ok rf' -> local_step atomic rf rf'
  | ls_SnapshotReply server reply rf rf' :
      sendInstallSnapshotToServer rf server reply = Ok rf' -> local_step atomic rf rf'
  | ls_Snapshot index snap rf rf' :
      Snapshot rf index snap = Ok rf' -> local_step atomic rf rf'
  | ls_Start cmd rf rf' r :
      Start rf cmd = Ok (rf', r) -> local_step atomic rf rf'
  | ls_applied rf msg cur :
      local_step atomic rf (CommitCheck_done rf msg cur)
  | ls_SendCommitIndex r rf rf' v e :
      (atomic = true -> rf.(role) <> Leader) ->
      SendCommitIndex rf r = (rf', v, e) -> local_step atomic rf rf'
  | ls_background rf p :
      background rf.(persister) p -> local_step atomic rf (set_persister p rf)
  | ls_Kill rf : local_step atomic rf (Kill rf).

(** In the atomic schedule a node with a granted vote to count does nothing
    else first. *)
Definition may_run (atomic : bool) (w : World) (n : Z) : Prop :=
  atomic = true -> forall i t, w.(calls) !! (n, i, t) <> Some Granted.

(** The calls [StartElection] makes, one per peer. *)
Definition call_peers (n t : Z) (args : RequestVoteArgs.t) (ps : list Z)
    (m : gmap (Z * Z * Z) VoteRpc) : gmap (Z * Z * Z) VoteRpc :=
  foldr (fun i m => <[(n, i, t) := Called args]> m) m ps.

(** The steps of a cluster whose nodes run the critical sections [local] beside
    the ones of an election. *)
Inductive step_by (local : Raftserver P -> Raftserver P -> Prop) (atomic : bool)
    : World -> World -> Prop :=
  | step_local w n rf rf' :
      w.(nodes) !! n = Some rf -> may_run atomic w n -> local rf rf' ->
      step_by local atomic w (mkWorld (<[n := rf']> w.(nodes)) w.(calls) w.(votes))
  | step_elect w n rf rf' args :
      w.(nodes) !! n = Some rf -> may_run atomic w n ->
      StartElection rf = Ok (rf', args) ->
      step_by local atomic w
        (mkWorld (<[n := rf']> w.(nodes))
           (call_peers n (RequestVoteArgs.Term args) args rf.(peers) w.(calls))
           ({[(n, RequestVoteArgs.Term args, n)]} ∪ w.(votes)))
  | step_vote w c i t args rf rf' reply :
      w.(calls) !! (c, i, t) = Some (Called args) ->
      w.(nodes) !! i = Some rf -> may_run atomic w i ->
      RequestVote rf args = Ok (rf', reply) ->
      step_by local atomic w
        (mkWorld (<[i := rf']> w.(nodes))
           (<[(c, i, t) := Answered args reply]> w.(calls))
           (if RequestVoteReply.VoteGranted reply
            then {[(i, t, c)]} ∪ w.(votes) else w.(votes)))
  | step_lost w k :
      w.(calls) !! k <> Some Granted ->
      step_by local atomic w (mkWorld w.(nodes) (delete k w.(calls)) w.(votes))
  | step_answer w c i t args reply rf rf' b :
      w.(calls) !! (c, i, t) = Some (Answered args reply) ->
      w.(nodes) !! c = Some rf -> may_run atomic w c ->
      procVoteAnswer rf args reply = Ok (rf', b) ->
      step_by local atomic w
        (mkWorld (<[c := rf']> w.(nodes))
           (if b : bool then <[(c, i, t) := Granted]> w.(calls)
            else delete (c, i, t) w.(calls))
           w.(votes))
  | step_count w c i t rf rf' outTime b :
      w.(calls) !! (c, i, t) = Some Granted ->
      w.(nodes) !! c = Some rf ->
      collectVote rf outTime = Ok (rf', b) ->
      step_by local atomic w
        (mkWorld (<[c := rf']> w.(nodes)) (delete (c, i, t) w.(calls)) w.(votes))
  | step_restart w n rf p msgs rf' :
      w.(nodes) !! n = Some rf -> reboot rf.(persister) = Ok p ->
      startWork (Make ids n p) = Ok (msgs, rf') ->
      step_by local atomic w
        (mkWorld (<[n := rf']> w.(nodes))
           (filter (fun kv => kv.1.1.1 <> n) w.(calls)) w.(votes)).

Definition step (atomic : bool) : World -> World -> Prop :=
  step_by (local_step atomic) atomic.

(** Every node freshly started from some disk, no call in flight. *)
Definition init (w : World) : Prop :=
  w.(calls) = ∅ /\ w.(votes) = ∅
  /\ forall n rf, w.(nodes) !! n = Some rf ->
       n ∈ ids /\ exists p0 p msgs, reboot p0 = Ok p /\ startWork (Make ids n p) = Ok (msgs, rf).

Definition reachable (atomic : bool) (w : World) : Prop :=
  exists w0, init w0 /\ rtc (step atomic) w0 w.

Definition leader_of (w : World) (n t : Z) : Prop :=
  exists rf, w.(nodes) !! n = Some rf /\ rf.(role) = Leader /\ rf.(currentTerm) = t.

End cluster.

Arguments World P : clear implicits.
Arguments mkWorld {P} nodes calls votes.
Arguments nodes {P} w.
Arguments calls {P} w.
Arguments votes {P} w.

(** ** Quorums *)

(** The peers of a node, and the quorum test of raft.go on its count. *)
Definition others (ids : list Z) (n : Z) : list Z := filter (fun i => i <> n) ids.

Lemma elem_of_others ids n i : i ∈ others ids n <-> i <> n /\ i ∈ ids.
Proof. unfold others. by rewrite list_elem_of_filter. Qed.

Lemma length_others ids n :
  NoDup ids -> n ∈ ids -> length ids = S (length (others ids n)).
Proof.
  intros Hnd Hn. change (length ids = length (n :: others ids n)).
  apply Permutation_length, NoDup_Permutation; [done| |].
  - constructor; [rewrite elem_of_others; tauto|by apply NoDup_filter].
  - intros x. rewrite elem_of_cons, elem_of_others.
    destruct (decide (x = n)); naive_solver.
Qed.

(** [count > len(peers)/2] is a strict majority of a cluster of odd size. *)
Lemma quorum_majority {P} `{!RaftStore P} ids n (rf : Raftserver P) (count : nat) :
  NoDup ids -> Nat.Odd (length ids) -> n ∈ ids -> rf.(peers) = others ids n ->
  is_quorum rf (Z.of_nat count) = true -> (length ids < 2 * count)%nat.
Proof.
  intros Hnd [k Hk] Hn Hp Hq. unfold is_quorum in Hq. rewrite Hp in Hq.
  pose proof (length_others ids n Hnd Hn) as Hl. zbool. unfold zlen in Hq.
  replace (length (others ids n)) with (2 * k)%nat in Hq by lia.
  replace (Z.of_nat (2 * k)) with (Z.of_nat k * 2) in Hq by lia.
  rewrite Z.div_mul in Hq by lia. lia.
Qed.

Lemma majorities_meet (ids q1 q2 : list Z) :
  NoDup q1 -> NoDup q2 -> (forall x, x ∈ q1 -> x ∈ ids) -> (forall x, x ∈ q2 -> x ∈ ids) ->
  (length ids < 2 * length q1)%nat -> (length ids < 2 * length q2)%nat ->
  exists x, x ∈ q1 /\ x ∈ q2.
Proof.
  intros H1 H2 S1 S2 L1 L2. destruct (decide (Exists (fun x => x ∈ q2) q1)) as [He|He].
  - by apply Exists_exists in He.
  - assert (NoDup (q1 ++ q2)) as Hnd.
    { apply NoDup_app. split_and!; try done. intros x Hx Hx'. apply He, Exists_exists. eauto. }
    apply (NoDup_submseteq _ ids) in Hnd; [|set_solver].
    apply submseteq_length in Hnd. rewrite length_app in Hnd. lia.
Qed.

Lemma call_peers_lookup n t args ps m k r :
  call_peers n t args ps m !! k = Some r ->
  (exists i, i ∈ ps /\ k = (n, i, t) /\ r = Called args) \/ m !! k = Some r.
Proof.
  induction ps as [|i ps IH]; simpl; [by right|].
  intros [[<- <-]|[_ H]]%lookup_insert_Some; [left; exists i; set_solver|].
  destruct (IH H) as [(j & ? & ? & ?)|?]; [left; exists j; set_solver|by right].
Qed.

Section safety.
Context {P : Type} `{!RaftStore P} `{!RaftStoreLaws P}.
Variable ids : list Z.
Hypothesis ids_nodup : NoDup ids.
Hypothesis ids_nonneg : forall n, n ∈ ids -> 0 <= n.
Hypothesis ids_odd : Nat.Odd (length ids).
Implicit Types w : World P.
Implicit Types rf : Raftserver P.

Lemma quick_apply_only_applied fuel rf ms rf' :
  quick_apply_loop fuel rf = Ok (ms, rf') -> exists k, rf' = set_lastApplied k rf.
Proof.
  revert rf ms rf'. induction fuel as [|fuel IH]; intros rf ms rf' H; simpl in H.
  - go_inv. exists (lastApplied rf'). by destruct rf'.
  - destruct (lastApplied rf <? commitIndex rf).
    + apply bind_Ok in H as (m & _ & H). apply bind_Ok in H as ([sent rf1] & H1 & H).
      apply IH in H1 as [k ->]. go_inv. by exists k.
    + go_inv. exists (lastApplied rf'). by destruct rf'.
Qed.

Lemma startWork_Ok n p msgs rf :
  startWork (Make ids n p) = Ok (msgs, rf) ->
  rf.(me) = n /\ rf.(peers) = others ids n /\ rf.(role) = Follower
  /\ exists logs c, ReadRaftState p = Ok (rf.(persister), (logs, rf.(votedFor), rf.(currentTerm), c)).
Proof.
  unfold startWork. intros H. apply bind_Ok in H as ([p' [[[logs v] t] c]] & Hr & H). simpl in Hr.
  destruct (ReadSnapshot _) as [[data li] lt] in H.
  unfold QuickApply in H. apply quick_apply_only_applied in H as [k ->].
  unfold readPersist, readSnapshot. split_ifs; simpl; split_and!; eauto.
Qed.

(** ** The invariant *)

(** A vote for [c] in term [t] against the recorded vote and term: the term
    has moved on, or the record is that vote. *)
Definition vote_recorded (t c curTerm voted : Z) : Prop :=
  t < curTerm \/ (t = curTerm /\ voted = c).

Record inv w : Prop := {
  inv_node n rf : w.(nodes) !! n = Some rf ->
    n ∈ ids /\ rf.(me) = n /\ rf.(peers) = others ids n;
  inv_vote i t c : (i, t, c) ∈ w.(votes) ->
    i ∈ ids /\ c ∈ ids /\ exists rf, w.(nodes) !! i = Some rf
      /\ vote_recorded t c rf.(currentTerm) rf.(votedFor)
      /\ vote_recorded t c (CurrentTerm (durable rf.(persister))) (VotedFor (durable rf.(persister)));
  inv_vote_once i t c c' : (i, t, c) ∈ w.(votes) -> (i, t, c') ∈ w.(votes) -> c = c';
  inv_call c i t r : w.(calls) !! (c, i, t) = Some r ->
    i ∈ others ids c /\ exists rf, w.(nodes) !! c = Some rf /\ t <= rf.(currentTerm)
      /\ match r with
         | Called args =>
             RequestVoteArgs.Term args = t /\ RequestVoteArgs.CandidateId args = c
         | Answered args reply =>
             RequestVoteArgs.Term args = t
             /\ (RequestVoteReply.VoteGranted reply = true ->
                 (i, t, c) ∈ w.(votes) /\ RequestVoteReply.Term reply = t)
         | Granted =>
             (i, t, c) ∈ w.(votes) /\ t = rf.(currentTerm) /\ rf.(role) = Candidate
             /\ forall i' t', w.(calls) !! (c, i', t') = Some Granted -> i' = i /\ t' = t
         end;
  inv_candidate n rf i r : w.(nodes) !! n = Some rf -> rf.(role) = Candidate ->
    w.(calls) !! (n, i, rf.(currentTerm)) = Some r ->
    exists s, NoDup s /\ rf.(voteCount) = Z.of_nat (length s)
      /\ (forall v, v ∈ s -> (v, rf.(currentTerm), n) ∈ w.(votes))
      /\ (forall v r, w.(calls) !! (n, v, rf.(currentTerm)) = Some r -> v ∉ s);
  inv_leader n rf : w.(nodes) !! n = Some rf -> rf.(role) = Leader ->
    exists q, NoDup q /\ (length ids < 2 * length q)%nat
      /\ forall v, v ∈ q -> (v, rf.(currentTerm), n) ∈ w.(votes)
}.

Lemma vote_recorded_frame i t c w rf rf' :
  inv w -> (i, t, c) ∈ w.(votes) -> w.(nodes) !! i = Some rf -> frame rf rf' ->
  vote_recorded t c rf'.(currentTerm) rf'.(votedFor)
  /\ vote_recorded t c (CurrentTerm (durable rf'.(persister))) (VotedFor (durable rf'.(persister))).
Proof.
  intros Hinv Hv Hn (_ & _ & Hk & Hd & _).
  destruct (inv_vote w Hinv i t c Hv) as (_ & Hc & rf0 & Hn' & H1 & H2).
  rewrite Hn in Hn'. injection Hn' as <-. apply ids_nonneg in Hc.
  assert (vote_recorded t c rf'.(currentTerm) rf'.(votedFor)) as H'.
  { unfold vote_recorded, vote_kept in *. intuition lia. }
  split; [done|]. destruct Hd as [->| ->]; [done|exact H'].
Qed.

Lemma init_inv w : init ids w -> inv w.
Proof.
  intros (Hc & Hv & Hn). split; intros *.
  - intros H. destruct (Hn _ _ H) as (Hin & p0 & p & ms & _ & Hs).
    apply startWork_Ok in Hs. naive_solver.
  - rewrite Hv. set_solver.
  - rewrite Hv. set_solver.
  - by rewrite Hc.
  - intros _ _. by rewrite Hc.
  - intros H. destruct (Hn _ _ H) as (Hin & p0 & p & ms & _ & Hs).
    apply startWork_Ok in Hs as (_ & _ & -> & _). done.
Qed.

(** ** Preservation, one change of the world at a time *)

(** A handler with the frame of RaftVotes.v at a node with no vote to count. *)
Lemma frame_inv w n rf rf' :
  inv w -> w.(nodes) !! n = Some rf -> may_run true w n -> frame rf rf' ->
  inv (mkWorld (<[n := rf']> w.(nodes)) w.(calls) w.(votes)).
Proof.
  intros Hinv Hn Hq Hf. pose proof Hf as (Hme & Hpe & Hvk & _ & Hrl & Hrc).
  assert (rf.(currentTerm) <= rf'.(currentTerm)) by (unfold vote_kept in Hvk; lia).
  split; simpl.
  - intros m rm [[<- <-]|[? Hm]]%lookup_insert_Some; [|by eapply inv_node].
    destruct (inv_node w Hinv n rf Hn) as (? & ? & ?). split_and!; congruence.
  - intros i t c Hv. destruct (inv_vote w Hinv i t c Hv) as (Hi & Hc & rfi & Hni & Hr).
    split_and!; [done..|]. destruct (decide (i = n)) as [->|].
    + exists rf'. rewrite lookup_insert_eq. split; [done|].
      by apply (vote_recorded_frame n t c w rf rf').
    + exists rfi. by rewrite lookup_insert_ne.
  - by eapply inv_vote_once.
  - intros c i t r Hc. destruct (inv_call w Hinv c i t r Hc) as (Hi & rfc & Hnc & Ht & Hr).
    split; [done|]. destruct (decide (c = n)) as [->|].
    + rewrite Hn in Hnc. injection Hnc as <-. exists rf'. rewrite lookup_insert_eq.
      split_and!; [done|lia|]. destruct r; [done..|]. by destruct (Hq eq_refl i t).
    + exists rfc. by rewrite lookup_insert_ne.
  - intros m rm i r [[<- <-]|[? Hm]]%lookup_insert_Some Hrole Hcall; [|by eapply inv_candidate].
    destruct (Hrc Hrole) as [Hr0 Hvc].
    destruct (inv_call w Hinv n i _ r Hcall) as (_ & rfc & Hnc & Ht & _).
    rewrite Hn in Hnc. injection Hnc as <-.
    assert (rf'.(currentTerm) = rf.(currentTerm)) as E by lia.
    rewrite E, Hvc in *. by eapply inv_candidate.
  - intros m rm [[<- <-]|[? Hm]]%lookup_insert_Some Hrole; [|by eapply inv_leader].
    destruct (Hrl Hrole) as [Hr0 E]. rewrite E. by eapply inv_leader.
Qed.

(** Calls that end without effect. *)
Lemma calls_subset_inv w m :
  inv w -> m ⊆ w.(calls) -> inv (mkWorld w.(nodes) m w.(votes)).
Proof.
  intros Hinv Hsub. rewrite map_subseteq_spec in Hsub. split; simpl.
  - eapply inv_node, Hinv.
  - eapply inv_vote, Hinv.
  - by eapply inv_vote_once.
  - intros c i t r Hc. apply Hsub in Hc.
    destruct (inv_call w Hinv c i t r Hc) as (Hi & rfc & Hnc & Ht & Hr).
    split; [done|]. exists rfc. split_and!; [done..|].
    destruct r; [done..|]. naive_solver.
  - intros n rf i r Hn Hr Hc.
    destruct (inv_candidate w Hinv n rf i r Hn Hr (Hsub _ _ Hc)) as (s & ? & ? & ? & ?).
    exists s. naive_solver.
  - intros n rf Hn Hr. by eapply inv_leader.
Qed.

(** A vote recorded by the voter, in memory and on disk, enters the history. *)
Lemma votes_add_inv w i rf t c :
  inv w -> w.(nodes) !! i = Some rf -> c ∈ ids ->
  rf.(currentTerm) = t -> rf.(votedFor) = c -> durable rf.(persister) = mkState c t ->
  inv (mkWorld w.(nodes) w.(calls) ({[(i, t, c)]} ∪ w.(votes))).
Proof.
  intros Hinv Hn Hc Ht Hv Hd.
  assert (forall c', (i, t, c') ∈ w.(votes) -> c' = c) as Hone.
  { intros c' H'. destruct (inv_vote w Hinv i t c' H') as (_ & _ & rf0 & Hn0 & Hr & _).
    rewrite Hn in Hn0. injection Hn0 as <-. unfold vote_recorded in Hr. lia. }
  split; simpl.
  - eapply inv_node, Hinv.
  - intros i' t' c' [Heq|H']%elem_of_union; [|by eapply inv_vote].
    apply elem_of_singleton in Heq. injection Heq as -> -> ->.
    split; [by eapply inv_node|]. split; [done|]. exists rf. rewrite Hd. simpl.
    unfold vote_recorded. split_and!; (done || lia).
  - intros i' t' c1 c2. rewrite !elem_of_union, !elem_of_singleton.
    intros [H1|H1] [H2|H2]; simplify_eq; [done|symmetry; by apply Hone|by apply Hone|].
    by eapply inv_vote_once.
  - intros c' i' t' r Hcall. destruct (inv_call w Hinv c' i' t' r Hcall) as (? & rfc & ? & ? & Hr).
    split; [done|]. exists rfc. split_and!; [done..|]. destruct r; set_solver.
  - intros n rfn i' r Hn' Hr Hcall.
    destruct (inv_candidate w Hinv n rfn i' r Hn' Hr Hcall) as (s & ? & ? & ? & ?).
    exists s. set_solver.
  - intros n rfn Hn' Hr. destruct (inv_leader w Hinv n rfn Hn' Hr) as (q & ? & ? & ?).
    exists q. set_solver.
Qed.

(** A call in flight changes its state but stays the same call. *)
Lemma call_update_inv w c i t r r' :
  inv w -> w.(calls) !! (c, i, t) = Some r ->
  match r' with
  | Called _ => False
  | Answered args reply =>
      RequestVoteArgs.Term args = t
      /\ (RequestVoteReply.VoteGranted reply = true ->
          (i, t, c) ∈ w.(votes) /\ RequestVoteReply.Term reply = t)
  | Granted =>
      (i, t, c) ∈ w.(votes) /\ may_run true w c
      /\ exists rf, w.(nodes) !! c = Some rf /\ t = rf.(currentTerm) /\ rf.(role) = Candidate
  end ->
  (forall args reply, r' = Answered args reply -> r <> Granted) ->
  inv (mkWorld w.(nodes) (<[(c, i, t) := r']> w.(calls)) w.(votes)).
Proof.
  intros Hinv Hcall Hr' Hng.
  destruct (inv_call w Hinv c i t r Hcall) as (Hi & rfc & Hnc & Ht & _).
  split; simpl.
  - eapply inv_node, Hinv.
  - eapply inv_vote, Hinv.
  - by eapply inv_vote_once.
  - intros c' i' t' r0 [[E <-]|[Hne Hc]]%lookup_insert_Some.
    + injection E as <- <- <-. split; [done|]. exists rfc. split_and!; [done..|].
      destruct r' as [|args reply|]; [done|done|].
      destruct Hr' as (Hv & Hq & rf & Hn & -> & Hrole). rewrite Hn in Hnc. injection Hnc as <-.
      split_and!; [done..|]. intros i' t' [[E _]|[_ H']]%lookup_insert_Some;
        [by injection E as <- <-|]. by destruct (Hq eq_refl i' t').
    + destruct (inv_call w Hinv c' i' t' r0 Hc) as (Hi' & rf' & Hn' & Ht' & Hr0).
      split; [done|]. exists rf'. split_and!; [done..|]. destruct r0 as [| |]; [done..|].
      destruct Hr0 as (? & ? & ? & Huniq). split_and!; [done..|].
      intros i0 t0 [[E ->]|[_ H']]%lookup_insert_Some; [|by eauto].
      injection E as -> <- <-. destruct Hr' as (_ & Hq & _). by destruct (Hq eq_refl i' t').
  - intros n rf i' r0 Hn Hrole [[E <-]|[Hne Hc]]%lookup_insert_Some.
    + injection E as <- <- ->.
      destruct (inv_candidate w Hinv c rf i r Hn Hrole Hcall) as (s & ? & ? & ? & Hns).
      exists s. split_and!; [done..|]. intros v r1 [[E _]|[_ H']]%lookup_insert_Some;
        [injection E as <-|]; by eapply Hns.
    + destruct (inv_candidate w Hinv n rf i' r0 Hn Hrole Hc) as (s & ? & ? & ? & Hns).
      exists s. split_and!; [done..|]. intros v r1 [[E _]|[_ H']]%lookup_insert_Some;
        [injection E as -> -> ->|]; by eapply Hns.
  - intros n rf Hn Hr. by eapply inv_leader.
Qed.

(** A node enters a new term as a candidate. *)
Lemma raise_inv w n rf rf' :
  inv w -> w.(nodes) !! n = Some rf -> may_run true w n ->
  rf'.(me) = rf.(me) -> rf'.(peers) = rf.(peers) -> rf'.(role) = Candidate ->
  rf.(currentTerm) < rf'.(currentTerm) ->
  durable rf'.(persister) = mkState rf'.(votedFor) rf'.(currentTerm) ->
  inv (mkWorld (<[n := rf']> w.(nodes)) w.(calls) w.(votes)).
Proof.
  intros Hinv Hn Hq Eme Epe Er Et Ed. split; simpl.
  - intros m rm [[<- <-]|[? Hm]]%lookup_insert_Some; [|by eapply inv_node].
    destruct (inv_node w Hinv n rf Hn) as (? & ? & ?). split_and!; congruence.
  - intros i t c Hv. destruct (inv_vote w Hinv i t c Hv) as (Hi & Hc & rfi & Hni & Hr1 & Hr2).
    split_and!; [done..|]. destruct (decide (i = n)) as [->|].
    + rewrite Hn in Hni. injection Hni as <-. exists rf'. rewrite lookup_insert_eq.
      split; [done|]. rewrite Ed. simpl. unfold vote_recorded in *. lia.
    + exists rfi. by rewrite lookup_insert_ne.
  - by eapply inv_vote_once.
  - intros c i t r Hc. destruct (inv_call w Hinv c i t r Hc) as (Hi & rfc & Hnc & Ht & Hr).
    split; [done|]. destruct (decide (c = n)) as [->|].
    + rewrite Hn in Hnc. injection Hnc as <-. exists rf'. rewrite lookup_insert_eq.
      split_and!; [done|lia|]. destruct r; [done..|]. by destruct (Hq eq_refl i t).
    + exists rfc. by rewrite lookup_insert_ne.
  - intros m rm i r [[<- <-]|[? Hm]]%lookup_insert_Some Hrole Hcall; [|by eapply inv_candidate].
    destruct (inv_call w Hinv n i _ r Hcall) as (_ & rfc & Hnc & Ht & _).
    rewrite Hn in Hnc. injection Hnc as <-. lia.
  - intros m rm [[<- <-]|[? Hm]]%lookup_insert_Some Hrole; [congruence|]. by eapply inv_leader.
Qed.

(** A candidate that has only its own vote calls its peers. *)
Lemma calls_add_inv w n rf args :
  inv w -> w.(nodes) !! n = Some rf -> may_run true w n ->
  rf.(role) = Candidate -> rf.(voteCount) = 1 ->
  RequestVoteArgs.Term args = rf.(currentTerm) -> RequestVoteArgs.CandidateId args = n ->
  (n, rf.(currentTerm), n) ∈ w.(votes) ->
  inv (mkWorld w.(nodes) (call_peers n rf.(currentTerm) args rf.(peers) w.(calls)) w.(votes)).
Proof.
  intros Hinv Hn Hq Er Evc Eat Eac Hown.
  destruct (inv_node w Hinv n rf Hn) as (Hin & Hme & Hpe). split; simpl.
  - eapply inv_node, Hinv.
  - eapply inv_vote, Hinv.
  - by eapply inv_vote_once.
  - intros c i t r [(j & Hj & E & ->)|Hc]%call_peers_lookup.
    + injection E as -> -> ->. rewrite Hpe in Hj. split; [done|]. exists rf. split_and!; (done || lia).
    + destruct (inv_call w Hinv c i t r Hc) as (Hi & rfc & Hnc & Ht & Hr).
      split; [done|]. exists rfc. split_and!; [done..|].
      destruct r; [done..|]. destruct Hr as (? & ? & ? & Hu). split_and!; [done..|].
      intros i' t0 [(j & _ & E & ?)|?]%call_peers_lookup; [done|by eauto].
  - intros m rm i r Hm Hrole Hcall. destruct (decide (m = n)) as [->|Hne].
    + rewrite Hn in Hm. injection Hm as <-. exists [n].
      split_and!; [apply NoDup_singleton|by rewrite Evc|set_solver|].
      intros v r1 Hc1 ->%list_elem_of_singleton. apply call_peers_lookup in Hc1.
      destruct Hc1 as [(j & Hj & E & ->)|Hc1].
      * injection E as ->. rewrite Hpe, elem_of_others in Hj. naive_solver.
      * apply inv_call in Hc1 as (Hi & _); [|done]. rewrite elem_of_others in Hi. naive_solver.
    + apply call_peers_lookup in Hcall as [(j & _ & E & _)|Hcall]; [naive_solver|].
      destruct (inv_candidate w Hinv m rm i r Hm Hrole Hcall) as (s & ? & ? & ? & Hns).
      exists s. split_and!; [done..|].
      intros v r1 [(j & _ & E & _)|?]%call_peers_lookup; [naive_solver|by eapply Hns].
  - intros m rm Hm Hrole. by eapply inv_leader.
Qed.

(** A new election: a fresh term, one call per peer, the candidate's own vote. *)
Lemma elect_inv w n rf rf' args :
  inv w -> w.(nodes) !! n = Some rf -> may_run true w n -> StartElection rf = Ok (rf', args) ->
  inv (mkWorld (<[n := rf']> w.(nodes))
         (call_peers n (RequestVoteArgs.Term args) args rf.(peers) w.(calls))
         ({[(n, RequestVoteArgs.Term args, n)]} ∪ w.(votes))).
Proof.
  intros Hinv Hn Hq Hse. destruct (inv_node w Hinv n rf Hn) as (Hin & Hme & Hpe).
  apply StartElection_Ok in Hse as (Eme & Epe & Et & Ev & Er & Evc & Ed & Eat & Eac).
  assert (RequestVoteArgs.Term args = rf'.(currentTerm)) as Eat' by congruence.
  rewrite Eat', <- Epe.
  assert (inv (mkWorld (<[n:=rf']> (nodes w)) (calls w) (votes w))) as H1.
  { eapply raise_inv; try done; [lia|]. rewrite Ed. congruence. }
  pose proof (votes_add_inv _ n rf' (currentTerm rf') n H1) as H2. simpl in H2.
  rewrite lookup_insert_eq in H2.
  specialize (H2 eq_refl Hin eq_refl ltac:(congruence) ltac:(rewrite Ed; congruence)).
  pose proof (calls_add_inv _ n rf' args H2) as H3. simpl in H3.
  rewrite lookup_insert_eq in H3. apply H3; try done; [congruence|set_solver].
Qed.

(** The node that counts: its term and vote stand, and its role and count are
    backed by votes of distinct nodes. *)
Lemma counted_inv w c rf rf' m :
  inv w -> w.(nodes) !! c = Some rf -> m ⊆ w.(calls) ->
  (forall i t, m !! (c, i, t) <> Some Granted) ->
  rf'.(me) = rf.(me) -> rf'.(peers) = rf.(peers) -> rf'.(currentTerm) = rf.(currentTerm) ->
  rf'.(votedFor) = rf.(votedFor) -> rf'.(persister) = rf.(persister) ->
  (rf'.(role) = Candidate -> exists s, NoDup s /\ rf'.(voteCount) = Z.of_nat (length s)
     /\ (forall v, v ∈ s -> (v, rf.(currentTerm), c) ∈ w.(votes))
     /\ (forall v r, m !! (c, v, rf.(currentTerm)) = Some r -> v ∉ s)) ->
  (rf'.(role) = Leader -> exists q, NoDup q /\ (length ids < 2 * length q)%nat
      /\ forall v, v ∈ q -> (v, rf.(currentTerm), c) ∈ w.(votes)) ->
  inv (mkWorld (<[c := rf']> w.(nodes)) m w.(votes)).
Proof.
  intros Hinv Hn Hsub Hng Eme Epe Et Ev Ep Hcand Hlead.
  pose proof Hsub as Hs. rewrite map_subseteq_spec in Hs.
  pose proof (calls_subset_inv w m Hinv Hsub) as Hinv'. split; simpl.
  - intros k rk [[<- <-]|[? Hk]]%lookup_insert_Some; [|by eapply inv_node].
    destruct (inv_node w Hinv c rf Hn) as (? & ? & ?). split_and!; congruence.
  - intros i t c' Hv. destruct (inv_vote w Hinv i t c' Hv) as (Hi & Hc & rfi & Hni & Hr).
    split_and!; [done..|]. destruct (decide (i = c)) as [->|].
    + rewrite Hn in Hni. injection Hni as <-. exists rf'. rewrite lookup_insert_eq, Et, Ev, Ep. done.
    + exists rfi. by rewrite lookup_insert_ne.
  - by eapply inv_vote_once.
  - intros c' i t r Hc. destruct (inv_call _ Hinv' c' i t r Hc) as (Hi & rfc & Hnc & Ht & Hr).
    simpl in *. split; [done|]. destruct (decide (c' = c)) as [->|].
    + rewrite Hn in Hnc. injection Hnc as <-. exists rf'. rewrite lookup_insert_eq.
      split_and!; [done|lia|]. destruct r; [done..|]. by destruct (Hng i t).
    + exists rfc. by rewrite lookup_insert_ne.
  - intros k rk i r [[<- <-]|[? Hk]]%lookup_insert_Some Hrole Hcall; [rewrite Et; by apply Hcand|].
    by eapply (inv_candidate _ Hinv' k rk i r).
  - intros k rk [[<- <-]|[? Hk]]%lookup_insert_Some Hrole; [rewrite Et; by apply Hlead|].
    by eapply inv_leader.
Qed.

Lemma count_inv w c i t rf rf' outTime b :
  inv w -> w.(calls) !! (c, i, t) = Some Granted -> w.(nodes) !! c = Some rf ->
  collectVote rf outTime = Ok (rf', b) ->
  inv (mkWorld (<[c := rf']> w.(nodes)) (delete (c, i, t) w.(calls)) w.(votes)).
Proof.
  intros Hinv Hcall Hn Hcv.
  destruct (inv_call w Hinv c i t _ Hcall) as (Hi & rfc & Hnc & _ & Hv & -> & Hrole & Huniq).
  rewrite Hn in Hnc. injection Hnc as <-.
  destruct (inv_candidate w Hinv c rf i _ Hn Hrole Hcall) as (s & Hnd & Hlen & Hsv & Hns).
  pose proof (Hns _ _ Hcall) as His.
  destruct (inv_node w Hinv c rf Hn) as (Hin & _ & Hpe).
  apply collectVote_Ok in Hcv as (Eme & Epe & Et & Ev & Ep & Hrole').
  eapply counted_inv; try done.
  - apply delete_subseteq.
  - intros i' t' [Hne H']%lookup_delete_Some. apply Huniq in H' as [-> ->]. done.
  - intros Hcand. destruct Hrole' as [[_ [[_ ->]|Hc]]|(_ & Hl & _)].
    + exists s. split_and!; [done..|]. intros v r [_ H']%lookup_delete_Some. by eapply Hns.
    + exists (i :: s). rewrite Hc, Hlen. split_and!; [by constructor|simpl; lia|set_solver|].
      intros v r [Hne H']%lookup_delete_Some. rewrite elem_of_cons.
      intros [->|Hvs]; [done|]. by eapply Hns.
    + congruence.
  - intros Hl. destruct Hrole' as [[E _]|(_ & _ & Hq)]; [congruence|].
    exists (i :: s). split_and!; [by constructor| |set_solver].
    eapply (quorum_majority ids c rf); try done. rewrite Hlen in Hq.
    replace (Z.of_nat (length (i :: s))) with (Z.of_nat (length s) + 1) by (simpl; lia). done.
Qed.

(** A restarted node: its calls are gone, its vote and term are the durable
    ones. *)
Lemma restart_inv w n rf p msgs rf' :
  inv w -> w.(nodes) !! n = Some rf -> reboot rf.(persister) = Ok p ->
  startWork (Make ids n p) = Ok (msgs, rf') ->
  inv (mkWorld (<[n := rf']> w.(nodes))
         (filter (fun kv => kv.1.1.1 <> n) w.(calls)) w.(votes)).
Proof.
  intros Hinv Hn Hb Hs.
  apply startWork_Ok in Hs as (Hme & Hpe & Hrole & logs & cm & Hrd).
  destruct (reboot_reads _ _ _ _ _ _ _ Hb Hrd) as [Hd Hp].
  apply reboot_durable in Hb. rewrite <- Hp, Hd in Hb.
  destruct (inv_node w Hinv n rf Hn) as (Hin & _).
  pose proof (calls_subset_inv w _ Hinv (map_filter_subseteq (fun kv => kv.1.1.1 <> n) (calls w)))
    as Hinv'.
  split; simpl.
  - intros k rk [[<- <-]|[? Hk]]%lookup_insert_Some; [done|by eapply inv_node].
  - intros i t c Hv. destruct (inv_vote w Hinv i t c Hv) as (Hi & Hc & rfi & Hni & _ & Hr).
    split_and!; [done..|]. destruct (decide (i = n)) as [->|].
    + rewrite Hn in Hni. injection Hni as <-. exists rf'. rewrite lookup_insert_eq.
      rewrite Hd in Hr. rewrite Hb. done.
    + destruct (inv_vote w Hinv i t c Hv) as (_ & _ & Hx). by rewrite lookup_insert_ne.
  - by eapply inv_vote_once.
  - intros c i t r Hc. destruct (inv_call _ Hinv' c i t r Hc) as (Hi & rfc & Hnc & Hr).
    apply map_lookup_filter_Some in Hc as [_ Hne]. simpl in *.
    split; [done|]. exists rfc. by rewrite lookup_insert_ne.
  - intros k rk i r [[<- <-]|[? Hk]]%lookup_insert_Some Hr Hcall; [congruence|].
    by eapply (inv_candidate _ Hinv' k rk i r).
  - intros k rk [[<- <-]|[? Hk]]%lookup_insert_Some Hr; [congruence|by eapply inv_leader].
Qed.

Lemma local_step_frame rf rf' : local_step true rf rf' -> frame rf rf'.
Proof.
  destruct 1; eauto using RequestVote_frame, AppendEntries_frame, sendAppendEntriesToServer_frame,
    InstallSnapshot_recv_frame, InstallSnapshot_finish_frame, sendInstallSnapshotToServer_frame,
    Snapshot_frame, Start_frame, CommitCheck_done_frame, SendCommitIndex_frame, background_frame,
    Kill_frame.
Qed.

Lemma vote_inv w c i t args rf rf' reply :
  inv w -> w.(calls) !! (c, i, t) = Some (Called args) -> w.(nodes) !! i = Some rf ->
  may_run true w i -> RequestVote rf args = Ok (rf', reply) ->
  inv (mkWorld (<[i := rf']> w.(nodes)) (<[(c, i, t) := Answered args reply]> w.(calls))
         (if RequestVoteReply.VoteGranted reply then {[(i, t, c)]} ∪ w.(votes) else w.(votes))).
Proof.
  intros Hinv Hcall Hn Hq Hv.
  destruct (inv_call w Hinv c i t _ Hcall) as (_ & rfc & Hnc & _ & <- & <-).
  destruct (inv_node w Hinv _ _ Hnc) as (Hcin & _).
  pose proof (frame_inv w i rf rf' Hinv Hn Hq (RequestVote_frame _ _ _ _ Hv)) as H1.
  destruct (RequestVoteReply.VoteGranted reply) eqn:Hg.
  - destruct (RequestVote_granted _ _ _ _ Hv Hg) as (Ev & Et & Ed & Er).
    pose proof (votes_add_inv _ i rf' _ _ H1 (lookup_insert_eq _ _ _) Hcin Et Ev Ed) as H2.
    eapply (call_update_inv _ _ _ _ (Called args) (Answered args reply) H2); simpl; [done| |done].
    set_solver.
  - eapply (call_update_inv _ _ _ _ (Called args) (Answered args reply) H1); simpl; [done| |done].
    by rewrite Hg.
Qed.

Lemma answer_inv w c i t args reply rf rf' b :
  inv w -> w.(calls) !! (c, i, t) = Some (Answered args reply) -> w.(nodes) !! c = Some rf ->
  may_run true w c -> procVoteAnswer rf args reply = Ok (rf', b) ->
  inv (mkWorld (<[c := rf']> w.(nodes))
         (if b : bool then <[(c, i, t) := Granted]> w.(calls) else delete (c, i, t) w.(calls))
         w.(votes)).
Proof.
  intros Hinv Hcall Hn Hq Hp.
  destruct (inv_call w Hinv c i t _ Hcall) as (_ & rfc & Hnc & _ & Et & Hg).
  pose proof (frame_inv w c rf rf' Hinv Hn Hq (procVoteAnswer_frame _ _ _ _ _ Hp)) as H1.
  destruct b; [|eapply (calls_subset_inv _ _ H1); apply delete_subseteq].
  assert (RequestVoteReply.VoteGranted reply = true) as Hgr
    by (revert Hp; unfold procVoteAnswer; intros; by raft_inv).
  destruct (Hg Hgr) as [Hvote Ert].
  destruct (procVoteAnswer_true _ _ _ _ Hp) as (-> & Hrole & Eterm & _); [congruence|].
  eapply (call_update_inv _ _ _ _ (Answered args reply) Granted H1); simpl; [done| |done].
  split_and!; [done..|]. exists rf. rewrite lookup_insert_eq. split_and!; [done|congruence|done].
Qed.

Lemma step_by_inv (local : Raftserver P -> Raftserver P -> Prop) w w' :
  (forall rf rf', local rf rf' -> frame rf rf') ->
  inv w -> step_by ids local true w w' -> inv w'.
Proof.
  intros Hl Hinv Hs.
  destruct Hs; eauto using elect_inv, vote_inv, answer_inv, count_inv, restart_inv.
  - eapply frame_inv; eauto.
  - apply calls_subset_inv; [done|apply delete_subseteq].
Qed.

Lemma step_inv w w' : inv w -> step ids true w w' -> inv w'.
Proof. apply step_by_inv, local_step_frame. Qed.

(** A term is won by one node only: the quorums of two winners share a voter,
    who voted once. *)
Definition won w (t c : Z) : Prop :=
  exists q, NoDup q /\ (length ids < 2 * length q)%nat /\ forall v, v ∈ q -> (v, t, c) ∈ w.(votes).

Lemma won_once w t a b : inv w -> won w t a -> won w t b -> a = b.
Proof.
  intros Hr (q1 & N1 & L1 & V1) (q2 & N2 & L2 & V2).
  destruct (majorities_meet ids q1 q2) as (x & X1 & X2); try done.
  - intros x Hx. by destruct (inv_vote w Hr _ _ _ (V1 x Hx)).
  - intros x Hx. by destruct (inv_vote w Hr _ _ _ (V2 x Hx)).
  - eapply inv_vote_once; [done|by apply V1|by apply V2].
Qed.

Lemma reachable_inv w : reachable ids true w -> inv w.
Proof.
  intros (w0 & H0 & Hs). apply init_inv in H0. induction Hs; eauto using step_inv.
Qed.

(** C1. At most one node leads in a term: in every state a cluster of odd size
    reaches by critical sections of its nodes, lost calls, crashes and restarts
    between them, two nodes that both are leader of the same term are the same
    node.  Two restrictions on the schedule: the two critical sections of
    [collectVote] run together (see [stale_vote_two_leaders]), and a node that
    asked another one for its commit index is not the leader when it handles the
    answer (see [late_commit_reply_two_leaders]). *)
Theorem election_safety w a b t :
  reachable ids true w -> leader_of w a t -> leader_of w b t -> a = b.
Proof.
  intros Hr (ra & Ha & Hla & Hta) (rb & Hb & Hlb & Htb). apply reachable_inv in Hr.
  eapply (won_once w (currentTerm ra)); [done|by eapply inv_leader|].
  rewrite Hta, <- Htb. by eapply inv_leader.
Qed.

(** A node votes for one candidate per term, across crashes: the votes
    ever cast by a node in a term are all for the same candidate. *)
Theorem one_vote_per_term w i t c c' :
  reachable ids true w -> (i, t, c) ∈ w.(votes) -> (i, t, c') ∈ w.(votes) -> c = c'.
Proof. intros Hr. apply reachable_inv in Hr. by eapply inv_vote_once. Qed.

End safety.

(** ** Running the cluster *)

(** An executable scheduler for the election steps, to run the model on
    concrete schedules. *)
Inductive Event :=
  | EElect (n : Z)
  | EVote (c i t : Z)
  | EAnswer (c i t : Z)
  | ECount (c i t : Z).

Section scheduler.
Context {P : Type} `{!RaftStore P}.
Implicit Types w : World P.

Definition runnable (atomic : bool) w (n : Z) : bool :=
  negb atomic
  || forallb (fun kv => negb (Z.eqb kv.1.1.1 n)
                        || match kv.2 with Granted => false | _ => true end)
       (map_to_list w.(calls)).

Definition exec (atomic : bool) w (e : Event) : option (World P) :=
  match e with
  | EElect n =>
      rf ← w.(nodes) !! n;
      if runnable atomic w n then
        match StartElection rf with
        | Ok (rf', args) =>
            Some (mkWorld (<[n := rf']> w.(nodes))
                    (call_peers n (RequestVoteArgs.Term args) args rf.(peers) w.(calls))
                    ({[(n, RequestVoteArgs.Term args, n)]} ∪ w.(votes)))
        | _ => None
        end
      else None
  | EVote c i t =>
      rf ← w.(nodes) !! i;
      match w.(calls) !! (c, i, t) with
      | Some (Called args) =>
          if runnable atomic w i then
            match RequestVote rf args with
            | Ok (rf', reply) =>
                Some (mkWorld (<[i := rf']> w.(nodes))
                        (<[(c, i, t) := Answered args reply]> w.(calls))
                        (if RequestVoteReply.VoteGranted reply
                         then {[(i, t, c)]} ∪ w.(votes) else w.(votes)))
            | _ => None
            end
          else None
      | _ => None
      end
  | EAnswer c i t =>
      rf ← w.(nodes) !! c;
      match w.(calls) !! (c, i, t) with
      | Some (Answered args reply) =>
          if runnable atomic w c then
            match procVoteAnswer rf args reply with
            | Ok (rf', b) =>
                Some (mkWorld (<[c := rf']> w.(nodes))
                        (if b : bool then <[(c, i, t) := Granted]> w.(calls)
                         else delete (c, i, t) w.(calls))
                        w.(votes))
            | _ => None
            end
          else None
      | _ => None
      end
  | ECount c i t =>
      rf ← w.(nodes) !! c;
      match w.(calls) !! (c, i, t) with
      | Some Granted =>
          match collectVote rf false with
          | Ok (rf', b) =>
              Some (mkWorld (<[c := rf']> w.(nodes)) (delete (c, i, t) w.(calls)) w.(votes))
          | _ => None
          end
      | _ => None
      end
  end.

Fixpoint exec_all (atomic : bool) w (es : list Event) : option (World P) :=
  match es with
  | [] => Some w
  | e :: es => w' ← exec atomic w e; exec_all atomic w' es
  end.

Lemma runnable_may_run atomic w n : runnable atomic w n = true -> may_run atomic w n.
Proof.
  unfold runnable, may_run. intros H -> i t Hc. simpl in H.
  rewrite forallb_forall in H. apply elem_of_map_to_list in Hc.
  specialize (H (n, i, t, Granted)). rewrite <- list_elem_of_In in H.
  specialize (H Hc). simpl in H. rewrite Z.eqb_refl in H. done.
Qed.

Lemma exec_step ids local atomic w e w' :
  exec atomic w e = Some w' -> step_by ids local atomic w w'.
Proof.
  destruct e; simpl; intros H; apply bind_Some in H as (rf & Hn & H);
    repeat match goal with
    | H : (match ?x with _ => _ end) = Some _ |- _ => destruct x eqn:?; try done
    end; injection H as <-; eauto using runnable_may_run, step_by.
Qed.

Lemma exec_all_steps ids atomic w es w' :
  exec_all atomic w es = Some w' -> rtc (step ids atomic) w w'.
Proof.
  revert w. induction es as [|e es IH]; simpl; intros w H.
  - injection H as <-. constructor.
  - apply bind_Some in H as (w1 & H1 & H). eapply rtc_l; [by apply exec_step with (e := e)|auto].
Qed.

End scheduler.

(** A cluster of nodes over the in-memory store, freshly started. *)
Definition fresh_node (ids : list Z) (n : Z) : go (Raftserver MemStore.t) :=
  r ← startWork (Make ids n MemStore.empty); mret r.2.

Fixpoint fresh_nodes (ids ns : list Z) : gmap Z (Raftserver MemStore.t) :=
  match ns with
  | [] => ∅
  | n :: ns =>
      match fresh_node ids n with
      | Ok rf => <[n := rf]> (fresh_nodes ids ns)
      | _ => fresh_nodes ids ns
      end
  end.

Definition fresh_cluster (ids : list Z) : World MemStore.t :=
  mkWorld (fresh_nodes ids ids) ∅ ∅.

Lemma fresh_nodes_lookup ids ns n rf :
  fresh_nodes ids ns !! n = Some rf -> n ∈ ns /\ fresh_node ids n = Ok rf.
Proof.
  induction ns as [|k ns IH]; cbn [fresh_nodes]; [done|].
  rewrite elem_of_cons.
  destruct (fresh_node ids k) eqn:E; [|intros []%IH; auto..].
  intros [[<- <-]|[_ []%IH]]%lookup_insert_Some; auto.
Qed.

Lemma fresh_cluster_init ids : init ids (fresh_cluster ids).
Proof.
  split_and!; [done..|]. intros n rf [Hin Hf]%fresh_nodes_lookup. split; [done|].
  unfold fresh_node in Hf. apply bind_Ok in Hf as ([msgs rf0] & Hs & E).
  apply Ok_inj in E. simpl in E. subst rf0. by exists MemStore.empty, MemStore.empty, msgs.
Qed.

(** The role and term of a node, to compare the end of a run. *)
Definition role_term {P} (w : World P) (n : Z) : option (Role * Z) :=
  rf ← w.(nodes) !! n; Some (rf.(role), rf.(currentTerm)).

Lemma role_term_leader {P} `{!RaftStore P} (w : World P) n t :
  role_term w n = Some (Leader, t) -> leader_of w n t.
Proof.
  unfold role_term. intros H. apply bind_Some in H as (rf & Hn & H).
  injection H as Hr Ht. by exists rf.
Qed.

(** One round: node [c] stands, node [i] votes for it, the vote is counted. *)
Definition elect_with (c i t : Z) : list Event :=
  [EElect c; EVote c i t; EAnswer c i t; ECount c i t].

(** The vote of term 1 is counted after the candidate has moved to term 2. *)
Definition stale_vote : list Event :=
  [EElect 0; EVote 0 1 1; EAnswer 0 1 1; EElect 0; ECount 0 1 1; EElect 2]
  ++ elect_with 2 1 2.

Lemma run_leaders ids atomic es ns :
  match exec_all atomic (fresh_cluster ids) es with
  | Some w => forallb (fun nt : Z * Z => bool_decide (role_term w nt.1 = Some (Leader, nt.2))) ns
  | None => false
  end = true ->
  exists w, reachable ids atomic w /\ forall n t, (n, t) ∈ ns -> leader_of w n t.
Proof.
  destruct (exec_all _ _ _) as [w|] eqn:E; [|done]. intros H. exists w. split.
  - exists (fresh_cluster ids). split; [apply fresh_cluster_init|by eapply exec_all_steps].
  - intros n t Hin. rewrite forallb_forall in H. apply list_elem_of_In in Hin.
    apply H, bool_decide_eq_true in Hin. by apply role_term_leader.
Qed.

(** Without that restriction on schedules the code elects two leaders: a
    vote granted for term 1 and counted by [collectVote] after the candidate
    has started term 2 makes it leader of term 2 with its own vote only, while
    the same peer's vote of term 2 elects another node. *)
Theorem stale_vote_two_leaders :
  exists w : World MemStore.t,
    reachable [0; 1; 2] false w /\ leader_of w 0 2 /\ leader_of w 2 2.
Proof.
  destruct (run_leaders [0; 1; 2] false stale_vote [(0, 2); (2, 2)]) as (w & Hr & Hl);
    [by vm_compute|]. exists w. split_and!; [done|apply Hl; set_solver..].
Qed.

(** Nor does the first restriction suffice alone: node 2 is elected in term 1 while node
    0 leads term 2, and the answer of node 0 to the question for its commit
    index, which node 2 handles as a leader, raises its term. *)
Theorem late_commit_reply_two_leaders :
  exists (w w' : World MemStore.t) r0 r2,
    reachable [0; 1; 2] true w /\ w.(nodes) !! 0 = Some r0 /\ w.(nodes) !! 2 = Some r2
    /\ w' = mkWorld (<[2 := (SendCommitIndex r2 (Some (GetCommitIndex r0))).1.1]> w.(nodes)) w.(calls) w.(votes)
    /\ step [0; 1; 2] false w w' /\ leader_of w' 0 2 /\ leader_of w' 2 2.
Proof.
  set (es := [EElect 2; EVote 2 1 1; EElect 0] ++ elect_with 0 1 2 ++ [EAnswer 2 1 1; ECount 2 1 1]).
  assert (match exec_all true (fresh_cluster [0; 1; 2]) es with
          | Some w =>
              match w.(nodes) !! 0, w.(nodes) !! 2 with
              | Some r0, Some r2 =>
                  let rf' := (SendCommitIndex r2 (Some (GetCommitIndex r0))).1.1 in
                  bool_decide (r0.(role) = Leader /\ r0.(currentTerm) = 2 /\ rf'.(role) = Leader /\ rf'.(currentTerm) = 2)
              | _, _ => false
              end
          | None => false
          end = true) as H by (by vm_compute).
  destruct (exec_all true (fresh_cluster [0; 1; 2]) es) as [w|] eqn:E; [|done].
  destruct (w.(nodes) !! 0) as [r0|] eqn:H0; [|done]. destruct (w.(nodes) !! 2) as [r2|] eqn:H2; [|done].
  apply bool_decide_eq_true in H as (A1 & A2 & A3 & A4).
  assert (reachable [0; 1; 2] true w) as Hr.
  { exists (fresh_cluster [0; 1; 2]). split; [apply fresh_cluster_init|exact (exec_all_steps _ _ _ _ _ E)]. }
  clear E. exists w. eexists. exists r0, r2. split; [exact Hr|]. split; [done|]. split; [done|]. split; [reflexivity|]. split_and!.
  - destruct (SendCommitIndex r2 (Some (GetCommitIndex r0))) as [[rf' v] e] eqn:Es.
    eapply step_local; [done|done|by eapply ls_SendCommitIndex].
  - exists r0. cbn [nodes]. split; [by rewrite lookup_insert_ne by done|done].
  - eexists. cbn [nodes]. split; [apply lookup_insert_eq|done].
Qed.

(** The quorum test [voteCount > len(peers)/2] is not a majority when the
    cluster has an even number of nodes: in a cluster of four, two pairs elect
    two leaders of the same term, in atomic schedules. *)
Theorem even_cluster_two_leaders :
  exists w : World MemStore.t,
    reachable [0; 1; 2; 3] true w /\ leader_of w 0 1 /\ leader_of w 2 1.
Proof.
  destruct (run_leaders [0; 1; 2; 3] true (elect_with 0 1 1 ++ elect_with 2 3 1)
              [(0, 1); (2, 1)]) as (w & Hr & Hl);
    [by vm_compute|]. exists w. split_and!; [done|apply Hl; set_solver..].
Qed.

Lemma three_nodup : NoDup [0; 1; 2].
Proof. apply (bool_decide_unpack _). by vm_compute. Qed.

Lemma three_nonneg n : n ∈ [0; 1; 2] -> 0 <= n.
Proof. intros Hn. apply list_elem_of_In in Hn. simpl in Hn. lia. Qed.

Lemma election_safety_witness :
  exists w : World MemStore.t, reachable [0; 1; 2] true w /\ leader_of w 0 1
    /\ forall b, leader_of w b 1 -> 0 = b.
Proof.
  destruct (run_leaders [0; 1; 2] true (elect_with 0 1 1) [(0, 1)]) as (w & Hr & Hl);
    [by vm_compute|]. exists w. split_and!; [done|apply Hl; set_solver|].
  intros b. apply (election_safety [0; 1; 2] three_nodup three_nonneg);
    [by exists 1%nat|done|apply Hl; set_solver].
Defined.

Lemma one_vote_per_term_witness :
  exists w : World MemStore.t, reachable [0; 1; 2] true w /\ (1, 1, 0) ∈ w.(votes)
    /\ forall c, (1, 1, c) ∈ w.(votes) -> 0 = c.
Proof.
  destruct (exec_all true (fresh_cluster [0; 1; 2]) (elect_with 0 1 1)) as [w|] eqn:E;
    [|by vm_compute in E].
  assert (reachable [0; 1; 2] true w) as Hr.
  { exists (fresh_cluster [0; 1; 2]). split; [apply fresh_cluster_init|by eapply exec_all_steps]. }
  assert ((1, 1, 0) ∈ votes w) as Hv.
  { vm_compute in E. injection E as <-. set_solver. }
  exists w. split_and!; [done..|]. intros c.
  apply (one_vote_per_term [0; 1; 2] three_nodup three_nonneg); [by exists 1%nat|done|done].
Defined.
