(* ===== verification/RaftLog.v ===== *)
(** * RaftLog: the log of a node, replication, commitment and compaction

    The functional behaviour of the handlers of RaftNode.v on the log.  A log
    is well formed when it is not empty and holds no nil entry; the store is
    one whose [Save] succeeds.  [merge_log] is the reference definition of what
    an accepted AppendEntries does to a follower's log, and [log_at] looks an
    entry up by its global index, which compaction must not change. *)

From S2P Require Import Prelude Types Store RaftNode RaftVotes Election.
Import Raft.

(** ** Logs *)

Definition wf_log (l : list (option Entry)) : Prop := l <> [] /\ Forall is_Some l.

Definition wf_entries (es : list (option Entry)) : Prop := Forall is_Some es.

Lemma wf_log_length l : wf_log l -> 0 < zlen l.
Proof. intros [Hl _]. destruct l; [done|]. unfold zlen. simpl. lia. Qed.

Lemma log_term_Ok l i t :
  log_term l i = Ok t <-> exists e, 0 <= i /\ l !! Z.to_nat i = Some (Some e) /\ Term e = t.
Proof.
  unfold log_term. split.
  - intros H. go_inv. apply idx_Ok in H as [? H]. naive_solver.
  - intros (e & Hi & Hl & <-). unfold idx. destruct (Z.ltb_spec i 0); [lia|]. by rewrite Hl.
Qed.

Lemma log_term_wf l i :
  Forall is_Some l -> 0 <= i < zlen l ->
  exists e, l !! Z.to_nat i = Some (Some e) /\ log_term l i = Ok (Term e).
Proof.
  intros Hw Hi. destruct (idx_in_range l i Hi) as [p Hp]. apply idx_Ok in Hp as [_ Hp].
  destruct (Forall_lookup_1 _ _ _ _ Hw Hp) as [e ->].
  exists e. split; [done|]. rewrite log_term_Ok. naive_solver lia.
Qed.

(** How many entries of [es] agree in term with [l], from the start. *)
Fixpoint agree (l es : list (option Entry)) : nat :=
  match l, es with
  | Some a :: l, Some e :: es => if Term a =? Term e then S (agree l es) else 0%nat
  | _, _ => 0%nat
  end.

(** The log after receiving [es] for the slots from [r] on: unchanged when it
    already has them all, else cut at the first slot that differs and
    continued with the rest of [es]. *)
Definition merge_log (l : list (option Entry)) (r : nat) (es : list (option Entry))
    : list (option Entry) :=
  let k := agree (drop r l) es in
  if bool_decide (k = length es) then l else take (r + k) l ++ drop k es.

Lemma agree_le l es : (agree l es <= length es /\ agree l es <= length l)%nat.
Proof.
  revert es. induction l as [|[a|] l IH]; intros [|[e|] es]; simpl; try lia.
  destruct (Term a =? Term e); [|lia]. specialize (IH es). lia.
Qed.

(** The slots of [l] that agree have the term of the entry of [es]. *)
Lemma agree_lookup l es i e :
  (i < agree l es)%nat -> es !! i = Some (Some e) ->
  exists a, l !! i = Some (Some a) /\ Term a = Term e.
Proof.
  revert es i. induction l as [|[a|] l IH]; intros [|[e'|] es] i; simpl; try lia.
  destruct (Z.eqb_spec (Term a) (Term e')); [|lia].
  destruct i as [|i]; simpl; intros Hi Hl; [naive_solver|]. apply (IH es); [lia|done].
Qed.

Lemma merge_log_cons l r a e es :
  l !! r = Some (Some a) -> Term a = Term e ->
  merge_log l r (Some e :: es) = merge_log l (S r) es.
Proof.
  intros Hl Ht. unfold merge_log. rewrite (drop_S l (Some a) r Hl). simpl.
  rewrite Ht, Z.eqb_refl. replace (r + S (agree (drop (S r) l) es))%nat
    with (S r + agree (drop (S r) l) es)%nat by lia.
  destruct (decide (agree (drop (S r) l) es = length es)).
  - rewrite !bool_decide_true by lia. done.
  - rewrite !bool_decide_false by lia. done.
Qed.

(** [append_loop] computes [merge_log], and does not panic. *)
Lemma append_loop_merge l r es :
  Forall is_Some l -> wf_entries es -> 0 <= r <= zlen l ->
  append_loop l r es = Ok (merge_log l (Z.to_nat r) es).
Proof.
  intros Hl Hes. revert r. induction Hes as [|p es [e ->] Hes IH]; intros r Hr.
  - unfold merge_log. rewrite bool_decide_true; [done|]. destruct (drop _ l) as [|[]]; done.
  - cbn [append_loop]. destruct (Z.ltb_spec r (zlen l)) as [Hlt|Hge].
    + destruct (log_term_wf l r Hl) as (a & Ha & ->); [lia|]. go_step. cbn [deref]. go_step.
      destruct (Z.eqb_spec (Term a) (Term e)) as [E|E]; cbn [negb].
      * rewrite IH by lia. rewrite (merge_log_cons _ _ a) by done.
        by replace (Z.to_nat (r + 1)) with (S (Z.to_nat r)) by lia.
      * replace (slice_to l r) with (Ok (take (Z.to_nat r) l))
          by (symmetry; apply slice_to_Ok; split; [lia|done]).
        go_step. unfold merge_log. rewrite (drop_S _ _ _ Ha). simpl.
        destruct (Z.eqb_spec (Term a) (Term e)); [done|]. simpl. by rewrite Nat.add_0_r.
    + destruct (Z.eqb_spec r (zlen l)) as [->|]; [|lia]. cbn [deref]. go_step.
      destruct (log_term_wf (Some e :: es) (zlen (Some e :: es) - 1)) as (x & _ & ->);
        [by constructor; [eexists|]|rewrite zlen_cons; pose proof (zlen_nonneg es); lia|].
      go_step. unfold merge_log, zlen. rewrite Nat2Z.id, drop_all. simpl.
      rewrite Nat.add_0_r, take_ge by lia. done.
Qed.

Lemma merge_log_wf l r es : Forall is_Some l -> wf_entries es -> Forall is_Some (merge_log l r es).
Proof.
  intros Hl Hes. unfold merge_log. case_bool_decide; [done|].
  apply Forall_app. split; [by apply Forall_take|by apply Forall_drop].
Qed.

(** What lies before the new slots is kept. *)
Lemma merge_log_prefix l r es i :
  (i < r <= length l)%nat -> merge_log l r es !! i = l !! i.
Proof.
  intros Hi. unfold merge_log. case_bool_decide; [done|].
  rewrite lookup_app_l by (rewrite length_take; lia). apply lookup_take_lt. lia.
Qed.

(** The new slots hold the entries received, or one of the same term that was
    there. *)
Lemma merge_log_has l r es j e :
  (r <= length l)%nat -> es !! j = Some (Some e) ->
  exists a, merge_log l r es !! (r + j)%nat = Some (Some a) /\ Term a = Term e
    /\ (a = e \/ l !! (r + j)%nat = Some (Some a)).
Proof.
  intros Hr He. pose proof (agree_le (drop r l) es) as [Hk Hk'].
  rewrite length_drop in Hk'. pose proof (lookup_lt_Some _ _ _ He) as Hj.
  unfold merge_log. case_bool_decide as Ek.
  - destruct (agree_lookup (drop r l) es j e) as (a & Ha & Et); [lia|done|].
    rewrite lookup_drop in Ha. eauto 6.
  - destruct (decide (j < agree (drop r l) es)%nat) as [Hlt|Hge].
    + destruct (agree_lookup (drop r l) es j e) as (a & Ha & Et); [lia|done|].
      rewrite lookup_drop in Ha. exists a.
      rewrite lookup_app_l, lookup_take_lt by (rewrite ?length_take; lia). eauto.
    + exists e. rewrite lookup_app_r by (rewrite length_take; lia).
      rewrite length_take, lookup_drop. split; [|by split; [|left]].
      replace (agree (drop r l) es + (r + j - (r + agree (drop r l) es) `min` length l))%nat
        with j by lia. done.
Qed.

(** Where the agreement ends before the entries do, the log ends or differs. *)
Lemma agree_stops l es e :
  Forall is_Some l -> es !! agree l es = Some (Some e) ->
  l !! agree l es = None \/ exists a, l !! agree l es = Some (Some a) /\ Term a <> Term e.
Proof.
  intros Hl. revert es. induction Hl as [|? l [a ->] Hl IH]; intros [|[e'|] es] He; simpl in *; try done; [by left|].
  destruct (Z.eqb_spec (Term a) (Term e')) as [E|E]; simpl in *; [by apply IH|]. right. naive_solver.
Qed.

Lemma agree_all l es :
  wf_entries es ->
  (forall j e, es !! j = Some (Some e) -> exists a, l !! j = Some (Some a) /\ Term a = Term e) ->
  agree l es = length es.
Proof.
  intros Hes. revert l. induction Hes as [|? es [e ->] _ IH]; intros l H; [by destruct l as [|[]]|].
  destruct (H 0%nat e eq_refl) as (a & Ha & Et). destruct l as [|[b|] l]; simplify_eq/=.
  rewrite Et, Z.eqb_refl. f_equal. apply IH. intros j x Hj. apply (H (S j) x Hj).
Qed.

(** Receiving the same entries again changes nothing. *)
Lemma merge_log_idem l r es :
  (r <= length l)%nat -> wf_entries es -> merge_log (merge_log l r es) r es = merge_log l r es.
Proof.
  intros Hr Hes. unfold merge_log at 1. rewrite bool_decide_true; [done|].
  apply agree_all; [done|]. intros j e Hj. rewrite lookup_drop.
  destruct (merge_log_has l r es j e Hr Hj) as (a & ? & ? & _). eauto.
Qed.

(** ** Handlers under a store that accepts every write *)

Class ReliableStore (P : Type) `{RaftStore P} :=
  Save_total p snap st logs li lt ci : exists p', Save p snap st logs li lt ci = Ok p'.

#[export] Instance mem_store_reliable : ReliableStore MemStore.t.
Proof. intros p snap st logs li lt ci. by eexists. Qed.

Section handlers.
Context {P : Type} `{!RaftStore P} `{!ReliableStore P}.
Implicit Types rf : Raftserver P.

(** The entry at a global index. *)
Definition log_at rf (g : Z) : option Entry :=
  if g <? rf.(lastIncludedIndex) then None
  else mjoin (rf.(log) !! Z.to_nat (GlobalToLocal rf g)).

Lemma persist_entries_total l :
  Forall is_Some l -> exists logs, mapM persist_entry l = Ok logs.
Proof.
  induction 1 as [|? l [e ->] _ [logs IH]]; [by exists []|].
  eexists. apply bind_Ok. eexists. split; [reflexivity|]. apply bind_Ok. eauto.
Qed.

(** [persist] succeeds and changes the store only; it does not read slot 0. *)
Lemma persist_tail rf :
  rf.(log) <> [] -> Forall is_Some (drop 1 rf.(log)) ->
  exists p, persist rf = Ok (set_persister p rf).
Proof.
  intros Hne Hw. unfold persist.
  destruct (Z.ltb_spec 0 (zlen (log rf))) as [_|H]; [|by destruct (log rf)].
  destruct (persist_entries_total (drop 1 (log rf))) as [logs ->]; [done|].
  go_step. destruct (Save_total (persister rf) (snapShot rf) (mkState (votedFor rf) (currentTerm rf))
    logs (lastIncludedIndex rf) (lastIncludedTerm rf) (commitIndex rf)) as [p ->].
  go_step. by exists p.
Qed.

Lemma persist_total rf :
  wf_log rf.(log) -> exists p, persist rf = Ok (set_persister p rf).
Proof. intros [Hne Hw]. apply persist_tail; [done|by apply Forall_drop]. Qed.

Lemma last_term_wf rf :
  wf_log rf.(log) -> exists e, log_at rf (last_index rf) = Some e /\ last_term rf = Ok (Term e).
Proof.
  intros Hw. pose proof (wf_log_length _ Hw). destruct Hw as [_ Hw].
  destruct (log_term_wf (log rf) (zlen (log rf) - 1) Hw) as (e & He & Ht); [lia|].
  exists e. split; [|done]. unfold log_at, last_index, LocalToGlobal, GlobalToLocal.
  destruct (Z.ltb_spec (zlen (log rf) - 1 + lastIncludedIndex rf) (lastIncludedIndex rf)); [lia|].
  replace (zlen (log rf) - 1 + lastIncludedIndex rf - lastIncludedIndex rf)
    with (zlen (log rf) - 1) by lia. by rewrite He.
Qed.

Lemma log_at_in_range rf g :
  wf_log rf.(log) -> rf.(lastIncludedIndex) <= g <= last_index rf ->
  exists e, log_at rf g = Some e /\ log_term rf.(log) (GlobalToLocal rf g) = Ok (Term e).
Proof.
  intros [_ Hw] Hg. unfold last_index, LocalToGlobal in Hg. unfold log_at, GlobalToLocal.
  destruct (log_term_wf (log rf) (g - lastIncludedIndex rf) Hw) as (e & He & Ht); [lia|].
  exists e. split; [|done]. destruct (Z.ltb_spec g (lastIncludedIndex rf)); [lia|]. by rewrite He.
Qed.

(** Rewrite with the outcome of the next [persist]. *)
Ltac run_persist :=
  match goal with
  | |- context [persist ?rf] =>
      let p := fresh "p" in
      let H := fresh "Hp" in
      destruct (persist_total rf) as [p H]; [simpl; done|];
      rewrite H; clear H; go_step
  end.

(** ** Votes *)

(** The candidate's log is at least as up to date: the lexicographic order on
    the term and the index of the last entries. *)
Definition up_to_date rf (args : RequestVoteArgs.t) : Prop :=
  exists e, log_at rf (last_index rf) = Some e
    /\ (Term e < RequestVoteArgs.LastLogTerm args
        \/ (Term e = RequestVoteArgs.LastLogTerm args
            /\ last_index rf <= RequestVoteArgs.LastLogIndex args)).

Definition may_vote rf (args : RequestVoteArgs.t) : Prop :=
  rf.(currentTerm) < RequestVoteArgs.Term args
  \/ (rf.(currentTerm) = RequestVoteArgs.Term args
      /\ (rf.(votedFor) = -1 \/ rf.(votedFor) = RequestVoteArgs.CandidateId args)).

(** The first half of [RequestVote]: a newer term is adopted and clears the
    vote. *)
Lemma RequestVote_adopt rf args :
  wf_log rf.(log) -> rf.(currentTerm) <= RequestVoteArgs.Term args ->
  exists rf1,
    (if currentTerm rf <? RequestVoteArgs.Term args
     then persist (set_role Follower
                     (set_currentTerm (RequestVoteArgs.Term args) (set_votedFor (-1) rf)))
     else mret rf) = Ok rf1
    /\ rf1.(log) = rf.(log) /\ rf1.(lastIncludedIndex) = rf.(lastIncludedIndex)
    /\ rf1.(currentTerm) = RequestVoteArgs.Term args
    /\ (may_vote rf args
        <-> rf1.(votedFor) = -1 \/ rf1.(votedFor) = RequestVoteArgs.CandidateId args).
Proof.
  intros Hw Ht. unfold may_vote.
  destruct (Z.ltb_spec (currentTerm rf) (RequestVoteArgs.Term args)).
  - run_persist. eexists. split; [done|]. simpl. intuition lia.
  - eexists. split; [done|]. intuition lia.
Qed.

Lemma log_at_ext rf rf' g :
  rf'.(log) = rf.(log) -> rf'.(lastIncludedIndex) = rf.(lastIncludedIndex) ->
  log_at rf' g = log_at rf g /\ last_index rf' = last_index rf.
Proof. intros El Ei. unfold log_at, last_index, GlobalToLocal, LocalToGlobal. by rewrite El, Ei. Qed.

(** [RequestVote] answers on every well-formed log, and grants the vote
    exactly when the node has not voted for another candidate in the
    candidate's term and the candidate's log is at least as up to date; the log
    is not touched and the reply carries the larger of the two terms. *)
Theorem RequestVote_grants rf args :
  wf_log rf.(log) ->
  exists rf' reply, RequestVote rf args = Ok (rf', reply)
    /\ (RequestVoteReply.VoteGranted reply = true <-> may_vote rf args /\ up_to_date rf args)
    /\ RequestVoteReply.Term reply = Z.max rf.(currentTerm) (RequestVoteArgs.Term args)
    /\ rf'.(log) = rf.(log).
Proof.
  intros Hw. unfold RequestVote.
  destruct (Z.ltb_spec (RequestVoteArgs.Term args) (currentTerm rf)).
  { eexists _, _. split; [done|]. simpl. unfold may_vote. split_and!; [|lia|done]. naive_solver lia. }
  destruct (RequestVote_adopt rf args Hw ltac:(lia)) as (rf1 & -> & El & Ei & Et & Ev). go_step.
  destruct (log_at_ext rf rf1 (last_index rf) El Ei) as [Ea Elast].
  rewrite <- El in Hw. destruct (last_term_wf rf1 Hw) as (e & He & Hlt).
  rewrite Hlt. go_step. rewrite Elast in *. rewrite Ea in He.
  assert (up_to_date rf args <-> Term e < RequestVoteArgs.LastLogTerm args
    \/ (Term e = RequestVoteArgs.LastLogTerm args /\ last_index rf <= RequestVoteArgs.LastLogIndex args))
    as Hu by (unfold up_to_date; rewrite He; naive_solver).
  destruct (Z.eqb_spec (votedFor rf1) (-1)), (Z.eqb_spec (votedFor rf1) (RequestVoteArgs.CandidateId args));
    cbn [orb]; [..|eexists _, _; split; [done|]; rewrite Ev; simpl; naive_solver lia].
  all: destruct (Z.ltb_spec (Term e) (RequestVoteArgs.LastLogTerm args)),
         (Z.leb_spec (last_index rf) (RequestVoteArgs.LastLogIndex args)),
         (Z.eqb_spec (RequestVoteArgs.LastLogTerm args) (Term e)); cbn [orb andb];
       try (run_persist); eexists _, _; (split; [done|]); rewrite Ev, Hu; simpl;
       intuition (discriminate || congruence || lia).
Qed.

(** ** AppendEntries *)

(** The entry before the new ones is in the log past the snapshot, and is the
    leader's: it has the leader's term, or it is the last committed one. *)
Definition prev_matches rf (args : AppendEntriesArgs.t) : Prop :=
  let prev := AppendEntriesArgs.PrevLogIndex args in
  rf.(lastIncludedIndex) <= prev <= last_index rf
  /\ (prev = rf.(commitIndex)
      \/ exists e, log_at rf prev = Some e /\ Term e = AppendEntriesArgs.PrevLogTerm args).

(** [XIndex] starts the run of [XTerm] that ends at [prev]. *)
Definition run_start rf (xterm xindex prev : Z) : Prop :=
  rf.(lastIncludedIndex) < xindex <= prev + 1
  /\ (forall g, xindex <= g <= prev -> exists e, log_at rf g = Some e /\ Term e = xterm)
  /\ (xindex = rf.(lastIncludedIndex) + 1
      \/ exists e, log_at rf (xindex - 1) = Some e /\ Term e <> xterm).

Lemma conflict_scan_spec fuel rf x prev i :
  wf_log rf.(log) -> rf.(lastIncludedIndex) <= i <= last_index rf -> i <= prev ->
  (Z.to_nat (i - rf.(lastIncludedIndex)) <= fuel)%nat ->
  (forall g, i < g <= prev -> exists e, log_at rf g = Some e /\ Term e = x) ->
  exists j, conflict_scan fuel rf x i = Ok j /\ run_start rf x (j + 1) prev.
Proof.
  intros Hw. revert i. induction fuel as [|fuel IH]; intros i Hi Hp Hf Hrun; simpl.
  - exists i. split; [done|]. split_and!; [lia|lia| |left; lia]. intros g Hg. apply Hrun. lia.
  - destruct (Z.ltb_spec (lastIncludedIndex rf) i).
    + destruct (log_at_in_range rf i Hw) as (e & He & ->); [lia|]. go_step.
      destruct (Z.eqb_spec (Term e) x) as [E|E].
      * apply IH; [lia|lia|lia|]. intros g Hg.
        destruct (decide (g = i)) as [->|]; [eauto|]. apply Hrun. lia.
      * exists i. split; [done|]. split_and!; [lia|lia|intros g Hg; apply Hrun; lia|].
        right. exists e. by replace (i + 1 - 1) with i by lia.
    + exists i. split; [done|]. split_and!; [lia|lia| |left; lia]. intros g Hg. apply Hrun. lia.
Qed.

(** The hints of a refusal. *)
Definition hints_ok rf (args : AppendEntriesArgs.t) (xterm xindex xlen : Z) : Prop :=
  let prev := AppendEntriesArgs.PrevLogIndex args in
  (last_index rf < prev /\ xterm = -1 /\ xlen = last_index rf + 1)
  \/ (prev < rf.(lastIncludedIndex) /\ xterm = -1 /\ xlen = rf.(lastIncludedIndex) + 1)
  \/ (rf.(lastIncludedIndex) <= prev <= last_index rf
      /\ (exists e, log_at rf prev = Some e /\ Term e = xterm)
      /\ xterm <> AppendEntriesArgs.PrevLogTerm args
      /\ run_start rf xterm xindex prev /\ xlen = last_index rf + 1).

Lemma prev_check_spec rf args :
  wf_log rf.(log) ->
  exists r, prev_check rf args = Ok r
    /\ match r with
       | None => prev_matches rf args
       | Some (xterm, xindex, xlen) => ~ prev_matches rf args /\ hints_ok rf args xterm xindex xlen
       end.
Proof.
  intros Hw. unfold prev_check, prev_matches, hints_ok.
  set (prev := AppendEntriesArgs.PrevLogIndex args).
  assert (LocalToGlobal rf (zlen (log rf)) = last_index rf + 1) as ->
    by (unfold last_index, LocalToGlobal; lia).
  destruct (Z.leb_spec (last_index rf + 1) prev).
  { eexists. split; [done|]. simpl. split; [lia|]. left. lia. }
  destruct (Z.ltb_spec prev (lastIncludedIndex rf)).
  { eexists. split; [done|]. simpl. split; [lia|]. right; left. lia. }
  destruct (Z.eqb_spec (commitIndex rf) prev).
  { eexists. split; [done|]. simpl. split; [lia|]. by left. }
  destruct (log_at_in_range rf prev Hw) as (e & He & ->); [lia|]. go_step.
  destruct (Z.eqb_spec (Term e) (AppendEntriesArgs.PrevLogTerm args)) as [E|E]; cbn [negb].
  { eexists. split; [done|]. simpl. split; [lia|]. right. eauto. }
  destruct (conflict_scan_spec (Z.to_nat (prev - lastIncludedIndex rf)) rf (Term e) prev prev)
    as (j & -> & Hj); [done|lia|lia|lia|lia|]. go_step.
  eexists. split; [done|]. simpl. split; [naive_solver|]. right; right. split_and!; eauto with lia.
Qed.

(** Two states with the same log, snapshot position, commit index and applied
    index. *)
Definition same_log rf rf' : Prop :=
  rf'.(log) = rf.(log) /\ rf'.(lastIncludedIndex) = rf.(lastIncludedIndex)
  /\ rf'.(commitIndex) = rf.(commitIndex) /\ rf'.(lastApplied) = rf.(lastApplied).

Lemma same_log_hints rf rf' args xt xi xl :
  same_log rf rf' ->
  (prev_matches rf' args <-> prev_matches rf args)
  /\ (hints_ok rf' args xt xi xl <-> hints_ok rf args xt xi xl).
Proof.
  intros (El & Ei & Ec & _). unfold prev_matches, hints_ok, run_start, log_at, last_index,
    GlobalToLocal, LocalToGlobal. by rewrite El, Ei, Ec.
Qed.

Lemma AppendEntries_adopt rf args :
  wf_log rf.(log) -> rf.(currentTerm) <= AppendEntriesArgs.Term args ->
  exists rf1,
    (if rf.(currentTerm) <? AppendEntriesArgs.Term args then
       rf ← persist (set_votedFor (-1) (set_currentTerm (AppendEntriesArgs.Term args) rf));
       mret (set_role Follower rf)
     else mret rf) = Ok rf1
    /\ same_log rf rf1 /\ rf1.(currentTerm) = AppendEntriesArgs.Term args
    /\ (rf1.(role) = Leader
        <-> rf.(role) = Leader /\ rf.(currentTerm) = AppendEntriesArgs.Term args).
Proof.
  intros Hw Ht. destruct (Z.ltb_spec (currentTerm rf) (AppendEntriesArgs.Term args)).
  - run_persist. eexists. split; [done|]. split; [done|]. simpl. split; [done|].
    intuition (congruence || lia).
  - eexists. split; [done|]. split; [done|]. split; [lia|]. intuition lia.
Qed.

(** Whether the new entries are taken: not by a leader of the same term. *)
Definition takes_entries rf (args : AppendEntriesArgs.t) : bool :=
  negb (bool_decide (rf.(role) = Leader) && (rf.(currentTerm) =? AppendEntriesArgs.Term args)).

Definition entries_from rf (args : AppendEntriesArgs.t) : nat :=
  Z.to_nat (GlobalToLocal rf (AppendEntriesArgs.PrevLogIndex args) + 1).

Definition log_after rf (args : AppendEntriesArgs.t) : list (option Entry) :=
  if takes_entries rf args
  then merge_log rf.(log) (entries_from rf args) (AppendEntriesArgs.Entries args)
  else rf.(log).

Lemma log_after_wf rf args :
  wf_log rf.(log) -> wf_entries (AppendEntriesArgs.Entries args) -> prev_matches rf args ->
  wf_log (log_after rf args).
Proof.
  intros Hw Hes [Hp _]. unfold log_after. destruct (takes_entries rf args); [|done].
  split; [|apply merge_log_wf; [by destruct Hw|done]]. intros E.
  assert (merge_log (log rf) (entries_from rf args) (AppendEntriesArgs.Entries args) !! 0%nat
          = log rf !! 0%nat) as Hl.
  { apply merge_log_prefix. unfold entries_from, last_index, GlobalToLocal, LocalToGlobal, zlen in *.
    pose proof (wf_log_length _ Hw). unfold zlen in *. lia. }
  rewrite E in Hl. destruct Hw as [Hne _]. by destruct (log rf).
Qed.

(** The entries are merged, by the node as it is after adopting the term. *)
Lemma AppendEntries_merge rf rf1 args :
  wf_log rf.(log) -> wf_entries (AppendEntriesArgs.Entries args) -> prev_matches rf args ->
  same_log rf rf1 ->
  (rf1.(role) = Leader <-> rf.(role) = Leader /\ rf.(currentTerm) = AppendEntriesArgs.Term args) ->
  (if bool_decide (rf1.(role) <> Leader)
   then append_loop rf1.(log) (GlobalToLocal rf1 (AppendEntriesArgs.PrevLogIndex args) + 1)
          (AppendEntriesArgs.Entries args)
   else mret rf1.(log)) = Ok (log_after rf args).
Proof.
  intros [_ Hw] Hes [Hp _] (El & Ei & _) Hrole. unfold log_after, takes_entries, entries_from.
  unfold GlobalToLocal. rewrite El, Ei. unfold last_index, LocalToGlobal in Hp.
  destruct (bool_decide_reflect (role rf = Leader)) as [Hl|Hl],
    (Z.eqb_spec (currentTerm rf) (AppendEntriesArgs.Term args)) as [Et|Et]; cbn [andb negb];
    [rewrite bool_decide_false by tauto; done|rewrite bool_decide_true by tauto..];
    apply append_loop_merge; (done || lia).
Qed.

(** The outcome of [AppendEntries] when the term is current and the check at
    [PrevLogIndex] passes. *)
Lemma AppendEntries_accepted rf args :
  wf_log rf.(log) -> wf_entries (AppendEntriesArgs.Entries args) ->
  rf.(currentTerm) <= AppendEntriesArgs.Term args -> prev_matches rf args ->
  exists rf', AppendEntries rf args
      = Ok (rf', AppendEntriesReply.mk (AppendEntriesArgs.Term args) true 0 rf.(lastIncludedIndex) 0)
    /\ rf'.(log) = log_after rf args
    /\ rf'.(lastIncludedIndex) = rf.(lastIncludedIndex)
    /\ rf'.(currentTerm) = AppendEntriesArgs.Term args
    /\ rf'.(leaderIdx) = AppendEntriesArgs.LeaderId args
    /\ rf'.(lastApplied) = rf.(lastApplied)
    /\ rf'.(commitIndex) = (if rf.(commitIndex) <? AppendEntriesArgs.LeaderCommit args
                            then Z.max (AppendEntriesArgs.LeaderCommit args) (last_index rf')
                            else rf.(commitIndex)).
Proof.
  intros Hw Hes Ht Hm. pose proof (log_after_wf rf args Hw Hes Hm) as Hw'.
  unfold AppendEntries.
  destruct (Z.ltb_spec (AppendEntriesArgs.Term args) (currentTerm rf)); [lia|].
  destruct (AppendEntries_adopt rf args Hw Ht) as (rf1 & -> & Hs & Et & Hrole). go_step.
  pose proof Hs as (El & Ei & Ec & Ea).
  destruct (prev_check_spec rf1 args) as (r & -> & Hr); [by rewrite El|]. go_step.
  destruct r as [[[xt xi] xl]|].
  { destruct Hr as [Hr _]. destruct Hr. by apply (same_log_hints rf rf1 args 0 0 0 Hs). }
  rewrite (AppendEntries_merge rf rf1 args) by done. go_step.
  run_persist. eexists. split; [by rewrite <- Et, <- Ei|]. simpl. rewrite <- Ec.
  by destruct (commitIndex rf1 <? AppendEntriesArgs.LeaderCommit args).
Qed.

(** The outcome when the check at [PrevLogIndex] fails. *)
Lemma AppendEntries_refused rf args :
  wf_log rf.(log) -> rf.(currentTerm) <= AppendEntriesArgs.Term args -> ~ prev_matches rf args ->
  exists rf' xterm xindex xlen, AppendEntries rf args
      = Ok (rf', AppendEntriesReply.mk (AppendEntriesArgs.Term args) false xterm xindex xlen)
    /\ same_log rf rf' /\ hints_ok rf args xterm xindex xlen.
Proof.
  intros Hw Ht Hm. unfold AppendEntries.
  destruct (Z.ltb_spec (AppendEntriesArgs.Term args) (currentTerm rf)); [lia|].
  destruct (AppendEntries_adopt rf args Hw Ht) as (rf1 & -> & Hs & Et & Hrole). go_step.
  destruct (prev_check_spec rf1 args) as (r & -> & Hr); [destruct Hs as [-> _]; done|]. go_step.
  destruct r as [[[xt xi] xl]|].
  - destruct Hr as [_ Hr]. exists rf1, xt, xi, xl. rewrite Et.
    split_and!; [done..|]. by apply (same_log_hints rf rf1 args xt xi xl Hs).
  - destruct Hm. by apply (same_log_hints rf rf1 args 0 0 0 Hs).
Qed.

Lemma AppendEntries_stale rf args :
  wf_log rf.(log) -> AppendEntriesArgs.Term args < rf.(currentTerm) ->
  AppendEntries rf args = Ok (rf, AppendEntriesReply.mk rf.(currentTerm) false 0 0 0).
Proof.
  intros Hw Ht. unfold AppendEntries. destruct (Z.ltb_spec (AppendEntriesArgs.Term args) (currentTerm rf)); [|lia].
  by destruct (last_term_wf rf Hw) as (e & _ & ->).
Qed.

Lemma prev_matches_dec rf args : prev_matches rf args \/ ~ prev_matches rf args.
Proof.
  unfold prev_matches.
  destruct (decide (lastIncludedIndex rf <= AppendEntriesArgs.PrevLogIndex args <= last_index rf));
    [|naive_solver].
  destruct (decide (AppendEntriesArgs.PrevLogIndex args = commitIndex rf)); [naive_solver|].
  destruct (log_at rf (AppendEntriesArgs.PrevLogIndex args)) as [e|]; [|naive_solver].
  destruct (decide (Term e = AppendEntriesArgs.PrevLogTerm args)); naive_solver.
Qed.

(** [AppendEntries] answers on every well-formed log, and accepts exactly
    when the term is not stale and the entry at [PrevLogIndex] is past the
    snapshot, in the log, and has the leader's term or is the last committed
    one.  An accepted request merges the entries into the log (a leader of the
    same term keeps its own); a refused one leaves log and commit index alone. *)
Theorem AppendEntries_accepts rf args :
  wf_log rf.(log) -> wf_entries (AppendEntriesArgs.Entries args) ->
  exists rf' reply, AppendEntries rf args = Ok (rf', reply)
    /\ (AppendEntriesReply.Success reply = true
        <-> rf.(currentTerm) <= AppendEntriesArgs.Term args /\ prev_matches rf args)
    /\ AppendEntriesReply.Term reply = Z.max rf.(currentTerm) (AppendEntriesArgs.Term args)
    /\ wf_log rf'.(log)
    /\ (if AppendEntriesReply.Success reply then rf'.(log) = log_after rf args
        else rf'.(log) = rf.(log) /\ rf'.(commitIndex) = rf.(commitIndex)).
Proof.
  intros Hw Hes. destruct (decide (AppendEntriesArgs.Term args < currentTerm rf)) as [Hlt|Hge].
  { rewrite AppendEntries_stale by done. eexists _, _. split; [done|]. simpl.
    split_and!; [|lia|done..]. intuition (discriminate || lia). }
  destruct (prev_matches_dec rf args) as [Hm|Hm].
  - destruct (AppendEntries_accepted rf args) as (rf' & -> & El & _); [done..|lia|done|].
    eexists _, _. split; [done|]. simpl. rewrite El. split_and!; [|lia|by apply log_after_wf|done].
    intuition lia.
  - destruct (AppendEntries_refused rf args) as (rf' & xt & xi & xl & -> & Hs & _); [done|lia|done|].
    eexists _, _. split; [done|]. simpl. destruct Hs as (El & _ & Ec & _). rewrite El, Ec.
    split_and!; [|lia|done..]. intuition discriminate.
Qed.

(** Where the merged entries are, by global index. *)
Lemma merged_entries rf rf' args :
  prev_matches rf args -> takes_entries rf args = true ->
  rf'.(log) = log_after rf args -> rf'.(lastIncludedIndex) = rf.(lastIncludedIndex) ->
  forall j e, AppendEntriesArgs.Entries args !! j = Some (Some e) ->
  let g := AppendEntriesArgs.PrevLogIndex args + 1 + Z.of_nat j in
  exists a, log_at rf' g = Some a /\ Term a = Term e /\ (a = e \/ log_at rf g = Some a).
Proof.
  intros [Hp _] Htk El Ei j e Hj g. unfold log_after in El. rewrite Htk in El.
  unfold last_index, LocalToGlobal, zlen in Hp.
  destruct (merge_log_has (log rf) (entries_from rf args) (AppendEntriesArgs.Entries args) j e)
    as (a & Ha & Et & Hor); [unfold entries_from, GlobalToLocal; lia|done|].
  exists a. unfold log_at, GlobalToLocal. rewrite El, Ei.
  destruct (Z.ltb_spec g (lastIncludedIndex rf)); [lia|].
  replace (Z.to_nat _) with (entries_from rf args + j)%nat by (unfold entries_from, GlobalToLocal; lia).
  rewrite Ha. split_and!; [done..|]. destruct Hor as [->|Hor]; [by left|right]. by rewrite Hor.
Qed.

(** What an accepted request does to a log, by global indices: the entries sent
    agree in term with those that follow [prev], up to the [k]-th.  If that is
    all of them the log stays as it is, else the [k]-th is past its end or
    differs in term, and the log is cut there and continued with what is left
    of the entries. *)
Definition merged_at rf (prev : Z) (es : list (option Entry)) (l : list (option Entry)) (k : nat) : Prop :=
  (forall j, (j < k)%nat -> exists e a, es !! j = Some (Some e)
     /\ log_at rf (prev + 1 + Z.of_nat j) = Some a /\ Term a = Term e)
  /\ ((k = length es /\ l = rf.(log))
      \/ (exists e, es !! k = Some (Some e)
           /\ (last_index rf < prev + 1 + Z.of_nat k
               \/ exists a, log_at rf (prev + 1 + Z.of_nat k) = Some a /\ Term a <> Term e)
           /\ l = take (Z.to_nat (GlobalToLocal rf (prev + 1 + Z.of_nat k))) rf.(log) ++ drop k es)).

Lemma merge_merged rf prev es :
  wf_log rf.(log) -> wf_entries es -> rf.(lastIncludedIndex) <= prev <= last_index rf ->
  let r := Z.to_nat (GlobalToLocal rf prev + 1) in
  merged_at rf prev es (merge_log rf.(log) r es) (agree (drop r rf.(log)) es).
Proof.
  intros [_ Hw] Hes Hp r. set (k := agree _ _).
  assert (forall j, Z.to_nat (GlobalToLocal rf (prev + 1 + Z.of_nat j)) = (r + j)%nat) as Er
    by (intros j; unfold r, GlobalToLocal; lia).
  assert (forall j a, drop r (log rf) !! j = Some (Some a) -> log_at rf (prev + 1 + Z.of_nat j) = Some a) as Hat.
  { intros j a Ha. unfold log_at. destruct (Z.ltb_spec (prev + 1 + Z.of_nat j) (lastIncludedIndex rf)); [lia|].
    rewrite lookup_drop in Ha. by rewrite Er, Ha. }
  pose proof (agree_le (drop r (log rf)) es) as [Hk _]. fold k in Hk. split.
  - intros j Hj. destruct (lookup_lt_is_Some_2 es j) as [oe Hoe]; [lia|].
    destruct (Forall_lookup_1 _ _ _ _ Hes Hoe) as [e ->].
    destruct (agree_lookup _ _ _ _ Hj Hoe) as (a & Ha & Et). exists e, a. auto.
  - unfold merge_log. fold k. case_bool_decide as Ek; [by left|right].
    destruct (lookup_lt_is_Some_2 es k) as [oe Hoe]; [lia|]. destruct (Forall_lookup_1 _ _ _ _ Hes Hoe) as [e ->].
    exists e. rewrite Er. split_and!; [done| |done].
    destruct (agree_stops (drop r (log rf)) es e) as [Hn|(a & Ha & Ht)]; [by apply Forall_drop|done| |right; exists a; auto].
    left. fold k in Hn. apply lookup_ge_None in Hn. rewrite length_drop in Hn.
    unfold last_index, LocalToGlobal, GlobalToLocal, zlen in *. lia.
Qed.

(** C7. What an AppendEntries that is current and passes the check at
    [PrevLogIndex] does to the log of a node that is not the leader of that
    term: it returns, with the log kept when the entries sent agree with it in
    their terms, however much longer it is, and otherwise cut at the first one
    that does not and continued with that entry and those after it, commands
    included.  Receiving the same request again does not change the log. *)
Theorem AppendEntries_contains rf args :
  wf_log rf.(log) -> wf_entries (AppendEntriesArgs.Entries args) ->
  rf.(currentTerm) <= AppendEntriesArgs.Term args -> prev_matches rf args ->
  takes_entries rf args = true ->
  exists rf' reply, AppendEntries rf args = Ok (rf', reply)
    /\ (exists k, merged_at rf (AppendEntriesArgs.PrevLogIndex args) (AppendEntriesArgs.Entries args) rf'.(log) k)
    /\ exists rf'' reply'', AppendEntries rf' args = Ok (rf'', reply'') /\ rf''.(log) = rf'.(log).
Proof.
  intros Hw Hes Ht Hm Htk.
  destruct (AppendEntries_accepted rf args Hw Hes Ht Hm) as (rf' & Hrun & El & Ei & _).
  exists rf'. eexists. split; [exact Hrun|]. pose proof (log_after_wf rf args Hw Hes Hm) as Hw'. rewrite <- El in Hw'.
  split.
  - rewrite El. unfold log_after. rewrite Htk. eexists. apply merge_merged; [done..|by destruct Hm].
  - destruct (AppendEntries_accepts rf' args Hw' Hes) as (rf'' & reply'' & Hrun' & _ & _ & _ & Hl).
    exists rf'', reply''. split; [done|]. destruct (AppendEntriesReply.Success reply''); [|by destruct Hl].
    rewrite Hl. unfold log_after. destruct (takes_entries rf' args); [|done].
    unfold entries_from, GlobalToLocal. rewrite Ei, El. unfold log_after. rewrite Htk.
    apply merge_log_idem; [|done]. destruct Hm as [Hp _].
    unfold entries_from, last_index, LocalToGlobal, GlobalToLocal, zlen in *. lia.
Qed.

(** A refusal carries the hints the leader backs up with: the length of
    the log (or the end of the snapshot) when there is no entry to compare,
    else the term found and the first index of the run of that term. *)
Theorem AppendEntries_hints rf args :
  wf_log rf.(log) -> rf.(currentTerm) <= AppendEntriesArgs.Term args -> ~ prev_matches rf args ->
  exists rf' reply, AppendEntries rf args = Ok (rf', reply)
    /\ AppendEntriesReply.Success reply = false
    /\ hints_ok rf args (AppendEntriesReply.XTerm reply) (AppendEntriesReply.XIndex reply)
         (AppendEntriesReply.XLen reply).
Proof.
  intros Hw Ht Hm. destruct (AppendEntries_refused rf args Hw Ht Hm) as (rf' & xt & xi & xl & -> & _ & Hh).
  eexists _, _. split; [done|]. done.
Qed.

(** ** The commit index of the leader *)

(** The nodes known to hold the log up to [c], the leader included. *)
Definition replicas rf (c : Z) : Z :=
  1 + zlen (filter (fun i => c <= mget rf.(matchIndex) i) rf.(peers)).

(** Raft's rule: an entry of the current term held by a quorum. *)
Definition committable rf (c : Z) : Prop :=
  (exists e, log_at rf c = Some e /\ Term e = rf.(currentTerm))
  /\ is_quorum rf (replicas rf c) = true.

Lemma commit_count_spec rf c e ps :
  log_term rf.(log) (GlobalToLocal rf c) = Ok (Term e) ->
  commit_count rf c ps
  = Ok (1 + (if Term e =? rf.(currentTerm)
             then zlen (filter (fun i => c <= mget rf.(matchIndex) i) ps) else 0)).
Proof.
  intros Ht. induction ps as [|i ps IH]; cbn [commit_count]; [by destruct (Term e =? _)|].
  rewrite IH. go_step. rewrite filter_cons.
  destruct (Z.leb_spec c (mget (matchIndex rf) i)).
  - rewrite Ht, decide_True by done. go_step.
    destruct (Term e =? currentTerm rf); [rewrite zlen_cons; f_equal; lia|done].
  - by rewrite decide_False by lia.
Qed.

(** Below, clusters of at least three nodes: with one peer the test
    [1 > len(peers)/2] passes without any acknowledgement. *)
Lemma committable_quorum rf c e :
  2 <= zlen rf.(peers) -> log_at rf c = Some e ->
  (is_quorum rf (1 + (if Term e =? rf.(currentTerm)
                      then zlen (filter (fun i => c <= mget rf.(matchIndex) i) rf.(peers)) else 0))
   = true <-> committable rf c).
Proof.
  intros Hp He. unfold committable, replicas. rewrite He.
  destruct (Z.eqb_spec (Term e) (currentTerm rf)) as [E|E]; [naive_solver|].
  split; [|naive_solver]. unfold is_quorum. intros H. zbool.
  assert (1 <= zlen (peers rf) / 2) by (apply Z.div_le_lower_bound; lia). lia.
Qed.

Lemma commit_loop_spec fuel rf c :
  wf_log rf.(log) -> 2 <= zlen rf.(peers) ->
  rf.(lastIncludedIndex) <= rf.(commitIndex) -> rf.(commitIndex) <= c <= last_index rf ->
  (Z.to_nat (c - rf.(commitIndex)) <= fuel)%nat ->
  exists c', commit_loop fuel rf c = Ok c' /\ rf.(commitIndex) <= c' <= c
    /\ (c' = rf.(commitIndex) \/ committable rf c')
    /\ forall g, c' < g <= c -> ~ committable rf g.
Proof.
  intros Hw Hp Hi. revert c. induction fuel as [|fuel IH]; intros c Hc Hf; cbn [commit_loop].
  { exists c. split_and!; [done|lia|lia|left; lia|intros; lia]. }
  destruct (Z.ltb_spec (commitIndex rf) c); [|exists c; split_and!; [done|lia|lia|left; lia|intros; lia]].
  destruct (log_at_in_range rf c Hw) as (e & He & Ht); [lia|].
  rewrite (commit_count_spec rf c e) by done. go_step.
  pose proof (committable_quorum rf c e Hp He) as Hq.
  destruct (is_quorum rf _).
  - rewrite Ht. go_step. exists c. split_and!; [done|lia|lia|right; tauto|intros; lia].
  - destruct (IH (c - 1)) as (c' & -> & ? & ? & Hmax); [lia|lia|]. exists c'.
    split_and!; [done|lia|lia|done|]. intros g Hg. destruct (decide (g = c)) as [->|]; [|apply Hmax; lia].
    intros Hcm. by apply Hq in Hcm.
Qed.

(** With one peer or none, any count is a quorum. *)
Lemma commit_loop_small fuel rf c :
  wf_log rf.(log) -> zlen rf.(peers) < 2 -> rf.(lastIncludedIndex) <= c <= last_index rf ->
  commit_loop fuel rf c = Ok c.
Proof.
  intros Hw Hp Hc. destruct fuel as [|fuel]; cbn [commit_loop]; [done|].
  destruct (commitIndex rf <? c); [|done].
  destruct (log_at_in_range rf c Hw Hc) as (e & _ & Ht). rewrite (commit_count_spec rf c e) by done. go_step.
  assert (is_quorum rf (1 + (if Term e =? currentTerm rf
            then zlen (filter (fun i => c <= mget (matchIndex rf) i) (peers rf)) else 0)) = true) as ->; [|by rewrite Ht].
  unfold is_quorum. apply Z.ltb_lt. pose proof (zlen_nonneg (filter (fun i => c <= mget (matchIndex rf) i) (peers rf))).
  assert (zlen (peers rf) / 2 < 1) by (apply Z.div_lt_upper_bound; lia). destruct (Term e =? _); lia.
Qed.

(** How the commit index of a leader moves, from [rf] to [rf']: to the highest
    entry of its own term that a quorum holds, if there is one past it.  It
    goes back to the end of the log when it was past that, and goes to the end
    of the log in a cluster of fewer than three nodes. *)
Definition commit_moves rf rf' : Prop :=
  (last_index rf < rf.(commitIndex) -> rf'.(commitIndex) = last_index rf)
  /\ (rf.(commitIndex) <= last_index rf -> zlen rf.(peers) < 2 -> rf'.(commitIndex) = last_index rf)
  /\ (rf.(commitIndex) <= last_index rf -> 2 <= zlen rf.(peers) ->
      rf.(commitIndex) <= rf'.(commitIndex) <= last_index rf
      /\ (rf'.(commitIndex) = rf.(commitIndex) \/ committable rf' rf'.(commitIndex))
      /\ forall g, rf'.(commitIndex) < g <= last_index rf -> ~ committable rf' g).

(** The state after a successful reply: both maps updated at the peer, the
    commit index moved by [commit_loop] on the updated maps. *)
Lemma success_reply rf server args reply :
  wf_log rf.(log) -> rf.(lastIncludedIndex) <= rf.(commitIndex) ->
  AppendEntriesArgs.Term args = rf.(currentTerm) ->
  AppendEntriesReply.Success reply = true ->
  let m := Z.max (mget rf.(matchIndex) server)
             (AppendEntriesArgs.PrevLogIndex args + zlen (AppendEntriesArgs.Entries args)) in
  exists c snap,
    let rf' := set_commitIndex c (set_nextIndex (<[server := m + 1]> rf.(nextIndex))
                 (set_matchIndex (<[server := m]> rf.(matchIndex)) rf)) in
    sendAppendEntriesToServer rf server args reply = Ok (rf', snap) /\ commit_moves rf rf'.
Proof.
  intros Hw Hc Ht Hs m. unfold sendAppendEntriesToServer. rewrite Ht, Z.eqb_refl, Hs. cbn [negb].
  fold m. set (rf1 := set_nextIndex _ _). pose proof (wf_log_length _ Hw) as Hlen.
  assert (last_index rf1 = last_index rf) as Elast by done.
  assert (exists c, commit_loop (Z.to_nat (last_index rf1 - commitIndex rf1)) rf1 (last_index rf1) = Ok c
    /\ commit_moves rf (set_commitIndex c rf1)) as (c & -> & Hmv); [|by eexists _, _].
  destruct (decide (last_index rf < commitIndex rf)) as [Hpast|Hin].
  { exists (last_index rf). rewrite Elast. replace (Z.to_nat _) with 0%nat by (simpl; lia).
    split; [done|]. split_and!; [done|lia..]. }
  destruct (decide (zlen (peers rf) < 2)) as [Hsm|Hbig].
  { exists (last_index rf). rewrite commit_loop_small; [|done|done|unfold last_index, LocalToGlobal; simpl; lia].
    split; [done|]. split_and!; [lia|done|lia]. }
  destruct (commit_loop_spec (Z.to_nat (last_index rf1 - commitIndex rf1)) rf1 (last_index rf1))
    as (c' & -> & Hc' & Hcm & Hmax);
    [done|simpl; lia|simpl; lia|unfold last_index, LocalToGlobal in *; simpl in *; lia|lia|].
  exists c'. split; [done|]. split_and!; [lia..|done].
Qed.

(** C6. A successful reply in the leader's own term is accounted for: the peer's
    match index becomes the last index sent if that is larger, its next index
    the one after, and no other peer's changes.  In a cluster of at least three
    nodes, and with the commit index not past the end of the log, the commit
    index never moves back, moves only to an entry of the leader's own term
    that a quorum holds, and to the last one.  In a smaller cluster it moves to
    the end of the log without an acknowledgement, and a commit index past the
    end of the log (which line 556 of raft.go can leave) moves back to it. *)
Theorem leader_commits rf server args reply :
  wf_log rf.(log) -> rf.(lastIncludedIndex) <= rf.(commitIndex) ->
  AppendEntriesArgs.Term args = rf.(currentTerm) ->
  AppendEntriesReply.Success reply = true ->
  exists rf' snap, sendAppendEntriesToServer rf server args reply = Ok (rf', snap)
    /\ rf'.(log) = rf.(log)
    /\ mget rf'.(matchIndex) server
       = Z.max (mget rf.(matchIndex) server)
           (AppendEntriesArgs.PrevLogIndex args + zlen (AppendEntriesArgs.Entries args))
    /\ mget rf'.(nextIndex) server = mget rf'.(matchIndex) server + 1
    /\ (forall i, i <> server -> mget rf'.(matchIndex) i = mget rf.(matchIndex) i
                                 /\ mget rf'.(nextIndex) i = mget rf.(nextIndex) i)
    /\ commit_moves rf rf'.
Proof.
  intros Hw Hc Ht Hs. destruct (success_reply rf server args reply) as (c & snap & -> & Hrest); [done..|].
  eexists _, _. split; [done|]. unfold mget. simpl. rewrite !lookup_insert_eq.
  do 3 (split; [done|]). split; [|exact Hrest].
  intros i Hi. by rewrite !lookup_insert_ne by done.
Qed.

(** ** Proposals *)

(** [Start] on a leader appends exactly one entry, of the current term,
    and returns its global index and term; on another node it changes nothing
    and says so. *)
Theorem Start_appends rf cmd :
  wf_log rf.(log) ->
  exists rf' r, Start rf cmd = Ok (rf', r)
    /\ (rf.(role) = Leader ->
        rf'.(log) = rf.(log) ++ [Some (mkEntry rf.(currentTerm) cmd)]
        /\ r = (last_index rf + 1, rf.(currentTerm), true)
        /\ log_at rf' (last_index rf + 1) = Some (mkEntry rf.(currentTerm) cmd)
        /\ forall g, g <= last_index rf -> log_at rf' g = log_at rf g)
    /\ (rf.(role) <> Leader -> rf' = rf /\ r = (-1, -1, false)).
Proof.
  intros Hw. pose proof (wf_log_length _ Hw) as Hl. unfold Start.
  destruct (bool_decide_reflect (role rf <> Leader)) as [Hr|Hr].
  { eexists _, _. split; [done|]. done. }
  assert (wf_log (log rf ++ [Some (mkEntry (currentTerm rf) cmd)])) as Hw'.
  { destruct Hw as [Hne Hw]. split; [by destruct (log rf)|]. apply Forall_app. split; [done|].
    repeat constructor. by eexists. }
  run_persist. eexists _, _. split; [done|]. split; [|done]. intros _.
  unfold last_index, log_at, LocalToGlobal, GlobalToLocal. simpl. rewrite zlen_app.
  split_and!; [done|do 2 (apply (f_equal2 pair); [|done]); rewrite zlen_cons, zlen_nil; lia| |].
  - destruct (Z.ltb_spec (zlen (log rf) - 1 + lastIncludedIndex rf + 1) (lastIncludedIndex rf)); [lia|].
    rewrite lookup_app_r by (unfold zlen in *; lia).
    replace (Z.to_nat _ - length (log rf))%nat with 0%nat by (unfold zlen; lia). done.
  - intros g Hg. destruct (Z.ltb_spec g (lastIncludedIndex rf)); [done|].
    rewrite lookup_app_l by (unfold zlen in *; lia). done.
Qed.

(** ** Compaction *)

(** C38. [Snapshot] keeps every entry from the snapshot's index on under its
    global index, moves the end of the log nowhere, and records the term of the
    entry it covers last; an index that is not committed or already covered
    changes nothing. *)
Theorem Snapshot_keeps_entries rf index data :
  wf_log rf.(log) -> rf.(commitIndex) <= last_index rf ->
  exists rf', Snapshot rf index data = Ok rf'
    /\ (rf.(lastIncludedIndex) < index <= rf.(commitIndex) ->
        wf_log rf'.(log) /\ rf'.(lastIncludedIndex) = index /\ rf'.(snapShot) = data
        /\ last_index rf' = last_index rf
        /\ (forall g, index <= g -> log_at rf' g = log_at rf g)
        /\ (exists e, log_at rf index = Some e /\ rf'.(lastIncludedTerm) = Term e)
        /\ rf'.(lastApplied) = Z.max rf.(lastApplied) index)
    /\ (~ rf.(lastIncludedIndex) < index <= rf.(commitIndex) -> rf' = rf).
Proof.
  intros Hw Hc. unfold Snapshot.
  destruct (Z.ltb_spec (commitIndex rf) index), (Z.leb_spec index (lastIncludedIndex rf)); cbn [orb];
    [eexists; split; [done|]; split; [lia|done]..|].
  destruct (log_at_in_range rf index Hw) as (e & He & ->); [lia|]. go_step.
  unfold last_index, LocalToGlobal in Hc.
  replace (slice_from (log rf) (GlobalToLocal rf index))
    with (Ok (drop (Z.to_nat (GlobalToLocal rf index)) (log rf)))
    by (symmetry; apply slice_from_Ok; split; [unfold GlobalToLocal; lia|done]).
  go_step. set (l := drop _ _).
  assert (zlen l = zlen (log rf) - GlobalToLocal rf index) as Hl.
  { unfold l. rewrite zlen_drop; [done|]. unfold GlobalToLocal. lia. }
  assert (wf_log l) as Hw'.
  { split; [|by apply Forall_drop; destruct Hw]. intros E. rewrite E, zlen_nil in Hl.
    unfold GlobalToLocal in Hl. lia. }
  match goal with |- context [persist ?x] =>
    assert (wf_log x.(log)) as Hw'' by (simpl; by destruct (_ <? _)) end.
  destruct (persist_total _ Hw'') as [p ->]. eexists. split; [done|]. split; [intros _|lia].
  simpl in *. destruct (Z.ltb_spec (lastApplied rf) index); simpl;
    (split_and!; [done..| | |by exists e|lia]);
    unfold last_index, log_at, LocalToGlobal, GlobalToLocal in *; simpl; [lia| |lia|].
  all: intros g Hg; destruct (Z.ltb_spec g index), (Z.ltb_spec g (lastIncludedIndex rf)); try lia.
  all: unfold l; rewrite lookup_drop; do 2 f_equal; lia.
Qed.

(** ** Applying *)

(** The message for entry [e] at global index [i] past the snapshot. *)
Definition msg_for (i : Z) (e : Entry) : ApplyMsg :=
  mkApplyMsg (bool_decide (Command e <> None)) (Command e) i false [] (Term e) 0.

(** The messages for the indices [gs], in order, as the log has them. *)
Definition msgs_for rf (gs : list Z) (ms : list ApplyMsg) : Prop :=
  Forall2 (fun i m => exists e, log_at rf i = Some e /\ m = msg_for i e) gs ms.

Lemma apply_msg_wf rf i :
  wf_log rf.(log) -> rf.(lastIncludedIndex) < i <= last_index rf ->
  exists e, log_at rf i = Some e /\ apply_msg rf i = Ok (msg_for i e).
Proof.
  intros Hw Hi. destruct (log_at_in_range rf i Hw) as (e & He & Ht); [lia|].
  exists e. split; [done|]. unfold apply_msg. apply log_term_Ok in Ht as (x & Hx & Hl & _).
  unfold log_at in He. rewrite Hl in He. destruct (Z.ltb_spec i (lastIncludedIndex rf)); [done|].
  simpl in He. injection He as ->. unfold idx. destruct (Z.ltb_spec (GlobalToLocal rf i) 0); [lia|].
  rewrite Hl. go_step. cbn [deref]. go_step. unfold msg_for.
  destruct (Z.ltb_spec (lastIncludedIndex rf) i); [done|lia].
Qed.

Lemma buffer_loop_spec fuel rf a :
  wf_log rf.(log) -> rf.(lastIncludedIndex) <= a -> rf.(commitIndex) <= last_index rf ->
  (Z.to_nat (rf.(commitIndex) - a) <= fuel)%nat ->
  exists ms, buffer_loop fuel rf a = Ok ms /\ msgs_for rf (seqZ (a + 1) (rf.(commitIndex) - a)) ms.
Proof.
  intros Hw. revert a. induction fuel as [|fuel IH]; intros a Ha Hc Hf; cbn [buffer_loop].
  { exists []. split; [done|]. rewrite seqZ_nil by lia. constructor. }
  destruct (Z.ltb_spec a (commitIndex rf)).
  - destruct (apply_msg_wf rf (a + 1) Hw) as (e & He & ->); [lia|]. go_step.
    destruct (IH (a + 1)) as (ms & -> & Hms); [lia|lia|lia|]. go_step.
    eexists. split; [done|]. rewrite seqZ_cons by lia. constructor; [eauto|].
    by replace (Z.pred (commitIndex rf - a)) with (commitIndex rf - (a + 1)) by lia.
  - exists []. split; [done|]. rewrite seqZ_nil by lia. constructor.
Qed.

Lemma set_lastApplied_self rf : set_lastApplied rf.(lastApplied) rf = rf.
Proof. by destruct rf. Qed.

Lemma CommitCheck_deliver_spec rf0 n rf ms :
  msgs_for rf0 (seqZ (rf.(lastApplied) + 1) (Z.of_nat n)) ms ->
  CommitCheck_deliver rf ms = (ms, set_lastApplied (rf.(lastApplied) + Z.of_nat n) rf).
Proof.
  revert rf ms. induction n as [|n IH]; intros rf ms Hms.
  - simpl in Hms. inversion Hms. simpl. f_equal. rewrite Z.add_0_r. symmetry. apply set_lastApplied_self.
  - rewrite seqZ_cons in Hms by lia. inversion Hms as [|? m ? ms' (e & He & ->) Hms']; subst. clear Hms.
    cbn [CommitCheck_deliver]. unfold CommitCheck_check, CommitCheck_done. cbn [CommandIndex msg_for].
    rewrite Z.eqb_refl. cbn [negb]. rewrite Z.eqb_refl. cbn [negb].
    rewrite IH.
    + apply (f_equal2 pair); [done|]. unfold set_lastApplied. simpl. f_equal. lia.
    + simpl. replace (Z.max (lastApplied rf) (lastApplied rf + 1)) with (Z.succ (lastApplied rf)) by lia.
      replace (Z.of_nat n) with (Z.pred (Z.of_nat (S n))) by lia. exact Hms'.
Qed.

(** The critical sections of the other goroutines of a node. *)
Inductive other_section : Raftserver P -> Raftserver P -> Prop :=
  | oc_local rf rf' : local_step false rf rf' -> other_section rf rf'
  | oc_elect rf rf' args : StartElection rf = Ok (rf', args) -> other_section rf rf'
  | oc_answer rf rf' args reply b : procVoteAnswer rf args reply = Ok (rf', b) -> other_section rf rf'
  | oc_count rf rf' outTime b : collectVote rf outTime = Ok (rf', b) -> other_section rf rf'.

Definition meanwhile : Raftserver P -> Raftserver P -> Prop := rtc other_section.

Lemma persist_applied rf rf' : persist rf = Ok rf' -> rf'.(lastApplied) = rf.(lastApplied).
Proof. unfold persist. intros H. raft_inv; done. Qed.

(** None of them takes [lastApplied] back. *)
Lemma other_section_applied rf rf' : other_section rf rf' -> rf.(lastApplied) <= rf'.(lastApplied).
Proof.
  intros [r r' H|r r' args H|r r' args reply b H|r r' o b H]; [destruct H| | |];
    match goal with
    | H : SendCommitIndex _ ?r = _ |- _ => unfold SendCommitIndex in H; destruct r; repeat case_match; simplify_eq/=; lia
    | H : background _ _ |- _ => simpl; lia
    | H : ?m = Ok _ |- _ =>
        unfold RequestVote, AppendEntries, sendAppendEntriesToServer, InstallSnapshot_recv, InstallSnapshot_finish,
          sendInstallSnapshotToServer, Snapshot, Start, StartElection, procVoteAnswer, collectVote in H;
        repeat first [progress raft_inv | match goal with H : persist _ = Ok _ |- _ => apply persist_applied in H end];
        simpl in *; repeat case_match; simpl in *; zbool; lia
    | |- context [CommitCheck_done] => unfold CommitCheck_done; split_ifs; simpl; lia
    | _ => simpl; lia
    end.
Qed.

Lemma meanwhile_applied rf rf' : meanwhile rf rf' -> rf.(lastApplied) <= rf'.(lastApplied).
Proof. induction 1 as [|r r1 r2 H _ IH]; [lia|]. apply other_section_applied in H. lia. Qed.

(** A turn of the delivery loop: the message was sent, or passed over with this
    [lastApplied]. *)
Inductive turn := Sent | Covered (applied : Z).

(** The delivery loop over the buffer, with any critical sections of the other
    goroutines between its own. *)
Inductive CommitCheck_turns : Raftserver P -> list ApplyMsg -> list turn -> Raftserver P -> Prop :=
  | ct_end rf rf' : meanwhile rf rf' -> CommitCheck_turns rf [] [] rf'
  | ct_skip rf rf1 msg buffer ts rf' :
      meanwhile rf rf1 -> CommitCheck_check rf1 msg = None -> CommitCheck_turns rf1 buffer ts rf' ->
      CommitCheck_turns rf (msg :: buffer) (Covered rf1.(lastApplied) :: ts) rf'
  | ct_send rf rf1 rf2 msg cur buffer ts rf' :
      meanwhile rf rf1 -> CommitCheck_check rf1 msg = Some cur -> meanwhile rf1 rf2 ->
      CommitCheck_turns (CommitCheck_done rf2 msg cur) buffer ts rf' ->
      CommitCheck_turns rf (msg :: buffer) (Sent :: ts) rf'.

Definition turn_ok (msg : ApplyMsg) (t : turn) : Prop :=
  match t with Sent => True | Covered a => CommandIndex msg <= a end.

Lemma CommitCheck_turns_spec rf0 rf ms ts rf' : CommitCheck_turns rf ms ts rf' -> forall a n,
  msgs_for rf0 (seqZ (a + 1) (Z.of_nat n)) ms -> a <= rf.(lastApplied) ->
  Forall2 turn_ok ms ts /\ a + Z.of_nat n <= rf'.(lastApplied).
Proof.
  induction 1 as [rf rf' Hw|rf rf1 msg ms ts rf' Hw Hck _ IH|rf rf1 rf2 msg cur ms ts rf' Hw Hck Hw2 _ IH];
    intros a n Hms Ha; apply meanwhile_applied in Hw;
    (destruct n as [|n]; [|rewrite seqZ_cons in Hms by lia]); inversion Hms as [|? ? ? ? (e & He & ->) Hms']; subst.
  { split; [constructor|lia]. }
  all: unfold CommitCheck_check in Hck; cbn [CommandIndex msg_for] in Hck;
    destruct (Z.eqb_spec (a + 1) (lastApplied rf1 + 1)) as [E|E]; try done.
  - destruct (IH (a + 1) n) as [H1 H2]; [|lia|split; [|lia]].
    { by replace (Z.of_nat n) with (Z.pred (Z.of_nat (S n))) by lia. }
    constructor; [simpl; lia|done].
  - apply meanwhile_applied in Hw2. simpl in Hck. injection Hck as <-.
    destruct (IH (a + 1) n) as [H1 H2]; [| |split; [by constructor|lia]].
    { by replace (Z.of_nat n) with (Z.pred (Z.of_nat (S n))) by lia. }
    unfold CommitCheck_done. cbn [CommandIndex msg_for]. destruct (Z.eqb_spec (a + 1) (lastApplied rf1 + 1)); [|lia].
    simpl. lia.
Qed.

(** C8. A round of the apply loop, entered with a commit index that is not past
    the end of the log: the buffer holds the entries from [lastApplied + 1] to
    [commitIndex], with their indices and commands, once each and in order.
    Whatever critical sections of the other goroutines run between those of the
    delivery, a message is passed over only if [lastApplied] has reached its
    index (a snapshot covers it), every other one is sent, once and in order,
    and at the end [lastApplied] is at least the commit index found; with no
    other section in between all messages are sent and it is equal. *)
Theorem CommitCheck_delivers rf :
  wf_log rf.(log) -> rf.(lastIncludedIndex) <= rf.(lastApplied) <= rf.(commitIndex) ->
  rf.(commitIndex) <= last_index rf ->
  exists ms, CommitCheck_buffer rf = Ok ms
    /\ msgs_for rf (seqZ (rf.(lastApplied) + 1) (rf.(commitIndex) - rf.(lastApplied))) ms
    /\ (forall ts rf', CommitCheck_turns rf ms ts rf' ->
          Forall2 turn_ok ms ts /\ rf.(commitIndex) <= rf'.(lastApplied))
    /\ CommitCheck_deliver rf ms = (ms, set_lastApplied rf.(commitIndex) rf).
Proof.
  intros Hw Ha Hc.
  destruct (buffer_loop_spec (Z.to_nat (commitIndex rf - lastApplied rf)) rf (lastApplied rf))
    as (ms & Hb & Hms); [done|lia..|].
  exists ms. split_and!; [done|done| |].
  - intros ts rf' Ht. destruct (CommitCheck_turns_spec rf rf ms ts rf' Ht (lastApplied rf) (Z.to_nat (commitIndex rf - lastApplied rf)))
      as [H1 H2]; [by replace (Z.of_nat _) with (commitIndex rf - lastApplied rf) by lia|lia|]. split; [done|lia].
  - rewrite (CommitCheck_deliver_spec rf (Z.to_nat (commitIndex rf - lastApplied rf)) rf ms);
      [|by replace (Z.of_nat _) with (commitIndex rf - lastApplied rf) by lia].
    do 2 f_equal. lia.
Qed.

(** A commit index past the end of the log stops the loop with a panic. *)
Lemma buffer_loop_panics fuel rf a :
  wf_log rf.(log) -> rf.(lastIncludedIndex) <= a <= last_index rf -> last_index rf < rf.(commitIndex) ->
  (Z.to_nat (rf.(commitIndex) - a) <= fuel)%nat -> buffer_loop fuel rf a = Panic.
Proof.
  intros Hw. revert a. induction fuel as [|fuel IH]; intros a Ha Hc Hf; [lia|]. cbn [buffer_loop].
  destruct (Z.ltb_spec a (commitIndex rf)); [|lia].
  destruct (decide (a = last_index rf)) as [->|].
  - unfold apply_msg, idx, GlobalToLocal.
    destruct (Z.ltb_spec (last_index rf + 1 - lastIncludedIndex rf) 0); [done|].
    rewrite lookup_ge_None_2; [done|]. unfold last_index, LocalToGlobal, zlen in *. lia.
  - destruct (apply_msg_wf rf (a + 1) Hw) as (e & He & ->); [lia|]. go_step.
    rewrite IH by lia. done.
Qed.

(** A follower's commit index is the larger of the leader's commit index
    and the end of its own log, where Raft takes the smaller: every entry the
    follower holds past the leader's commit index counts as committed, and when
    the leader is ahead of the follower's log the apply loop panics. *)
Theorem follower_commit_overruns rf args :
  wf_log rf.(log) -> wf_entries (AppendEntriesArgs.Entries args) ->
  rf.(currentTerm) <= AppendEntriesArgs.Term args -> prev_matches rf args ->
  rf.(commitIndex) < AppendEntriesArgs.LeaderCommit args ->
  exists rf' reply, AppendEntries rf args = Ok (rf', reply)
    /\ rf'.(commitIndex) = Z.max (AppendEntriesArgs.LeaderCommit args) (last_index rf')
    /\ (rf.(lastIncludedIndex) <= rf.(lastApplied) <= last_index rf' ->
        last_index rf' < AppendEntriesArgs.LeaderCommit args -> CommitCheck_buffer rf' = Panic).
Proof.
  intros Hw Hes Ht Hm Hlc. pose proof (log_after_wf rf args Hw Hes Hm) as Hw'.
  destruct (AppendEntries_accepted rf args Hw Hes Ht Hm) as (rf' & -> & El & Ei & _ & _ & Ea & Ec).
  rewrite <- El in Hw'. destruct (Z.ltb_spec (commitIndex rf) (AppendEntriesArgs.LeaderCommit args)); [|lia].
  eexists _, _. split_and!; [done..|]. intros Happ Hover.
  apply buffer_loop_panics; [done|lia..].
Qed.

Lemma quick_apply_spec fuel rf :
  wf_log rf.(log) -> rf.(lastIncludedIndex) <= rf.(lastApplied) <= rf.(commitIndex) ->
  rf.(commitIndex) <= last_index rf ->
  (Z.to_nat (rf.(commitIndex) - rf.(lastApplied)) <= fuel)%nat ->
  exists ms, quick_apply_loop fuel rf = Ok (ms, set_lastApplied rf.(commitIndex) rf)
    /\ msgs_for rf (seqZ (rf.(lastApplied) + 1) (rf.(commitIndex) - rf.(lastApplied))) ms.
Proof.
  revert rf. induction fuel as [|fuel IH]; intros rf Hw Ha Hc Hf; cbn [quick_apply_loop].
  { exists []. replace (commitIndex rf) with (lastApplied rf) by lia.
    rewrite set_lastApplied_self, seqZ_nil by lia. split; [done|constructor]. }
  destruct (Z.ltb_spec (lastApplied rf) (commitIndex rf)).
  - set (rf1 := set_lastApplied (lastApplied rf + 1) rf).
    destruct (apply_msg_wf rf1 (lastApplied rf1)) as (e & He & ->);
      [done|unfold last_index, LocalToGlobal in *; simpl; lia|]. go_step.
    destruct (IH rf1) as (ms & -> & Hms);
      [done|unfold last_index, LocalToGlobal in *; simpl; lia..|]. go_step.
    eexists. split; [done|]. rewrite seqZ_cons by lia. constructor; [by exists e|].
    simpl in Hms. replace (Z.succ (lastApplied rf + 1)) with (lastApplied rf + 1 + 1) by lia.
    by replace (Z.pred (commitIndex rf - lastApplied rf)) with (commitIndex rf - (lastApplied rf + 1)) by lia.
  - exists []. replace (commitIndex rf) with (lastApplied rf) by lia.
    rewrite set_lastApplied_self, seqZ_nil by lia. split; [done|constructor].
Qed.

(** At start-up [QuickApply] returns, having sent every committed entry
    after the snapshot once and in order. *)
Theorem QuickApply_delivers rf :
  wf_log rf.(log) -> rf.(lastIncludedIndex) <= rf.(lastApplied) <= rf.(commitIndex) ->
  rf.(commitIndex) <= last_index rf ->
  exists ms, QuickApply rf = Ok (ms, set_lastApplied rf.(commitIndex) rf)
    /\ msgs_for rf (seqZ (rf.(lastApplied) + 1) (rf.(commitIndex) - rf.(lastApplied))) ms.
Proof. intros. apply quick_apply_spec; (done || lia). Qed.

(** ** A replication round *)

(** The request for a peer whose next index is past the snapshot: everything
    from there on, after the entry before it. *)
Lemma plan_spec rf i :
  wf_log rf.(log) ->
  rf.(lastIncludedIndex) <= mget rf.(nextIndex) i - 1 <= last_index rf ->
  exists e, log_at rf (mget rf.(nextIndex) i - 1) = Some e
    /\ StartSendAppendEntries_peer rf i
       = Ok (PlanAppend (AppendEntriesArgs.mk rf.(currentTerm) rf.(me) (mget rf.(nextIndex) i - 1)
               (Term e) rf.(commitIndex)
               (drop (Z.to_nat (GlobalToLocal rf (mget rf.(nextIndex) i))) rf.(log)))).
Proof.
  intros Hw Hn. destruct (log_at_in_range rf (mget (nextIndex rf) i - 1) Hw Hn) as (e & He & Ht).
  exists e. split; [done|]. unfold StartSendAppendEntries_peer.
  destruct (Z.ltb_spec (mget (nextIndex rf) i - 1) (lastIncludedIndex rf)); [lia|].
  unfold last_index, LocalToGlobal in *.
  destruct (Z.ltb_spec (mget (nextIndex rf) i - 1) (zlen (log rf) - 1 + lastIncludedIndex rf)).
  - replace (slice_from (log rf) _) with (Ok (drop (Z.to_nat (GlobalToLocal rf (mget (nextIndex rf) i))) (log rf)))
      by (symmetry; apply slice_from_Ok; split; [unfold GlobalToLocal; lia|done]).
    go_step. rewrite Ht. go_step. done.
  - go_step. rewrite Ht. go_step. rewrite drop_ge; [done|]. unfold GlobalToLocal, zlen in *. lia.
Qed.

(** C11. One round of replication to a follower whose entry before the next index
    has the term of the leader's, and whose term is not newer: the leader sends a
    request, the follower accepts it, and after that it holds, at every index
    past that entry up to the end of the leader's log, the leader's entry with
    its command, or the entry of the same term it held there before; the
    leader's match index for the follower covers its whole log. *)
Theorem replication_round ld fl i e :
  wf_log ld.(log) -> wf_log fl.(log) -> ld.(lastIncludedIndex) <= ld.(commitIndex) ->
  fl.(role) <> Leader -> fl.(currentTerm) <= ld.(currentTerm) ->
  let prev := mget ld.(nextIndex) i - 1 in
  ld.(lastIncludedIndex) <= prev <= last_index ld ->
  fl.(lastIncludedIndex) <= prev <= last_index fl ->
  log_at ld prev = Some e -> (exists e', log_at fl prev = Some e' /\ Term e' = Term e) ->
  exists args fl' reply ld' snap,
    StartSendAppendEntries_peer ld i = Ok (PlanAppend args)
    /\ AppendEntries fl args = Ok (fl', reply)
    /\ sendAppendEntriesToServer ld i args reply = Ok (ld', snap)
    /\ (forall g x, prev < g -> log_at ld g = Some x ->
          log_at fl' g = Some x \/ exists y, log_at fl' g = Some y /\ log_at fl g = Some y /\ Term y = Term x)
    /\ last_index ld <= mget ld'.(matchIndex) i.
Proof.
  intros Hwl Hwf Hc Hrole Ht prev Hl Hf He Hagree.
  destruct (plan_spec ld i Hwl Hl) as (e0 & He0 & Hplan). fold prev in He0, Hplan.
  assert (e0 = e) as -> by congruence. set (args := AppendEntriesArgs.mk _ _ _ _ _ _) in Hplan.
  assert (wf_entries (AppendEntriesArgs.Entries args)) as Hes
    by (destruct Hwl; by apply Forall_drop).
  assert (prev_matches fl args) as Hm by (split; [done|by right]).
  assert (takes_entries fl args = true) as Htk
    by (unfold takes_entries; by rewrite bool_decide_false).
  destruct (AppendEntries_accepted fl args Hwf Hes Ht Hm) as (fl' & Ha & El & Ei & _).
  pose proof (merged_entries fl fl' args Hm Htk El Ei) as Hhas.
  destruct (success_reply ld i args (AppendEntriesReply.mk (AppendEntriesArgs.Term args) true 0
    (lastIncludedIndex fl) 0)) as (c & snap & Hs & _); [done..|].
  exists args, fl', (AppendEntriesReply.mk (AppendEntriesArgs.Term args) true 0 (lastIncludedIndex fl) 0).
  eexists _, snap. split_and!; [done|done|exact Hs| |].
  - intros g x Hg Hx. unfold log_at in Hx.
    destruct (Z.ltb_spec g (lastIncludedIndex ld)); [done|].
    destruct (Hhas (Z.to_nat (g - prev - 1)) x) as (y & Hy & Et & Hor).
    + simpl. rewrite lookup_drop. unfold GlobalToLocal in *.
      replace (_ + _)%nat with (Z.to_nat (g - lastIncludedIndex ld)) by lia.
      by destruct (log ld !! _) as [[]|]; simplify_eq/=.
    + cbn [AppendEntriesArgs.PrevLogIndex args] in Hy, Hor.
      replace (prev + 1 + Z.of_nat (Z.to_nat (g - prev - 1))) with g in * by lia.
      destruct Hor as [->|Hor]; [by left|right; by exists y].
  - unfold mget at 1. simpl. rewrite lookup_insert_eq. simpl. fold prev.
    unfold last_index, LocalToGlobal, GlobalToLocal in *. rewrite zlen_drop by lia. lia.
Qed.

(** ** Snapshots received *)

Lemma find_in_log_from rf l r g t :
  Forall is_Some l ->
  find_in_log rf l r g t
  = Ok (match (if g - rf.(lastIncludedIndex) - r <? 0 then None
               else mjoin (l !! Z.to_nat (g - rf.(lastIncludedIndex) - r))) with
        | Some e => if Term e =? t then Some (g - rf.(lastIncludedIndex)) else None
        | None => None
        end).
Proof.
  intros Hl. revert r. induction Hl as [|? l [e ->] Hl IH]; intros r; cbn [find_in_log].
  - rewrite lookup_nil. by destruct (_ <? 0).
  - unfold LocalToGlobal. rewrite IH. set (d := g - lastIncludedIndex rf - r).
    replace (g - lastIncludedIndex rf - (r + 1)) with (d - 1) by (unfold d; lia).
    destruct (Z.eqb_spec (r + lastIncludedIndex rf) g) as [Eg|Eg].
    + replace d with 0 by (unfold d; lia). simpl.
      replace (g - lastIncludedIndex rf) with r by lia. by destruct (Term e =? t).
    + destruct (Z.ltb_spec d 0), (Z.ltb_spec (d - 1) 0); try lia; try done.
      replace (Z.to_nat d) with (S (Z.to_nat (d - 1))) by lia. done.
Qed.

(** The entry the snapshot ends with, when the log has it. *)
Definition covered_entry rf (args : InstallSnapshotArgs.t) : option Entry :=
  match log_at rf (InstallSnapshotArgs.LastIncludedIndex args) with
  | Some e => if Term e =? InstallSnapshotArgs.LastIncludedTerm args then Some e else None
  | None => None
  end.

Lemma find_in_log_covered rf args :
  wf_log rf.(log) ->
  find_in_log rf rf.(log) 0 (InstallSnapshotArgs.LastIncludedIndex args)
    (InstallSnapshotArgs.LastIncludedTerm args)
  = Ok (match covered_entry rf args with
        | Some _ => Some (GlobalToLocal rf (InstallSnapshotArgs.LastIncludedIndex args))
        | None => None
        end).
Proof.
  intros [_ Hw]. rewrite find_in_log_from by done. unfold covered_entry, log_at, GlobalToLocal.
  rewrite Z.sub_0_r. set (lii := InstallSnapshotArgs.LastIncludedIndex args).
  destruct (Z.ltb_spec (lii - lastIncludedIndex rf) 0), (Z.ltb_spec lii (lastIncludedIndex rf));
    try lia; try done.
  destruct (log rf !! _) as [[e|]|]; [|done..]. simpl. by destruct (Term e =? _).
Qed.

(** A snapshot that is neither stale nor behind what the node has. *)
Definition snapshot_news rf (args : InstallSnapshotArgs.t) : Prop :=
  rf.(currentTerm) <= InstallSnapshotArgs.Term args
  /\ rf.(lastIncludedIndex) <= InstallSnapshotArgs.LastIncludedIndex args
  /\ rf.(commitIndex) <= InstallSnapshotArgs.LastIncludedIndex args.

Lemma covered_in_range rf args e :
  covered_entry rf args = Some e ->
  InstallSnapshotArgs.LastIncludedIndex args - rf.(lastIncludedIndex) < zlen rf.(log).
Proof.
  unfold covered_entry, log_at, GlobalToLocal.
  destruct (Z.ltb_spec (InstallSnapshotArgs.LastIncludedIndex args) (lastIncludedIndex rf)); [done|].
  destruct (log rf !! _) as [p|] eqn:Hl; [|done]. intros _.
  apply lookup_lt_Some in Hl. unfold zlen. lia.
Qed.

Lemma InstallSnapshot_installs rf args :
  wf_log rf.(log) -> snapshot_news rf args ->
  let lii := InstallSnapshotArgs.LastIncludedIndex args in
  exists rf' msg, InstallSnapshot_recv rf args
      = Ok (rf', InstallSnapshotReply.mk (InstallSnapshotArgs.Term args), Some msg)
    /\ rf'.(log) = (match covered_entry rf args with
                    | Some _ => drop (Z.to_nat (GlobalToLocal rf lii)) rf.(log)
                    | None => [None; Some (mkEntry (InstallSnapshotArgs.LastIncludedTerm args)
                                            (InstallSnapshotArgs.LastIncludedCommand args))]
                    end)
    /\ rf'.(lastIncludedIndex) = lii
    /\ rf'.(lastIncludedTerm) = InstallSnapshotArgs.LastIncludedTerm args
    /\ rf'.(snapShot) = InstallSnapshotArgs.Data args
    /\ rf'.(role) = Follower /\ rf'.(currentTerm) = InstallSnapshotArgs.Term args
    /\ rf'.(commitIndex) = lii /\ rf'.(lastApplied) = Z.max rf.(lastApplied) lii
    /\ SnapshotValid msg = true /\ CommandValid msg = false
    /\ SnapshotIndex msg = lii /\ MsgSnapshot msg = InstallSnapshotArgs.Data args.
Proof.
  intros Hw (Ht & Hi & Hc) lii. unfold InstallSnapshot_recv. fold lii in Hi, Hc |- *.
  destruct (Z.ltb_spec (InstallSnapshotArgs.Term args) (currentTerm rf)); [lia|].
  set (rf1 := set_role Follower _).
  assert (rf1.(log) = rf.(log) /\ rf1.(lastIncludedIndex) = rf.(lastIncludedIndex)
    /\ rf1.(commitIndex) = rf.(commitIndex) /\ rf1.(lastApplied) = rf.(lastApplied)
    /\ rf1.(role) = Follower /\ rf1.(currentTerm) = InstallSnapshotArgs.Term args)
    as (El & Ei & Ec & Ea & Er & Et).
  { unfold rf1. destruct (Z.ltb_spec (currentTerm rf) (InstallSnapshotArgs.Term args)); simpl;
      split_and!; (done || lia). }
  clearbody rf1. rewrite Ei, Ec.
  destruct (Z.ltb_spec lii (lastIncludedIndex rf)), (Z.ltb_spec lii (commitIndex rf)); try lia.
  cbn [orb]. pose proof (find_in_log_covered rf1 args ltac:(by rewrite El)) as Hf.
  fold lii in Hf. rewrite Hf. go_step.
  assert (covered_entry rf1 args = covered_entry rf args) as ->.
  { unfold covered_entry, log_at, GlobalToLocal. by rewrite El, Ei. }
  unfold GlobalToLocal. rewrite Ei, El. fold lii.
  destruct (covered_entry rf args) as [e|] eqn:Hcov; go_step.
  - replace (slice_from (log rf) (lii - lastIncludedIndex rf))
      with (Ok (drop (Z.to_nat (lii - lastIncludedIndex rf)) (log rf)))
      by (symmetry; apply slice_from_Ok; split; [split; [lia|by eapply Z.lt_le_incl, covered_in_range]|done]).
    go_step. rewrite <- Et, <- Ea. eexists _, _. split; [reflexivity|]. simpl. rewrite Ec.
    destruct (Z.ltb_spec (commitIndex rf) lii); simpl; split_and!; (done || lia).
  - rewrite <- Et, <- Ea. eexists _, _. split; [reflexivity|]. simpl. rewrite Ec.
    destruct (Z.ltb_spec (commitIndex rf) lii); simpl; split_and!; (done || lia).
Qed.

(** A snapshot whose last entry the log has is installed by cutting the
    log there: every entry from that index on keeps its global index, the node
    is a follower of the sender's term, the commit index is the snapshot's, and
    the state machine is given the snapshot. *)
Theorem InstallSnapshot_keeps_entries rf args e :
  wf_log rf.(log) -> snapshot_news rf args -> covered_entry rf args = Some e ->
  let lii := InstallSnapshotArgs.LastIncludedIndex args in
  exists rf' reply msg, InstallSnapshot_recv rf args = Ok (rf', reply, Some msg)
    /\ wf_log rf'.(log) /\ last_index rf' = last_index rf
    /\ (forall g, lii <= g -> log_at rf' g = log_at rf g)
    /\ rf'.(role) = Follower /\ rf'.(currentTerm) = InstallSnapshotArgs.Term args
    /\ rf'.(commitIndex) = lii /\ lii <= rf'.(lastApplied)
    /\ SnapshotValid msg = true /\ SnapshotIndex msg = lii
    /\ MsgSnapshot msg = InstallSnapshotArgs.Data args.
Proof.
  intros Hw Hn Hcov lii. pose proof (covered_in_range rf args e Hcov) as Hr. fold lii in Hr.
  destruct (InstallSnapshot_installs rf args Hw Hn)
    as (rf' & msg & -> & El & Ei & _ & _ & Er & Et & Ec & Ea & Hm).
  fold lii in El, Ei, Ec, Ea, Hm. rewrite Hcov in El. destruct Hn as (_ & Hi & _). fold lii in Hi.
  eexists _, _, _. split; [done|]. unfold last_index, log_at, LocalToGlobal, GlobalToLocal in *.
  rewrite El, Ei. split_and!; try done; try lia; try by apply Hm.
  - split; [|by apply Forall_drop; destruct Hw].
    intros E. apply (f_equal zlen) in E. rewrite zlen_drop, zlen_nil in E by lia. lia.
  - rewrite zlen_drop by lia. lia.
  - intros g Hg. destruct (Z.ltb_spec g lii), (Z.ltb_spec g (lastIncludedIndex rf)); try lia.
    rewrite lookup_drop. do 2 f_equal. lia.
Qed.

(** A follower whose log is a nil slot and one entry, all of it committed,
    keeps that entry when it is sent another one of the same term. *)
Lemma misplaced_entry_stays rf x new sender t :
  rf.(log) = [None; Some x] -> rf.(commitIndex) = rf.(lastIncludedIndex) ->
  rf.(role) = Follower -> rf.(currentTerm) <= t -> Term new = Term x ->
  exists rf' reply,
    AppendEntries rf (AppendEntriesArgs.mk t sender rf.(lastIncludedIndex) (Term x) 0 [Some new])
      = Ok (rf', reply)
    /\ AppendEntriesReply.Success reply = true
    /\ rf'.(log) = rf.(log) /\ rf'.(lastIncludedIndex) = rf.(lastIncludedIndex).
Proof.
  intros El Ec Er Ht En. unfold AppendEntries.
  cbn [AppendEntriesArgs.Term AppendEntriesArgs.PrevLogIndex AppendEntriesArgs.Entries
       AppendEntriesArgs.LeaderId AppendEntriesArgs.LeaderCommit].
  destruct (Z.ltb_spec t (currentTerm rf)); [lia|].
  assert (exists rf1,
    (if currentTerm rf <? t
     then rf ← persist (set_votedFor (-1) (set_currentTerm t rf)); mret (set_role Follower rf)
     else mret rf) = Ok rf1
    /\ rf1.(log) = [None; Some x] /\ rf1.(lastIncludedIndex) = rf.(lastIncludedIndex)
    /\ rf1.(commitIndex) = rf.(lastIncludedIndex) /\ rf1.(role) = Follower)
    as (rf1 & -> & El1 & Ei1 & Ec1 & Er1).
  { destruct (currentTerm rf <? t); [|by exists rf].
    destruct (persist_tail (set_votedFor (-1) (set_currentTerm t rf))) as [p ->];
      simpl; [by rewrite El|rewrite El; repeat constructor; eauto|].
    go_step. eexists. split; [done|]. by rewrite <- Ec. }
  go_step. unfold prev_check, LocalToGlobal, GlobalToLocal. simpl. rewrite El1, Ei1, Ec1, Er1.
  replace (zlen [None; Some x]) with 2 by done.
  destruct (Z.leb_spec (2 + lastIncludedIndex rf) (lastIncludedIndex rf)); [lia|].
  rewrite Z.ltb_irrefl, Z.eqb_refl, Z.sub_diag. go_step.
  rewrite bool_decide_true by done.
  change (0 + 1 <? 2) with true. change (log_term [None; Some x] (0 + 1)) with (Ok (Term x)).
  go_step. rewrite En, Z.eqb_refl. cbn [negb]. go_step.
  match goal with |- context [persist ?r] =>
    destruct (persist_tail r) as [p ->]; [done|simpl; repeat constructor; eauto|] end.
  go_step. eexists _, _. split; [done|]. simpl. rewrite El.
  by destruct (_ <? 0).
Qed.

(** A snapshot whose last entry the log does not have leaves the log one
    slot off: slot 0 is nil and the snapshot's own last entry stands at the
    next global index, so that a leader sending a different entry of the same
    term for that index is told the follower has it. *)
Theorem InstallSnapshot_misplaces rf args :
  wf_log rf.(log) -> snapshot_news rf args -> covered_entry rf args = None ->
  let lii := InstallSnapshotArgs.LastIncludedIndex args in
  let stale := mkEntry (InstallSnapshotArgs.LastIncludedTerm args)
                 (InstallSnapshotArgs.LastIncludedCommand args) in
  exists rf' reply msg, InstallSnapshot_recv rf args = Ok (rf', reply, Some msg)
    /\ log_at rf' lii = None /\ log_at rf' (lii + 1) = Some stale
    /\ forall new sender t, InstallSnapshotArgs.Term args <= t -> Term new = Term stale ->
        exists rf'' reply',
          AppendEntries rf' (AppendEntriesArgs.mk t sender lii (Term stale) 0 [Some new])
            = Ok (rf'', reply')
          /\ AppendEntriesReply.Success reply' = true
          /\ log_at rf'' (lii + 1) = Some stale.
Proof.
  intros Hw Hn Hcov lii stale.
  destruct (InstallSnapshot_installs rf args Hw Hn)
    as (rf' & msg & -> & El & Ei & _ & _ & Er & Et & Ec & _).
  fold lii in El, Ei, Ec. rewrite Hcov in El. fold stale in El.
  eexists _, _, _. split; [done|]. unfold log_at, GlobalToLocal. rewrite El, Ei.
  rewrite Z.ltb_irrefl, Z.sub_diag. replace (lii + 1 - lii) with 1 by lia.
  destruct (Z.ltb_spec (lii + 1) lii); [lia|]. split_and!; [done..|]. intros new sender t Ht En.
  destruct (misplaced_entry_stays rf' stale new sender t) as (rf'' & reply' & Hrun & Hs & El'' & Ei'');
    [done|congruence|done|lia|done|].
  rewrite Ei in Hrun. exists rf'', reply'. rewrite El'', Ei'', El, Ei.
  destruct (Z.ltb_spec (lii + 1) lii); [lia|]. by replace (lii + 1 - lii) with 1 by lia.
Qed.

(** ** The first round of a new leader *)

Lemma mapM_snapshots rf (ps : list Z) :
  (forall i, mget rf.(nextIndex) i = 0) -> 0 <= rf.(lastIncludedIndex) ->
  mapM (fun i => p ← StartSendAppendEntries_peer rf i; mret (i, p)) ps
  = Ok (map (fun i => (i, PlanInstallSnapshot)) ps).
Proof.
  intros Hn Hl. induction ps as [|i ps IH]; [done|]. apply bind_Ok.
  exists (i, PlanInstallSnapshot). split.
  - unfold StartSendAppendEntries_peer. rewrite Hn.
    destruct (Z.ltb_spec (0 - 1) (lastIncludedIndex rf)); [done|lia].
  - apply bind_Ok. eauto.
Qed.

Lemma collectVote_elected rf outTime rf' :
  collectVote rf outTime = Ok (rf', true) -> rf.(nextIndex) = ∅ ->
  rf'.(role) = Leader /\ rf'.(nextIndex) = ∅ /\ rf'.(matchIndex) = rf.(matchIndex)
  /\ rf'.(lastIncludedIndex) = rf.(lastIncludedIndex) /\ rf'.(peers) = rf.(peers)
  /\ rf'.(currentTerm) = rf.(currentTerm) /\ rf'.(log) = rf.(log)
  /\ rf'.(commitIndex) = rf.(commitIndex) /\ rf'.(me) = rf.(me).
Proof.
  unfold collectVote. intros H Hn. destruct (is_quorum rf (voteCount rf)); [by go_inv|].
  destruct (_ && _ && _); [|by go_inv]. cbn [nextIndex matchIndex set_leaderIdx set_role set_voteCount] in H.
  rewrite Hn in H. unfold reset_fuel in H. rewrite map_fold_empty in H. simpl in H.
  rewrite map_size_empty in H. simpl in H. go_inv. done.
Qed.

(** A new leader whose [nextIndex] map is empty, as [Make] leaves it,
    sends its snapshot to every peer in the first round, since the loop that
    should set the map runs over its current size; the answer to the snapshot
    sets the peer's next index to the first entry after it, and from there the
    leader sends its whole log. *)
Theorem first_round_sends_snapshots rf outTime rf' i reply :
  wf_log rf.(log) -> 0 <= rf.(lastIncludedIndex) -> rf.(nextIndex) = ∅ ->
  collectVote rf outTime = Ok (rf', true) ->
  InstallSnapshotReply.Term reply <= rf.(currentTerm) ->
  StartSendAppendEntries rf' = Ok (Some (map (fun i => (i, PlanInstallSnapshot)) rf.(peers)))
  /\ exists rf'' args, sendInstallSnapshotToServer rf' i reply = Ok rf''
      /\ StartSendAppendEntries_peer rf'' i = Ok (PlanAppend args)
      /\ AppendEntriesArgs.PrevLogIndex args = rf.(lastIncludedIndex)
      /\ AppendEntriesArgs.Entries args = drop 1 rf.(log).
Proof.
  intros Hw Hl Hn Hcv Ht.
  destruct (collectVote_elected rf outTime rf' Hcv Hn) as (Er & En & _ & Ei & Ep & Et & El & Ec & Em).
  pose proof (wf_log_length _ Hw) as Hlen.
  assert (forall j, mget (nextIndex rf') j = 0) as Hz by (intros j; unfold mget; by rewrite En, lookup_empty).
  split.
  - unfold StartSendAppendEntries. rewrite bool_decide_false by tauto.
    rewrite mapM_snapshots, Ep by (done || lia). done.
  - unfold sendInstallSnapshotToServer. rewrite Et.
    destruct (Z.ltb_spec (currentTerm rf) (InstallSnapshotReply.Term reply)); [lia|].
    rewrite Hz. unfold LocalToGlobal. rewrite Ei, Z.max_l by lia.
    set (rf'' := set_nextIndex _ rf').
    assert (mget (nextIndex rf'') i = 1 + lastIncludedIndex rf) as Hm
      by (unfold mget; simpl; by rewrite lookup_insert_eq).
    destruct (plan_spec rf'' i) as (e & He & Hp).
    + simpl. by rewrite El.
    + rewrite Hm. unfold last_index, LocalToGlobal. simpl. rewrite Ei, El. lia.
    + eexists rf'', _. split_and!; [done|exact Hp|cbn [AppendEntriesArgs.PrevLogIndex]; lia|].
      cbn [AppendEntriesArgs.Entries]. rewrite Hm. simpl. rewrite El. unfold GlobalToLocal. simpl. rewrite Ei.
      by replace (Z.to_nat (1 + lastIncludedIndex rf - lastIncludedIndex rf)) with 1%nat by lia.
Qed.

End handlers.

(** ** The loop over a map that grows *)

Lemma size_bounded (m : gmap Z Z) b :
  (forall k, is_Some (m !! k) -> 0 <= k < b) -> 0 <= b -> Z.of_nat (size m) <= b.
Proof.
  intros Hk Hb. rewrite <- size_dom.
  assert (dom m ⊆ list_to_set (seqZ 0 b)) as Hsub.
  { intros k Hin. rewrite elem_of_list_to_set, elem_of_seqZ. apply elem_of_dom, Hk in Hin. lia. }
  apply subseteq_size in Hsub.
  rewrite size_list_to_set, length_seqZ in Hsub by apply NoDup_seqZ. lia.
Qed.

Lemma reset_next_stable fuel extra x i b (m : gmap Z Z) :
  (forall k, is_Some (m !! k) -> 0 <= k < b) -> 0 <= i <= b -> (Z.to_nat (b - i) < fuel)%nat ->
  reset_next (fuel + extra) x i m = reset_next fuel x i m.
Proof.
  revert i m. induction fuel as [|fuel IH]; intros i m Hk Hi Hf; [lia|]. simpl.
  destruct (Z.ltb_spec i (Z.of_nat (size m))) as [Hlt|]; [|done].
  pose proof (size_bounded m b Hk ltac:(lia)). apply IH; [|lia|lia].
  intros k [<-|Hne]%lookup_insert_is_Some; [lia|]. naive_solver.
Qed.

Lemma max_key_bound (m : gmap Z Z) k :
  is_Some (m !! k) -> k <= map_fold (fun k _ acc => Z.max k acc) (-1) m.
Proof.
  intros Hk. revert Hk.
  apply (map_fold_weak_ind (fun b m => is_Some (m !! k) -> k <= b)).
  - rewrite lookup_empty. by intros [].
  - intros j y m' r Hj IH [<-|[Hne Hs]]%lookup_insert_is_Some; [lia|]. apply IH in Hs. lia.
Qed.

(** The loop [for i < len(nextIndex)] of [startWork] and [collectVote],
    which adds the keys it visits to the map it measures, ends on every map
    with node ids for keys: more turns than [reset_fuel] change nothing. *)
Theorem reset_next_terminates x (m : gmap Z Z) extra :
  (forall k, is_Some (m !! k) -> 0 <= k) ->
  reset_next (reset_fuel m + extra) x 0 m = reset_next (reset_fuel m) x 0 m.
Proof.
  intros Hpos. set (top := map_fold (fun k _ acc => Z.max k acc) (-1) m).
  assert (-1 <= top) as Ht.
  { unfold top. apply (map_fold_weak_ind (fun b _ => -1 <= b)); [lia|]. intros. lia. }
  apply (reset_next_stable _ _ _ _ (top + 1)).
  - intros k Hk. pose proof (max_key_bound m k Hk). fold top in H. specialize (Hpos k Hk). lia.
  - lia.
  - unfold reset_fuel. fold top. lia.
Qed.

(** ** Runs on concrete nodes *)

(** An entry of term [t] that puts byte [b] under the empty key. *)
Definition put_entry (t : Z) (b : byte) : Entry := mkEntry t (Some (mkOp PUT 1 7 [] [b])).

Definition sample_log : list (option Entry) :=
  [Some (mkEntry 0 None); Some (put_entry 1 x01); Some (put_entry 1 x02); Some (put_entry 2 x03)].

(** Node 1 of three, in term 2, with [commit] entries committed and [applied]
    applied. *)
Definition sample_node (r : Role) (commit applied : Z) : Raftserver MemStore.t :=
  mkRaft 1 [0; 2] 0 0 sample_log 2 (-1) commit applied ∅ ∅ r 1 [] 0 0 MemStore.empty.

Definition sample_append (prev prevTerm commit : Z) (es : list (option Entry)) : AppendEntriesArgs.t :=
  AppendEntriesArgs.mk 3 0 prev prevTerm commit es.

Lemma sample_wf : wf_log sample_log.
Proof. split; [done|]. repeat constructor; eauto. Qed.

Lemma put_entries_wf es : wf_entries (map Some es).
Proof. induction es; simpl; constructor; eauto. Qed.

Lemma sample_prev r applied : prev_matches (sample_node r 1 applied) (sample_append 2 1 2 [Some (put_entry 3 x04)]).
Proof. split; [by vm_compute|]. right. by exists (put_entry 1 x02). Qed.

Lemma RequestVote_grants_witness :
  exists rf' reply,
    RequestVote (sample_node Follower 1 1) (RequestVoteArgs.mk 3 2 3 2) = Ok (rf', reply)
    /\ RequestVoteReply.VoteGranted reply = true.
Proof.
  destruct (RequestVote_grants (sample_node Follower 1 1) (RequestVoteArgs.mk 3 2 3 2) sample_wf)
    as (rf' & reply & Hrun & Hg & _).
  exists rf', reply. split; [done|]. apply Hg. split; [by left|].
  exists (put_entry 2 x03). split; [done|]. right. by vm_compute.
Defined.

Lemma AppendEntries_accepts_witness :
  exists rf' reply,
    AppendEntries (sample_node Follower 1 1) (sample_append 2 1 2 [Some (put_entry 3 x04)])
      = Ok (rf', reply) /\ AppendEntriesReply.Success reply = true.
Proof.
  destruct (AppendEntries_accepts (sample_node Follower 1 1)
    (sample_append 2 1 2 [Some (put_entry 3 x04)]) sample_wf (put_entries_wf [put_entry 3 x04]))
    as (rf' & reply & Hrun & Hs & _).
  exists rf', reply. split; [done|]. apply Hs. split; [by vm_compute|apply sample_prev].
Defined.

Lemma AppendEntries_contains_witness :
  exists rf' reply,
    AppendEntries (sample_node Follower 1 1) (sample_append 2 1 2 [Some (put_entry 3 x04)])
      = Ok (rf', reply)
    /\ (exists k, merged_at (sample_node Follower 1 1) 2 [Some (put_entry 3 x04)] rf'.(log) k)
    /\ rf'.(log) = take 3 sample_log ++ [Some (put_entry 3 x04)].
Proof.
  destruct (AppendEntries_contains (sample_node Follower 1 1)
    (sample_append 2 1 2 [Some (put_entry 3 x04)]) sample_wf (put_entries_wf [put_entry 3 x04])
    ltac:(by vm_compute) (sample_prev _ _) ltac:(by vm_compute)) as (rf' & reply & Hrun & Hm & _).
  exists rf', reply. split_and!; [done..|]. vm_compute in Hrun. by injection Hrun as <- _.
Defined.

(** A reply of peer 0, together with the leader a majority for index 3. *)
Lemma leader_commits_witness :
  exists rf' snap,
    sendAppendEntriesToServer (sample_node Leader 1 1) 0
      (AppendEntriesArgs.mk 2 1 2 1 1 [Some (put_entry 2 x03)])
      (AppendEntriesReply.mk 2 true 0 0 0) = Ok (rf', snap)
    /\ mget rf'.(matchIndex) 0 = 3 /\ rf'.(commitIndex) = 3.
Proof.
  destruct (leader_commits (sample_node Leader 1 1) 0
    (AppendEntriesArgs.mk 2 1 2 1 1 [Some (put_entry 2 x03)])
    (AppendEntriesReply.mk 2 true 0 0 0) sample_wf)
    as (rf' & snap & Hrun & _ & Hm & _); [by vm_compute..|].
  exists rf', snap. split_and!; [done|done|]. vm_compute in Hrun. by injection Hrun as <- _.
Defined.

Lemma Snapshot_keeps_entries_witness :
  exists rf', Snapshot (sample_node Leader 2 2) 2 [x01] = Ok rf'
    /\ rf'.(lastIncludedIndex) = 2 /\ log_at rf' 3 = Some (put_entry 2 x03).
Proof.
  destruct (Snapshot_keeps_entries (sample_node Leader 2 2) 2 [x01] sample_wf)
    as (rf' & Hrun & Hdo & _); [by vm_compute|].
  exists rf'. destruct Hdo as (_ & Ei & _ & _ & Hk & _); [by vm_compute|].
  split_and!; [done..|]. rewrite Hk by (by vm_compute). reflexivity.
Defined.

(** Indices 2 and 3 are committed and not applied; the service takes a snapshot
    up to 2 before the first is delivered. *)
Lemma CommitCheck_delivers_witness :
  exists ms rf', CommitCheck_buffer (sample_node Follower 3 1) = Ok ms
    /\ map CommandIndex ms = [2; 3]
    /\ CommitCheck_turns (sample_node Follower 3 1) ms [Covered 2; Sent] rf' /\ 3 <= rf'.(lastApplied)
    /\ CommitCheck_deliver (sample_node Follower 3 1) ms = (ms, sample_node Follower 3 3).
Proof.
  destruct (CommitCheck_delivers (sample_node Follower 3 1) sample_wf)
    as (ms & Hb & _ & Ht & Hd); [by vm_compute..|].
  destruct (Snapshot (sample_node Follower 3 1) 2 [x01]) as [rf1| |] eqn:Hs; [|by vm_compute in Hs..].
  assert (rf1.(lastApplied) = 2 /\ map (CommitCheck_check rf1) ms = [None; Some 2]
          /\ map CommandIndex ms = [2; 3]) as (E1 & E2 & E3).
  { vm_compute in Hs, Hb. by injection Hs as <-; injection Hb as <-. }
  destruct ms as [|m2 [|m3 []]]; try done. simpl in E2, E3. injection E2 as Hck2 Hck3. injection E3 as Hi2 Hi3.
  assert (CommitCheck_turns (sample_node Follower 3 1) [m2; m3] [Covered 2; Sent] (CommitCheck_done rf1 m3 2)) as Hrun.
  { rewrite <- E1 at 1. eapply ct_skip; [by apply rtc_once, oc_local, (ls_Snapshot false 2 [x01])|done|].
    eapply ct_send; [apply rtc_refl|done|apply rtc_refl|]. apply ct_end, rtc_refl. }
  exists [m2; m3], (CommitCheck_done rf1 m3 2). split_and!; [done| |done|by apply (Ht _ _ Hrun)|done].
  simpl. by rewrite Hi2, Hi3.
Defined.

(** Node 1 leads term 3 and knows that node 0 needs index 3. *)
Definition sample_leader : Raftserver MemStore.t :=
  mkRaft 1 [0; 2] 0 1 (sample_log ++ [Some (put_entry 3 x04)]) 3 1 1 1 {[0 := 3]} ∅ Leader 2 [] 0 0
    MemStore.empty.

Lemma sample_leader_wf : wf_log sample_leader.(log).
Proof. split; [done|]. repeat constructor; eauto. Qed.

Lemma replication_round_witness :
  exists args fl' reply ld' snap,
    StartSendAppendEntries_peer sample_leader 0 = Ok (PlanAppend args)
    /\ AppendEntries (sample_node Follower 1 1) args = Ok (fl', reply)
    /\ sendAppendEntriesToServer sample_leader 0 args reply = Ok (ld', snap)
    /\ log_at fl' 4 = Some (put_entry 3 x04)
    /\ 4 <= mget ld'.(matchIndex) 0.
Proof.
  destruct (replication_round sample_leader (sample_node Follower 1 1) 0 (put_entry 1 x02)
    sample_leader_wf sample_wf) as (args & fl' & reply & ld' & snap & H1 & H2 & H3 & H4 & H5);
    [by vm_compute..|by exists (put_entry 1 x02)|].
  exists args, fl', reply, ld', snap. split_and!; [done..| |done].
  destruct (H4 4 (put_entry 3 x04)) as [?|(y & _ & Hy & _)]; [by vm_compute..|done|by vm_compute in Hy].
Defined.

Definition sample_snapshot (index term : Z) : InstallSnapshotArgs.t :=
  InstallSnapshotArgs.mk 3 index term 0 (Command (put_entry term x02)) [x01].

Lemma sample_snapshot_news index term :
  1 <= index -> snapshot_news (sample_node Follower 1 1) (sample_snapshot index term).
Proof. intros. split_and!; simpl; lia. Qed.

Lemma InstallSnapshot_keeps_entries_witness :
  exists rf' reply msg,
    InstallSnapshot_recv (sample_node Follower 1 1) (sample_snapshot 2 1) = Ok (rf', reply, Some msg)
    /\ log_at rf' 3 = Some (put_entry 2 x03).
Proof.
  destruct (InstallSnapshot_keeps_entries (sample_node Follower 1 1) (sample_snapshot 2 1)
    (put_entry 1 x02) sample_wf) as (rf' & reply & msg & Hrun & _ & _ & Hk & _);
    [by apply sample_snapshot_news|done|].
  exists rf', reply, msg. split; [done|]. rewrite Hk by (by vm_compute). reflexivity.
Defined.

