(* ===== verification/LogMatching.v ===== *)
(** * LogMatching: agreement of the logs of a cluster

    The cluster of Election.v with the AppendEntries and InstallSnapshot
    requests in flight: a leader puts into the network what
    [StartSendAppendEntries], [SingleHeartBeat] and
    [sendInstallSnapshotToServer] build from its state, and a request is
    delivered any number of times, in any order, to any node, or never.
    Replies carry arbitrary contents.  Commands enter through [Start], nodes
    crash and restart from a store that may lose its latest writes (Store.v).

    The services take no snapshot of their state ([Snapshot] is not called),
    so a log starts at index 1 and is never compacted.  The schedules are those of
    [step true] of Election.v: the two sections of [collectVote] run together,
    and [SendCommitIndex] handles its answer on a node that is not the leader.
    [net_step checked]: with [checked] a follower
    takes the shortcut of [AppendEntries] at [commitIndex] only where the term
    agrees; without it, the shortcut is taken as the code takes it. *)

From S2P Require Import Prelude Types Store RaftNode RaftVotes Election RaftLog.
Import Raft.

(** ** Handlers that leave the log alone *)

Section quiet.
Context {P : Type} `{!RaftStore P} `{!RaftStoreLaws P} `{!LogStore P}.
Implicit Types rf : Raftserver P.

(** The image [persist] writes. *)
Definition image_of rf (img : Image) : Prop :=
  exists logs, mapM persist_entry (drop 1 rf.(log)) = Ok logs
    /\ img = mkImage rf.(snapShot) logs rf.(lastIncludedIndex) rf.(lastIncludedTerm).

(** Log and snapshot are kept, in memory; on disk they may be written again. *)
Definition kept rf rf' : Prop :=
  rf'.(log) = rf.(log) /\ rf'.(snapShot) = rf.(snapShot)
  /\ rf'.(lastIncludedIndex) = rf.(lastIncludedIndex)
  /\ rf'.(lastIncludedTerm) = rf.(lastIncludedTerm)
  /\ forall img, saved rf'.(persister) img -> saved rf.(persister) img \/ image_of rf img.

Lemma persist_kept rf rf' :
  persist rf = Ok rf' ->
  exists p', rf' = set_persister p' rf
    /\ forall img, saved p' img -> saved rf.(persister) img \/ image_of rf img.
Proof.
  unfold persist. destruct (Z.ltb_spec 0 (zlen (log rf))) as [Hl|Hl]; intros Hp.
  - apply bind_Ok in Hp as (logs & Hm & Hp). apply bind_Ok in Hp as (p' & Hs & Hp).
    apply Ok_inj in Hp as <-. exists p'. split; [done|]. intros img Hi.
    destruct (Save_saved _ _ _ _ _ _ _ _ _ Hs Hi) as [?| ->]; [by left|right]. by exists logs.
  - apply Ok_inj in Hp as <-. exists (persister rf). split; [by destruct rf|]. by left.
Qed.

End quiet.

(** Decompose a handler that returned, keeping what [persist] wrote. *)
Ltac log_inv :=
  repeat first
    [ progress go_inv
    | match goal with
      | H : persist _ = Ok _ |- _ =>
          let p := fresh "p" in
          let E := fresh "Hp" in
          apply persist_kept in H as (p & -> & E)
      | H : (if ?b then _ else _) = Ok _ |- _ => destruct b eqn:?
      | H : (match ?x with _ => _ end) = Ok _ |- _ => destruct x eqn:?
      end ].

Ltac solve_kept :=
  unfold kept; split_ifs; simpl in *; split_and!; try done; simpl; try tauto;
  let img := fresh "img" in
  let H := fresh "H" in
  intros img H;
  repeat match goal with
  | Hp : forall img, saved ?p img -> _, H : saved ?p _ |- _ =>
      apply Hp in H; destruct H as [H|H]; [|by right]
  end; by left.

Section handlers.
Context {P : Type} `{!RaftStore P} `{!RaftStoreLaws P} `{!LogStore P}.
Implicit Types rf : Raftserver P.

Lemma RequestVote_kept rf args rf' reply :
  RequestVote rf args = Ok (rf', reply) -> kept rf rf'.
Proof. unfold RequestVote. intros. log_inv; solve_kept. Qed.

Lemma AppendReply_kept rf server args reply rf' b :
  sendAppendEntriesToServer rf server args reply = Ok (rf', b) -> kept rf rf'.
Proof. unfold sendAppendEntriesToServer. intros. log_inv; solve_kept. Qed.

Lemma InstallSnapshot_finish_kept rf rf' : InstallSnapshot_finish rf = Ok rf' -> kept rf rf'.
Proof. unfold InstallSnapshot_finish. intros. log_inv; solve_kept. Qed.

Lemma SnapshotReply_kept rf server reply rf' :
  sendInstallSnapshotToServer rf server reply = Ok rf' -> kept rf rf'.
Proof. unfold sendInstallSnapshotToServer. intros. log_inv; solve_kept. Qed.

Lemma CommitCheck_done_kept rf msg cur : kept rf (CommitCheck_done rf msg cur).
Proof. unfold CommitCheck_done. solve_kept. Qed.

Lemma SendCommitIndex_kept rf r rf' v e : SendCommitIndex rf r = (rf', v, e) -> kept rf rf'.
Proof.
  unfold SendCommitIndex. intros. destruct r; [|go_inv; solve_kept].
  repeat match goal with H : (if ?b then _ else _) = _ |- _ => destruct b eqn:? end;
    go_inv; solve_kept.
Qed.

Lemma background_kept rf p : background rf.(persister) p -> kept rf (set_persister p rf).
Proof. intros Hb. split_and!; [done..|]. intros img Hi. left. by eapply background_saved. Qed.

Lemma Kill_kept rf : kept rf (Kill rf).
Proof. solve_kept. Qed.

Lemma StartElection_kept rf rf' args : StartElection rf = Ok (rf', args) -> kept rf rf'.
Proof. unfold StartElection. intros. log_inv; solve_kept. Qed.

Lemma procVoteAnswer_kept rf args reply rf' b :
  procVoteAnswer rf args reply = Ok (rf', b) -> kept rf rf'.
Proof. unfold procVoteAnswer. intros. log_inv; solve_kept. Qed.

Lemma collectVote_kept rf outTime rf' b : collectVote rf outTime = Ok (rf', b) -> kept rf rf'.
Proof.
  unfold collectVote. intros. simpl in *.
  repeat match goal with H : (if ?b then _ else _) = Ok _ |- _ => destruct b end;
    try destruct (reset_both _ _ _ _ _ _); log_inv; solve_kept.
Qed.

End handlers.

(** ** The network *)

Section net.
Context {P : Type} `{!RaftStore P}.
Implicit Types rf : Raftserver P.
Variable ids : list Z.

(** The cluster and the requests ever sent; the receiver of a request is not
    recorded, any node may get it. *)
Record Net := mkNet {
  world : World P;
  appends : list AppendEntriesArgs.t;
  snapshots : list InstallSnapshotArgs.t
}.

Inductive quiet : Raftserver P -> Raftserver P -> Prop :=
  | q_RequestVote args rf rf' reply :
      RequestVote rf args = Ok (rf', reply) -> quiet rf rf'
  | q_AppendReply server args reply rf rf' snap :
      sendAppendEntriesToServer rf server args reply = Ok (rf', snap) -> quiet rf rf'
  | q_InstallSnapshot_finish rf rf' : InstallSnapshot_finish rf = Ok rf' -> quiet rf rf'
  | q_SnapshotReply server reply rf rf' :
      sendInstallSnapshotToServer rf server reply = Ok rf' -> quiet rf rf'
  | q_applied rf msg cur : quiet rf (CommitCheck_done rf msg cur)
  | q_SendCommitIndex r rf rf' v e :
      rf.(role) <> Leader -> SendCommitIndex rf r = (rf', v, e) -> quiet rf rf'
  | q_background rf p : background rf.(persister) p -> quiet rf (set_persister p rf)
  | q_Kill rf : quiet rf (Kill rf).

(** The entry at [PrevLogIndex] has the sender's term when the receiver does
    not look because the index is its [commitIndex]. *)
Definition shortcut_sound rf (args : AppendEntriesArgs.t) : Prop :=
  rf.(commitIndex) = AppendEntriesArgs.PrevLogIndex args ->
  forall e, log_at rf rf.(commitIndex) = Some e -> Term e = AppendEntriesArgs.PrevLogTerm args.

(** One critical section of a node, the requests coming from the network. *)
Inductive net_local (checked : bool) (as_ : list AppendEntriesArgs.t)
    (ss : list InstallSnapshotArgs.t) : Raftserver P -> Raftserver P -> Prop :=
  | nl_quiet rf rf' : quiet rf rf' -> net_local checked as_ ss rf rf'
  | nl_AppendEntries args rf rf' reply :
      args ∈ as_ -> (checked = true -> shortcut_sound rf args) ->
      AppendEntries rf args = Ok (rf', reply) -> net_local checked as_ ss rf rf'
  | nl_InstallSnapshot args rf rf' reply msg :
      args ∈ ss -> InstallSnapshot_recv rf args = Ok (rf', reply, msg) ->
      net_local checked as_ ss rf rf'
  | nl_Start op rf rf' r :
      Start rf (Some op) = Ok (rf', r) -> net_local checked as_ ss rf rf'.

Inductive net_step (checked : bool) : Net -> Net -> Prop :=
  | net_node w w' as_ ss :
      step_by ids (net_local checked as_ ss) true w w' ->
      net_step checked (mkNet w as_ ss) (mkNet w' as_ ss)
  | net_send w as_ ss n rf plans i args :
      w.(nodes) !! n = Some rf -> StartSendAppendEntries rf = Ok (Some plans) ->
      (i, PlanAppend args) ∈ plans ->
      net_step checked (mkNet w as_ ss) (mkNet w (args :: as_) ss)
  | net_heartbeat w as_ ss n rf cs i args :
      w.(nodes) !! n = Some rf -> SingleHeartBeat_args rf = Ok (Some cs) -> (i, args) ∈ cs ->
      net_step checked (mkNet w as_ ss) (mkNet w (args :: as_) ss)
  | net_send_snapshot w as_ ss n rf args :
      w.(nodes) !! n = Some rf -> sendInstallSnapshot_args rf = Ok (Some args) ->
      net_step checked (mkNet w as_ ss) (mkNet w as_ (args :: ss)).

(** The requests a node can receive are the ones of Election.v. *)
Lemma net_local_local checked as_ ss rf rf' :
  net_local checked as_ ss rf rf' -> local_step true rf rf'.
Proof. destruct 1 as [? ? []| | |]; eauto using local_step. Qed.

End net.

Arguments Net P : clear implicits.
Arguments mkNet {P} world appends snapshots.
Arguments world {P} n.
Arguments appends {P} n.
Arguments snapshots {P} n.

Section init.
Context {P : Type} `{!RaftStore P} `{!LogStore P}.
Variable ids : list Z.

Definition blank : Image := mkImage [] [] 0 0.

(** Every node freshly started from a disk with an empty log, nothing sent. *)
Definition net_init (s : Net P) : Prop :=
  s.(appends) = [] /\ s.(snapshots) = []
  /\ s.(world).(calls) = ∅ /\ s.(world).(votes) = ∅
  /\ forall n rf, s.(world).(nodes) !! n = Some rf ->
       n ∈ ids /\ exists p0 p msgs, (forall img, saved p0 img -> img = blank)
         /\ reboot p0 = Ok p /\ startWork (Make ids n p) = Ok (msgs, rf).

Definition net_reachable (checked : bool) (s : Net P) : Prop :=
  exists s0, net_init s0 /\ rtc (net_step ids checked) s0 s.

End init.

(** ** Logs and the entries leaders created *)

(** The entries of a log, its placeholder in front. *)
Definition log_is {P} (rf : Raftserver P) (es : list Entry) : Prop :=
  exists ph, rf.(log) = Some ph :: map Some es /\ Term ph = 0.

(** What the leader of each term had in its log, up to each entry it created:
    by the term and the index of that entry. *)
Notation History := (gmap (Z * nat) (list Entry)).

Definition log_ok (H : History) (es : list Entry) : Prop :=
  forall j e, es !! j = Some e -> Command e <> None /\ H !! (Term e, S j) = Some (take (S j) es).

(** The term of the entry at an index, 0 before the first. *)
Definition term_at (es : list Entry) (i : nat) : Z :=
  match i with O => 0 | S j => from_option Term 0 (es !! j) end.

Lemma log_ok_mono H H' es : H ⊆ H' -> log_ok H es -> log_ok H' es.
Proof. intros Hsub Hok j e He. destruct (Hok j e He). split; [done|]. by eapply lookup_weaken. Qed.

Lemma log_ok_take H es k : log_ok H es -> log_ok H (take k es).
Proof.
  intros Hok j e [He Hj]%lookup_take_Some. destruct (Hok j e He) as [Hc Hh].
  split; [done|]. by rewrite take_take, Nat.min_l by lia.
Qed.

Lemma log_ok_nil H : log_ok H [].
Proof. intros j e. by rewrite lookup_nil. Qed.

(** Two logs of the history with the same term at an index agree up to it. *)
Lemma log_ok_agree H es ls i :
  log_ok H es -> log_ok H ls -> (i <= length es)%nat -> (i <= length ls)%nat ->
  term_at es i = term_at ls i -> take i es = take i ls.
Proof.
  intros He Hl Hie Hil. destruct i as [|j]; [done|]. simpl.
  destruct (lookup_lt_is_Some_2 es j) as [a Ha]; [lia|].
  destruct (lookup_lt_is_Some_2 ls j) as [b Hb]; [lia|].
  rewrite Ha, Hb. simpl. intros E. destruct (He j a Ha) as [_ H1], (Hl j b Hb) as [_ H2].
  rewrite E, H2 in H1. by injection H1.
Qed.

(** A leader appends an entry of its term where the history has none. *)
Lemma log_ok_snoc H es t op :
  H !! (t, S (length es)) = None -> log_ok H es ->
  log_ok (<[(t, S (length es)) := es ++ [mkEntry t (Some op)]]> H) (es ++ [mkEntry t (Some op)]).
Proof.
  intros Hf Hok j e [He|[Hge He]]%lookup_app_Some.
  - destruct (Hok j e He) as [Hc Hh]. split; [done|]. pose proof (lookup_lt_Some _ _ _ He).
    rewrite lookup_insert_ne, take_app_le by (naive_solver lia). done.
  - apply list_lookup_singleton_Some in He as [Hj <-].
    assert (j = length es) as -> by lia. simpl. split; [done|].
    rewrite lookup_insert_eq. f_equal. by rewrite take_ge by (rewrite length_app; simpl; lia).
Qed.

(** The entries that agree with the log have its terms. *)
Lemma agree_term_at es ls prev :
  (prev <= length es)%nat -> (prev <= length ls)%nat -> term_at es prev = term_at ls prev ->
  let k := agree (map Some (drop prev es)) (map Some (drop prev ls)) in
  (prev + k <= length es)%nat /\ (prev + k <= length ls)%nat
  /\ term_at es (prev + k) = term_at ls (prev + k).
Proof.
  intros He Hl E k. pose proof (agree_le (map Some (drop prev es)) (map Some (drop prev ls))) as Hk.
  fold k in Hk. rewrite !length_map, !length_drop in Hk. split_and!; [lia..|].
  destruct k as [|i] eqn:Ek; [by rewrite Nat.add_0_r|].
  rewrite Nat.add_succ_r. simpl.
  destruct (lookup_lt_is_Some_2 ls (prev + i)) as [b Hb]; [lia|].
  destruct (agree_lookup (map Some (drop prev es)) (map Some (drop prev ls)) i b)
    as (a & Ha & Et); [fold k; lia|by rewrite list_lookup_fmap, lookup_drop, Hb|].
  rewrite list_lookup_fmap, lookup_drop in Ha.
  destruct (es !! (prev + i)%nat) as [a'|]; [|done]. injection Ha as ->. by rewrite Hb.
Qed.

(** What an accepted request leaves: the receiver's log if it has what was sent,
    else the sender's. *)
Definition merged (es ls es' : list Entry) : Prop :=
  (es' = es /\ ls `prefix_of` es) \/ (es' = ls /\ ~ ls `prefix_of` es).

Lemma prefix_take_of (es ls : list Entry) : ls `prefix_of` es <-> take (length ls) es = ls.
Proof.
  split.
  - intros [k ->]. by rewrite take_app_length.
  - intros <-. apply prefix_take.
Qed.

Lemma merge_ok H ph es ls prev :
  log_ok H es -> log_ok H ls -> (prev <= length es)%nat -> (prev <= length ls)%nat ->
  term_at es prev = term_at ls prev ->
  exists es', merge_log (Some ph :: map Some es) (S prev) (map Some (drop prev ls))
              = Some ph :: map Some es' /\ merged es ls es'.
Proof.
  intros Hes Hls He Hl E. unfold merge_log. simpl. rewrite <- fmap_drop.
  destruct (agree_term_at es ls prev He Hl E) as (Hke & Hkl & Et).
  set (k := agree _ _) in *. pose proof (log_ok_agree H es ls (prev + k) Hes Hls Hke Hkl Et) as Ep.
  case_bool_decide as Hk; rewrite length_map, length_drop in Hk.
  - exists es. split; [done|left; split; [done|]]. apply prefix_take_of.
    replace (length ls) with (prev + k)%nat by lia. rewrite Ep. by rewrite take_ge by lia.
  - exists ls. split.
    + f_equal. rewrite <- fmap_take, <- fmap_drop, drop_drop, <- fmap_app, Ep. by rewrite take_drop.
    + right. split; [done|]. intros Hpre%prefix_take_of. destruct Hk. unfold k.
      rewrite agree_all; [by rewrite length_map, length_drop|apply Forall_map, Forall_true; by eexists|].
      intros j e Hj. rewrite list_lookup_fmap, lookup_drop in Hj.
      destruct (ls !! (prev + j)%nat) as [x|] eqn:Hx; [|done]. injection Hj as ->. exists e.
      rewrite list_lookup_fmap, lookup_drop. pose proof (lookup_lt_Some _ _ _ Hx).
      rewrite <- Hpre, lookup_take_lt in Hx by lia. by rewrite Hx.
Qed.

Section node.
Context {P : Type} `{!RaftStore P} `{!RaftStoreLaws P} `{!LogStore P} `{!ReliableStore P}.
Implicit Types rf : Raftserver P.

Definition image_ok (H : History) (img : Image) : Prop :=
  exists es, img = mkImage [] es 0 0 /\ log_ok H es.

(** A node that never compacted its log, in memory and on disk. *)
Definition plain rf : Prop :=
  rf.(snapShot) = [] /\ rf.(lastIncludedIndex) = 0 /\ rf.(lastIncludedTerm) = 0.

Record node_ok (H : History) rf (es : list Entry) : Prop := {
  no_log : log_is rf es;
  no_ok : log_ok H es;
  no_plain : plain rf;
  no_disk img : saved rf.(persister) img -> image_ok H img
}.

Lemma node_ok_mono H H' rf es : H ⊆ H' -> node_ok H rf es -> node_ok H' rf es.
Proof.
  intros Hsub [Hl Ho Hp Hd]. split; [done|by eapply log_ok_mono|done|].
  intros img Hi. destruct (Hd img Hi) as (es' & -> & Hes'). exists es'. split; [done|].
  by eapply log_ok_mono.
Qed.

(** [persist] copies the entries as they are when none lacks a command. *)
Lemma persist_entries_same H es :
  log_ok H es -> mapM persist_entry (map Some es) = Ok es.
Proof.
  intros Hok. assert (Forall (fun e => Command e <> None) es) as Hc.
  { apply Forall_lookup. intros j e He. by destruct (Hok j e He). }
  clear Hok. induction Hc as [|[t [[]|]] es Hc _ IH]; simpl in *; [done| |done].
  by rewrite IH.
Qed.

Lemma image_of_ok H rf es img :
  log_is rf es -> log_ok H es -> plain rf -> image_of rf img -> image_ok H img.
Proof.
  intros (ph & El & _) Hok (Es & Ei & Et) (logs & Hm & ->). rewrite El in Hm.
  cbn [drop] in Hm. rewrite drop_0, (persist_entries_same H) in Hm by done. injection Hm as <-.
  rewrite Es, Ei, Et. by exists es.
Qed.

Lemma kept_ok H rf rf' es : kept rf rf' -> node_ok H rf es -> node_ok H rf' es.
Proof.
  intros (El & Es & Ei & Et & Hd) [Hl Ho Hp Hs].
  split; [unfold log_is; by rewrite El|done|unfold plain; by rewrite Es, Ei, Et|]. intros img Hi.
  destruct (Hd img Hi) as [|Him]; [auto|]. by eapply (image_of_ok H rf es).
Qed.

(** The same with a new log: what is in memory and what [persist] may have
    written in the meantime. *)
Lemma node_ok_set H rf rf' es es' :
  node_ok H rf es -> log_ok H es' -> log_is rf' es' -> plain rf' ->
  (forall img, saved rf'.(persister) img ->
     saved rf.(persister) img \/ image_of rf img \/ image_of rf' img) ->
  node_ok H rf' es'.
Proof.
  intros [Hl Ho Hp Hs] Ho' Hl' Hp' Hd. split; [done..|]. intros img Hi.
  destruct (Hd img Hi) as [|[|]]; [by auto|by eapply (image_of_ok H rf es)|].
  by eapply (image_of_ok H rf' es').
Qed.

Lemma log_is_length rf es : log_is rf es -> zlen rf.(log) = Z.of_nat (length es) + 1.
Proof. intros (ph & -> & _). unfold zlen. simpl. rewrite length_map. lia. Qed.

Lemma log_is_wf rf es : log_is rf es -> wf_log rf.(log).
Proof.
  intros (ph & -> & _). split; [done|]. constructor; [by eexists|].
  apply Forall_map, Forall_true. by eexists.
Qed.

Lemma log_is_at rf es i :
  log_is rf es -> rf.(lastIncludedIndex) = 0 -> 0 < i -> log_at rf i = es !! Z.to_nat (i - 1).
Proof.
  intros (ph & El & _) Ei Hi. unfold log_at, GlobalToLocal. rewrite Ei, El.
  destruct (Z.ltb_spec i 0); [lia|]. replace (Z.to_nat (i - 0)) with (S (Z.to_nat (i - 1))) by lia.
  simpl. rewrite list_lookup_fmap. by destruct (es !! _).
Qed.

(** The term the node compares with [PrevLogTerm]. *)
Lemma log_is_term rf es i :
  log_is rf es -> rf.(lastIncludedIndex) = 0 -> 0 <= i <= Z.of_nat (length es) ->
  exists e, log_at rf i = Some e /\ Term e = term_at es (Z.to_nat i)
    /\ log_term rf.(log) (GlobalToLocal rf i) = Ok (Term e).
Proof.
  intros Hl Ei Hi. pose proof (log_is_length rf es Hl) as Hlen.
  destruct (log_at_in_range rf i (log_is_wf rf es Hl)) as (e & He & Ht).
  { unfold last_index, LocalToGlobal. lia. }
  exists e. split_and!; [done| |done]. destruct Hl as (ph & El & Eph).
  unfold log_at, GlobalToLocal in He. rewrite Ei, El in He.
  destruct (Z.ltb_spec i 0); [lia|]. rewrite Z.sub_0_r in He.
  destruct (Z.to_nat i) as [|j]; simpl in *; [by injection He as <-|].
  rewrite list_lookup_fmap in He. destruct (es !! j); simpl in He; [|done]. by injection He as ->.
Qed.

(** ** Requests *)

(** The request was built from [ls], for the entries after index [prev]. *)
Definition request_of (args : AppendEntriesArgs.t) (ls : list Entry) (prev : nat) : Prop :=
  (prev <= length ls)%nat /\ AppendEntriesArgs.PrevLogIndex args = Z.of_nat prev
  /\ AppendEntriesArgs.PrevLogTerm args = term_at ls prev
  /\ AppendEntriesArgs.Entries args = map Some (drop prev ls).

(** A request carries a piece of a log of the history: everything from an index
    on, with the index and term of the entry before it. *)
Definition append_ok (H : History) (args : AppendEntriesArgs.t) : Prop :=
  exists ls prev, log_ok H ls /\ request_of args ls prev.

(** The snapshot of a node that never took one. *)
Definition snapshot_ok (args : InstallSnapshotArgs.t) : Prop :=
  InstallSnapshotArgs.LastIncludedIndex args = 0 /\ InstallSnapshotArgs.LastIncludedTerm args = 0
  /\ InstallSnapshotArgs.Data args = [].

Lemma append_ok_mono H H' args : H ⊆ H' -> append_ok H args -> append_ok H' args.
Proof.
  intros Hsub (ls & prev & Hok & Hr). exists ls, prev. split; [by eapply log_ok_mono|done].
Qed.

Lemma AppendEntries_disk rf args rf' reply :
  AppendEntries rf args = Ok (rf', reply) -> plain rf ->
  plain rf' /\ forall img, saved rf'.(persister) img ->
    saved rf.(persister) img \/ image_of rf img \/ image_of rf' img.
Proof.
  unfold AppendEntries, plain. intros H Hp. log_inv; split_ifs; simpl in *; (split; [done|]);
    intros img Hi;
    repeat match goal with
    | Hp : forall img, saved ?p img -> _, H : saved ?p _ |- _ =>
        apply Hp in H; destruct H as [H|H]; [|by eauto]
    end; eauto.
Qed.

Lemma AppendEntries_leader_log rf args rf' reply :
  AppendEntries rf args = Ok (rf', reply) -> rf'.(role) = Leader -> rf'.(log) = rf.(log).
Proof.
  unfold AppendEntries. intros H Hr. log_inv; simpl in *; try done; revert Hr; split_ifs; simpl;
    intros Hr; try done;
    match goal with Hb : bool_decide (_ <> _) = true |- _ => by apply bool_decide_eq_true in Hb end.
Qed.

(** A leader that does not take the entries stays the leader. *)
Lemma AppendEntries_same_role rf args rf' reply :
  AppendEntries rf args = Ok (rf', reply) -> takes_entries rf args = false -> rf'.(role) = Leader.
Proof.
  unfold takes_entries, AppendEntries. intros H Htk.
  apply negb_false_iff, andb_true_iff in Htk as [Hr%bool_decide_eq_true Ht%Z.eqb_eq].
  rewrite <- Ht, Z.ltb_irrefl in H. log_inv; split_ifs; simpl in *; done.
Qed.

(** The check at [PrevLogIndex] compares terms. *)
Lemma prev_matches_term rf es args ls prev :
  log_is rf es -> plain rf -> shortcut_sound rf args -> prev_matches rf args ->
  AppendEntriesArgs.PrevLogIndex args = Z.of_nat prev ->
  AppendEntriesArgs.PrevLogTerm args = term_at ls prev ->
  (prev <= length es)%nat /\ term_at es prev = term_at ls prev.
Proof.
  intros Hl (_ & Ei & _) Hs [Hr Hm] Ep Et. unfold shortcut_sound in Hs.
  rewrite Ep, Ei in *. unfold last_index, LocalToGlobal in Hr.
  rewrite (log_is_length rf es Hl), Ei in Hr. split; [lia|].
  destruct (log_is_term rf es (Z.of_nat prev) Hl Ei) as (e & He & Ee & _); [lia|].
  rewrite Nat2Z.id in Ee. destruct Hm as [Ec|(e' & He' & Et')].
  - rewrite <- Ec in *. rewrite <- Ee, <- Et. by apply Hs.
  - rewrite He in He'. injection He' as <-. congruence.
Qed.

Lemma AppendEntries_result H rf es args ls prev rf' reply :
  node_ok H rf es -> log_ok H ls -> request_of args ls prev -> shortcut_sound rf args ->
  AppendEntries rf args = Ok (rf', reply) ->
  exists es', node_ok H rf' es' /\ (rf'.(role) = Leader -> es' = es)
    /\ if AppendEntriesReply.Success reply
       then rf.(currentTerm) <= AppendEntriesArgs.Term args /\ take prev ls `prefix_of` es
         /\ (rf'.(role) <> Leader -> merged es ls es')
       else es' = es.
Proof.
  intros Hn Hls (Hpl & Ep & Et & Ees) Hs Ha.
  pose proof Hn as [Hl Ho Hp _]. pose proof Hl as (ph & El & Eph).
  destruct (AppendEntries_disk _ _ _ _ Ha Hp) as [Hp' Hd].
  assert (wf_entries (AppendEntriesArgs.Entries args)) as Hwe.
  { rewrite Ees. apply Forall_map, Forall_true. by eexists. }
  destruct (AppendEntries_accepts rf args (log_is_wf rf es Hl) Hwe)
    as (rf1 & reply1 & Ha1 & Hacc & _ & _ & Hlog).
  rewrite Ha in Ha1. injection Ha1 as <- <-.
  destruct (AppendEntriesReply.Success reply).
  - destruct Hacc as [[Hterm Hm] _]; [done|].
    destruct (prev_matches_term rf es args ls prev) as [Hpe Etm]; [done..|].
    assert (take prev ls `prefix_of` es) as Hpre.
    { rewrite <- (log_ok_agree H es ls prev) by done. apply prefix_take. }
    destruct (takes_entries rf args) eqn:Htk; unfold log_after in Hlog; rewrite Htk in Hlog.
    + destruct (merge_ok H ph es ls prev) as (es' & Em & Hes'); [done..|].
      unfold entries_from, GlobalToLocal in Hlog. destruct Hp as (_ & Ei & _).
      rewrite Ep, Ei, El, Ees in Hlog.
      replace (Z.to_nat (Z.of_nat prev - 0 + 1)) with (S prev) in Hlog by lia.
      rewrite Em in Hlog. exists es'. split_and!; [| |done|done|done].
      * eapply (node_ok_set H rf rf' es es'); [done| |by exists ph|done|done].
        by destruct Hes' as [[-> _]|[-> _]].
      * intros Hr. pose proof (AppendEntries_leader_log _ _ _ _ Ha Hr) as Elog.
        rewrite Hlog, El in Elog. injection Elog as Elog. by apply (inj (fmap Some)) in Elog.
    + exists es. split_and!; [|done|done|done|].
      * eapply (node_ok_set H rf rf' es es); try done. unfold log_is. by rewrite Hlog.
      * intros Hr. by destruct (AppendEntries_same_role rf args rf' reply).
  - destruct Hlog as [Hlog _]. exists es. split; [|done].
    eapply (node_ok_set H rf rf' es es); try done. unfold log_is. by rewrite Hlog.
Qed.

Lemma AppendEntries_ok H rf es args rf' reply :
  node_ok H rf es -> append_ok H args -> shortcut_sound rf args ->
  AppendEntries rf args = Ok (rf', reply) ->
  exists es', node_ok H rf' es' /\ (rf'.(role) = Leader -> es' = es).
Proof.
  intros Hn (ls & prev & Hls & Hr) Hs Ha.
  destruct (AppendEntries_result H rf es args ls prev rf' reply) as (es' & ? & ? & _); eauto.
Qed.

(** A snapshot that covers nothing leaves the log as it is. *)
Lemma InstallSnapshot_kept H rf es args rf' reply msg :
  node_ok H rf es -> snapshot_ok args -> InstallSnapshot_recv rf args = Ok (rf', reply, msg) ->
  kept rf rf'.
Proof.
  intros [(ph & El & Eph) _ (Es & Ei & Et) _] (Ai & At & Ad) Hi. unfold InstallSnapshot_recv in Hi.
  rewrite Ai, At, Ad in Hi.
  destruct (InstallSnapshotArgs.Term args <? currentTerm rf); [by go_inv; solve_kept|].
  set (rf1 := set_role Follower _) in Hi.
  assert (kept rf rf1 /\ rf1.(lastIncludedIndex) = 0 /\ rf1.(log) = rf.(log)) as (Hk & Ei1 & El1).
  { subst rf1. clear Hi. destruct (_ <? _); (split_and!; [solve_kept|exact Ei|done]). }
  destruct (_ || _); [by go_inv|].
  assert (find_in_log rf1 (log rf1) 0 0 0 = Ok (Some 0)) as Hf.
  { rewrite El1, El. cbn [find_in_log]. unfold LocalToGlobal. rewrite Ei1. cbn. by rewrite Eph. }
  rewrite Hf in Hi. cbn [mbind go_bind] in Hi.
  assert (slice_from (log rf1) 0 = Ok (log rf1)) as Hsl.
  { apply slice_from_Ok. split; [|done]. pose proof (zlen_nonneg (log rf1)). lia. }
  rewrite Hsl in Hi. cbn [mbind go_bind] in Hi. go_inv.
  destruct Hk as (Hk1 & Hk2 & Hk3 & Hk4 & Hk5). unfold kept. split_ifs; simpl;
    rewrite ?Es, ?Ei, ?Et; by split_and!.
Qed.

Lemma Start_ok H rf es op rf' r :
  node_ok H rf es -> Start rf (Some op) = Ok (rf', r) ->
  (forall i p, rf.(role) = Leader -> H !! (rf.(currentTerm), i) = Some p -> (i <= length es)%nat) ->
  rf' = rf \/ rf.(role) = Leader /\ rf'.(role) = Leader /\ rf'.(currentTerm) = rf.(currentTerm)
    /\ H !! (rf.(currentTerm), S (length es)) = None
    /\ let es' := es ++ [mkEntry rf.(currentTerm) (Some op)] in
       node_ok (<[(rf.(currentTerm), S (length es)) := es']> H) rf' es'.
Proof.
  intros Hn Hst Hmax. unfold Start in Hst.
  destruct (bool_decide_reflect (role rf <> Leader)) as [Hr|Hr]; [left; by go_inv|right].
  assert (role rf = Leader) as Hrl by (destruct (role rf); (done || by destruct Hr)).
  assert (H !! (rf.(currentTerm), S (length es)) = None) as Hf.
  { destruct (H !! _) as [p|] eqn:E; [|done]. specialize (Hmax _ _ Hrl E). lia. }
  log_inv. split_and!; [done..|]. set (es' := es ++ [mkEntry (currentTerm rf) (Some op)]).
  pose proof (insert_subseteq H _ es' Hf) as Hsub. pose proof (no_ok _ _ _ Hn) as Ho. apply (node_ok_mono _ _ _ _ Hsub) in Hn.
  pose proof Hn as [(ph & El & Eph) _ Hpl _].
  eapply (node_ok_set _ rf _ es es'); [done|by apply log_ok_snoc| |done|].
  - exists ph. split; [|done]. simpl. rewrite El. unfold es'. by rewrite fmap_app.
  - simpl. intros img Hi. destruct (Hp img Hi) as [?|Him]; [by left|right; right]. done.
Qed.

(** A restarted node has a log it once saved. *)
Lemma restart_ok H ids n p0 p msgs rf :
  (forall img, saved p0 img -> image_ok H img) -> reboot p0 = Ok p ->
  startWork (Make ids n p) = Ok (msgs, rf) ->
  exists es, node_ok H rf es /\ rf.(nextIndex) = ∅ /\ rf.(matchIndex) = ∅
    /\ (forall img, saved rf.(persister) img -> saved p0 img)
    /\ exists img, saved p0 img /\ img_entries img = es.
Proof.
  intros Hs Hb Hst. unfold startWork in Hst.
  apply bind_Ok in Hst as ([p' [[[logs v] t] c]] & Hr & Hst). simpl in Hr.
  destruct (reboot_saved _ _ _ _ _ _ _ Hb Hr) as [Hsub (img & Hi & -> & Hsn)].
  destruct (Hs img Hi) as (es & -> & Hok). simpl in *.
  assert (zlen (Some (mkEntry 0 None) :: map Some es) <? 1 = false) as Hz
    by (rewrite zlen_cons; pose proof (zlen_nonneg (map Some es)); lia).
  unfold readPersist in Hst. rewrite Hz in Hst. simpl in Hst. rewrite Hsn in Hst.
  unfold readSnapshot in Hst. simpl in Hst. unfold QuickApply in Hst.
  apply quick_apply_only_applied in Hst as [k ->]. exists es. simpl.
  split_and!; [|by vm_compute|done|done|eauto].
  split; simpl; [by exists (mkEntry 0 None)|done|done|]. intros img Hi'. auto.
Qed.

(** ** Handlers that return *)

(** The call does not panic. *)
Definition returns {A} (r : go A) : Prop := exists a, r = Ok a.

Lemma InstallSnapshot_returns rf args : wf_log rf.(log) -> returns (InstallSnapshot_recv rf args).
Proof.
  intros [_ Hw]. unfold returns, InstallSnapshot_recv. destruct (_ <? _); [by eexists|].
  set (rf1 := set_role Follower _). assert (rf1.(log) = rf.(log)) as El by (subst rf1; by destruct (_ <? _)).
  destruct (_ || _); [by eexists|]. rewrite find_in_log_from by (by rewrite El). go_step.
  destruct (Z.ltb_spec (InstallSnapshotArgs.LastIncludedIndex args - lastIncludedIndex rf1 - 0) 0); [by eexists|].
  destruct (mjoin _) as [e|] eqn:He; [|by eexists]. destruct (_ =? _); [|by eexists].
  assert (slice_from (log rf1) (InstallSnapshotArgs.LastIncludedIndex args - lastIncludedIndex rf1)
          = Ok (drop (Z.to_nat (InstallSnapshotArgs.LastIncludedIndex args - lastIncludedIndex rf1)) (log rf1))) as ->;
    [|by eexists]. apply slice_from_Ok. split; [|done].
  destruct (log rf1 !! _) as [x|] eqn:Hx in He; [|done]. apply lookup_lt_Some in Hx. unfold zlen. lia.
Qed.

(** Run a handler on a node whose log is well-formed: [persist] and [last_term]
    return. *)
Ltac run_handler :=
  repeat match goal with
  | |- returns (Ok _) => by eexists
  | |- returns (mret _) => by eexists
  | |- context [persist ?r] =>
      let H := fresh in destruct (persist_total r) as [? H]; [simpl; done|rewrite H; clear H; go_step; simpl]
  | |- context [last_term ?r] =>
      let H := fresh in destruct (last_term_wf r) as (? & _ & H); [simpl; done|rewrite H; clear H; go_step; simpl]
  | |- context [if ?b then _ else _] => destruct b; go_step; simpl
  | |- context [reset_both ?a ?b ?c ?d ?e ?f] => destruct (reset_both a b c d e f); simpl
  end.

(** The handlers of an election, of commands and of snapshots. *)
Lemma wf_handlers rf :
  wf_log rf.(log) ->
  returns (StartElection rf) /\ (forall args, returns (RequestVote rf args))
  /\ (forall args reply, returns (procVoteAnswer rf args reply))
  /\ (forall outTime, returns (collectVote rf outTime)) /\ (forall cmd, returns (Start rf cmd))
  /\ (forall args, returns (InstallSnapshot_recv rf args)) /\ returns (InstallSnapshot_finish rf)
  /\ returns (sendInstallSnapshot_args rf)
  /\ (forall server reply, returns (sendInstallSnapshotToServer rf server reply))
  /\ (forall i, mget rf.(nextIndex) i - 1 <= last_index rf -> returns (StartSendAppendEntries_peer rf i))
  /\ (rf.(lastIncludedIndex) <= rf.(lastApplied) -> rf.(commitIndex) <= last_index rf -> returns (CommitCheck_buffer rf)).
Proof.
  intros Hw. split_and!.
  - unfold StartElection. simpl. run_handler.
  - intros args. unfold RequestVote. simpl. run_handler.
  - intros args reply. unfold procVoteAnswer. simpl. run_handler.
  - intros outTime. unfold collectVote. simpl. run_handler.
  - intros cmd. unfold Start. destruct (bool_decide _); [by eexists|].
    destruct (persist_total (set_log (log rf ++ [Some (mkEntry (currentTerm rf) cmd)]) rf)) as [p Hp].
    { destruct Hw as [Hne Hw]. split; [simpl; by destruct (log rf)|]. simpl. apply Forall_app. split; [done|].
      constructor; [by eexists|done]. }
    rewrite Hp. by eexists.
  - intros args. by apply InstallSnapshot_returns.
  - unfold InstallSnapshot_finish. run_handler.
  - unfold sendInstallSnapshot_args. destruct (bool_decide _); [by eexists|].
    destruct Hw as [Hne Hw]. destruct (log rf) as [|x l]; [done|].
    apply Forall_cons in Hw as [[e ->] _]. by eexists.
  - intros server reply. unfold sendInstallSnapshotToServer. simpl. run_handler.
  - intros i Hi. destruct (decide (lastIncludedIndex rf <= mget (nextIndex rf) i - 1)) as [Hlo|Hlo].
    + destruct (plan_spec rf i Hw) as (e & _ & ->); [lia|]. by eexists.
    + unfold StartSendAppendEntries_peer. destruct (Z.ltb_spec (mget (nextIndex rf) i - 1) (lastIncludedIndex rf)); [by eexists|lia].
  - intros Hlo Hhi. destruct (buffer_loop_spec (Z.to_nat (commitIndex rf - lastApplied rf)) rf (lastApplied rf) Hw)
      as (ms & Hms & _); [done|done|done|]. by exists ms.
Qed.

(** ** What a leader sends *)

Lemma mapM_elem {A B} (f : A -> go B) l ys y :
  mapM f l = Ok ys -> y ∈ ys -> exists x, x ∈ l /\ f x = Ok y.
Proof.
  revert ys. induction l as [|x l IH]; intros ys Hm Hy; simpl in Hm.
  - injection Hm as <-. by apply elem_of_nil in Hy.
  - apply bind_Ok in Hm as (z & Hz & Hm). apply bind_Ok in Hm as (zs & Hzs & [= <-]).
    apply elem_of_cons in Hy as [-> |Hy]; [exists x; split; [by left|done]|].
    destruct (IH zs Hzs Hy) as (x' & ? & ?). exists x'. split; [by right|done].
Qed.

(** A request of [rf], the leader, made from the first [k] entries of its log. *)
Definition sent_by rf (es : list Entry) (args : AppendEntriesArgs.t) (k prev : nat) : Prop :=
  rf.(role) = Leader /\ AppendEntriesArgs.Term args = rf.(currentTerm)
  /\ AppendEntriesArgs.LeaderId args = rf.(me) /\ request_of args (take k es) prev.

Lemma next_in_log rf es i t :
  log_is rf es -> rf.(lastIncludedIndex) = 0 ->
  log_term rf.(log) (GlobalToLocal rf (mget rf.(nextIndex) i - 1)) = Ok t ->
  0 <= mget (nextIndex rf) i - 1 <= Z.of_nat (length es).
Proof.
  intros Hl Ei Ht. pose proof (log_is_length rf es Hl). unfold log_term in Ht.
  apply bind_Ok in Ht as (x & Hx & _). apply idx_bound in Hx. unfold GlobalToLocal in Hx. lia.
Qed.

Lemma send_request H rf es plans i args :
  node_ok H rf es -> StartSendAppendEntries rf = Ok (Some plans) -> (i, PlanAppend args) ∈ plans ->
  exists prev, sent_by rf es args (length es) prev.
Proof.
  intros [Hl Ho (_ & Ei & _) _] Hs Hi. unfold StartSendAppendEntries in Hs.
  destruct (bool_decide_reflect (role rf <> Leader)) as [|Hr]; [done|].
  assert (role rf = Leader) as Hrl by (destruct (role rf); (done || by destruct Hr)).
  apply bind_Ok in Hs as (ps & Hm & [= ->]).
  destruct (mapM_elem _ _ _ _ Hm Hi) as (x & _ & Hx).
  apply bind_Ok in Hx as (pl & Hpl & [= -> ->]). pose proof (log_is_length rf es Hl) as Hlen.
  assert (0 <= mget (nextIndex rf) i - 1 <= Z.of_nat (length es)) as Hrange.
  { pose proof Hpl as Hx. unfold StartSendAppendEntries_peer in Hx.
    destruct (_ <? _) in Hx; [done|]. apply bind_Ok in Hx as (l & _ & Hx).
    apply bind_Ok in Hx as (t & Ht & _). by eapply next_in_log. }
  destruct (plan_spec rf i (log_is_wf rf es Hl)) as (e & He & Hpl').
  { unfold last_index, LocalToGlobal. lia. }
  rewrite Hpl in Hpl'. injection Hpl' as ->.
  destruct (log_is_term rf es _ Hl Ei Hrange) as (e' & He' & Et & _).
  rewrite He in He'. injection He' as <-.
  exists (Z.to_nat (mget (nextIndex rf) i - 1)). unfold sent_by, request_of.
  rewrite take_ge by lia. simpl. split_and!; [done..|lia|lia|done|].
  destruct Hl as (ph & El & _). unfold GlobalToLocal. rewrite El, Ei.
  replace (Z.to_nat (mget (nextIndex rf) i - 0))
    with (S (Z.to_nat (mget (nextIndex rf) i - 1))) by lia.
  simpl. by rewrite <- fmap_drop.
Qed.

Lemma heartbeat_request H rf es cs i args :
  node_ok H rf es -> SingleHeartBeat_args rf = Ok (Some cs) -> (i, args) ∈ cs ->
  exists k, sent_by rf es args k k.
Proof.
  intros [Hl Ho (_ & Ei & _) _] Hs Hi. unfold SingleHeartBeat_args in Hs.
  destruct (bool_decide_reflect (role rf <> Leader)) as [|Hr]; [done|].
  assert (role rf = Leader) as Hrl by (destruct (role rf); (done || by destruct Hr)).
  apply bind_Ok in Hs as (ps & Hm & [= ->]).
  destruct (mapM_elem _ _ _ _ Hm Hi) as (x & _ & Hx).
  apply bind_Ok in Hx as (t & Ht & [= -> <-]).
  pose proof (next_in_log rf es i t Hl Ei Ht) as Hrange.
  destruct (log_is_term rf es _ Hl Ei Hrange) as (e' & _ & Et & Ht').
  rewrite Ht in Ht'. injection Ht' as ->. set (k := Z.to_nat (mget (nextIndex rf) i - 1)) in *.
  exists k. unfold sent_by, request_of. rewrite length_take. simpl.
  split_and!; [done..|lia|lia| |by rewrite drop_ge by (rewrite length_take; lia)].
  rewrite Et. unfold term_at. destruct k as [|j]; [done|]. by rewrite lookup_take_lt by lia.
Qed.

Lemma sent_by_ok H rf es args k prev : log_ok H es -> sent_by rf es args k prev -> append_ok H args.
Proof.
  intros Ho (_ & _ & _ & Hr). exists (take k es), prev. split; [by apply log_ok_take|done].
Qed.

Lemma send_snapshot_ok H rf es args :
  node_ok H rf es -> sendInstallSnapshot_args rf = Ok (Some args) -> snapshot_ok args.
Proof.
  intros [_ _ (Es & Ei & Et) _] Hs. unfold sendInstallSnapshot_args in Hs.
  destruct (bool_decide _); [done|]. go_inv. by simplify_eq.
Qed.

End node.

(** ** The invariant of a cluster *)

Section matching.
Context {P : Type} `{!RaftStore P} `{!RaftStoreLaws P} `{!LogStore P} `{!ReliableStore P}.
Variable ids : list Z.
Hypothesis ids_nodup : NoDup ids.
Hypothesis ids_nonneg : forall n, n ∈ ids -> 0 <= n.
Hypothesis ids_odd : Nat.Odd (length ids).
Implicit Types w : World P.
Implicit Types rf : Raftserver P.
Implicit Types s : Net P.

(** The leader of a term has every entry of that term. *)
Definition leads (H : History) w n rf (es : list Entry) : Prop :=
  rf.(role) = Leader ->
  (n, rf.(currentTerm), n) ∈ w.(votes)
  /\ forall i p, H !! (rf.(currentTerm), i) = Some p -> (i <= length es)%nat.

Record world_inv (H : History) w : Prop := {
  wi_election : inv ids w;
  wi_node n rf : w.(nodes) !! n = Some rf -> exists es, node_ok H rf es /\ leads H w n rf es;
  wi_call c i t r : w.(calls) !! (c, i, t) = Some r -> (c, t, c) ∈ w.(votes);
  wi_history t i p : H !! (t, i) = Some p ->
    exists c rf, won ids w t c /\ (c, t, c) ∈ w.(votes) /\ w.(nodes) !! c = Some rf
      /\ (rf.(currentTerm) = t -> rf.(role) <> Candidate)
}.

Record net_inv (H : History) s : Prop := {
  ni_world : world_inv H s.(world);
  ni_append args : args ∈ s.(appends) -> append_ok H args;
  ni_snapshot args : args ∈ s.(snapshots) -> snapshot_ok args
}.

Lemma won_mono w w' t c : w.(votes) ⊆ w'.(votes) -> won ids w t c -> won ids w' t c.
Proof. intros Hsub (q & ? & ? & Hv). exists q. split_and!; [done..|]. set_solver. Qed.

(** The winner of a term the history knows has moved on. *)
Lemma history_term H w t i p c rf :
  world_inv H w -> H !! (t, i) = Some p -> won ids w t c -> w.(nodes) !! c = Some rf ->
  t <= rf.(currentTerm) /\ (rf.(currentTerm) = t -> rf.(role) <> Candidate).
Proof.
  intros Hinv Hh Hw Hn. destruct (wi_history H w Hinv t i p Hh) as (c' & rf' & Hw' & Hv & Hn' & Hr).
  pose proof (wi_election H w Hinv) as Hel.
  assert (c' = c) as -> by (by eapply (won_once ids)). rewrite Hn in Hn'. injection Hn' as <-.
  split; [|done]. destruct (inv_vote ids w Hel c t c Hv) as (_ & _ & rf0 & Hn0 & Hrec & _).
  rewrite Hn in Hn0. injection Hn0 as <-. unfold vote_recorded in Hrec. lia.
Qed.

(** One node changes; it may create entries in a term it has won. *)
Lemma change_inv H H' w w' n rf rf' es' :
  world_inv H w -> inv ids w' -> w.(nodes) !! n = Some rf ->
  w'.(nodes) = <[n := rf']> w.(nodes) -> w.(votes) ⊆ w'.(votes) -> H ⊆ H' ->
  (forall c i t r, w'.(calls) !! (c, i, t) = Some r -> (c, t, c) ∈ w'.(votes)) ->
  node_ok H' rf' es' -> leads H' w' n rf' es' ->
  (rf'.(role) = Candidate ->
     rf.(currentTerm) < rf'.(currentTerm)
     \/ rf.(role) = Candidate /\ rf'.(currentTerm) = rf.(currentTerm)) ->
  (forall t i p, H' !! (t, i) = Some p ->
     H !! (t, i) = Some p
     \/ won ids w' t n /\ (n, t, n) ∈ w'.(votes) /\ rf'.(role) <> Candidate) ->
  world_inv H' w'.
Proof.
  intros Hinv Hel Hn En Hv Hsub Hcalls Hok Hlead Hcand Hnew. split; [done| |done|].
  - intros m rm. rewrite En. intros [[<- <-]|[Hne Hm]]%lookup_insert_Some; [eauto|].
    destruct (wi_node H w Hinv m rm Hm) as (es & Hes & Hl). exists es.
    split; [by eapply node_ok_mono|]. intros Hr. destruct (Hl Hr) as [Hvm Hmax].
    split; [set_solver|]. intros i p Hp. destruct (Hnew _ _ _ Hp) as [|(Hwon & _)]; [eauto|].
    exfalso. apply Hne. eapply (won_once ids w' (currentTerm rm)); [done|done|].
    eapply (inv_leader ids w' Hel m rm); [|done]. by rewrite En, lookup_insert_ne by congruence.
  - intros t i p Hp. destruct (Hnew _ _ _ Hp) as [Hh|(? & ? & ?)].
    + destruct (wi_history H w Hinv t i p Hh) as (c & rc & Hw & Hvc & Hc & Hr).
      destruct (decide (c = n)) as [->|Hne].
      * rewrite Hn in Hc. injection Hc as <-.
        destruct (history_term H w t i p n rf Hinv Hh Hw Hn) as [Hle _].
        exists n, rf'. rewrite En, lookup_insert_eq.
        split_and!; [by eapply won_mono|set_solver|done|].
        intros <- Hcd. destruct (Hcand Hcd) as [|[]]; [lia|]. by apply Hr.
      * exists c, rc. rewrite En, lookup_insert_ne by done.
        split_and!; [by eapply won_mono|set_solver|done|done].
    + exists n, rf'. by rewrite En, lookup_insert_eq.
Qed.

(** A handler that creates no entry and starts no election. *)
Lemma frame_change H w w' n rf rf' :
  world_inv H w -> inv ids w' -> w.(nodes) !! n = Some rf ->
  w'.(nodes) = <[n := rf']> w.(nodes) -> w.(votes) ⊆ w'.(votes) ->
  (forall c i t r, w'.(calls) !! (c, i, t) = Some r -> (c, t, c) ∈ w'.(votes)) ->
  frame rf rf' ->
  (forall es, node_ok H rf es ->
     exists es', node_ok H rf' es' /\ (rf'.(role) = Leader -> es' = es)) ->
  world_inv H w'.
Proof.
  intros Hinv Hel Hn En Hv Hcalls (_ & _ & Hvk & _ & Hrl & Hrc) Hes.
  destruct (wi_node H w Hinv n rf Hn) as (es & Hok & Hl).
  destruct (Hes es Hok) as (es' & Hok' & Hsame).
  eapply (change_inv H H w w' n rf rf' es'); try done.
  - intros Hr. destruct (Hrl Hr) as [Hr0 ->]. rewrite (Hsame Hr). destruct (Hl Hr0) as [? ?].
    split; [set_solver|done].
  - intros Hr. destruct (Hrc Hr) as [Hr0 _]. unfold vote_kept in Hvk. destruct Hvk as [|[]]; auto.
  - by left.
Qed.

Lemma kept_same H rf rf' :
  kept rf rf' -> forall es, node_ok H rf es ->
  exists es', node_ok H rf' es' /\ (rf'.(role) = Leader -> es' = es).
Proof. intros Hk es Hok. exists es. split; [by eapply kept_ok|done]. Qed.

Lemma quiet_kept rf rf' : quiet rf rf' -> kept rf rf'.
Proof.
  destruct 1; eauto using RequestVote_kept, AppendReply_kept, InstallSnapshot_finish_kept,
    SnapshotReply_kept, CommitCheck_done_kept, SendCommitIndex_kept, background_kept, Kill_kept.
Qed.

Lemma net_local_frame checked as_ ss rf rf' : net_local checked as_ ss rf rf' -> frame rf rf'.
Proof. eauto using local_step_frame, net_local_local. Qed.

(** [Start] on a leader: the history grows by the new entry. *)
Lemma start_change H w n rf rf' es op r :
  world_inv H w -> w.(nodes) !! n = Some rf -> node_ok H rf es -> leads H w n rf es ->
  Start rf (Some op) = Ok (rf', r) ->
  let w' := mkWorld (<[n := rf']> w.(nodes)) w.(calls) w.(votes) in
  let es' := es ++ [mkEntry rf.(currentTerm) (Some op)] in
  let H' := <[(rf.(currentTerm), S (length es)) := es']> H in
  inv ids w' ->
  rf' = rf \/ rf.(role) = Leader /\ H ⊆ H' /\ world_inv H' w' /\ node_ok H' rf' es'.
Proof.
  intros Hinv Hn Hok Hlead Hst w' es' H' Hel.
  destruct (Start_ok H rf es op rf' r) as [->|(Hr & Hr' & Et & Hfresh & Hok')];
    [done|done|intros i p Hr; by apply Hlead|by left|right].
  destruct (Hlead Hr) as [Hv Hmax]. pose proof (insert_subseteq H _ es' Hfresh) as Hsub.
  split_and!; [done|done| |done].
  eapply (change_inv H H' w w' n rf rf'); try done; simpl.
  - apply (wi_call H w Hinv).
  - intros _. rewrite Et. split; [done|]. intros i p Hp. unfold H', es' in *. rewrite length_app. simpl.
    apply lookup_insert_Some in Hp as [[[= <-] _]|[_ Hp]]; [lia|]. specialize (Hmax i p Hp). lia.
  - congruence.
  - intros t i p [[[= <- <-] <-]|[_ Hp]]%lookup_insert_Some; [right|by left].
    split_and!; [|done|congruence]. rewrite <- Et.
    eapply (inv_leader ids _ Hel n rf'); [apply lookup_insert_eq|done].
Qed.

(** A critical section of a node. *)
Lemma local_change H w as_ ss n rf rf' :
  world_inv H w -> (forall args, args ∈ as_ -> append_ok H args) ->
  (forall args, args ∈ ss -> snapshot_ok args) ->
  w.(nodes) !! n = Some rf -> net_local true as_ ss rf rf' ->
  inv ids (mkWorld (<[n := rf']> w.(nodes)) w.(calls) w.(votes)) ->
  exists H', H ⊆ H' /\ world_inv H' (mkWorld (<[n := rf']> w.(nodes)) w.(calls) w.(votes)).
Proof.
  intros Hinv Ha Hs Hn Hl Hel. pose proof (net_local_frame _ _ _ _ _ Hl) as Hf.
  pose proof (wi_call H w Hinv) as Hcalls.
  destruct Hl as [rf rf' Hq|args rf rf' reply Hin Hsc Hae|args rf rf' reply msg Hin His|op rf rf' r Hst].
  - exists H. split; [done|]. eapply (frame_change H w _ n rf rf'); try done.
    by apply kept_same, quiet_kept.
  - exists H. split; [done|]. eapply (frame_change H w _ n rf rf'); try done.
    intros es Hok. eapply AppendEntries_ok; eauto.
  - exists H. split; [done|]. eapply (frame_change H w _ n rf rf'); try done.
    intros es Hok. eapply kept_same; [|done]. eapply InstallSnapshot_kept; eauto.
  - destruct (wi_node H w Hinv n rf Hn) as (es & Hok & Hlead).
    destruct (start_change H w n rf rf' es op r) as [->|(_ & Hsub & Hw & _)]; [done..| |eauto].
    exists H. split; [done|]. eapply (frame_change H w _ n rf rf); eauto.
Qed.

Lemma elect_change H w n rf rf' args :
  world_inv H w -> w.(nodes) !! n = Some rf -> StartElection rf = Ok (rf', args) ->
  let w' := mkWorld (<[n := rf']> w.(nodes))
              (call_peers n (RequestVoteArgs.Term args) args rf.(peers) w.(calls))
              ({[(n, RequestVoteArgs.Term args, n)]} ∪ w.(votes)) in
  inv ids w' -> world_inv H w'.
Proof.
  intros Hinv Hn Hse w' Hel. pose proof (StartElection_kept _ _ _ Hse) as Hk.
  apply StartElection_Ok in Hse as (_ & _ & Et & _ & Er & _).
  destruct (wi_node H w Hinv n rf Hn) as (es & Hok & _).
  eapply (change_inv H H w w' n rf rf' es); try done; simpl.
  - set_solver.
  - intros c i t r [(j & _ & [= -> -> ->] & _)|Hc]%call_peers_lookup; [set_solver|].
    apply (wi_call H w Hinv) in Hc. set_solver.
  - by eapply kept_ok.
  - intros Hr. congruence.
  - intros _. left. lia.
  - by left.
Qed.

Lemma calls_subset_change H w m :
  world_inv H w -> m ⊆ w.(calls) -> inv ids (mkWorld w.(nodes) m w.(votes)) ->
  world_inv H (mkWorld w.(nodes) m w.(votes)).
Proof.
  intros Hinv Hsub Hel. split; simpl; [done|exact (wi_node H w Hinv)| |exact (wi_history H w Hinv)].
  intros c i t r Hc. eapply (wi_call H w Hinv), lookup_weaken; eauto.
Qed.

(** A counted vote may make a leader, in a term without entries yet. *)
Lemma count_change H w c i t rf rf' outTime b :
  world_inv H w -> w.(calls) !! (c, i, t) = Some Granted -> w.(nodes) !! c = Some rf ->
  collectVote rf outTime = Ok (rf', b) ->
  let w' := mkWorld (<[c := rf']> w.(nodes)) (delete (c, i, t) w.(calls)) w.(votes) in
  inv ids w' -> world_inv H w'.
Proof.
  intros Hinv Hcall Hn Hcv w' Hel. pose proof (collectVote_kept _ _ _ _ Hcv) as Hk.
  apply collectVote_Ok in Hcv as (_ & _ & Et & _).
  destruct (inv_call ids w (wi_election H w Hinv) c i t _ Hcall)
    as (_ & rfc & Hnc & _ & _ & -> & Hrole & _).
  rewrite Hn in Hnc. injection Hnc as <-. pose proof (wi_call H w Hinv _ _ _ _ Hcall) as Hv.
  destruct (wi_node H w Hinv c rf Hn) as (es & Hok & _).
  eapply (change_inv H H w w' c rf rf' es); try done; simpl.
  - intros c' i' t' r [_ Hc]%lookup_delete_Some. by apply (wi_call H w Hinv) in Hc.
  - by eapply kept_ok.
  - intros Hl. rewrite Et. split; [done|]. intros j p Hp.
    assert (won ids w (currentTerm rf) c) as Hwon.
    { rewrite <- Et. eapply (inv_leader ids w' Hel c rf'); [apply lookup_insert_eq|done]. }
    destruct (history_term H w _ j p c rf Hinv Hp Hwon Hn) as [_ Hno]. by destruct Hno.
  - by right.
  - by left.
Qed.

Lemma restart_change H w n rf p msgs rf' :
  world_inv H w -> w.(nodes) !! n = Some rf -> reboot rf.(persister) = Ok p ->
  startWork (Make ids n p) = Ok (msgs, rf') ->
  let w' := mkWorld (<[n := rf']> w.(nodes)) (filter (fun kv => kv.1.1.1 <> n) w.(calls)) w.(votes) in
  inv ids w' -> world_inv H w'.
Proof.
  intros Hinv Hn Hb Hs w' Hel. destruct (wi_node H w Hinv n rf Hn) as (es & Hok & _).
  destruct (restart_ok H ids n (persister rf) p msgs rf') as (es' & Hok' & _); [|done..|].
  { apply (no_disk _ _ _ Hok). }
  apply startWork_Ok in Hs as (_ & _ & Hr & _).
  eapply (change_inv H H w w' n rf rf' es'); try done; simpl.
  - intros c i t r [Hc _]%map_lookup_filter_Some. by apply (wi_call H w Hinv) in Hc.
  - intros Hl. congruence.
  - congruence.
  - by left.
Qed.

Lemma node_step_inv H as_ ss w w' :
  world_inv H w -> (forall args, args ∈ as_ -> append_ok H args) ->
  (forall args, args ∈ ss -> snapshot_ok args) ->
  step_by ids (net_local true as_ ss) true w w' -> exists H', H ⊆ H' /\ world_inv H' w'.
Proof.
  intros Hinv Ha Hs Hst. pose proof (wi_election H w Hinv) as Hel0.
  assert (inv ids w') as Hel.
  { eapply (step_by_inv ids); [..|exact Hst]; try done. apply net_local_frame. }
  destruct Hst; [by eapply local_change|exists H; (split; [done|])..].
  - by eapply elect_change.
  - eapply (frame_change H w _ i rf rf'); try done; simpl.
    + destruct (RequestVoteReply.VoteGranted reply); set_solver.
    + intros c' i' t' r Hc. assert ((c', t', c') ∈ votes w).
      { apply lookup_insert_Some in Hc as [[[= <- <- <-] _]|[_ Hc]]; by eapply (wi_call H w Hinv). }
      destruct (RequestVoteReply.VoteGranted reply); set_solver.
    + by eapply RequestVote_frame.
    + by eapply kept_same, RequestVote_kept.
  - apply calls_subset_change; [done|apply delete_subseteq|done].
  - eapply (frame_change H w _ c rf rf'); try done; simpl.
    + intros c' i' t' r Hc. destruct b; [apply lookup_insert_Some in Hc as [[[= <- <- <-] _]|[_ Hc]]|
        apply lookup_delete_Some in Hc as [_ Hc]]; by eapply (wi_call H w Hinv).
    + by eapply procVoteAnswer_frame.
    + by eapply kept_same, procVoteAnswer_kept.
  - by eapply count_change.
  - by eapply restart_change.
Qed.

Lemma net_step_inv H s s' :
  net_inv H s -> net_step ids true s s' -> exists H', H ⊆ H' /\ net_inv H' s'.
Proof.
  intros [Hw Ha Hs] Hst. destruct Hst as [w w' as_ ss Hst|w as_ ss n rf plans i args Hn Hp Hi
    |w as_ ss n rf cs i args Hn Hp Hi|w as_ ss n rf args Hn Hp]; simpl in *.
  - destruct (node_step_inv H as_ ss w w') as (H' & Hsub & Hw'); [done..|].
    exists H'. split; [done|]. split; simpl; eauto using append_ok_mono.
  - exists H. split; [done|]. split; simpl; [done| |done].
    intros a [-> |]%elem_of_cons; [|by eauto].
    destruct (wi_node H w Hw n rf Hn) as (es & Hok & _).
    destruct (send_request H rf es plans i args) as (prev & Hsb); [done..|].
    eapply sent_by_ok; [apply (no_ok _ _ _ Hok)|done].
  - exists H. split; [done|]. split; simpl; [done| |done].
    intros a [-> |]%elem_of_cons; [|by eauto].
    destruct (wi_node H w Hw n rf Hn) as (es & Hok & _).
    destruct (heartbeat_request H rf es cs i args) as (k & Hsb); [done..|].
    eapply sent_by_ok; [apply (no_ok _ _ _ Hok)|done].
  - exists H. split; [done|]. split; simpl; [done|done|].
    intros a [-> |]%elem_of_cons; [|by eauto].
    destruct (wi_node H w Hw n rf Hn) as (es & Hok & _). by eapply send_snapshot_ok.
Qed.

Lemma net_init_inv s : net_init ids s -> net_inv ∅ s.
Proof.
  intros (Ea & Es & Ec & Ev & Hn). split; [|rewrite Ea; set_solver|rewrite Es; set_solver].
  split.
  - apply init_inv; try done. split_and!; [done..|]. intros n rf H.
    destruct (Hn n rf H) as (Hin & p0 & p & msgs & _ & Hb & Hs). split; [done|]. by exists p0, p, msgs.
  - intros n rf H. destruct (Hn n rf H) as (_ & p0 & p & msgs & Hbl & Hb & Hs).
    destruct (restart_ok ∅ ids n p0 p msgs rf) as (es & Hok & _); [|done..|].
    { intros img ->%Hbl. exists []. split; [done|apply log_ok_nil]. }
    exists es. split; [done|]. intros Hr. apply startWork_Ok in Hs as (_ & _ & Hf & _). congruence.
  - rewrite Ec. intros c i t r. by rewrite lookup_empty.
  - intros t i p. by rewrite lookup_empty.
Qed.

Lemma net_reachable_inv s : net_reachable ids true s -> exists H, net_inv H s.
Proof.
  intros (s0 & H0 & Hst). apply net_init_inv in H0.
  assert (exists H, net_inv H s0) as Hex by eauto. clear H0.
  induction Hst as [|s1 s2 s3 Hst _ IH]; [done|]. apply IH. destruct Hex as [H HH].
  destruct (net_step_inv H s1 s2 HH Hst) as (H' & _ & ?). eauto.
Qed.

(** C3. Log matching: in every state a cluster of odd size reaches by elections,
    commands, replication, lost, repeated and reordered requests, crashes between
    critical sections and restarts, two logs that hold an entry of the same term
    at an index are equal up to that index.  The conditions: the two critical
    sections of [collectVote] run together; a node handles the answer to
    [SendCommitIndex] only when it is not the leader; a follower takes the
    shortcut at its commit index only where the term agrees (see
    [shortcut_breaks_matching]); no service takes a snapshot, so that no log is
    compacted; [Save] does not fail; crashes and background work leave the
    store with one of the images saved ([LogStore]). *)
Theorem log_matching s a b ra rb i ea eb :
  net_reachable ids true s ->
  s.(world).(nodes) !! a = Some ra -> s.(world).(nodes) !! b = Some rb ->
  0 < i -> log_at ra i = Some ea -> log_at rb i = Some eb -> Term ea = Term eb ->
  forall j, 0 < j <= i -> is_Some (log_at ra j) /\ log_at ra j = log_at rb j.
Proof.
  intros Hr Ha Hb Hi Hea Heb Et j Hj. apply net_reachable_inv in Hr as [H Hinv].
  destruct (wi_node H _ (ni_world H s Hinv) a ra Ha) as (es & [La Oa (_ & Ia & _) _] & _).
  destruct (wi_node H _ (ni_world H s Hinv) b rb Hb) as (ls & [Lb Ob (_ & Ib & _) _] & _).
  rewrite (log_is_at ra es i La Ia Hi) in Hea. rewrite (log_is_at rb ls i Lb Ib Hi) in Heb.
  pose proof (lookup_lt_Some _ _ _ Hea) as Hlen. pose proof (lookup_lt_Some _ _ _ Heb).
  rewrite (log_is_at ra es j La Ia), (log_is_at rb ls j Lb Ib) by lia.
  split; [apply lookup_lt_is_Some_2; lia|].
  assert (take (S (Z.to_nat (i - 1))) es = take (S (Z.to_nat (i - 1))) ls) as E.
  { apply (log_ok_agree H); [done..|lia|lia|]. simpl. by rewrite Hea, Heb. }
  rewrite <- (lookup_take_lt es (S (Z.to_nat (i - 1)))), E, lookup_take_lt by lia. done.
Qed.

(** C30. Handlers that do not dereference a nil entry or index outside the log.
    In every state reachable under the conditions of C3, over a store whose
    [Save] does not fail ([ReliableStore]), the log of every node is well formed
    (not empty, no nil pointer), and these return: [AppendEntries] on every
    request in flight, [RequestVote], [StartElection], [procVoteAnswer],
    [collectVote], [Start], both parts of [InstallSnapshot],
    [sendInstallSnapshotToServer] and its handling of a reply, on any arguments;
    the request of [StartSendAppendEntries] for a peer whose next index is not
    past the end of the log; and the buffer of [CommitCheck] when the commit
    index is not past the end of the log (else both panic).  Not covered:
    [SingleHeartBeat], the handling of replies to AppendEntries, and nodes that
    have taken a snapshot of their own. *)
Theorem handlers_return s n rf :
  net_reachable ids true s -> s.(world).(nodes) !! n = Some rf ->
  wf_log rf.(log)
  /\ (forall args, args ∈ s.(appends) -> returns (AppendEntries rf args))
  /\ returns (StartElection rf) /\ (forall args, returns (RequestVote rf args))
  /\ (forall args reply, returns (procVoteAnswer rf args reply))
  /\ (forall outTime, returns (collectVote rf outTime)) /\ (forall cmd, returns (Start rf cmd))
  /\ (forall args, returns (InstallSnapshot_recv rf args)) /\ returns (InstallSnapshot_finish rf)
  /\ returns (sendInstallSnapshot_args rf)
  /\ (forall server reply, returns (sendInstallSnapshotToServer rf server reply))
  /\ (forall i, mget rf.(nextIndex) i - 1 <= last_index rf -> returns (StartSendAppendEntries_peer rf i))
  /\ (rf.(lastIncludedIndex) <= rf.(lastApplied) -> rf.(commitIndex) <= last_index rf -> returns (CommitCheck_buffer rf)).
Proof.
  intros Hr Hn. apply net_reachable_inv in Hr as [H Hinv].
  destruct (wi_node H _ (ni_world H s Hinv) n rf Hn) as (es & [Hl _ _ _] & _).
  pose proof (log_is_wf rf es Hl) as Hw. split; [done|]. split; [|by apply wf_handlers].
  intros args Ha. destruct (ni_append H s Hinv args Ha) as (ls & prev & _ & _ & _ & _ & Ees).
  destruct (AppendEntries_accepts rf args Hw) as (rf' & reply & Hok & _); [|by eexists].
  rewrite Ees. apply Forall_map, Forall_true. by eexists.
Qed.

End matching.

(** ** Running the network *)

Inductive NetEvent :=
  | NElection (e : Event)
  | NStart (n : Z) (op : Op)
  | NSend (n i : Z)  (* the request of a round for peer [i] *)
  | NBeat (n i : Z)  (* the heartbeat of a read for peer [i] *)
  | NSnapshot (n : Z)
  | NDeliver (k : nat) (n : Z)  (* the [k]-th newest request reaches [n] *)
  | NInstall (k : nat) (n : Z)
  | NReply (k : nat) (n i : Z) (reply : AppendEntriesReply.t)
  | NSnapshotReply (n i : Z) (reply : InstallSnapshotReply.t).

Section scheduler.
Context {P : Type} `{!RaftStore P}.
Implicit Types s : Net P.
Implicit Types rf : Raftserver P.

Definition shortcut_soundb rf (args : AppendEntriesArgs.t) : bool :=
  negb (rf.(commitIndex) =? AppendEntriesArgs.PrevLogIndex args)
  || match log_at rf rf.(commitIndex) with
     | Some e => Term e =? AppendEntriesArgs.PrevLogTerm args
     | None => true
     end.

(** Node [n] runs a critical section. *)
Definition on_node s (n : Z) (f : Raftserver P -> option (Raftserver P)) : option (Net P) :=
  let w := s.(world) in
  rf ← w.(nodes) !! n;
  if runnable true w n then
    rf' ← f rf;
    Some (mkNet (mkWorld (<[n := rf']> w.(nodes)) w.(calls) w.(votes)) s.(appends) s.(snapshots))
  else None.

Definition from_go {A} (r : go A) : option A := match r with Ok a => Some a | _ => None end.

Definition plan_for (i : Z) (ps : list (Z * SendPlan)) : option AppendEntriesArgs.t :=
  match list_find (fun p => p.1 = i) ps with
  | Some (_, (_, PlanAppend args)) => Some args
  | _ => None
  end.

Definition net_exec (checked : bool) s (e : NetEvent) : option (Net P) :=
  match e with
  | NElection e =>
      w ← exec true s.(world) e; Some (mkNet w s.(appends) s.(snapshots))
  | NStart n op => on_node s n (fun rf => r ← from_go (Start rf (Some op)); Some r.1)
  | NSend n i =>
      rf ← s.(world).(nodes) !! n;
      ps ← mjoin (from_go (StartSendAppendEntries rf));
      args ← plan_for i ps;
      Some (mkNet s.(world) (args :: s.(appends)) s.(snapshots))
  | NBeat n i =>
      rf ← s.(world).(nodes) !! n;
      cs ← mjoin (from_go (SingleHeartBeat_args rf));
      c ← list_find (fun p => p.1 = i) cs;
      Some (mkNet s.(world) (c.2.2 :: s.(appends)) s.(snapshots))
  | NSnapshot n =>
      rf ← s.(world).(nodes) !! n;
      args ← mjoin (from_go (sendInstallSnapshot_args rf));
      Some (mkNet s.(world) s.(appends) (args :: s.(snapshots)))
  | NDeliver k n =>
      args ← s.(appends) !! k;
      on_node s n (fun rf =>
        if negb checked || shortcut_soundb rf args
        then r ← from_go (AppendEntries rf args); Some r.1 else None)
  | NInstall k n =>
      args ← s.(snapshots) !! k;
      on_node s n (fun rf => r ← from_go (InstallSnapshot_recv rf args); Some r.1.1)
  | NReply k n i reply =>
      args ← s.(appends) !! k;
      on_node s n (fun rf => r ← from_go (sendAppendEntriesToServer rf i args reply); Some r.1)
  | NSnapshotReply n i reply =>
      on_node s n (fun rf => from_go (sendInstallSnapshotToServer rf i reply))
  end.

Definition net_exec_all (checked : bool) s (es : list NetEvent) : option (Net P) :=
  foldl (fun o e => s ← o; net_exec checked s e) (Some s) es.

Lemma shortcut_soundb_sound rf args : shortcut_soundb rf args = true -> shortcut_sound rf args.
Proof.
  unfold shortcut_soundb, shortcut_sound. intros H E e He. rewrite He, E, Z.eqb_refl in H.
  simpl in H. lia.
Qed.

Lemma from_go_Some {A} (r : go A) a : from_go r = Some a -> r = Ok a.
Proof. destruct r; simpl; congruence. Qed.

Lemma on_node_step ids checked s n f s' :
  on_node s n f = Some s' ->
  (forall rf rf', f rf = Some rf' -> net_local checked s.(appends) s.(snapshots) rf rf') ->
  net_step ids checked s s'.
Proof.
  unfold on_node. intros H Hf. apply bind_Some in H as (rf & Hn & H).
  destruct (runnable true (world s) n) eqn:Hr; [|done].
  apply bind_Some in H as (rf' & Hrf & [= <-]). destruct s as [w as_ ss]. simpl in *.
  constructor. eapply step_local; eauto using runnable_may_run.
Qed.

Lemma net_exec_step ids checked s e s' :
  net_exec checked s e = Some s' -> net_step ids checked s s'.
Proof.
  destruct e as [e|n op|n i|n i|n|k n|k n|k n i reply|n i reply]; cbn [net_exec]; intros H.
  - apply bind_Some in H as (w & He & [= <-]). destruct s as [w0 as_ ss]. constructor.
    by apply exec_step with e.
  - eapply on_node_step; [done|]. intros rf rf' Hf.
    apply bind_Some in Hf as ([rf1 r] & ?%from_go_Some & [= <-]). by eapply nl_Start.
  - apply bind_Some in H as (rf & Hn & H). apply bind_Some in H as (ps & Hp & H).
    apply bind_Some in H as (args & Ha & [= <-]). destruct s as [w as_ ss].
    unfold plan_for in Ha. destruct (list_find _ ps) as [[j [i' []]]|] eqn:Hl; simplify_eq/=.
    apply list_find_Some in Hl as (Hl & _ & _). apply list_elem_of_lookup_2 in Hl.
    destruct (from_go _) as [[]|] eqn:Hg; simplify_eq/=. apply from_go_Some in Hg.
    by eapply net_send.
  - apply bind_Some in H as (rf & Hn & H). apply bind_Some in H as (cs & Hp & H).
    apply bind_Some in H as ([j [i' args]] & Hl & [= <-]). destruct s as [w as_ ss].
    apply list_find_Some in Hl as (Hl & _ & _). apply list_elem_of_lookup_2 in Hl.
    destruct (from_go _) as [[]|] eqn:Hg; simplify_eq/=. apply from_go_Some in Hg.
    by eapply net_heartbeat.
  - apply bind_Some in H as (rf & Hn & H). apply bind_Some in H as (args & Hp & [= <-]).
    destruct s as [w as_ ss]. destruct (from_go _) as [[]|] eqn:Hg; simplify_eq/=.
    apply from_go_Some in Hg. by eapply net_send_snapshot.
  - apply bind_Some in H as (args & Ha & H). eapply on_node_step; [done|]. intros rf rf' Hf.
    cbn beta in Hf. destruct (negb checked || shortcut_soundb rf args) eqn:Hc; [|done].
    apply bind_Some in Hf as ([rf1 r] & Hg%from_go_Some & [= <-]).
    eapply nl_AppendEntries; [by eapply list_elem_of_lookup_2| |done].
    intros ->. by apply shortcut_soundb_sound.
  - apply bind_Some in H as (args & Ha & H). eapply on_node_step; [done|]. intros rf rf' Hf.
    apply bind_Some in Hf as ([[rf1 r] m] & Hg%from_go_Some & [= <-]).
    eapply nl_InstallSnapshot; [by eapply list_elem_of_lookup_2|done].
  - apply bind_Some in H as (args & Ha & H). eapply on_node_step; [done|]. intros rf rf' Hf.
    apply bind_Some in Hf as ([rf1 r] & Hg%from_go_Some & [= <-]).
    by eapply nl_quiet, q_AppendReply.
  - eapply on_node_step; [done|]. intros rf rf' Hf%from_go_Some. by eapply nl_quiet, q_SnapshotReply.
Qed.

Lemma net_exec_steps ids checked s es s' :
  net_exec_all checked s es = Some s' -> rtc (net_step ids checked) s s'.
Proof.
  unfold net_exec_all. revert s'. induction es as [|e es IH] using rev_ind; intros s' H.
  - injection H as <-. constructor.
  - rewrite foldl_app in H. apply bind_Some in H as (s1 & H1 & H).
    eapply rtc_r; [by apply IH|by apply net_exec_step with e].
Qed.

End scheduler.

(** A fresh network over the in-memory store. *)
Definition fresh_net (ids : list Z) : Net MemStore.t := mkNet (fresh_cluster ids) [] [].

Lemma fresh_net_init ids : net_init ids (fresh_net ids).
Proof.
  split_and!; [done..|]. intros n rf [Hin Hf]%fresh_nodes_lookup. split; [done|].
  unfold fresh_node in Hf. apply bind_Ok in Hf as ([msgs rf0] & Hs & E).
  apply Ok_inj in E. simpl in E. subst rf0. by exists MemStore.empty, MemStore.empty, msgs.
Qed.

Lemma net_run ids checked es (P : Net MemStore.t -> bool) :
  match net_exec_all checked (fresh_net ids) es with Some s => P s | None => false end = true ->
  exists s, net_reachable ids checked s /\ P s = true.
Proof.
  destruct (net_exec_all _ _ _) as [s|] eqn:E; [|done]. intros H. exists s. split; [|done].
  exists (fresh_net ids). split; [apply fresh_net_init|by eapply net_exec_steps].
Qed.

(** The entry of a node at an index, and its commit index. *)
Definition entry_of (s : Net MemStore.t) (n i : Z) : option Entry :=
  rf ← s.(world).(nodes) !! n; log_at rf i.

Definition commit_of (s : Net MemStore.t) (n : Z) : Z :=
  from_option Raft.commitIndex 0 (s.(world).(nodes) !! n).

Definition put_op (b : byte) : Op := mkOp PUT 1 7 [] [b].

Definition elect_net (c i t : Z) : list NetEvent := map NElection (elect_with c i t).

(** Node 0 leads term 1 and keeps an entry to itself; node 1 leads term 2,
    commits another one with node 2, and confirms a read with a heartbeat that
    reaches node 0. *)
Definition commit_run : list NetEvent :=
  elect_net 0 1 1 ++ [NStart 0 (put_op x01)]
  ++ elect_net 1 2 2 ++ [NStart 1 (put_op x02); NSnapshot 1; NInstall 0 0; NInstall 0 2;
     NSnapshotReply 1 0 (InstallSnapshotReply.mk 2); NSnapshotReply 1 2 (InstallSnapshotReply.mk 2);
     NSend 1 2; NDeliver 0 2; NReply 0 1 2 (AppendEntriesReply.mk 2 true 0 0 0);
     NBeat 1 0; NDeliver 0 0].

(** The election of node 1 again, with the maps of its first term. *)
Definition matching_run : list NetEvent :=
  commit_run
  ++ [NElection (EElect 2); NElection (EVote 2 1 3)]
  ++ elect_net 1 2 4 ++ [NStart 1 (put_op x03); NSend 1 0; NDeliver 0 0].

(** Where a node has both an entry and a commit index that covers it. *)
Definition committed_at (s : Net MemStore.t) (n i : Z) (e : Entry) : Prop :=
  entry_of s n i = Some e /\ i <= commit_of s n.

(** C40. Committed entries can differ: [AppendEntries] raises [commitIndex] to
    the larger of the leader's commit index and the end of its own log, so a
    heartbeat that carries no entry commits whatever the follower holds.  Two
    nodes reach a state in which both have committed index 1, with different
    entries, although their logs still match. *)
Theorem commits_diverge :
  exists (s : Net MemStore.t) a b, net_reachable [0; 1; 2] true s
    /\ committed_at s 0 1 a /\ committed_at s 1 1 b /\ a <> b.
Proof.
  destruct (net_run [0; 1; 2] true commit_run (fun s =>
    bool_decide (entry_of s 0 1 = Some (mkEntry 1 (Some (put_op x01))))
    && bool_decide (entry_of s 1 1 = Some (mkEntry 2 (Some (put_op x02))))
    && (1 <=? commit_of s 0) && (1 <=? commit_of s 1))) as (s & Hr & Hs); [by vm_compute|].
  rewrite !andb_true_iff, !bool_decide_eq_true, !Z.leb_le in Hs.
  destruct Hs as [[[Ha Hb] ?] ?]. by exists s, (mkEntry 1 (Some (put_op x01))), (mkEntry 2 (Some (put_op x02))).
Qed.

(** Without the restriction on the shortcut, log matching fails: a follower
    that committed a wrong entry accepts what the leader sends after its own,
    and the two logs agree at index 2 but not at index 1. *)
Theorem shortcut_breaks_matching :
  exists (s : Net MemStore.t) a b e, net_reachable [0; 1; 2] false s
    /\ entry_of s 0 2 = Some e /\ entry_of s 1 2 = Some e
    /\ entry_of s 0 1 = Some a /\ entry_of s 1 1 = Some b /\ a <> b.
Proof.
  destruct (net_run [0; 1; 2] false matching_run (fun s =>
    bool_decide (entry_of s 0 1 = Some (mkEntry 1 (Some (put_op x01))))
    && bool_decide (entry_of s 1 1 = Some (mkEntry 2 (Some (put_op x02))))
    && bool_decide (entry_of s 0 2 = Some (mkEntry 4 (Some (put_op x03))))
    && bool_decide (entry_of s 1 2 = Some (mkEntry 4 (Some (put_op x03))))))
    as (s & Hr & Hs); [by vm_compute|].
  rewrite !andb_true_iff, !bool_decide_eq_true in Hs. destruct Hs as [[[Ha Hb] ?] ?].
  by exists s, (mkEntry 1 (Some (put_op x01))), (mkEntry 2 (Some (put_op x02))),
    (mkEntry 4 (Some (put_op x03))).
Qed.

Lemma log_matching_witness :
  exists (s : Net MemStore.t) ra rb, net_reachable [0; 1; 2] true s
    /\ s.(world).(nodes) !! 1 = Some ra /\ s.(world).(nodes) !! 2 = Some rb
    /\ log_at ra 1 = Some (mkEntry 2 (Some (put_op x02))) /\ log_at ra 1 = log_at rb 1.
Proof.
  destruct (net_run [0; 1; 2] true commit_run (fun s =>
    bool_decide (entry_of s 1 1 = Some (mkEntry 2 (Some (put_op x02))))
    && bool_decide (entry_of s 2 1 = Some (mkEntry 2 (Some (put_op x02))))))
    as (s & Hr & Hs); [by vm_compute|].
  rewrite !andb_true_iff, !bool_decide_eq_true in Hs. destruct Hs as [Ha Hb].
  apply bind_Some in Ha as (ra & Hna & Ha). apply bind_Some in Hb as (rb & Hnb & Hb).
  exists s, ra, rb. split_and!; [done..|].
  eapply (log_matching [0; 1; 2] three_nodup three_nonneg); eauto; [by exists 1%nat|lia..].
Defined.

Lemma handlers_return_witness :
  exists (s : Net MemStore.t) rf args, net_reachable [0; 1; 2] true s
    /\ s.(world).(nodes) !! 1 = Some rf /\ args ∈ s.(appends) /\ returns (AppendEntries rf args).
Proof.
  destruct (net_run [0; 1; 2] true commit_run (fun s =>
    bool_decide (is_Some (s.(world).(nodes) !! 1)) && bool_decide (is_Some (head s.(appends)))))
    as (s & Hr & Hs); [by vm_compute|].
  rewrite !andb_true_iff, !bool_decide_eq_true in Hs. destruct Hs as [[rf Hn] [args Ha]].
  assert (args ∈ s.(appends)) as Hin by (destruct (appends s); simplify_eq/=; by left).
  exists s, rf, args. split_and!; [done..|].
  by apply (handlers_return [0; 1; 2] three_nodup three_nonneg ltac:(by exists 1%nat) s 1 rf).
Defined.
