(* ===== verification/Replies.v ===== *)
(** * Replies: the network with replies, and what a leader's log stands for

    The network of LogMatching.v with the replies to AppendEntries: a node that
    handles a request puts its answer into the network, and the node that sent
    the request may handle the answer at any later time, any number of times.
    The other handlers run as before, under the conditions of LogMatching.v on
    schedules: no snapshot of a service, [collectVote] in one piece,
    [SendCommitIndex] answered on a node that is not the leader, and every
    delivered AppendEntries either does not use the shortcut at the commit index
    or uses it where the term agrees ([shortcut_sound]).  A node that restarts
    has the log it saved last ([DurableLog] of Store.v; the persister of the
    repository can lose entries, see PersisterSpec.v).

    [Ghost] keeps, beside the history of LogMatching.v, for each term its leader
    with the log it was elected with and the log it has built since, for each
    candidate the log it stood with, for each vote of an election the log of
    the voter at that time, and what each node has acknowledged in each term.
    [committed_kept] is the argument on it: what a majority acknowledged is in
    the log of every leader elected later.  [node_inv] ties a node to the ghost
    state; the handlers' lemmas say what they do to the parts it names. *)

From S2P Require Import Prelude Types Store RaftNode RaftVotes Election RaftLog LogMatching.
Import Raft.

(** ** The network with replies *)

Section net.
Context {P : Type} `{!RaftStore P}.
Implicit Types rf : Raftserver P.
Variable ids : list Z.

(** A reply: who answered, to which request, and what. *)
Record RNet := mkRNet {
  net : Net P;
  replies : list (Z * AppendEntriesArgs.t * AppendEntriesReply.t)
}.

(** The handlers that leave the log and the match indices alone. *)
Inductive calm (ss : list InstallSnapshotArgs.t) : Raftserver P -> Raftserver P -> Prop :=
  | c_RequestVote args rf rf' reply : RequestVote rf args = Ok (rf', reply) -> calm ss rf rf'
  | c_InstallSnapshot args rf rf' reply msg :
      args ∈ ss -> InstallSnapshot_recv rf args = Ok (rf', reply, msg) -> calm ss rf rf'
  | c_InstallSnapshot_finish rf rf' : InstallSnapshot_finish rf = Ok rf' -> calm ss rf rf'
  | c_SnapshotReply server reply rf rf' :
      server ∈ ids -> sendInstallSnapshotToServer rf server reply = Ok rf' -> calm ss rf rf'
  | c_applied rf msg cur : calm ss rf (CommitCheck_done rf msg cur)
  | c_SendCommitIndex r rf rf' v e :
      rf.(role) <> Leader -> SendCommitIndex rf r = (rf', v, e) -> calm ss rf rf'
  | c_background rf p : background rf.(persister) p -> calm ss rf (set_persister p rf)
  | c_Kill rf : calm ss rf (Kill rf).

Definition set_node (w : World P) (n : Z) rf : World P :=
  mkWorld (<[n := rf]> w.(nodes)) w.(calls) w.(votes).

Inductive rstep : RNet -> RNet -> Prop :=
  | r_world w w' as_ ss rs :
      step_by ids (calm ss) true w w' ->
      rstep (mkRNet (mkNet w as_ ss) rs) (mkRNet (mkNet w' as_ ss) rs)
  | r_start w as_ ss rs n rf rf' op r :
      w.(nodes) !! n = Some rf -> may_run true w n -> Start rf (Some op) = Ok (rf', r) ->
      rstep (mkRNet (mkNet w as_ ss) rs) (mkRNet (mkNet (set_node w n rf') as_ ss) rs)
  | r_deliver w as_ ss rs n rf rf' args reply :
      w.(nodes) !! n = Some rf -> may_run true w n -> args ∈ as_ -> shortcut_sound rf args ->
      AppendEntries rf args = Ok (rf', reply) ->
      rstep (mkRNet (mkNet w as_ ss) rs)
            (mkRNet (mkNet (set_node w n rf') as_ ss) ((n, args, reply) :: rs))
  | r_reply w as_ ss rs n i rf rf' args reply snap :
      w.(nodes) !! n = Some rf -> may_run true w n ->
      (i, args, reply) ∈ rs -> AppendEntriesArgs.LeaderId args = n ->
      sendAppendEntriesToServer rf i args reply = Ok (rf', snap) ->
      rstep (mkRNet (mkNet w as_ ss) rs) (mkRNet (mkNet (set_node w n rf') as_ ss) rs)
  | r_send w as_ ss rs n rf plans i args :
      w.(nodes) !! n = Some rf -> StartSendAppendEntries rf = Ok (Some plans) ->
      (i, PlanAppend args) ∈ plans ->
      rstep (mkRNet (mkNet w as_ ss) rs) (mkRNet (mkNet w (args :: as_) ss) rs)
  | r_heartbeat w as_ ss rs n rf cs i args :
      w.(nodes) !! n = Some rf -> SingleHeartBeat_args rf = Ok (Some cs) -> (i, args) ∈ cs ->
      rstep (mkRNet (mkNet w as_ ss) rs) (mkRNet (mkNet w (args :: as_) ss) rs)
  | r_snapshot w as_ ss rs n rf args :
      w.(nodes) !! n = Some rf -> sendInstallSnapshot_args rf = Ok (Some args) ->
      rstep (mkRNet (mkNet w as_ ss) rs) (mkRNet (mkNet w as_ (args :: ss)) rs).

Lemma calm_local as_ ss rf rf' : calm ss rf rf' -> net_local true as_ ss rf rf'.
Proof. destruct 1; eauto using net_local, quiet. Qed.

(** The steps are steps of LogMatching.v. *)
Lemma step_by_mono (l l' : Raftserver P -> Raftserver P -> Prop) atomic w w' :
  (forall rf rf', l rf rf' -> l' rf rf') -> step_by ids l atomic w w' -> step_by ids l' atomic w w'.
Proof. intros Hl. destruct 1; eauto using step_by. Qed.

Lemma rstep_net s s' : rstep s s' -> net_step ids true s.(net) s'.(net).
Proof.
  destruct 1; simpl; eauto using net_step.
  - constructor. eapply step_by_mono; [|done]. intros ? ?. apply calm_local.
  - constructor. eapply step_local; [done..|]. by eapply nl_Start.
  - constructor. eapply step_local; [done..|]. by eapply nl_AppendEntries.
  - constructor. eapply step_local; [done..|]. by eapply nl_quiet, q_AppendReply.
Qed.

End net.

Arguments RNet P : clear implicits.
Arguments mkRNet {P} net replies.
Arguments net {P} r.
Arguments replies {P} r.

Section init.
Context {P : Type} `{!RaftStore P} `{!LogStore P}.
Variable ids : list Z.

(** As in LogMatching.v, from disks whose term is not negative. *)
Definition rnet_init (s : RNet P) : Prop :=
  net_init ids s.(net) /\ s.(replies) = []
  /\ forall n rf, s.(net).(world).(nodes) !! n = Some rf -> 0 <= rf.(currentTerm).

Definition rnet_reachable (s : RNet P) : Prop :=
  exists s0, rnet_init s0 /\ rtc (rstep ids) s0 s.

End init.

(** ** Ghost state *)

(** [led]: for a term, its leader, the log it was elected with and its log since.
    [cands]: the log a candidate of a term stood with.  [ballots]: voter, term,
    candidate and the voter's log.  [acks]: node, term and what it acknowledged
    to the leader of the term. *)
Record Ghost := mkGhost {
  hist : History;
  led : gmap Z (Z * list Entry * list Entry);
  cands : gmap (Z * Z) (list Entry);
  ballots : list (Z * Z * Z * list Entry);
  acks : list (Z * Z * list Entry)
}.

Definition acked (G : Ghost) (v t : Z) (p : list Entry) : Prop :=
  exists p', (v, t, p') ∈ acks G /\ p `prefix_of` p'.

(** Every leader of a term after [t] and up to [u] was elected with [p]. *)
Definition kept_until (G : Ghost) (t u : Z) (p : list Entry) : Prop :=
  forall t' c L F, led G !! t' = Some (c, L, F) -> t < t' <= u -> p `prefix_of` L.

Definition end_term (es : list Entry) : Z := term_at es (length es).

(** [RequestVote]'s test: the candidate's log is not behind the voter's. *)
Definition not_behind (V L : list Entry) : Prop :=
  end_term V < end_term L \/ (end_term L = end_term V /\ (length V <= length L)%nat).

(** A majority acknowledged [p], which ends with an entry of the term. *)
Definition committed (ids : list Z) (G : Ghost) (t : Z) (p : list Entry) : Prop :=
  exists c L F q, led G !! t = Some (c, L, F) /\ p `prefix_of` F /\ (length L < length p)%nat
    /\ NoDup q /\ (length ids < 2 * length q)%nat /\ (forall v, v ∈ q -> v ∈ ids)
    /\ forall v, v ∈ q -> acked G v t p.

Section ghost.
Context {P : Type} `{!RaftStore P}.
Variable ids : list Z.
Implicit Types w : World P.
Implicit Types G : Ghost.

Record led_inv G w (t c : Z) (L F : list Entry) : Prop := {
  li_pos : 0 < t;
  li_prefix : L `prefix_of` F;
  li_log : log_ok (hist G) F;
  li_old e : e ∈ L -> Term e < t;
  li_new e : e ∈ drop (length L) F -> Term e = t;
  li_won : won ids w t c;
  li_vote : (c, t, c) ∈ w.(votes);
  li_ballots : exists q, NoDup q /\ (length ids < 2 * length q)%nat
    /\ forall v, v ∈ q -> exists V, (v, t, c, V) ∈ ballots G /\ not_behind V L
}.

Record ghost_inv G w : Prop := {
  gi_hist t i p : hist G !! (t, i) = Some p ->
    exists c L F, led G !! t = Some (c, L, F) /\ (length L < i <= length F)%nat /\ p = take i F;
  gi_led t c L F : led G !! t = Some (c, L, F) -> led_inv G w t c L F;
  gi_vote v t c : (v, t, c) ∈ w.(votes) -> (c, t, c) ∈ w.(votes);
  gi_call c i t args : w.(calls) !! (c, i, t) = Some (Called args) ->
    exists L, cands G !! (c, t) = Some L
      /\ RequestVoteArgs.LastLogIndex args = Z.of_nat (length L)
      /\ RequestVoteArgs.LastLogTerm args = end_term L;
  gi_cand c t L : cands G !! (c, t) = Some L ->
    0 < t /\ (c, t, c) ∈ w.(votes) /\ forall e, e ∈ L -> Term e < t;
  gi_ballot v t c V : (v, t, c, V) ∈ ballots G ->
    (v, t, c) ∈ w.(votes) /\ log_ok (hist G) V
    /\ forall t0 p, acked G v t0 p -> t0 < t ->
         (forall c' L F, led G !! t = Some (c', L, F) -> c' = c) ->
         kept_until G t0 (t - 1) p -> p `prefix_of` V;
  gi_ack v t p : (v, t, p) ∈ acks G -> exists c L F, led G !! t = Some (c, L, F) /\ p `prefix_of` F
}.

(** No entry of a leader's log is of a later term. *)
Lemma led_terms G w t c L F e : led_inv G w t c L F -> e ∈ F -> Term e <= t.
Proof.
  intros Hli. rewrite <- (take_drop (length L) F). intros [Hk|Hk]%elem_of_app.
  - destruct (li_prefix _ _ _ _ _ _ Hli) as [F' EF].
    rewrite EF, take_app_length in Hk. apply (li_old _ _ _ _ _ _ Hli) in Hk. lia.
  - apply (li_new _ _ _ _ _ _ Hli) in Hk. lia.
Qed.

(** A non-empty log is a piece of the log of the leader of its last term. *)
Lemma log_of_leader G w V :
  ghost_inv G w -> log_ok (hist G) V -> V <> [] ->
  exists c L F, led G !! end_term V = Some (c, L, F)
    /\ (length L < length V <= length F)%nat /\ V = take (length V) F
    /\ forall e, e ∈ V -> Term e <= end_term V.
Proof.
  intros Hg Hok Hne. destruct (length V) as [|j] eqn:Hlen; [by destruct V|].
  destruct (lookup_lt_is_Some_2 V j) as [e He]; [lia|].
  unfold end_term. rewrite Hlen. simpl. rewrite He. simpl.
  destruct (Hok j e He) as [_ Hh]. rewrite <- Hlen, take_ge in Hh by lia.
  destruct (gi_hist G w Hg _ _ _ Hh) as (c & L & F & Hl & Hi & E).
  exists c, L, F. split_and!; [done|lia|lia|by rewrite <- Hlen|].
  intros x Hx. rewrite E in Hx. apply elem_of_take in Hx as (k & Hk & _).
  eapply led_terms; [by apply (gi_led G w Hg)|by eapply list_elem_of_lookup_2].
Qed.

Lemma end_term_elem V : V <> [] -> exists e, e ∈ V /\ Term e = end_term V.
Proof.
  intros Hne. unfold end_term. destruct (length V) as [|j] eqn:Hlen; [by destruct V|].
  destruct (lookup_lt_is_Some_2 V j) as [e He]; [lia|]. exists e. simpl. rewrite He.
  split; [by eapply list_elem_of_lookup_2|done].
Qed.

(** A log past what its leader was elected with has an entry of the term. *)
Lemma led_entry G w t c L F p :
  led_inv G w t c L F -> p `prefix_of` F -> (length L < length p)%nat -> exists e, e ∈ p /\ Term e = t.
Proof.
  intros Hli [F2 ->] Hlen. destruct (lookup_lt_is_Some_2 p (length L)) as [e He]; [done|].
  exists e. split; [by eapply list_elem_of_lookup_2|]. apply (li_new _ _ _ _ _ _ Hli).
  apply (list_elem_of_lookup_2 _ 0). rewrite lookup_drop, lookup_app_l; by rewrite Nat.add_0_r.
Qed.

(** The core of the argument: a committed log is in the log of every leader
    elected later.  The quorums of the commitment and of the election share a
    node, which voted with the committed entries in its log. *)
Lemma committed_kept G w t p t' c' L' F' :
  inv ids w -> ghost_inv G w -> committed ids G t p -> led G !! t' = Some (c', L', F') -> t < t' ->
  p `prefix_of` L'.
Proof.
  intros Hel Hg Hcm. pose proof Hcm as (c & L & F & q & Hl & Hp & Hlen & Hnd & Hmaj & Hin & Hq).
  revert c' L' F'. induction (Z.lt_wf t t') as [t' _ IH]; intros c' L' F' Hl' Ht.
  pose proof (gi_led G w Hg _ _ _ _ Hl') as Hli'.
  destruct (li_ballots _ _ _ _ _ _ Hli') as (q' & Hnd' & Hmaj' & Hq').
  destruct (majorities_meet ids q q') as (v & Hv & Hv'); try done.
  { intros v Hv. destruct (Hq' v Hv) as (V & Hb & _).
    destruct (gi_ballot G w Hg _ _ _ _ Hb) as (Hvote & _). by destruct (inv_vote ids w Hel _ _ _ Hvote). }
  destruct (Hq' v Hv') as (V & Hb & Hnb). destruct (gi_ballot G w Hg _ _ _ _ Hb) as (_ & HokV & HV).
  assert (p `prefix_of` V) as HpV.
  { apply (HV t p (Hq v Hv)); [done| |].
    - intros c2 L2 F2 E. rewrite Hl' in E. by injection E.
    - intros t2 c2 L2 F2 Hl2 Ht2. eapply (IH t2); [lia|done|lia]. }
  assert (V <> []) as HneV by (destruct p; [simpl in *; lia|]; by destruct HpV as [k ->]).
  destruct (log_of_leader G w V Hg HokV HneV) as (cV & LV & FV & HlV & HlenV & EV & HtV).
  assert (t <= end_term V) as HtV'.
  { destruct (led_entry G w t c L F p) as (e & He & <-); [by apply (gi_led G w Hg)|done..|].
    apply HtV. destruct HpV as [V2 ->]. apply elem_of_app. by left. }
  assert (HneL : L' <> []).
  { intros ->. pose proof (li_pos _ _ _ _ _ _ (gi_led G w Hg _ _ _ _ Hl)).
    unfold not_behind in Hnb. change (end_term []) with 0 in Hnb. simpl in Hnb. lia. }
  assert (log_ok (hist G) L') as HokL.
  { destruct (li_prefix _ _ _ _ _ _ Hli') as [F2 EF]. pose proof (li_log _ _ _ _ _ _ Hli') as HF.
    rewrite EF in HF. rewrite <- (take_app_length L' F2). by apply log_ok_take. }
  destruct (log_of_leader G w L' Hg HokL HneL) as (cL & LL & FL & HlL & HlenL & EL & HtL).
  destruct Hnb as [Hlt|[Heq Hle]].
  - transitivity LL.
    + eapply (IH (end_term L')); [|done|lia]. split; [lia|].
      destruct (end_term_elem L' HneL) as (e & He & <-). by apply (li_old _ _ _ _ _ _ Hli').
    + destruct (li_prefix _ _ _ _ _ _ (gi_led G w Hg _ _ _ _ HlL)) as [F2 EF].
      rewrite EL, EF. rewrite take_app_ge by lia. by apply prefix_app_r.
  - rewrite Heq, HlV in HlL. injection HlL as <- <- <-. transitivity V; [done|].
    rewrite EL, EV at 1. exists (drop (length V) (take (length L') FV)).
    rewrite <- (take_drop (length V) (take (length L') FV)) at 1.
    by rewrite take_take, Nat.min_l by lia.
Qed.

End ghost.

(** ** Nodes *)

Section nodes.
Context {P : Type} `{!RaftStore P} `{!RaftStoreLaws P} `{!LogStore P} `{!DurableLog P} `{!ReliableStore P}.
Implicit Types rf : Raftserver P.
Implicit Types G : Ghost.
Implicit Types vs : gset (Z * Z * Z).

(** The term on disk. *)
Definition dterm rf : Z := CurrentTerm (durable rf.(persister)).

Definition maps_ok rf : Prop :=
  (forall i, is_Some (rf.(matchIndex) !! i) -> is_Some (rf.(nextIndex) !! i))
  /\ forall i, is_Some (rf.(nextIndex) !! i) -> 0 <= i.

(** A match index of the leader of the term is backed by an acknowledgement. *)
Definition match_acked G rf : Prop :=
  forall i, 0 < mget rf.(matchIndex) i ->
    exists p, acked G i rf.(currentTerm) p /\ mget rf.(matchIndex) i <= Z.of_nat (length p).

Definition votes_backed G vs n t L : Prop :=
  forall v, (v, t, n) ∈ vs -> exists V, (v, t, n, V) ∈ ballots G /\ not_behind V L.

Record node_inv G vs n rf (es : list Entry) : Prop := {
  nv_ok : node_ok (hist G) rf es;
  nv_disk img : saved rf.(persister) img -> img_entries img = es;
  nv_term : 0 <= dterm rf <= rf.(currentTerm);
  nv_terms e : e ∈ es -> Term e <= dterm rf;
  nv_leader : rf.(role) = Leader -> exists L, led G !! rf.(currentTerm) = Some (n, L, es);
  nv_led L F : led G !! rf.(currentTerm) = Some (n, L, F) ->
    rf.(role) <> Candidate /\ match_acked G rf;
  nv_cand : rf.(role) = Candidate -> (n, rf.(currentTerm), n) ∈ vs ->
    exists L, cands G !! (n, rf.(currentTerm)) = Some L
      /\ (L = es \/ is_Some (led G !! rf.(currentTerm)))
      /\ votes_backed G vs n rf.(currentTerm) L;
  nv_acked t p : acked G n t p ->
    t <= dterm rf /\ (kept_until G t (dterm rf) p -> p `prefix_of` es);
  nv_maps : maps_ok rf
}.

Lemma kept_until_mono G t u u' p : u <= u' -> kept_until G t u' p -> kept_until G t u p.
Proof. intros Hu Hk t' c L F Hl Ht. eapply Hk; [done|lia]. Qed.

(** What a handler does to the term on disk. *)
Lemma frame_dterm rf rf' :
  frame rf rf' -> 0 <= dterm rf <= rf.(currentTerm) ->
  0 <= dterm rf' <= rf'.(currentTerm) /\ dterm rf <= dterm rf'.
Proof.
  intros (_ & _ & Hvk & Hd & _). unfold dterm. unfold vote_kept in Hvk.
  destruct Hd as [->| ->]; simpl; lia.
Qed.

Lemma image_entries H rf es img : log_is rf es -> log_ok H es -> image_of rf img -> img_entries img = es.
Proof.
  intros (ph & El & _) Ho (logs & Hl & ->). rewrite El in Hl. cbn [drop] in Hl.
  rewrite drop_0, (persist_entries_same H) in Hl by done. by injection Hl.
Qed.

Lemma kept_disk H rf rf' es img :
  kept rf rf' -> node_ok H rf es -> (forall img, saved rf.(persister) img -> img_entries img = es) ->
  saved rf'.(persister) img -> img_entries img = es.
Proof.
  intros (_ & _ & _ & _ & Hd) [Hl Ho _ _] Hdisk Hi. destruct (Hd img Hi) as [|Him]; [auto|].
  by eapply image_entries.
Qed.

(** A handler that leaves the log alone, at a node that neither stands nor has
    stood in the term it moves to. *)
Lemma calm_node G vs n rf rf' es :
  node_inv G vs n rf es -> frame rf rf' -> node_ok (hist G) rf' es ->
  (forall img, saved rf'.(persister) img -> img_entries img = es) -> maps_ok rf' ->
  (forall t c, (n, t, c) ∈ vs -> t <= rf.(currentTerm)) ->
  (forall t L F, led G !! t = Some (n, L, F) -> (n, t, n) ∈ vs) ->
  (match_acked G rf -> rf'.(currentTerm) = rf.(currentTerm) -> match_acked G rf') ->
  node_inv G vs n rf' es.
Proof.
  intros [_ _ Hterm Hterms Hlead Hled Hcand Hack _] Hf Hok Hdisk Hmaps Hvt Hlv Hm.
  destruct (frame_dterm _ _ Hf Hterm) as [Hterm' Hle]. pose proof Hf as (_ & _ & Hvk & _ & Hrl & Hrc).
  assert (forall c, (n, rf'.(currentTerm), c) ∈ vs -> rf'.(currentTerm) = rf.(currentTerm)) as Hsame.
  { intros c Hc. apply Hvt in Hc. unfold vote_kept in Hvk. lia. }
  split; try done.
  - intros e He. specialize (Hterms e He). lia.
  - intros Hr. destruct (Hrl Hr) as [Hr0 ->]. auto.
  - intros L F Hl. assert (rf'.(currentTerm) = rf.(currentTerm)) as E by eauto. rewrite E in Hl.
    destruct (Hled L F Hl) as [Hnc Hma]. split; [|by apply Hm]. intros Hr. by destruct (Hrc Hr).
  - intros Hr Hv. destruct (Hrc Hr) as [Hr0 _]. pose proof (Hsame _ Hv) as E. rewrite E in *. auto.
  - intros t p Ha. destruct (Hack t p Ha) as [Ht Hp]. split; [lia|].
    intros Hku. apply Hp. by eapply kept_until_mono.
Qed.

(** ** Handlers that write a new log *)

Lemma persist_exact rf rf' :
  persist rf = Ok rf' -> rf.(log) <> [] ->
  exists p', rf' = set_persister p' rf /\ (forall img, saved p' img -> image_of rf img)
    /\ durable p' = mkState rf.(votedFor) rf.(currentTerm).
Proof.
  unfold persist. intros Hp Hne. destruct (Z.ltb_spec 0 (zlen (log rf))) as [_|Hl];
    [|destruct (log rf); [done|rewrite zlen_cons in Hl; pose proof (zlen_nonneg l); lia]].
  apply bind_Ok in Hp as (logs & Hm & Hp). apply bind_Ok in Hp as (p' & Hs & Hp).
  apply Ok_inj in Hp as <-. exists p'. split_and!; [done| |by eapply Save_durable].
  intros img Hi. exists logs. split; [done|]. by eapply Save_latest.
Qed.

Lemma AppendEntries_exact rf args rf' reply :
  AppendEntries rf args = Ok (rf', reply) -> AppendEntriesReply.Success reply = true ->
  rf'.(log) <> [] ->
  (forall img, saved rf'.(persister) img -> image_of rf' img)
  /\ rf'.(currentTerm) = AppendEntriesArgs.Term args /\ dterm rf' = AppendEntriesArgs.Term args.
Proof.
  unfold AppendEntries. intros H Hs Hne.
  destruct (Z.ltb_spec (AppendEntriesArgs.Term args) (currentTerm rf)); [log_inv; done|].
  apply bind_Ok in H as (rf1 & H1 & H). apply bind_Ok in H as (cf & _ & H).
  assert (rf1.(currentTerm) = AppendEntriesArgs.Term args) as Et.
  { clear H. destruct (Z.ltb_spec (currentTerm rf) (AppendEntriesArgs.Term args)); log_inv; [done|lia]. }
  destruct cf as [[[xt xi] xl]|]; [log_inv; done|].
  apply bind_Ok in H as (l & _ & H). apply bind_Ok in H as (rf2 & H2 & H). apply Ok_inj in H.
  injection H as <- <-. unfold dterm.
  apply persist_exact in H2 as (p' & -> & Hd & Edur).
  - split_ifs; simpl in *; by rewrite Edur.
  - simpl. intros ->. apply Hne. apply persist_kept in H2 as (p' & -> & _). split_ifs; done.
Qed.

Lemma AppendEntries_maps rf args rf' reply :
  AppendEntries rf args = Ok (rf', reply) ->
  rf'.(matchIndex) = rf.(matchIndex) /\ rf'.(nextIndex) = rf.(nextIndex).
Proof. unfold AppendEntries. intros H. log_inv; split_ifs; done. Qed.

Lemma Start_exact rf op rf' r :
  Start rf (Some op) = Ok (rf', r) -> rf' = rf \/
  (forall img, saved rf'.(persister) img -> image_of rf' img)
  /\ rf'.(role) = rf.(role) /\ rf'.(currentTerm) = rf.(currentTerm) /\ dterm rf' = rf.(currentTerm)
  /\ rf'.(matchIndex) = rf.(matchIndex) /\ rf'.(nextIndex) = rf.(nextIndex).
Proof.
  unfold Start. intros H. destruct (bool_decide _); [left; by go_inv|right].
  apply bind_Ok in H as (rf1 & Hp & H). apply Ok_inj in H. injection H as <- <-.
  apply persist_exact in Hp as (p' & -> & Hd & Edur); [|simpl; by destruct (log rf)].
  unfold dterm. simpl in *. by rewrite Edur.
Qed.

(** The handlers of [calm] keep the maps. *)
Lemma calm_maps ids ss rf rf' :
  (forall n, n ∈ ids -> 0 <= n) -> calm ids ss rf rf' -> maps_ok rf ->
  maps_ok rf' /\ rf'.(matchIndex) = rf.(matchIndex).
Proof.
  intros Hids Hc Hm. destruct Hc as [args rf rf' reply H|args rf rf' reply msg _ H|rf rf' H
    |server reply rf rf' Hs H|rf msg cur|r rf rf' v e _ H|rf p _|rf].
  - unfold RequestVote in H. log_inv; done.
  - unfold InstallSnapshot_recv in H. log_inv; split_ifs; done.
  - unfold InstallSnapshot_finish in H. log_inv; done.
  - unfold sendInstallSnapshotToServer in H. log_inv; [done|]. split; [|done].
    destruct Hm as [Hsub Hpos]. unfold maps_ok. simpl. split.
    + intros i Hi. apply lookup_insert_is_Some'. right. by apply Hsub.
    + intros i [->|Hi]%lookup_insert_is_Some'; [by apply Hids|by apply Hpos].
  - unfold CommitCheck_done. split_ifs; done.
  - unfold SendCommitIndex in H. destruct r; [|by simplify_eq].
    repeat match goal with H : (if ?b then _ else _) = _ |- _ => destruct b eqn:? end;
      go_inv; split_ifs; done.
  - done.
  - done.
Qed.

(** ** Growth of the ghost state *)

Record grows G G' : Prop := {
  gr_hist : hist G ⊆ hist G';
  gr_led t c L F : led G !! t = Some (c, L, F) ->
    exists F', led G' !! t = Some (c, L, F') /\ F `prefix_of` F';
  gr_cands : cands G ⊆ cands G';
  gr_ballots b : b ∈ ballots G -> b ∈ ballots G';
  gr_acks a : a ∈ acks G -> a ∈ acks G'
}.

Lemma grows_refl G : grows G G.
Proof. split; try done. intros t c L F Hl. by exists F. Qed.

Lemma grows_trans G1 G2 G3 : grows G1 G2 -> grows G2 G3 -> grows G1 G3.
Proof.
  intros [h1 l1 c1 b1 a1] [h2 l2 c2 b2 a2]. split; auto; [by etrans| |by etrans].
  intros t c L F Hl. destruct (l1 t c L F Hl) as (F2 & Hl2 & ?).
  destruct (l2 t c L F2 Hl2) as (F3 & ? & ?). exists F3. split; [done|by transitivity F2].
Qed.

Lemma acked_grows G G' v t p : grows G G' -> acked G v t p -> acked G' v t p.
Proof. intros Hg (p' & Hp & Hpre). exists p'. split; [by apply (gr_acks _ _ Hg)|done]. Qed.

Lemma kept_until_grows G G' t u p : grows G G' -> kept_until G' t u p -> kept_until G t u p.
Proof.
  intros Hg Hk t' c L F Hl Ht. destruct (gr_led _ _ Hg _ _ _ _ Hl) as (F' & Hl' & _). by eapply Hk.
Qed.

Lemma match_acked_grows G G' rf : grows G G' -> match_acked G rf -> match_acked G' rf.
Proof.
  intros Hg Hm i Hi. destruct (Hm i Hi) as (p & Ha & Hle). exists p. split; [|done].
  by eapply acked_grows.
Qed.

Lemma committed_grows ids G G' t p : grows G G' -> committed ids G t p -> committed ids G' t p.
Proof.
  intros Hg (c & L & F & q & Hl & Hp & Hlen & Hnd & Hmaj & Hin & Hq).
  destruct (gr_led _ _ Hg _ _ _ _ Hl) as (F' & Hl' & ?). exists c, L, F', q.
  split_and!; try done; [by transitivity F|]. intros v Hv. eapply acked_grows; eauto.
Qed.

(** A node that does not change, while the ghost state grows elsewhere. *)
Lemma other_node G G' vs vs' m rf es :
  node_inv G vs m rf es -> grows G G' ->
  (forall t L F, led G !! t = Some (m, L, F) <-> led G' !! t = Some (m, L, F)) ->
  (forall t p, acked G' m t p -> acked G m t p) ->
  (rf.(role) = Candidate -> (m, rf.(currentTerm), m) ∈ vs' -> (m, rf.(currentTerm), m) ∈ vs) ->
  (forall v L, rf.(role) = Candidate -> cands G !! (m, rf.(currentTerm)) = Some L ->
     (v, rf.(currentTerm), m) ∈ vs' -> (v, rf.(currentTerm), m) ∈ vs
     \/ exists V, (v, rf.(currentTerm), m, V) ∈ ballots G' /\ not_behind V L) ->
  node_inv G' vs' m rf es.
Proof.
  intros [Hok Hdisk Hterm Hterms Hlead Hled Hcand Hack Hmaps] Hg Hl Ha Hv Hb. split; try done.
  - eapply node_ok_mono; [apply (gr_hist _ _ Hg)|done].
  - intros Hr. destruct (Hlead Hr) as [L HL]. exists L. by apply Hl.
  - intros L F HL. apply Hl in HL. destruct (Hled L F HL). split; [done|]. by eapply match_acked_grows.
  - intros Hr Hvm. destruct (Hcand Hr (Hv Hr Hvm)) as (L & HL & He & Hvb). exists L. split_and!.
    + eapply lookup_weaken; [done|apply (gr_cands _ _ Hg)].
    + destruct He as [He|[[[c L0] F0] HF]]; [by left|right].
      destruct (gr_led _ _ Hg _ _ _ _ HF) as (F' & HF' & _). eauto.
    + intros v Hvv. destruct (Hb v L Hr HL Hvv) as [Hold|Hnew]; [|done].
      destruct (Hvb v Hold) as (V & HV & Hnb). exists V. split; [by apply (gr_ballots _ _ Hg)|done].
  - intros t p Hp. destruct (Hack t p (Ha t p Hp)) as [Ht Hk]. split; [done|].
    intros Hku. apply Hk. by eapply kept_until_grows.
Qed.

(** ** The maps of a leader *)

(** The loop of [collectVote] over a map it extends: every match index is
    reset. *)
Lemma reset_both_all fuel x y i b (next mtch next' mtch' : gmap Z Z) :
  (forall k, is_Some (next !! k) -> 0 <= k < b) ->
  (forall k, is_Some (mtch !! k) -> is_Some (next !! k)) ->
  0 <= i <= b -> (Z.to_nat (b - i) < fuel)%nat ->
  (forall k, 0 <= k < i -> is_Some (next !! k)) ->
  (forall k v, mtch !! k = Some v -> k < i -> v = y) ->
  reset_both fuel x y i next mtch = (next', mtch') ->
  (forall k v, mtch' !! k = Some v -> v = y)
  /\ (forall k, is_Some (mtch' !! k) -> is_Some (next' !! k))
  /\ (forall k, is_Some (next' !! k) -> 0 <= k).
Proof.
  revert i next mtch. induction fuel as [|fuel IH]; intros i next mtch Hk Hsub Hi Hf Hlow Hy; [lia|].
  simpl. destruct (Z.ltb_spec i (Z.of_nat (size next))) as [Hlt|Hge].
  - pose proof (size_bounded next b Hk ltac:(lia)). intros E.
    apply (IH (i + 1) (<[i := x]> next) (<[i := y]> mtch)); try done; [| |lia|lia| |].
    + intros k [<-|Hne]%lookup_insert_is_Some; [lia|]. naive_solver.
    + intros k [<-|[Hne Hm]]%lookup_insert_is_Some; [rewrite lookup_insert_eq; by eexists|].
      rewrite lookup_insert_ne by done. auto.
    + intros k Hki. destruct (decide (k = i)) as [->|]; [rewrite lookup_insert_eq; by eexists|].
      rewrite lookup_insert_ne by done. apply Hlow. lia.
    + intros k v [[<- <-]|[Hne Hm]]%lookup_insert_Some Hki; [done|]. eapply Hy; [done|lia].
  - intros [= <- <-]. split_and!; [|done|intros k Hs; apply Hk in Hs; lia].
    intros k v Hm. apply (Hy k v Hm). destruct (decide (k < i)) as [|Hki]; [done|exfalso].
    assert (list_to_set (k :: seqZ 0 i) ⊆ dom next) as Hss.
    { intros j Hj. rewrite elem_of_list_to_set, elem_of_cons, elem_of_seqZ in Hj.
      apply elem_of_dom. destruct Hj as [->|Hj]; [apply Hsub; by eexists|apply Hlow; lia]. }
    apply subseteq_size in Hss. rewrite size_list_to_set, size_dom in Hss.
    + simpl in Hss. rewrite length_seqZ in Hss. lia.
    + constructor; [rewrite elem_of_seqZ; lia|apply NoDup_seqZ].
Qed.

Lemma collectVote_maps rf outTime rf' b :
  collectVote rf outTime = Ok (rf', b) -> maps_ok rf -> rf.(lastIncludedIndex) = 0 ->
  maps_ok rf' /\ (rf'.(role) = Leader -> rf.(role) <> Leader -> forall i, mget rf'.(matchIndex) i = 0).
Proof.
  unfold collectVote. intros H Hm Hl. destruct (is_quorum rf (voteCount rf)); [by go_inv|].
  destruct (_ && _ && _); [|by go_inv].
  destruct (reset_both _ _ _ _ _ _) as [next mtch] eqn:Hr. simpl in Hr, H.
  apply bind_Ok in H as (x & _ & H). go_inv. rewrite Hl in Hr. simpl.
  destruct Hm as [Hsub Hpos]. set (top := map_fold (fun k _ acc => Z.max k acc) (-1) (nextIndex rf)).
  assert (-1 <= top) as Ht.
  { unfold top. apply (map_fold_weak_ind (fun b _ => -1 <= b)); [lia|]. intros. lia. }
  apply (reset_both_all _ _ _ _ (top + 1)) in Hr as (Hall & Hs & Hp); [| |done|lia| | |].
  - split; [done|]. intros _ _ i. unfold mget. destruct (mtch !! i) as [v|] eqn:Hv; [|done].
    simpl. by apply Hall in Hv.
  - intros k Hk. pose proof (max_key_bound _ k Hk) as Hb. specialize (Hpos k Hk). fold top in Hb. lia.
  - unfold reset_fuel. fold top. lia.
  - intros k Hk. lia.
  - intros k v Hv Hk. assert (is_Some (matchIndex rf !! k)) as Hm by (by eexists).
    specialize (Hpos k (Hsub k Hm)). lia.
Qed.

(** ** What a candidate sends and what a voter checks *)

Lemma last_term_end rf es t :
  log_is rf es -> rf.(lastIncludedIndex) = 0 -> last_term rf = Ok t ->
  t = end_term es /\ last_index rf = Z.of_nat (length es).
Proof.
  intros Hl Ei Ht. pose proof (log_is_length rf es Hl) as Hlen.
  unfold last_index, LocalToGlobal. split; [|lia].
  destruct (log_is_term rf es (Z.of_nat (length es)) Hl Ei) as (e & _ & Ee & Hlt); [lia|].
  unfold last_term in Ht. unfold GlobalToLocal in Hlt. rewrite Ei, Z.sub_0_r in Hlt.
  replace (zlen (log rf) - 1) with (Z.of_nat (length es)) in Ht by lia.
  rewrite Hlt in Ht. injection Ht as <-. unfold end_term. by rewrite Ee, Nat2Z.id.
Qed.

Lemma StartElection_args rf es rf' args :
  log_is rf es -> rf.(lastIncludedIndex) = 0 -> StartElection rf = Ok (rf', args) ->
  RequestVoteArgs.LastLogIndex args = Z.of_nat (length es)
  /\ RequestVoteArgs.LastLogTerm args = end_term es
  /\ rf'.(matchIndex) = rf.(matchIndex) /\ rf'.(nextIndex) = rf.(nextIndex).
Proof.
  unfold StartElection. intros Hl Ei H. apply bind_Ok in H as (rf1 & Hp & H).
  apply bind_Ok in H as (lt & Hlt & H). apply Ok_inj in H. injection H as <- <-.
  apply persist_kept in Hp as (p & -> & _).
  apply (last_term_end _ es) in Hlt as [-> Hli]; [|done|done]. simpl in *. by rewrite Hli.
Qed.

(** A granted vote passed the test on the logs. *)
Lemma RequestVote_behind rf es args rf' reply L :
  log_is rf es -> rf.(lastIncludedIndex) = 0 -> RequestVote rf args = Ok (rf', reply) ->
  RequestVoteReply.VoteGranted reply = true ->
  RequestVoteArgs.LastLogIndex args = Z.of_nat (length L) ->
  RequestVoteArgs.LastLogTerm args = end_term L ->
  not_behind es L /\ rf.(currentTerm) <= RequestVoteArgs.Term args
  /\ rf'.(matchIndex) = rf.(matchIndex) /\ rf'.(nextIndex) = rf.(nextIndex).
Proof.
  unfold RequestVote. intros Hl Ei H Hg EL ET.
  destruct (Z.ltb_spec (RequestVoteArgs.Term args) (currentTerm rf)); [by go_inv|].
  apply bind_Ok in H as (rf1 & H1 & H).
  assert (rf1.(log) = rf.(log) /\ rf1.(lastIncludedIndex) = 0
    /\ rf1.(matchIndex) = rf.(matchIndex) /\ rf1.(nextIndex) = rf.(nextIndex)) as (El & Ei1 & Em & En).
  { clear H. destruct (_ <? _) in H1; log_inv; done. }
  destruct (_ || _) in H; [|by go_inv]. apply bind_Ok in H as (lt & Hlt & H).
  apply (last_term_end _ es) in Hlt as [-> Hli]; [|unfold log_is; by rewrite El|done].
  destruct (_ || _) eqn:Hup in H; [|by go_inv]. split_and!; [|done| |].
  - rewrite Hli, EL, ET in Hup. unfold not_behind. apply orb_true_iff in Hup as [Hup|Hup].
    + left. lia.
    + apply andb_true_iff in Hup. right. lia.
  - clear Hup. log_inv; done.
  - clear Hup. log_inv; done.
Qed.

End nodes.
