(* ===== verification/Completeness.v ===== *)
(** * Completeness: what a leader committed is in the log of every later leader

    The invariant of the network of Replies.v, step by step: elections, votes,
    counting, new entries, replication, replies, restarts.  A leader that moves
    its commit index has the acknowledgements of a majority, so what it
    committed stays in the log of every leader from then on, and two leaders
    never commit different entries. *)

From S2P Require Import Prelude Types Store RaftNode RaftVotes Election RaftLog LogMatching Replies.
Import Raft.

(** ** The invariant *)

Section completeness.
Context {P : Type} `{!RaftStore P} `{!RaftStoreLaws P} `{!LogStore P} `{!DurableLog P} `{!ReliableStore P}.
Variable ids : list Z.
Hypothesis ids_nodup : NoDup ids.
Hypothesis ids_nonneg : forall n, n ∈ ids -> 0 <= n.
Hypothesis ids_odd : Nat.Odd (length ids).
Implicit Types w : World P.
Implicit Types rf : Raftserver P.
Implicit Types G : Ghost.

(** A request carries the log of the leader of its term up to some index, past
    what the leader was elected with unless it carries no entry. *)
Definition msg_inv G (args : AppendEntriesArgs.t) : Prop :=
  exists c L F k prev, led G !! AppendEntriesArgs.Term args = Some (c, L, F)
    /\ AppendEntriesArgs.LeaderId args = c /\ (k <= length F)%nat
    /\ request_of args (take k F) prev
    /\ ((length L <= k)%nat \/ AppendEntriesArgs.Entries args = []).

Definition reply_inv G (r : Z * AppendEntriesArgs.t * AppendEntriesReply.t) : Prop :=
  let '(i, args, reply) := r in
  i ∈ ids /\ msg_inv G args
  /\ (AppendEntriesReply.Success reply = true ->
      exists p, acked G i (AppendEntriesArgs.Term args) p
        /\ Z.of_nat (length p)
           = AppendEntriesArgs.PrevLogIndex args + zlen (AppendEntriesArgs.Entries args)).

Record cluster_inv G w : Prop := {
  ci_world : world_inv ids (hist G) w;
  ci_node n rf : w.(nodes) !! n = Some rf -> exists es, node_inv G w.(votes) n rf es;
  ci_ghost : ghost_inv ids G w
}.

Record rinv G (s : RNet P) : Prop := {
  ri_cluster : cluster_inv G s.(net).(world);
  ri_msg args : args ∈ s.(net).(appends) -> msg_inv G args;
  ri_snapshot args : args ∈ s.(net).(snapshots) -> snapshot_ok args;
  ri_reply r : r ∈ s.(replies) -> reply_inv G r
}.

Lemma ci_election G w : cluster_inv G w -> inv ids w.
Proof. intros H. apply (wi_election ids (hist G) w), (ci_world G w H). Qed.

Lemma msg_inv_grows G G' args : grows G G' -> msg_inv G args -> msg_inv G' args.
Proof.
  intros Hg (c & L & F & k & prev & Hl & Hc & Hk & Hr & Hd).
  destruct (gr_led _ _ Hg _ _ _ _ Hl) as (F' & Hl' & F2 & ->).
  exists c, L, (F ++ F2), k, prev. rewrite length_app, take_app_le by lia. split_and!; (done || lia).
Qed.

Lemma reply_inv_grows G G' r : grows G G' -> reply_inv G r -> reply_inv G' r.
Proof.
  destruct r as [[i args] reply]. intros Hg (Hi & Hm & Hs). split_and!; [done|by eapply msg_inv_grows|].
  intros E. destruct (Hs E) as (p & Hp & Hl). exists p. split; [by eapply acked_grows|done].
Qed.

(** A node's votes do not lie ahead of its term, in memory and on disk. *)
Lemma vote_term w n t c rf :
  inv ids w -> (n, t, c) ∈ w.(votes) -> w.(nodes) !! n = Some rf ->
  t <= rf.(currentTerm) /\ t <= dterm rf.
Proof.
  intros Hel Hv Hn. destruct (inv_vote ids w Hel n t c Hv) as (_ & _ & rf' & Hn' & H1 & H2).
  rewrite Hn in Hn'. injection Hn' as <-. unfold vote_recorded, dterm in *. lia.
Qed.

Lemma led_vote G w t c L F : ghost_inv ids G w -> led G !! t = Some (c, L, F) -> (c, t, c) ∈ w.(votes).
Proof. intros Hg Hl. by apply (li_vote _ _ _ _ _ _ _ (gi_led ids G w Hg _ _ _ _ Hl)). Qed.

(** The world moves, the ghost state stays. *)
Lemma ghost_world G w w' :
  ghost_inv ids G w -> w.(votes) ⊆ w'.(votes) ->
  (forall v t c, (v, t, c) ∈ w'.(votes) -> (c, t, c) ∈ w'.(votes)) ->
  (forall c i t args, w'.(calls) !! (c, i, t) = Some (Called args) ->
     w.(calls) !! (c, i, t) = Some (Called args)) ->
  ghost_inv ids G w'.
Proof.
  intros [Hh Hl Hv Hc Hca Hb Ha] Hsub Hv' Hc'. split; try done.
  - intros t c L F HL. destruct (Hl t c L F HL) as [? ? ? ? ? ? ? ?].
    split; try done; [by eapply won_mono|set_solver].
  - eauto.
  - intros c t L HL. destruct (Hca c t L HL) as (? & ? & ?). split_and!; [done|set_solver|done].
  - intros v t c V HV. destruct (Hb v t c V HV) as (? & ? & ?). split_and!; [set_solver|done|done].
Qed.

(** One node changes and nothing else. *)
Lemma node_cluster G w n rf rf' es' :
  cluster_inv G w -> w.(nodes) !! n = Some rf ->
  world_inv ids (hist G) (set_node w n rf') -> node_inv G w.(votes) n rf' es' ->
  cluster_inv G (set_node w n rf').
Proof.
  intros [Hw Hn Hg] Hlk Hw' Hni. split; [done| |].
  - simpl. intros m rm [[<- <-]|[Hne Hm]]%lookup_insert_Some; eauto.
  - eapply ghost_world; [done|done|simpl; apply (gi_vote _ _ _ Hg)|done].
Qed.

Definition add_ack (a : Z * Z * list Entry) G : Ghost :=
  mkGhost (hist G) (led G) (cands G) (ballots G) (a :: acks G).

Lemma add_ack_grows a G : grows G (add_ack a G).
Proof. destruct G. split; simpl; try done; [intros t c L F Hl; by exists F|by right]. Qed.

Lemma acked_add v t p G u t0 p0 :
  acked (add_ack (v, t, p) G) u t0 p0 -> acked G u t0 p0 \/ (u = v /\ t0 = t /\ p0 `prefix_of` p).
Proof.
  intros (p' & [E|Hp]%elem_of_cons & Hpre); [right; by simplify_eq|left; by exists p'].
Qed.

(** A node acknowledges what it has of the log of the leader of its term. *)
Lemma ack_cluster G w v t p rf es c L F :
  cluster_inv G w -> w.(nodes) !! v = Some rf -> node_inv G w.(votes) v rf es ->
  rf.(currentTerm) = t -> t <= dterm rf -> p `prefix_of` es ->
  led G !! t = Some (c, L, F) -> p `prefix_of` F ->
  cluster_inv (add_ack (v, t, p) G) w.
Proof.
  intros Hci Hv Hni Et Hd Hpe Hl HpF. pose proof (ci_election _ _ Hci) as Hel.
  destruct Hci as [Hw Hn Hg]. pose proof (add_ack_grows (v, t, p) G) as Hgr. split; [done| |].
  - intros m rm Hm. destruct (decide (m = v)) as [->|Hne].
    + rewrite Hv in Hm. injection Hm as <-. exists es.
      destruct Hni as [? ? ? ? Hlead Hled Hcand Hack ?]. split; try done.
      * intros L0 F0 HL. destruct (Hled L0 F0 HL). split; [done|]. by eapply match_acked_grows.
      * intros t0 p0 [Ha|(_ & -> & Hp0)]%acked_add.
        -- destruct (Hack t0 p0 Ha) as [? Hk]. split; [done|]. intros Hku. apply Hk.
           by eapply (kept_until_grows _ _ _ _ _ Hgr).
        -- split; [done|]. intros _. by transitivity p.
    + destruct (Hn m rm Hm) as [es0 H0]. exists es0.
      eapply (other_node G _ (votes w) (votes w)); try done.
      * intros t0 p0 [?|(-> & _)]%acked_add; [done|by destruct Hne].
      * intros v0 L0 _ _ ?. by left.
  - destruct Hg as [Hh Hld Hvt Hc Hca Hb Ha]. split; try done.
    + intros t0 c0 L0 F0 HL. destruct (Hld t0 c0 L0 F0 HL). by split.
    + intros v0 t0 c0 V HV. destruct (Hb v0 t0 c0 V HV) as (Hvv & HokV & HVp). split_and!; [done..|].
      intros t1 p1 [Ha1|(-> & -> & _)]%acked_add Hlt Hone Hku.
      * apply (HVp t1 p1 Ha1 Hlt Hone). by eapply (kept_until_grows _ _ _ _ _ Hgr).
      * destruct (vote_term w v t0 c0 rf Hel Hvv Hv). lia.
    + intros v0 t0 p0 [E|Hp]%elem_of_cons; [|by eapply Ha]. simplify_eq. eauto.
Qed.

(** ** Steps that leave the ghost state alone *)

(** A handler that keeps the log, with the bookkeeping of calls. *)
Lemma quiet_cluster G w w' n rf rf' :
  cluster_inv G w -> inv ids w' -> w.(nodes) !! n = Some rf ->
  w'.(nodes) = <[n := rf']> w.(nodes) -> w'.(votes) = w.(votes) ->
  (forall c i t r, w'.(calls) !! (c, i, t) = Some r ->
     exists r0, w.(calls) !! (c, i, t) = Some r0 /\ (forall args, r = Called args -> r0 = r)) ->
  frame rf rf' -> kept rf rf' -> (maps_ok rf -> maps_ok rf') ->
  (match_acked G rf -> rf'.(currentTerm) = rf.(currentTerm) -> match_acked G rf') ->
  cluster_inv G w'.
Proof.
  intros Hci Hel' Hn En Ev Hc Hf Hk Hmaps Hm. pose proof (ci_election _ _ Hci) as Hel.
  pose proof Hci as [Hw Hnodes Hg]. destruct (Hnodes n rf Hn) as [es Hni].
  assert (node_inv G w.(votes) n rf' es) as Hni'.
  { eapply (calm_node G (votes w) n rf rf' es); try done.
    - by eapply kept_ok, Hni.
    - intros img. eapply kept_disk; [done|apply Hni|]. apply (nv_disk _ _ _ _ _ Hni).
    - apply Hmaps, Hni.
    - intros t c Hv. by eapply (vote_term w n t c rf).
    - intros t L F. by apply (led_vote G w). }
  split.
  - eapply (frame_change ids ids_nodup ids_nonneg ids_odd (hist G) w w' n rf rf'); try done.
    + by rewrite Ev.
    + intros c i t r Hcall. destruct (Hc c i t r Hcall) as (r0 & Hr0 & _). rewrite Ev.
      by apply (wi_call ids _ _ Hw) in Hr0.
    + by apply kept_same.
  - intros m rm. rewrite En, Ev. intros [[<- <-]|[Hne Hm']]%lookup_insert_Some; eauto.
  - eapply (ghost_world G w); [done|by rewrite Ev|rewrite Ev; apply (gi_vote _ _ _ Hg)|].
    intros c i t args Hcall. destruct (Hc c i t _ Hcall) as (r0 & Hr0 & E).
    by rewrite (E args eq_refl) in Hr0.
Qed.

Lemma calm_kept H ss rf rf' es :
  (forall args, args ∈ ss -> snapshot_ok args) -> node_ok H rf es -> calm ids ss rf rf' -> kept rf rf'.
Proof.
  intros Hs Hok. destruct 1; eauto using RequestVote_kept, InstallSnapshot_finish_kept,
    SnapshotReply_kept, CommitCheck_done_kept, SendCommitIndex_kept, background_kept, Kill_kept.
  eapply InstallSnapshot_kept; eauto.
Qed.

Lemma calm_frame ss rf rf' : calm ids ss rf rf' -> frame rf rf'.
Proof. intros Hc. eapply (net_local_frame true [] ss), calm_local, Hc. Qed.

Lemma match_acked_same G rf rf' :
  rf'.(matchIndex) = rf.(matchIndex) ->
  match_acked G rf -> rf'.(currentTerm) = rf.(currentTerm) -> match_acked G rf'.
Proof. unfold match_acked. by intros -> ? ->. Qed.

Lemma calm_cluster G w ss n rf rf' :
  cluster_inv G w -> (forall args, args ∈ ss -> snapshot_ok args) ->
  w.(nodes) !! n = Some rf -> calm ids ss rf rf' -> inv ids (set_node w n rf') ->
  cluster_inv G (set_node w n rf').
Proof.
  intros Hci Hs Hn Hc Hel'. destruct (ci_node G w Hci n rf Hn) as [es Hni].
  destruct (calm_maps ids ss rf rf' ids_nonneg Hc (nv_maps _ _ _ _ _ Hni)) as [Hmaps Hm].
  eapply (quiet_cluster G w _ n rf rf'); try done; simpl.
  - intros c i t r Hr. eauto.
  - by eapply calm_frame.
  - eapply calm_kept; [done|apply Hni|done].
  - by apply match_acked_same.
Qed.

Lemma lost_cluster G w m :
  cluster_inv G w -> m ⊆ w.(calls) -> inv ids (mkWorld w.(nodes) m w.(votes)) ->
  cluster_inv G (mkWorld w.(nodes) m w.(votes)).
Proof.
  intros [Hw Hn Hg] Hsub Hel. split; [by apply calls_subset_change|done|].
  eapply (ghost_world G w); [done|done|apply (gi_vote _ _ _ Hg)|].
  intros c i t args Hc. by eapply lookup_weaken.
Qed.

Lemma procVoteAnswer_maps rf args reply rf' b :
  procVoteAnswer rf args reply = Ok (rf', b) ->
  rf'.(matchIndex) = rf.(matchIndex) /\ rf'.(nextIndex) = rf.(nextIndex).
Proof. unfold procVoteAnswer. intros H. log_inv; done. Qed.

Lemma answer_cluster G w c i t args reply rf rf' (b : bool) :
  cluster_inv G w -> w.(calls) !! (c, i, t) = Some (Answered args reply) ->
  w.(nodes) !! c = Some rf -> procVoteAnswer rf args reply = Ok (rf', b) ->
  let w' := mkWorld (<[c := rf']> w.(nodes))
              (if b then <[(c, i, t) := Granted]> w.(calls) else delete (c, i, t) w.(calls)) w.(votes) in
  inv ids w' -> cluster_inv G w'.
Proof.
  intros Hci Hcall Hn Hp w' Hel'. destruct (procVoteAnswer_maps _ _ _ _ _ Hp) as [Em En].
  eapply (quiet_cluster G w w' c rf rf'); try done; simpl.
  - intros c' i' t' r Hr. destruct b.
    + apply lookup_insert_Some in Hr as [[[= <- <- <-] <-]|[_ Hr]]; [eexists; by split|eauto].
    + apply lookup_delete_Some in Hr as [_ Hr]. eauto.
  - by eapply procVoteAnswer_frame.
  - by eapply procVoteAnswer_kept.
  - unfold maps_ok. by rewrite Em, En.
  - by apply match_acked_same.
Qed.

(** A restarted node: its log and its term are the ones on disk. *)
Lemma restart_cluster G w n rf p msgs rf' :
  cluster_inv G w -> w.(nodes) !! n = Some rf -> reboot rf.(persister) = Ok p ->
  startWork (Make ids n p) = Ok (msgs, rf') ->
  let w' := mkWorld (<[n := rf']> w.(nodes)) (filter (fun kv => kv.1.1.1 <> n) w.(calls)) w.(votes) in
  inv ids w' -> cluster_inv G w'.
Proof.
  intros [Hw Hnodes Hg] Hn Hb Hs w' Hel'. destruct (Hnodes n rf Hn) as [es Hni].
  pose proof (restart_change ids ids_nodup ids_nonneg ids_odd _ _ _ _ _ _ _ Hw Hn Hb Hs Hel') as Hw'.
  destruct Hni as [Hok Hdisk Hterm Hterms _ _ _ Hack _].
  destruct (restart_ok (hist G) ids n (persister rf) p msgs rf') as (es' & Hok' & En & Em & Hsv & img & Hi & Ei);
    [apply (no_disk _ _ _ Hok)|done..|]. rewrite (Hdisk img Hi) in Ei. subst es'.
  apply startWork_Ok in Hs as (_ & _ & Hrole & logs & cm & Hrd).
  destruct (reboot_reads _ _ _ _ _ _ _ Hb Hrd) as [Hd Hp]. apply reboot_durable in Hb.
  assert (dterm rf' = dterm rf /\ rf'.(currentTerm) = dterm rf) as [Ed Et].
  { unfold dterm. rewrite Hp, Hb, Hd. done. }
  split; [done| |].
  - simpl. intros m rm [[<- <-]|[Hne Hm]]%lookup_insert_Some; [|eauto]. exists es.
    split; rewrite ?Ed, ?Et, ?Hrole; try done; [auto|lia| |].
    + intros L F _. split; [done|]. intros i. unfold mget. by rewrite Em, lookup_empty.
    + unfold maps_ok. rewrite En, Em. split; intros i [? Hx]; by rewrite lookup_empty in Hx.
  - eapply (ghost_world G w); [done|done|apply (gi_vote _ _ _ Hg)|]. simpl.
    intros c i t args [Hc _]%map_lookup_filter_Some. done.
Qed.

(** ** Elections *)

Definition add_cand (n t : Z) (es : list Entry) G : Ghost :=
  mkGhost (hist G) (led G) (<[(n, t) := es]> (cands G)) ((n, t, n, es) :: ballots G) (acks G).

Lemma not_behind_refl es : not_behind es es.
Proof. right. done. Qed.

(** A node stands for election with its log. *)
Lemma elect_cluster G w n rf rf' args :
  cluster_inv G w -> w.(nodes) !! n = Some rf -> StartElection rf = Ok (rf', args) ->
  let t := RequestVoteArgs.Term args in
  let w' := mkWorld (<[n := rf']> w.(nodes)) (call_peers n t args rf.(peers) w.(calls))
              ({[(n, t, n)]} ∪ w.(votes)) in
  inv ids w' -> exists G', grows G G' /\ cluster_inv G' w'.
Proof.
  intros Hci Hn Hse t w' Hel'. pose proof (ci_election _ _ Hci) as Hel.
  destruct Hci as [Hw Hnodes Hg]. destruct (Hnodes n rf Hn) as [es Hni].
  pose proof (elect_change ids ids_nodup ids_nonneg ids_odd _ _ _ _ _ _ Hw Hn Hse Hel') as Hw'.
  pose proof (StartElection_kept _ _ _ Hse) as Hk.
  pose proof (nv_ok _ _ _ _ _ Hni) as [Hlog Hlok (_ & Hlii & _) _].
  destruct (StartElection_args rf es rf' args Hlog Hlii Hse) as (Hli & Hlt & Em & Enx).
  apply StartElection_Ok in Hse as (_ & _ & Et & _ & Er & _ & Ed & Eat & _).
  assert (t = rf.(currentTerm) + 1) as Ht by done.
  assert (forall c, (n, t, c) ∉ w.(votes)) as Hnov.
  { intros c Hv. destruct (vote_term w n t c rf Hel Hv Hn). lia. }
  assert (forall v, (v, t, n) ∉ w.(votes)) as Hnov'.
  { intros v Hv. apply (gi_vote _ _ _ Hg) in Hv. by apply (Hnov n). }
  assert (cands G !! (n, t) = None) as Hnc.
  { destruct (cands G !! (n, t)) as [L|] eqn:E; [|done].
    destruct (gi_cand _ _ _ Hg _ _ _ E) as (_ & Hv & _). by apply Hnov in Hv. }
  assert (grows G (add_cand n t es G)) as Hgr.
  { split; simpl; try done; [intros t0 c L F Hl; by exists F|by apply insert_subseteq|by right]. }
  exists (add_cand n t es G). split; [done|].
  pose proof (nv_term _ _ _ _ _ Hni) as Hterm.
  assert (dterm rf' = t) as Edt by (unfold dterm; by rewrite Ed, Ht).
  split; [done| |].
  - simpl. intros m rm [[<- <-]|[Hne Hm]]%lookup_insert_Some.
    + exists es. destruct Hni as [Hok Hdisk _ Hterms _ _ _ Hack Hmaps].
      split; rewrite ?Edt, ?Et, <- ?Ht, ?Er; try done.
      * by eapply kept_ok.
      * intros img. by eapply kept_disk.
      * lia.
      * intros e He. specialize (Hterms e He). lia.
      * intros L F Hl. apply (led_vote G w) in Hl; [|done]. by apply Hnov in Hl.
      * intros _ _. exists es. simpl. rewrite lookup_insert_eq. split_and!; [done|by left|].
        intros v [Hv|Hv]%elem_of_union; [|by apply Hnov' in Hv]. apply elem_of_singleton in Hv.
        simplify_eq. exists es. split; [by left|apply not_behind_refl].
      * intros t0 p Ha. destruct (Hack t0 p Ha) as [? Hp]. split; [lia|]. intros Hku. apply Hp.
        eapply kept_until_mono; [|eapply kept_until_grows; [exact Hgr|exact Hku]]. lia.
      * unfold maps_ok. by rewrite Em, Enx.
    + destruct (Hnodes m rm Hm) as [es0 H0]. exists es0.
      eapply (other_node G _ (votes w)); try done; set_solver.
  - pose proof Hg as [Hh Hl Hv Hc Hca Hb Ha]. split; try done; simpl.
    + intros t0 c L F HL. destruct (Hl t0 c L F HL) as [? ? ? ? ? ? ? (q & ? & ? & Hq)].
      split; try done; [by eapply (won_mono ids ids_nodup ids_nonneg ids_odd w); [set_solver|]|set_solver|].
      exists q. split_and!; [done..|]. intros v Hvq. destruct (Hq v Hvq) as (V & HV & ?).
      exists V. split; [by right|done].
    + intros v t0 c [E|Hv0]%elem_of_union; [|apply Hv in Hv0; set_solver].
      apply elem_of_singleton in E. simplify_eq. set_solver.
    + intros c i t0 args0 [(j & _ & [= -> -> ->] & [= ->])|Hcall]%call_peers_lookup.
      * exists es. by rewrite lookup_insert_eq.
      * destruct (Hc c i t0 args0 Hcall) as (L & HL & ?). exists L. split; [|done].
        rewrite lookup_insert_ne; [done|]. intros [= <- <-]. congruence.
    + intros c t0 L [[[= <- <-] <-]|[_ HL]]%lookup_insert_Some.
      * split_and!; [lia|set_solver|]. intros e He. apply (nv_terms _ _ _ _ _ Hni) in He. lia.
      * destruct (Hca c t0 L HL) as (? & ? & ?). split_and!; [done|set_solver|done].
    + intros v t0 c V [[= -> -> -> ->]|HV]%elem_of_cons.
      * split_and!; [set_solver|done|]. intros t1 p Hp _ _ Hku.
        destruct (nv_acked _ _ _ _ _ Hni t1 p Hp) as [_ Hp2]. apply Hp2.
        eapply kept_until_mono; [|eapply kept_until_grows; [exact Hgr|exact Hku]]. lia.
      * destruct (Hb v t0 c V HV) as (? & ? & Hp). split_and!; [set_solver|done|done].
Qed.

(** The log a voter had counts only while the candidate still stands. *)
Lemma vote_cluster G w c i t args rf rf' reply :
  cluster_inv G w -> w.(calls) !! (c, i, t) = Some (Called args) -> w.(nodes) !! i = Some rf ->
  RequestVote rf args = Ok (rf', reply) ->
  let w' := mkWorld (<[i := rf']> w.(nodes)) (<[(c, i, t) := Answered args reply]> w.(calls))
              (if RequestVoteReply.VoteGranted reply then {[(i, t, c)]} ∪ w.(votes) else w.(votes)) in
  inv ids w' -> exists G', grows G G' /\ cluster_inv G' w'.
Proof.
  intros Hci Hcall Hn Hrv w' Hel'. pose proof (ci_election _ _ Hci) as Hel.
  pose proof Hci as [Hw Hnodes Hg]. destruct (Hnodes i rf Hn) as [es Hni].
  assert (calm ids [] rf rf') as Hcalm by (by eapply c_RequestVote).
  destruct (calm_maps ids [] rf rf' ids_nonneg Hcalm (nv_maps _ _ _ _ _ Hni)) as [Hmaps Hm].
  destruct (inv_call ids w Hel c i t _ Hcall) as ([Hic _]%elem_of_others & rc & Hrc & _ & Ht & _).
  pose proof (RequestVote_kept _ _ _ _ Hrv) as Hk. pose proof (calm_frame [] _ _ Hcalm) as Hf.
  assert (forall c0 i0 t0 r, w'.(calls) !! (c0, i0, t0) = Some r -> exists r0,
     w.(calls) !! (c0, i0, t0) = Some r0 /\ (forall args, r = Called args -> r0 = r)) as Hcs.
  { simpl. intros c0 i0 t0 r [[[= <- <- <-] <-]|[_ Hr]]%lookup_insert_Some; [eexists; by split|eauto]. }
  destruct (RequestVoteReply.VoteGranted reply) eqn:Hgr.
  2: { exists G. split; [apply grows_refl|].
       eapply (quiet_cluster G w w' i rf rf'); try done. by apply match_acked_same. }
  destruct (gi_call _ _ _ Hg _ _ _ _ Hcall) as (L & HL & ELi & ELt).
  pose proof (nv_ok _ _ _ _ _ Hni) as [Hlog Hlok (_ & Hlii & _) _].
  destruct (RequestVote_behind rf es args rf' reply L) as (Hnb & Hle & _); [done..|]. rewrite Ht in Hle.
  assert (exists bs : list (Z * Z * Z * list Entry), (forall b, b ∈ ballots G -> b ∈ bs)
    /\ (forall b, b ∈ bs -> b ∈ ballots G \/ b = (i, t, c, es) /\ rc.(role) = Candidate /\ rc.(currentTerm) = t)
    /\ (rc.(role) = Candidate -> rc.(currentTerm) = t -> (i, t, c, es) ∈ bs)) as (bs & Hsub & Hnew & Hadd).
  { destruct (decide (rc.(role) = Candidate /\ rc.(currentTerm) = t)) as [[]|Hno].
    - exists ((i, t, c, es) :: ballots G). split_and!; [by right| |by left].
      intros b [->|]%elem_of_cons; auto.
    - exists (ballots G). split_and!; [done|by left|tauto]. }
  set (G' := mkGhost (hist G) (led G) (cands G) bs (acks G)).
  assert (grows G G') as Hgrow by (split; simpl; try done; intros t0 c0 L0 F Hl; by exists F).
  exists G'. split; [done|].
  assert (node_inv G w.(votes) i rf' es) as Hni'.
  { eapply (calm_node G (votes w) i rf rf' es); try done.
    - by eapply kept_ok, Hni.
    - intros img. eapply kept_disk; [done|apply Hni|]. apply (nv_disk _ _ _ _ _ Hni).
    - intros t0 c0 Hv. by eapply (vote_term w i t0 c0 rf).
    - intros t0 L0 F. by apply (led_vote G w).
    - by apply match_acked_same. }
  split.
  - eapply (frame_change ids ids_nodup ids_nonneg ids_odd (hist G) w w' i rf rf'); try done.
    + simpl. set_solver.
    + intros c0 i0 t0 r Hr. destruct (Hcs c0 i0 t0 r Hr) as (r0 & Hr0 & _).
      apply (wi_call ids _ _ Hw) in Hr0. simpl. set_solver.
    + by apply kept_same.
  - intros m rm Hm'. assert (exists es0, node_inv G w.(votes) m rm es0) as [es0 H0].
    { simpl in Hm'. apply lookup_insert_Some in Hm' as [[<- <-]|[_ Hm']]; eauto. }
    exists es0. eapply (other_node G G' (votes w)); try done.
    + simpl. intros _ [Hx|]%elem_of_union; [|done]. apply elem_of_singleton in Hx. by simplify_eq.
    + simpl. intros v L0 Hr HL0 [Hx|]%elem_of_union; [right|by left].
      apply elem_of_singleton in Hx. injection Hx as -> <- ->. exists es.
      simpl in Hm'. rewrite lookup_insert_ne, Hrc in Hm' by congruence. injection Hm' as <-.
      rewrite HL in HL0. injection HL0 as <-. auto.
  - pose proof Hg as [Hh Hl Hv Hc Hca Hb Ha]. split; try done; simpl.
    + intros t0 c0 L0 F HL0. destruct (Hl t0 c0 L0 F HL0) as [? ? ? ? ? ? ? (q & ? & ? & Hq)].
      split; try done; [by eapply (won_mono ids ids_nodup ids_nonneg ids_odd w); [simpl; set_solver|]|simpl; set_solver|].
      exists q. split_and!; [done..|]. intros v Hvq. destruct (Hq v Hvq) as (V & HV & ?).
      exists V. split; [by apply Hsub|done].
    + intros v t0 c0 [E|Hv0]%elem_of_union; [|apply Hv in Hv0; set_solver].
      apply elem_of_singleton in E. simplify_eq. apply (wi_call ids _ _ Hw) in Hcall. set_solver.
    + intros c0 i0 t0 args0 [[_ ?]|[_ Hr]]%lookup_insert_Some; [done|eauto].
    + intros c0 t0 L0 HL0. destruct (Hca c0 t0 L0 HL0) as (? & ? & ?). split_and!; [done|set_solver|done].
    + intros v t0 c0 V [HV|([= -> -> -> ->] & Hrole & Hct)]%Hnew.
      * destruct (Hb v t0 c0 V HV) as (? & ? & Hp). split_and!; [set_solver|done|done].
      * split_and!; [set_solver|done|]. intros t1 p Hp Hlt Hone Hku.
        destruct (nv_acked _ _ _ _ _ Hni t1 p Hp) as [_ Hp2]. apply Hp2.
        pose proof (nv_term _ _ _ _ _ Hni). intros t2 c2 L2 F2 Hl2 Ht2.
        destruct (decide (t2 = t)) as [->|]; [|eapply Hku; [exact Hl2|lia]]. exfalso.
        rewrite (Hone c2 L2 F2 Hl2) in Hl2. destruct (Hnodes c rc Hrc) as [ec Hec].
        rewrite <- Hct in Hl2. by destruct (nv_led _ _ _ _ _ Hec _ _ Hl2).
Qed.

Definition add_leader (t c : Z) (es : list Entry) G : Ghost :=
  mkGhost (hist G) (<[t := (c, es, es)]> (led G)) (cands G) (ballots G) (acks G).

Lemma add_leader_grows t c es G : led G !! t = None -> grows G (add_leader t c es G).
Proof.
  intros Hn. split; simpl; try done. intros t0 c0 L F Hl. exists F. split; [|done].
  rewrite lookup_insert_ne; [done|congruence].
Qed.

(** The ghost state of a term that gets its leader. *)
Lemma add_leader_ghost G w w' t c L :
  ghost_inv ids G w -> led G !! t = None -> cands G !! (c, t) = Some L -> log_ok (hist G) L ->
  won ids w t c -> votes_backed G w.(votes) c t L ->
  w'.(votes) = w.(votes) -> w'.(calls) ⊆ w.(calls) ->
  ghost_inv ids (add_leader t c L G) w'.
Proof.
  intros Hg Hnone Hcand Hlog Hwon Hbk Ev Hsub. pose proof (add_leader_grows t c L G Hnone) as Hgr.
  assert (won ids w' t c) as Hwon' by (unfold won in *; by rewrite Ev).
  pose proof Hg as [Hh Hl Hv Hc Hca Hb Ha]. split; simpl; rewrite ?Ev; try done.
  - intros t0 i p Hp. destruct (Hh t0 i p Hp) as (c0 & L0 & F0 & Hl0 & ? & ?). exists c0, L0, F0.
    split; [|done]. rewrite lookup_insert_ne; [done|congruence].
  - intros t0 c0 L0 F0 [[<- [= <- <- <-]]|[_ HL]]%lookup_insert_Some.
    + destruct (Hca c t L Hcand) as (? & ? & ?). destruct Hwon as (q & ? & ? & Hq).
      split; simpl; rewrite ?Ev; try done.
      * intros e. rewrite drop_all. by intros ?%elem_of_nil.
      * exists q. split_and!; [done..|]. intros v Hvq. apply Hbk, Hq, Hvq.
    + destruct (Hl t0 c0 L0 F0 HL). split; simpl; rewrite ?Ev; try done. unfold won in *. by rewrite Ev.
  - intros c0 i t0 args Hcall. eapply Hc, lookup_weaken; eauto.
  - intros v t0 c0 V HV. destruct (Hb v t0 c0 V HV) as (? & ? & Hp). split_and!; [done..|].
    intros t1 p Hp1 Hlt Hone Hku. apply (Hp t1 p Hp1 Hlt); [|by eapply (kept_until_grows _ _ _ _ _ Hgr)].
    intros c1 L1 F1 Hl1. eapply (Hone c1 L1 F1). rewrite lookup_insert_ne; [done|congruence].
  - intros v t0 p Hp. destruct (Ha v t0 p Hp) as (c0 & L0 & F0 & Hl0 & ?). exists c0, L0, F0.
    split; [|done]. rewrite lookup_insert_ne; [done|congruence].
Qed.

(** A counted vote may make a leader: the first of its term. *)
Lemma count_cluster G w c i t rf rf' outTime b :
  cluster_inv G w -> w.(calls) !! (c, i, t) = Some Granted -> w.(nodes) !! c = Some rf ->
  collectVote rf outTime = Ok (rf', b) ->
  let w' := mkWorld (<[c := rf']> w.(nodes)) (delete (c, i, t) w.(calls)) w.(votes) in
  inv ids w' -> exists G', grows G G' /\ cluster_inv G' w'.
Proof.
  intros Hci Hcall Hn Hcv w' Hel'. pose proof (ci_election _ _ Hci) as Hel.
  pose proof Hci as [Hw Hnodes Hg]. destruct (Hnodes c rf Hn) as [es Hni].
  pose proof (count_change ids ids_nodup ids_nonneg ids_odd _ _ _ _ _ _ _ _ _ Hw Hcall Hn Hcv Hel') as Hw'.
  pose proof (collectVote_kept _ _ _ _ Hcv) as Hk. pose proof Hni as [Hok Hdisk Hterm Hterms _ Hled Hcand Hack Hmaps].
  pose proof (no_plain _ _ _ Hok) as (_ & Hlii & _).
  destruct (collectVote_maps _ _ _ _ Hcv Hmaps Hlii) as [Hmaps' Hzero].
  apply collectVote_Ok in Hcv as (_ & _ & Et & _ & Ep & Hrole).
  destruct (inv_call ids w Hel c i t _ Hcall) as (_ & rc & Hrc & _ & _ & -> & Hr0 & _).
  rewrite Hn in Hrc. injection Hrc as <-. pose proof (wi_call ids _ _ Hw _ _ _ _ Hcall) as Hv.
  assert (dterm rf' = dterm rf) as Ed by (unfold dterm; by rewrite Ep).
  destruct Hrole as [[Er _]|(_ & Er & _)].
  - exists G. split; [apply grows_refl|]. split; [done| |].
    + simpl. intros m rm [[<- <-]|[_ Hm]]%lookup_insert_Some; [|eauto]. exists es.
      split; rewrite ?Ed, ?Et, ?Er, ?Hr0, ?Ep; try done; [by eapply kept_ok| |by auto].
      intros L F HL. by destruct (Hled L F HL).
    + eapply (ghost_world G w); [done|done|apply (gi_vote _ _ _ Hg)|].
      simpl. by intros c0 i0 t0 args [_ Hc]%lookup_delete_Some.
  - assert (won ids w (currentTerm rf) c) as Hwon.
    { rewrite <- Et. eapply (inv_leader ids w' Hel' c rf'); [apply lookup_insert_eq|done]. }
    assert (led G !! rf.(currentTerm) = None) as Hnone.
    { destruct (led G !! _) as [[[c0 L0] F0]|] eqn:HL; [exfalso|done].
      assert (c0 = c) as -> by (eapply (won_once ids); [..|exact Hwon]; try done; by apply (li_won _ _ _ _ _ _ _ (gi_led _ _ _ Hg _ _ _ _ HL))).
      by destruct (Hled L0 F0 eq_refl). }
    destruct (Hcand Hr0 Hv) as (L & HL & [->|[x Hx]] & Hbk); [|congruence].
    pose proof (add_leader_grows _ c es _ Hnone) as Hgr.
    exists (add_leader (currentTerm rf) c es G). split; [done|]. split; [done| |].
    + simpl. intros m rm [[<- <-]|[Hne Hm]]%lookup_insert_Some.
      * exists es. split; rewrite ?Ed, ?Et, ?Er, ?Ep; try done; [by eapply kept_ok| | |].
        -- intros _. exists es. apply lookup_insert_eq.
        -- intros L F _. split; [done|]. intros j Hj. rewrite Hzero in Hj; [lia|done|by rewrite Hr0].
        -- intros t0 p Ha. destruct (Hack t0 p Ha) as [? Hp]. split; [done|]. intros Hku. apply Hp.
           by eapply (kept_until_grows _ _ _ _ _ Hgr).
      * destruct (Hnodes m rm Hm) as [es0 H0]. exists es0.
        eapply (other_node G _ (votes w)); try done; [|by left].
        simpl. intros t0 L F. rewrite lookup_insert_Some. naive_solver congruence.
    + eapply (add_leader_ghost G w); try done; [apply Hok|apply delete_subseteq].
Qed.

(** ** New entries *)

(** The leader [n] of term [t], elected with [L], extends its log [es]. *)
Definition add_entry (n t : Z) (L es : list Entry) (e : Entry) G : Ghost :=
  mkGhost (<[(t, S (length es)) := es ++ [e]]> (hist G)) (<[t := (n, L, es ++ [e])]> (led G))
    (cands G) (ballots G) (acks G).

Lemma add_entry_grows n t L es e G :
  led G !! t = Some (n, L, es) -> hist G !! (t, S (length es)) = None -> grows G (add_entry n t L es e G).
Proof.
  intros Hl Hn. split; simpl; try done; [by apply insert_subseteq|]. intros t0 c0 L0 F Hl0.
  destruct (decide (t = t0)) as [<-|].
  - rewrite lookup_insert_eq. rewrite Hl in Hl0. injection Hl0 as <- <- <-.
    eexists. split; [done|]. by apply prefix_app_r.
  - rewrite lookup_insert_ne by done. by exists F.
Qed.

Lemma add_entry_ghost G w w' n t L es e :
  ghost_inv ids G w -> led G !! t = Some (n, L, es) -> hist G !! (t, S (length es)) = None ->
  Term e = t -> log_ok (hist (add_entry n t L es e G)) (es ++ [e]) ->
  w'.(votes) = w.(votes) -> w'.(calls) = w.(calls) ->
  ghost_inv ids (add_entry n t L es e G) w'.
Proof.
  intros Hg HL Hnone Ht Hlog Ev Ec. pose proof (add_entry_grows n t L es e G HL Hnone) as Hgr.
  pose proof (gr_hist _ _ Hgr) as Hsub. pose proof (gi_led _ _ _ Hg _ _ _ _ HL) as HLi.
  assert (length L <= length es)%nat as Hlen by (apply prefix_length, (li_prefix _ _ _ _ _ _ _ HLi)).
  pose proof Hg as [Hh Hl Hv Hc Hca Hb Ha]. split; simpl; rewrite ?Ev, ?Ec; try done.
  - intros t0 i p [[[= <- <-] <-]|[_ Hp]]%lookup_insert_Some.
    + exists n, L, (es ++ [e]). rewrite lookup_insert_eq, length_app. simpl.
      split_and!; [done|lia|lia|]. by rewrite take_ge by (rewrite length_app; simpl; lia).
    + destruct (Hh t0 i p Hp) as (c0 & L0 & F0 & Hl0 & Hi & ->).
      destruct (gr_led _ _ Hgr _ _ _ _ Hl0) as (F' & Hl' & F2 & ->). exists c0, L0, (F0 ++ F2).
      rewrite length_app, take_app_le by lia. split_and!; (done || lia).
  - intros t0 c0 L0 F0 [[<- [= <- <- <-]]|[_ HL0]]%lookup_insert_Some.
    + destruct HLi as [? ? ? ? Hnew Hwon ? ?]. split; simpl; rewrite ?Ev; try done.
      * by apply prefix_app_r.
      * intros x. rewrite drop_app_le by done. intros [Hx|Hx]%elem_of_app; [auto|].
        apply list_elem_of_singleton in Hx as ->. done.
      * unfold won in *. by rewrite Ev.
    + destruct (Hl t0 c0 L0 F0 HL0) as [? ? ? ? ? Hwon ? ?].
      split; simpl; rewrite ?Ev; try done; [by eapply log_ok_mono|]. unfold won in *. by rewrite Ev.
  - intros v t0 c0 V HV. destruct (Hb v t0 c0 V HV) as (? & ? & Hp).
    split_and!; [done|by eapply log_ok_mono|]. intros t1 p Hp1 Hlt Hone Hku.
    apply (Hp t1 p Hp1 Hlt); [|by eapply (kept_until_grows _ _ _ _ _ Hgr)].
    intros c1 L1 F1 Hl1. destruct (gr_led _ _ Hgr _ _ _ _ Hl1) as (F' & Hl' & _). eauto.
  - intros v t0 p Hp. destruct (Ha v t0 p Hp) as (c0 & L0 & F0 & Hl0 & ?).
    destruct (gr_led _ _ Hgr _ _ _ _ Hl0) as (F' & Hl' & ?). exists c0, L0, F'. split; [done|].
    by transitivity F0.
Qed.

Lemma leads_of G w n rf es :
  ghost_inv ids G w -> node_inv G w.(votes) n rf es -> leads (hist G) w n rf es.
Proof.
  intros Hg Hni Hr. destruct (nv_leader _ _ _ _ _ Hni Hr) as [L HL]. split; [by eapply led_vote|].
  intros i p Hp. destruct (gi_hist _ _ _ Hg _ _ _ Hp) as (c & L0 & F & HF & Hi & _).
  rewrite HL in HF. injection HF as <- <- <-. lia.
Qed.

Lemma set_node_same w n rf : w.(nodes) !! n = Some rf -> set_node w n rf = w.
Proof. intros Hn. unfold set_node. rewrite insert_id by done. by destruct w. Qed.

Lemma start_cluster G w n rf rf' op r :
  cluster_inv G w -> w.(nodes) !! n = Some rf -> Start rf (Some op) = Ok (rf', r) ->
  inv ids (set_node w n rf') ->
  exists G', grows G G' /\ cluster_inv G' (set_node w n rf').
Proof.
  intros Hci Hn Hst Hel'. pose proof Hci as [Hw Hnodes Hg]. destruct (Hnodes n rf Hn) as [es Hni].
  pose proof (leads_of G w n rf es Hg Hni) as Hlead. pose proof (nv_ok _ _ _ _ _ Hni) as Hok.
  destruct (start_change ids ids_nodup ids_nonneg ids_odd _ _ _ _ _ _ _ _ Hw Hn Hok Hlead Hst Hel')
    as [->|(Hr & _ & Hw' & Hok')].
  { exists G. split; [apply grows_refl|]. by rewrite set_node_same. }
  destruct (nv_leader _ _ _ _ _ Hni Hr) as [L HL].
  assert (hist G !! (rf.(currentTerm), S (length es)) = None) as Hnone.
  { destruct (hist G !! _) as [p|] eqn:E; [|done]. destruct (Hlead Hr) as [_ Hmax].
    specialize (Hmax _ _ E). lia. }
  set (e := mkEntry rf.(currentTerm) (Some op)) in *.
  pose proof (add_entry_grows n _ L es e G HL Hnone) as Hgr.
  exists (add_entry n rf.(currentTerm) L es e G). split; [done|].
  destruct (Start_exact _ _ _ _ Hst) as [->|(Hdisk' & Er & Et & Ed & Em & En)].
  { destruct (no_log _ _ _ Hok) as (ph & El & _), (no_log _ _ _ Hok') as (ph' & El' & _).
    rewrite El in El'. apply (f_equal length) in El'. simpl in El'. rewrite !length_map, length_app in El'.
    simpl in El'. lia. }
  split; [done| |by eapply add_entry_ghost; try done; apply Hok'].
  simpl. intros m rm [[<- <-]|[Hne Hm]]%lookup_insert_Some.
  - exists (es ++ [e]). destruct Hni as [_ _ Hterm Hterms _ Hled _ Hack Hmaps].
    split; rewrite ?Ed, ?Et, ?Er, ?Hr; try done; try lia.
    + intros img Hi. eapply (image_entries _ rf'); [apply Hok'|apply Hok'|by apply Hdisk'].
    + intros x [Hx|Hx]%elem_of_app; [specialize (Hterms x Hx); lia|].
      by apply list_elem_of_singleton in Hx as ->.
    + intros _. exists L. apply lookup_insert_eq.
    + intros L0 F0 _. split; [done|]. destruct (Hled L es HL) as [_ Hma].
      eapply match_acked_same; [done| |done]. by eapply match_acked_grows.
    + intros t p Ha. destruct (Hack t p Ha) as [? Hp]. split; [lia|]. intros Hku.
      apply prefix_app_r, Hp. eapply kept_until_mono; [|eapply kept_until_grows; [exact Hgr|exact Hku]]. lia.
    + unfold maps_ok. by rewrite Em, En.
  - destruct (Hnodes m rm Hm) as [es0 H0]. exists es0.
    eapply (other_node G _ (votes w)); try done; [|by left].
    simpl. intros t0 L0 F0. rewrite lookup_insert_Some. split; [|naive_solver].
    intros HL0. right. split; [|done]. congruence.
Qed.

(** ** Replication *)

Lemma node_log_nonempty H rf es : node_ok H rf es -> rf.(log) <> [].
Proof. intros [(ph & -> & _) _ _ _]. done. Qed.

(** A receiver whose log is replaced by the leader's, up to an index. *)
Lemma replaced_node G w n rf es rf' args c L F k :
  ghost_inv ids G w -> inv ids w -> w.(nodes) !! n = Some rf -> node_inv G w.(votes) n rf es ->
  let t := AppendEntriesArgs.Term args in
  let ls := take k F in
  led G !! t = Some (c, L, F) -> frame rf rf' -> node_ok (hist G) rf' ls ->
  (forall img, saved rf'.(persister) img -> image_of rf' img) ->
  rf.(currentTerm) <= t -> rf'.(currentTerm) = t -> dterm rf' = t ->
  rf'.(matchIndex) = rf.(matchIndex) -> rf'.(nextIndex) = rf.(nextIndex) ->
  rf'.(role) <> Leader -> (length L <= k)%nat -> ~ ls `prefix_of` es ->
  node_inv G w.(votes) n rf' ls.
Proof.
  intros Hg Hel Hn Hni t ls Hl Hf Hok' Hdisk Hle Et Ed Em Enx Hr Hk Hnp.
  pose proof (gi_led _ _ _ Hg _ _ _ _ Hl) as Hli. pose proof (li_pos _ _ _ _ _ _ _ Hli).
  destruct Hni as [_ _ Hterm _ _ Hled Hcand Hack Hmaps]. pose proof Hf as (_ & _ & _ & _ & _ & Hrc).
  assert ((n, t, n) ∈ w.(votes) -> t = rf.(currentTerm)) as Hsame.
  { intros Hv. destruct (vote_term w n t n rf Hel Hv Hn). lia. }
  split; rewrite ?Ed, ?Et; try done; try lia.
  - intros img Hi. eapply image_entries; [apply Hok'|apply Hok'|by apply Hdisk].
  - intros e He. eapply (led_terms ids G w); [done|]. by eapply subseteq_take.
  - intros L0 F0 Hl0. pose proof (Hsame (led_vote _ _ _ _ _ _ Hg Hl0)) as E. rewrite E in Hl0.
    destruct (Hled L0 F0 Hl0) as [Hnc Hma]. split; [intros Hc; by destruct (Hrc Hc)|].
    eapply match_acked_same; [done|done|congruence].
  - intros Hc Hv. pose proof (Hsame Hv) as E. rewrite E in *. destruct (Hrc Hc) as [Hc0 _].
    destruct (Hcand Hc0 Hv) as (L0 & HL0 & _ & ?). exists L0. split_and!; [done| |done]. right. by eexists.
  - intros t0 p Ha. destruct (Hack t0 p Ha) as [Ht0 Hp]. split; [lia|]. intros Hku.
    destruct (decide (t0 = t)) as [->|Hne].
    + assert (p `prefix_of` es) as Hpe by (apply Hp; intros t1 ? ? ? ? ?; lia).
      destruct Ha as (p' & Hp' & Hpre). destruct (gi_ack _ _ _ Hg _ _ _ Hp') as (c0 & L0 & F0 & Hl0 & HpF).
      rewrite Hl in Hl0. injection Hl0 as <- <- <-.
      destruct (prefix_weak_total p ls F) as [?|Hx]; [by transitivity p'|apply prefix_take|done|].
      destruct Hnp. by transitivity p.
    + assert (p `prefix_of` L) as HpL by (eapply Hku; [done|lia]). transitivity L; [done|].
      destruct (li_prefix _ _ _ _ _ _ _ Hli) as [F2 EF]. unfold ls. rewrite EF, take_app_ge by lia.
      by apply prefix_app_r.
  - unfold maps_ok. by rewrite Em, Enx.
Qed.

(** What the receiver of a request has then; an accepted request leaves it with
    what was sent, on disk. *)
Lemma deliver_node G w n rf es rf' args reply c L F k prev :
  ghost_inv ids G w -> inv ids w -> w.(nodes) !! n = Some rf -> node_inv G w.(votes) n rf es ->
  led G !! AppendEntriesArgs.Term args = Some (c, L, F) ->
  request_of args (take k F) prev ->
  ((length L <= k)%nat \/ AppendEntriesArgs.Entries args = []) ->
  shortcut_sound rf args -> AppendEntries rf args = Ok (rf', reply) ->
  exists es', node_inv G w.(votes) n rf' es'
    /\ (AppendEntriesReply.Success reply = true -> take k F `prefix_of` es').
Proof.
  intros Hg Hel Hn Hni Hl Hreq Hcov Hsc Hae. set (ls := take k F) in *.
  pose proof (gi_led _ _ _ Hg _ _ _ _ Hl) as Hli. pose proof (nv_ok _ _ _ _ _ Hni) as Hok.
  assert (log_ok (hist G) ls) as Hls by (apply log_ok_take, (li_log _ _ _ _ _ _ _ Hli)).
  destruct (AppendEntries_result _ _ _ _ _ _ _ _ Hok Hls Hreq Hsc Hae) as (es' & Hok' & Hlead & Hres).
  pose proof (AppendEntries_frame _ _ _ _ Hae) as Hf.
  destruct (AppendEntries_maps _ _ _ _ Hae) as [Em Enx].
  destruct (AppendEntries_disk _ _ _ _ Hae (no_plain _ _ _ Hok)) as [_ Hdisk].
  assert (es' = es -> node_inv G w.(votes) n rf' es') as Hcalm.
  { intros ->. eapply (calm_node G (votes w) n rf rf' es); try done.
    - intros img Hi. destruct (Hdisk img Hi) as [?|[?|?]]; [by apply (nv_disk _ _ _ _ _ Hni)| |];
        eapply image_entries; [apply Hok|apply Hok|done|apply Hok'|apply Hok'|done].
    - unfold maps_ok. rewrite Em, Enx. apply Hni.
    - intros t0 c0 Hv. by eapply (vote_term w n t0 c0 rf).
    - intros t0 L0 F0. by apply (led_vote G w).
    - by apply match_acked_same. }
  exists es'. destruct (AppendEntriesReply.Success reply) eqn:Hs; [|split; [by apply Hcalm|done]].
  destruct Hres as (Hle & Hpre & Hm).
  destruct (AppendEntries_exact _ _ _ _ Hae Hs (node_log_nonempty _ _ _ Hok')) as (Hex & Et & Ed).
  destruct (decide (role rf' = Leader)) as [Hr|Hr].
  - pose proof (Hcalm (Hlead Hr)) as Hni'. split; [done|]. intros _.
    destruct (nv_leader _ _ _ _ _ Hni' Hr) as [L0 HL0]. rewrite Et, Hl in HL0.
    injection HL0 as _ _ <-. apply prefix_take.
  - destruct (Hm Hr) as [[-> ?]|[-> Hnp]]; [split; [by apply Hcalm|done]|split; [|done]].
    eapply (replaced_node G w n rf es rf' args c L F k); try done.
    destruct Hcov as [?|Hnil]; [done|exfalso]. apply Hnp.
    destruct Hreq as (_ & _ & _ & Ees). rewrite Hnil in Ees. symmetry in Ees.
    apply map_eq_nil in Ees. rewrite <- (take_drop prev ls), Ees, app_nil_r. done.
Qed.

Lemma request_length args ls prev :
  request_of args ls prev ->
  Z.of_nat (length ls) = AppendEntriesArgs.PrevLogIndex args + zlen (AppendEntriesArgs.Entries args).
Proof.
  intros (Hle & -> & _ & ->). unfold zlen. rewrite length_map, length_drop. lia.
Qed.

Lemma deliver_cluster G w n rf rf' args reply :
  cluster_inv G w -> w.(nodes) !! n = Some rf -> msg_inv G args -> shortcut_sound rf args ->
  AppendEntries rf args = Ok (rf', reply) -> inv ids (set_node w n rf') ->
  exists G', grows G G' /\ cluster_inv G' (set_node w n rf') /\ reply_inv G' (n, args, reply).
Proof.
  intros Hci Hn Hmsg Hsc Hae Hel'. pose proof (ci_election _ _ Hci) as Hel.
  pose proof Hci as [Hw Hnodes Hg]. destruct (Hnodes n rf Hn) as [es Hni].
  pose proof Hmsg as (c & L & F & k & prev & Hl & _ & Hk & Hreq & Hcov).
  destruct (deliver_node G w n rf es rf' args reply c L F k prev) as (es' & Hni' & Hsuc); [done..|].
  assert (cluster_inv G (set_node w n rf')) as Hci'.
  { eapply node_cluster; [done|done| |done].
    eapply (frame_change ids ids_nodup ids_nonneg ids_odd (hist G) w _ n rf rf'); try done; simpl.
    - apply (wi_call ids _ _ Hw).
    - by eapply AppendEntries_frame.
    - intros es0 Hok. eapply AppendEntries_ok; try done. exists (take k F), prev. split; [|done].
      apply log_ok_take, (li_log _ _ _ _ _ _ _ (gi_led _ _ _ Hg _ _ _ _ Hl)). }
  destruct (inv_node ids w Hel n rf Hn) as (Hin & _).
  destruct (AppendEntriesReply.Success reply) eqn:Hs.
  2: { exists G. split_and!; [apply grows_refl|done|]. split_and!; [done|done|]. by rewrite Hs. }
  destruct (AppendEntries_exact _ _ _ _ Hae Hs (node_log_nonempty _ _ _ (nv_ok _ _ _ _ _ Hni'))) as (_ & Et & Ed).
  pose proof (add_ack_grows (n, AppendEntriesArgs.Term args, take k F) G) as Hgr.
  exists (add_ack (n, AppendEntriesArgs.Term args, take k F) G). split_and!; [done| |split_and!; [done|by eapply msg_inv_grows|]].
  - eapply (ack_cluster G _ n _ _ rf' es' c L F); try done; [apply lookup_insert_eq|lia|auto|apply prefix_take].
  - intros _. exists (take k F). split; [|by eapply request_length].
    exists (take k F). split; [by left|done].
Qed.

(** A reply writes the maps at the key of the peer that sent it. *)
Lemma AppendReply_maps rf i args reply rf' snap :
  sendAppendEntriesToServer rf i args reply = Ok (rf', snap) ->
  let m := Z.max (mget rf.(matchIndex) i)
             (AppendEntriesArgs.PrevLogIndex args + zlen (AppendEntriesArgs.Entries args)) in
  (rf'.(nextIndex) = rf.(nextIndex) \/ exists x, rf'.(nextIndex) = <[i := x]> rf.(nextIndex))
  /\ (rf'.(matchIndex) = rf.(matchIndex)
      \/ AppendEntriesReply.Success reply = true
         /\ AppendEntriesArgs.Term args = rf.(currentTerm) /\ rf'.(currentTerm) = rf.(currentTerm)
         /\ rf'.(matchIndex) = <[i := m]> rf.(matchIndex)
         /\ exists x, rf'.(nextIndex) = <[i := x]> rf.(nextIndex)).
Proof.
  unfold sendAppendEntriesToServer. intros H.
  destruct (Z.eqb_spec (AppendEntriesArgs.Term args) (currentTerm rf)) as [E|]; cbn [negb] in H;
    [|go_inv; eauto].
  destruct (AppendEntriesReply.Success reply) eqn:Hs; [log_inv; simpl; eauto 10|].
  log_inv; simpl; eauto.
Qed.

Lemma reply_cluster G w n i rf rf' args reply snap :
  cluster_inv G w -> w.(nodes) !! n = Some rf -> reply_inv G (i, args, reply) ->
  sendAppendEntriesToServer rf i args reply = Ok (rf', snap) -> inv ids (set_node w n rf') ->
  cluster_inv G (set_node w n rf').
Proof.
  intros Hci Hn (Hi & _ & Hack) Hsr Hel'. pose proof (ids_nonneg _ Hi) as Hpos.
  destruct (AppendReply_maps _ _ _ _ _ _ Hsr) as [Hnx Hmx].
  eapply (quiet_cluster G w _ n rf rf'); try done; simpl.
  - intros c j t r Hr. eauto.
  - by eapply sendAppendEntriesToServer_frame.
  - by eapply AppendReply_kept.
  - intros [Hsub Hkey]. split.
    + intros j Hj. destruct Hmx as [E|(_ & _ & _ & E & x & En)].
      * rewrite E in Hj. apply Hsub in Hj. destruct Hnx as [->|[x ->]]; [done|].
        apply lookup_insert_is_Some'. by right.
      * rewrite En. apply lookup_insert_is_Some'. rewrite E in Hj.
        apply lookup_insert_is_Some' in Hj as [?|Hj]; auto.
    + intros j Hj. destruct Hnx as [E|[x E]]; rewrite E in Hj; [auto|].
      apply lookup_insert_is_Some' in Hj as [<-|Hj]; auto.
  - intros Hm Et. destruct Hmx as [E|(Hs & HT & _ & E & _)]; [by eapply match_acked_same|].
    intros j Hj. unfold mget in *. rewrite E, Et in *. destruct (decide (i = j)) as [<-|Hne].
    + rewrite lookup_insert_eq in *. cbn [from_option id] in *.
      destruct (Hack Hs) as (p & Hp & Hlen). rewrite HT in Hp.
      destruct (Z.max_spec (from_option id 0 (matchIndex rf !! i))
        (AppendEntriesArgs.PrevLogIndex args + zlen (AppendEntriesArgs.Entries args))) as [[_ Emax]|[_ Emax]];
        [exists p; split; [done|lia]|]. rewrite Emax in *. by apply (Hm i).
    + rewrite lookup_insert_ne in * by done. by apply (Hm j).
Qed.

(** ** Steps of the network *)

Lemma world_step G w w' ss :
  cluster_inv G w -> (forall args, args ∈ ss -> snapshot_ok args) ->
  step_by ids (calm ids ss) true w w' -> exists G', grows G G' /\ cluster_inv G' w'.
Proof.
  intros Hci Hs Hst. assert (inv ids w') as Hel'.
  { eapply (step_by_inv ids); [..|exact Hst]; try done; [apply calm_frame|by eapply ci_election]. }
  destruct Hst.
  - exists G. split; [apply grows_refl|]. by eapply calm_cluster.
  - by eapply elect_cluster.
  - by eapply vote_cluster.
  - exists G. split; [apply grows_refl|]. apply lost_cluster; [done|apply delete_subseteq|done].
  - exists G. split; [apply grows_refl|]. by eapply answer_cluster.
  - by eapply count_cluster.
  - exists G. split; [apply grows_refl|]. by eapply restart_cluster.
Qed.

(** What a leader sends is its log, which is the log of its term. *)
Lemma sent_msg G w n rf es args k prev :
  cluster_inv G w -> w.(nodes) !! n = Some rf -> node_inv G w.(votes) n rf es ->
  sent_by rf es args k prev -> (length es <= k)%nat \/ k = prev -> msg_inv G args.
Proof.
  intros Hci Hn Hni (Hr & Et & El & Hreq) Hk. destruct (nv_leader _ _ _ _ _ Hni Hr) as [L HL].
  destruct (inv_node ids w (ci_election _ _ Hci) n rf Hn) as (_ & Hme & _).
  pose proof (prefix_length _ _ (li_prefix _ _ _ _ _ _ _ (gi_led _ _ _ (ci_ghost _ _ Hci) _ _ _ _ HL))).
  exists n, L, es, (k `min` length es)%nat, prev. rewrite Et, El, Hme.
  assert (take (k `min` length es) es = take k es) as E.
  { destruct (decide (k <= length es)%nat); [by rewrite Nat.min_l by lia|].
    rewrite Nat.min_r by lia. by rewrite !take_ge by lia. }
  rewrite E. split_and!; [done..|lia|done|].
  destruct Hk as [Hk|Hk]; [left; lia|right]. destruct Hreq as (_ & _ & _ & ->).
  by rewrite drop_ge by (rewrite length_take; lia).
Qed.

Lemma rinv_world G G' w w' as_ ss rs rs' :
  rinv G (mkRNet (mkNet w as_ ss) rs) -> grows G G' -> cluster_inv G' w' ->
  (forall r, r ∈ rs' -> r ∈ rs \/ reply_inv G' r) -> rinv G' (mkRNet (mkNet w' as_ ss) rs').
Proof.
  intros [_ Hm Hs Hr] Hgr Hci Hnew. split; simpl in *; [done| |done|].
  - intros args Ha. eapply msg_inv_grows; [done|by auto].
  - intros r [Hin|?]%Hnew; [|done]. eapply reply_inv_grows; [done|by auto].
Qed.

Lemma rinv_send G w as_ as' ss ss' rs :
  rinv G (mkRNet (mkNet w as_ ss) rs) ->
  (forall a, a ∈ as' -> a ∈ as_ \/ msg_inv G a) -> (forall a, a ∈ ss' -> a ∈ ss \/ snapshot_ok a) ->
  exists G', grows G G' /\ rinv G' (mkRNet (mkNet w as' ss') rs).
Proof.
  intros [Hw Hm Hs Hr] Ha' Hs'. exists G. split; [apply grows_refl|]. split; simpl in *; try done.
  - intros a [Ha|Ha]%Ha'; [by apply Hm|done].
  - intros a [Ha|Ha]%Hs'; [by apply Hs|done].
Qed.

Lemma rstep_inv G s s' : rinv G s -> rstep ids s s' -> exists G', grows G G' /\ rinv G' s'.
Proof.
  intros Hri Hst. destruct Hst as [w w' as_ ss rs Hst|w as_ ss rs n rf rf' op r Hn Hrun Hst
    |w as_ ss rs n rf rf' args reply Hn Hrun Ha Hsc Hae|w as_ ss rs n i rf rf' args reply snap Hn Hrun Hr Hid Hsr
    |w as_ ss rs n rf plans i args Hn Hp Hi|w as_ ss rs n rf cs i args Hn Hp Hi
    |w as_ ss rs n rf args Hn Hp]; pose proof Hri as [Hci Hmsg Hsnap Hrep]; simpl in *;
    pose proof (ci_election _ _ Hci) as Hel.
  - destruct (world_step G w w' ss) as (G' & Hgr & Hci'); [done..|]. exists G'. split; [done|].
    eapply rinv_world; try done. by left.
  - destruct (start_cluster G w n rf rf' op r) as (G' & Hgr & Hci'); [done..| |].
    { eapply (frame_inv ids); try done. by eapply Start_frame. }
    exists G'. split; [done|]. eapply rinv_world; try done. by left.
  - destruct (deliver_cluster G w n rf rf' args reply) as (G' & Hgr & Hci' & Hrp); [by auto..| |].
    { eapply (frame_inv ids); try done. by eapply AppendEntries_frame. }
    exists G'. split; [done|]. eapply rinv_world; try done.
    intros x [->|]%elem_of_cons; auto.
  - exists G. split; [apply grows_refl|]. eapply rinv_world; [done|apply grows_refl| |by left].
    eapply (reply_cluster G w n i rf rf'); try done; [by apply Hrep|].
    eapply (frame_inv ids); try done. by eapply sendAppendEntriesToServer_frame.
  - destruct (ci_node _ _ Hci n rf Hn) as [es Hni].
    destruct (send_request (hist G) rf es plans i args) as (prev & Hsb); [apply Hni|done..|].
    eapply rinv_send; [done| |by left]. intros a [->|]%elem_of_cons; [right|by left].
    eapply sent_msg; try done. by left.
  - destruct (ci_node _ _ Hci n rf Hn) as [es Hni].
    destruct (heartbeat_request (hist G) rf es cs i args) as (k & Hsb); [apply Hni|done..|].
    eapply rinv_send; [done| |by left]. intros a [->|]%elem_of_cons; [right|by left].
    eapply sent_msg; try done. by right.
  - destruct (ci_node _ _ Hci n rf Hn) as [es Hni].
    eapply rinv_send; [done|by left|]. intros a [->|]%elem_of_cons; [right|by left].
    eapply send_snapshot_ok; [apply Hni|done].
Qed.

Lemma rinv_init s : rnet_init ids s -> rinv (mkGhost ∅ ∅ ∅ [] []) s.
Proof.
  intros (Hinit & Hrs & Hpos).
  destruct (net_init_inv ids ids_nodup ids_nonneg ids_odd _ Hinit) as [Hw _ _].
  destruct Hinit as (Ea & Es & Ec & Ev & Hn).
  split; rewrite ?Ea, ?Es, ?Hrs; try (intros ? ?%elem_of_nil; done). split; [done| |].
  - intros n rf Hlk. destruct (Hn n rf Hlk) as (_ & p0 & p & msgs & Hbl & Hb & Hs).
    destruct (restart_ok ∅ ids n p0 p msgs rf) as (es & Hok & Enx & Em & Hsv & img & Hi & Ei); [|done..|].
    { intros img ->%Hbl. exists []. split; [done|apply log_ok_nil]. }
    rewrite (Hbl img Hi) in Ei. simpl in Ei. subst es. exists [].
    apply startWork_Ok in Hs as (_ & _ & Hrole & logs & cm & Hrd).
    destruct (reboot_reads _ _ _ _ _ _ _ Hb Hrd) as [Hd Hp].
    apply reboot_durable in Hb.
    assert (dterm rf = rf.(currentTerm)) as Edt by (unfold dterm; by rewrite Hp, Hb, Hd).
    specialize (Hpos n rf Hlk). split; rewrite ?Edt, ?Hrole; simpl; try done; try lia.
    + intros img0 Hi0%Hsv%Hbl. by subst.
    + intros e. by intros ?%elem_of_nil.
    + intros t q (q' & Hq & _). by apply elem_of_nil in Hq.
    + unfold maps_ok. rewrite Enx, Em. split; intros i [? Hx]; by rewrite lookup_empty in Hx.
  - split; simpl; try done; rewrite ?Ev, ?Ec; set_solver.
Qed.

Lemma rsteps_inv G s s' : rinv G s -> rtc (rstep ids) s s' -> exists G', grows G G' /\ rinv G' s'.
Proof.
  intros Hri Hst. revert G Hri. induction Hst as [s|s1 s2 s3 Hst _ IH]; intros G Hri.
  - exists G. split; [apply grows_refl|done].
  - destruct (rstep_inv G s1 s2 Hri Hst) as (G2 & ? & H2). destruct (IH G2 H2) as (G3 & ? & ?).
    exists G3. split; [by eapply grows_trans|done].
Qed.

(** ** Commitment *)

(** Where [commit_loop] stops above the commit index, a quorum holds an entry
    of the term. *)
Lemma commit_loop_quorum fuel rf c c' :
  2 <= zlen rf.(peers) -> (Z.to_nat (c - rf.(commitIndex)) <= fuel)%nat ->
  commit_loop fuel rf c = Ok c' -> rf.(commitIndex) < c' -> committable rf c'.
Proof.
  intros Hp. revert c. induction fuel as [|fuel IH]; intros c Hf; cbn [commit_loop].
  { intros [= <-] ?. lia. }
  destruct (Z.ltb_spec (commitIndex rf) c) as [Hlt|]; [|intros [= <-] ?; lia].
  intros H Hc. apply bind_Ok in H as (count & Hcount & H).
  destruct (is_quorum rf count) eqn:Hq; [|eapply IH; [|done..]; lia].
  apply bind_Ok in H as (t & Ht & [= <-]). pose proof Ht as Ht'.
  apply log_term_Ok in Ht' as (e & Hge & He & <-).
  rewrite (commit_count_spec rf c e) in Hcount by done. injection Hcount as <-.
  apply (committable_quorum rf c e Hp); [|done]. unfold log_at, GlobalToLocal in *.
  destruct (Z.ltb_spec c (lastIncludedIndex rf)); [lia|]. by rewrite He.
Qed.

Lemma reply_commits rf i args reply rf' snap :
  2 <= zlen rf.(peers) -> sendAppendEntriesToServer rf i args reply = Ok (rf', snap) ->
  rf.(commitIndex) < rf'.(commitIndex) ->
  rf'.(role) = rf.(role) /\ rf'.(peers) = rf.(peers) /\ committable rf' rf'.(commitIndex).
Proof.
  unfold sendAppendEntriesToServer. intros Hp H Hlt.
  destruct (negb _) in H; [go_inv; lia|].
  destruct (AppendEntriesReply.Success reply); [|log_inv; simpl in *; lia].
  apply bind_Ok in H as (c & Hl & H). go_inv. simpl in Hlt.
  apply commit_loop_quorum in Hl; [done|done|simpl; lia|done].
Qed.

(** Node [n], the leader, handles a reply and moves its commit index. *)
Definition commits (s s' : RNet P) n rf' : Prop :=
  exists rf i args reply snap, s.(net).(world).(nodes) !! n = Some rf /\ rf.(role) = Leader
    /\ may_run true s.(net).(world) n /\ (i, args, reply) ∈ s.(replies)
    /\ AppendEntriesArgs.LeaderId args = n
    /\ sendAppendEntriesToServer rf i args reply = Ok (rf', snap)
    /\ rf.(commitIndex) < rf'.(commitIndex)
    /\ s' = mkRNet (mkNet (set_node s.(net).(world) n rf') s.(net).(appends) s.(net).(snapshots)) s.(replies).

Lemma commits_step s s' n rf' : commits s s' n rf' -> rstep ids s s'.
Proof.
  intros (rf & i & args & reply & snap & Hn & _ & Hrun & Hr & Hid & Hsr & _ & ->).
  destruct s as [[w as_ ss] rs]. by eapply r_reply.
Qed.

(** The entries a leader has up to an index. *)
Definition log_upto rf (c : Z) (p : list Entry) : Prop :=
  c = Z.of_nat (length p) /\ forall j, 0 < j <= c -> log_at rf j = p !! Z.to_nat (j - 1).

Lemma log_upto_take rf es c :
  log_is rf es -> rf.(lastIncludedIndex) = 0 -> 0 <= c <= Z.of_nat (length es) ->
  log_upto rf c (take (Z.to_nat c) es).
Proof.
  intros Hl Ei Hc. split; [rewrite length_take; lia|]. intros j Hj.
  rewrite (log_is_at rf es j Hl Ei) by lia. by rewrite lookup_take_lt by lia.
Qed.

(** What a quorum of match indices says about a leader's log. *)
Lemma leader_quorum G w n rf es L c :
  cluster_inv G w -> w.(nodes) !! n = Some rf -> node_inv G w.(votes) n rf es ->
  led G !! rf.(currentTerm) = Some (n, L, es) -> committable rf c ->
  committed ids (add_ack (n, rf.(currentTerm), es) G) rf.(currentTerm) (take (Z.to_nat c) es)
  /\ log_upto rf c (take (Z.to_nat c) es).
Proof.
  intros Hci Hn Hni HL [(e & He & Et) Hq]. pose proof (ci_election _ _ Hci) as Hel.
  pose proof (ci_ghost _ _ Hci) as Hg. pose proof (gi_led _ _ _ Hg _ _ _ _ HL) as Hli.
  pose proof (nv_ok _ _ _ _ _ Hni) as [Hlog _ (_ & Hlii & _) _].
  destruct (inv_node ids w Hel n rf Hn) as (Hin & _ & Hpeers).
  assert (0 < c) as Hc.
  { pose proof (li_pos _ _ _ _ _ _ _ Hli). destruct Hlog as (ph & El & Eph). unfold log_at, GlobalToLocal in He.
    rewrite Hlii, El in He. destruct (Z.ltb_spec c 0); [done|].
    destruct (decide (c = 0)) as [->|]; [|lia]. simpl in He. injection He as <-. lia. }
  rewrite (log_is_at rf es c Hlog Hlii Hc) in He. pose proof (lookup_lt_Some _ _ _ He) as Hlt.
  split; [|apply log_upto_take; [done|done|lia]].
  set (q := n :: filter (fun i => c <= mget rf.(matchIndex) i) rf.(peers)).
  exists n, L, es, q. split_and!; [done|apply prefix_take| | | | |].
  - rewrite length_take. destruct (decide (length L <= Z.to_nat (c - 1))%nat); [lia|exfalso].
    destruct (li_prefix _ _ _ _ _ _ _ Hli) as [F2 EF]. rewrite EF, lookup_app_l in He by lia.
    apply list_elem_of_lookup_2, (li_old _ _ _ _ _ _ _ Hli) in He. lia.
  - unfold q. rewrite Hpeers. constructor; [|by apply NoDup_filter, NoDup_filter].
    rewrite list_elem_of_filter, elem_of_others. tauto.
  - apply (quorum_majority ids n rf); try done. unfold replicas in Hq. unfold q. simpl.
    unfold zlen in Hq. replace (Z.of_nat (S _)) with (1 + zlen (filter (fun i => c <= mget (matchIndex rf) i) (peers rf)));
      [done|unfold zlen; lia].
  - intros v [->|Hv]%elem_of_cons; [done|]. apply list_elem_of_filter in Hv as [_ Hv].
    rewrite Hpeers in Hv. by apply elem_of_others in Hv as [_ ?].
  - intros v [->|Hv]%elem_of_cons; [exists es; split; [by left|apply prefix_take]|].
    apply list_elem_of_filter in Hv as [Hm _]. destruct (nv_led _ _ _ _ _ Hni _ _ HL) as [_ Hma].
    destruct (Hma v) as (p & Ha & Hp); [lia|]. pose proof Ha as (p' & Hp' & Hpre).
    destruct (gi_ack _ _ _ Hg _ _ _ Hp') as (c0 & L0 & F0 & Hl0 & HpF). rewrite HL in Hl0.
    injection Hl0 as <- <- <-. exists p'. split; [by right|]. apply prefix_length in Hpre.
    destruct HpF as [F2 ->]. rewrite take_app_le by lia. apply prefix_take.
Qed.

(** The step makes what is up to the commit index committed. *)
Lemma commits_committed G s s' n rf' :
  (3 <= length ids)%nat -> rinv G s -> commits s s' n rf' ->
  exists G' p, grows G G' /\ rinv G' s' /\ committed ids G' rf'.(currentTerm) p
    /\ log_upto rf' rf'.(commitIndex) p.
Proof.
  intros H3 Hri Hc. destruct (rstep_inv G s s' Hri (commits_step _ _ _ _ Hc)) as (G1 & Hgr & Hri1).
  destruct Hc as (rf & i & args & reply & snap & Hn & Hr & _ & _ & _ & Hsr & Hlt & ->).
  pose proof (ci_election _ _ (ri_cluster _ _ Hri)) as Hel.
  destruct (inv_node ids _ Hel n rf Hn) as (Hin & _ & Hpeers).
  assert (2 <= zlen (peers rf)) as Hp2.
  { pose proof (length_others ids n ids_nodup Hin). rewrite Hpeers. unfold zlen. lia. }
  destruct (reply_commits _ _ _ _ _ _ Hp2 Hsr Hlt) as (Er & _ & Hcm).
  pose proof (ri_cluster _ _ Hri1) as Hci. simpl in Hci.
  assert ((set_node (world (net s)) n rf').(nodes) !! n = Some rf') as Hn' by apply lookup_insert_eq.
  destruct (ci_node _ _ Hci n rf' Hn') as [es Hni].
  destruct (nv_leader _ _ _ _ _ Hni) as [L HL]; [congruence|].
  destruct (leader_quorum G1 _ n rf' es L _ Hci Hn' Hni HL Hcm) as [Hcom Hup].
  pose proof (add_ack_grows (n, rf'.(currentTerm), es) G1) as Hgr1.
  eexists _, _. split; [by eapply grows_trans|]. split; [|by split].
  eapply rinv_world; [exact Hri1|done| |by left].
  eapply (ack_cluster G1 _ n _ es rf' es n L es); try done.
  destruct (vote_term (set_node (world (net s)) n rf') n rf'.(currentTerm) n rf'); try done.
  - by eapply ci_election.
  - eapply led_vote; [apply Hci|done].
Qed.

(** A leader of a later term, or of the same, has what is committed. *)
Lemma leader_has_committed G w m rm t p :
  cluster_inv G w -> w.(nodes) !! m = Some rm -> rm.(role) = Leader ->
  committed ids G t p -> t <= rm.(currentTerm) ->
  forall j, 0 < j <= Z.of_nat (length p) -> log_at rm j = p !! Z.to_nat (j - 1).
Proof.
  intros Hci Hm Hr Hcm Ht j Hj. destruct (ci_node _ _ Hci m rm Hm) as [es Hni].
  pose proof (ci_ghost _ _ Hci) as Hg. destruct (nv_leader _ _ _ _ _ Hni Hr) as [L HL].
  assert (p `prefix_of` es) as [k ->].
  { destruct (decide (t = rm.(currentTerm))) as [->|].
    - destruct Hcm as (c0 & L0 & F0 & q & Hl0 & HpF & _). rewrite HL in Hl0. by injection Hl0 as <- <- <-.
    - transitivity L; [|apply (li_prefix _ _ _ _ _ _ _ (gi_led _ _ _ Hg _ _ _ _ HL))].
      eapply (committed_kept ids G w); [by eapply ci_election|done|done|done|lia]. }
  pose proof (nv_ok _ _ _ _ _ Hni) as [Hlog _ (_ & Hlii & _) _].
  rewrite (log_is_at rm _ j Hlog Hlii), lookup_app_l by lia. done.
Qed.

Lemma committed_comparable G w t1 t2 p1 p2 :
  cluster_inv G w -> committed ids G t1 p1 -> committed ids G t2 p2 ->
  p1 `prefix_of` p2 \/ p2 `prefix_of` p1.
Proof.
  intros Hci H1 H2. pose proof (ci_election _ _ Hci) as Hel. pose proof (ci_ghost _ _ Hci) as Hg.
  assert (forall t t' p p', committed ids G t p -> committed ids G t' p' -> t < t' ->
    p `prefix_of` p' \/ p' `prefix_of` p) as Hlt.
  { intros t t' p p' Hp (c & L & F & q & Hl & HpF & _) Htt.
    apply (prefix_weak_total p p' F); [|done]. transitivity L; [by eapply (committed_kept ids G w)|].
    apply (li_prefix _ _ _ _ _ _ _ (gi_led _ _ _ Hg _ _ _ _ Hl)). }
  destruct (Z.lt_trichotomy t1 t2) as [?|[->|?]]; [eauto| |destruct (Hlt t2 t1 p2 p1); auto].
  destruct H1 as (c & L & F & q & Hl & HpF & _), H2 as (c' & L' & F' & q' & Hl' & HpF' & _).
  rewrite Hl in Hl'. injection Hl' as <- <- <-. by apply (prefix_weak_total p1 p2 F).
Qed.

(** C2. Leader completeness: when a leader of a cluster of an odd number of
    nodes, three or more, moves its commit index to [c] on a reply, then in every
    state reached later by elections, commands, replication, lost, repeated and
    reordered messages, crashes between critical sections and restarts, every
    leader of that or a later term has the leader's entries at all indices up to
    [c].  The conditions: the two critical sections of [collectVote] run
    together; a node handles the answer to [SendCommitIndex] only when it is not
    the leader; every AppendEntries that is delivered takes the shortcut at the
    commit index only where the term agrees; no service takes a snapshot, so
    that no log is compacted; [Save] does not fail and a restart finds what was
    saved last ([DurableLog]), which the repository's persister does not
    guarantee. *)
Theorem leader_completeness s s1 s2 n rf m rm j :
  (3 <= length ids)%nat -> rnet_reachable ids s -> commits s s1 n rf ->
  rtc (rstep ids) s1 s2 ->
  s2.(net).(world).(nodes) !! m = Some rm -> rm.(role) = Leader -> rf.(currentTerm) <= rm.(currentTerm) ->
  0 < j <= rf.(commitIndex) -> is_Some (log_at rf j) /\ log_at rm j = log_at rf j.
Proof.
  intros H3 (s0 & Hinit & Hst) Hc Hst2 Hm Hr Ht Hj.
  destruct (rsteps_inv _ _ _ (rinv_init s0 Hinit) Hst) as (G & _ & Hri).
  destruct (commits_committed G s s1 n rf H3 Hri Hc) as (G1 & p & _ & Hri1 & Hcm & Elen & Hup).
  destruct (rsteps_inv _ _ _ Hri1 Hst2) as (G2 & Hgr & Hri2).
  apply (committed_grows ids _ _ _ _ Hgr) in Hcm. rewrite (Hup j Hj).
  split; [apply lookup_lt_is_Some_2; lia|].
  eapply (leader_has_committed G2); [apply Hri2|done..|lia].
Qed.

(** C5. Leaders never commit different entries, under the conditions of C2 (an
    odd number of nodes, three or more; [collectVote] in one piece;
    [SendCommitIndex] answered on a node that is not the leader; the shortcut at
    the commit index only where the term agrees, on every delivery; no snapshot
    of a service; [Save] does not fail and nothing saved is lost): whatever two
    leaders, at any two times of an execution and in whichever terms, have moved
    their commit indices over on a reply, they have the same entry there. *)
Theorem leaders_commit_same s1 s1' s2 s2' n1 n2 rf1 rf2 j :
  (3 <= length ids)%nat -> rnet_reachable ids s1 -> commits s1 s1' n1 rf1 ->
  rtc (rstep ids) s1' s2 -> commits s2 s2' n2 rf2 ->
  0 < j <= rf1.(commitIndex) -> j <= rf2.(commitIndex) -> log_at rf1 j = log_at rf2 j.
Proof.
  intros H3 (s0 & Hinit & Hst) Hc1 Hst2 Hc2 Hj1 Hj2.
  destruct (rsteps_inv _ _ _ (rinv_init s0 Hinit) Hst) as (G & _ & Hri).
  destruct (commits_committed G s1 s1' n1 rf1 H3 Hri Hc1) as (G1 & p1 & _ & Hri1 & Hcm1 & Elen1 & Hup1).
  destruct (rsteps_inv _ _ _ Hri1 Hst2) as (G2 & Hgr2 & Hri2).
  destruct (commits_committed G2 s2 s2' n2 rf2 H3 Hri2 Hc2) as (G3 & p2 & Hgr3 & Hri3 & Hcm2 & Elen2 & Hup2).
  apply (committed_grows ids _ _ _ _ (grows_trans _ _ _ Hgr2 Hgr3)) in Hcm1.
  rewrite (Hup1 j), (Hup2 j) by lia.
  destruct (committed_comparable G3 _ _ _ _ _ (ri_cluster _ _ Hri3) Hcm1 Hcm2) as [[k ->]|[k ->]];
    [rewrite lookup_app_l by lia; done|rewrite lookup_app_l by lia; done].
Qed.

End completeness.

(** ** Running the network *)

Inductive REvent :=
  | RElection (e : Event)
  | RStart (n : Z) (op : Op)
  | RSend (n i : Z)  (* the request of a round for peer [i] *)
  | RSnapshot (n : Z)
  | RInstall (k : nat) (n : Z)
  | RSnapshotReply (n i : Z) (reply : InstallSnapshotReply.t)
  | RDeliver (k : nat) (n : Z)  (* the [k]-th newest request reaches [n] *)
  | RReply (k : nat) (n : Z).  (* the [k]-th newest reply reaches [n] *)

Section scheduler.
Context {P : Type} `{!RaftStore P}.
Variable ids : list Z.
Implicit Types s : RNet P.
Implicit Types w : World P.
Implicit Types rf : Raftserver P.

(** Node [n] runs a critical section with a result. *)
Definition run_node {A} w (n : Z) (f : Raftserver P -> option (Raftserver P * A)) : option (World P * A) :=
  rf ← w.(nodes) !! n;
  if runnable true w n then r ← f rf; Some (set_node w n r.1, r.2) else None.

Definition rexec s (e : REvent) : option (RNet P) :=
  let 'mkRNet (mkNet w as_ ss) rs := s in
  let go w' := Some (mkRNet (mkNet w' as_ ss) rs) in
  match e with
  | RElection e => w' ← exec true w e; go w'
  | RStart n op => r ← run_node w n (fun rf => from_go (Start rf (Some op))); go r.1
  | RSend n i =>
      rf ← w.(nodes) !! n; ps ← mjoin (from_go (StartSendAppendEntries rf)); args ← plan_for i ps;
      Some (mkRNet (mkNet w (args :: as_) ss) rs)
  | RSnapshot n =>
      rf ← w.(nodes) !! n; args ← mjoin (from_go (sendInstallSnapshot_args rf));
      Some (mkRNet (mkNet w as_ (args :: ss)) rs)
  | RInstall k n =>
      args ← ss !! k;
      r ← run_node w n (fun rf => from_go (InstallSnapshot_recv rf args) ≫= fun x => Some (x.1.1, x.2)); go r.1
  | RSnapshotReply n i reply =>
      if bool_decide (i ∈ ids) then
        r ← run_node w n (fun rf => from_go (sendInstallSnapshotToServer rf i reply) ≫= fun x => Some (x, tt));
        go r.1
      else None
  | RDeliver k n =>
      args ← as_ !! k;
      r ← run_node w n (fun rf =>
            if shortcut_soundb rf args then from_go (AppendEntries rf args) else None);
      Some (mkRNet (mkNet r.1 as_ ss) ((n, args, r.2) :: rs))
  | RReply k n =>
      x ← rs !! k;
      if bool_decide (AppendEntriesArgs.LeaderId x.1.2 = n) then
        r ← run_node w n (fun rf => from_go (sendAppendEntriesToServer rf x.1.1 x.1.2 x.2)); go r.1
      else None
  end.

Definition rexec_all s (es : list REvent) : option (RNet P) :=
  foldl (fun o e => s ← o; rexec s e) (Some s) es.

Lemma run_node_Some {A} w n (f : Raftserver P -> option (Raftserver P * A)) w' a :
  run_node w n f = Some (w', a) ->
  exists rf rf', w.(nodes) !! n = Some rf /\ may_run true w n /\ f rf = Some (rf', a) /\ w' = set_node w n rf'.
Proof.
  unfold run_node. intros H. apply bind_Some in H as (rf & Hn & H).
  destruct (runnable true w n) eqn:Hr; [|done]. apply bind_Some in H as ([rf' a'] & Hf & [= <- <-]).
  exists rf, rf'. split_and!; [done|by apply runnable_may_run|done|done].
Qed.

Lemma rexec_step s e s' : rexec s e = Some s' -> rstep ids s s'.
Proof.
  destruct s as [[w as_ ss] rs], e as [e|n op|n i|n|k n|n i reply|k n|k n]; cbn [rexec]; intros H.
  - apply bind_Some in H as (w' & He & [= <-]). constructor. by apply exec_step with e.
  - apply bind_Some in H as ([w' r] & Hr & [= <-]).
    apply run_node_Some in Hr as (rf & rf' & ? & ? & ?%from_go_Some & ->). by eapply r_start.
  - apply bind_Some in H as (rf & Hn & H). apply bind_Some in H as (ps & Hp & H).
    apply bind_Some in H as (args & Ha & [= <-]).
    unfold plan_for in Ha. destruct (list_find _ ps) as [[j [i' []]]|] eqn:Hl; simplify_eq/=.
    apply list_find_Some in Hl as (Hl & _ & _). apply list_elem_of_lookup_2 in Hl.
    destruct (from_go _) as [[]|] eqn:Hg; simplify_eq/=. apply from_go_Some in Hg. by eapply r_send.
  - apply bind_Some in H as (rf & Hn & H). apply bind_Some in H as (args & Hp & [= <-]).
    destruct (from_go _) as [[]|] eqn:Hg; simplify_eq/=. apply from_go_Some in Hg. by eapply r_snapshot.
  - apply bind_Some in H as (args & Ha & H). apply bind_Some in H as ([w' r] & Hr & [= <-]).
    apply run_node_Some in Hr as (rf & rf' & ? & ? & Hf & ->).
    apply bind_Some in Hf as ([[rf1 rp] msg] & ?%from_go_Some & [= <- <-]).
    constructor. eapply step_local; [done..|]. eapply c_InstallSnapshot; [by eapply list_elem_of_lookup_2|done].
  - case_bool_decide as Hi; [|done]. apply bind_Some in H as ([w' r] & Hr & [= <-]).
    apply run_node_Some in Hr as (rf & rf' & ? & ? & Hf & ->).
    apply bind_Some in Hf as (rf1 & ?%from_go_Some & [= <- <-]).
    constructor. eapply step_local; [done..|]. by eapply c_SnapshotReply.
  - apply bind_Some in H as (args & Ha & H). apply bind_Some in H as ([w' r] & Hr & [= <-]).
    apply run_node_Some in Hr as (rf & rf' & ? & ? & Hf & ->). cbn beta in Hf.
    destruct (shortcut_soundb rf args) eqn:Hsc; [|done]. apply from_go_Some in Hf.
    eapply r_deliver; [done|done|by eapply list_elem_of_lookup_2|by apply shortcut_soundb_sound|done].
  - apply bind_Some in H as ([[i args] reply] & Hx & H). case_bool_decide as Hid; [|done].
    apply bind_Some in H as ([w' r] & Hr & [= <-]).
    apply run_node_Some in Hr as (rf & rf' & ? & ? & ?%from_go_Some & ->).
    eapply r_reply; [done|done|by eapply list_elem_of_lookup_2|done|done].
Qed.

Lemma rexec_steps s es s' : rexec_all s es = Some s' -> rtc (rstep ids) s s'.
Proof.
  unfold rexec_all. revert s'. induction es as [|e es IH] using rev_ind; intros s' H.
  - injection H as <-. constructor.
  - rewrite foldl_app in H. apply bind_Some in H as (s1 & H1 & H).
    eapply rtc_r; [by apply IH|by apply rexec_step with e].
Qed.

(** A reply that moves the commit index of a leader. *)
Lemma rexec_commits s k n s' rf rf' :
  rexec s (RReply k n) = Some s' -> s.(net).(world).(nodes) !! n = Some rf ->
  s'.(net).(world).(nodes) !! n = Some rf' -> rf.(role) = Leader -> rf.(commitIndex) < rf'.(commitIndex) ->
  commits s s' n rf'.
Proof.
  destruct s as [[w as_ ss] rs]. cbn [rexec]. intros H Hn Hn' Hr Hlt. simpl in Hn.
  apply bind_Some in H as ([[i args] reply] & Hx & H). case_bool_decide as Hid; [|done].
  apply bind_Some in H as ([w' r] & Hrun & [= <-]).
  apply run_node_Some in Hrun as (rf0 & rf1 & Hn0 & ? & Hs%from_go_Some & ->).
  simpl in Hn', Hn0. rewrite lookup_insert_eq in Hn'. rewrite Hn in Hn0. simplify_eq.
  exists rf0, i, args, reply, r. split_and!; try done. by eapply list_elem_of_lookup_2.
Qed.

End scheduler.

Definition fresh_rnet (ids : list Z) : RNet MemStore.t := mkRNet (fresh_net ids) [].

Definition node_of (s : RNet MemStore.t) (n : Z) : option (Raftserver MemStore.t) :=
  s.(net).(world).(nodes) !! n.

(** A started node is in the term on disk. *)
Lemma startWork_term {P : Type} `{!RaftStore P} `{!RaftStoreLaws P} ids n (p p1 : P) msgs rf :
  reboot p = Ok p1 -> startWork (Make ids n p1) = Ok (msgs, rf) ->
  currentTerm rf = CurrentTerm (durable p).
Proof.
  intros Hb Hs. apply startWork_Ok in Hs as (_ & _ & _ & logs & c & Hrd).
  by destruct (reboot_reads _ _ _ _ _ _ _ Hb Hrd) as [-> _].
Qed.

Lemma fresh_node_term ids n (rf : Raftserver MemStore.t) : fresh_node ids n = Ok rf -> 0 <= currentTerm rf.
Proof.
  unfold fresh_node. intros Hf. apply bind_Ok in Hf as ([msgs rf0] & Hs & E).
  apply Ok_inj in E. simpl in E. subst rf0.
  by rewrite (startWork_term ids n MemStore.empty MemStore.empty msgs rf).
Qed.

Lemma fresh_rnet_init ids : rnet_init ids (fresh_rnet ids).
Proof.
  split; [apply fresh_net_init|]. split; [done|].
  intros n rf [_ Hn]%fresh_nodes_lookup. by eapply fresh_node_term.
Qed.

(** Node 0 leads term 1 and replicates an entry to node 1; node 1 leads term 2
    and replicates one to node 2. *)
Definition replicate (n i t : Z) (op : Op) : list REvent :=
  [RStart n op; RSnapshot n; RInstall 0 i; RSnapshotReply n i (InstallSnapshotReply.mk t);
   RSend n i; RDeliver 0 i].

Definition first_run : list REvent :=
  map RElection (elect_with 0 1 1) ++ replicate 0 1 1 (put_op x01).

Definition second_run : list REvent :=
  map RElection (elect_with 1 2 2) ++ replicate 1 2 2 (put_op x02).

(** The states around the two commitments, each on the newest reply. *)
Definition run_states (es1 es2 : list REvent) : option (list (RNet MemStore.t)) :=
  s1 ← rexec_all [0; 1; 2] (fresh_rnet [0; 1; 2]) es1;
  s1' ← rexec [0; 1; 2] s1 (RReply 0 0);
  s2 ← rexec_all [0; 1; 2] s1' es2;
  s2' ← rexec [0; 1; 2] s2 (RReply 0 1);
  Some [s1; s1'; s2; s2'].

(** What the witnesses read off the run. *)
Definition commit_checked (s s' : RNet MemStore.t) (n t c : Z) : bool :=
  match node_of s n, node_of s' n with
  | Some rf, Some rf' =>
      bool_decide (role rf = Leader) && bool_decide (role rf' = Leader)
      && (Raft.commitIndex rf <? Raft.commitIndex rf') && (Raft.commitIndex rf' =? c)
      && (currentTerm rf' =? t)
  | _, _ => false
  end.

Lemma commit_checked_commits s s' n t c k :
  rexec [0; 1; 2] s (RReply k n) = Some s' -> commit_checked s s' n t c = true ->
  exists rf, node_of s' n = Some rf /\ role rf = Leader /\ currentTerm rf = t
    /\ Raft.commitIndex rf = c /\ commits s s' n rf.
Proof.
  unfold commit_checked. intros Hx H. destruct (node_of s n) as [rf|] eqn:Hn; [|done].
  destruct (node_of s' n) as [rf'|] eqn:Hn'; [|done].
  rewrite !andb_true_iff, !bool_decide_eq_true in H. destruct H as [[[[Hr Hr'] Hlt] Hc] Ht]. zbool.
  exists rf'. split_and!; try done. by eapply rexec_commits.
Qed.

Lemma run_commits es1 es2 :
  match run_states es1 es2 with
  | Some [s1; s1'; s2; s2'] => commit_checked s1 s1' 0 1 1 && commit_checked s2 s2' 1 2 2
  | _ => false
  end = true ->
  exists (s1 s1' s2 s2' : RNet MemStore.t) rf1 rf2, rnet_reachable [0; 1; 2] s1
    /\ commits s1 s1' 0 rf1 /\ rtc (rstep [0; 1; 2]) s1' s2 /\ commits s2 s2' 1 rf2
    /\ node_of s2' 1 = Some rf2 /\ role rf2 = Leader /\ currentTerm rf1 = 1 /\ currentTerm rf2 = 2
    /\ Raft.commitIndex rf1 = 1 /\ Raft.commitIndex rf2 = 2.
Proof.
  destruct (run_states es1 es2) as [l|] eqn:E; [|done]. unfold run_states in E.
  apply bind_Some in E as (s1 & H1 & E). apply bind_Some in E as (s1' & H1' & E).
  apply bind_Some in E as (s2 & H2 & E). apply bind_Some in E as (s2' & H2' & [= <-]).
  intros [Hc1 Hc2]%andb_true_iff.
  destruct (commit_checked_commits _ _ _ _ _ _ H1' Hc1) as (rf1 & _ & _ & Ht1 & Hi1 & Hcm1).
  destruct (commit_checked_commits _ _ _ _ _ _ H2' Hc2) as (rf2 & Hn2 & Hr2 & Ht2 & Hi2 & Hcm2).
  apply rexec_steps in H1, H2.
  exists s1, s1', s2, s2', rf1, rf2. split_and!; [|assumption..].
  exists (fresh_rnet [0; 1; 2]). split; [apply fresh_rnet_init|assumption].
Qed.

Lemma leader_completeness_witness :
  exists (s1 s1' s2' : RNet MemStore.t) rf1 rf2, commits s1 s1' 0 rf1
    /\ rtc (rstep [0; 1; 2]) s1' s2' /\ node_of s2' 1 = Some rf2
    /\ is_Some (log_at rf1 1) /\ log_at rf2 1 = log_at rf1 1.
Proof.
  destruct (run_commits first_run second_run) as
    (s1 & s1' & s2 & s2' & rf1 & rf2 & Hr & Hc1 & Hst & Hc2 & Hn & Hl & ? & ? & ? & ?); [by vm_compute|].
  assert (rtc (rstep [0; 1; 2]) s1' s2') as Hst' by (eapply rtc_r; [done|by eapply commits_step]).
  exists s1, s1', s2', rf1, rf2. split; [done|]. split; [done|]. split; [done|].
  apply (leader_completeness [0; 1; 2] three_nodup three_nonneg ltac:(by exists 1%nat)
           s1 s1' s2' 0 rf1 1 rf2 1); simpl; try done; lia.
Defined.

Lemma leaders_commit_same_witness :
  exists (s1 s1' s2 s2' : RNet MemStore.t) rf1 rf2, commits s1 s1' 0 rf1
    /\ rtc (rstep [0; 1; 2]) s1' s2 /\ commits s2 s2' 1 rf2 /\ log_at rf1 1 = log_at rf2 1.
Proof.
  destruct (run_commits first_run second_run) as
    (s1 & s1' & s2 & s2' & rf1 & rf2 & Hr & Hc1 & Hst & Hc2 & _ & _ & _ & _ & ? & ?); [by vm_compute|].
  exists s1, s1', s2, s2', rf1, rf2. split; [done|]. split; [done|]. split; [done|].
  apply (leaders_commit_same [0; 1; 2] three_nodup three_nonneg ltac:(by exists 1%nat)
           s1 s1' s2 s2' 0 1 rf1 rf2 1); simpl; try done; lia.
Defined.
