(* ===== verification/KVServer.v ===== *)
(** * KVServer: the key/value service on top of Raft (server/server.go)

    The state of [KVServer] and its handlers, one function per critical
    section.  A channel the handler sends on is part of its result; what comes
    from Raft (the outcome of [Start], a commit index, an apply message) is an
    argument.  Snapshots go through labgob, a wrapper of encoding/gob, which is
    a type class here: [SnapshotCodec] with the one law the code relies on,
    that decoding gives back what was encoded. *)

From S2P Require Import Prelude Binary Types Wire Store RaftNode.

Module KV.

(** ** State *)

Record KVServer := mkKV {
  me : Z;                                  (* int32 *)
  history : gmap Z ServerResponse.t;       (* by clerk: its last result *)
  incrMapLogIdx : gmap Z Z;                (* by IncrId: start term or read index *)
  maxraftstate : Z;
  db : gmap gostring gostring;
  lastApplied : Z;                         (* int64 *)
  initialized : bool;
  dead : Z;
  ip : gostring;
  sendPort : Z;                            (* int32 *)
  clientConns : gmap Z Z                   (* by clerk: the connection *)
}.

Definition set_history h kv :=
  mkKV (me kv) h (incrMapLogIdx kv) (maxraftstate kv) (db kv) (lastApplied kv)
    (initialized kv) (dead kv) (ip kv) (sendPort kv) (clientConns kv).
Definition set_incrMapLogIdx m kv :=
  mkKV (me kv) (history kv) m (maxraftstate kv) (db kv) (lastApplied kv)
    (initialized kv) (dead kv) (ip kv) (sendPort kv) (clientConns kv).
Definition set_db d kv :=
  mkKV (me kv) (history kv) (incrMapLogIdx kv) (maxraftstate kv) d (lastApplied kv)
    (initialized kv) (dead kv) (ip kv) (sendPort kv) (clientConns kv).
Definition set_lastApplied i kv :=
  mkKV (me kv) (history kv) (incrMapLogIdx kv) (maxraftstate kv) (db kv) i
    (initialized kv) (dead kv) (ip kv) (sendPort kv) (clientConns kv).
Definition set_initialized b kv :=
  mkKV (me kv) (history kv) (incrMapLogIdx kv) (maxraftstate kv) (db kv) (lastApplied kv)
    b (dead kv) (ip kv) (sendPort kv) (clientConns kv).
Definition set_dead d kv :=
  mkKV (me kv) (history kv) (incrMapLogIdx kv) (maxraftstate kv) (db kv) (lastApplied kv)
    (initialized kv) d (ip kv) (sendPort kv) (clientConns kv).
Definition set_clientConns c kv :=
  mkKV (me kv) (history kv) (incrMapLogIdx kv) (maxraftstate kv) (db kv) (lastApplied kv)
    (initialized kv) (dead kv) (ip kv) (sendPort kv) c.

Arguments set_history h kv /.
Arguments set_incrMapLogIdx m kv /.
Arguments set_db d kv /.
Arguments set_lastApplied i kv /.
Arguments set_initialized b kv /.
Arguments set_dead d kv /.
Arguments set_clientConns c kv /.

(** The service and the Raft node under it. *)
Definition Kill {P} (kv : KVServer) (rf : Raft.Raftserver P) : KVServer * Raft.Raftserver P :=
  (set_dead 1 kv, Raft.Kill rf).

Definition killed (kv : KVServer) : bool := dead kv =? 1.

(** ** Executing an operation *)

Definition set_Value (v : gostring) (op : Op) : Op :=
  mkOp (Optype op) (IncrId op) (ClerkId op) (Key op) v.

(** [resp, err := OpToResp(op, errId); *resp]: a nil response panics. *)
Definition response (op : Op) (errId : Z) : go ServerResponse.t :=
  match MsgProcess.OpToResp op errId with
  | Ok r => Ok r
  | _ => Panic
  end.

Definition DBExecute (kv : KVServer) (op : Op) : go (KVServer * ServerResponse.t) :=
  let '(kv, op, errId) :=
    if Optype op =? GET then
      match db kv !! Key op with
      | Some val => (kv, set_Value val op, 200)
      | None => (kv, set_Value [] op, Common.ErrMap Common.NoKey)
      end
    else if Optype op =? PUT then (set_db (<[Key op := Value op]> (db kv)) kv, op, 200)
    else if Optype op =? APPEND then
      match db kv !! Key op with
      | Some val => (set_db (<[Key op := val ++ Value op]> (db kv)) kv, op, 200)
      | None => (set_db (<[Key op := Value op]> (db kv)) kv, op, 200)
      end
    else (kv, op, 200) in
  resp ← response op errId;
  mret (kv, resp).

(** ** Snapshots of the state machine *)

(** labgob encoders and decoders of the two maps; decoding leaves the rest of
    the buffer. *)
Class SnapshotCodec := {
  encode_db : gmap gostring gostring -> list byte;
  decode_db : list byte -> option (gmap gostring gostring * list byte);
  encode_history : gmap Z ServerResponse.t -> list byte;
  decode_history : list byte -> option (gmap Z ServerResponse.t * list byte)
}.

Class SnapshotCodecLaws `{SnapshotCodec} := {
  encode_db_nonempty d : encode_db d <> [];
  decode_encode_db d rest : decode_db (encode_db d ++ rest) = Some (d, rest);
  decode_encode_history h rest : decode_history (encode_history h ++ rest) = Some (h, rest)
}.

Section service.
Context `{!SnapshotCodec}.

Definition Snapshot (kv : KVServer) : list byte :=
  encode_db (db kv) ++ encode_history (history kv).

Definition LoadSnapshot (kv : KVServer) (snapshot : list byte) : KVServer :=
  if zlen snapshot <? 1 then kv
  else
    match decode_db snapshot with
    | Some (d, rest) =>
        match decode_history rest with
        | Some (h, _) => set_history h (set_db d kv)
        | None => kv
        end
    | None => kv
    end.

(** ** ApplyHandler *)

Definition LeaderChangedId : Z := Common.ErrMap Common.LeaderChanged.

(** The branch of an operation that has to be executed: the result becomes
    the clerk's history when this node started the operation in the term of
    the log entry. *)
Definition apply_execute (kv : KVServer) (op : Op) (term : Z) : go (KVServer * ServerResponse.t) :=
  '(kv, resp) ← DBExecute kv op;
  match incrMapLogIdx kv !! ServerResponse.IncrId resp with
  | Some startTerm =>
      let '(kv, resp) :=
        if negb (startTerm =? term) then (kv, ServerResponse.SetErrId LeaderChangedId resp)
        else (set_history (<[ClerkId op := resp]> (history kv)) kv, resp) in
      mret (set_incrMapLogIdx (delete (ServerResponse.IncrId resp) (incrMapLogIdx kv)) kv, resp)
  | None => mret (kv, resp)
  end.

(** A committed command; [None] when it was applied before.  A nil operation
    ends the process ([log.Fatal]). *)
Definition apply_command (kv : KVServer) (cmd : option Op) (index term : Z)
    : go (KVServer * option ServerResponse.t) :=
  if index <=? lastApplied kv then mret (kv, None)
  else
    let kv := set_lastApplied index kv in
    op ← deref cmd;
    '(kv, resp) ← (match history kv !! ClerkId op with
                   | Some h =>
                       if ServerResponse.IncrId h =? IncrId op then mret (kv, h)
                       else if ServerResponse.IncrId h <? IncrId op then apply_execute kv op term
                       else mret (kv, ServerResponse.zero)
                   | None => apply_execute kv op term
                   end);
    match incrMapLogIdx kv !! ServerResponse.IncrId resp with
    | Some startTerm =>
        let kv := set_incrMapLogIdx (delete (ServerResponse.IncrId resp) (incrMapLogIdx kv)) kv in
        let resp := if negb (startTerm =? term)
                       && negb (ServerResponse.Err resp =? LeaderChangedId)
                    then ServerResponse.SetErrId LeaderChangedId resp else resp in
        mret (kv, Some resp)
    | None => mret (kv, Some resp)
    end.

Definition RaftStateNumThreshold : Z := 90.

Definition snapshot_due (kv : KVServer) (raftStateSize : Z) : bool :=
  negb (maxraftstate kv =? -1)
  && (Z.quot (maxraftstate kv * RaftStateNumThreshold) 100 <=? raftStateSize).

(** One message from [applyCh]: the new state, the response put on the send
    queue, and the snapshot handed to [rf.Snapshot] with its index. *)
Definition ApplyHandler (kv : KVServer) (msg : Raft.ApplyMsg) (raftStateSize : Z)
    : go (KVServer * option ServerResponse.t * option (Z * list byte)) :=
  if Raft.CommandValid msg then
    '(kv, resp) ← apply_command kv (Raft.MsgCommand msg) (Raft.CommandIndex msg)
                    (Raft.SnapshotTerm msg);
    mret (kv, resp,
          match resp with
          | Some _ => if snapshot_due kv raftStateSize
                      then Some (Raft.CommandIndex msg, Snapshot kv) else None
          | None => None
          end)
  else if Raft.SnapshotValid msg then
    mret (if lastApplied kv <=? Raft.SnapshotIndex msg
          then set_lastApplied (Raft.SnapshotIndex msg) (LoadSnapshot kv (Raft.MsgSnapshot msg))
          else kv, None, None)
  else mret (kv, None, None).

(** ** Requests from the proxy *)

(** What [handleOpQue] does with an operation under the first lock. *)
Inductive OpAction :=
  | Answer (resp : ServerResponse.t)
  | ToReadQue
  | Propose.

Definition handleOpQue_check (kv : KVServer) (op : Op) : OpAction :=
  let next := if Optype op =? GET then ToReadQue else Propose in
  match history kv !! ClerkId op with
  | Some h => if ServerResponse.IncrId h =? IncrId op then Answer h else next
  | None => next
  end.

(** After [Start]: answer that this is not the leader, or record the term. *)
Definition handleOpQue_started (kv : KVServer) (op : Op) (started : Z * Z * bool)
    : KVServer * option ServerResponse.t :=
  let '(_, sTerm, isLeader) := started in
  if negb isLeader then
    (kv, match MsgProcess.OpToResp op LeaderChangedId with
         | Ok resp => Some resp
         | _ => None
         end)
  else (set_incrMapLogIdx (<[IncrId op := sTerm]> (incrMapLogIdx kv)) kv, None).

(** ** Reads *)

(** What Raft answers when [handleReadQue] asks for the read index: on the
    leader its commit index and whether a quorum still follows it, on another
    node the value and the error of [SendCommitIndex]. *)
Inductive ReadIndex :=
  | OnLeader (commitIndex : Z) (confirmed : bool)
  | OnFollower (index : Z) (err : option error).

Inductive ReadOutcome :=
  | ReadFails (resp : go ServerResponse.t) (count : Z) (* answered with an error *)
  | ReadRetries (count : Z)                (* asked again after 50 ms *)
  | ReadProceeds (startIdx : option Z)     (* the index, if an earlier turn got it *)
  | ReadWaits                              (* index not applied yet *)
  | ReadAnswers (resp : ServerResponse.t).

(** The part of an iteration that gets the read index, with the number of
    failed attempts so far. *)
Definition handleReadQue_index (kv : KVServer) (op : Op) (count : Z) (raft : ReadIndex)
    : KVServer * ReadOutcome :=
  match incrMapLogIdx kv !! IncrId op with
  | Some startIdx => (kv, ReadProceeds (Some startIdx))
  | None =>
      let record i :=
        (set_incrMapLogIdx (<[IncrId op := i]> (incrMapLogIdx kv)) kv, ReadProceeds None) in
      let fails e n := (kv, ReadFails (MsgProcess.OpToResp op (Common.ErrMap e)) n) in
      match raft with
      | OnLeader startCommitIdx confirmed =>
          if confirmed then record startCommitIdx else fails Common.LeaderChanged count
      | OnFollower i None => record i
      | OnFollower i (Some ErrWrongLeader) => fails Common.LeaderChanged count
      | OnFollower i (Some _) =>
          if count <? 3 then (kv, ReadRetries (count + 1))
          else fails Common.HandleTimeout 0
      end
  end.

(** [if !exist { startIdx = kv.incrMapLogIdx[readOp.IncrId] }] *)
Definition read_start (kv : KVServer) (op : Op) (startIdx : option Z) : Z :=
  match startIdx with
  | Some i => i
  | None => default 0 (incrMapLogIdx kv !! IncrId op)
  end.

(** The last critical section: execute once the read index is applied. *)
Definition handleReadQue_execute (kv : KVServer) (op : Op) (startIdx : option Z)
    : go (KVServer * ReadOutcome) :=
  if read_start kv op startIdx <=? lastApplied kv then
    '(kv, resp) ← DBExecute kv op;
    mret (set_incrMapLogIdx (delete (IncrId op) (incrMapLogIdx kv)) kv, ReadAnswers resp)
  else mret (kv, ReadWaits).

(** ** Connections *)

(** The connection a clerk's first request came on is kept for it. *)
Definition register_conn (kv : KVServer) (clerk conn : Z) : KVServer :=
  match clientConns kv !! clerk with
  | Some _ => kv
  | None => set_clientConns (<[clerk := conn]> (clientConns kv)) kv
  end.

(** [handleClientResponse]: the connection and the bytes written to it. *)
Definition handleClientResponse (kv : KVServer) (resp : ServerResponse.t)
    : option (Z * list byte) :=
  match MsgProcess.RespToBinary resp with
  | Ok bitData => conn ← clientConns kv !! ServerResponse.ClerkId resp; Some (conn, bitData)
  | _ => None
  end.

(** The message [sendStatus] writes to the cluster manager. *)
Definition sendStatus_message (kv : KVServer) (state : Z * bool) : go (list byte) :=
  let '(commitIndex, isLeader) := state in
  if negb (initialized kv) then
    SyncMsgPack.PackAddr (SyncMsgPack.mk commitIndex isLeader (wrap_s 16 (zlen (ip kv))) (me kv)
                            (sendPort kv) (ip kv))
  else SyncMsgPack.Pack (SyncMsgPack.mk commitIndex isLeader 0 (me kv) 0 []).

(** The confirmation read back the first time: four bytes. *)
Definition sendStatus_confirm (kv : KVServer) (conn : list byte) : go KVServer :=
  if negb (initialized kv) then
    '(buffer, _) ← read_full 4 conn;
    '(code, _) ← read_u 4 buffer;
    mret (set_initialized true kv)
  else mret kv.

(** [sendStatus] on a connection: [write] is the outcome of the write, [conn]
    what the manager sends back.  Every error is returned to the caller. *)
Definition sendStatus (kv : KVServer) (state : Z * bool) (write : go unit) (conn : list byte)
    : go (KVServer * list byte) :=
  bitData ← sendStatus_message kv state;
  _ ← write;
  kv ← sendStatus_confirm kv conn;
  mret (kv, bitData).

(** One round of [sendStatusSchedule]: after an error that means a closed
    connection it dials again ([dialled]) and starts over as a new node; any
    other error is only logged. *)
Definition sendStatusSchedule (kv : KVServer) (state : Z * bool) (write : go unit) (conn : list byte)
    (dialled : bool) : go KVServer :=
  match sendStatus kv state write conn with
  | Ok (kv, _) => Ok kv
  | Err e =>
      if bool_decide (e = EOF) || bool_decide (e = ErrUnexpectedEOF) || bool_decide (e = ErrClosed)
      then if dialled then Ok (set_initialized false kv) else Panic
      else Ok kv
  | Panic => Panic
  end.

(** The address [serve] listens on. *)
Definition serve_address (kv : KVServer) : gostring := ip kv ++ [Byte.x3a] ++ fmt_d (sendPort kv).

(** [Stop]: the connections it closes. *)
Definition Stop {P} (kv : KVServer) (rf : Raft.Raftserver P) : KVServer * Raft.Raftserver P * list Z :=
  let '(kv, rf) := Kill kv (Raft.Kill rf) in
  (kv, rf, (map_to_list (clientConns kv)).*2).

(** ** Start-up *)

(** The host and the two ports [StartKVServer] takes from the configured
    addresses: the part before the first colon, and the part after it as a
    decimal number; a missing part or a bad number panics. *)
Definition parse_addresses (server sync : gostring) : go (gostring * Z * Z) :=
  let ip_port := Split server Byte.x3a in
  ip ← idx ip_port 0;
  portPart ← idx ip_port 1;
  port ← deref (Atoi portPart);
  let sync_ip_port := Split sync Byte.x3a in
  syncPart ← idx sync_ip_port 1;
  sync_port ← deref (Atoi syncPart);
  mret (ip, wrap_s 32 port, wrap_s 32 sync_port).

(** The state [StartKVServer] builds from the persister's snapshot. *)
Definition StartKVServer (self maxstate : Z) (addr : gostring) (port : Z)
    (snap : list byte * Z * Z) : KVServer :=
  let '(data, lastIndex, _) := snap in
  LoadSnapshot (mkKV self ∅ ∅ maxstate ∅ lastIndex false 0 addr port ∅) data.

End service.
End KV.
