(* ===== verification/KVRefine.v ===== *)
(** * KVRefine: the service implements a replicated map

    The abstract service is the fold of the operations of the log over an empty
    map, [spec_db].  A world of replicas runs the handlers of KVServer.v in any
    interleaving, fed with the entries of one log, with snapshots any replica
    took, and with restarts from such snapshots; every replica's map is
    [spec_db] of the part of the log it has applied.  For this the log must not
    repeat a request: the operations of a clerk carry increasing ids
    ([no_repeats]).  Without that, the replicas diverge
    ([duplicate_entry_diverges] below).  What one handler does, a read and the
    application of a command, is stated for any state and without the
    condition. *)

From S2P Require Import Prelude Binary Types Wire Store RaftNode RaftLog KVServer.
Import KV.

(** ** The abstract service *)

Definition spec_apply (d : gmap gostring gostring) (op : Op) : gmap gostring gostring :=
  if Optype op =? PUT then <[Key op := Value op]> d
  else if Optype op =? APPEND then <[Key op := default [] (d !! Key op) ++ Value op]> d
  else d.

Definition spec_db (ops : list Op) : gmap gostring gostring := fold_left spec_apply ops ∅.

(** The answer to an operation in a state of the map. *)
Definition spec_value (d : gmap gostring gostring) (op : Op) : gostring :=
  if Optype op =? GET then default [] (d !! Key op) else Value op.

Definition spec_err (d : gmap gostring gostring) (op : Op) : Z :=
  if (Optype op =? GET) && bool_decide (d !! Key op = None) then Common.ErrMap Common.NoKey else 200.

(** Each clerk's requests are in the log once, in the order of their ids. *)
Definition no_repeats (log : list Op) : Prop :=
  forall i j a b, (i < j)%nat -> log !! i = Some a -> log !! j = Some b ->
    ClerkId a = ClerkId b -> IncrId a < IncrId b.

Lemma spec_db_snoc ops op : spec_db (ops ++ [op]) = spec_apply (spec_db ops) op.
Proof. unfold spec_db. by rewrite fold_left_app. Qed.

(** ** DBExecute *)

Lemma response_Ok op errId :
  exists r, response op errId = Ok r /\ ServerResponse.IncrId r = IncrId op
    /\ ServerResponse.ClerkId r = ClerkId op /\ ServerResponse.Err r = errId
    /\ MsgProcess.OpToResp op errId = Ok r.
Proof. by eexists. Qed.

(** [DBExecute] performs the abstract operation and answers with its value. *)
Lemma DBExecute_spec kv op :
  exists r, DBExecute kv op = Ok (set_db (spec_apply (db kv) op) kv, r)
    /\ ServerResponse.IncrId r = IncrId op /\ ServerResponse.ClerkId r = ClerkId op
    /\ ServerResponse.Err r = spec_err (db kv) op
    /\ MsgProcess.OpToResp (set_Value (spec_value (db kv) op) op) (spec_err (db kv) op) = Ok r.
Proof.
  destruct kv as [k1 k2 k3 k4 d k6 k7 k8 k9 k10 k11], op as [ty incr clerk key val].
  unfold DBExecute, spec_apply, spec_value, spec_err. simpl.
  destruct (Z.eqb_spec ty GET) as [->|]; simpl; [|destruct (Z.eqb_spec ty PUT) as [->|]; simpl;
    [|destruct (Z.eqb_spec ty APPEND) as [->|]; simpl]].
  - destruct (d !! key) as [v|] eqn:E; by eexists.
  - by eexists.
  - destruct (d !! key) as [v|] eqn:E; by eexists.
  - by eexists.
Qed.

Section replicas.
Context {codec : SnapshotCodec} {codec_laws : SnapshotCodecLaws}.
Variable log : list Op.
Hypothesis log_fresh : no_repeats log.
Implicit Types kv : KVServer.

(** ** The invariant of a replica *)

(** A replica that has applied [n] operations: its map is the abstract one,
    and its history holds results of operations it has applied. *)
Definition at_prefix kv (n : nat) : Prop :=
  lastApplied kv = Z.of_nat n /\ (n <= length log)%nat
  /\ db kv = spec_db (take n log)
  /\ forall c h, history kv !! c = Some h ->
       exists i op, (i < n)%nat /\ log !! i = Some op /\ ClerkId op = c
         /\ ServerResponse.IncrId h = IncrId op.

Definition good_snapshot (s : Z * list byte) : Prop :=
  exists kv n, at_prefix kv n /\ s = (Z.of_nat n, Snapshot kv).

(** Two states with the same map, history and position. *)
Definition same_data kv kv' : Prop :=
  db kv' = db kv /\ history kv' = history kv /\ lastApplied kv' = lastApplied kv.

Lemma at_prefix_same kv kv' n : at_prefix kv n -> same_data kv kv' -> at_prefix kv' n.
Proof. intros H (Ed & Eh & El). unfold at_prefix. by rewrite Ed, Eh, El. Qed.

Lemma LoadSnapshot_Snapshot kv kv0 :
  LoadSnapshot kv (Snapshot kv0) = set_history (history kv0) (set_db (db kv0) kv).
Proof.
  unfold LoadSnapshot, Snapshot. rewrite decode_encode_db.
  rewrite <- (app_nil_r (encode_history (history kv0))) at 2. rewrite decode_encode_history.
  destruct (Z.ltb_spec (zlen (encode_db (db kv0) ++ encode_history (history kv0))) 1) as [H|]; [|done].
  rewrite zlen_app in H. pose proof (encode_db_nonempty (db kv0)) as Hne.
  pose proof (zlen_nonneg (encode_history (history kv0))).
  destruct (encode_db (db kv0)); [done|]. rewrite zlen_cons in H. pose proof (zlen_nonneg l). lia.
Qed.

(** ** Applying the next operation *)

(** Whatever the history and the table of pending requests, an operation with
    a fresh id is executed: the map moves on, and the history gains at most
    this operation's result. *)
Lemma apply_execute_spec kv op term :
  exists kv' r, apply_execute kv op term = Ok (kv', r)
    /\ db kv' = spec_apply (db kv) op /\ lastApplied kv' = lastApplied kv
    /\ ServerResponse.IncrId r = IncrId op /\ ServerResponse.ClerkId r = ClerkId op
    /\ (history kv' = history kv \/ history kv' = <[ClerkId op := r]> (history kv))
    /\ maxraftstate kv' = maxraftstate kv.
Proof.
  unfold apply_execute. destruct (DBExecute_spec kv op) as (r & -> & Ei & Ec & _). go_step.
  rewrite Ei. cbn [incrMapLogIdx set_db].
  destruct (incrMapLogIdx kv !! IncrId op) as [st|]; [|eexists _, _; split; [done|]; simpl; auto 10].
  destruct (negb (st =? term)); go_step; (eexists _, _; split; [done|]); simpl; rewrite ?Ei, ?Ec; auto 10.
Qed.

Lemma apply_command_next kv n op term :
  at_prefix kv n -> log !! n = Some op ->
  exists kv' r, apply_command kv (Some op) (Z.of_nat (S n)) term = Ok (kv', Some r)
    /\ at_prefix kv' (S n).
Proof.
  intros (El & Hn & Ed & Hh) Hop. unfold apply_command. rewrite El.
  destruct (Z.leb_spec (Z.of_nat (S n)) (Z.of_nat n)); [lia|]. cbn [deref]. go_step.
  set (kv1 := set_lastApplied (Z.of_nat (S n)) kv).
  assert (exists kv' r, (match history kv1 !! ClerkId op with
     | Some h => if ServerResponse.IncrId h =? IncrId op then mret (kv1, h)
                 else if ServerResponse.IncrId h <? IncrId op then apply_execute kv1 op term
                 else mret (kv1, ServerResponse.zero)
     | None => apply_execute kv1 op term
     end) = Ok (kv', r) /\ at_prefix kv' (S n)) as (kv' & r & -> & Hp).
  { destruct (apply_execute_spec kv1 op term) as (kv' & r & Hrun & Ed' & El' & Ei & Ec & Hh' & _).
    exists kv', r. split.
    - cbn [history kv1 set_lastApplied]. destruct (history kv !! ClerkId op) as [h|] eqn:E; [|done].
      destruct (Hh _ _ E) as (i & op' & Hi & Hop' & Ecl & ->).
      pose proof (log_fresh i n op' op Hi Hop' Hop Ecl).
      destruct (Z.eqb_spec (IncrId op') (IncrId op)); [lia|].
      destruct (Z.ltb_spec (IncrId op') (IncrId op)); [done|lia].
    - split_and!; [done|by apply lookup_lt_Some in Hop| |].
      + by rewrite Ed', (take_S_r log n op Hop), spec_db_snoc, <- Ed.
      + intros c h Hc. destruct Hh' as [E|E]; rewrite E in Hc; simpl in Hc.
        * destruct (Hh c h Hc) as (i & op' & Hi & ?). exists i, op'. split; [lia|done].
        * apply lookup_insert_Some in Hc as [[<- <-]|[_ Hc]]; [exists n, op; split; [lia|done]|].
          destruct (Hh c h Hc) as (i & op' & Hi & ?). exists i, op'. split; [lia|done]. }
  go_step. destruct (incrMapLogIdx kv' !! _); go_step; (eexists _, _; split; [done|]);
    [by apply (at_prefix_same kv')|done].
Qed.

(** The apply message for the operation at position [i] of the log. *)
Definition entry_msg (i : nat) (op : Op) (msg : Raft.ApplyMsg) : Prop :=
  log !! i = Some op /\ Raft.CommandValid msg = true /\ Raft.MsgCommand msg = Some op
  /\ Raft.CommandIndex msg = Z.of_nat (S i).

(** ** A world of replicas *)

Definition option_to_list {A} (o : option A) : list A :=
  match o with Some a => [a] | None => [] end.

(** One critical section of a replica, where the snapshots [ss] exist; the
    last argument is the snapshots it takes. *)
Inductive rep_step (ss : list (Z * list byte)) :
    KVServer -> KVServer -> list (Z * list byte) -> Prop :=
  | rs_apply kv kv' i op msg size r s :
      entry_msg i op msg -> Z.of_nat i <= lastApplied kv ->
      ApplyHandler kv msg size = Ok (kv', r, s) -> rep_step ss kv kv' (option_to_list s)
  | rs_install kv kv' msg size r s :
      Raft.CommandValid msg = false -> Raft.SnapshotValid msg = true ->
      (Raft.SnapshotIndex msg, Raft.MsgSnapshot msg) ∈ ss ->
      ApplyHandler kv msg size = Ok (kv', r, s) -> rep_step ss kv kv' (option_to_list s)
  | rs_started kv kv' op started r :
      handleOpQue_started kv op started = (kv', r) -> rep_step ss kv kv' []
  | rs_read_index kv kv' op count raft o :
      handleReadQue_index kv op count raft = (kv', o) -> rep_step ss kv kv' []
  | rs_read kv kv' op known o :
      Optype op = GET -> handleReadQue_execute kv op known = Ok (kv', o) -> rep_step ss kv kv' []
  | rs_conn kv clerk conn : rep_step ss kv (register_conn kv clerk conn) []
  | rs_status kv kv' bytes : sendStatus_confirm kv bytes = Ok kv' -> rep_step ss kv kv' []
  | rs_restart kv self maxstate addr port data index t :
      (data, index) = ([], 0) \/ (index, data) ∈ ss ->
      rep_step ss kv (StartKVServer self maxstate addr port (data, index, t)) [].

Record Cluster := mkCluster {
  reps : gmap Z KVServer;
  snaps : list (Z * list byte)
}.

Inductive cluster_step : Cluster -> Cluster -> Prop :=
  | cs_step w n kv kv' ss :
      reps w !! n = Some kv -> rep_step (snaps w) kv kv' ss ->
      cluster_step w (mkCluster (<[n := kv']> (reps w)) (ss ++ snaps w)).

Definition cluster_init (w : Cluster) : Prop :=
  snaps w = [] /\ forall n kv, reps w !! n = Some kv ->
    exists maxstate addr port t, kv = StartKVServer n maxstate addr port ([], 0, t).

Definition cluster_inv (w : Cluster) : Prop :=
  (forall n kv, reps w !! n = Some kv -> exists k, at_prefix kv k)
  /\ Forall good_snapshot (snaps w).

Lemma fresh_at_prefix kv :
  history kv = ∅ -> db kv = ∅ -> lastApplied kv = 0 -> at_prefix kv 0.
Proof. intros Eh Ed El. split_and!; [done|lia|done|]. intros c h. by rewrite Eh. Qed.

Lemma install_at_prefix kv n data index :
  at_prefix kv n -> good_snapshot (index, data) ->
  exists k, at_prefix (set_lastApplied index (LoadSnapshot kv data)) k.
Proof.
  intros _ (kv0 & k & (E0 & Hk & Ed & Hh) & [= -> ->]). exists k.
  rewrite LoadSnapshot_Snapshot. split_and!; simpl; done.
Qed.

Lemma ApplyHandler_entry kv n i op msg size kv' r s :
  at_prefix kv n -> entry_msg i op msg -> Z.of_nat i <= lastApplied kv ->
  ApplyHandler kv msg size = Ok (kv', r, s) ->
  (exists k, at_prefix kv' k) /\ Forall good_snapshot (option_to_list s).
Proof.
  intros Hp (Hop & Hv & Hc & Hi) Hle Hrun. pose proof Hp as (El & _).
  unfold ApplyHandler in Hrun. rewrite Hv, Hc, Hi in Hrun.
  destruct (decide (i = n)) as [->|Hne].
  - destruct (apply_command_next kv n op (Raft.SnapshotTerm msg) Hp Hop) as (kv1 & r1 & E & Hp').
    rewrite E in Hrun. go_inv. split; [eauto|].
    destruct (snapshot_due kv' size); constructor; [by exists kv', (S n)|constructor].
  - unfold apply_command in Hrun.
    destruct (Z.leb_spec (Z.of_nat (S i)) (lastApplied kv)); [|lia]. go_inv. split; [eauto|constructor].
Qed.

Lemma rep_step_inv ss kv kv' ss' n :
  Forall good_snapshot ss -> at_prefix kv n -> rep_step ss kv kv' ss' ->
  (exists k, at_prefix kv' k) /\ Forall good_snapshot ss'.
Proof.
  intros Hss Hp Hs. destruct Hs as
    [kv kv' i op msg size r s Hm Hi Hrun|kv kv' msg size r s Hv Hsv Hin Hrun|kv kv' op st r Hrun
    |kv kv' op count raft o Hrun|kv kv' op known o Hget Hrun|kv clerk conn|kv kv' bytes Hrun
    |kv self maxstate addr port data index t Hsnap].
  - by eapply ApplyHandler_entry.
  - unfold ApplyHandler in Hrun. rewrite Hv, Hsv in Hrun. go_inv. split; [|constructor].
    destruct (lastApplied kv <=? Raft.SnapshotIndex msg); [|eauto].
    rewrite Forall_forall in Hss. by eapply install_at_prefix; [|apply Hss].
  - split; [|constructor]. exists n. apply (at_prefix_same kv); [done|].
    unfold handleOpQue_started in Hrun. destruct st as [[? ?] []]; simpl in Hrun; by simplify_eq.
  - split; [|constructor]. exists n. apply (at_prefix_same kv); [done|].
    unfold handleReadQue_index in Hrun. repeat case_match; by simplify_eq.
  - split; [|constructor]. exists n. apply (at_prefix_same kv); [done|].
    unfold handleReadQue_execute in Hrun. case_match; [|by go_inv].
    destruct (DBExecute_spec kv op) as (r & E & _). rewrite E in Hrun. go_inv.
    unfold spec_apply. by rewrite Hget.
  - split; [|constructor]. exists n. apply (at_prefix_same kv); [done|].
    unfold register_conn. by case_match.
  - split; [|constructor]. exists n. apply (at_prefix_same kv); [done|].
    unfold sendStatus_confirm in Hrun. case_match; repeat (case_match || go_inv_step); done.
  - split; [|constructor]. unfold StartKVServer. destruct Hsnap as [[= -> ->]|Hin].
    + exists 0%nat. by apply fresh_at_prefix.
    + rewrite Forall_forall in Hss. destruct (Hss _ Hin) as (kv0 & k & (E0 & Hk & Ed & Hh) & [= -> ->]).
      exists k. rewrite LoadSnapshot_Snapshot. split_and!; simpl; done.
Qed.

Lemma cluster_reachable_inv w0 w : cluster_init w0 -> rtc cluster_step w0 w -> cluster_inv w.
Proof.
  intros [Hs Hi] Hr. assert (cluster_inv w0) as H0.
  { split; [|by rewrite Hs]. intros n kv Hn. destruct (Hi n kv Hn) as (? & ? & ? & ? & ->).
    exists 0%nat. by apply fresh_at_prefix. }
  clear Hs Hi. induction Hr as [|w1 w2 w3 Hstep _ IH]; [done|]. apply IH.
  destruct Hstep as [w n kv kv' ss Hn Hstep]. destruct H0 as [Hreps Hsn].
  destruct (Hreps n kv Hn) as [k Hk].
  destruct (rep_step_inv _ _ _ _ k Hsn Hk Hstep) as [Hk' Hss]. split; simpl.
  - intros m kvm [[<- <-]|[_ Hm]]%lookup_insert_Some; [done|by eapply Hreps].
  - by apply Forall_app.
Qed.

(** C4. Refinement: in every interleaving of the handlers of any number of
    replicas, with snapshots passed between them and restarts, fed with a log
    that holds no request twice and each clerk's requests in the order of their
    ids ([no_repeats]), the map of a replica that has applied [k] entries is the
    abstract map of the first [k] operations; so replicas that have applied the
    same entries hold the same map.  A retried request that gets into the log
    again breaks the condition, and then the conclusion
    ([duplicate_entry_diverges]). *)
Theorem replicas_refine_log w0 w a b kva kvb :
  cluster_init w0 -> rtc cluster_step w0 w ->
  reps w !! a = Some kva -> reps w !! b = Some kvb ->
  db kva = spec_db (take (Z.to_nat (lastApplied kva)) log)
  /\ (lastApplied kva = lastApplied kvb -> db kva = db kvb).
Proof.
  intros Hi Hr Ha Hb. destruct (cluster_reachable_inv w0 w Hi Hr) as [Hinv _].
  destruct (Hinv a kva Ha) as (n & El & _ & Ed & _). destruct (Hinv b kvb Hb) as (m & El' & _ & Ed' & _).
  rewrite Ed, Ed', El, El', !Nat2Z.id. split; [done|]. intros E. by apply Nat2Z.inj in E as ->.
Qed.

(** ** From the Raft log to the map *)

(** The service on a sequence of apply messages. *)
Fixpoint deliver_all (kv : KVServer) (msgs : list Raft.ApplyMsg) (size : Z) : go KVServer :=
  match msgs with
  | [] => mret kv
  | msg :: msgs => '(kv, _, _) ← ApplyHandler kv msg size; deliver_all kv msgs size
  end.

Lemma deliver_all_prefix {P} `{!RaftStore P} (rf : Raft.Raftserver P) kv n len msgs size :
  at_prefix kv n -> (n + len <= length log)%nat ->
  (forall i e, log_at rf (Z.of_nat (S i)) = Some e -> log !! i = Command e) ->
  msgs_for rf (seqZ (Z.of_nat n + 1) (Z.of_nat len)) msgs ->
  exists kv', deliver_all kv msgs size = Ok kv' /\ at_prefix kv' (n + len).
Proof.
  intros Hp Hlen Hlog. revert kv n msgs Hp Hlen. induction len as [|len IH]; intros kv n msgs Hp Hlen Hm.
  - simpl in Hm. inversion Hm. exists kv. by rewrite Nat.add_0_r.
  - rewrite seqZ_cons in Hm by lia. inversion Hm as [|? m ? ms' (e & He & ->) Hm']; subst. clear Hm.
    replace (Z.of_nat n + 1) with (Z.of_nat (S n)) in He by lia.
    destruct (lookup_lt_is_Some_2 log n) as [op Hop]; [lia|].
    pose proof (Hlog n e He) as Hcmd. rewrite Hop in Hcmd.
    destruct (apply_command_next kv n op (Term e) Hp Hop) as (kv' & r & E & Hp').
    cbn [deliver_all]. unfold ApplyHandler, msg_for.
    cbn [Raft.CommandValid Raft.MsgCommand Raft.CommandIndex Raft.SnapshotTerm].
    rewrite <- Hcmd, bool_decide_true by done.
    replace (Z.of_nat n + 1) with (Z.of_nat (S n)) by lia. rewrite E. go_step.
    replace (n + S len)%nat with (S n + len)%nat by lia. apply IH; [done|lia|].
    replace (Z.of_nat (S n) + 1) with (Z.succ (Z.of_nat n + 1)) by lia.
    by replace (Z.of_nat len) with (Z.pred (Z.of_nat (S len))) by lia.
Qed.

(** C9. End to end on one node: when the commands of the node's Raft log are
    the operations of [log], which holds no request twice ([no_repeats]), and the
    commit index is not past the end of the Raft log, running the service on
    everything a round of the apply loop delivers, no other critical section in
    between, ends with the abstract map of all committed operations. *)
Theorem committed_entries_reach_db {P} `{!RaftStore P} (rf : Raft.Raftserver P) kv n size :
  wf_log (Raft.log rf) ->
  Raft.lastIncludedIndex rf <= Raft.lastApplied rf <= Raft.commitIndex rf ->
  Raft.commitIndex rf <= Raft.last_index rf ->
  Raft.commitIndex rf <= zlen log ->
  (forall i e, log_at rf (Z.of_nat (S i)) = Some e -> log !! i = Command e) ->
  Raft.lastApplied rf = Z.of_nat n -> at_prefix kv n ->
  exists ms rf' kv', Raft.CommitCheck_buffer rf = Ok ms
    /\ Raft.CommitCheck_deliver rf ms = (ms, rf')
    /\ Raft.lastApplied rf' = Raft.commitIndex rf
    /\ deliver_all kv ms size = Ok kv'
    /\ lastApplied kv' = Raft.commitIndex rf
    /\ db kv' = spec_db (take (Z.to_nat (Raft.commitIndex rf)) log).
Proof.
  intros Hw Ha Hc Hl Hlog Hn Hp. unfold zlen in Hl.
  set (len := Z.to_nat (Raft.commitIndex rf - Raft.lastApplied rf)).
  destruct (buffer_loop_spec len rf (Raft.lastApplied rf) Hw) as (ms & Hb & Hms); [lia|lia|lia|].
  assert (msgs_for rf (seqZ (Raft.lastApplied rf + 1) (Z.of_nat len)) ms) as Hms'
    by (by replace (Z.of_nat len) with (Raft.commitIndex rf - Raft.lastApplied rf) by lia).
  pose proof (CommitCheck_deliver_spec rf len rf ms Hms') as Hd.
  rewrite Hn in Hms'. destruct (deliver_all_prefix rf kv n len ms size Hp) as (kv' & Hrun & Hp');
    [lia|done|done|].
  destruct Hp' as (El & _ & Ed & _).
  exists ms. eexists. exists kv'. split_and!; [done|exact Hd|simpl; lia|done|lia|].
  rewrite Ed. do 2 f_equal. lia.
Qed.

End replicas.

(** ** Repeated requests *)

(** A fresh operation is executed whatever its clerk did before. *)
Lemma apply_fresh kv op index term :
  lastApplied kv < index ->
  (forall h, history kv !! ClerkId op = Some h -> ServerResponse.IncrId h < IncrId op) ->
  exists r, ServerResponse.IncrId r = IncrId op
    /\ MsgProcess.OpToResp (set_Value (spec_value (db kv) op) op) (spec_err (db kv) op) = Ok r
    /\ apply_command kv (Some op) index term
       = Ok (match incrMapLogIdx kv !! IncrId op with
             | Some startTerm =>
                 if startTerm =? term
                 then (set_incrMapLogIdx (delete (IncrId op) (incrMapLogIdx kv))
                         (set_history (<[ClerkId op := r]> (history kv))
                            (set_db (spec_apply (db kv) op) (set_lastApplied index kv))), Some r)
                 else (set_incrMapLogIdx (delete (IncrId op) (incrMapLogIdx kv))
                         (set_db (spec_apply (db kv) op) (set_lastApplied index kv)),
                       Some (ServerResponse.SetErrId LeaderChangedId r))
             | None => (set_db (spec_apply (db kv) op) (set_lastApplied index kv), Some r)
             end).
Proof.
  intros Hi Hh. unfold apply_command.
  destruct (Z.leb_spec index (lastApplied kv)); [lia|]. cbn [deref]. go_step.
  destruct (DBExecute_spec (set_lastApplied index kv) op) as (r & Hx & Ei & Ec & _ & Hr).
  exists r. split; [done|]. split; [exact Hr|].
  assert (forall x : go (KVServer * ServerResponse.t),
    match history (set_lastApplied index kv) !! ClerkId op with
     | Some h => if ServerResponse.IncrId h =? IncrId op then mret (set_lastApplied index kv, h)
                 else if ServerResponse.IncrId h <? IncrId op then x
                 else mret (set_lastApplied index kv, ServerResponse.zero)
     | None => x
     end = x) as ->.
  { intros x. simpl. destruct (history kv !! ClerkId op) as [h|] eqn:E; [|done].
    specialize (Hh h eq_refl). destruct (Z.eqb_spec (ServerResponse.IncrId h) (IncrId op)); [lia|].
    destruct (Z.ltb_spec (ServerResponse.IncrId h) (IncrId op)); [done|lia]. }
  unfold apply_execute. rewrite Hx. go_step. rewrite Ei. simpl.
  destruct (incrMapLogIdx kv !! IncrId op) as [st|] eqn:Hp; [|simpl; by rewrite Ei, Hp].
  destruct (st =? term); simpl; rewrite Ei; simpl; by rewrite lookup_delete_eq.
Qed.

(** An operation whose result is the clerk's history is not executed. *)
Lemma apply_repeated kv op r index term :
  lastApplied kv < index -> history kv !! ClerkId op = Some r ->
  ServerResponse.IncrId r = IncrId op -> incrMapLogIdx kv !! IncrId op = None ->
  apply_command kv (Some op) index term = Ok (set_lastApplied index kv, Some r).
Proof.
  intros Hi Hh Ei Hp. unfold apply_command.
  destruct (Z.leb_spec index (lastApplied kv)); [lia|]. cbn [deref]. go_step. simpl.
  rewrite Hh, Ei, Z.eqb_refl. simpl. by rewrite Ei, Hp.
Qed.

(** The operation is performed, and [r] answers it, with the error that the
    leader has changed when this node started the request in another term. *)
Definition executed kv (op : Op) kv' (r : ServerResponse.t) : Prop :=
  db kv' = spec_apply (db kv) op
  /\ exists r0, MsgProcess.OpToResp (set_Value (spec_value (db kv) op) op) (spec_err (db kv) op) = Ok r0
     /\ ServerResponse.IncrId r = IncrId op
     /\ (r = r0 \/ r = ServerResponse.SetErrId LeaderChangedId r0).

Lemma apply_fresh_executed kv op index term :
  lastApplied kv < index ->
  (forall h, history kv !! ClerkId op = Some h -> ServerResponse.IncrId h < IncrId op) ->
  exists kv' r, apply_command kv (Some op) index term = Ok (kv', Some r) /\ lastApplied kv' = index
    /\ executed kv op kv' r.
Proof.
  intros Hi Hh. destruct (apply_fresh kv op index term Hi Hh) as (r & Ei & Hr & ->).
  destruct (incrMapLogIdx kv !! IncrId op) as [st|]; [destruct (st =? term)|]; (eexists _, _; split; [done|]);
    (split; [done|]); (split; [done|]); exists r; eauto.
Qed.

(** An operation with the id of the clerk's recorded result, or a smaller one,
    is not executed. *)
Lemma apply_known kv op h index term :
  lastApplied kv < index -> history kv !! ClerkId op = Some h -> IncrId op <= ServerResponse.IncrId h ->
  exists kv' r, apply_command kv (Some op) index term = Ok (kv', Some r) /\ lastApplied kv' = index /\ db kv' = db kv
    /\ (ServerResponse.IncrId h = IncrId op -> incrMapLogIdx kv !! IncrId op = None -> r = h).
Proof.
  intros Hi Hh Hle. unfold apply_command.
  destruct (Z.leb_spec index (lastApplied kv)); [lia|]. cbn [deref]. go_step. cbn [history set_lastApplied]. rewrite Hh.
  destruct (Z.eqb_spec (ServerResponse.IncrId h) (IncrId op)) as [E|E];
    [|destruct (Z.ltb_spec (ServerResponse.IncrId h) (IncrId op)); [lia|]]; go_step; cbn [incrMapLogIdx set_lastApplied];
    match goal with |- context [incrMapLogIdx kv !! ?k] => destruct (incrMapLogIdx kv !! k) as [st|] eqn:Ep end; go_step;
    (eexists _, _; split; [done|]); split_and!; try done.
  intros _ En. congruence.
Qed.

(** C35. A committed command in any state of the service, whether or not the log
    repeats requests: an index that was applied before changes nothing and is
    not answered.  A later one is applied without a panic, [lastApplied] becomes
    its index, and a response is queued.  If the history holds no result of the
    clerk with this request's id or a larger one, the operation is performed on
    the map, and the response has the request's id and the value in the map
    before it, or the error that the leader has changed; else the map stays as
    it is, and a repetition is answered with the recorded result. *)
Theorem next_entry_applies {codec : SnapshotCodec} kv op msg size :
  Raft.CommandValid msg = true -> Raft.MsgCommand msg = Some op ->
  (Raft.CommandIndex msg <= lastApplied kv -> ApplyHandler kv msg size = Ok (kv, None, None))
  /\ (lastApplied kv < Raft.CommandIndex msg ->
      exists kv' r s, ApplyHandler kv msg size = Ok (kv', Some r, s)
        /\ lastApplied kv' = Raft.CommandIndex msg
        /\ match history kv !! ClerkId op with
           | Some h =>
               if IncrId op <=? ServerResponse.IncrId h
               then db kv' = db kv
                    /\ (ServerResponse.IncrId h = IncrId op -> incrMapLogIdx kv !! IncrId op = None -> r = h)
               else executed kv op kv' r
           | None => executed kv op kv' r
           end).
Proof.
  intros Hv Hc. unfold ApplyHandler. rewrite Hv, Hc. split; intros Hi.
  { unfold apply_command. by destruct (Z.leb_spec (Raft.CommandIndex msg) (lastApplied kv)); [|lia]. }
  assert ((forall h, history kv !! ClerkId op = Some h -> ServerResponse.IncrId h < IncrId op)
    \/ exists h, history kv !! ClerkId op = Some h /\ IncrId op <= ServerResponse.IncrId h) as [Hh|(h & E & Hle)].
  { destruct (history kv !! ClerkId op) as [h|]; [|by left]. destruct (Z.lt_ge_cases (ServerResponse.IncrId h) (IncrId op));
      [left; by intros ? [= <-]|right; eauto]. }
  - destruct (apply_fresh_executed kv op (Raft.CommandIndex msg) (Raft.SnapshotTerm msg) Hi Hh) as (kv' & r & -> & El & Hx).
    go_step. eexists _, _, _. split; [done|]. split; [done|].
    destruct (history kv !! ClerkId op) as [h|]; [|done]. specialize (Hh h eq_refl).
    by destruct (Z.leb_spec (IncrId op) (ServerResponse.IncrId h)); [lia|].
  - rewrite E. destruct (apply_known kv op h (Raft.CommandIndex msg) (Raft.SnapshotTerm msg) Hi E Hle) as (kv' & r & -> & El & Ed & Hr).
    go_step. eexists _, _, _. split; [done|]. split; [done|].
    by destruct (Z.leb_spec (IncrId op) (ServerResponse.IncrId h)); [|lia].
Qed.

(** ** Reads *)

(** C10. A read is answered from a state at least as new as its read index: it
    waits until the index is applied, and then its value is the key's value in
    the replica's map at that moment (or the no-key error), nothing else
    changes, and the client decodes exactly that value.  When the log repeats no
    request ([no_repeats]), that map is the abstract map of everything the
    replica has applied. *)
Theorem read_is_fresh {codec : SnapshotCodec} {laws : SnapshotCodecLaws} kv op known :
  Optype op = GET -> zlen (Key op) < 2 ^ 32 ->
  (lastApplied kv < read_start kv op known ->
   handleReadQue_execute kv op known = Ok (kv, ReadWaits))
  /\ (read_start kv op known <= lastApplied kv ->
      exists kv' r body, handleReadQue_execute kv op known = Ok (kv', ReadAnswers r)
        /\ db kv' = db kv /\ lastApplied kv' = lastApplied kv /\ history kv' = history kv
        /\ incrMapLogIdx kv' = delete (IncrId op) (incrMapLogIdx kv)
        /\ ServerResponse.IncrId r = IncrId op
        /\ ServerResponse.Err r = (match db kv !! Key op with
                                   | Some _ => Common.ErrMap Common.OK
                                   | None => Common.ErrMap Common.NoKey
                                   end)
        /\ BodyPack.Unpack (ServerResponse.Data r) = Ok body
        /\ BodyPack.GetValue body = Ok (default [] (db kv !! Key op)))
  /\ (forall log w0 w n, no_repeats log -> cluster_init w0 -> rtc (cluster_step log) w0 w -> reps w !! n = Some kv ->
      db kv = spec_db (take (Z.to_nat (lastApplied kv)) log)).
Proof.
  intros Hget Hk. unfold handleReadQue_execute. split_and!.
  - intros Hle. by destruct (Z.leb_spec (read_start kv op known) (lastApplied kv)); [lia|].
  - intros Hle. destruct (Z.leb_spec (read_start kv op known) (lastApplied kv)); [|lia].
    destruct (DBExecute_spec kv op) as (r & -> & Ei & Ec & Ee & Hresp). go_step.
    assert (spec_apply (db kv) op = db kv) as -> by (unfold spec_apply; by rewrite Hget).
    destruct (op_body_Unpack (set_Value (spec_value (db kv) op) op) Hk) as (bin & Hp & _ & Hu).
    unfold MsgProcess.OpToResp in Hresp. rewrite Hp in Hresp. go_inv.
    eexists _, _, _. split; [done|]. simpl. split_and!; [done..| |exact Hu|].
    + unfold spec_err. rewrite Hget. simpl.
      destruct (db kv !! Key op); [by rewrite bool_decide_false|by rewrite bool_decide_true].
    + unfold BodyPack.GetValue. simpl. unfold spec_value. rewrite Hget. simpl.
      apply slice_from_Ok. rewrite zlen_app. pose proof (zlen_nonneg (Key op)).
      pose proof (zlen_nonneg (default [] (db kv !! Key op))). split; [lia|].
      unfold zlen. rewrite Nat2Z.id, drop_app_length. done.
  - intros log w0 w n Hnr Hi Hr Hn. destruct (cluster_reachable_inv log Hnr w0 w Hi Hr) as [Hinv _].
    destruct (Hinv n kv Hn) as (k & El & _ & Ed & _). by rewrite Ed, El, Nat2Z.id.
Qed.

(** C36. Exactly once on the leader: a write started on this node in the term
    of its log entry leaves its result in the history; a repetition of the
    request is then answered from the history without reaching Raft, and a
    second copy in the log does not touch the map. *)
Theorem leader_dedups kv op index term :
  lastApplied kv < index -> incrMapLogIdx kv !! IncrId op = Some term ->
  (forall h, history kv !! ClerkId op = Some h -> ServerResponse.IncrId h < IncrId op) ->
  exists kv' r, apply_command kv (Some op) index term = Ok (kv', Some r)
    /\ db kv' = spec_apply (db kv) op /\ handleOpQue_check kv' op = Answer r
    /\ forall j term', index < j ->
        exists kv'', apply_command kv' (Some op) j term' = Ok (kv'', Some r) /\ db kv'' = db kv'.
Proof.
  intros Hi Hpend Hh. destruct (apply_fresh kv op index term Hi Hh) as (r & Ei & _ & Hrun).
  rewrite Hpend, Z.eqb_refl in Hrun. eexists _, r. split; [exact Hrun|]. split; [done|]. split.
  - unfold handleOpQue_check. simpl. by rewrite lookup_insert_eq, Ei, Z.eqb_refl.
  - intros j term' Hj. eexists. split; [|shelve].
    apply apply_repeated; simpl; [done|by rewrite lookup_insert_eq|done|by rewrite lookup_delete_eq].
    Unshelve. done.
Qed.

(** On a node that did not start the request nothing enters the history,
    so a second copy of an append in the log is executed again there: the
    leader and a follower that apply the same two entries end with different
    maps. *)
Theorem duplicate_entry_diverges op term leader follower :
  Optype op = APPEND -> Value op <> [] ->
  lastApplied leader = 0 -> lastApplied follower = 0 ->
  history leader = ∅ -> history follower = ∅ -> db leader = db follower ->
  incrMapLogIdx leader = {[IncrId op := term]} -> incrMapLogIdx follower = ∅ ->
  exists l1 l2 f1 f2 r1 r2 r3 r4,
    apply_command leader (Some op) 1 term = Ok (l1, r1)
    /\ apply_command l1 (Some op) 2 term = Ok (l2, r2)
    /\ apply_command follower (Some op) 1 term = Ok (f1, r3)
    /\ apply_command f1 (Some op) 2 term = Ok (f2, r4)
    /\ db l2 <> db f2.
Proof.
  intros Hop Hv Ll Lf Hl Hf Hdb Pl Pf.
  destruct (apply_fresh leader op 1 term) as (r & Er & _ & Hl1); [lia|by rewrite Hl|].
  rewrite Pl, lookup_singleton_eq, Z.eqb_refl in Hl1.
  destruct (apply_fresh follower op 1 term) as (r3 & _ & _ & Hf1); [lia|by rewrite Hf|].
  rewrite Pf, lookup_empty in Hf1.
  set (f1 := set_db _ _) in Hf1.
  destruct (apply_fresh f1 op 2 term) as (r4 & _ & _ & Hf2); [simpl; lia|simpl; by rewrite Hf|].
  replace (incrMapLogIdx f1) with (∅ : gmap Z Z) in Hf2 by (by rewrite <- Pf).
  rewrite lookup_empty in Hf2.
  set (l1 := set_incrMapLogIdx _ _) in Hl1.
  assert (apply_command l1 (Some op) 2 term = Ok (set_lastApplied 2 l1, Some r)) as Hl2.
  { apply apply_repeated; simpl; [lia|by rewrite lookup_insert_eq|done|by rewrite lookup_delete_eq]. }
  eexists l1, _, f1, _, _, _, _, _. split_and!; [exact Hl1|exact Hl2|exact Hf1|exact Hf2|].
  cbn [db set_db set_lastApplied set_incrMapLogIdx set_history f1 l1]. rewrite Hdb.
  unfold spec_apply. rewrite Hop. change (APPEND =? PUT) with false. change (APPEND =? APPEND) with true.
  cbn iota. intros E. apply (f_equal (fun m => m !! Key op)) in E.
  rewrite !lookup_insert_eq in E. simpl in E. injection E as E.
  apply (f_equal length) in E. rewrite !length_app in E. destruct (Value op); [done|]. simpl in E. lia.
Qed.

(** A snapshot loaded anywhere restores the map and the history it was
    taken from, and nothing else changes. *)
Theorem snapshot_restores {codec : SnapshotCodec} {laws : SnapshotCodecLaws} kv kv0 :
  LoadSnapshot kv (Snapshot kv0) = set_history (history kv0) (set_db (db kv0) kv).
Proof. apply LoadSnapshot_Snapshot. Qed.

(** ** A codec, and runs on concrete replicas *)

#[export] Instance ServerResponse_eq_dec : EqDecision ServerResponse.t.
Proof. solve_decision. Defined.

#[export] Instance ServerResponse_countable : Countable ServerResponse.t.
Proof.
  apply (inj_countable'
    (fun r => (ServerResponse.OpId r, ServerResponse.DataLen r, ServerResponse.IncrId r,
               ServerResponse.ClerkId r, ServerResponse.ServerId r, ServerResponse.Err r,
               ServerResponse.Data r))
    (fun '(a, b, c, d, e, f, g) => ServerResponse.mk a b c d e f g)).
  by intros [].
Defined.

#[export] Instance count_codec : SnapshotCodec := {
  encode_db := count_encode;
  decode_db := count_decode;
  encode_history := count_encode;
  decode_history := count_decode
}.

#[export] Instance count_codec_laws : SnapshotCodecLaws.
Proof.
  split; intros; [|apply count_decode_encode..].
  unfold encode_db, count_codec, count_encode. by destruct (encode d).
Qed.

Definition put_a : Op := mkOp PUT 10 1 [x61] [x41].
Definition append_a : Op := mkOp APPEND 11 1 [x61] [x42].
Definition get_a : Op := mkOp GET 12 1 [x61] [].
Definition sample_ops : list Op := [put_a; append_a].

Lemma sample_ops_fresh : no_repeats sample_ops.
Proof.
  intros i j a b Hij Ha Hb _. destruct i as [|[|i]], j as [|[|j]]; simpl in *; try lia; try done.
  by simplify_eq.
Qed.

Definition fresh_kv (n : Z) : KVServer := StartKVServer n (-1) [] 0 ([], 0, 0).

Definition sample_cluster : Cluster := mkCluster {[0 := fresh_kv 0; 1 := fresh_kv 1]} [].

Lemma sample_cluster_init : cluster_init sample_cluster.
Proof.
  split; [done|]. intros n kv Hn. unfold sample_cluster in Hn. cbn [reps] in Hn. apply lookup_insert_Some in Hn as [[<- <-]|[_ Hn]];
    [|apply lookup_singleton_Some in Hn as [<- <-]]; by eexists _, _, _, _.
Qed.

Definition cmd_msg (op : Op) (i : Z) : Raft.ApplyMsg := Raft.mkApplyMsg true (Some op) i false [] 1 0.

(** Replica 0 after the first operation. *)
Definition applied_one : KVServer :=
  match apply_command (fresh_kv 0) (Some put_a) 1 1 with Ok (kv, _) => kv | _ => fresh_kv 0 end.

Definition sample_cluster1 : Cluster := mkCluster (<[0 := applied_one]> (reps sample_cluster)) [].

Lemma sample_run : rtc (cluster_step sample_ops) sample_cluster sample_cluster1.
Proof.
  apply rtc_once. apply (cs_step sample_ops sample_cluster 0 (fresh_kv 0) applied_one []); [done|].
  eapply (rs_apply sample_ops [] (fresh_kv 0) applied_one 0 put_a (cmd_msg put_a 1) 0 _ None);
    [done|done|reflexivity].
Qed.

Lemma replicas_refine_log_witness :
  exists kv, reps sample_cluster1 !! 0 = Some kv /\ lastApplied kv = 1
    /\ db kv = spec_db [put_a].
Proof.
  exists applied_one. split_and!; [done|done|].
  apply (replicas_refine_log sample_ops sample_ops_fresh sample_cluster sample_cluster1 0 0
    applied_one applied_one sample_cluster_init sample_run); done.
Defined.

Lemma next_entry_applies_witness :
  exists kv' r s, ApplyHandler applied_one (cmd_msg append_a 2) 0 = Ok (kv', Some r, s)
    /\ db kv' !! [x61] = Some [x41; x42].
Proof.
  destruct (next_entry_applies applied_one append_a (cmd_msg append_a 2) 0) as [_ Hn]; [done..|].
  destruct Hn as (kv' & r & s & Hrun & _ & Hd & _); [by vm_compute|].
  exists kv', r, s. split; [done|]. rewrite Hd. reflexivity.
Defined.

(** Replica 0 with a read waiting for index 1. *)
Definition reading_one : KVServer := set_incrMapLogIdx {[12 := 1]} applied_one.

Lemma read_is_fresh_witness :
  exists kv' r body, handleReadQue_execute reading_one get_a None = Ok (kv', ReadAnswers r)
    /\ BodyPack.Unpack (ServerResponse.Data r) = Ok body /\ BodyPack.GetValue body = Ok [x41].
Proof.
  destruct (read_is_fresh reading_one get_a None) as (_ & Hread & _); [done..|].
  destruct Hread as (kv' & r & body & Hrun & _ & _ & _ & _ & _ & _ & Hu & Hv); [by vm_compute|].
  by exists kv', r, body.
Defined.

(** A node whose Raft log holds the two sample operations, both committed. *)
Definition sample_rf : Raft.Raftserver MemStore.t :=
  Raft.mkRaft 1 [0; 2] 0 0 [Some (mkEntry 0 None); Some (mkEntry 1 (Some put_a));
    Some (mkEntry 1 (Some append_a))] 1 (-1) 2 0 ∅ ∅ Raft.Follower 1 [] 0 0 MemStore.empty.

Lemma committed_entries_reach_db_witness :
  exists ms kv', Raft.CommitCheck_buffer sample_rf = Ok ms
    /\ deliver_all (fresh_kv 1) ms 0 = Ok kv' /\ db kv' = spec_db sample_ops.
Proof.
  destruct (committed_entries_reach_db sample_ops sample_ops_fresh sample_rf (fresh_kv 1) 0 0)
    as (ms & rf' & kv' & Hb & _ & _ & Hd & _ & Hdb).
  - split; [done|]. repeat constructor; eauto.
  - by vm_compute.
  - by vm_compute.
  - by vm_compute.
  - intros i e. destruct i as [|[|i]]; [by intros [= <-]..|].
    unfold log_at. destruct (Z.ltb_spec (Z.of_nat (S (S (S i)))) (Raft.lastIncludedIndex sample_rf)); [done|].
    replace (Z.to_nat _) with (S (S (S i))) by (unfold Raft.GlobalToLocal; simpl; lia). done.
  - done.
  - by apply fresh_at_prefix.
  - by exists ms, kv'.
Defined.

Lemma leader_dedups_witness :
  exists kv' r, apply_command (set_incrMapLogIdx {[11 := 1]} applied_one) (Some append_a) 2 1
      = Ok (kv', Some r) /\ handleOpQue_check kv' append_a = Answer r.
Proof.
  destruct (leader_dedups (set_incrMapLogIdx {[11 := 1]} applied_one) append_a 2 1)
    as (kv' & r & Hrun & _ & Hc & _); [by vm_compute|done|done|].
  by exists kv', r.
Defined.

