(* ===== verification/WalJson.v ===== *)
(** * WalJson: the JSON entries of wal/wal.go

    In the format [JSON] a log entry is a line
    [{"index":"<number>","data":"<data>"}], where the data is the escaped
    string after a [+] when it is valid UTF-8, and base64 after a [$] when it is
    not.  [appendJSONEntry], [appendJSONData], [loadNextJSONEntry] and
    [readJSON] are the functions of the file.

    From Go's standard library: [utf8.Valid], [json.Marshal] of a string (with
    the escapes of Go 1.22, the version of go.mod), [base64.URLEncoding],
    [strconv.AppendUint] and [bytes.IndexByte].  The lookup of a field,
    [gjson.Get], is the library github.com/tidwall/gjson: the class [Gjson],
    whose law is the documented result on an object with two string fields. *)

From S2P Require Import Prelude Binary.

(** ** unicode/utf8 *)

Definition byte_in (lo hi : Z) (b : byte) : bool := (lo <=? byte_to_Z b) && (byte_to_Z b <=? hi).

Definition cont (b : byte) : bool := byte_in 128 191 b.

(** The encodings of two, three and four bytes: no overlong form, no
    surrogate, nothing above U+10FFFF. *)
Definition rune2 (b0 b1 : byte) : bool := byte_in 194 223 b0 && cont b1.

Definition rune3 (b0 b1 b2 : byte) : bool :=
  ((byte_in 224 224 b0 && byte_in 160 191 b1)
   || (byte_in 225 236 b0 && cont b1)
   || (byte_in 237 237 b0 && byte_in 128 159 b1)
   || (byte_in 238 239 b0 && cont b1)) && cont b2.

Definition rune4 (b0 b1 b2 b3 : byte) : bool :=
  ((byte_in 240 240 b0 && byte_in 144 191 b1)
   || (byte_in 241 243 b0 && cont b1)
   || (byte_in 244 244 b0 && byte_in 128 143 b1)) && cont b2 && cont b3.

Definition ascii (b : byte) : bool := byte_to_Z b <? 128.

Fixpoint utf8_Valid (s : list byte) : bool :=
  match s with
  | [] => true
  | b0 :: r0 =>
      if ascii b0 then utf8_Valid r0
      else match r0 with
           | [] => false
           | b1 :: r1 =>
               if rune2 b0 b1 then utf8_Valid r1
               else match r1 with
                    | [] => false
                    | b2 :: r2 =>
                        if rune3 b0 b1 b2 then utf8_Valid r2
                        else match r2 with
                             | [] => false
                             | b3 :: r3 => rune4 b0 b1 b2 b3 && utf8_Valid r3
                             end
                    end
           end
  end.

(** The bytes of a code point below U+10000. *)
Definition utf8_encode (c : Z) : list byte :=
  if c <? 128 then [byte_of_Z c]
  else if c <? 2048 then [byte_of_Z (192 + c / 64); byte_of_Z (128 + c mod 64)]
  else [byte_of_Z (224 + c / 4096); byte_of_Z (128 + (c / 64) mod 64); byte_of_Z (128 + c mod 64)].

(** ** encoding/json *)

Definition hex_digit (n : Z) : byte := byte_of_Z (if n <? 10 then 48 + n else 87 + n).

Definition unicode_escape (c : Z) : list byte :=
  x5c :: x75 :: map hex_digit [c / 4096; (c / 256) mod 16; (c / 16) mod 16; c mod 16].

(** The escape of an ASCII character: the short forms, [\u00xx] for the other
    control characters and for the characters special in HTML. *)
Definition escape_ascii (b : byte) : list byte :=
  match b with
  | x22 => [x5c; x22]
  | x5c => [x5c; x5c]
  | x08 => [x5c; x62]
  | x0c => [x5c; x66]
  | x0a => [x5c; x6e]
  | x0d => [x5c; x72]
  | x09 => [x5c; x74]
  | x3c | x3e | x26 => unicode_escape (byte_to_Z b)
  | _ => if byte_to_Z b <? 32 then unicode_escape (byte_to_Z b) else [b]
  end.

(** The separators U+2028 and U+2029 are escaped. *)
Definition escape_rune3 (b0 b1 b2 : byte) : list byte :=
  match b0, b1, b2 with
  | xe2, x80, xa8 => unicode_escape 8232
  | xe2, x80, xa9 => unicode_escape 8233
  | _, _, _ => [b0; b1; b2]
  end.

(** A byte that starts no valid encoding is replaced by U+FFFD. *)
Fixpoint escape (s : list byte) : list byte :=
  match s with
  | [] => []
  | b0 :: r0 =>
      if ascii b0 then escape_ascii b0 ++ escape r0
      else let bad := unicode_escape 65533 ++ escape r0 in
      match r0 with
      | [] => bad
      | b1 :: r1 =>
          if rune2 b0 b1 then b0 :: b1 :: escape r1
          else match r1 with
               | [] => bad
               | b2 :: r2 =>
                   if rune3 b0 b1 b2 then
                     escape_rune3 b0 b1 b2 ++ escape r2
                   else match r2 with
                        | [] => bad
                        | b3 :: r3 =>
                            if rune4 b0 b1 b2 b3 then b0 :: b1 :: b2 :: b3 :: escape r3 else bad
                        end
               end
      end
  end.

Definition json_Marshal (s : list byte) : list byte := x22 :: escape s ++ [x22].

(** ** JSON string literals

    The string that a literal denotes, and what follows it; the argument starts
    after the opening quote.  An escaped surrogate is not read. *)

Definition unhex (b : byte) : option Z :=
  let n := byte_to_Z b in
  if byte_in 48 57 b then Some (n - 48)
  else if byte_in 97 102 b then Some (n - 87)
  else if byte_in 65 70 b then Some (n - 55)
  else None.

Definition unescape (e : byte) : option byte :=
  match e with
  | x22 => Some x22 | x5c => Some x5c | x2f => Some x2f
  | x62 => Some x08 | x66 => Some x0c | x6e => Some x0a | x72 => Some x0d | x74 => Some x09
  | _ => None
  end.

Definition hex4 (a b c d : byte) : option Z :=
  a ← unhex a; b ← unhex b; c ← unhex c; d ← unhex d;
  let n := 4096 * a + 256 * b + 16 * c + d in
  if (55296 <=? n) && (n <? 57344) then None else Some n.

Definition prepend (u : list byte) (p : option (list byte * list byte)) : option (list byte * list byte) :=
  '(s, rest) ← p; Some (u ++ s, rest).

Fixpoint unquote (t : list byte) : option (list byte * list byte) :=
  match t with
  | [] => None
  | b :: r =>
      if bool_decide (b = x22) then Some ([], r)
      else if bool_decide (b = x5c) then
        match r with
        | [] => None
        | e :: r =>
            if bool_decide (e = x75) then
              match r with
              | a :: b :: c :: d :: r => n ← hex4 a b c d; prepend (utf8_encode n) (unquote r)
              | _ => None
              end
            else c ← unescape e; prepend [c] (unquote r)
        end
      else if byte_to_Z b <? 32 then None
      else prepend [b] (unquote r)
  end.

(** ** encoding/base64: [URLEncoding] *)

(** The alphabet A-Z, a-z, 0-9, [-] and [_]; [=] pads the last group. *)
Definition b64_char (n : Z) : byte :=
  byte_of_Z (if n <? 26 then 65 + n else if n <? 52 then 71 + n else if n <? 62 then n - 4
             else if n =? 62 then 45 else 95).

Definition b64_value (b : byte) : option Z :=
  let n := byte_to_Z b in
  if byte_in 65 90 b then Some (n - 65)
  else if byte_in 97 122 b then Some (n - 71)
  else if byte_in 48 57 b then Some (n + 4)
  else if n =? 45 then Some 62
  else if n =? 95 then Some 63
  else None.

(** The four six-bit groups of a 24-bit value, and the three bytes of one. *)
Definition sextets (v : Z) : list Z :=
  [Z.land (Z.shiftr v 18) 63; Z.land (Z.shiftr v 12) 63; Z.land (Z.shiftr v 6) 63; Z.land v 63].

Definition octets (v : Z) : list byte :=
  [byte_of_Z (Z.shiftr v 16); byte_of_Z (Z.shiftr v 8); byte_of_Z v].

Definition join_octets (a b c : byte) : Z :=
  Z.lor (Z.lor (Z.shiftl (byte_to_Z a) 16) (Z.shiftl (byte_to_Z b) 8)) (byte_to_Z c).

Definition join_sextets (a b c d : Z) : Z :=
  Z.lor (Z.lor (Z.lor (Z.shiftl a 18) (Z.shiftl b 12)) (Z.shiftl c 6)) d.

Fixpoint EncodeToString (s : list byte) : list byte :=
  match s with
  | [] => []
  | [a] => map b64_char (take 2 (sextets (join_octets a x00 x00))) ++ [x3d; x3d]
  | [a; b] => map b64_char (take 3 (sextets (join_octets a b x00))) ++ [x3d]
  | a :: b :: c :: r => map b64_char (sextets (join_octets a b c)) ++ EncodeToString r
  end.

(** The decoder works on groups of four characters; padding ends the input. *)
Fixpoint decode_groups (s : list byte) : option (list byte) :=
  match s with
  | [] => Some []
  | a :: b :: c :: d :: r =>
      va ← b64_value a; vb ← b64_value b;
      if bool_decide (c = x3d) then
        if bool_decide (d = x3d /\ r = []) then Some (take 1 (octets (join_sextets va vb 0 0))) else None
      else
        vc ← b64_value c;
        if bool_decide (d = x3d) then
          if bool_decide (r = []) then Some (take 2 (octets (join_sextets va vb vc 0))) else None
        else
          vd ← b64_value d; t ← decode_groups r; Some (octets (join_sextets va vb vc vd) ++ t)
  | _ => None
  end.

(** Line ends are skipped wherever they stand. *)
Definition DecodeString (s : list byte) : option (list byte) :=
  decode_groups (filter (fun b => b <> x0a /\ b <> x0d) s).

(** ** github.com/tidwall/gjson *)

Inductive gjson_type := GNull | GFalse | GNumber | GString | GTrue | GJSON.

(** [gjson.Get]: the type of the value at a path and its [String()]. *)
Class Gjson := { gjson_Get : list byte -> list byte -> gjson_type * list byte }.

Definition letter (b : byte) : bool := byte_in 97 122 b.

(** An object whose two fields are strings, given by their literals less the
    opening quote. *)
Definition object2 (k1 v1 k2 v2 : list byte) : list byte :=
  [x7b; x22] ++ k1 ++ [x22; x3a; x22] ++ v1 ++ [x2c; x22] ++ k2 ++ [x22; x3a; x22] ++ v2 ++ [x7d].

Class GjsonLaws `{Gjson} := {
  Get_second k1 v1 s1 k2 v2 s2 ws :
    Forall letter k1 -> Forall letter k2 -> k1 <> k2 ->
    unquote v1 = Some (s1, []) -> unquote v2 = Some (s2, []) -> Forall (fun b => b = x0a) ws ->
    gjson_Get (object2 k1 v1 k2 v2 ++ ws) k2 = (GString, s2)
}.

(** ** The functions of wal.go *)

Section entries.
Context {gjson : Gjson}.

(** The texts index and data. *)
Definition key_index : list byte := [x69; x6e; x64; x65; x78].
Definition key_data : list byte := [x64; x61; x74; x61].

Definition appendJSONData (dst s : list byte) : go (list byte) :=
  if utf8_Valid s then
    let b := json_Marshal s in
    let dst := dst ++ [x22; x2b] in
    rest ← slice_from b 1;
    mret (dst ++ rest)
  else
    let dst := dst ++ [x22; x24] in
    let dst := dst ++ EncodeToString s in
    mret (dst ++ [x22]).

Definition appendJSONEntry (dst : list byte) (index : Z) (data : list byte)
    : go (list byte * (Z * Z)) :=
  let pos := zlen dst in
  let dst := dst ++ [x7b; x22] ++ key_index ++ [x22; x3a; x22] in
  let dst := dst ++ fmt_d index in
  let dst := dst ++ [x22; x2c; x22] ++ key_data ++ [x22; x3a] in
  dst ← appendJSONData dst data;
  let dst := dst ++ [x7d; x0a] in
  mret (dst, (pos, zlen dst)).

(** [bytes.IndexByte]. *)
Fixpoint IndexByte (s : list byte) (c : byte) : Z :=
  match s with
  | [] => -1
  | b :: s => if bool_decide (b = c) then 0
              else let i := IndexByte s c in if i =? -1 then -1 else i + 1
  end.

Definition loadNextJSONEntry (data : list byte) : go Z :=
  let idx := IndexByte data x0a in
  if idx =? -1 then Err ErrCorrupt
  else
    line ← slice_to data idx;
    match gjson_Get line key_data with
    | (GString, _) => mret (idx + 1)
    | _ => Err ErrCorrupt
    end.

Definition readJSON (edata : list byte) : go (list byte) :=
  let s := (gjson_Get edata key_data).2 in
  match s with
  | x24 :: s1 =>
      match DecodeString s1 with
      | Some data => mret data
      | None => Err ErrCorrupt
      end
  | x2b :: s1 => mret s1
  | _ => Err ErrCorrupt
  end.

End entries.

(** ** Literals are read back *)

Lemma unquote_ascii b t : ascii b -> unquote (escape_ascii b ++ t) = prepend [b] (unquote t).
Proof. destruct b; intros []; reflexivity. Qed.

Lemma escape_ascii_line b : ascii b -> x0a ∉ escape_ascii b.
Proof. destruct b; intros []; by apply (bool_decide_unpack (x0a ∉ _)). Qed.

(** The characters a literal holds as they are. *)
Definition plain (b : byte) : Prop := 32 <= byte_to_Z b /\ b <> x22 /\ b <> x5c.

#[export] Instance plain_dec b : Decision (plain b).
Proof. apply _. Defined.

Lemma plain_line b : plain b -> x0a <> b.
Proof. by intros [H _] <-. Qed.

Lemma plain_high b : ~ ascii b -> plain b.
Proof. destruct b; intros H; first [destruct (H I) | split_and!; [by vm_compute|done|done]]. Qed.

Lemma unquote_plain s t : Forall plain s -> unquote (s ++ t) = prepend s (unquote t).
Proof.
  induction 1 as [|b s (Hb & H1 & H2) Hs IH]; [cbn [app]; by destruct (unquote t) as [[]|]|].
  cbn [app unquote]. rewrite !bool_decide_false by done. destruct (Z.ltb_spec (byte_to_Z b) 32); [lia|].
  rewrite IH. by destruct (unquote t) as [[]|].
Qed.

Lemma plain_lines s : Forall plain s -> x0a ∉ s.
Proof. intros Hs Hin. rewrite Forall_forall in Hs. by eapply plain_line; [apply Hs|]. Qed.

Lemma prepend_app u v p : prepend u (prepend v p) = prepend (u ++ v) p.
Proof. destruct p as [[s r]|]; simpl; [by rewrite app_assoc|done]. Qed.

Lemma unquote_rune3 b0 b1 b2 :
  Forall plain [b0; b1; b2] ->
  (forall t, unquote (escape_rune3 b0 b1 b2 ++ t) = prepend [b0; b1; b2] (unquote t))
  /\ x0a ∉ escape_rune3 b0 b1 b2.
Proof.
  intros Hp. pose proof (conj (fun t => unquote_plain _ t Hp) (plain_lines _ Hp)) as Hcopy. clear Hp.
  destruct b0; try exact Hcopy; destruct b1; try exact Hcopy; destruct b2; try exact Hcopy;
    (split; [reflexivity|by apply (bool_decide_unpack (x0a ∉ _))]).
Qed.

(** The bytes after the first of a rune are not ASCII. *)
Ltac rune_bytes :=
  unfold rune2, rune3, rune4, cont, byte_in, ascii; rewrite !Is_true_true;
  repeat rewrite ?andb_true_iff, ?orb_true_iff, ?not_true_iff_false, ?Z.leb_le, ?Z.ltb_ge; lia.

Lemma rune2_high b0 b1 : rune2 b0 b1 -> ~ ascii b1.
Proof. rune_bytes. Qed.

Lemma rune3_high b0 b1 b2 : rune3 b0 b1 b2 -> ~ ascii b1 /\ ~ ascii b2.
Proof. rune_bytes. Qed.

Lemma rune4_high b0 b1 b2 b3 : rune4 b0 b1 b2 b3 -> ~ ascii b1 /\ ~ ascii b2 /\ ~ ascii b3.
Proof. rune_bytes. Qed.

(** [u] is written as [e], a text on one line that is read back as [u]. *)
Definition quotes (e u : list byte) : Prop :=
  (forall t, unquote (e ++ t) = prepend u (unquote t)) /\ x0a ∉ e.

Lemma quotes_app e u e' u' : quotes e u -> quotes e' u' -> quotes (e ++ e') (u ++ u').
Proof.
  intros [H1 N1] [H2 N2]. split; [|by rewrite not_elem_of_app].
  intros t. by rewrite <- app_assoc, H1, H2, prepend_app.
Qed.

Lemma quotes_plain s : Forall plain s -> quotes s s.
Proof. intros Hs. split; [intros t; by apply unquote_plain|by apply plain_lines]. Qed.

Lemma plain_all s : Forall (fun b => ~ ascii b) s -> Forall plain s.
Proof. intros Hs. eapply Forall_impl; [exact Hs|exact plain_high]. Qed.

(** A valid string comes back from its literal, which is one line. *)
Lemma quotes_escape s : utf8_Valid s -> quotes (escape s) s.
Proof.
  remember (length s) as n eqn:En. revert s En.
  induction (lt_wf n) as [n _ IH]. intros [|b0 r0] -> Hv; [by apply quotes_plain|].
  cbn [utf8_Valid escape] in *. destruct (ascii b0) eqn:E0.
  { apply (quotes_app (escape_ascii b0) [b0]); [|by eapply IH; [|done|]; simpl; [lia|]].
    split; [intros t; apply unquote_ascii|apply escape_ascii_line]; by rewrite E0. }
  assert (~ ascii b0) as H0 by (by rewrite E0; intros []).
  destruct r0 as [|b1 r1]; [done|]. destruct (rune2 b0 b1) eqn:E2.
  { apply (quotes_app [b0; b1] [b0; b1]); [|by eapply IH; [|done|]; simpl; [lia|]].
    assert (~ ascii b1) by (apply (rune2_high b0); by rewrite E2).
    apply quotes_plain, plain_all. by repeat constructor. }
  destruct r1 as [|b2 r2]; [done|]. destruct (rune3 b0 b1 b2) eqn:E3.
  { apply (quotes_app _ [b0; b1; b2]); [|by eapply IH; [|done|]; simpl; [lia|]].
    destruct (rune3_high b0 b1 b2); [by rewrite E3|]. apply unquote_rune3, plain_all. by repeat constructor. }
  destruct r2 as [|b3 r3]; [done|]. destruct (rune4 b0 b1 b2 b3) eqn:E4; [|done].
  apply (quotes_app [b0; b1; b2; b3] [b0; b1; b2; b3]); [|by eapply IH; [|done|]; simpl; [lia|]].
  destruct (rune4_high b0 b1 b2 b3) as (? & ? & ?); [by rewrite E4|].
  apply quotes_plain, plain_all. by repeat constructor.
Qed.

(** ** base64 is read back *)

Lemma b64_char_ok n :
  0 <= n < 64 -> b64_value (b64_char n) = Some n /\ plain (b64_char n) /\ b64_char n <> x3d /\ b64_char n <> x0d.
Proof.
  intros Hn.
  assert (Forall (fun n => b64_value (b64_char n) = Some n /\ plain (b64_char n) /\ b64_char n <> x3d /\ b64_char n <> x0d)
            (seqZ 0 64)) as H by (by apply (bool_decide_unpack (Forall _ _)); vm_compute).
  rewrite Forall_forall in H. apply H. by apply elem_of_seqZ.
Qed.

Lemma join_octets_sum a b c :
  join_octets a b c = byte_to_Z a * 65536 + byte_to_Z b * 256 + byte_to_Z c.
Proof.
  unfold join_octets. pose proof (byte_to_Z_range a). pose proof (byte_to_Z_range b). pose proof (byte_to_Z_range c).
  rewrite <- Z.lor_assoc, Z.lor_comm, (Z.lor_comm (Z.shiftl _ 8)).
  rewrite (lor_shiftl_split (byte_to_Z b)) by (simpl; lia). rewrite lor_shiftl_split by (simpl; lia). lia.
Qed.

Lemma join_sextets_sum a b c d :
  0 <= a < 64 -> 0 <= b < 64 -> 0 <= c < 64 -> 0 <= d < 64 ->
  join_sextets a b c d = a * 262144 + b * 4096 + c * 64 + d.
Proof.
  intros. unfold join_sextets. rewrite <- !Z.lor_assoc, Z.lor_comm, (Z.lor_comm (Z.shiftl b 12)), (Z.lor_comm (Z.shiftl c 6)).
  rewrite (lor_shiftl_split c) by (simpl; lia). rewrite (lor_shiftl_split b) by (simpl; lia).
  rewrite (lor_shiftl_split a) by (simpl; lia). lia.
Qed.

Lemma sextets_div v :
  sextets v = [v / 262144 mod 64; v / 4096 mod 64; v / 64 mod 64; v mod 64].
Proof.
  unfold sextets. rewrite !Z.shiftr_div_pow2 by lia. change 63 with (Z.ones 6). by rewrite !Z.land_ones by lia.
Qed.

Lemma octets_div v a b c :
  v = byte_to_Z a * 65536 + byte_to_Z b * 256 + byte_to_Z c -> octets v = [a; b; c].
Proof.
  intros ->. pose proof (byte_to_Z_range a). pose proof (byte_to_Z_range b). pose proof (byte_to_Z_range c).
  assert (forall x y, x mod 256 = byte_to_Z y -> byte_of_Z x = y) as Hb.
  { intros x y E. rewrite <- (byte_of_to_Z y), <- E. unfold byte_of_Z. by rewrite Z.mod_mod. }
  unfold octets. rewrite !Z.shiftr_div_pow2 by lia.
  repeat f_equal; apply Hb; change (2 ^ 16) with 65536; change (2 ^ 8) with 256; Z.to_euclidean_division_equations; lia.
Qed.

(** The sextets of three bytes, joined again. *)
Lemma join_split a b c :
  exists p q r s, sextets (join_octets a b c) = [p; q; r; s]
    /\ (0 <= p < 64 /\ 0 <= q < 64 /\ 0 <= r < 64 /\ 0 <= s < 64)
    /\ join_sextets p q r s = join_octets a b c
    /\ (c = x00 -> join_sextets p q r 0 = join_octets a b c)
    /\ (b = x00 -> c = x00 -> join_sextets p q 0 0 = join_octets a b c).
Proof.
  rewrite sextets_div. do 4 eexists. split; [done|].
  pose proof (byte_to_Z_range a). pose proof (byte_to_Z_range b). pose proof (byte_to_Z_range c).
  rewrite join_octets_sum. set (v := _ + byte_to_Z c).
  assert (0 <= v < 16777216) by (unfold v; lia).
  assert (0 <= v / 262144 mod 64 < 64 /\ 0 <= v / 4096 mod 64 < 64 /\ 0 <= v / 64 mod 64 < 64 /\ 0 <= v mod 64 < 64)
    as (? & ? & ? & ?) by (split_and!; apply Z.mod_pos_bound; lia).
  split; [done|]. rewrite !join_sextets_sum by lia. split_and!.
  - Z.to_euclidean_division_equations. lia.
  - intros ->. change (byte_to_Z x00) with 0 in v. unfold v in *. Z.to_euclidean_division_equations. lia.
  - intros -> ->. change (byte_to_Z x00) with 0 in v. unfold v in *. Z.to_euclidean_division_equations. lia.
Qed.

Lemma octets_join a b c : octets (join_octets a b c) = [a; b; c].
Proof. apply octets_div, join_octets_sum. Qed.

Definition b64_text (s : list byte) : Prop := Forall (fun b => plain b /\ b <> x0d) s.

Lemma b64_text_filter s : b64_text s -> filter (fun b => b <> x0a /\ b <> x0d) s = s.
Proof.
  induction 1 as [|b s [Hp Hb] Hs IH]; [done|]. rewrite filter_cons_True, IH; [done|].
  split; [|done]. intros ->. by apply (plain_line x0a).
Qed.

Lemma decode_encode_groups s :
  b64_text (EncodeToString s) /\ decode_groups (EncodeToString s) = Some s.
Proof.
  remember (length s) as n eqn:En. revert s En. induction (lt_wf n) as [n _ IH]. intros s ->.
  assert (plain x3d /\ x3d <> x0d) as Hpad by (split_and!; [by vm_compute|done..]).
  destruct s as [|a [|b [|c s]]]; [by split; [constructor|]|..].
  - destruct (join_split a x00 x00) as (p & q & r & u & Es & (Hp & Hq & _) & _ & _ & E).
    cbn [EncodeToString]. rewrite Es. cbn [take map app].
    destruct (b64_char_ok p Hp) as (Vp & ? & ? & ?), (b64_char_ok q Hq) as (Vq & ? & ? & ?).
    split; [by repeat (apply Forall_cons; split)|]. cbn [decode_groups]. rewrite Vp, Vq. cbn [mbind option_bind].
    rewrite !bool_decide_true by done. rewrite E by done. by rewrite octets_join.
  - destruct (join_split a b x00) as (p & q & r & u & Es & (Hp & Hq & Hr & _) & _ & E & _).
    cbn [EncodeToString]. rewrite Es. cbn [take map app].
    destruct (b64_char_ok p Hp) as (Vp & ? & ? & ?), (b64_char_ok q Hq) as (Vq & ? & ? & ?),
      (b64_char_ok r Hr) as (Vr & ? & ? & ?).
    split; [by repeat (apply Forall_cons; split)|]. cbn [decode_groups]. rewrite Vp, Vq, Vr. cbn [mbind option_bind].
    rewrite bool_decide_false by done. rewrite !bool_decide_true by done. rewrite E by done. by rewrite octets_join.
  - destruct (join_split a b c) as (p & q & r & u & Es & (Hp & Hq & Hr & Hu) & E & _).
    cbn [EncodeToString]. rewrite Es. cbn [take map app].
    destruct (b64_char_ok p Hp) as (Vp & ? & ? & ?), (b64_char_ok q Hq) as (Vq & ? & ? & ?),
      (b64_char_ok r Hr) as (Vr & ? & ? & ?), (b64_char_ok u Hu) as (Vu & ? & ? & ?).
    destruct (IH (length s) ltac:(simpl; lia) s eq_refl) as [Ht Hd].
    split; [by repeat (apply Forall_cons; split)|]. cbn [decode_groups]. rewrite Vp, Vq, Vr, Vu, Hd. cbn [mbind option_bind].
    rewrite !bool_decide_false by done. by rewrite E, octets_join.
Qed.

Lemma DecodeString_Encode s :
  Forall plain (EncodeToString s) /\ DecodeString (EncodeToString s) = Some s.
Proof.
  destruct (decode_encode_groups s) as [Ht Hd]. unfold DecodeString. rewrite b64_text_filter by done.
  split; [|done]. eapply Forall_impl; [exact Ht|]. by intros b [].
Qed.

(** ** Entries are read back *)

Lemma IndexByte_line l c rest : c ∉ l -> IndexByte (l ++ c :: rest) c = zlen l.
Proof.
  induction l as [|b l IH]; intros Hc; simpl; [by rewrite bool_decide_true|].
  apply not_elem_of_cons in Hc as [Hne Hc]. rewrite bool_decide_false by done. rewrite IH by done.
  rewrite zlen_cons. pose proof (zlen_nonneg l). destruct (Z.eqb_spec (zlen l) (-1)); lia.
Qed.

Lemma digit_plain b : is_Some (digit b) -> plain b.
Proof.
  intros [d Hd]. unfold digit in Hd. destruct (_ && _) eqn:E; [|done]. apply andb_true_iff in E as [E1 E2].
  zbool. split; [lia|]. by split; intros ->.
Qed.

Section roundtrip.
Context `{GjsonLaws}.

(** The data of an entry as a literal, on one line. *)
Lemma appendJSONData_literal s :
  exists v t, (forall dst, appendJSONData dst s = Ok (dst ++ x22 :: v)) /\ x0a ∉ v /\ unquote v = Some (t, [])
    /\ (t = x2b :: s \/ t = x24 :: EncodeToString s).
Proof.
  assert (forall e u c, plain c -> quotes e u ->
    x0a ∉ c :: e ++ [x22] /\ unquote (c :: e ++ [x22]) = Some (c :: u, [])) as Hlit.
  { intros e u c Hc Hq. destruct (quotes_app [c] [c] e u) as [Hu Hn]; [|done|].
    { by apply quotes_plain, Forall_singleton. }
    change (c :: e ++ [x22]) with (([c] ++ e) ++ [x22]). rewrite Hu. split.
    - rewrite not_elem_of_app. split; [done|]. by apply (bool_decide_unpack (x0a ∉ [x22])).
    - simpl. by rewrite app_nil_r. }
  destruct (utf8_Valid s) eqn:Ev.
  - destruct (Hlit (escape s) s x2b) as [Hn Hu]; [by split_and!|by apply quotes_escape; rewrite Ev|].
    exists (x2b :: escape s ++ [x22]), (x2b :: s). split_and!; [|done..|by left].
    intros dst. unfold appendJSONData. rewrite Ev.
    rewrite (proj2 (slice_from_Ok (json_Marshal s) 1 (escape s ++ [x22]))); [|split; [|done]].
    + go_step. by rewrite <- app_assoc.
    + unfold json_Marshal. rewrite zlen_cons. pose proof (zlen_nonneg (escape s ++ [x22])). lia.
  - destruct (DecodeString_Encode s) as [Hp _].
    destruct (Hlit (EncodeToString s) (EncodeToString s) x24) as [Hn Hu]; [by split_and!|by apply quotes_plain|].
    exists (x24 :: EncodeToString s ++ [x22]), (x24 :: EncodeToString s). split_and!; [|done..|by right].
    intros dst. unfold appendJSONData. rewrite Ev. unfold mret, go_ret. f_equal. by rewrite <- !app_assoc.
Qed.

Lemma appendJSONEntry_line ix s :
  0 <= ix ->
  exists line t, (forall dst, appendJSONEntry dst ix s
      = Ok (dst ++ line ++ [x0a], (zlen dst, zlen dst + zlen (line ++ [x0a]))))
    /\ x0a ∉ line /\ (forall ws, Forall (fun b => b = x0a) ws -> gjson_Get (line ++ ws) key_data = (GString, t))
    /\ (t = x2b :: s \/ t = x24 :: EncodeToString s).
Proof.
  intros Hix. destruct (appendJSONData_literal s) as (v & t & Hv & Hn & Hu & Ht).
  destruct (fmt_d_digits ix Hix) as (Hd & _ & _).
  assert (Forall plain (fmt_d ix)) as Hp by (eapply Forall_impl; [exact Hd|exact digit_plain]).
  exists (object2 key_index (fmt_d ix ++ [x22]) key_data v), t. split_and!; [| | |done].
  - intros dst. unfold appendJSONEntry. rewrite Hv. go_step.
    assert (forall (a b : list byte), a = b -> Ok (a, (zlen dst, zlen a)) = Ok (b, (zlen dst, zlen b))) as Hf.
    { by intros a b ->. }
    rewrite <- zlen_app. apply Hf. unfold object2. by rewrite <- !app_assoc.
  - unfold object2. rewrite !not_elem_of_app. pose proof (plain_lines _ Hp). split_and!; try done;
      by apply (bool_decide_unpack (x0a ∉ _)).
  - intros ws Hws. eapply Get_second; [..|exact Hu|exact Hws].
    + by apply (bool_decide_unpack (Forall _ _)).
    + by apply (bool_decide_unpack (Forall _ _)).
    + done.
    + rewrite unquote_plain by done. simpl. by rewrite app_nil_r.
Qed.

(** C29. An entry of the JSON format is read back as the data it was made from,
    whether that is valid UTF-8 or not, wherever it is appended; its length is
    found from its bytes, whatever follows them. *)
Theorem json_entry_roundtrip dst ix data :
  0 <= ix ->
  exists out pos, appendJSONEntry dst ix data = Ok (out, pos)
    /\ readJSON (drop (Z.to_nat pos.1) (take (Z.to_nat pos.2) out)) = Ok data
    /\ forall rest, loadNextJSONEntry (drop (Z.to_nat pos.1) (out ++ rest)) = Ok (pos.2 - pos.1).
Proof.
  intros Hix. destruct (appendJSONEntry_line ix data Hix) as (line & t & Ha & Hn & Hg & Ht).
  do 2 eexists. split; [apply Ha|]. cbn [fst snd]. split.
  - rewrite take_ge by (unfold zlen; rewrite !length_app; lia).
    unfold zlen at 1. rewrite Nat2Z.id, drop_app_length. unfold readJSON.
    rewrite Hg by (by repeat constructor). destruct Ht as [->| ->]; [done|]. cbn [snd].
    by rewrite (proj2 (DecodeString_Encode data)).
  - intros rest. rewrite <- !app_assoc. unfold zlen at 1. rewrite Nat2Z.id, drop_app_length.
    unfold loadNextJSONEntry. cbn [app]. rewrite IndexByte_line by done. pose proof (zlen_nonneg line).
    destruct (Z.eqb_spec (zlen line) (-1)); [lia|].
    rewrite (proj2 (slice_to_Ok _ (zlen line) line)).
    + go_step. rewrite <- (app_nil_r line) at 1. rewrite Hg by constructor.
      unfold mret, go_ret. f_equal. rewrite zlen_app. unfold zlen. simpl. lia.
    + rewrite zlen_app. pose proof (zlen_nonneg (x0a :: rest)). split; [lia|].
      unfold zlen. by rewrite Nat2Z.id, take_app_length.
Qed.

End roundtrip.

(** ** A field lookup, to run the model

    It reads the fields of an object one after another, as far as they are
    strings. *)

Fixpoint scan_fields (fuel : nat) (t path : list byte) : gjson_type * list byte :=
  match fuel, t with
  | S fuel, q :: t =>
      if bool_decide (q = x22) then
        match unquote t with
        | Some (k, c :: q' :: t) =>
            if bool_decide (c = x3a /\ q' = x22) then
              match unquote t with
              | Some (v, t) =>
                  if bool_decide (k = path) then (GString, v)
                  else match t with
                       | c :: t => if bool_decide (c = x2c) then scan_fields fuel t path else (GNull, [])
                       | [] => (GNull, [])
                       end
              | None => (GNull, [])
              end
            else (GNull, [])
        | _ => (GNull, [])
        end
      else (GNull, [])
  | _, _ => (GNull, [])
  end.

#[export] Instance scan_gjson : Gjson := {
  gjson_Get t path :=
    match t with
    | b :: t => if bool_decide (b = x7b) then scan_fields (length t) t path else (GNull, [])
    | [] => (GNull, [])
    end
}.

(** What follows a literal does not matter. *)
Lemma unquote_frame a s r t : unquote a = Some (s, r) -> unquote (a ++ t) = Some (s, r ++ t).
Proof.
  remember (length a) as n eqn:En. revert a s En. induction (lt_wf n) as [n _ IH]. intros a s -> Ha.
  destruct a as [|b a]; [done|]. cbn [app unquote] in *.
  assert (forall u a', (length a' < length (b :: a))%nat -> prepend u (unquote a') = Some (s, r) ->
            prepend u (unquote (a' ++ t)) = Some (s, r ++ t)) as Hrec.
  { intros u a' Hlt Hp. destruct (unquote a') as [[s' r']|] eqn:E; [|done]. injection Hp as <- ->.
    by rewrite (IH _ Hlt a' s' eq_refl E). }
  destruct (bool_decide (b = x22)); [by injection Ha as <- ->|].
  destruct (bool_decide (b = x5c)).
  - destruct a as [|e a]; [done|]. cbn [app]. destruct (bool_decide (e = x75)).
    + do 4 (destruct a as [|? a]; [done|]). cbn [app]. destruct (hex4 _ _ _ _); [|done].
      apply Hrec; [simpl; lia|done].
    + destruct (unescape e); [|done]. apply Hrec; [simpl; lia|done].
  - destruct (byte_to_Z b <? 32); [done|]. apply Hrec; [simpl; lia|done].
Qed.

Lemma letter_plain b : letter b -> plain b.
Proof.
  unfold letter, byte_in. rewrite Is_true_true, andb_true_iff, !Z.leb_le. intros [Hb _].
  split; [lia|]. by split; intros ->.
Qed.

Lemma unquote_key k t : Forall letter k -> unquote (k ++ x22 :: t) = Some (k, t).
Proof.
  intros Hk. rewrite unquote_plain; [simpl; by rewrite app_nil_r|].
  eapply Forall_impl; [exact Hk|exact letter_plain].
Qed.

Lemma scan_field fuel k v s t path :
  Forall letter k -> unquote v = Some (s, []) ->
  scan_fields (S fuel) (x22 :: k ++ x22 :: x3a :: x22 :: v ++ t) path
  = if bool_decide (k = path) then (GString, s)
    else match t with
         | c :: t => if bool_decide (c = x2c) then scan_fields fuel t path else (GNull, [])
         | [] => (GNull, [])
         end.
Proof.
  intros Hk Hv. cbn [scan_fields]. rewrite bool_decide_true by done. rewrite unquote_key by done.
  rewrite bool_decide_true by done. by rewrite (unquote_frame v s [] t Hv).
Qed.

#[export] Instance scan_gjson_laws : GjsonLaws.
Proof.
  split. intros k1 v1 s1 k2 v2 s2 ws H1 H2 Hne U1 U2 _. unfold object2, gjson_Get, scan_gjson.
  rewrite <- !app_assoc. cbn [app]. rewrite bool_decide_true by done. cbn [length].
  rewrite (scan_field _ k1 v1 s1) by done. rewrite bool_decide_false by done.
  cbn [app]. rewrite bool_decide_true by done. rewrite length_app. cbn [length]. rewrite Nat.add_succ_r.
  rewrite (scan_field _ k2 v2 s2) by done. by rewrite bool_decide_true.
Qed.

(** A quote, a line end and U+2028, and a byte that is not UTF-8. *)
Lemma json_entry_roundtrip_witness :
  (exists out pos, appendJSONEntry [x41] 7 [x22; x0a; xe2; x80; xa8] = Ok (out, pos)
    /\ readJSON (drop (Z.to_nat pos.1) (take (Z.to_nat pos.2) out)) = Ok [x22; x0a; xe2; x80; xa8]
    /\ forall rest, loadNextJSONEntry (drop (Z.to_nat pos.1) (out ++ rest)) = Ok (pos.2 - pos.1))
  /\ exists out pos, appendJSONEntry [] 0 [xff] = Ok (out, pos)
    /\ readJSON (drop (Z.to_nat pos.1) (take (Z.to_nat pos.2) out)) = Ok [xff]
    /\ forall rest, loadNextJSONEntry (drop (Z.to_nat pos.1) (out ++ rest)) = Ok (pos.2 - pos.1).
Proof.
  split.
  - apply (json_entry_roundtrip [x41] 7 [x22; x0a; xe2; x80; xa8]). lia.
  - apply (json_entry_roundtrip [] 0 [xff]). lia.
Defined.

(** The line of an entry. *)
Example json_entry_text :
  appendJSONEntry [] 7 [x61; x0a; x3c]
  = Ok ([x7b; x22] ++ key_index ++ [x22; x3a; x22; x37; x22; x2c; x22] ++ key_data ++ [x22; x3a; x22; x2b; x61]
        ++ [x5c; x6e; x5c; x75; x30; x30; x33; x63; x22; x7d; x0a], (0, 34)).
Proof. vm_compute. reflexivity. Qed.
