(* ===== verification/Wal.v ===== *)
(** * Wal: the write-ahead log of wal/wal.go

    A log is a directory of segment files, each a concatenation of entries; the
    tail segment is open for appending and held in memory, other segments are
    read back when needed and kept in an LRU cache.  The state [Log] is the
    struct together with the directory, a map from file names to contents.
    Operations run in the monad [io], which keeps the state reached when an
    operation fails.  The disk may fail at any file operation (opening, reading,
    writing, seeking, syncing, closing, renaming, removing), for this one or for
    good, which is also what a crash leaves behind ([health]); every failure is
    the error [EIO].  [Sync] can fail but changes nothing: what was written is
    on disk, so that the loss of bytes written and not synced is not modelled.

    Outside the sources, as type classes: [LRU] is github.com/tidwall/tinylru,
    with the documented behaviour of its operations on keys as laws; [Gjson]
    ([WalJson]) is github.com/tidwall/gjson, which reads the entries of the
    JSON format.  The program opens its logs with [DefaultOptions], which select
    the binary format. *)

From stdpp Require Import sorting.
From S2P Require Import Prelude Binary WalJson.

(** ** Files *)

(** The file names the log forms: [segmentName], the same with a suffix while a
    truncation is under way, and the temporary file. *)
Inductive fname :=
  | Seg (index : Z)
  | SegStart (index : Z)
  | SegEnd (index : Z)
  | Temp.

#[export] Instance fname_eq_dec : EqDecision fname.
Proof. solve_decision. Defined.

#[export] Instance fname_countable : Countable fname.
Proof.
  apply (inj_countable'
    (fun f => match f with
              | Seg i => inl (inl i) | SegStart i => inl (inr i)
              | SegEnd i => inr (inl i) | Temp => inr (inr tt) end)
    (fun x => match x with
              | inl (inl i) => Seg i | inl (inr i) => SegStart i
              | inr (inl i) => SegEnd i | inr (inr _) => Temp end)).
  by intros [].
Defined.

Inductive LogFormat := BinaryFormat | JSONFormat.

Record Options := mkOptions {
  NoSync : bool;
  SegmentSize : Z;
  Format : LogFormat;
  SegmentCacheSize : Z
}.

Definition DefaultOptions : Options := mkOptions false 20971520 BinaryFormat 2.

(** [Open]'s treatment of unset options. *)
Definition fill_options (o : Options) : Options :=
  mkOptions (NoSync o) (if SegmentSize o <=? 0 then SegmentSize DefaultOptions else SegmentSize o)
    (Format o)
    (if SegmentCacheSize o <=? 0 then SegmentCacheSize DefaultOptions else SegmentCacheSize o).

(** ** What lies outside *)

(** The LRU cache, by its keys: the values are the segments at those indices. *)
Class LRU := {
  cache : Type;
  Resize : Z -> cache;
  SetEvicted : cache -> nat -> cache * option nat;
  keys : cache -> list nat (* most recent first *)
}.

Class LRULaws `{LRU} := {
  keys_Resize n : keys (Resize n) = [];
  SetEvicted_not_self c k c' : SetEvicted c k <> (c', Some k);
  SetEvicted_keys c k c' ev : SetEvicted c k = (c', ev) -> forall j, j ∈ keys c' -> j = k \/ j ∈ keys c;
  SetEvicted_old c k c' j : SetEvicted c k = (c', Some j) -> j ∈ keys c;
  SetEvicted_new c k c' ev : SetEvicted c k = (c', ev) -> k ∈ keys c'
}.

Section wal.
Context {gjson : Gjson} {lru : LRU}.

(** ** State *)

Record segment := mkSegment {
  path : fname;
  index : Z;               (* uint64: first index of the segment *)
  ebuf : list byte;
  epos : list (Z * Z)
}.

(** The disk lets [n] more calls through and the next one fails, a write after
    [k] of its bytes; with [Fails] so does every later one, with [FailsOnce] (a
    device that is full for a moment) the later ones succeed. *)
Inductive health :=
  | Healthy
  | Fails (n k : nat)
  | FailsOnce (n k : nat).

Record Log := mkLog {
  opts : Options;
  closed : bool;
  corrupt : bool;
  segments : list segment;
  firstIndex : Z;          (* uint64 *)
  lastIndex : Z;           (* uint64 *)
  sfile : option fname;    (* the tail segment's file handle; None: nil or closed *)
  scache : cache;
  disk : gmap fname (list byte);
  hw : health              (* of the disk *)
}.

Definition set_closed b l :=
  mkLog (opts l) b (corrupt l) (segments l) (firstIndex l) (lastIndex l) (sfile l) (scache l) (disk l) (hw l).
Definition set_segments s l :=
  mkLog (opts l) (closed l) (corrupt l) s (firstIndex l) (lastIndex l) (sfile l) (scache l) (disk l) (hw l).
Definition set_firstIndex i l :=
  mkLog (opts l) (closed l) (corrupt l) (segments l) i (lastIndex l) (sfile l) (scache l) (disk l) (hw l).
Definition set_lastIndex i l :=
  mkLog (opts l) (closed l) (corrupt l) (segments l) (firstIndex l) i (sfile l) (scache l) (disk l) (hw l).
Definition set_sfile f l :=
  mkLog (opts l) (closed l) (corrupt l) (segments l) (firstIndex l) (lastIndex l) f (scache l) (disk l) (hw l).
Definition set_scache c l :=
  mkLog (opts l) (closed l) (corrupt l) (segments l) (firstIndex l) (lastIndex l) (sfile l) c (disk l) (hw l).
Definition set_disk d l :=
  mkLog (opts l) (closed l) (corrupt l) (segments l) (firstIndex l) (lastIndex l) (sfile l) (scache l) d (hw l).
Definition set_hw h l :=
  mkLog (opts l) (closed l) (corrupt l) (segments l) (firstIndex l) (lastIndex l) (sfile l) (scache l) (disk l) h.

(** ** The monad *)

Definition io (A : Type) : Type := Log -> Log * go A.

#[global] Instance io_ret : MRet io := fun A a l => (l, Ok a).
#[global] Instance io_bind : MBind io := fun A B f m l =>
  match m l with
  | (l, Ok a) => f a l
  | (l, Err e) => (l, Err e)
  | (l, Panic) => (l, Panic)
  end.

Definition get : io Log := fun l => (l, Ok l).
Definition modify (f : Log -> Log) : io unit := fun l => (f l, Ok tt).
Definition lift {A} (m : go A) : io A := fun l => (l, m).
Definition fail {A} (e : error) : io A := fun l => (l, Err e).

(** ** Files *)

Definition EIO : error := Errno 5.

(** A call of the operating system that does [act]; one that fails may have
    done a part of it, [torn]. *)
Definition os_call (act : Log -> Log) (torn : nat -> Log -> Log) : io unit := fun l =>
  match hw l with
  | Healthy => (act l, Ok tt)
  | Fails (S n) k => (set_hw (Fails n k) (act l), Ok tt)
  | Fails O k => (set_hw (Fails O O) (torn k l), Err EIO)
  | FailsOnce (S n) k => (set_hw (FailsOnce n k) (act l), Ok tt)
  | FailsOnce O k => (set_hw Healthy (torn k l), Err EIO)
  end.

Definition undone (_ : nat) (l : Log) : Log := l.

(** A call that changes no file: [Sync], [Close], [Seek]. *)
Definition os_quiet : io unit := os_call (fun l => l) undone.

(** [os.OpenFile] with [O_CREATE|O_TRUNC]. *)
Definition os_create (f : fname) : io unit :=
  os_call (fun l => set_disk (<[f := []]> (disk l)) l) undone.

(** [os.OpenFile] with [O_WRONLY]. *)
Definition os_open (f : fname) : io unit :=
  l ← get;
  match disk l !! f with
  | Some _ => os_call (fun l => l) undone
  | None => fail ErrNotExist
  end.

(** Writing at the end of an open file. *)
Definition append_file (f : fname) (data : list byte) (l : Log) : Log :=
  set_disk (<[f := default [] (disk l !! f) ++ data]> (disk l)) l.

Definition os_write (f : fname) (data : list byte) : io unit :=
  os_call (append_file f data) (fun k => append_file f (take k data)).

(** [os.ReadFile]; [None] is its error. *)
Definition os_read (f : fname) : io (option (list byte)) := fun l =>
  match disk l !! f with
  | None => (l, Ok None)
  | Some data =>
      match os_quiet l with
      | (l, Ok _) => (l, Ok (Some data))
      | (l, _) => (l, Ok None)
      end
  end.

(** The methods of the tail's file handle, which fail when it is nil or
    closed. *)
Definition on_sfile (m : fname -> io unit) : io unit :=
  l ← get;
  match sfile l with
  | Some f => m f
  | None => fail ErrBadFile
  end.

Definition sync_sfile : io unit := on_sfile (fun _ => os_quiet).

(** A file that reports an error from [Close] is closed too. *)
Definition close_sfile : io unit :=
  on_sfile (fun _ => _ ← modify (set_sfile None); os_quiet).

Definition close_if (b : bool) : io unit := if b then close_sfile else mret tt.

Definition write_sfile (data : list byte) : io unit := on_sfile (fun f => os_write f data).

Definition os_remove (f : fname) : io unit :=
  l ← get;
  match disk l !! f with
  | Some _ => os_call (fun l => set_disk (delete f (disk l)) l) undone
  | None => fail ErrNotExist
  end.

Definition os_rename (f g : fname) : io unit :=
  l ← get;
  match disk l !! f with
  | Some data => os_call (fun l => set_disk (<[g := data]> (delete f (disk l))) l) undone
  | None => fail ErrNotExist
  end.

(** A call whose error is overwritten by the next one. *)
Definition ignore_err (m : io unit) : io unit := fun l =>
  match m l with
  | (l, Err _) => (l, Ok tt)
  | r => r
  end.

(** ** Entries *)

Definition appendBinaryEntry (dst data : list byte) : go (list byte * (Z * Z)) :=
  n ← put_uvarint 10 (zlen data);
  let out := dst ++ n ++ data in
  mret (out, (zlen dst, zlen out)).

Definition appendEntry (fmt : LogFormat) (dst : list byte) (ix : Z) (data : list byte)
    : go (list byte * (Z * Z)) :=
  match fmt with
  | JSONFormat => appendJSONEntry dst ix data
  | BinaryFormat => appendBinaryEntry dst data
  end.

Definition loadNextBinaryEntry (data : list byte) : go Z :=
  let '(size, n) := Uvarint data in
  if n <=? 0 then Err ErrCorrupt
  else if zlen data - n <? size then Err ErrCorrupt
  else mret (n + size).

Definition loadNextEntry (fmt : LogFormat) (data : list byte) : go Z :=
  match fmt with
  | JSONFormat => loadNextJSONEntry data
  | BinaryFormat => loadNextBinaryEntry data
  end.

(** The data of an entry, the end of [Read]. *)
Definition readBinary (edata : list byte) : go (list byte) :=
  let '(size, n) := Uvarint edata in
  if n <=? 0 then Err ErrCorrupt
  else if zlen edata - n <? size then Err ErrCorrupt
  else rest ← slice_from edata n; slice_to rest size.

Definition readEntry (fmt : LogFormat) (edata : list byte) : go (list byte) :=
  match fmt with
  | JSONFormat => readJSON edata
  | BinaryFormat => readBinary edata
  end.

(** The loop of [loadSegmentEntries]; every entry takes at least one byte, so
    the length of the buffer is fuel enough. *)
Fixpoint load_positions (fuel : nat) (fmt : LogFormat) (data : list byte) (pos : Z)
    : go (list (Z * Z)) :=
  match fuel with
  | O => Ok []
  | S fuel =>
      if zlen data =? 0 then Ok []
      else
        n ← loadNextEntry fmt data;
        rest ← slice_from data n;
        ps ← load_positions fuel fmt rest (pos + n);
        mret ((pos, pos + n) :: ps)
  end.

(** The segment with its entries read from disk; a file that cannot be read
    leaves the segment as it is, without an error. *)
Definition loadSegmentEntries (s : segment) : io segment :=
  l ← get;
  r ← os_read (path s);
  match r with
  | None => mret s
  | Some data =>
      ps ← lift (load_positions (length data) (Format (opts l)) data 0);
      mret (mkSegment (path s) (index s) data ps)
  end.

(** ** Segments *)

Definition tail_index (l : Log) : nat := pred (length (segments l)).

(** [l.segments[len(l.segments)-1]] *)
Definition tail (l : Log) : go segment := idx (segments l) (zlen (segments l) - 1).

(** Replace the segment at a position, the pointer being shared. *)
Definition put_segment (k : nat) (s : segment) : io unit :=
  modify (fun l => set_segments (<[k := s]> (segments l)) l).

Definition unload (s : segment) : segment := mkSegment (path s) (index s) [] [].

Definition pushCache (segIdx : nat) : io unit :=
  l ← get;
  let '(c, evicted) := SetEvicted (scache l) segIdx in
  modify (fun l => set_scache c
    (match evicted with
     | Some j => set_segments (alter unload j (segments l)) l
     | None => l
     end)).

Definition clearCache : io unit :=
  modify (fun l => set_scache (Resize (SegmentCacheSize (opts l)))
    (set_segments (foldr (alter unload) (segments l) (keys (scache l))) l)).

(** [findSegment]: binary search on the first indices. *)
Fixpoint find_loop (fuel : nat) (segs : list segment) (ix i j : Z) : go Z :=
  match fuel with
  | O => Ok (i - 1)
  | S fuel =>
      if i <? j then
        let h := i + (j - i) / 2 in
        s ← idx segs h;
        if index s <=? ix then find_loop fuel segs ix (h + 1) j
        else find_loop fuel segs ix i h
      else Ok (i - 1)
  end.

Definition findSegment (l : Log) (ix : Z) : go Z :=
  find_loop (S (length (segments l))) (segments l) ix 0 (zlen (segments l)).

(** [loadSegment]: the position of the segment that holds an index, with its
    entries in memory. *)
Definition loadSegment (ix : Z) : io nat :=
  l ← get;
  lseg ← lift (tail l);
  if index lseg <=? ix then mret (tail_index l)
  else
    match (match keys (scache l) with
           | k :: _ => match segments l !! k with
                       | Some s => if (index s <=? ix) && (ix <? index s + zlen (epos s))
                                   then Some k else None
                       | None => None
                       end
           | [] => None
           end) with
    | Some k => mret k
    | None =>
        k ← lift (findSegment l ix);
        s ← lift (idx (segments l) k);
        _ ← (if zlen (epos s) =? 0 then
               s' ← loadSegmentEntries s;
               put_segment (Z.to_nat k) s'
             else mret tt);
        _ ← pushCache (Z.to_nat k);
        mret (Z.to_nat k)
    end.

(** [cycle]: close the tail segment and open the next one. *)
Definition cycle : io unit :=
  _ ← sync_sfile;
  _ ← close_sfile;
  l ← get;
  _ ← pushCache (tail_index l);
  let f := Seg (lastIndex l + 1) in
  _ ← os_create f;
  modify (fun l => set_sfile (Some f)
    (set_segments (segments l ++ [mkSegment f (lastIndex l + 1) [] []]) l)).

(** ** Writing *)

(** A batch: indices and sizes, and the data one after the other. *)
Record Batch := mkBatch {
  entries : list (Z * Z);
  datas : list byte
}.

Definition Batch_Clear : Batch := mkBatch [] [].

Definition Batch_Write (b : Batch) (ix : Z) (data : list byte) : Batch :=
  mkBatch (entries b ++ [(ix, zlen data)]) (datas b ++ data).

(** The check that the indices continue the log, from position [i] on: the
    first index that does not, with the one that was needed. *)
Fixpoint out_of_order (last : Z) (i : Z) (es : list (Z * Z)) : option (Z * Z) :=
  match es with
  | [] => None
  | (ix, _) :: es => if ix =? last + (i + 1) then out_of_order last (i + 1) es
                     else Some (last + (i + 1), ix)
  end.

(** The loop of [writeBatch] over the entries; the result is [mark], where the
    bytes that are not on disk begin in the tail's buffer. *)
Fixpoint write_entries (es : list (Z * Z)) (ds : list byte) (mark : Z) : io Z :=
  match es with
  | [] => mret mark
  | (ix, size) :: es =>
      data ← lift (slice_to ds size);
      l ← get;
      s ← lift (tail l);
      '(buf, pos) ← lift (appendEntry (Format (opts l)) (ebuf s) ix data);
      _ ← put_segment (tail_index l) (mkSegment (path s) (index s) buf (epos s ++ [pos]));
      mark ← (if SegmentSize (opts l) <=? zlen buf then
                fresh ← lift (slice_from buf mark);
                _ ← write_sfile fresh;
                _ ← modify (set_lastIndex ix);
                _ ← cycle;
                mret 0
              else mret mark);
      ds ← lift (slice_from ds size);
      write_entries es ds mark
  end.

Definition writeBatch (b : Batch) : io unit :=
  l ← get;
  match out_of_order (lastIndex l) 0 (entries b) with
  | Some (need, ix) => fail (ErrNotNext need ix)
  | None =>
      s ← lift (tail l);
      _ ← (if SegmentSize (opts l) <? zlen (ebuf s) then cycle else mret tt);
      l ← get;
      s ← lift (tail l);
      mark ← write_entries (entries b) (datas b) (zlen (ebuf s));
      l ← get;
      s ← lift (tail l);
      _ ← (if 0 <? zlen (ebuf s) - mark then
             fresh ← lift (slice_from (ebuf s) mark);
             _ ← write_sfile fresh;
             last ← lift (idx (entries b) (zlen (entries b) - 1));
             modify (set_lastIndex last.1)
           else mret tt);
      if NoSync (opts l) then mret tt else sync_sfile
  end.

(** The test every exported operation begins with. *)
Definition guard_open : io unit :=
  l ← get;
  if corrupt l then fail ErrCorrupt else if closed l then fail ErrClosed else mret tt.

Definition Write (ix : Z) (data : list byte) : io unit :=
  _ ← guard_open;
  writeBatch (Batch_Write Batch_Clear ix data).

Definition WriteBatch (b : Batch) : io unit :=
  _ ← guard_open;
  if zlen (entries b) =? 0 then mret tt else writeBatch b.

(** ** Reading *)

Definition Read (ix : Z) : io (list byte) :=
  l ← get;
  if corrupt l then fail ErrCorrupt
  else if closed l then fail ErrCorrupt
  else if (ix =? 0) || (ix <? firstIndex l) || (lastIndex l <? ix) then fail ErrNotFound
  else
    k ← loadSegment ix;
    l ← get;
    s ← lift (idx (segments l) (Z.of_nat k));
    pos ← lift (idx (epos s) (ix - index s));
    upto ← lift (slice_to (ebuf s) pos.2);
    edata ← lift (slice_from upto pos.1);
    lift (readEntry (Format (opts l)) edata).

Definition ClearCache : io unit := _ ← guard_open; clearCache.

Definition GetLastIndex (l : Log) : Z := lastIndex l.
Definition GetFirstIndex (l : Log) : Z := firstIndex l.

Definition Close : io unit :=
  l ← get;
  if closed l then (if corrupt l then fail ErrCorrupt else fail ErrClosed)
  else
    _ ← sync_sfile;
    _ ← close_sfile;
    _ ← modify (set_closed true);
    if corrupt l then fail ErrCorrupt else mret tt.

(** ** Truncation *)

Definition out_of_range (l : Log) (ix : Z) : bool :=
  (ix =? 0) || (lastIndex l =? 0) || (ix <? firstIndex l) || (lastIndex l <? ix).

Fixpoint remove_segments (ss : list segment) : io unit :=
  match ss with
  | [] => mret tt
  | s :: ss => _ ← os_remove (path s); remove_segments ss
  end.

(** The temporary file with the bytes that stay: written, synced and closed. *)
Definition write_temp (buf : list byte) : io unit :=
  _ ← os_create Temp; _ ← os_write Temp buf; _ ← os_quiet; os_quiet.

(** The tail segment's file opened again; its size, from [Seek], must be what
    was written. *)
Definition reopen_tail (f : fname) (buf : list byte) : io unit :=
  _ ← os_open f;
  _ ← modify (set_sfile (Some f));
  _ ← os_quiet;
  l ← get;
  if zlen (default [] (disk l !! f)) =? zlen buf then mret tt else fail ErrInvalidSeek.

(** The end of [truncateFront]: [buf] takes the place of the segments up to
    [segIdx], and the segment [s] at [k] becomes the first.  [clearCache] comes
    before the re-slicing of [l.segments] here: the cache holds the segments
    themselves, and this model their positions.  The deferred [recover] of the
    two truncations has nothing to catch: after the first rename no step of
    them panics.  The error of writing the temporary file is overwritten by that
    of the rename. *)
Definition replace_front (ix segIdx : Z) (k : nat) (s : segment) (buf : list byte) : io unit :=
  l ← get;
  _ ← ignore_err (write_temp buf);
  _ ← os_rename Temp (SegStart ix);
  _ ← close_if (segIdx =? zlen (segments l) - 1);
  _ ← remove_segments (take (Z.to_nat (segIdx + 1)) (segments l));
  _ ← os_rename (SegStart ix) (Seg ix);
  let s := mkSegment (Seg ix) ix (ebuf s) (epos s) in
  _ ← put_segment k s;
  _ ← (if segIdx =? zlen (segments l) - 1 then
         _ ← reopen_tail (Seg ix) buf;
         s' ← loadSegmentEntries s;
         put_segment k s'
       else mret tt);
  _ ← clearCache;
  modify (fun l => set_firstIndex ix
                (set_segments (drop (Z.to_nat segIdx) (segments l)) l)).

Definition truncateFront (ix : Z) : io unit :=
  l ← get;
  if out_of_range l ix then fail ErrOutOfRange
  else if ix =? firstIndex l then mret tt
  else
    segIdx ← lift (findSegment l ix);
    k ← loadSegment ix;
    l ← get;
    s ← lift (idx (segments l) (Z.of_nat k));
    ps ← lift (slice_from (epos s) (ix - index s));
    p ← lift (idx ps 0);
    buf ← lift (slice_from (ebuf s) p.1);
    replace_front ix segIdx k s buf.

(** The end of [truncateBack]: [buf] takes the place of the segments from
    [segIdx] on, and the segment [s] at [k] becomes the tail. *)
Definition replace_back (ix segIdx : Z) (k : nat) (s : segment) (buf : list byte) : io unit :=
  l ← get;
  _ ← ignore_err (write_temp buf);
  _ ← os_rename Temp (SegEnd (index s));
  _ ← close_if true;
  _ ← remove_segments (drop (Z.to_nat segIdx) (segments l));
  _ ← os_rename (SegEnd (index s)) (Seg (index s));
  _ ← reopen_tail (Seg (index s)) buf;
  let s := mkSegment (Seg (index s)) (index s) (ebuf s) (epos s) in
  _ ← put_segment k s;
  _ ← modify (fun l => set_lastIndex ix
                (set_segments (take (Z.to_nat (segIdx + 1)) (segments l)) l));
  _ ← clearCache;
  l ← get;
  s ← lift (idx (segments l) (Z.of_nat k));
  s' ← loadSegmentEntries s;
  put_segment k s'.

Definition truncateBack (ix : Z) : io unit :=
  l ← get;
  if out_of_range l ix then fail ErrOutOfRange
  else if ix =? lastIndex l then mret tt
  else
    segIdx ← lift (findSegment l ix);
    k ← loadSegment ix;
    l ← get;
    s ← lift (idx (segments l) (Z.of_nat k));
    ps ← lift (slice_to (epos s) (ix - index s + 1));
    p ← lift (idx ps (zlen ps - 1));
    buf ← lift (slice_to (ebuf s) p.2);
    replace_back ix segIdx k s buf.

Definition TruncateFront (ix : Z) : io unit := _ ← guard_open; truncateFront ix.

Definition TruncateBack (ix : Z) : io unit := _ ← guard_open; truncateBack ix.

(** ** Opening *)

(** Directory order: [os.ReadDir] sorts by name, and the names are twenty
    digits with nothing, [.END] or [.START] after them, or [TEMP]. *)
Definition name_rank (f : fname) : option (Z * Z) :=
  match f with
  | Seg i => Some (i, 0)
  | SegEnd i => Some (i, 1)
  | SegStart i => Some (i, 2)
  | Temp => None
  end.

Definition name_le (f g : fname) : Prop :=
  match name_rank f, name_rank g with
  | _, None => True
  | None, Some _ => False
  | Some (i, a), Some (j, b) => i < j \/ (i = j /\ a <= b)
  end.

#[global] Instance name_le_dec f g : Decision (name_le f g).
Proof. unfold name_le. repeat case_match; apply _. Defined.

Definition ReadDir (d : gmap fname (list byte)) : list fname :=
  merge_sort name_le (map_to_list d).*1.

(** The loop of [load] over the directory: the segments found and the
    positions of a START and of the first END segment, -1 for none. *)
Fixpoint scan_dir (fis : list fname) (segs : list segment) (startIdx endIdx : Z)
    : list segment * Z * Z :=
  match fis with
  | [] => (segs, startIdx, endIdx)
  | f :: fis =>
      match name_rank f with
      | None => scan_dir fis segs startIdx endIdx
      | Some (i, kind) =>
          if i =? 0 then scan_dir fis segs startIdx endIdx
          else
            let startIdx' := if kind =? 2 then zlen segs else startIdx in
            let endIdx' := if negb (kind =? 2) && (kind =? 1) && (endIdx =? -1)
                           then zlen segs else endIdx in
            scan_dir fis (segs ++ [mkSegment f i [] []]) startIdx' endIdx'
      end
  end.

(** A START segment: everything before it goes, and it takes its final name. *)
Definition load_start (startIdx endIdx : Z) : io unit :=
  if negb (startIdx =? -1) then
    if negb (endIdx =? -1) then fail ErrCorrupt
    else
      l ← get;
      _ ← remove_segments (take (Z.to_nat startIdx) (segments l));
      _ ← modify (fun l => set_segments (drop (Z.to_nat startIdx) (segments l)) l);
      l ← get;
      s ← lift (idx (segments l) 0);
      _ ← os_rename (path s) (Seg (index s));
      put_segment 0 (mkSegment (Seg (index s)) (index s) (ebuf s) (epos s))
  else mret tt.

(** An END segment: everything after it goes, with a segment before it that
    starts at the same index, and it takes its final name. *)
Definition load_end (endIdx : Z) : io unit :=
  if negb (endIdx =? -1) then
    l ← get;
    _ ← remove_segments (rev (drop (Z.to_nat (endIdx + 1)) (segments l)));
    let segs := take (Z.to_nat (endIdx + 1)) (segments l) in
    s ← lift (idx segs (zlen segs - 1));
    let segs :=
      match segs !! (length segs - 2)%nat with
      | Some s' => if (1 <? zlen segs) && (index s' =? index s)
                   then take (length segs - 2) segs ++ [s] else segs
      | None => segs
      end in
    _ ← modify (set_segments segs);
    _ ← os_rename (path s) (Seg (index s));
    put_segment (pred (length segs)) (mkSegment (Seg (index s)) (index s) (ebuf s) (epos s))
  else mret tt.

(** The end of [load]: the last segment is opened for appending and read. *)
Definition load_open : io unit :=
  l ← get;
  first ← lift (idx (segments l) 0);
  _ ← modify (set_firstIndex (index first));
  lseg ← lift (tail l);
  _ ← os_open (path lseg);
  _ ← modify (set_sfile (Some (path lseg)));
  _ ← os_quiet;
  lseg ← loadSegmentEntries lseg;
  _ ← put_segment (tail_index l) lseg;
  modify (set_lastIndex (index lseg + zlen (epos lseg) - 1)).

Definition load : io unit :=
  l ← get;
  let '(segs, startIdx, endIdx) := scan_dir (ReadDir (disk l)) [] (-1) (-1) in
  _ ← modify (set_segments segs);
  if zlen segs =? 0 then
    _ ← modify (fun l => set_firstIndex 1 (set_lastIndex 0
          (set_sfile (Some (Seg 1)) (set_segments [mkSegment (Seg 1) 1 [] []] l))));
    os_create (Seg 1)
  else
    _ ← load_start startIdx endIdx;
    _ ← load_end endIdx;
    load_open.

(** [Open] on a directory: the log, or the error. *)
Definition Open (o : Options) (d : gmap fname (list byte)) : Log * go unit :=
  let o := fill_options o in
  load (mkLog o false false [] 0 0 None (Resize (SegmentCacheSize o)) d Healthy).

End wal.
