(* ===== verification/WalSpec.v ===== *)
(** * WalSpec: the write-ahead log is a list of entries

    The abstract log is the list of the data written, starting at
    [firstIndex].  [wal_inv] relates it to the segments in memory and the files
    on disk; writing, reading and truncating implement the operations of the
    list, for the binary format the program uses and for any LRU cache. *)

From S2P Require Import Prelude Binary WalJson Wal.

(** ** Entries *)

(** The bytes of an entry, and the size a slice can have. *)
Definition enc (d : list byte) : list byte :=
  match put_uvarint 10 (zlen d) with Ok n => n ++ d | _ => [] end.

Definition small (d : list byte) : Prop := zlen d < 2 ^ 63.

Lemma enc_eq d :
  small d -> exists n, put_uvarint 10 (zlen d) = Ok n /\ enc d = n ++ d /\ 0 < zlen n
    /\ forall rest, Uvarint (n ++ rest) = (zlen d, zlen n).
Proof.
  unfold small. intros Hd. pose proof (zlen_nonneg d) as H0.
  assert (in_u 64 (zlen d)) as Hu by (unfold in_u; change (2 ^ 64) with (2 * 2 ^ 63); lia).
  destruct (put_uvarint_u64 (zlen d) Hu) as (n & Hn & Hl). exists n. unfold enc. rewrite Hn.
  split_and!; [done|done|unfold zlen; lia|]. intros rest. by apply Uvarint_put.
Qed.

Lemma enc_pos d : small d -> 0 < zlen (enc d).
Proof.
  intros Hd. destruct (enc_eq d Hd) as (n & _ & -> & Hn & _). rewrite zlen_app.
  pose proof (zlen_nonneg d). lia.
Qed.

Lemma appendBinaryEntry_enc dst d :
  small d -> appendBinaryEntry dst d = Ok (dst ++ enc d, (zlen dst, zlen dst + zlen (enc d))).
Proof.
  intros Hd. unfold appendBinaryEntry. destruct (enc_eq d Hd) as (n & -> & -> & _). go_step.
  by rewrite !zlen_app.
Qed.

Lemma loadNext_enc d rest : small d -> loadNextBinaryEntry (enc d ++ rest) = Ok (zlen (enc d)).
Proof.
  intros Hd. unfold loadNextBinaryEntry. destruct (enc_eq d Hd) as (n & _ & -> & Hn & Hu).
  rewrite <- app_assoc, Hu. pose proof (zlen_nonneg rest). rewrite !zlen_app.
  destruct (Z.leb_spec (zlen n) 0); [lia|].
  destruct (Z.ltb_spec (zlen n + (zlen d + zlen rest) - zlen n) (zlen d)); [lia|done].
Qed.

Lemma readBinary_enc d : small d -> readBinary (enc d) = Ok d.
Proof.
  intros Hd. unfold readBinary. destruct (enc_eq d Hd) as (n & _ & -> & Hn & Hu).
  rewrite Hu, zlen_app. pose proof (zlen_nonneg d). destruct (Z.leb_spec (zlen n) 0); [lia|].
  destruct (Z.ltb_spec (zlen n + zlen d - zlen n) (zlen d)); [lia|].
  apply bind_Ok. exists d. split.
  - apply slice_from_Ok. rewrite zlen_app. split; [lia|]. unfold zlen. by rewrite Nat2Z.id, drop_app_length.
  - apply slice_to_Ok. split; [lia|]. unfold zlen. by rewrite Nat2Z.id, firstn_all.
Qed.

Lemma drop_zlen {A} (a b : list A) : drop (Z.to_nat (zlen a)) (a ++ b) = b.
Proof. unfold zlen. by rewrite Nat2Z.id, drop_app_length. Qed.

Lemma take_zlen {A} (a b : list A) : take (Z.to_nat (zlen a)) (a ++ b) = a.
Proof. unfold zlen. by rewrite Nat2Z.id, take_app_length. Qed.

(** An entry of the binary format is read back as the data it was made
    from, wherever it is appended, and its length is found from its bytes. *)
Theorem entry_roundtrip dst d :
  small d ->
  exists out pos, appendBinaryEntry dst d = Ok (out, pos)
    /\ readBinary (drop (Z.to_nat pos.1) (take (Z.to_nat pos.2) out)) = Ok d
    /\ loadNextBinaryEntry (drop (Z.to_nat pos.1) out) = Ok (pos.2 - pos.1).
Proof.
  intros Hd. rewrite appendBinaryEntry_enc by done. eexists _, _. split; [done|]. simpl.
  assert (take (Z.to_nat (zlen dst + zlen (enc d))) (dst ++ enc d) = dst ++ enc d) as ->.
  { rewrite <- zlen_app. apply take_ge. unfold zlen. lia. }
  rewrite drop_zlen. split; [by apply readBinary_enc|].
  pose proof (loadNext_enc d [] Hd) as Hn. rewrite app_nil_r in Hn. rewrite Hn. f_equal. lia.
Qed.

(** ** Buffers of entries *)

Definition enc_all (ds : list (list byte)) : list byte := concat (map enc ds).

Fixpoint positions (p : Z) (ds : list (list byte)) : list (Z * Z) :=
  match ds with
  | [] => []
  | d :: ds => (p, p + zlen (enc d)) :: positions (p + zlen (enc d)) ds
  end.

Lemma enc_all_app ds ds' : enc_all (ds ++ ds') = enc_all ds ++ enc_all ds'.
Proof. unfold enc_all. by rewrite map_app, concat_app. Qed.

Lemma positions_app p ds ds' :
  positions p (ds ++ ds') = positions p ds ++ positions (p + zlen (enc_all ds)) ds'.
Proof.
  revert p. induction ds as [|d ds IH]; intros p; simpl.
  - by rewrite Z.add_0_r.
  - rewrite IH. unfold enc_all at 2. simpl. rewrite zlen_app. fold (enc_all ds).
    by rewrite Z.add_assoc.
Qed.

Lemma length_positions p ds : length (positions p ds) = length ds.
Proof. revert p. induction ds as [|d ds IH]; intros p; simpl; [done|]. by rewrite IH. Qed.

Lemma enc_all_snoc ds d : enc_all (ds ++ [d]) = enc_all ds ++ enc d.
Proof. rewrite enc_all_app. unfold enc_all at 2. simpl. by rewrite app_nil_r. Qed.

Lemma positions_snoc ds d :
  positions 0 (ds ++ [d])
  = positions 0 ds ++ [(zlen (enc_all ds), zlen (enc_all ds) + zlen (enc d))].
Proof. by rewrite positions_app. Qed.

(** The position of the [j]-th entry delimits its bytes. *)
Lemma positions_lookup ds j d :
  ds !! j = Some d ->
  positions 0 ds !! j = Some (zlen (enc_all (take j ds)), zlen (enc_all (take j ds)) + zlen (enc d))
  /\ enc_all ds = enc_all (take j ds) ++ enc d ++ enc_all (drop (S j) ds).
Proof.
  intros Hj. pose proof (take_drop_middle ds j d Hj) as E.
  assert (j < length ds)%nat as Hlt by (by eapply lookup_lt_Some).
  split; rewrite <- E at 1.
  - rewrite positions_app. simpl. rewrite lookup_app_r by (rewrite length_positions, length_take; lia).
    rewrite length_positions, length_take. replace (j - j `min` length ds)%nat with 0%nat by lia. done.
  - rewrite enc_all_app. done.
Qed.

Lemma load_positions_step {gjson : Gjson} d rest fuel p :
  small d ->
  load_positions (S fuel) BinaryFormat (enc d ++ rest) p
  = (ps ← load_positions fuel BinaryFormat rest (p + zlen (enc d)); mret ((p, p + zlen (enc d)) :: ps)).
Proof.
  intros Hd. pose proof (enc_pos d Hd). pose proof (zlen_nonneg rest). cbn [load_positions].
  destruct (Z.eqb_spec (zlen (enc d ++ rest)) 0) as [E|_]; [rewrite zlen_app in E; lia|].
  cbn [loadNextEntry]. rewrite loadNext_enc by done. go_step.
  rewrite (proj2 (slice_from_Ok (enc d ++ rest) (zlen (enc d)) rest))
    by (rewrite drop_zlen, zlen_app; split; [lia|done]). done.
Qed.

Lemma load_positions_enc {gjson : Gjson} ds fuel p :
  Forall small ds -> (length (enc_all ds) <= fuel)%nat ->
  load_positions fuel BinaryFormat (enc_all ds) p = Ok (positions p ds).
Proof.
  intros Hs. revert fuel p. induction Hs as [|d ds Hd Hs IH]; intros fuel p Hf; [by destruct fuel|].
  pose proof (enc_pos d Hd) as Hp. unfold enc_all in *. cbn [map concat] in *. rewrite length_app in Hf.
  unfold zlen in Hp. destruct fuel as [|fuel]; [lia|]. rewrite load_positions_step, IH by (done || lia). done.
Qed.

(** ** Binary search *)

Section search.
Context {gjson : Gjson} {lru : LRU}.
Implicit Types segs : list segment.

Definition ascending segs : Prop :=
  forall a b sa sb, (a <= b)%nat -> segs !! a = Some sa -> segs !! b = Some sb -> index sa <= index sb.

(** [r] splits the segments into those that start at or before [ix] and those
    that start after it. *)
Definition splits segs (ix r : Z) : Prop :=
  -1 <= r < zlen segs
  /\ forall k s, segs !! k = Some s -> (index s <= ix <-> Z.of_nat k <= r).

Lemma find_loop_spec fuel segs ix i j :
  ascending segs -> 0 <= i <= j -> j <= zlen segs -> j - i < Z.of_nat fuel ->
  (forall k s, segs !! k = Some s -> Z.of_nat k < i -> index s <= ix) ->
  (forall k s, segs !! k = Some s -> j <= Z.of_nat k -> ix < index s) ->
  exists r, find_loop fuel segs ix i j = Ok r /\ splits segs ix r.
Proof.
  intros Hasc. revert i j. induction fuel as [|fuel IH]; intros i j Hij Hj Hf Hlo Hhi; [lia|].
  cbn [find_loop]. destruct (Z.ltb_spec i j) as [Hlt|Hge].
  - set (h := i + (j - i) / 2).
    assert (i <= h < j) as Hh.
    { unfold h. pose proof (Z.div_pos (j - i) 2). pose proof (Z.div_lt_upper_bound (j - i) 2 (j - i)). lia. }
    destruct (idx_in_range segs h) as [s Hs]; [lia|]. rewrite Hs. go_step.
    apply idx_Ok in Hs as [_ Hs]. destruct (Z.leb_spec (index s) ix).
    + apply IH; [lia|lia|lia| |done]. intros k sk Hk Hkh.
      pose proof (Hasc k (Z.to_nat h) sk s ltac:(lia) Hk Hs). lia.
    + apply IH; [lia|lia|lia|done|]. intros k sk Hk Hkh.
      pose proof (Hasc (Z.to_nat h) k s sk ltac:(lia) Hs Hk). lia.
  - exists (i - 1). split; [done|]. split; [lia|]. intros k s Hk. split; intros Hle.
    + destruct (Z.lt_ge_cases (Z.of_nat k) i); [lia|]. pose proof (Hhi k s Hk ltac:(lia)). lia.
    + apply (Hlo k s Hk). lia.
Qed.

(** [findSegment] returns, on segments in ascending order, the last
    segment that starts at or before the index, -1 when there is none. *)
Theorem findSegment_correct (l : Log) ix :
  ascending (segments l) ->
  exists r, findSegment l ix = Ok r /\ splits (segments l) ix r.
Proof.
  intros Hasc. apply find_loop_spec; [done|pose proof (zlen_nonneg (segments l)); lia|lia|unfold zlen; lia|lia|].
  intros k s Hk. apply lookup_lt_Some in Hk. unfold zlen. lia.
Qed.

End search.

(** ** Steps of the monad *)

Section steps.
Context {gjson : Gjson} {lru : LRU}.
Implicit Types l : Log.

Lemma run_bind {A B} (m : io A) (g : A -> io B) l l' a :
  m l = (l', Ok a) -> (m ≫= g) l = g a l'.
Proof. unfold mbind, io_bind. by intros ->. Qed.

Lemma run_get {B} (g : Log -> io B) l : (get ≫= g) l = g l l.
Proof. done. Qed.

Lemma run_ret {A B} (a : A) (g : A -> io B) l : (mret a ≫= g) l = g a l.
Proof. done. Qed.

Lemma run_modify {B} h (g : unit -> io B) l : (modify h ≫= g) l = g tt (h l).
Proof. done. Qed.

Lemma run_lift {A B} (a : A) (g : A -> io B) l : (lift (Ok a) ≫= g) l = g a l.
Proof. done. Qed.

Lemma run_call {B} act torn (g : unit -> io B) l :
  hw l = Healthy -> (os_call act torn ≫= g) l = g tt (act l).
Proof. unfold mbind, io_bind, os_call. by intros ->. Qed.

Lemma run_fails {A B} (m : io A) (g : A -> io B) l l' e : m l = (l', Err e) -> (m ≫= g) l = (l', Err e).
Proof. unfold mbind, io_bind. by intros ->. Qed.

(** A call succeeds, or the disk is not a healthy one and the call fails; a
    healthy disk stays so. *)
Lemma call_cases act torn l :
  (exists h, os_call act torn l = (set_hw h (act l), Ok tt) /\ (hw l = Healthy -> h = hw (act l)))
  \/ (hw l <> Healthy /\ exists k h, os_call act torn l = (set_hw h (torn k l), Err EIO)).
Proof.
  unfold os_call. destruct (hw l) as [|[|n] k|[|n] k].
  - left. exists (hw (act l)). split; [by destruct (act l)|done].
  - right. split; [done|]. by exists k, (Fails 0 0).
  - left. by exists (Fails n k).
  - right. split; [done|]. by exists k, Healthy.
  - left. by exists (FailsOnce n k).
Qed.

(** What a disk is after some calls: a healthy one stays healthy, and one that
    fails for good goes on to. *)
Definition worn (h h' : health) : Prop :=
  match h with
  | Healthy => h' = Healthy
  | Fails _ _ => exists n t, h' = Fails n t
  | FailsOnce _ _ => True
  end.

Lemma worn_refl h : worn h h.
Proof. destruct h; simpl; eauto. Qed.

Lemma worn_trans h1 h2 h3 : worn h1 h2 -> worn h2 h3 -> worn h1 h3.
Proof. destruct h1; simpl; [by intros ->|by intros (n1 & t1 & ->)|done]. Qed.

Lemma quiet_cases l :
  exists h, worn (hw l) h
    /\ (os_quiet l = (set_hw h l, Ok tt) \/ (hw l <> Healthy /\ os_quiet l = (set_hw h l, Err EIO))).
Proof.
  unfold os_quiet, os_call, undone. destruct l as [? ? ? ? ? ? ? ? ? [|[|n] k|[|n] k]]; simpl; eexists; (split; [|eauto]); simpl; eauto.
Qed.

Lemma run_quiet {B} (g : unit -> io B) l : hw l = Healthy -> (os_quiet ≫= g) l = g tt l.
Proof. apply run_call. Qed.

Lemma run_assoc {A B C} (m : io A) (g : A -> io B) (h : B -> io C) l :
  ((m ≫= g) ≫= h) l = (m ≫= (fun a => g a ≫= h)) l.
Proof. unfold mbind, io_bind. by destruct (m l) as [l' [a|e|]]. Qed.

End steps.

Ltac io_step := repeat first
  [ rewrite run_assoc | rewrite run_get | rewrite run_ret | rewrite run_modify | rewrite run_lift
  | progress cbn beta iota ].

(** ** The invariant *)

Section refinement.
Context {gjson : Gjson} {lru : LRU} {lru_laws : LRULaws}.
Implicit Types l : Log.

Definition loaded (s : segment) (ds : list (list byte)) : Prop :=
  ebuf s = enc_all ds /\ epos s = positions 0 ds.

(** A segment before the tail: its file holds its entries, and its buffers
    hold them too or are empty. *)
Definition closed_segment (d : gmap fname (list byte)) (i : Z) (s : segment) (ds : list (list byte)) : Prop :=
  index s = i /\ path s = Seg i /\ d !! Seg i = Some (enc_all ds) /\ Forall small ds /\ ds <> []
  /\ (loaded s ds \/ (ebuf s = [] /\ epos s = [])).

(** The first index of the [k]-th part. *)
Definition start (first : Z) (parts : list (list (list byte))) (k : nat) : Z :=
  first + Z.of_nat (length (concat (take k parts))).

Definition segs_ok (d : gmap fname (list byte)) (first : Z) (parts : list (list (list byte)))
    (segs : list segment) : Prop :=
  length segs = length parts
  /\ forall k s ds, segs !! k = Some s -> parts !! k = Some ds ->
       closed_segment d (start first parts k) s ds.

Definition tail_start l (parts : list (list (list byte))) : Z :=
  firstIndex l + Z.of_nat (length (concat parts)).

(** The directory holds the files of the segments and nothing else but the
    temporary file of a truncation that did not get far. *)
Definition segment_file (first : Z) (parts : list (list (list byte))) (g : fname) : Prop :=
  g = Temp \/ exists k, (k <= length parts)%nat /\ g = Seg (start first parts k).

(** The log between two writes to the tail's file, which holds [f]. *)
Record core l (parts : list (list (list byte))) (tl : list (list byte)) (f : list byte) : Prop := {
  core_open : closed l = false /\ corrupt l = false;
  core_opts : Format (opts l) = BinaryFormat /\ 0 < SegmentSize (opts l);
  core_first : 0 < firstIndex l;
  core_segs : exists segs,
    segments l = segs ++ [mkSegment (Seg (tail_start l parts)) (tail_start l parts) (enc_all tl) (positions 0 tl)]
    /\ segs_ok (disk l) (firstIndex l) parts segs;
  core_tail : disk l !! Seg (tail_start l parts) = Some f /\ Forall small tl;
  core_files : forall g, is_Some (disk l !! g) -> segment_file (firstIndex l) parts g
}.

(** The cache holds none but the first [n] segments. *)
Definition cached_below l (n : nat) : Prop := forall k, k ∈ keys (scache l) -> (k < n)%nat.

(** The tail's file is open for appending. *)
Definition tail_open l (parts : list (list (list byte))) : Prop := sfile l = Some (Seg (tail_start l parts)).

(** The log at rest, on a disk that works, holds the entries [es] from
    [firstIndex] to [lastIndex]. *)
Definition wal_inv l (es : list (list byte)) : Prop :=
  exists parts tl, es = concat parts ++ tl /\ core l parts tl (enc_all tl)
    /\ cached_below l (length parts)
    /\ lastIndex l + 1 = firstIndex l + Z.of_nat (length es) /\ hw l = Healthy /\ tail_open l parts.

Lemma concat_take_le (parts : list (list (list byte))) k :
  (length (concat (take k parts)) <= length (concat parts))%nat.
Proof. rewrite <- (take_drop k parts) at 2. rewrite concat_app, length_app. lia. Qed.

Lemma start_S first parts k ds :
  parts !! k = Some ds -> start first parts (S k) = start first parts k + Z.of_nat (length ds).
Proof.
  intros Hk. unfold start. rewrite (take_S_r parts k ds Hk), concat_app, length_app. simpl.
  rewrite app_nil_r. lia.
Qed.

Lemma start_mono first parts j k :
  (j <= k)%nat -> start first parts j <= start first parts k.
Proof.
  intros Hjk. unfold start. pose proof (concat_take_le (take k parts) j) as H.
  rewrite take_take, Nat.min_l in H by lia. lia.
Qed.

(** What an operation leaves alone besides the segments and the cache. *)
Definition same_store l l' : Prop :=
  opts l' = opts l /\ closed l' = closed l /\ corrupt l' = corrupt l
  /\ firstIndex l' = firstIndex l /\ lastIndex l' = lastIndex l
  /\ sfile l' = sfile l /\ disk l' = disk l /\ worn (hw l) (hw l').

Lemma same_store_refl l : same_store l l.
Proof. split_and!; [done..|apply worn_refl]. Qed.

Lemma same_store_trans l1 l2 l3 : same_store l1 l2 -> same_store l2 l3 -> same_store l1 l3.
Proof.
  intros (? & ? & ? & ? & ? & ? & ? & ?) (? & ? & ? & ? & ? & ? & ? & ?). split_and!; [congruence..|by eapply worn_trans].
Qed.

Lemma closed_unload d i s ds : closed_segment d i s ds -> closed_segment d i (unload s) ds.
Proof. intros (? & ? & ? & ? & ? & _). split_and!; try done. by right. Qed.

Lemma segs_ok_update d first parts segs k (g : segment -> segment) :
  segs_ok d first parts segs ->
  (forall i s ds, closed_segment d i s ds -> closed_segment d i (g s) ds) ->
  segs_ok d first parts (alter g k segs).
Proof.
  intros [Hl Hs] Hg. split; [by rewrite length_alter|]. intros j s ds Hj Hp.
  destruct (decide (k = j)) as [->|Hne].
  - rewrite list_lookup_alter_eq in Hj. apply fmap_Some in Hj as (s0 & Hs0 & ->). apply Hg. by apply (Hs j).
  - rewrite list_lookup_alter_ne in Hj by done. by apply (Hs j).
Qed.

(** A changed cache and a segment dropped from memory keep the rest. *)
Lemma core_evict l parts tl f c (ev : option nat) :
  core l parts tl f -> (forall j, ev = Some j -> (j < length parts)%nat) ->
  core (set_scache c (match ev with
                      | Some j => set_segments (alter unload j (segments l)) l
                      | None => l
                      end)) parts tl f.
Proof.
  intros [Ho Hp Hf (segs & Es & Hok) Ht] Hev. destruct ev as [j|]; split; simpl; try done.
  - exists (alter unload j segs). split; [|by apply segs_ok_update; [|apply closed_unload]].
    rewrite Es, alter_app_l; [done|]. destruct Hok as [-> _]. by apply Hev.
  - by exists segs.
Qed.

Lemma pushCache_core l parts tl f k n :
  core l parts tl f -> cached_below l (length parts) -> (k < n)%nat -> (length parts <= n)%nat ->
  exists l', pushCache k l = (l', Ok tt) /\ core l' parts tl f /\ cached_below l' n /\ same_store l l'
    /\ (forall s, segments l !! k = Some s -> segments l' !! k = Some s) /\ k ∈ keys (scache l').
Proof.
  intros Hc Hb Hk Hn. unfold pushCache. io_step.
  destruct (SetEvicted (scache l) k) as [c ev] eqn:E. eexists. split; [done|]. split_and!.
  - apply core_evict; [done|]. intros j ->. apply SetEvicted_old in E. by apply Hb.
  - intros j Hj. destruct (SetEvicted_keys _ _ _ _ E j Hj) as [->|Hj']; [done|]. apply Hb in Hj'. lia.
  - destruct ev; split_and!; try done; apply worn_refl.
  - intros s Hs. destruct ev as [j|]; simpl; [|done].
    rewrite list_lookup_alter_ne; [done|]. intros ->. by apply (SetEvicted_not_self (scache l) k c).
  - by apply SetEvicted_new in E.
Qed.

(** ** Opening the next segment *)

Lemma tail_core l parts tl f :
  core l parts tl f ->
  tail l = Ok (mkSegment (Seg (tail_start l parts)) (tail_start l parts) (enc_all tl) (positions 0 tl))
  /\ tail_index l = length parts.
Proof.
  intros [_ _ _ (segs & Es & [El _]) _]. unfold tail, tail_index, zlen. rewrite Es, length_app. cbn [length].
  split; [|lia]. apply idx_Ok. split; [lia|]. rewrite lookup_app_r by lia. by replace (Z.to_nat _ - _)%nat with 0%nat by lia.
Qed.

Lemma segs_ok_disk d d' first parts segs :
  segs_ok d first parts segs ->
  (forall k, (k < length parts)%nat -> d' !! Seg (start first parts k) = d !! Seg (start first parts k)) ->
  segs_ok d' first parts segs.
Proof.
  intros [Hl Hs] Hd. split; [done|]. intros k s ds Hk Hp. destruct (Hs k s ds Hk Hp) as (? & ? & ? & ?).
  split_and!; try done; try naive_solver. rewrite Hd; [done|]. by eapply lookup_lt_Some.
Qed.

(** The parts before the tail start before it. *)
Lemma start_lt_tail d first parts segs k :
  segs_ok d first parts segs -> (k < length parts)%nat ->
  start first parts k < first + Z.of_nat (length (concat parts)).
Proof.
  intros [Hl Hs] Hk. destruct (lookup_lt_is_Some_2 parts k Hk) as [ds Hds].
  destruct (lookup_lt_is_Some_2 segs k) as [s Hsk]; [lia|].
  destruct (Hs k s ds Hsk Hds) as (_ & _ & _ & _ & Hne & _).
  pose proof (start_S first parts k ds Hds) as E.
  pose proof (start_mono first parts (S k) (length parts) ltac:(lia)) as Hm.
  unfold start at 2 in Hm. rewrite firstn_all in Hm. destruct ds; [done|]. simpl in E. lia.
Qed.

Lemma segs_ok_snoc d first parts segs s ds :
  segs_ok d first parts segs ->
  closed_segment d (first + Z.of_nat (length (concat parts))) s ds ->
  segs_ok d first (parts ++ [ds]) (segs ++ [s]).
Proof.
  intros [Hl Hs] Hc. split; [by rewrite !length_app, Hl|]. intros k s' ds' Hk Hp.
  assert (forall j, (j <= length parts)%nat -> start first (parts ++ [ds]) j = start first parts j) as Est.
  { intros j Hj. unfold start. by rewrite take_app_le. }
  destruct (decide (k < length parts)%nat) as [Hlt|Hge].
  - rewrite lookup_app_l in Hk by lia. rewrite lookup_app_l in Hp by lia. rewrite Est by lia. by apply (Hs k).
  - assert (k = length parts) as -> by (apply lookup_lt_Some in Hp; rewrite length_app in Hp; simpl in Hp; lia).
    rewrite lookup_app_r, Nat.sub_diag in Hp by lia. rewrite <- Hl, lookup_app_r, Nat.sub_diag in Hk by lia.
    simplify_eq/=. rewrite Est by lia. unfold start. by rewrite firstn_all.
Qed.

Lemma segment_file_snoc first parts tl g :
  g = Seg (first + Z.of_nat (length (concat parts ++ tl))) \/ segment_file first parts g ->
  segment_file first (parts ++ [tl]) g.
Proof.
  intros [->|[->|(k & Hk & ->)]]; [right|by left|right].
  - exists (S (length parts)). rewrite length_app. split; [simpl; lia|]. unfold start.
    rewrite take_ge by (rewrite length_app; simpl; lia). rewrite concat_app. simpl. by rewrite app_nil_r.
  - exists k. rewrite length_app. split; [lia|]. unfold start. by rewrite take_app_le by lia.
Qed.

(** What the state of the disk, the file handle and the index of the last entry
    are does not matter to the layout. *)
Lemma core_hw l parts tl f h : core l parts tl f -> core (set_hw h l) parts tl f.
Proof. intros [? ? ? ? ? ?]. by split. Qed.

Lemma core_sfile l parts tl f x : core l parts tl f -> core (set_sfile x l) parts tl f.
Proof. intros [? ? ? ? ? ?]. by split. Qed.

Lemma core_lastIndex l parts tl f ix : core l parts tl f -> core (set_lastIndex ix l) parts tl f.
Proof. intros [? ? ? ? ? ?]. by split. Qed.

(** An operation that the disk has stopped: it has kept [es] and has written
    some bytes of what comes after it in [all]. *)
Definition stops {A} (r : Log * go A) l (es all : list (list byte)) : Prop :=
  hw l <> Healthy
  /\ exists l' parts done pend k, r = (l', Err EIO) /\ firstIndex l' = firstIndex l
    /\ core l' parts (done ++ pend) (enc_all done ++ take k (enc_all pend))
    /\ es `prefix_of` concat parts ++ done /\ concat parts ++ done ++ pend `prefix_of` all.

Lemma stops_weaken {A} (r : Log * go A) l l1 es es1 all all1 :
  stops r l1 es1 all1 -> (hw l = Healthy -> hw l1 = Healthy) -> firstIndex l1 = firstIndex l ->
  es `prefix_of` es1 -> all1 `prefix_of` all -> stops r l es all.
Proof.
  intros (Hw & l' & parts & done & pend & k & -> & Ef & Hc & He & Ha) Hup Ef1 He1 Ha1. split; [auto|].
  exists l', parts, done, pend, k. split_and!; [done|congruence|done|by etrans|by etrans].
Qed.

Lemma stops_bind {A B} (m : io A) (g : A -> io B) l0 l es all1 all :
  stops (m l0) l es all1 -> all1 `prefix_of` all -> stops ((m ≫= g) l0) l es all.
Proof.
  intros (Hw & l' & parts & done & pend & k & E & Ef & Hc & He & Ha) Ha1. split; [done|].
  exists l', parts, done, pend, k. split_and!; [by apply run_fails|done|done|done|by etrans].
Qed.

(** Nothing of what comes after [es] was written. *)
Lemma stops_core {A} (r : Log * go A) l l' parts tl es all :
  r = (l', Err EIO) -> hw l <> Healthy -> firstIndex l' = firstIndex l -> core l' parts tl (enc_all tl) ->
  es `prefix_of` concat parts ++ tl -> concat parts ++ tl `prefix_of` all -> stops r l es all.
Proof.
  intros -> Hw Ef Hc He Ha. split; [done|]. exists l', parts, tl, [], 0%nat. rewrite !app_nil_r. by split_and!.
Qed.

(** The tail's file synced and closed. *)
Lemma close_tail {B} l parts tl (g : unit -> io B) :
  core l parts tl (enc_all tl) -> tail_open l parts ->
  (exists h, (_ ← sync_sfile; _ ← close_sfile; g tt) l = g tt (set_hw h (set_sfile None l)) /\ (hw l = Healthy -> h = Healthy))
  \/ stops ((_ ← sync_sfile; _ ← close_sfile; g tt) l) l (concat parts ++ tl) (concat parts ++ tl).
Proof.
  intros Hc Ho.
  assert ((_ ← sync_sfile; _ ← close_sfile; g tt) l
          = (_ ← os_quiet; l ← get; match sfile l with Some f => _ ← modify (set_sfile None); _ ← os_quiet; g tt
                                    | None => fail ErrBadFile end) l) as Erun.
  { unfold sync_sfile, close_sfile, on_sfile. io_step. rewrite Ho. unfold mbind, io_bind. destruct (os_quiet l) as [l' [[]|e|]]; [|done..].
    unfold get. by destruct (sfile l'). }
  rewrite Erun. clear Erun. destruct (quiet_cases l) as (h1 & W1 & [E1|[Hd E1]]).
  2: { right. rewrite (run_fails _ _ _ _ _ E1). eapply stops_core; [done|done|done|by apply core_hw|done|done]. }
  rewrite (run_bind _ _ _ _ _ E1). clear E1.
  destruct (quiet_cases (set_sfile None (set_hw h1 l))) as (h2 & W2 & [E2|[Hd E2]]).
  - left. exists h2. io_step. cbn [sfile set_hw]. rewrite Ho. io_step. rewrite (run_bind _ _ _ _ _ E2). split; [done|].
    intros Hw. rewrite Hw in W1. simpl in W1, W2. by subst h1.
  - right. io_step. cbn [sfile set_hw]. rewrite Ho. io_step. rewrite (run_fails _ _ _ _ _ E2).
    eapply stops_core; [done| |done|by apply core_hw, core_sfile, core_hw|done|done].
    intros Hw. rewrite Hw in W1. simpl in W1, Hd. by subst h1.
Qed.

Lemma cycle_core l parts tl :
  core l parts tl (enc_all tl) -> cached_below l (length parts) -> tl <> [] ->
  lastIndex l + 1 = tail_start l parts + Z.of_nat (length tl) -> tail_open l parts ->
  (exists l', cycle l = (l', Ok tt) /\ core l' (parts ++ [tl]) [] []
    /\ cached_below l' (length (parts ++ [tl])) /\ opts l' = opts l
    /\ firstIndex l' = firstIndex l /\ lastIndex l' = lastIndex l /\ (hw l = Healthy -> hw l' = Healthy)
    /\ tail_open l' (parts ++ [tl]))
  \/ stops (cycle l) l (concat parts ++ tl) (concat parts ++ tl).
Proof.
  intros Hc Hb Hne Hlast Hopen. unfold cycle.
  match goal with |- context [close_sfile ≫= ?G] => destruct (close_tail l parts tl G Hc Hopen) as [(h0 & -> & Hup0)|] end;
    [|by right].
  set (l0 := set_hw h0 (set_sfile None l)). assert (core l0 parts tl (enc_all tl)) as Hc0 by (by apply core_hw, core_sfile).
  io_step. destruct (tail_core _ _ _ _ Hc0) as [_ ->].
  destruct (pushCache_core l0 parts tl (enc_all tl) (length parts) (S (length parts)) Hc0 Hb)
    as (l1 & Hrun & Hc1 & Hb1 & (Eo & _ & _ & Ef & El & _ & Ed & Eh) & _); [lia|lia|].
  rewrite (run_bind _ _ _ _ _ Hrun). unfold os_create. cbn [opts firstIndex lastIndex disk hw l0 set_hw set_sfile] in Eo, Ef, El, Ed, Eh.
  assert (hw l = Healthy -> hw l1 = Healthy) as Hup1 by (intros Hw; rewrite (Hup0 Hw) in Eh; exact Eh).
  edestruct call_cases as [(h & E & Hup)|(Hdead & k & h & E)]; [rewrite (run_bind _ _ _ _ _ E)|].
  2: { right. rewrite (run_fails _ _ _ _ _ E). eapply stops_core; [done|auto|done|by apply core_hw|done|done]. }
  left. clear E. io_step. change (lastIndex l0) with (lastIndex l).
  destruct Hc1 as [Ho1 Hp1 Hf1 (segs & Es & Hok) (Ht1 & Ht2) Hd1].
  eexists. split; [done|]. simpl. rewrite Eo, Ef, El.
  split_and!; [|by rewrite length_app, Nat.add_comm|done|done|done|intros Hw; rewrite Hup; simpl; auto|].
  assert (tail_start l1 parts = tail_start l parts) as Ets by (unfold tail_start; by rewrite Ef).
  assert (lastIndex l + 1 = tail_start l1 (parts ++ [tl])) as En.
  { unfold tail_start in *. rewrite Ef, concat_app, length_app. simpl. rewrite app_nil_r. lia. }
  2: { unfold tail_open, tail_start in *. simpl. rewrite concat_app, length_app. simpl. rewrite app_nil_r. do 2 f_equal. lia. }
  rewrite En. split; simpl; try done.
  - exists (segs ++ [mkSegment (Seg (tail_start l1 parts)) (tail_start l1 parts) (enc_all tl) (positions 0 tl)]).
    split; [by rewrite Es|]. apply (segs_ok_disk (disk l1)).
    + apply segs_ok_snoc; [done|]. split_and!; try done. by left.
    + intros k Hk. rewrite lookup_insert_ne; [done|]. intros [= E].
      rewrite length_app in Hk. simpl in Hk.
      pose proof (start_mono (firstIndex l1) (parts ++ [tl]) k (length parts) ltac:(lia)) as Hm.
      unfold start at 2 in Hm. rewrite take_app_length in Hm.
      unfold tail_start in *. rewrite concat_app, length_app in E. simpl in E. rewrite app_nil_r in E.
      destruct tl; [done|]. simpl in E. lia.
  - split; [|constructor]. by rewrite lookup_insert_eq.
  - intros g Hg. apply segment_file_snoc. apply lookup_insert_is_Some in Hg as [<-|[_ Hg]]; [|right; by apply Hd1].
    left. unfold tail_start. rewrite concat_app. simpl. by rewrite app_nil_r.
Qed.

(** ** Writing *)

(** The log with one more entry in the tail's buffers. *)
Definition buffered l parts tl d : Log :=
  set_segments (<[length parts := mkSegment (Seg (tail_start l parts)) (tail_start l parts)
    (enc_all (tl ++ [d])) (positions 0 (tl ++ [d]))]> (segments l)) l.

Lemma core_append l parts tl f d :
  core l parts tl f -> small d -> core (buffered l parts tl d) parts (tl ++ [d]) f.
Proof.
  intros [Ho Hp Hf (segs & Es & Hok) (Ht1 & Ht2)] Hd. split; simpl; try done.
  - exists segs. split; [|done]. rewrite Es, insert_app_r_alt by (destruct Hok; lia).
    destruct Hok as [-> _]. by rewrite Nat.sub_diag.
  - split; [done|]. apply Forall_app. split; [done|by constructor].
Qed.

(** Bytes written to the tail's file. *)
Lemma core_write l parts tl f data :
  core l parts tl f -> core (append_file (Seg (tail_start l parts)) data l) parts tl (f ++ data).
Proof.
  intros [Ho Hp Hf (segs & Es & Hok) (Ht1 & Ht2) Hfs]. split; simpl; try done.
  - exists segs. split; [done|]. apply (segs_ok_disk (disk l)); [done|]. intros k Hk.
    rewrite lookup_insert_ne; [done|]. intros [= E].
    pose proof (start_lt_tail _ _ _ _ k Hok Hk). unfold tail_start in E. lia.
  - split; [|done]. rewrite lookup_insert_eq, Ht1. done.
  - intros g Hg. apply Hfs. apply lookup_insert_is_Some in Hg as [<-|[_ Hg]]; [|done]. eauto.
Qed.

(** The entries of a batch with the data [bd] from index [ix] on. *)
Fixpoint batch_entries (ix : Z) (bd : list (list byte)) : list (Z * Z) :=
  match bd with
  | [] => []
  | d :: bd => (ix, zlen d) :: batch_entries (ix + 1) bd
  end.

(** In the middle of a batch: [done] is on disk, the rest of the tail only in
    memory. *)
Definition mid l parts tl (done : list (list byte)) (mark : Z) : Prop :=
  core l parts tl (enc_all done) /\ cached_below l (length parts)
  /\ (exists pend, tl = done ++ pend) /\ mark = zlen (enc_all done)
  /\ lastIndex l + 1 = tail_start l parts + Z.of_nat (length done) /\ tail_open l parts.

(** The pending entries go to the tail's file, or the disk stops in the middle
    of them. *)
Lemma write_pending {B} l parts done pend es all (g : unit -> io B) :
  core l parts (done ++ pend) (enc_all done) -> tail_open l parts ->
  es `prefix_of` concat parts ++ done -> concat parts ++ done ++ pend `prefix_of` all ->
  (exists l', (write_sfile (enc_all pend) ≫= g) l = g tt l'
     /\ core l' parts (done ++ pend) (enc_all (done ++ pend)) /\ cached_below l' = cached_below l
     /\ opts l' = opts l /\ firstIndex l' = firstIndex l /\ (hw l = Healthy -> hw l' = Healthy) /\ tail_open l' parts)
  \/ stops ((write_sfile (enc_all pend) ≫= g) l) l es all.
Proof.
  intros Hc Ho He Ha.
  assert ((write_sfile (enc_all pend) ≫= g) l = (os_write (Seg (tail_start l parts)) (enc_all pend) ≫= g) l) as ->.
  { unfold write_sfile, on_sfile. io_step. by rewrite Ho. }
  unfold os_write.
  edestruct call_cases as [(h & E & Hup)|(Hdead & k & h & E)].
  - left. rewrite (run_bind _ _ _ _ _ E). eexists. split; [done|]. rewrite enc_all_app.
    split_and!; [by apply core_hw, core_write|done|done|done|intros Hw; simpl; by rewrite Hup|done].
  - right. rewrite (run_fails _ _ _ _ _ E). split; [done|]. eexists _, parts, done, pend, k.
    split_and!; [done|done|by apply core_hw, core_write|done|done].
Qed.

Lemma slice_pending done pend :
  slice_from (enc_all (done ++ pend)) (zlen (enc_all done)) = Ok (enc_all pend).
Proof.
  apply slice_from_Ok. rewrite enc_all_app, drop_zlen, zlen_app. split; [|done].
  pose proof (zlen_nonneg (enc_all done)). pose proof (zlen_nonneg (enc_all pend)). lia.
Qed.

(** One turn of the loop over the entries. *)
Lemma write_entries_turn l parts tl f d bd rest mark ix :
  core l parts tl f -> small d ->
  write_entries (batch_entries ix (d :: bd)) (concat (d :: bd) ++ rest) mark l
  = (mark ← (if SegmentSize (opts l) <=? zlen (enc_all (tl ++ [d])) then
               fresh ← lift (slice_from (enc_all (tl ++ [d])) mark);
               _ ← write_sfile fresh;
               _ ← modify (set_lastIndex ix);
               _ ← cycle;
               mret 0
             else mret mark);
     write_entries (batch_entries (ix + 1) bd) (concat bd ++ rest) mark) (buffered l parts tl d).
Proof.
  intros Hc Hd. cbn [batch_entries write_entries concat]. rewrite <- app_assoc.
  pose proof (zlen_nonneg d). pose proof (zlen_nonneg (concat bd ++ rest)).
  rewrite (proj2 (slice_to_Ok _ _ d)), run_lift by (rewrite take_zlen, zlen_app; split; [lia|done]).
  io_step. destruct (tail_core _ _ _ _ Hc) as [-> ->]. io_step. cbn [ebuf epos path index].
  destruct (core_opts _ _ _ _ Hc) as [-> _]. cbn [appendEntry]. rewrite appendBinaryEntry_enc by done.
  io_step. unfold put_segment. io_step.
  rewrite (proj2 (slice_from_Ok (d ++ concat bd ++ rest) (zlen d) (concat bd ++ rest)))
    by (rewrite drop_zlen, zlen_app; split; [lia|done]).
  by rewrite <- enc_all_snoc, <- positions_snoc.
Qed.

Lemma write_entries_mid bd rest : forall l parts tl done mark,
  Forall small bd -> mid l parts tl done mark ->
  let run := write_entries (batch_entries (tail_start l parts + Z.of_nat (length tl)) bd) (concat bd ++ rest) mark l in
  (exists l' parts' tl' done' mark', run = (l', Ok mark')
    /\ mid l' parts' tl' done' mark' /\ concat parts' ++ tl' = concat parts ++ tl ++ bd
    /\ concat parts ++ done `prefix_of` concat parts' ++ done'
    /\ firstIndex l' = firstIndex l /\ (hw l = Healthy -> hw l' = Healthy))
  \/ stops run l (concat parts ++ done) (concat parts ++ tl ++ bd).
Proof.
  induction bd as [|d bd IH]; intros l parts tl done mark Hs Hm run.
  { left. exists l, parts, tl, done, mark. split_and!; try done. by rewrite app_nil_r. }
  unfold run. clear run.
  apply Forall_cons_1 in Hs as [Hd Hs]. destruct Hm as (Hc & Hb & (pend & ->) & -> & Hlast & Hopen).
  rewrite (write_entries_turn l parts (done ++ pend) (enc_all done)) by done.
  set (l1 := buffered l parts (done ++ pend) d).
  assert (core l1 parts ((done ++ pend) ++ [d]) (enc_all done)) as Hc1 by exact (core_append _ _ _ _ d Hc Hd).
  rewrite <- app_assoc in Hc1 |- *.
  assert (concat parts ++ (done ++ pend) ++ d :: bd = (concat parts ++ done ++ pend ++ [d]) ++ bd) as Eall
    by (by rewrite <- !app_assoc).
  destruct (Z.leb_spec (SegmentSize (opts l)) (zlen (enc_all (done ++ pend ++ [d])))).
  - rewrite slice_pending. io_step.
    set (ix := tail_start l parts + Z.of_nat (length (done ++ pend))). rewrite Eall.
    match goal with |- context [write_sfile _ ≫= ?G] =>
      destruct (write_pending l1 parts done (pend ++ [d]) (concat parts ++ done)
        ((concat parts ++ done ++ pend ++ [d]) ++ bd) G Hc1) as [(l2 & -> & Hc2 & Eb2 & Eo2 & Ef2 & Hw2 & Hopen2)|Hstop] end;
      [done|done|by exists bd| |by right]. io_step. change (hw l1) with (hw l) in Hw2. change (firstIndex l1) with (firstIndex l) in Ef2.
    assert (tail_start l2 parts = tail_start l parts) as Ets by (unfold tail_start; by rewrite Ef2).
    destruct (cycle_core (set_lastIndex ix l2) parts (done ++ pend ++ [d])) as [(l3 & Hcy & Hc3 & Hb3 & Eo3 & Ef3 & El3 & Hw3 & Hopen3)|Hstop];
      [by apply core_lastIndex|change (cached_below (set_lastIndex ix l2)) with (cached_below l2); by rewrite Eb2|by destruct done, pend| |done| |].
    { change (tail_start (set_lastIndex ix l2) parts) with (tail_start l2 parts). rewrite Ets. simpl. unfold ix.
      rewrite !length_app. simpl. lia. }
    2: { right. destruct Hstop as (Hdead & l' & parts' & done' & pend' & k & E & Ef & Hc' & He & Ha).
         rewrite (run_fails _ _ _ _ _ E). simpl in Hdead, Ef. split; [auto|]. exists l', parts', done', pend', k.
         split_and!; [done|congruence|done| |by apply prefix_app_r].
         etrans; [|exact He]. apply prefix_app, prefix_app_r. done. }
    rewrite (run_bind _ _ _ _ _ Hcy). io_step. simpl in Ef3, El3, Hw3.
    assert (tail_start l3 (parts ++ [done ++ pend ++ [d]]) + Z.of_nat (length (@nil (list byte))) = ix + 1) as Eix.
    { unfold tail_start, ix. rewrite Ef3, concat_app, !length_app. simpl. rewrite app_nil_r, !length_app.
      unfold tail_start. simpl. lia. }
    assert (concat (parts ++ [done ++ pend ++ [d]]) = concat parts ++ done ++ pend ++ [d]) as Econ
      by (rewrite concat_app; simpl; by rewrite app_nil_r).
    destruct (IH l3 (parts ++ [done ++ pend ++ [d]]) [] [] 0 Hs)
      as [(l' & parts' & tl' & done' & mark' & Hrun & Hm' & Ec & He & Ef & Hw)|Hstop].
    { split_and!; [done|done|by exists []|done|rewrite El3, Eix; done|done]. }
    + left. exists l', parts', tl', done', mark'. rewrite Eix in Hrun. split_and!; [done..| | |congruence|auto].
      * by rewrite Ec, Econ.
      * etrans; [|exact He]. rewrite app_nil_r, Econ. apply prefix_app, prefix_app_r. done.
    + right. rewrite Eix in Hstop. eapply stops_weaken; [exact Hstop|auto|congruence| |].
      * rewrite app_nil_r, Econ. apply prefix_app, prefix_app_r. done.
      * by rewrite Econ.
  - io_step. rewrite Eall.
    assert (tail_start l1 parts + Z.of_nat (length (done ++ pend ++ [d]))
      = tail_start l parts + Z.of_nat (length (done ++ pend)) + 1) as Eix.
    { change (tail_start l1 parts) with (tail_start l parts). rewrite !length_app. simpl. lia. }
    destruct (IH l1 parts (done ++ pend ++ [d]) done (zlen (enc_all done)) Hs)
      as [(l' & parts' & tl' & done' & mark' & Hrun & Hm' & Ec & He & Ef & Hw)|Hstop].
    { split_and!; try done. by exists (pend ++ [d]). }
    + left. rewrite Eix in Hrun. exists l', parts', tl', done', mark'. split_and!; try done. by rewrite Ec, <- !app_assoc.
    + right. rewrite Eix in Hstop. eapply stops_weaken; [exact Hstop|done|done|done|by rewrite <- !app_assoc].
Qed.

Lemma in_order_batch last i bd : out_of_order last i (batch_entries (last + (i + 1)) bd) = None.
Proof.
  revert i. induction bd as [|d bd IH]; intros i; simpl; [done|]. rewrite Z.eqb_refl. simpl.
  replace (last + (i + 1) + 1) with (last + (i + 1 + 1)) by lia. apply IH.
Qed.

Lemma batch_entries_lookup ix bd j d :
  bd !! j = Some d -> batch_entries ix bd !! j = Some (ix + Z.of_nat j, zlen d).
Proof.
  revert ix j. induction bd as [|d' bd IH]; intros ix [|j] Hj; simplify_eq/=.
  - by rewrite Z.add_0_r.
  - rewrite (IH (ix + 1) j Hj). do 2 f_equal. lia.
Qed.

Lemma length_batch_entries ix bd : length (batch_entries ix bd) = length bd.
Proof. revert ix. induction bd as [|d bd IH]; intros ix; simpl; [done|]. by rewrite IH. Qed.

Lemma batch_entries_last ix bd :
  bd <> [] -> exists n, idx (batch_entries ix bd) (zlen (batch_entries ix bd) - 1)
                        = Ok (ix + Z.of_nat (length bd) - 1, n).
Proof.
  intros Hne. assert (0 < length bd)%nat by (destruct bd; [done|simpl; lia]).
  destruct (lookup_lt_is_Some_2 bd (pred (length bd))) as [d Hd]; [lia|].
  exists (zlen d). apply idx_Ok. unfold zlen at 1 2. rewrite length_batch_entries. split; [lia|].
  replace (Z.to_nat _) with (pred (length bd)) by lia. rewrite (batch_entries_lookup ix bd _ d Hd).
  do 2 f_equal. lia.
Qed.

(** Before the first entry is written: a full tail is closed first. *)
Lemma writeBatch_cycle l parts tl :
  mid l parts tl tl (zlen (enc_all tl)) ->
  let run := (if SegmentSize (opts l) <? zlen (enc_all tl) then cycle else mret tt) l in
  (exists l' parts' tl', run = (l', Ok tt)
    /\ mid l' parts' tl' tl' (zlen (enc_all tl')) /\ concat parts' ++ tl' = concat parts ++ tl
    /\ firstIndex l' = firstIndex l /\ lastIndex l' = lastIndex l /\ (hw l = Healthy -> hw l' = Healthy))
  \/ stops run l (concat parts ++ tl) (concat parts ++ tl).
Proof.
  intros Hm run. unfold run. destruct (Z.ltb_spec (SegmentSize (opts l)) (zlen (enc_all tl))) as [Hlt|_];
    [|left; by exists l, parts, tl].
  destruct Hm as (Hc & Hb & _ & _ & Hl & Hopen). destruct (core_opts _ _ _ _ Hc) as [_ Hsz].
  destruct (cycle_core l parts tl Hc Hb) as [(l' & Hrun & Hc' & Hb' & _ & Ef & El & Ew & Hopen')|Hstop]; [|done|done| |by right].
  { intros ->. unfold enc_all, zlen in Hlt. simpl in Hlt. lia. }
  left. exists l', (parts ++ [tl]), []. split; [done|]. split; [|by rewrite concat_app, !app_nil_r; simpl; rewrite app_nil_r].
  split; [done|]. split; [done|]. split; [by exists []|]. split; [done|]. split; [|done].
  unfold tail_start in *. rewrite Ef, El, concat_app, length_app. simpl. rewrite app_nil_r. lia.
Qed.

Lemma enc_all_nil ds : Forall small ds -> zlen (enc_all ds) <= 0 -> ds = [].
Proof.
  destruct 1 as [|d ds Hd _]; [done|]. unfold enc_all. simpl. rewrite zlen_app.
  pose proof (enc_pos d Hd). pose proof (zlen_nonneg (concat (map enc ds))). lia.
Qed.

(** The log at rest, whatever the state of its disk. *)
Definition at_rest l (es : list (list byte)) : Prop :=
  exists parts tl, es = concat parts ++ tl /\ core l parts tl (enc_all tl) /\ cached_below l (length parts)
    /\ lastIndex l + 1 = firstIndex l + Z.of_nat (length es) /\ tail_open l parts.

Lemma at_rest_inv l es : at_rest l es -> hw l = Healthy -> wal_inv l es.
Proof. intros (parts & tl & ? & ? & ? & ? & ?) Hw. by exists parts, tl. Qed.

Lemma at_rest_hw l es h : at_rest l es -> at_rest (set_hw h l) es.
Proof. intros (parts & tl & ? & Hc & ? & ? & ?). exists parts, tl. split_and!; [done|by apply core_hw|done..]. Qed.

Lemma wal_inv_rest l es : wal_inv l es -> at_rest l es.
Proof. intros (parts & tl & ? & ? & ? & ? & _ & ?). by exists parts, tl. Qed.

(** The end of [writeBatch]: what is pending is written. *)
Lemma write_rest l parts done pend es all bd ix :
  core l parts (done ++ pend) (enc_all done) -> cached_below l (length parts) -> tail_open l parts -> bd <> [] ->
  lastIndex l + 1 = tail_start l parts + Z.of_nat (length done) ->
  es `prefix_of` concat parts ++ done -> concat parts ++ done ++ pend = all ->
  ix + Z.of_nat (length bd) = firstIndex l + Z.of_nat (length all) ->
  let run := (if 0 <? zlen (enc_all (done ++ pend)) - zlen (enc_all done) then
                fresh ← lift (slice_from (enc_all (done ++ pend)) (zlen (enc_all done)));
                _ ← write_sfile fresh;
                last ← lift (idx (batch_entries ix bd) (zlen (batch_entries ix bd) - 1));
                modify (set_lastIndex last.1)
              else mret tt) l in
  (exists l', run = (l', Ok tt) /\ at_rest l' all /\ firstIndex l' = firstIndex l /\ (hw l = Healthy -> hw l' = Healthy))
  \/ stops run l es all.
Proof.
  intros Hc Hb Hopen Hne Hl He <- Hix run. unfold run. clear run.
  destruct (Z.ltb_spec 0 (zlen (enc_all (done ++ pend)) - zlen (enc_all done))) as [Hp|Hp].
  - rewrite slice_pending. io_step.
    match goal with |- context [write_sfile _ ≫= ?G] =>
      destruct (write_pending l parts done pend es (concat parts ++ done ++ pend) G Hc Hopen He)
        as [(l3 & -> & Hc3 & Eb3 & Eo3 & Ef3 & Hw3 & Hopen3)|Hstop] end; [done| |by right].
    destruct (batch_entries_last ix bd Hne) as [n ->]. io_step.
    left. eexists. split; [done|]. split; [|by split].
    exists parts, (done ++ pend). split_and!; [done|by apply core_lastIndex| | |].
    + change (cached_below (set_lastIndex _ l3)) with (cached_below l3). by rewrite Eb3.
    + simpl. rewrite Ef3, <- Hix. lia.
    + done.
  - assert (pend = []) as ->.
    { apply enc_all_nil; [|rewrite enc_all_app, zlen_app in Hp; lia].
      destruct (core_tail _ _ _ _ Hc) as (_ & Hsm). by apply Forall_app in Hsm as [_ Hsm]. }
    left. eexists. split; [done|]. split; [|done].
    rewrite app_nil_r in *. exists parts, done. split_and!; [done|done|done| |done].
    rewrite length_app, Hl. unfold tail_start. lia.
Qed.

(** The last [Sync]: the batch is in the file already. *)
Lemma sync_end l all (nosync : bool) :
  at_rest l all ->
  let run := (if nosync then mret tt else sync_sfile) l in
  (exists l', run = (l', Ok tt) /\ at_rest l' all /\ firstIndex l' = firstIndex l /\ (hw l = Healthy -> hw l' = Healthy))
  \/ stops run l all all.
Proof.
  intros Hr run. unfold run. destruct nosync; [left; by exists l|].
  pose proof Hr as (parts & tl & -> & Hc & _ & _ & Hopen). unfold sync_sfile, on_sfile. io_step. rewrite Hopen.
  destruct (quiet_cases l) as (h & W & [->|[Hd ->]]).
  - left. eexists. split; [done|]. split; [by apply at_rest_hw|]. split; [done|]. intros Hw. rewrite Hw in W. exact W.
  - right. eapply stops_core; [done|done|done|by apply core_hw|done|done].
Qed.

(** A batch is appended, or the disk stops it. *)
Lemma writeBatch_outcome l es bd :
  at_rest l es -> Forall small bd -> bd <> [] ->
  let run := writeBatch (mkBatch (batch_entries (lastIndex l + 1) bd) (concat bd)) l in
  (exists l', run = (l', Ok tt) /\ at_rest l' (es ++ bd) /\ firstIndex l' = firstIndex l
     /\ (hw l = Healthy -> hw l' = Healthy))
  \/ stops run l es (es ++ bd).
Proof.
  intros (parts & tl & -> & Hc & Hb & Hlast & Hopen) Hs Hne run. unfold run. clear run.
  assert (mid l parts tl tl (zlen (enc_all tl))) as Hm.
  { split_and!; try done; [exists []; by rewrite app_nil_r|]. unfold tail_start. rewrite Hlast, length_app. lia. }
  unfold writeBatch. io_step. cbn [entries datas].
  rewrite (in_order_batch (lastIndex l) 0 bd : out_of_order _ 0 (batch_entries (lastIndex l + 1) bd) = None).
  destruct (tail_core _ _ _ _ Hc) as [-> _]. io_step. cbn [ebuf].
  destruct (writeBatch_cycle l parts tl Hm) as [(l1 & parts1 & tl1 & Hcy & Hm1 & Ec1 & Ef1 & El1 & Hw1)|Hstop].
  2: { right. apply (stops_bind _ _ _ _ _ (concat parts ++ tl)); [done|by apply prefix_app_r]. }
  rewrite (run_bind _ _ _ _ _ Hcy). io_step.
  pose proof Hm1 as (Hc1 & _ & _ & _ & Hl1 & _). destruct (tail_core _ _ _ _ Hc1) as [-> _]. io_step. cbn [ebuf].
  pose proof (write_entries_mid bd [] l1 parts1 tl1 tl1 _ Hs Hm1) as Hwe. cbv zeta in Hwe.
  rewrite <- Hl1, El1, app_nil_r, app_assoc, Ec1 in Hwe.
  destruct Hwe as [(l2 & parts2 & tl2 & done2 & mark2 & Hrun & Hm2 & Ec2 & He2 & Ef2 & Hw2)|Hstop].
  2: { right. apply (stops_bind _ _ _ _ _ ((concat parts ++ tl) ++ bd)); [|done].
       eapply stops_weaken; [exact Hstop|auto|done|done|done]. }
  rewrite (run_bind _ _ _ _ _ Hrun). io_step.
  destruct Hm2 as (Hc2 & Hb2 & (pend & ->) & -> & Hl2 & Hopen2).
  destruct (tail_core _ _ _ _ Hc2) as [-> _]. io_step. cbn [ebuf].
  destruct (write_rest l2 parts2 done2 pend (concat parts ++ tl) ((concat parts ++ tl) ++ bd) bd (lastIndex l + 1))
    as [(l3 & Hend & Hr & Ef3 & Hw3)|Hstop]; [done..| | |].
  - rewrite Ef2, Ef1, Hlast, !length_app. lia.
  - rewrite (run_bind _ _ _ _ _ Hend).
    destruct (sync_end l3 ((concat parts ++ tl) ++ bd) (NoSync (opts l2)) Hr) as [(l4 & Hs4 & Hr4 & Ef4 & Hw4)|Hstop].
    + left. exists l4. split_and!; [exact Hs4|done|congruence|auto].
    + right. eapply stops_weaken; [exact Hstop|auto|congruence|by apply prefix_app_r|done].
  - right. apply (stops_bind _ _ _ _ _ ((concat parts ++ tl) ++ bd)); [|done].
    eapply stops_weaken; [exact Hstop|auto|congruence|done|done].
Qed.

Lemma writeBatch_appends l es bd :
  wal_inv l es -> Forall small bd -> bd <> [] ->
  exists l', writeBatch (mkBatch (batch_entries (lastIndex l + 1) bd) (concat bd)) l = (l', Ok tt)
    /\ wal_inv l' (es ++ bd) /\ firstIndex l' = firstIndex l.
Proof.
  intros Hinv Hs Hne. pose proof Hinv as (parts & tl & _ & _ & _ & _ & Hw & _).
  destruct (writeBatch_outcome l es bd) as [(l' & Hrun & Hr & Ef & Hw')|[? _]]; [by apply wal_inv_rest|done|done| |done].
  exists l'. split_and!; [done|by apply at_rest_inv; auto|done].
Qed.

(** ** Finding and loading a segment *)

(** The segment [k] of the log holds the part [ds]; its buffers may be empty
    unless it is the tail. *)
Lemma core_segment l parts tl f k s :
  core l parts tl f -> segments l !! k = Some s ->
  exists ds, (parts ++ [tl]) !! k = Some ds /\ index s = start (firstIndex l) (parts ++ [tl]) k
    /\ path s = Seg (index s) /\ (k <= length parts)%nat
    /\ (loaded s ds \/ ((k < length parts)%nat /\ ebuf s = [] /\ epos s = []))
    /\ ((k < length parts)%nat -> closed_segment (disk l) (index s) s ds).
Proof.
  intros [_ _ _ (segs & Es & [Hlen Hok]) _] Hk. rewrite Es in Hk.
  destruct (decide (k < length parts)%nat) as [Hlt|Hge].
  - rewrite lookup_app_l in Hk by lia. destruct (lookup_lt_is_Some_2 parts k Hlt) as [ds Hds].
    pose proof (Hok k s ds Hk Hds) as Hc. pose proof Hc as (Ei & Ep & _ & _ & _ & Hl).
    exists ds. rewrite lookup_app_l by lia. unfold start. rewrite take_app_le by lia. fold (start (firstIndex l) parts k).
    rewrite Ep, Ei. split_and!; try done; [lia|]. destruct Hl as [?|[? ?]]; [by left|by right].
  - assert (k = length parts) as -> by (apply lookup_lt_Some in Hk; rewrite length_app in Hk; simpl in Hk; lia).
    rewrite <- Hlen, lookup_app_r, Nat.sub_diag in Hk by lia. injection Hk as <-.
    exists tl. rewrite lookup_app_r, Nat.sub_diag by lia. unfold start. rewrite take_app_length.
    split_and!; try done; try lia. by left.
Qed.

Lemma core_length l parts tl f : core l parts tl f -> length (segments l) = S (length parts).
Proof. intros [_ _ _ (segs & -> & [Hl _]) _]. rewrite length_app, Hl. simpl. lia. Qed.

Lemma core_ascending l parts tl f : core l parts tl f -> ascending (segments l).
Proof.
  intros Hc a b sa sb Hab Ha Hb.
  destruct (core_segment _ _ _ _ _ _ Hc Ha) as (_ & _ & -> & _).
  destruct (core_segment _ _ _ _ _ _ Hc Hb) as (_ & _ & -> & _). by apply start_mono.
Qed.

(** A part read from its file, or left as it is by a disk that fails. *)
Lemma load_closed l i s ds :
  Format (opts l) = BinaryFormat -> closed_segment (disk l) i s ds ->
  exists h, worn (hw l) h
    /\ ((exists s', loadSegmentEntries s l = (set_hw h l, Ok s') /\ loaded s' ds /\ path s' = path s /\ index s' = index s
          /\ closed_segment (disk l) i s' ds)
        \/ (hw l <> Healthy /\ loadSegmentEntries s l = (set_hw h l, Ok s))).
Proof.
  intros Hf (Ei & Ep & Ed & Hsm & Hne & _). unfold loadSegmentEntries. io_step. unfold os_read, mbind, io_bind. rewrite Ep, Ed.
  destruct (quiet_cases l) as (h & W & [->|[Hd ->]]); exists h; (split; [done|]); [left|by right].
  rewrite Hf, load_positions_enc by (done || lia). eexists. split; [done|].
  do 3 (split; [done|]). do 5 (split; [done|]). by left.
Qed.

Lemma core_put l parts tl f k s ds :
  core l parts tl f -> (k < length parts)%nat -> parts !! k = Some ds ->
  closed_segment (disk l) (start (firstIndex l) parts k) s ds ->
  core (set_segments (<[k := s]> (segments l)) l) parts tl f.
Proof.
  intros [Ho Hp Hf (segs & Es & [Hlen Hok]) Ht] Hk Hds Hs. split; simpl; try done.
  exists (<[k := s]> segs). split; [rewrite Es, insert_app_l by lia; done|].
  split; [by rewrite length_insert|]. intros j s' ds' Hj Hp'.
  apply list_lookup_insert_Some in Hj as [(-> & -> & _)|[_ Hj]]; [congruence|by apply (Hok j)].
Qed.

(** What [loadSegment] finds for an index of the log. *)
Definition holds l parts tl ix (k : nat) (s : segment) (ds : list (list byte)) : Prop :=
  segments l !! k = Some s /\ (parts ++ [tl]) !! k = Some ds /\ loaded s ds
  /\ index s = start (firstIndex l) (parts ++ [tl]) k
  /\ index s <= ix < index s + Z.of_nat (length ds).

Lemma loadSegment_tail l parts tl f ix :
  core l parts tl f -> tail_start l parts <= ix < tail_start l parts + Z.of_nat (length tl) ->
  exists s, loadSegment ix l = (l, Ok (length parts)) /\ holds l parts tl ix (length parts) s tl.
Proof.
  intros Hc Hix. unfold loadSegment. io_step. destruct (tail_core _ _ _ _ Hc) as [Ht Hti].
  rewrite Ht. io_step. cbn [index]. destruct (Z.leb_spec (tail_start l parts) ix); [|lia].
  rewrite Hti. eexists. split; [done|]. split.
  { destruct Hc as [_ _ _ (segs & -> & [Hl _]) _]. by rewrite <- Hl, lookup_app_r, Nat.sub_diag by lia. }
  split; [by rewrite lookup_app_r, Nat.sub_diag by lia|]. split; [done|].
  split; [unfold start; by rewrite take_app_length|simpl; lia].
Qed.

(** The segment the cache offers first. *)
Definition cache_hit l ix : option nat :=
  match keys (scache l) with
  | k :: _ => match segments l !! k with
              | Some s => if (index s <=? ix) && (ix <? index s + zlen (epos s)) then Some k else None
              | None => None
              end
  | [] => None
  end.

Lemma cache_hit_holds l parts tl f ix k :
  core l parts tl f -> cache_hit l ix = Some k ->
  k ∈ keys (scache l) /\ exists s ds, holds l parts tl ix k s ds.
Proof.
  unfold cache_hit. intros Hc Hh. destruct (keys (scache l)) as [|k' ks]; [done|].
  destruct (segments l !! k') as [s|] eqn:Hs; [|done].
  destruct (Z.leb_spec (index s) ix), (Z.ltb_spec ix (index s + zlen (epos s))); simplify_eq/=.
  split; [set_solver|]. destruct (core_segment _ _ _ _ _ _ Hc Hs) as (ds & Hds & Ei & _ & _ & [Hl|(_ & _ & Ee)] & _).
  - exists s, ds. pose proof Hl as [_ Ep]. rewrite Ep in *. unfold zlen in *. rewrite length_positions in *.
    by split_and!.
  - rewrite Ee, zlen_nil in *. lia.
Qed.

(** The search finds a segment before the tail that holds the index. *)
Lemma findSegment_holds l parts tl f ix :
  core l parts tl f -> firstIndex l <= ix < tail_start l parts ->
  exists k s ds, findSegment l ix = Ok (Z.of_nat k) /\ (k < length parts)%nat
    /\ segments l !! k = Some s /\ parts !! k = Some ds
    /\ index s = start (firstIndex l) parts k
    /\ index s <= ix < index s + Z.of_nat (length ds).
Proof.
  intros Hc Hix. pose proof (core_length _ _ _ _ Hc) as Hlen.
  destruct (find_loop_spec (S (length (segments l))) (segments l) ix 0 (zlen (segments l)))
    as (r & Hr & Hrange & Hsplit);
    [by eapply core_ascending|pose proof (zlen_nonneg (segments l)); lia|lia|unfold zlen; lia|lia| |].
  { intros k s Hk. apply lookup_lt_Some in Hk. unfold zlen. lia. }
  unfold zlen in Hrange.
  assert (0 <= r < Z.of_nat (length parts)) as Hr0.
  { destruct (lookup_lt_is_Some_2 (segments l) 0) as [s0 Hs0]; [lia|].
    destruct (lookup_lt_is_Some_2 (segments l) (length parts)) as [st Hst]; [lia|].
    destruct (core_segment _ _ _ _ _ _ Hc Hs0) as (_ & _ & E0 & _).
    destruct (core_segment _ _ _ _ _ _ Hc Hst) as (_ & _ & Et & _).
    pose proof (proj1 (Hsplit _ _ Hs0)) as H0. pose proof (proj2 (Hsplit _ _ Hst)) as H1.
    unfold start in E0, Et. rewrite take_app_length in Et. simpl in E0. unfold tail_start in Hix. lia. }
  destruct (lookup_lt_is_Some_2 (segments l) (Z.to_nat r)) as [s Hs]; [lia|].
  destruct (lookup_lt_is_Some_2 (segments l) (S (Z.to_nat r))) as [s' Hs']; [lia|].
  destruct (core_segment _ _ _ _ _ _ Hc Hs) as (ds & Hds & Ei & _).
  destruct (core_segment _ _ _ _ _ _ Hc Hs') as (_ & _ & Ei' & _).
  pose proof (proj2 (Hsplit _ _ Hs) ltac:(lia)) as Hle.
  assert (ix < index s') as Hgt.
  { destruct (Z.le_gt_cases (index s') ix) as [Hle'|]; [|lia].
    pose proof (proj1 (Hsplit _ _ Hs') Hle'). lia. }
  rewrite (start_S _ _ _ _ Hds) in Ei'.
  exists (Z.to_nat r), s, ds. rewrite lookup_app_l in Hds by lia.
  assert (start (firstIndex l) (parts ++ [tl]) (Z.to_nat r) = start (firstIndex l) parts (Z.to_nat r)) as Est.
  { unfold start. by rewrite take_app_le by lia. }
  rewrite Est in Ei, Ei'. split_and!; try done; try lia. rewrite Z2Nat.id by lia. exact Hr.
Qed.

(** A segment found by the search, read from its file if it must be. *)
Lemma read_found l parts tl f k s ds :
  core l parts tl f -> cached_below l (length parts) -> (k < length parts)%nat ->
  segments l !! k = Some s -> parts !! k = Some ds ->
  exists l1 s1, (if zlen (epos s) =? 0 then s' ← loadSegmentEntries s; put_segment k s' else mret tt) l = (l1, Ok tt)
    /\ core l1 parts tl f /\ cached_below l1 (length parts) /\ same_store l l1
    /\ segments l1 !! k = Some s1 /\ index s1 = index s /\ (loaded s1 ds \/ (hw l <> Healthy /\ epos s1 = [])).
Proof.
  intros Hc Hb Hk Hs Hds.
  assert (closed_segment (disk l) (start (firstIndex l) parts k) s ds) as Hcl.
  { destruct Hc as [_ _ _ (segs & Es & [Hlen Hok]) _]. rewrite Es, lookup_app_l in Hs by lia. by apply (Hok k). }
  destruct (Z.eqb_spec (zlen (epos s)) 0) as [E|E].
  - destruct (load_closed l _ s ds (proj1 (core_opts _ _ _ _ Hc)) Hcl) as (h & W & [(s' & Hrun & Hl & _ & Ei' & Hcl')|[Hd Hrun]]).
    + rewrite (run_bind _ _ _ _ _ Hrun). eexists _, s'. split; [done|].
      split; [by eapply core_put; [apply core_hw| | |]|]. split; [done|]. split; [by split_and!|].
      split; [|split; [done|by left]]. simpl. apply list_lookup_insert_eq. by apply lookup_lt_Some in Hs.
    + rewrite (run_bind _ _ _ _ _ Hrun). eexists _, s. split; [done|].
      split; [by eapply core_put; [apply core_hw| | |]|]. split; [done|]. split; [by split_and!|].
      split; [|split; [done|]].
      * simpl. apply list_lookup_insert_eq. by apply lookup_lt_Some in Hs.
      * right. split; [done|]. by apply length_zero_iff_nil, Nat2Z.inj.
  - exists l, s. split; [done|]. split; [done|]. split; [done|]. split; [apply same_store_refl|]. split; [done|]. split; [done|].
    left. destruct Hcl as (_ & _ & _ & _ & _ & [Hl|[_ Ee]]); [done|]. by rewrite Ee in E.
Qed.

(** The segment of an index of the log is found and in memory, unless the disk
    failed to read it. *)
Lemma loadSegment_cases l parts tl f ix :
  core l parts tl f -> cached_below l (length parts) ->
  firstIndex l <= ix < tail_start l parts + Z.of_nat (length tl) ->
  exists l' k, loadSegment ix l = (l', Ok k) /\ core l' parts tl f /\ cached_below l' (length parts) /\ same_store l l'
    /\ ((exists s ds, holds l' parts tl ix k s ds /\ ((k < length parts)%nat -> k ∈ keys (scache l')))
        \/ (hw l <> Healthy /\ findSegment l ix = Ok (Z.of_nat k)
            /\ exists s, segments l' !! k = Some s /\ index s <= ix /\ epos s = [])).
Proof.
  intros Hc Hb Hix. destruct (decide (tail_start l parts <= ix)) as [Ht|Ht].
  { destruct (loadSegment_tail l parts tl f ix Hc) as (s & Hrun & Hh); [lia|].
    exists l, (length parts). split_and!; try done; [apply same_store_refl|]. left. exists s, tl. split; [done|lia]. }
  unfold loadSegment. io_step. destruct (tail_core _ _ _ _ Hc) as [Htl _]. rewrite Htl. io_step. cbn [index].
  destruct (Z.leb_spec (tail_start l parts) ix); [lia|].
  fold (cache_hit l ix). destruct (cache_hit l ix) as [k|] eqn:Hhit.
  { destruct (cache_hit_holds l parts tl f ix k Hc Hhit) as (Hin & s & ds & Hh).
    exists l, k. split_and!; try done; [apply same_store_refl|]. left. by exists s, ds. }
  destruct (findSegment_holds l parts tl f ix Hc) as (k & s & ds & Hfind & Hk & Hs & Hds & Ei & Hr); [lia|]. rewrite Hfind.
  io_step. rewrite (proj2 (idx_Ok _ _ s)) by (rewrite Nat2Z.id; split; [lia|done]). io_step.
  rewrite Nat2Z.id.
  destruct (read_found l parts tl f k s ds Hc Hb Hk Hs Hds) as (l1 & s1 & Hrun & Hc1 & Hb1 & Hst & Hs1 & Ei1 & Hl1).
  rewrite (run_bind _ _ _ _ _ Hrun).
  destruct (pushCache_core l1 parts tl f k (length parts) Hc1 Hb1 Hk ltac:(lia)) as (l2 & Hp & Hc2 & Hb2 & Hst2 & Hkeep & Hin).
  rewrite (run_bind _ _ _ _ _ Hp). pose proof (same_store_trans _ _ _ Hst Hst2) as Hst3.
  pose proof Hst3 as (_ & _ & _ & A4 & _).
  exists l2, k. split; [done|]. split; [done|]. split; [done|]. split; [done|].
  destruct Hl1 as [Hl1|[Hd He]]; [left; exists s1, ds|right; split_and!; [done|done|]; exists s1; split_and!; [by apply Hkeep|lia|done]].
  split; [|done]. split; [by apply Hkeep|]. split; [by rewrite lookup_app_l by lia|]. split; [done|].
  unfold start. rewrite take_app_le by lia. fold (start (firstIndex l2) parts k). rewrite A4, Ei1.
  split; [done|lia].
Qed.

Lemma loadSegment_holds l parts tl f ix :
  core l parts tl f -> cached_below l (length parts) -> hw l = Healthy ->
  firstIndex l <= ix < tail_start l parts + Z.of_nat (length tl) ->
  exists l' k s ds, loadSegment ix l = (l', Ok k) /\ core l' parts tl f
    /\ cached_below l' (length parts) /\ same_store l l' /\ holds l' parts tl ix k s ds
    /\ ((k < length parts)%nat -> k ∈ keys (scache l')).
Proof.
  intros Hc Hb Hw Hix. destruct (loadSegment_cases l parts tl f ix Hc Hb Hix)
    as (l' & k & Hrun & Hc' & Hb' & Hst & [(s & ds & Hh & Hk)|[? _]]); [|done]. by exists l', k, s, ds.
Qed.

(** Where an index lies in the list of all entries. *)
Lemma concat_lookup_start first (P : list (list (list byte))) k ds ix :
  P !! k = Some ds -> start first P k <= ix < start first P k + Z.of_nat (length ds) ->
  concat P !! Z.to_nat (ix - first) = ds !! Z.to_nat (ix - start first P k).
Proof.
  intros Hk Hix. rewrite <- (take_drop_middle P k ds Hk) at 1. rewrite concat_app. simpl.
  unfold start in *. rewrite lookup_app_r by lia.
  rewrite lookup_app_l by lia. f_equal. lia.
Qed.

(** The data at an index of a loaded segment. *)
Lemma read_loaded s ds j d :
  loaded s ds -> Forall small ds -> ds !! j = Some d ->
  exists pos upto, idx (epos s) (Z.of_nat j) = Ok pos /\ slice_to (ebuf s) pos.2 = Ok upto
    /\ slice_from upto pos.1 = Ok (enc d).
Proof.
  intros [Eb Ep] Hs Hj. destruct (positions_lookup ds j d Hj) as [Hpos Henc].
  rewrite Eb, Ep. exists (zlen (enc_all (take j ds)), zlen (enc_all (take j ds)) + zlen (enc d)).
  exists (enc_all (take j ds) ++ enc d). pose proof (zlen_nonneg (enc_all (take j ds))).
  pose proof (zlen_nonneg (enc d)). pose proof (zlen_nonneg (enc_all (drop (S j) ds))). split_and!.
  - apply idx_Ok. rewrite Nat2Z.id. split; [lia|done].
  - apply slice_to_Ok. cbn [snd]. rewrite Henc, app_assoc, <- zlen_app, take_zlen, !zlen_app. split; [lia|done].
  - apply slice_from_Ok. simpl. rewrite drop_zlen, zlen_app. split; [lia|done].
Qed.

Lemma core_small l parts tl f k ds :
  core l parts tl f -> (parts ++ [tl]) !! k = Some ds -> Forall small ds.
Proof.
  intros [_ _ _ (segs & _ & [Hlen Hok]) (_ & Hsm)] Hk.
  destruct (decide (k < length parts)%nat) as [Hlt|Hge].
  - rewrite lookup_app_l in Hk by lia. destruct (lookup_lt_is_Some_2 segs k) as [s Hs]; [lia|].
    by destruct (Hok k s ds Hs Hk) as (_ & _ & _ & H & _).
  - rewrite lookup_app_r in Hk by lia. destruct (k - length parts)%nat; simplify_eq/=; done.
Qed.

Lemma Write_next l es d :
  wal_inv l es -> small d ->
  exists l', Write (lastIndex l + 1) d l = (l', Ok tt) /\ wal_inv l' (es ++ [d])
    /\ firstIndex l' = firstIndex l /\ lastIndex l' = lastIndex l + 1.
Proof.
  intros Hinv Hd. pose proof Hinv as (parts & tl & Ees & Hc & _).
  destruct (core_open _ _ _ _ Hc) as [Ho1 Ho2].
  unfold Write, guard_open, Batch_Write, Batch_Clear. io_step. rewrite Ho1, Ho2. io_step. cbn [entries datas app].
  destruct (writeBatch_appends l es [d] Hinv) as (l' & Hrun & Hinv' & Ef); [by constructor|done|].
  cbn [batch_entries concat] in Hrun. rewrite app_nil_r in Hrun.
  exists l'. split_and!; [done..|].
  destruct Hinv' as (_ & _ & _ & _ & _ & El & _). destruct Hinv as (_ & _ & _ & _ & _ & El0 & _).
  rewrite length_app in El. simpl in El. lia.
Qed.

Lemma Write_refused l es ix d :
  wal_inv l es -> ix <> lastIndex l + 1 -> Write ix d l = (l, Err (ErrNotNext (lastIndex l + 1) ix)).
Proof.
  intros (parts & tl & Ees & Hc & _) Hix. destruct (core_open _ _ _ _ Hc) as [Ho1 Ho2].
  unfold Write, guard_open, Batch_Write, Batch_Clear. io_step. rewrite Ho1, Ho2. io_step.
  unfold writeBatch. io_step. cbn [entries datas app out_of_order].
  destruct (Z.eqb_spec ix (lastIndex l + (0 + 1))); [lia|]. done.
Qed.

(** C19. [Write] appends one entry to the log, on disk and in memory, when its
    index is the next one, and otherwise changes nothing and fails with an error
    that names the index needed, which is not the sentinel [ErrOutOfOrder] of
    wal/config.go. *)
Theorem Write_appends l es ix d :
  wal_inv l es -> small d ->
  (ix = lastIndex l + 1 ->
   exists l', Write ix d l = (l', Ok tt) /\ wal_inv l' (es ++ [d]) /\ firstIndex l' = firstIndex l
     /\ lastIndex l' = ix)
  /\ (ix <> lastIndex l + 1 -> Write ix d l = (l, Err (ErrNotNext (lastIndex l + 1) ix))).
Proof.
  intros Hinv Hd. split; [intros ->; by apply Write_next|by apply (Write_refused l es)].
Qed.

(** [WriteBatch] appends all entries of a batch with consecutive next
    indices, in order, across as many segments as they fill. *)
Theorem WriteBatch_appends l es bd :
  wal_inv l es -> Forall small bd -> bd <> [] ->
  exists l', WriteBatch (mkBatch (batch_entries (lastIndex l + 1) bd) (concat bd)) l = (l', Ok tt)
    /\ wal_inv l' (es ++ bd) /\ firstIndex l' = firstIndex l.
Proof.
  intros Hinv Hs Hne. pose proof Hinv as (parts & tl & Ees & Hc & _).
  destruct (core_open _ _ _ _ Hc) as [Ho1 Ho2].
  unfold WriteBatch, guard_open. io_step. rewrite Ho1, Ho2. io_step. cbn [entries].
  destruct (Z.eqb_spec (zlen (batch_entries (lastIndex l + 1) bd)) 0) as [E|_].
  - unfold zlen in E. rewrite length_batch_entries in E. by destruct bd.
  - by apply writeBatch_appends.
Qed.

Lemma Read_entry l es ix :
  wal_inv l es -> firstIndex l <= ix <= lastIndex l ->
  exists l' d, es !! Z.to_nat (ix - firstIndex l) = Some d /\ Read ix l = (l', Ok d)
    /\ wal_inv l' es /\ same_store l l'.
Proof.
  intros (parts & tl & -> & Hc & Hb & Hlast & Hw & Hopen) Hr.
  destruct (core_open _ _ _ _ Hc) as [Ho1 Ho2]. pose proof (core_first _ _ _ _ Hc) as H0.
  unfold Read. io_step. rewrite Ho1, Ho2. rewrite length_app in Hlast.
  destruct (Z.eqb_spec ix 0), (Z.ltb_spec ix (firstIndex l)), (Z.ltb_spec (lastIndex l) ix); cbn [orb]; try lia.
  destruct (loadSegment_holds l parts tl (enc_all tl) ix Hc Hb Hw) as (l' & k & s & ds & Hrun & Hc' & Hb' & Hst & Hh & _);
    [unfold tail_start; lia|].
  rewrite (run_bind _ _ _ _ _ Hrun). io_step. destruct Hh as (Hs & Hds & Hl & Ei & Hix).
  rewrite (proj2 (idx_Ok _ _ s)) by (rewrite Nat2Z.id; split; [lia|done]). io_step.
  destruct (lookup_lt_is_Some_2 ds (Z.to_nat (ix - index s))) as [d Hd]; [lia|].
  pose proof (core_small _ _ _ _ _ _ Hc' Hds) as Hsm.
  destruct (read_loaded s ds _ d Hl Hsm Hd) as (pos & upto & Hp & Hu & He).
  rewrite Z2Nat.id in Hp by lia. rewrite Hp. io_step. rewrite Hu. io_step. rewrite He. io_step.
  destruct (core_opts _ _ _ _ Hc') as [-> _]. cbn [readEntry].
  rewrite readBinary_enc by (by eapply Forall_lookup_1).
  destruct Hst as (A1 & A2 & A3 & A4 & A5 & A6 & A7 & A8). exists l', d. split_and!; try done.
  - rewrite Ei, A4 in *. rewrite <- Hd, <- (concat_lookup_start (firstIndex l) _ k ds) by (done || lia).
    rewrite concat_app. simpl. by rewrite app_nil_r.
  - exists parts, tl. split_and!; [done..| | |].
    + rewrite A4, A5, length_app. lia.
    + by rewrite Hw in A8.
    + unfold tail_open, tail_start in *. congruence.
Qed.

(** C20. [Read] returns the entry written at an index of the log, from memory,
    from the cache or from the segment's file, and keeps the log; outside the
    range it answers not found. *)
Theorem Read_returns l es ix :
  wal_inv l es ->
  (firstIndex l <= ix <= lastIndex l ->
   exists l' d, es !! Z.to_nat (ix - firstIndex l) = Some d /\ Read ix l = (l', Ok d)
     /\ wal_inv l' es /\ same_store l l')
  /\ (~ firstIndex l <= ix <= lastIndex l -> Read ix l = (l, Err ErrNotFound)).
Proof.
  intros Hinv. split; [by apply Read_entry|]. intros Hr.
  destruct Hinv as (parts & tl & -> & Hc & _). destruct (core_open _ _ _ _ Hc) as [Ho1 Ho2].
  unfold Read. io_step. rewrite Ho1, Ho2.
  destruct (Z.eqb_spec ix 0), (Z.ltb_spec ix (firstIndex l)), (Z.ltb_spec (lastIndex l) ix); cbn [orb]; done || lia.
Qed.

(** ** A new log *)

Lemma open_new o :
  Format o = BinaryFormat ->
  exists l, Open o ∅ = (l, Ok tt) /\ wal_inv l [] /\ firstIndex l = 1 /\ lastIndex l = 0.
Proof.
  intros Hf. eexists. split; [done|]. split; [|done]. exists [], []. split; [done|].
  split; [|split; [|done]].
  - split; simpl; try done.
    + split; [done|]. destruct (Z.leb_spec (SegmentSize o) 0); [done|lia].
    + by exists [].
    + intros g Hg. apply lookup_insert_is_Some in Hg as [<-|[_ Hg]]; [right; by exists 0%nat|].
      rewrite lookup_empty in Hg. by destruct Hg.
  - intros k. simpl. rewrite keys_Resize. by intros ?%elem_of_nil.
Qed.

(** [Open] on an empty directory gives an empty log that starts at index
    1, whatever the options (the binary format chosen). *)
Theorem Open_empty o :
  Format o = BinaryFormat ->
  exists l, Open o ∅ = (l, Ok tt) /\ wal_inv l [] /\ firstIndex l = 1 /\ lastIndex l = 0.
Proof. apply open_new. Qed.

End refinement.

(** ** A cache, and runs on concrete logs *)

(** A cache that keeps its keys in a list, most recent first. *)
#[export] Instance list_lru : LRU := {
  cache := Z * list nat;
  Resize n := (n, []);
  SetEvicted c k :=
    let ks := k :: filter (fun j => j <> k) c.2 in
    if zlen ks <=? Z.max c.1 1 then ((c.1, ks), None)
    else ((c.1, take (Z.to_nat (Z.max c.1 1)) ks), last ks);
  keys c := c.2
}.

Lemma last_evicted k (ks : list nat) j :
  1 < zlen (k :: filter (fun j => j <> k) ks) ->
  last (k :: filter (fun j => j <> k) ks) = Some j -> j <> k /\ j ∈ ks.
Proof.
  set (fs := filter _ ks). intros Hl E.
  assert (j ∈ fs) as Hj.
  { apply last_Some_elem_of. destruct fs; [unfold zlen in Hl; simpl in Hl; lia|]. by rewrite last_cons_cons in E. }
  unfold fs in Hj. by apply list_elem_of_filter in Hj.
Qed.

#[export] Instance list_lru_laws : LRULaws.
Proof.
  split.
  - done.
  - intros c k c' E. cbn [SetEvicted list_lru] in E. case_match eqn:Hl; [done|]. zbool.
    apply pair_eq_inv in E as [_ E]. apply last_evicted in E as [? _]; [done|lia].
  - intros c k c' ev E j. cbn [SetEvicted keys list_lru] in *.
    assert (forall j, j ∈ k :: filter (fun j => j <> k) c.2 -> j = k \/ j ∈ c.2) as Hin.
    { intros i [->|Hi]%elem_of_cons; [by left|]. apply list_elem_of_filter in Hi. tauto. }
    case_match; apply pair_eq_inv in E as [<- _]; [apply Hin|].
    intros Hj. apply elem_of_take in Hj as (i & Hi & _). apply Hin. by eapply list_elem_of_lookup_2.
  - intros c k c' j E. cbn [SetEvicted keys list_lru] in *. case_match eqn:Hl; [done|]. zbool.
    apply pair_eq_inv in E as [_ E]. by apply last_evicted in E as [_ ?]; [|lia].
  - intros c k c' ev E. cbn [SetEvicted keys list_lru] in *.
    case_match; apply pair_eq_inv in E as [<- _]; cbn [snd]; [set_solver|].
    replace (Z.to_nat (Z.max c.1 1)) with (S (pred (Z.to_nat (Z.max c.1 1)))) by lia. simpl. set_solver.
Qed.

(** Segments of four bytes: a log of a few entries spans several. *)
Definition tiny : Options := mkOptions false 4 BinaryFormat 1.

Definition word (b : byte) : list byte := [b; b; b].

Lemma word_small b : small (word b).
Proof. by vm_compute. Qed.

(** A log with three entries in three segments. *)
Definition three_words : list (list byte) := [word x61; word x62; word x63].

Lemma three_words_log :
  exists l, wal_inv l three_words /\ firstIndex l = 1 /\ lastIndex l = 3.
Proof.
  destruct (open_new tiny eq_refl) as (l0 & _ & Hinv & Ef & El).
  destruct (writeBatch_appends l0 [] three_words Hinv) as (l & _ & Hinv' & Ef');
    [repeat constructor; apply word_small|done|].
  exists l. rewrite Ef'. split_and!; [done..|]. destruct Hinv' as (_ & _ & _ & _ & _ & El' & _).
  simpl in El'. rewrite Ef', Ef in El'. lia.
Qed.

Lemma Write_appends_witness :
  exists l l', wal_inv l three_words /\ Write 4 (word x64) l = (l', Ok tt)
    /\ wal_inv l' (three_words ++ [word x64]).
Proof.
  destruct three_words_log as (l & Hinv & _ & El).
  destruct (Write_appends l three_words 4 (word x64) Hinv (word_small x64)) as [Hw _].
  destruct Hw as (l' & Hrun & Hinv' & _); [by rewrite El|]. by exists l, l'.
Defined.

Lemma Read_returns_witness :
  exists l l', wal_inv l three_words /\ Read 2 l = (l', Ok (word x62)).
Proof.
  destruct three_words_log as (l & Hinv & Ef & El).
  destruct (Read_returns l three_words 2 Hinv) as [Hr _].
  destruct Hr as (l' & d & Hd & Hrun & _); [lia|]. rewrite Ef in Hd. injection Hd as <-. by exists l, l'.
Defined.
