(* ===== verification/WalTrunc.v ===== *)
(** * WalTrunc: truncation and reopening of the write-ahead log

    [TruncateFront] and [TruncateBack] of wal/wal.go drop entries from one end
    of the abstract log of WalSpec.v, and [Open] on the directory of a log
    gives that log back. *)

From stdpp Require Import sorting.
From S2P Require Import Prelude Binary WalJson Wal WalSpec.

(** ** Positions and buffers of a part cut in two *)

Lemma positions_take n ds p : take n (positions p ds) = positions p (take n ds).
Proof. revert n p. induction ds as [|d ds IH]; intros [|n] p; simpl; [done..|]. by rewrite IH. Qed.

Lemma positions_end ds :
  ds <> [] -> exists p, idx (positions 0 ds) (zlen (positions 0 ds) - 1) = Ok p /\ p.2 = zlen (enc_all ds).
Proof.
  intros Hne. destruct ds as [|d ds _] using rev_ind; [done|]. clear Hne.
  rewrite positions_snoc, enc_all_snoc. exists (zlen (enc_all ds), zlen (enc_all ds) + zlen (enc d)).
  split; [|symmetry; apply zlen_app]. set (x := (_, _)). apply idx_Ok. unfold zlen.
  rewrite length_app. simpl. split; [lia|].
  rewrite lookup_app_r by lia. by replace (Z.to_nat _ - _)%nat with 0%nat by lia.
Qed.

Lemma enc_all_take_drop n ds : enc_all ds = enc_all (take n ds) ++ enc_all (drop n ds).
Proof. by rewrite <- enc_all_app, take_drop. Qed.

Section truncation.
Context {gjson : Gjson} {lru : LRU} {lru_laws : LRULaws}.
Implicit Types l : Log.

(** ** Files *)

Lemma remove_segments_run ss : forall l, hw l = Healthy ->
  Forall (fun s => is_Some (disk l !! path s)) ss -> NoDup (map path ss) ->
  exists d, remove_segments ss l = (set_disk d l, Ok tt)
    /\ forall g, d !! g = if decide (g ∈ map path ss) then None else disk l !! g.
Proof.
  induction ss as [|s ss IH]; intros l Hw Hin Hnd.
  { exists (disk l). split; [by destruct l|]. done. }
  apply Forall_cons_1 in Hin as [[c Hc] Hin]. cbn [map] in Hnd. apply NoDup_cons in Hnd as [Hni Hnd].
  cbn [remove_segments]. unfold os_remove. io_step. rewrite Hc, run_call by done.
  destruct (IH (set_disk (delete (path s) (disk l)) l)) as (d & Hrun & Hd); [done| |done|].
  { rewrite Forall_forall in Hin |- *. intros s' Hs'. simpl.
    rewrite lookup_delete_ne; [by apply Hin|]. intros E. apply Hni. rewrite E. by apply list_elem_of_fmap_2. }
  exists d. split; [done|]. intros g. rewrite Hd. simpl. cbn [map].
  destruct (decide (g ∈ map path ss)), (decide (g ∈ path s :: map path ss)) as [Hg|Hg]; try done; [set_solver| |].
  - apply elem_of_cons in Hg as [->|?]; [|done]. by rewrite lookup_delete_eq.
  - rewrite lookup_delete_ne; [done|]. set_solver.
Qed.

(** The tail's file closed, if [b] says so. *)
Definition closed_if (b : bool) l : Log := if b then set_sfile None l else l.

Lemma close_if_run b l :
  hw l = Healthy -> (b = true -> is_Some (sfile l)) -> close_if b l = (closed_if b l, Ok tt).
Proof.
  intros Hw Hs. destruct b; [|done]. unfold close_if, close_sfile, on_sfile. io_step.
  destruct (Hs eq_refl) as [f ->]. io_step. unfold os_quiet, os_call. simpl. by rewrite Hw.
Qed.

Lemma closed_if_disk b d l : closed_if b (set_disk d l) = set_disk d (closed_if b l).
Proof. by destruct b. Qed.

Lemma disk_closed_if b l : disk (closed_if b l) = disk l.
Proof. by destruct b. Qed.

Lemma hw_closed_if b l : hw (closed_if b l) = hw l.
Proof. by destruct b. Qed.

(** The file operations of a truncation: [buf] replaces the segments [ss],
    through the temporary file and the intermediate name [t]. *)
Lemma replace_files {B} (m : io B) l buf t i ss b :
  hw l = Healthy -> (b = true -> is_Some (sfile l)) -> (forall j, t <> Seg j) -> t <> Temp -> disk l !! t = None ->
  Forall (fun s => is_Some (disk l !! path s)) ss -> NoDup (map path ss) -> Temp ∉ map path ss ->
  exists d, (_ ← ignore_err (write_temp buf); _ ← os_rename Temp t; _ ← close_if b; _ ← remove_segments ss;
             _ ← os_rename t (Seg i); m) l = m (set_disk d (closed_if b l))
    /\ d !! Seg i = Some buf
    /\ forall f, f <> Seg i -> d !! f = if decide (f = Temp \/ f ∈ map path ss) then None else disk l !! f.
Proof.
  intros Hw Hsf Ht1 Ht2 Ht3 Hin Hnd Hnt.
  set (d1 := <[t := buf]> (delete Temp (disk l))).
  assert (ignore_err (write_temp buf) l = (set_disk (<[Temp := buf]> (disk l)) l, Ok tt)) as E1.
  { unfold ignore_err, write_temp, os_create, os_write. rewrite !run_call, run_quiet by done. unfold os_quiet, os_call. simpl.
    rewrite Hw. unfold append_file. simpl. by rewrite lookup_insert_eq, insert_insert_eq. }
  assert (os_rename Temp t (set_disk (<[Temp := buf]> (disk l)) l) = (set_disk d1 l, Ok tt)) as E2.
  { unfold os_rename. io_step. cbn [disk set_disk]. rewrite lookup_insert_eq. unfold os_call. simpl. rewrite Hw.
    unfold set_disk, d1. simpl. by rewrite delete_insert_eq. }
  rewrite (run_bind _ _ _ _ _ E1), (run_bind _ _ _ _ _ E2). clear E1 E2.
  rewrite (run_bind _ _ _ _ _ (close_if_run b (set_disk d1 l) Hw Hsf)), closed_if_disk.
  assert (forall s, s ∈ ss -> path s <> t /\ path s <> Temp) as Hne.
  { intros s Hs. rewrite Forall_forall in Hin. destruct (Hin s Hs) as [c Hc].
    split; intros E; [rewrite E in Hc; congruence|]. apply Hnt. rewrite <- E. by apply list_elem_of_fmap_2. }
  destruct (remove_segments_run ss (set_disk d1 (closed_if b l))) as (d & Hrun & Hd); [by simpl; rewrite hw_closed_if| |done|].
  { rewrite Forall_forall in Hin |- *. intros s Hs. unfold d1. simpl. destruct (Hne s Hs).
    rewrite lookup_insert_ne, lookup_delete_ne by done. by apply Hin. }
  rewrite (run_bind _ _ _ _ _ Hrun). unfold os_rename. io_step. cbn [disk set_disk].
  assert (d !! t = Some buf) as Hdt.
  { rewrite Hd. simpl. rewrite decide_False; [unfold d1; apply lookup_insert_eq|].
    intros (s & E & Hs)%list_elem_of_fmap. by destruct (Hne s Hs). }
  rewrite Hdt, run_call by (simpl; by rewrite hw_closed_if). eexists. split; [done|]. split; [apply lookup_insert_eq|].
  intros f Hf. cbn [disk set_disk]. rewrite lookup_insert_ne by done. destruct (decide (f = t)) as [->|Hft].
  - rewrite lookup_delete_eq. by destruct (decide _).
  - rewrite lookup_delete_ne, Hd by done. unfold d1. simpl. rewrite lookup_insert_ne by done.
    destruct (decide (f = Temp)) as [->|HT].
    + rewrite lookup_delete_eq, decide_False by done. by rewrite decide_True by (by left).
    + rewrite lookup_delete_ne by done. destruct (decide (f ∈ map path ss)) as [?|?].
      * by rewrite decide_True by (by right).
      * by rewrite decide_False by tauto.
Qed.

(** ** The segment of an index *)

(** The search agrees with the position of the part that holds the index. *)
Lemma findSegment_at l parts tl f ix k ds :
  core l parts tl f -> (parts ++ [tl]) !! k = Some ds ->
  start (firstIndex l) (parts ++ [tl]) k <= ix < start (firstIndex l) (parts ++ [tl]) k + Z.of_nat (length ds) ->
  findSegment l ix = Ok (Z.of_nat k).
Proof.
  intros Hc Hk Hix. pose proof (core_length _ _ _ _ Hc) as Hlen.
  destruct (find_loop_spec (S (length (segments l))) (segments l) ix 0 (zlen (segments l)))
    as (r & Hr & Hrange & Hsplit);
    [by eapply core_ascending|pose proof (zlen_nonneg (segments l)); lia|lia|unfold zlen; lia|lia| |].
  { intros j s Hj. apply lookup_lt_Some in Hj. unfold zlen. lia. }
  unfold findSegment. rewrite Hr. f_equal. unfold zlen in Hrange.
  assert (k <= length parts)%nat as Hkl
    by (apply lookup_lt_Some in Hk; rewrite length_app in Hk; simpl in Hk; lia).
  destruct (lookup_lt_is_Some_2 (segments l) k) as [s Hs]; [lia|].
  destruct (core_segment _ _ _ _ _ _ Hc Hs) as (_ & _ & Ei & _).
  pose proof (proj1 (Hsplit _ _ Hs) ltac:(lia)).
  destruct (decide (k = length parts)) as [->|Hne]; [lia|].
  destruct (lookup_lt_is_Some_2 (segments l) (S k)) as [s' Hs']; [lia|].
  destruct (core_segment _ _ _ _ _ _ Hc Hs') as (_ & _ & Ei' & _).
  rewrite (start_S _ _ _ _ Hk) in Ei'.
  destruct (Z.le_gt_cases (Z.of_nat (S k)) r) as [Hle|]; [|lia].
  pose proof (proj2 (Hsplit _ _ Hs') Hle). lia.
Qed.

(** The files of the segments are there, under different names. *)
Lemma core_paths l parts tl f k s :
  core l parts tl f -> segments l !! k = Some s ->
  path s = Seg (start (firstIndex l) parts k) /\ is_Some (disk l !! path s).
Proof.
  intros Hc Hk. destruct (core_segment _ _ _ _ _ _ Hc Hk) as (ds & Hds & Ei & Ep & Hle & _ & Hcl).
  assert (path s = Seg (start (firstIndex l) parts k)) as E.
  { rewrite Ep, Ei. unfold start. by rewrite take_app_le by lia. }
  split; [done|]. destruct (decide (k < length parts)%nat) as [Hlt|Hge].
  - destruct (Hcl Hlt) as (_ & Ep' & Hd & _). rewrite Ep', Hd. eauto.
  - assert (k = length parts) as -> by lia. rewrite E. unfold start. rewrite firstn_all.
    destruct (core_tail _ _ _ _ Hc) as (Ht & _). unfold tail_start in Ht. rewrite Ht. eauto.
Qed.

Lemma core_start_lt l parts tl f j k :
  core l parts tl f -> (j < k)%nat -> (k <= length parts)%nat ->
  start (firstIndex l) parts j < start (firstIndex l) parts k.
Proof.
  intros Hc Hjk Hk. destruct (core_segs _ _ _ _ Hc) as (segs & _ & [Hlen Hok]).
  destruct (lookup_lt_is_Some_2 parts j) as [ds Hds]; [lia|].
  destruct (lookup_lt_is_Some_2 segs j) as [s Hs]; [lia|].
  destruct (Hok j s ds Hs Hds) as (_ & _ & _ & _ & Hne & _).
  pose proof (start_S (firstIndex l) parts j ds Hds). pose proof (start_mono (firstIndex l) parts (S j) k ltac:(lia)).
  destruct ds; [done|]. simpl in *. lia.
Qed.

Lemma core_NoDup l parts tl f : core l parts tl f -> NoDup (map path (segments l)).
Proof.
  intros Hc. apply NoDup_alt. intros i j g Hi Hj.
  rewrite list_lookup_fmap in Hi, Hj. apply fmap_Some in Hi as (si & Hsi & ->), Hj as (sj & Hsj & E).
  destruct (core_paths _ _ _ _ _ _ Hc Hsi) as [Ei _], (core_paths _ _ _ _ _ _ Hc Hsj) as [Ej _].
  rewrite Ei, Ej in E. injection E as E. pose proof (core_length _ _ _ _ Hc).
  apply lookup_lt_Some in Hsi, Hsj.
  destruct (Nat.lt_trichotomy i j) as [Hlt|[?|Hlt]]; [|done|].
  - pose proof (core_start_lt _ _ _ _ i j Hc Hlt ltac:(lia)). lia.
  - pose proof (core_start_lt _ _ _ _ j i Hc Hlt ltac:(lia)). lia.
Qed.

Lemma core_exist l parts tl f :
  core l parts tl f -> Forall (fun s => is_Some (disk l !! path s)) (segments l).
Proof. intros Hc. apply Forall_lookup_2. intros k s Hk. by eapply core_paths. Qed.

Lemma core_no_file l parts tl f g :
  core l parts tl f -> (forall i, g <> Seg i) -> g <> Temp -> disk l !! g = None.
Proof.
  intros Hc Hg HT. destruct (disk l !! g) as [c|] eqn:E; [|done].
  destruct (core_files _ _ _ _ Hc g) as [?|(k & _ & ->)]; [eauto|done|]. by destruct (Hg (start (firstIndex l) parts k)).
Qed.

Lemma core_no_temp l parts tl f : core l parts tl f -> Temp ∉ map path (segments l).
Proof.
  intros Hc (s & E & (k & Hk)%list_elem_of_lookup)%list_elem_of_fmap.
  destruct (core_paths _ _ _ _ _ _ Hc Hk) as [E' _]. congruence.
Qed.

(** The files of some of the segments. *)
Lemma core_sub l parts tl f ss :
  core l parts tl f -> ss `sublist_of` segments l ->
  Forall (fun s => is_Some (disk l !! path s)) ss /\ NoDup (map path ss) /\ Temp ∉ map path ss.
Proof.
  intros Hc Hss. assert (map path ss `sublist_of` map path (segments l)) as Hp by (induction Hss; simpl; by constructor).
  split_and!.
  - rewrite Forall_forall. intros s Hs. pose proof (core_exist _ _ _ _ Hc) as He. rewrite Forall_forall in He.
    apply He. by eapply elem_of_sublist.
  - eapply sublist_NoDup; [by eapply core_NoDup|exact Hp].
  - intros Hin. eapply core_no_temp; [exact Hc|]. by eapply elem_of_sublist.
Qed.

(** ** Putting a log together *)

Lemma unload_all_lookup ks (segs : list segment) m :
  foldr (alter unload) segs ks !! m = (fun s => if decide (m ∈ ks) then unload s else s) <$> segs !! m.
Proof.
  induction ks as [|k ks IH]; simpl.
  { by destruct (segs !! m). }
  destruct (decide (k = m)) as [->|Hne].
  - rewrite list_lookup_alter_eq, IH. destruct (segs !! m) as [s|]; [|done]. simpl.
    rewrite (decide_True (P := m ∈ m :: ks)) by set_solver. by destruct (decide (m ∈ ks)).
  - rewrite list_lookup_alter_ne, IH by done. destruct (segs !! m) as [s|]; [|done]. simpl. f_equal.
    destruct (decide (m ∈ ks)), (decide (m ∈ k :: ks)); try done; set_solver.
Qed.

Lemma length_unload_all ks (segs : list segment) : length (foldr (alter unload) segs ks) = length segs.
Proof. induction ks as [|k ks IH]; simpl; [done|]. by rewrite length_alter. Qed.

Lemma closed_unload_if d i s ds (b : bool) :
  closed_segment d i s ds -> closed_segment d i (if b then unload s else s) ds.
Proof. destruct b; [apply closed_unload|done]. Qed.

Lemma closed_disk d d' i s ds :
  closed_segment d i s ds -> d' !! Seg i = d !! Seg i -> closed_segment d' i s ds.
Proof. intros (? & ? & ? & ?) E. by rewrite <- E in *. Qed.

Lemma core_build l parts tl :
  closed l = false /\ corrupt l = false -> Format (opts l) = BinaryFormat /\ 0 < SegmentSize (opts l) ->
  0 < firstIndex l -> length (segments l) = S (length parts) ->
  (forall k s ds, (k < length parts)%nat -> segments l !! k = Some s -> parts !! k = Some ds ->
     closed_segment (disk l) (start (firstIndex l) parts k) s ds) ->
  segments l !! length parts
    = Some (mkSegment (Seg (tail_start l parts)) (tail_start l parts) (enc_all tl) (positions 0 tl)) ->
  disk l !! Seg (tail_start l parts) = Some (enc_all tl) -> Forall small tl ->
  (forall g, is_Some (disk l !! g) -> segment_file (firstIndex l) parts g) ->
  core l parts tl (enc_all tl).
Proof.
  intros Ho Hp Hf Hlen Hcl Htl Hd Hsm Hfiles. split; try done.
  exists (take (length parts) (segments l)). split.
  - rewrite <- (take_S_r _ _ _ Htl). by rewrite take_ge by lia.
  - split; [rewrite length_take; lia|]. intros k s ds Hk Hds. pose proof (lookup_lt_Some _ _ _ Hds) as Hlt.
    rewrite lookup_take_lt in Hk by done. by apply Hcl.
Qed.

(** Logs are equal field by field. *)
Lemma log_ext l l' :
  opts l = opts l' -> closed l = closed l' -> corrupt l = corrupt l' -> segments l = segments l' ->
  firstIndex l = firstIndex l' -> lastIndex l = lastIndex l' -> sfile l = sfile l' -> scache l = scache l' ->
  disk l = disk l' -> hw l = hw l' -> l = l'.
Proof. destruct l, l'. simpl. congruence. Qed.

(** ** TruncateBack *)

Lemma start_0 first (parts : list (list (list byte))) : start first parts 0 = first.
Proof. unfold start. simpl. lia. Qed.

Lemma start_take first (parts : list (list (list byte))) k m :
  (m <= k)%nat -> start first (take k parts) m = start first parts m.
Proof. intros Hm. unfold start. by rewrite take_take, Nat.min_l by lia. Qed.

Lemma start_snoc first parts (tl : list (list byte)) k :
  (k <= length parts)%nat -> start first (parts ++ [tl]) k = start first parts k.
Proof. intros Hk. unfold start. by rewrite take_app_le by lia. Qed.

(** What the two truncations read before they touch the disk. *)
Lemma cut_reads s ds j :
  loaded s ds -> (j < length ds)%nat ->
  slice_to (epos s) (Z.of_nat j + 1) = Ok (positions 0 (take (S j) ds))
  /\ (exists p, idx (positions 0 (take (S j) ds)) (zlen (positions 0 (take (S j) ds)) - 1) = Ok p
        /\ slice_to (ebuf s) p.2 = Ok (enc_all (take (S j) ds)))
  /\ slice_from (epos s) (Z.of_nat j) = Ok (drop j (positions 0 ds))
  /\ (exists p, idx (drop j (positions 0 ds)) 0 = Ok p
        /\ slice_from (ebuf s) p.1 = Ok (enc_all (drop j ds))).
Proof.
  intros [Eb Ep] Hj. rewrite Eb, Ep.
  assert (zlen (positions 0 ds) = Z.of_nat (length ds)) as Hzl by (unfold zlen; by rewrite length_positions).
  split_and!.
  - apply slice_to_Ok. rewrite Hzl. split; [lia|]. rewrite <- positions_take.
    by replace (Z.to_nat (Z.of_nat j + 1)) with (S j) by lia.
  - destruct (positions_end (take (S j) ds)) as (p & Hp & E2).
    { destruct ds; [simpl in Hj; lia|done]. }
    exists p. split; [done|]. rewrite E2. apply slice_to_Ok. rewrite (enc_all_take_drop (S j) ds).
    rewrite take_zlen, zlen_app. split; [|done]. pose proof (zlen_nonneg (enc_all (take (S j) ds))).
    pose proof (zlen_nonneg (enc_all (drop (S j) ds))). lia.
  - apply slice_from_Ok. rewrite Hzl, Nat2Z.id. split; [lia|done].
  - destruct (lookup_lt_is_Some_2 ds j Hj) as [d Hd]. destruct (positions_lookup ds j d Hd) as [Hpos _].
    eexists. split; [apply idx_Ok; split; [done|]|].
    + rewrite lookup_drop, Nat.add_0_r. exact Hpos.
    + simpl. apply slice_from_Ok. rewrite (enc_all_take_drop j ds).
      rewrite drop_zlen, zlen_app. split; [|done]. pose proof (zlen_nonneg (enc_all (take j ds))).
      pose proof (zlen_nonneg (enc_all (drop j ds))). lia.
Qed.

(** The entries up to an index, by parts. *)
Lemma take_concat (P : list (list (list byte))) first k ds ix :
  P !! k = Some ds -> start first P k <= ix < start first P k + Z.of_nat (length ds) ->
  take (Z.to_nat (ix - first + 1)) (concat P)
  = concat (take k P) ++ take (S (Z.to_nat (ix - start first P k))) ds.
Proof.
  intros Hk Hix. rewrite <- (take_drop_middle P k ds Hk) at 1. rewrite concat_app. simpl.
  unfold start in *. rewrite take_app, take_ge by lia. f_equal. rewrite take_app_le by lia. f_equal. lia.
Qed.

Lemma drop_concat (P : list (list (list byte))) first k ds ix :
  P !! k = Some ds -> start first P k <= ix < start first P k + Z.of_nat (length ds) ->
  drop (Z.to_nat (ix - first)) (concat P)
  = drop (Z.to_nat (ix - start first P k)) ds ++ concat (drop (S k) P).
Proof.
  intros Hk Hix. rewrite <- (take_drop_middle P k ds Hk) at 1. rewrite concat_app. simpl.
  unfold start in *. rewrite drop_app_ge by lia. rewrite drop_app_le by lia. do 2 f_equal. lia.
Qed.

(** The entries up to an index and from an index on, the index being the
    [j]-th of the part [k]. *)
Lemma entries_cut first parts (tl : list (list byte)) k ds j ix :
  (parts ++ [tl]) !! k = Some ds -> (j < length ds)%nat -> (k <= length parts)%nat ->
  ix = start first parts k + Z.of_nat j ->
  take (Z.to_nat (ix - first + 1)) (concat parts ++ tl) = concat (take k parts) ++ take (S j) ds
  /\ drop (Z.to_nat (ix - first)) (concat parts ++ tl) = drop j ds ++ concat (drop (S k) (parts ++ [tl])).
Proof.
  intros Hds Hj Hk ->. pose proof (start_snoc first parts tl k Hk) as Es.
  replace (concat parts ++ tl) with (concat (parts ++ [tl])) by (rewrite concat_app; simpl; by rewrite app_nil_r).
  rewrite (take_concat _ first k ds), (drop_concat _ first k ds) by (done || lia).
  rewrite Es. replace (Z.to_nat (_ + Z.of_nat j - _)) with j by lia. by rewrite take_app_le.
Qed.

Lemma reopen_tail_run l g buf :
  hw l = Healthy -> disk l !! g = Some buf -> reopen_tail g buf l = (set_sfile (Some g) l, Ok tt).
Proof.
  intros Hw Hg. unfold reopen_tail, os_open. io_step. rewrite Hg, run_call by done. io_step. rewrite run_quiet by done. io_step.
  cbn [disk set_sfile]. by rewrite Hg, Z.eqb_refl.
Qed.

Lemma loadSegmentEntries_enc l s ds :
  Format (opts l) = BinaryFormat -> disk l !! path s = Some (enc_all ds) -> Forall small ds -> hw l = Healthy ->
  loadSegmentEntries s l = (l, Ok (mkSegment (path s) (index s) (enc_all ds) (positions 0 ds))).
Proof.
  intros Hf Hd Hs Hw. unfold loadSegmentEntries. io_step. unfold os_read, mbind, io_bind. rewrite Hd. unfold os_quiet, os_call.
  rewrite Hw, Hf. by rewrite load_positions_enc by (done || lia).
Qed.

(** The state [truncateBack] reaches, from the log with the segment [k] in
    memory on. *)
Definition back_log l d k s ix : Log :=
  let s' := mkSegment (Seg (index s)) (index s) (ebuf s) (epos s) in
  set_scache (Resize (SegmentCacheSize (opts l)))
    (set_segments (foldr (alter unload) (take (S k) (<[k := s']> (segments l))) (keys (scache l)))
      (set_lastIndex ix (set_sfile (Some (Seg (index s))) (set_disk d l)))).

Lemma back_log_core l parts tl d k s ds j ix :
  core l parts tl (enc_all tl) -> segments l !! k = Some s -> (parts ++ [tl]) !! k = Some ds ->
  (j < length ds)%nat -> d !! path s = Some (enc_all (take (S j) ds)) ->
  (forall g, g <> path s -> d !! g = if decide (g = Temp \/ g ∈ map path (drop k (segments l))) then None else disk l !! g) ->
  let l2 := back_log l d k s ix in
  let s' := mkSegment (Seg (index s)) (index s) (enc_all (take (S j) ds)) (positions 0 (take (S j) ds)) in
  core (set_segments (<[k := s']> (segments l2)) l2) (take k parts) (take (S j) ds) (enc_all (take (S j) ds)).
Proof.
  intros Hc Hk Hds Hj Hd Hdo l2 s'.
  pose proof (core_length _ _ _ _ Hc) as Hlen. pose proof (lookup_lt_Some _ _ _ Hk) as Hklt.
  destruct (core_segment _ _ _ _ _ _ Hc Hk) as (ds' & Hds' & Ei & Ep & Hle & _). simplify_eq.
  rewrite start_snoc in Ei by done.
  assert (length (take k parts) = k) as Hlk by (rewrite length_take; lia).
  assert (tail_start (set_segments (<[k := s']> (segments l2)) l2) (take k parts) = index s) as Ets by (by rewrite Ei).
  apply core_build; rewrite ?Ets, ?Hlk; simpl; try by apply Hc.
  - rewrite length_insert, length_unload_all, length_take, length_insert. lia.
  - intros m sm dsm Hm Hsm Hpm. rewrite lookup_take_lt in Hpm by done. rewrite start_take by lia.
    rewrite list_lookup_insert_ne, unload_all_lookup, lookup_take_lt, list_lookup_insert_ne in Hsm by lia.
    apply fmap_Some in Hsm as (s0 & Hs0 & ->).
    destruct (core_segment _ _ _ _ _ _ Hc Hs0) as (ds0 & Hds0 & Ei0 & Ep0 & _ & _ & Hcl0).
    rewrite lookup_app_l in Hds0 by lia. simplify_eq. rewrite start_snoc in Ei0 by lia. rewrite <- Ei0.
    assert (forall b : Decision (m ∈ keys (scache l)), (if b then unload s0 else s0)
      = (if bool_decide (m ∈ keys (scache l)) then unload s0 else s0)) as ->.
    { intros b. case_bool_decide; by destruct b. }
    apply closed_unload_if, (closed_disk (disk l)); [by apply Hcl0; lia|].
    rewrite Hdo, decide_False; [done| |].
    + intros [E0|(s1 & E1 & (i & Hi)%list_elem_of_lookup)%list_elem_of_fmap]; [congruence|]. rewrite lookup_drop in Hi.
      destruct (core_paths _ _ _ _ _ _ Hc Hi) as [E2 _]. rewrite E2, Ei0 in E1. injection E1 as E1.
      apply lookup_lt_Some in Hi. pose proof (core_start_lt _ _ _ _ m (k + i) Hc ltac:(lia) ltac:(lia)). lia.
    + rewrite Ep. intros [= E]. rewrite Ei0, Ei in E.
      pose proof (core_start_lt _ _ _ _ m k Hc ltac:(lia) ltac:(lia)). lia.
  - rewrite list_lookup_insert_eq; [done|].
    rewrite length_unload_all, length_take, length_insert. lia.
  - by rewrite <- Ep.
  - apply Forall_take. by eapply core_small.
  - intros g Hg. destruct (decide (g = path s)) as [->|Hne].
    { right. exists k. rewrite Hlk, start_take by lia. split; [lia|]. by rewrite Ep, Ei. }
    rewrite Hdo in Hg by done. destruct (decide _) as [|Hni]; [by destruct Hg|]. right.
    destruct (core_files _ _ _ _ Hc g Hg) as [->|(m & Hm & ->)]; [by destruct Hni; left|]. exists m.
    destruct (decide (m < k)%nat) as [Hlt|Hge]; [by rewrite Hlk, start_take by lia; split; [lia|]|].
    exfalso. apply Hni. right. destruct (lookup_lt_is_Some_2 (segments l) m) as [sm Hsm]; [lia|].
    apply list_elem_of_fmap. exists sm. split; [by destruct (core_paths _ _ _ _ _ _ Hc Hsm)|].
    apply list_elem_of_lookup. exists (m - k)%nat. rewrite lookup_drop. by replace (k + (m - k))%nat with m by lia.
Qed.

(** What a truncation reads before it touches the disk: the segment [k] with the
    index, its part [ds] in memory, and the place [j] of the index in it. *)
Record at_index l parts tl ix l1 k s ds j : Prop := {
  ai_core : core l1 parts tl (enc_all tl);
  ai_cached : cached_below l1 (length parts);
  ai_same : same_store l l1;
  ai_seg : segments l1 !! k = Some s;
  ai_part : (parts ++ [tl]) !! k = Some ds;
  ai_loaded : loaded s ds;
  ai_place : (j < length ds)%nat /\ ix = start (firstIndex l) parts k + Z.of_nat j
             /\ index s = start (firstIndex l) parts k /\ (k <= length parts)%nat;
  ai_key : (k < length parts)%nat -> k ∈ keys (scache l1)
}.

(** A truncation that cannot read the segment ends there. *)
Definition unread l parts tl (m : io unit) : Prop :=
  hw l <> Healthy /\ exists l1, m l = (l1, Panic) /\ core l1 parts tl (enc_all tl) /\ same_store l l1.

Lemma find_index l parts tl ix :
  core l parts tl (enc_all tl) -> cached_below l (length parts) ->
  lastIndex l + 1 = firstIndex l + Z.of_nat (length (concat parts ++ tl)) -> firstIndex l <= ix <= lastIndex l ->
  exists l1 k, findSegment l ix = Ok (Z.of_nat k) /\ loadSegment ix l = (l1, Ok k)
    /\ ((exists s ds j, at_index l parts tl ix l1 k s ds j)
        \/ (hw l <> Healthy /\ core l1 parts tl (enc_all tl) /\ same_store l l1
            /\ exists s, segments l1 !! k = Some s /\ index s <= ix /\ epos s = [])).
Proof.
  intros Hc Hb Hlast Hix. rewrite length_app in Hlast.
  destruct (loadSegment_cases l parts tl (enc_all tl) ix Hc Hb)
    as (l1 & k & Hrun & Hc1 & Hb1 & Hst & [(s & ds & (Hs & Hds & Hl & Ei & Hr) & Hin)|(Hd & Hfind & s & Hs & Hi & He)]);
    [unfold tail_start; lia| |]; exists l1, k.
  2: { split; [done|]. split; [done|]. right. split_and!; [done|done|done|]. by exists s. }
  pose proof Hst as (_ & _ & _ & A4 & _).
  destruct (core_segment _ _ _ _ _ _ Hc1 Hs) as (ds' & Hds' & Ei' & Ep & Hle & _).
  split; [by rewrite (findSegment_at l parts tl (enc_all tl) ix k ds Hc Hds) by (rewrite <- A4, <- Ei; lia)|].
  split; [done|]. left. exists s, ds, (Z.to_nat (ix - index s)).
  rewrite start_snoc, A4 in Ei by done. split; try done. split_and!; lia.
Qed.

(** Cutting the positions of a segment that is not in memory panics. *)
Lemma empty_cut_to {A B} (i : Z) (g : list A -> io B) l1 : 0 < i -> (lift (slice_to [] i) ≫= g) l1 = (l1, Panic).
Proof.
  intros Hi. unfold mbind, io_bind, lift, slice_to, zlen.
  by destruct (Z.ltb_spec i 0), (Z.ltb_spec (Z.of_nat (@length A [])) i); simpl in *; try lia.
Qed.

Lemma empty_cut_from {A B} (i : Z) (g : A -> io B) l1 :
  0 <= i -> (ps ← lift (slice_from [] i); p ← lift (idx ps 0); g p) l1 = (l1, Panic).
Proof.
  intros Hi. unfold mbind at 1, io_bind at 1, lift at 1, slice_from, zlen.
  destruct (Z.ltb_spec i 0), (Z.ltb_spec (Z.of_nat (@length A [])) i); simpl in *; try lia; [done|].
  cbn [orb]. io_step. by rewrite drop_nil.
Qed.

Lemma truncateBack_reads l parts tl ix :
  core l parts tl (enc_all tl) -> cached_below l (length parts) ->
  lastIndex l + 1 = firstIndex l + Z.of_nat (length (concat parts ++ tl)) -> firstIndex l <= ix < lastIndex l ->
  (exists l1 k s ds j, at_index l parts tl ix l1 k s ds j
    /\ truncateBack ix l = replace_back ix (Z.of_nat k) k s (enc_all (take (S j) ds)) l1)
  \/ unread l parts tl (truncateBack ix).
Proof.
  intros Hc Hb Hlast Hix. pose proof (core_first _ _ _ _ Hc) as H0.
  destruct (find_index l parts tl ix Hc Hb Hlast) as (l1 & k & Hfind & Hrun & Hcases); [lia|].
  assert (truncateBack ix l = (l0 ← get; s ← lift (idx (segments l0) (Z.of_nat k)); ps ← lift (slice_to (epos s) (ix - index s + 1));
    p ← lift (idx ps (zlen ps - 1)); buf ← lift (slice_to (ebuf s) p.2); replace_back ix (Z.of_nat k) k s buf) l1) as Erun.
  { unfold truncateBack. io_step. unfold out_of_range.
    destruct (Z.eqb_spec ix 0), (Z.eqb_spec (lastIndex l) 0), (Z.ltb_spec ix (firstIndex l)),
      (Z.ltb_spec (lastIndex l) ix), (Z.eqb_spec ix (lastIndex l)); try lia. cbn [orb].
    rewrite Hfind. io_step. by rewrite (run_bind _ _ _ _ _ Hrun). }
  destruct Hcases as [(s & ds & j & Hai)|(Hd & Hc1 & Hst & s & Hs & Hi & He)]; [left|right].
  - exists l1, k, s, ds, j. split; [done|]. destruct (ai_place _ _ _ _ _ _ _ _ _ Hai) as (Hj & Eix & Ei & _).
    rewrite Erun. io_step. rewrite (proj2 (idx_Ok _ _ s)) by (rewrite Nat2Z.id; split; [lia|by apply Hai]). io_step.
    replace (ix - index s + 1) with (Z.of_nat j + 1) by lia.
    destruct (cut_reads s ds j (ai_loaded _ _ _ _ _ _ _ _ _ Hai) Hj) as (-> & (p & Hp & Hbuf) & _).
    io_step. rewrite Hp. io_step. by rewrite Hbuf.
  - split; [done|]. exists l1. split; [|done]. rewrite Erun. io_step.
    rewrite (proj2 (idx_Ok _ _ s)) by (rewrite Nat2Z.id; split; [lia|done]). io_step. rewrite He.
    by apply empty_cut_to; lia.
Qed.

Lemma truncateFront_reads l parts tl ix :
  core l parts tl (enc_all tl) -> cached_below l (length parts) ->
  lastIndex l + 1 = firstIndex l + Z.of_nat (length (concat parts ++ tl)) -> firstIndex l < ix <= lastIndex l ->
  (exists l1 k s ds j, at_index l parts tl ix l1 k s ds j
    /\ truncateFront ix l = replace_front ix (Z.of_nat k) k s (enc_all (drop j ds)) l1)
  \/ unread l parts tl (truncateFront ix).
Proof.
  intros Hc Hb Hlast Hix. pose proof (core_first _ _ _ _ Hc) as H0.
  destruct (find_index l parts tl ix Hc Hb Hlast) as (l1 & k & Hfind & Hrun & Hcases); [lia|].
  assert (truncateFront ix l = (l0 ← get; s ← lift (idx (segments l0) (Z.of_nat k)); ps ← lift (slice_from (epos s) (ix - index s));
    p ← lift (idx ps 0); buf ← lift (slice_from (ebuf s) p.1); replace_front ix (Z.of_nat k) k s buf) l1) as Erun.
  { unfold truncateFront. io_step. unfold out_of_range.
    destruct (Z.eqb_spec ix 0), (Z.eqb_spec (lastIndex l) 0), (Z.ltb_spec ix (firstIndex l)),
      (Z.ltb_spec (lastIndex l) ix), (Z.eqb_spec ix (firstIndex l)); try lia. cbn [orb].
    rewrite Hfind. io_step. by rewrite (run_bind _ _ _ _ _ Hrun). }
  destruct Hcases as [(s & ds & j & Hai)|(Hd & Hc1 & Hst & s & Hs & Hi & He)]; [left|right].
  - exists l1, k, s, ds, j. split; [done|]. destruct (ai_place _ _ _ _ _ _ _ _ _ Hai) as (Hj & Eix & Ei & _).
    rewrite Erun. io_step. rewrite (proj2 (idx_Ok _ _ s)) by (rewrite Nat2Z.id; split; [lia|by apply Hai]). io_step.
    replace (ix - index s) with (Z.of_nat j) by lia.
    destruct (cut_reads s ds j (ai_loaded _ _ _ _ _ _ _ _ _ Hai) Hj) as (_ & _ & -> & (p & Hp & Hbuf)).
    io_step. rewrite Hp. io_step. by rewrite Hbuf.
  - split; [done|]. exists l1. split; [|done]. rewrite Erun. io_step.
    rewrite (proj2 (idx_Ok _ _ s)) by (rewrite Nat2Z.id; split; [lia|done]). io_step. rewrite He.
    by apply empty_cut_from; lia.
Qed.

Lemma truncateBack_cuts l es ix :
  wal_inv l es -> firstIndex l <= ix < lastIndex l ->
  exists l', truncateBack ix l = (l', Ok tt)
    /\ wal_inv l' (take (Z.to_nat (ix - firstIndex l + 1)) es)
    /\ firstIndex l' = firstIndex l /\ lastIndex l' = ix.
Proof.
  intros (parts & tl & -> & Hc & Hb & Hlast & Hw & Hopen) Hix.
  destruct (truncateBack_reads l parts tl ix Hc Hb Hlast Hix)
    as [(l1 & k & s & ds & j & [Hc1 Hb1 (A1 & A2 & A3 & A4 & A5 & A6 & A7 & A8) Hs Hds Hl (Hj & Eix & Ei & Hkl) Hkey] & ->)|[? _]];
    [|done]. rewrite Hw in A8. simpl in A8.
  rewrite length_app in Hlast. unfold replace_back. io_step.
  destruct (core_segment _ _ _ _ _ _ Hc1 Hs) as (ds' & Hds' & Ei' & Ep & Hle & _).
  pose proof (core_length _ _ _ _ Hc1) as Hlen.
  pose proof (core_sub _ _ _ _ (drop (Z.to_nat (Z.of_nat k)) (segments l1)) Hc1 (sublist_drop _ _)) as Hsub.
  edestruct (replace_files (B := unit)) with (l := l1) (buf := enc_all (take (S j) ds))
    (t := SegEnd (index s)) (i := index s) (ss := drop (Z.to_nat (Z.of_nat k)) (segments l1)) (b := true)
    as (d & Hrep & Hd & Hdo); [done|by rewrite A6, Hopen|done|done|by eapply core_no_file|by apply Hsub..|].
  rewrite Hrep. clear Hrep. rewrite Nat2Z.id in Hdo.
  rewrite (run_bind _ _ _ _ _ (reopen_tail_run (set_disk d (closed_if true l1)) _ _ A8 Hd)).
  unfold put_segment, clearCache. io_step.
  replace (Z.to_nat (Z.of_nat k + 1)) with (S k) by lia.
  match goal with |- exists l', (_ ≫= _) ?L = _ /\ _ => change L with (back_log l1 d k s ix) end.
  set (l2 := back_log l1 d k s ix).
  assert (exists s2, idx (segments l2) (Z.of_nat k) = Ok s2 /\ path s2 = Seg (index s) /\ index s2 = index s)
    as (s2 & -> & Ep2 & Ei2).
  { unfold l2, back_log. simpl. eexists. split.
    - apply idx_Ok. split; [lia|].
      by rewrite Nat2Z.id, unload_all_lookup, lookup_take_lt, list_lookup_insert_eq by lia.
    - by destruct (decide _). }
  io_step.
  erewrite run_bind; [|apply (loadSegmentEntries_enc l2 _ (take (S j) ds))].
  2: { unfold l2. simpl. by apply (core_opts _ _ _ _ Hc1). }
  2: { rewrite Ep2. exact Hd. }
  2: { apply Forall_take. by eapply core_small. }
  2: { exact A8. }
  rewrite Ep2, Ei2. io_step. eexists. split; [done|]. cbn [firstIndex lastIndex set_segments].
  split; [|by rewrite <- A4].
  exists (take k parts), (take (S j) ds). split_and!.
  - by apply entries_cut.
  - apply (back_log_core l1 parts tl d k s ds j ix); rewrite ?Ep; done.
  - intros i. simpl. rewrite keys_Resize. by intros ?%elem_of_nil.
  - simpl. rewrite A4, length_take, length_app. lia.
  - exact A8.
  - unfold tail_open. simpl. do 2 f_equal. rewrite Ei, <- A4. done.
Qed.

(** ** TruncateFront *)

(** The parts that stay when the part [k] loses its first [j] entries keep
    their first indices. *)
Lemma start_cut first (parts : list (list (list byte))) k ds j m :
  parts !! k = Some ds -> (j <= length ds)%nat ->
  start (start first parts k + Z.of_nat j) (drop j ds :: drop (S k) parts) (S m)
  = start first parts (S k + m).
Proof.
  intros Hk Hj. pose proof (start_S first parts k ds Hk) as E. unfold start in *. simpl.
  assert (take (S k + m) parts = take (S k) parts ++ take m (drop (S k) parts)) as Et.
  { rewrite <- (take_drop (S k) parts) at 1. rewrite take_app_add'; [done|].
    rewrite length_take. apply lookup_lt_Some in Hk. lia. }
  cbn [Nat.add] in Et. rewrite Et, concat_app, !length_app, length_drop. lia.
Qed.

(** The files that stay after a truncation at the part [k]. *)
Lemma front_files l parts tl f (d : gmap fname (list byte)) k s ix :
  core l parts tl f -> segments l !! k = Some s ->
  start (firstIndex l) parts k <= ix -> ((k < length parts)%nat -> ix < start (firstIndex l) parts (S k)) ->
  (forall g, g <> Seg ix -> d !! g = if decide (g = Temp \/ g ∈ map path (take (S k) (segments l))) then None else disk l !! g) ->
  (forall m, (k < m)%nat -> (m <= length parts)%nat ->
     d !! Seg (start (firstIndex l) parts m) = disk l !! Seg (start (firstIndex l) parts m))
  /\ (forall g, is_Some (d !! g) -> g = Seg ix
       \/ exists m, (k < m)%nat /\ (m <= length parts)%nat /\ g = Seg (start (firstIndex l) parts m)).
Proof.
  intros Hc Hk Hlo Hhi Hd. pose proof (core_length _ _ _ _ Hc) as Hlen. split.
  - intros m Hkm Hm. rewrite Hd, decide_False; [done| |].
    + intros [E0|(s1 & E1 & (i & Hi)%list_elem_of_lookup)%list_elem_of_fmap]; [congruence|].
      apply lookup_take_Some in Hi as [Hi Hik].
      destruct (core_paths _ _ _ _ _ _ Hc Hi) as [E2 _]. rewrite E2 in E1. injection E1 as E1.
      pose proof (core_start_lt _ _ _ _ i m Hc ltac:(lia) ltac:(lia)). lia.
    + intros [= E]. pose proof (start_mono (firstIndex l) parts (S k) m ltac:(lia)). lia.
  - intros g Hg. destruct (decide (g = Seg ix)) as [->|Hne]; [by left|right].
    rewrite Hd in Hg by done. destruct (decide _) as [|Hni]; [by destruct Hg|].
    destruct (core_files _ _ _ _ Hc g Hg) as [->|(m & Hm & ->)]; [by destruct Hni; left|]. exists m. split_and!; try done.
    destruct (decide (k < m)%nat) as [|Hle]; [done|]. exfalso. apply Hni. right.
    destruct (lookup_lt_is_Some_2 (segments l) m) as [sm Hsm]; [lia|].
    apply list_elem_of_fmap. exists sm. split; [by destruct (core_paths _ _ _ _ _ _ Hc Hsm)|].
    apply list_elem_of_lookup. exists m. by rewrite lookup_take_lt by lia.
Qed.

(** The state [truncateFront] reaches, [s'] being the segment it cut. *)
Definition front_log l d k (s' : segment) g ix : Log :=
  set_firstIndex ix
    (set_segments (drop k (foldr (alter unload) (<[k := s']> (segments l)) (keys (scache l))))
      (set_scache (Resize (SegmentCacheSize (opts l))) (set_sfile g (set_disk d l)))).

Lemma front_log_core_tail l parts tl (d : gmap fname (list byte)) s j ix :
  core l parts tl (enc_all tl) -> cached_below l (length parts) ->
  segments l !! length parts = Some s -> (j < length tl)%nat ->
  ix = start (firstIndex l) parts (length parts) + Z.of_nat j ->
  d !! Seg ix = Some (enc_all (drop j tl)) ->
  (forall g, g <> Seg ix -> d !! g = if decide (g = Temp \/ g ∈ map path (take (S (length parts)) (segments l)))
                                     then None else disk l !! g) ->
  core (front_log l d (length parts)
          (mkSegment (Seg ix) ix (enc_all (drop j tl)) (positions 0 (drop j tl))) (Some (Seg ix)) ix)
    [] (drop j tl) (enc_all (drop j tl)).
Proof.
  intros Hc Hb Hk Hj Eix Hd Hdo. pose proof (core_length _ _ _ _ Hc) as Hlen.
  destruct (front_files l parts tl _ d (length parts) s ix Hc Hk) as [_ Hfiles]; [lia|lia|done|].
  pose proof (core_first _ _ _ _ Hc) as H0.
  assert (firstIndex l <= start (firstIndex l) parts (length parts)) as Hst by (unfold start; lia).
  assert (tail_start (front_log l d (length parts)
    (mkSegment (Seg ix) ix (enc_all (drop j tl)) (positions 0 (drop j tl))) (Some (Seg ix)) ix) [] = ix) as Ets
    by (unfold tail_start; simpl; lia).
  apply core_build; rewrite ?Ets; simpl; try by apply Hc.
  - lia.
  - rewrite length_drop, length_unload_all, length_insert. lia.
  - intros k s' ds' Hk'. lia.
  - rewrite lookup_drop, Nat.add_0_r, unload_all_lookup, list_lookup_insert_eq by lia. simpl.
    rewrite decide_False; [done|]. intros Hin. apply Hb in Hin. lia.
  - done.
  - apply Forall_drop. by destruct (core_tail _ _ _ _ Hc) as (_ & ?).
  - intros g Hg. destruct (Hfiles g Hg) as [->|(m & ? & ? & _)]; [|lia]. right. exists 0%nat. split; [done|].
    by rewrite start_0.
Qed.

Lemma front_log_tail_start l parts (tl : list (list byte)) (d : gmap fname (list byte)) k s' g ds j ix :
  (k < length parts)%nat -> parts !! k = Some ds -> (j < length ds)%nat ->
  ix = start (firstIndex l) parts k + Z.of_nat j ->
  tail_start (front_log l d k s' g ix) (drop j ds :: drop (S k) parts) = tail_start l parts.
Proof.
  intros Hkl Hds Hj Eix.
  assert (length (drop j ds :: drop (S k) parts) = S (length parts - S k)) as Hlp by (simpl; rewrite length_drop; lia).
  transitivity (start ix (drop j ds :: drop (S k) parts) (S (length parts - S k))).
  - rewrite <- Hlp. unfold tail_start, start. rewrite firstn_all. done.
  - rewrite Eix, start_cut by (done || lia). replace (S k + (length parts - S k))%nat with (length parts) by lia.
    unfold start, tail_start. by rewrite firstn_all.
Qed.

Lemma front_log_core_mid l parts tl (d : gmap fname (list byte)) k s ds j ix :
  core l parts tl (enc_all tl) -> (k < length parts)%nat -> k ∈ keys (scache l) ->
  segments l !! k = Some s -> parts !! k = Some ds -> (j < length ds)%nat ->
  ix = start (firstIndex l) parts k + Z.of_nat j ->
  d !! Seg ix = Some (enc_all (drop j ds)) ->
  (forall g, g <> Seg ix -> d !! g = if decide (g = Temp \/ g ∈ map path (take (S k) (segments l)))
                                     then None else disk l !! g) ->
  cached_below l (length parts) ->
  core (front_log l d k (mkSegment (Seg ix) ix (ebuf s) (epos s)) (sfile l) ix)
    (drop j ds :: drop (S k) parts) tl (enc_all tl).
Proof.
  intros Hc Hkl Hin Hk Hds Hj Eix Hd Hdo Hb. pose proof (core_length _ _ _ _ Hc) as Hlen.
  pose proof (start_S (firstIndex l) parts k ds Hds) as ES.
  destruct (front_files l parts tl _ d k s ix Hc Hk) as [Hkeep Hfiles]; [lia|lia|done|].
  pose proof (core_first _ _ _ _ Hc) as H0.
  assert (firstIndex l <= start (firstIndex l) parts k) as Hst by (unfold start; lia).
  assert (forall m, (S k + m <= length parts)%nat ->
    start ix (drop j ds :: drop (S k) parts) (S m) = start (firstIndex l) parts (S k + m)) as Est.
  { intros m Hm. rewrite Eix. apply start_cut; [done|lia]. }
  assert (length (drop j ds :: drop (S k) parts) = S (length parts - S k)) as Hlp by (simpl; rewrite length_drop; lia).
  assert (tail_start (front_log l d k (mkSegment (Seg ix) ix (ebuf s) (epos s)) (sfile l) ix)
    (drop j ds :: drop (S k) parts) = tail_start l parts) as Ets by (by apply front_log_tail_start).
  destruct (core_tail _ _ _ _ Hc) as (Ht1 & Ht2).
  apply core_build; rewrite ?Ets, ?Hlp; try done; try by apply Hc.
  - simpl. lia.
  - simpl. rewrite length_drop, length_unload_all, length_insert. lia.
  - intros m sm dsm Hm Hsm Hpm. simpl in Hsm. rewrite lookup_drop, unload_all_lookup in Hsm.
    destruct m as [|m].
    + rewrite Nat.add_0_r, list_lookup_insert_eq in Hsm by lia. simpl in Hsm, Hpm.
      rewrite decide_True in Hsm by done. injection Hsm as <-. injection Hpm as <-.
      rewrite start_0. split_and!; try done.
      * apply Forall_drop. eapply core_small; [done|]. by rewrite lookup_app_l.
      * intros E. apply (f_equal length) in E. rewrite length_drop in E. simpl in E. lia.
      * by right.
    + cbn [firstIndex set_firstIndex front_log]. simpl in Hpm. rewrite lookup_drop in Hpm.
      rewrite list_lookup_insert_ne in Hsm by lia. apply fmap_Some in Hsm as (s0 & Hs0 & ->).
      replace (k + S m)%nat with (S k + m)%nat in Hs0 by lia.
      destruct (core_segment _ _ _ _ _ _ Hc Hs0) as (ds0 & Hds0 & Ei0 & Ep0 & _ & _ & Hcl0).
      pose proof (lookup_lt_Some _ _ _ Hpm) as Hlt. rewrite lookup_app_l in Hds0 by lia.
      assert (ds0 = dsm) as -> by congruence. rewrite start_snoc in Ei0 by lia.
      change (start (firstIndex _) (drop j ds :: drop (S k) parts) (S m))
        with (start ix (drop j ds :: drop (S k) parts) (S m)).
      rewrite Est, <- Ei0 by lia.
      assert (forall b : Decision ((k + S m)%nat ∈ keys (scache l)), (if b then unload s0 else s0)
        = (if bool_decide ((k + S m)%nat ∈ keys (scache l)) then unload s0 else s0)) as ->.
      { intros b. case_bool_decide; by destruct b. }
      apply closed_unload_if, (closed_disk (disk l)); [by apply Hcl0|].
      rewrite Ei0. simpl. apply Hkeep; lia.
  - simpl. rewrite lookup_drop, unload_all_lookup, list_lookup_insert_ne by lia.
    replace (k + S (length parts - S k))%nat with (length parts) by lia.
    destruct (tail_core _ _ _ _ Hc) as [Htl _]. unfold tail in Htl. apply idx_Ok in Htl as [_ Htl].
    replace (Z.to_nat (zlen (segments l) - 1)) with (length parts) in Htl by (unfold zlen; lia).
    rewrite Htl. simpl. rewrite decide_False; [done|]. intros Hb'. apply Hb in Hb'. lia.
  - simpl. unfold tail_start. specialize (Hkeep (length parts) ltac:(lia) ltac:(lia)).
    unfold start in Hkeep. rewrite firstn_all in Hkeep. rewrite Hkeep. exact Ht1.
  - intros g Hg. simpl in Hg. destruct (Hfiles g Hg) as [->|(m & Hm1 & Hm2 & ->)].
    + right. exists 0%nat. split; [lia|]. by rewrite start_0.
    + right. exists (S (m - S k)). rewrite Hlp. split; [lia|]. f_equal.
      change (start (firstIndex l) parts m = start ix (drop j ds :: drop (S k) parts) (S (m - S k))).
      rewrite Est by lia. f_equal. lia.
Qed.

Lemma truncateFront_cuts l es ix :
  wal_inv l es -> firstIndex l < ix <= lastIndex l ->
  exists l', truncateFront ix l = (l', Ok tt)
    /\ wal_inv l' (drop (Z.to_nat (ix - firstIndex l)) es)
    /\ firstIndex l' = ix /\ lastIndex l' = lastIndex l.
Proof.
  intros (parts & tl & -> & Hc & Hb & Hlast & Hw & Hopen) Hix. pose proof (core_first _ _ _ _ Hc) as H0.
  destruct (truncateFront_reads l parts tl ix Hc Hb Hlast Hix)
    as [(l1 & k & s & ds & j & [Hc1 Hb1 (A1 & A2 & A3 & A4 & A5 & A6 & A7 & A8) Hs Hds Hl (Hj & Eix0 & Ei & Hkl) Hin] & ->)|[? _]];
    [|done]. rewrite Hw in A8. simpl in A8.
  rewrite length_app in Hlast. unfold replace_front. io_step.
  destruct (core_segment _ _ _ _ _ _ Hc1 Hs) as (ds' & Hds' & Ei' & Ep & Hle & _).
  pose proof (core_length _ _ _ _ Hc1) as Hlen.
  pose proof (core_sub _ _ _ _ (take (Z.to_nat (Z.of_nat k + 1)) (segments l1)) Hc1 (sublist_take _ _)) as Hsub.
  edestruct (replace_files (B := unit)) with (l := l1) (buf := enc_all (drop j ds)) (t := SegStart ix) (i := ix)
    (ss := take (Z.to_nat (Z.of_nat k + 1)) (segments l1)) (b := Z.of_nat k =? zlen (segments l1) - 1) as (d & Hrep & Hd & Hdo);
    [done|by rewrite A6, Hopen|done|done|by eapply core_no_file|by apply Hsub..|].
  rewrite Hrep. clear Hrep. replace (Z.to_nat (Z.of_nat k + 1)) with (S k) in Hdo by lia.
  unfold put_segment, clearCache. io_step. rewrite !Nat2Z.id.
  assert (ix = start (firstIndex l1) parts k + Z.of_nat j) as Eix by (by rewrite A4).
  destruct (entries_cut (firstIndex l) parts tl k ds j ix Hds Hj Hkl Eix0) as [_ Edrop].
  rewrite Edrop.
  destruct (Z.eqb_spec (Z.of_nat k) (zlen (segments l1) - 1)) as [Ek|Ek]; unfold zlen in Ek.
  - assert (k = length parts) as -> by lia.
    assert (ds = tl) as -> by (rewrite lookup_app_r, Nat.sub_diag in Hds by lia; by simplify_eq/=).
    io_step. erewrite run_bind by (apply reopen_tail_run; [exact A8|exact Hd]). io_step.
    erewrite run_bind; [|apply (loadSegmentEntries_enc _ _ (drop j tl)); [by apply Hc1|exact Hd| |exact A8]].
    2: { apply Forall_drop. by destruct (core_tail _ _ _ _ Hc1) as (_ & ?). }
    io_step. eexists. split; [done|].
    match goal with |- wal_inv ?L _ /\ _ => assert (L = front_log l1 d (length parts)
      (mkSegment (Seg ix) ix (enc_all (drop j tl)) (positions 0 (drop j tl))) (Some (Seg ix)) ix) as -> end.
    { apply log_ext; try reflexivity.
      cbn [segments front_log set_firstIndex set_segments set_scache set_sfile set_disk].
      by rewrite list_insert_insert_eq. }
    split; [|simpl; done].
    exists [], (drop j tl). split_and!.
    + rewrite (drop_ge (parts ++ [tl])) by (rewrite length_app; simpl; lia). simpl. by rewrite app_nil_r.
    + by apply (front_log_core_tail l1 parts tl d s j ix).
    + intros i. simpl. rewrite keys_Resize. by intros ?%elem_of_nil.
    + cbn [lastIndex firstIndex front_log set_firstIndex set_segments set_scache set_sfile set_disk].
      rewrite A5, <- Edrop, length_drop, length_app. lia.
    + exact A8.
    + unfold tail_open, tail_start. simpl. do 2 f_equal. lia.
  - io_step. eexists. split; [done|].
    match goal with |- wal_inv ?L _ /\ _ => change L with (front_log l1 d k
      (mkSegment (Seg ix) ix (ebuf s) (epos s)) (sfile l1) ix) end.
    split; [|simpl; done]. rewrite lookup_app_l in Hds by lia.
    exists (drop j ds :: drop (S k) parts), tl. split_and!.
    + rewrite drop_app_le, concat_app by lia. simpl. by rewrite app_nil_r, <- app_assoc.
    + apply (front_log_core_mid l1 parts tl d k s ds j ix); try done; [lia|]. apply Hin. lia.
    + intros i. simpl. rewrite keys_Resize. by intros ?%elem_of_nil.
    + cbn [lastIndex firstIndex front_log set_firstIndex set_segments set_scache set_sfile set_disk].
      rewrite A5, <- Edrop, length_drop, length_app. lia.
    + exact A8.
    + unfold tail_open. rewrite (front_log_tail_start l1 parts tl) by (done || lia).
      change (sfile l1 = Some (Seg (tail_start l1 parts))). rewrite A6, Hopen. unfold tail_start. by rewrite A4.
Qed.

(** ** Opening the directory of a log *)

#[export] Instance name_le_trans : Transitive name_le.
Proof.
  intros f g h. unfold name_le. destruct (name_rank f) as [[]|], (name_rank g) as [[]|], (name_rank h) as [[]|];
    try done. lia.
Qed.

#[export] Instance name_le_total : Total name_le.
Proof.
  intros f g. unfold name_le. destruct (name_rank f) as [[i a]|], (name_rank g) as [[j b]|]; try tauto. lia.
Qed.

#[export] Instance name_le_antisymm : AntiSymm (=) name_le.
Proof.
  intros f g. unfold name_le. destruct f, g; simpl; intros; try done; try lia; f_equal; lia.
Qed.

(** The first indices of the segments, in order. *)
Definition starts (first : Z) (parts : list (list (list byte))) : list Z :=
  map (start first parts) (seq 0 (S (length parts))).

Lemma starts_lookup first parts k :
  (k <= length parts)%nat -> starts first parts !! k = Some (start first parts k).
Proof. intros Hk. unfold starts. rewrite list_lookup_fmap, lookup_seq_lt by lia. done. Qed.

Lemma length_starts first parts : length (starts first parts) = S (length parts).
Proof. unfold starts. by rewrite length_map, length_seq. Qed.

Lemma sorted_starts first parts a n :
  StronglySorted name_le (map Seg (map (start first parts) (seq a n))).
Proof.
  revert a. induction n as [|n IH]; intros a; simpl; constructor; [apply IH|].
  apply Forall_forall. intros g (i & -> & (k & -> & Hk)%list_elem_of_fmap)%list_elem_of_fmap.
  apply elem_of_seq in Hk. unfold name_le. simpl. pose proof (start_mono first parts a k ltac:(lia)). lia.
Qed.

(** A directory that holds a log with the entries [parts] and [tl] and nothing
    else but perhaps a temporary file. *)
Record dir_log (d : gmap fname (list byte)) (first : Z) (parts : list (list (list byte))) (tl : list (list byte)) : Prop := {
  dir_first : 0 < first;
  dir_parts k ds : parts !! k = Some ds ->
    d !! Seg (start first parts k) = Some (enc_all ds) /\ Forall small ds /\ ds <> [];
  dir_tail : d !! Seg (start first parts (length parts)) = Some (enc_all tl) /\ Forall small tl;
  dir_files g : is_Some (d !! g) -> segment_file first parts g
}.

(** A directory that differs from a log's in the file of the tail only. *)
Lemma core_dir_tail l parts tl f d ds :
  let g := Seg (start (firstIndex l) parts (length parts)) in
  core l parts tl f -> Forall small ds -> d !! g = Some (enc_all ds) ->
  (forall g', g' <> g -> d !! g' = disk l !! g') -> dir_log d (firstIndex l) parts ds.
Proof.
  intros g Hc Hs Hg Hd. destruct (core_tail _ _ _ _ Hc) as (Ht & _). destruct (core_segs _ _ _ _ Hc) as (segs & _ & [Hlen Hok]).
  assert (Seg (tail_start l parts) = g) as Eg by (unfold g, tail_start, start; by rewrite firstn_all). rewrite Eg in Ht.
  split; [by apply Hc| |done|].
  - intros k dk Hk. destruct (lookup_lt_is_Some_2 segs k) as [s Hs']; [rewrite Hlen; by eapply lookup_lt_Some|].
    destruct (Hok k s dk Hs' Hk) as (_ & _ & ? & ? & ? & _). rewrite Hd; [done|].
    apply lookup_lt_Some in Hk. pose proof (start_lt_tail _ _ _ _ k (conj Hlen Hok) Hk). unfold g, start in *. rewrite firstn_all.
    intros [= E]. lia.
  - intros g' Hg'. apply (core_files _ _ _ _ Hc). destruct (decide (g' = g)) as [->|Hne]; [rewrite Ht; eauto|by rewrite <- Hd].
Qed.

Lemma core_dir l parts tl : core l parts tl (enc_all tl) -> dir_log (disk l) (firstIndex l) parts tl.
Proof.
  intros Hc. destruct (core_tail _ _ _ _ Hc) as (Ht & Hs).
  apply (core_dir_tail l parts tl (enc_all tl)); [done|done| |done]. unfold start, tail_start in *. by rewrite firstn_all.
Qed.

Lemma dir_start_lt d first parts tl j k :
  dir_log d first parts tl -> (j < k)%nat -> (k <= length parts)%nat -> start first parts j < start first parts k.
Proof.
  intros Hd Hjk Hk. destruct (lookup_lt_is_Some_2 parts j) as [ds Hds]; [lia|].
  destruct (dir_parts _ _ _ _ Hd j ds Hds) as (_ & _ & Hne).
  pose proof (start_S first parts j ds Hds). pose proof (start_mono first parts (S j) k ltac:(lia)).
  destruct ds; [done|]. simpl in *. lia.
Qed.

Lemma dir_present d first parts tl k :
  dir_log d first parts tl -> (k <= length parts)%nat -> is_Some (d !! Seg (start first parts k)).
Proof.
  intros Hd Hk. destruct (decide (k = length parts)) as [->|Hne]; [destruct (dir_tail _ _ _ _ Hd) as [-> _]; eauto|].
  destruct (lookup_lt_is_Some_2 parts k) as [ds Hds]; [lia|].
  destruct (dir_parts _ _ _ _ Hd k ds Hds) as [-> _]. eauto.
Qed.

Lemma dir_seg_NoDup d first parts tl a n :
  dir_log d first parts tl -> (a + n <= S (length parts))%nat -> NoDup (map Seg (map (start first parts) (seq a n))).
Proof.
  intros Hd. revert a. induction n as [|n IH]; intros a Ha; simpl; constructor; [|apply IH; lia].
  intros (i & [= <-] & (k & E & Hk)%list_elem_of_fmap)%list_elem_of_fmap. apply elem_of_seq in Hk.
  pose proof (dir_start_lt _ _ _ _ a k Hd ltac:(lia) ltac:(lia)). lia.
Qed.

(** The directory lists the names there are, in order. *)
Lemma ReadDir_names d names :
  StronglySorted name_le names -> NoDup names -> (forall g, g ∈ names <-> is_Some (d !! g)) -> ReadDir d = names.
Proof.
  intros Hs Hn Hg. apply (Sorted_unique name_le); [apply Sorted_merge_sort, _|by apply StronglySorted_Sorted|].
  unfold ReadDir. rewrite merge_sort_Permutation. apply NoDup_Permutation; [apply NoDup_fst_map_to_list|done|].
  intros g. rewrite Hg. split.
  - intros ([h c] & -> & Hin)%list_elem_of_fmap. apply elem_of_map_to_list in Hin. eauto.
  - intros [c Hc]. apply list_elem_of_fmap. exists (g, c). split; [done|]. by apply elem_of_map_to_list.
Qed.

(** The temporary file, if there is one, comes last. *)
Definition temp_names (d : gmap fname (list byte)) : list fname :=
  if decide (is_Some (d !! Temp)) then [Temp] else [].

Lemma elem_temp_names d g : g ∈ temp_names d <-> g = Temp /\ is_Some (d !! Temp).
Proof. unfold temp_names. destruct (decide _); set_solver. Qed.

Lemma sorted_temp d names : StronglySorted name_le names -> StronglySorted name_le (names ++ temp_names d).
Proof.
  intros Hs. unfold temp_names. destruct (decide _); [|by rewrite app_nil_r].
  induction Hs as [|f names Hs IH Hf]; simpl; constructor; [constructor|constructor|done|].
  apply Forall_app. split; [done|]. constructor; [|constructor]. unfold name_le. by destruct (name_rank f) as [[]|].
Qed.

Lemma ReadDir_temp d names :
  StronglySorted name_le names -> NoDup names -> Temp ∉ names ->
  (forall g, g <> Temp -> g ∈ names <-> is_Some (d !! g)) -> ReadDir d = names ++ temp_names d.
Proof.
  intros Hs Hn HT Hg. apply ReadDir_names; [by apply sorted_temp| |].
  - apply NoDup_app. split_and!; [done|intros g Hin [-> _]%elem_temp_names; done|].
    unfold temp_names. destruct (decide _); [apply NoDup_singleton|constructor].
  - intros g. rewrite elem_of_app, elem_temp_names. destruct (decide (g = Temp)) as [->|Hne]; [tauto|].
    rewrite Hg by done. tauto.
Qed.

(** A segment of the directory before its entries are read. *)
Definition fresh (i : Z) : segment := mkSegment (Seg i) i [] [].

Lemma scan_segments ixs rest a b : forall segs,
  Forall (fun i => 0 < i) ixs ->
  scan_dir (map Seg ixs ++ rest) segs a b = scan_dir rest (segs ++ map fresh ixs) a b.
Proof.
  induction ixs as [|i ixs IH]; intros segs Hi; simpl; [by rewrite app_nil_r|].
  apply Forall_cons_1 in Hi as [Hi His]. destruct (Z.eqb_spec i 0); [lia|].
  rewrite IH by done. by rewrite <- app_assoc.
Qed.

Lemma scan_temp d segs a b : scan_dir (temp_names d) segs a b = (segs, a, b).
Proof. unfold temp_names. by destruct (decide _). Qed.

Lemma starts_pos first parts a n : 0 < first -> Forall (fun i => 0 < i) (map (start first parts) (seq a n)).
Proof. intros H0. apply Forall_forall. intros i (k & -> & _)%list_elem_of_fmap. unfold start. lia. Qed.

Lemma dir_listing d first parts tl :
  dir_log d first parts tl -> ReadDir d = map Seg (starts first parts) ++ temp_names d.
Proof.
  intros Hd. apply ReadDir_temp; [apply sorted_starts|by eapply dir_seg_NoDup| |].
  { by intros (i & ? & _)%list_elem_of_fmap. }
  intros g Hg. split.
  - intros (i & -> & (k & -> & Hk)%list_elem_of_fmap)%list_elem_of_fmap. apply elem_of_seq in Hk.
    eapply dir_present; [done|lia].
  - intros [->|(k & Hk & ->)]%(dir_files _ _ _ _ Hd); [done|].
    apply list_elem_of_fmap_2, list_elem_of_fmap_2, elem_of_seq. lia.
Qed.

(** A log that [load] has just found the segments of. *)
Definition found l (segs : list segment) : Prop :=
  closed l = false /\ corrupt l = false /\ Format (opts l) = BinaryFormat /\ 0 < SegmentSize (opts l)
  /\ keys (scache l) = [] /\ hw l = Healthy /\ segments l = segs.

Lemma load_open_dir l first parts tl :
  found l (map fresh (starts first parts)) -> dir_log (disk l) first parts tl ->
  exists l', load_open l = (l', Ok tt) /\ wal_inv l' (concat parts ++ tl) /\ firstIndex l' = first.
Proof.
  intros (Ho1 & Ho2 & Hf & Hsz & Hk & Hw & Es) Hd. pose proof (dir_first _ _ _ _ Hd) as H0.
  destruct (dir_tail _ _ _ _ Hd) as [Ht1 Ht2]. set (ts := start first parts (length parts)) in *.
  assert (length (segments l) = S (length parts)) as Hls by (by rewrite Es, length_map, length_starts).
  assert (forall k, (k <= length parts)%nat -> segments l !! k = Some (fresh (start first parts k))) as Hsk.
  { intros k Hle. by rewrite Es, list_lookup_fmap, starts_lookup by done. }
  unfold load_open. io_step. rewrite (proj2 (idx_Ok (segments l) 0 _) (conj (Z.le_refl 0) (Hsk 0%nat ltac:(lia)))). io_step.
  unfold tail. cbn [segments set_firstIndex].
  assert (idx (segments l) (zlen (segments l) - 1) = Ok (fresh ts)) as ->.
  { apply idx_Ok. unfold zlen. split; [lia|]. replace (Z.to_nat _) with (length parts) by lia. by apply Hsk. }
  io_step. unfold os_open. io_step. cbn [disk set_firstIndex path fresh]. rewrite Ht1, run_call by done. io_step.
  rewrite run_quiet by done. io_step.
  erewrite run_bind; [|apply (loadSegmentEntries_enc _ _ tl); done]. unfold put_segment. io_step. unfold modify.
  eexists. split; [done|]. cbn [path index epos fresh].
  assert (zlen (positions 0 tl) = Z.of_nat (length tl)) as -> by (unfold zlen; by rewrite length_positions).
  match goal with |- wal_inv ?L _ /\ _ => set (l' := L) end.
  assert (start first parts 0 = first) as E0 by apply start_0.
  assert (tail_start l' parts = ts) as Etl.
  { unfold tail_start. change (firstIndex l') with (start first parts 0). rewrite E0. unfold ts, start. by rewrite firstn_all. }
  split; [|exact E0].
  exists parts, tl. split; [done|]. split.
  - apply core_build; rewrite ?Etl; try done.
    + unfold l'. cbn [firstIndex set_lastIndex set_segments set_sfile set_firstIndex]. lia.
    + unfold l'. simpl. by rewrite length_insert.
    + intros k s ds Hlt Hs Hds. destruct (dir_parts _ _ _ _ Hd k ds Hds) as (? & ? & ?).
      unfold l' in *. cbn [segments disk firstIndex set_lastIndex set_segments set_sfile set_firstIndex index] in *.
      rewrite list_lookup_insert_ne in Hs by (unfold tail_index; simpl; lia).
      rewrite Hsk in Hs by lia. injection Hs as <-. rewrite E0. split_and!; try done. by right.
    + unfold l'. simpl. unfold tail_index. simpl. rewrite Hls. simpl. apply list_lookup_insert_eq. lia.
    + intros g Hg. unfold l'. cbn [firstIndex set_lastIndex set_segments set_sfile set_firstIndex index].
      rewrite E0. by apply (dir_files _ _ _ _ Hd).
  - split; [intros i; simpl; rewrite Hk; by intros ?%elem_of_nil|].
    split; [|split; [done|unfold tail_open; by rewrite Etl]].
    unfold l'. cbn [lastIndex firstIndex set_lastIndex set_segments set_sfile set_firstIndex index].
    rewrite E0, length_app. unfold ts, start. rewrite firstn_all. lia.
Qed.

(** What [Open] starts from. *)
Lemma found_new o d segs :
  Format o = BinaryFormat ->
  found (set_segments segs (mkLog (fill_options o) false false [] 0 0 None (Resize (SegmentCacheSize (fill_options o))) d Healthy)) segs.
Proof.
  intros Hf. split_and!; simpl; try done; [destruct (Z.leb_spec (SegmentSize o) 0); lia|by rewrite keys_Resize].
Qed.

(** Opening such a directory gives its log. *)
Lemma open_dir d first parts tl o :
  dir_log d first parts tl -> Format o = BinaryFormat ->
  exists l', Open o d = (l', Ok tt) /\ wal_inv l' (concat parts ++ tl) /\ firstIndex l' = first.
Proof.
  intros Hd Hf. unfold Open, load. io_step. cbn [disk].
  rewrite (dir_listing _ _ _ _ Hd), scan_segments, scan_temp by (apply starts_pos, Hd).
  cbn [app]. io_step.
  destruct (Z.eqb_spec (zlen (map fresh (starts first parts))) 0) as [E|_].
  { unfold zlen in E. rewrite length_map, length_starts in E. lia. }
  unfold load_start, load_end. cbn [negb Z.eqb Pos.eqb]. io_step.
  apply load_open_dir; [by apply found_new|done].
Qed.

(** Everything a log at rest holds is on disk: opening its directory gives the
    same entries under the same indices. *)
Lemma open_existing l es o :
  wal_inv l es -> Format o = BinaryFormat ->
  exists l', Open o (disk l) = (l', Ok tt) /\ wal_inv l' es
    /\ firstIndex l' = firstIndex l /\ lastIndex l' = lastIndex l.
Proof.
  intros (parts & tl & -> & Hc & Hb & Hlast & _) Hf.
  destruct (open_dir (disk l) (firstIndex l) parts tl o (core_dir _ _ _ Hc) Hf) as (l' & Hrun & Hinv & Ef).
  exists l'. split_and!; try done. destruct Hinv as (? & ? & _ & _ & _ & Hl' & _). rewrite Ef in Hl'. lia.
Qed.

(** ** The theorems *)

Lemma guard_open_core l es {B} (m : io B) :
  wal_inv l es -> (_ ← guard_open; m) l = m l.
Proof.
  intros (parts & tl & _ & Hc & _). destruct (core_open _ _ _ _ Hc) as [Ho1 Ho2].
  unfold guard_open. io_step. by rewrite Ho1, Ho2.
Qed.

Lemma truncateBack_whole l :
  0 < lastIndex l -> firstIndex l <= lastIndex l -> truncateBack (lastIndex l) l = (l, Ok tt).
Proof.
  intros H0 Hle. unfold truncateBack. io_step. unfold out_of_range.
  destruct (Z.eqb_spec (lastIndex l) 0), (Z.ltb_spec (lastIndex l) (firstIndex l)),
    (Z.ltb_spec (lastIndex l) (lastIndex l)); try lia. by rewrite Z.eqb_refl.
Qed.

Lemma truncateFront_whole l :
  0 < firstIndex l <= lastIndex l -> truncateFront (firstIndex l) l = (l, Ok tt).
Proof.
  intros [H0 Hle]. unfold truncateFront. io_step. unfold out_of_range.
  destruct (Z.eqb_spec (firstIndex l) 0), (Z.eqb_spec (lastIndex l) 0), (Z.ltb_spec (firstIndex l) (firstIndex l)),
    (Z.ltb_spec (lastIndex l) (firstIndex l)); try lia. by rewrite Z.eqb_refl.
Qed.

(** C24. [TruncateBack] keeps the entries up to an index of the log and drops
    the later ones, in memory and on disk; for any other index it fails and
    changes nothing. *)
Theorem TruncateBack_keeps l es ix :
  wal_inv l es ->
  (firstIndex l <= ix <= lastIndex l ->
   exists l', TruncateBack ix l = (l', Ok tt)
     /\ wal_inv l' (take (Z.to_nat (ix - firstIndex l + 1)) es)
     /\ firstIndex l' = firstIndex l /\ lastIndex l' = ix)
  /\ (~ firstIndex l <= ix <= lastIndex l -> TruncateBack ix l = (l, Err ErrOutOfRange)).
Proof.
  intros Hinv. unfold TruncateBack. rewrite (guard_open_core l es) by done. split; intros Hix.
  - destruct (decide (ix = lastIndex l)) as [->|Hne]; [|apply truncateBack_cuts; [done|lia]].
    exists l. pose proof Hinv as (parts & tl & Ees & Hc & _ & El & _). pose proof (core_first _ _ _ _ Hc).
    rewrite take_ge by lia. split_and!; try done. apply truncateBack_whole; lia.
  - unfold truncateBack. io_step. unfold out_of_range.
    destruct (Z.eqb_spec ix 0), (Z.eqb_spec (lastIndex l) 0), (Z.ltb_spec ix (firstIndex l)),
      (Z.ltb_spec (lastIndex l) ix); try done. lia.
Qed.

(** C25. [TruncateFront] keeps the entries from an index of the log on, under
    their indices, and drops the earlier ones; for any other index it fails
    and changes nothing. *)
Theorem TruncateFront_keeps l es ix :
  wal_inv l es ->
  (firstIndex l <= ix <= lastIndex l ->
   exists l', TruncateFront ix l = (l', Ok tt)
     /\ wal_inv l' (drop (Z.to_nat (ix - firstIndex l)) es)
     /\ firstIndex l' = ix /\ lastIndex l' = lastIndex l)
  /\ (~ firstIndex l <= ix <= lastIndex l -> TruncateFront ix l = (l, Err ErrOutOfRange)).
Proof.
  intros Hinv. unfold TruncateFront. rewrite (guard_open_core l es) by done. split; intros Hix.
  - destruct (decide (ix = firstIndex l)) as [->|Hne]; [|apply truncateFront_cuts; [done|lia]].
    exists l. pose proof Hinv as (parts & tl & Ees & Hc & _ & El & _). pose proof (core_first _ _ _ _ Hc).
    rewrite Z.sub_diag. split_and!; try done. apply truncateFront_whole. lia.
  - unfold truncateFront. io_step. unfold out_of_range.
    destruct (Z.eqb_spec ix 0), (Z.eqb_spec (lastIndex l) 0), (Z.ltb_spec ix (firstIndex l)),
      (Z.ltb_spec (lastIndex l) ix); try done. lia.
Qed.

(** Everything a log holds between two operations is on disk: [Open] on
    its directory, with any options of the binary format, gives the same
    entries under the same indices. *)
Theorem Open_recovers l es o :
  wal_inv l es -> Format o = BinaryFormat ->
  exists l', Open o (disk l) = (l', Ok tt) /\ wal_inv l' es
    /\ firstIndex l' = firstIndex l /\ lastIndex l' = lastIndex l.
Proof. apply open_existing. Qed.

End truncation.

Lemma TruncateBack_keeps_witness :
  exists l l', wal_inv l three_words /\ TruncateBack 2 l = (l', Ok tt)
    /\ wal_inv l' [word x61; word x62].
Proof.
  destruct three_words_log as (l & Hinv & Ef & El).
  destruct (TruncateBack_keeps l three_words 2 Hinv) as [Ht _].
  destruct Ht as (l' & Hrun & Hinv' & _); [lia|]. rewrite Ef in Hinv'. by exists l, l'.
Defined.

Lemma TruncateFront_keeps_witness :
  exists l l', wal_inv l three_words /\ TruncateFront 2 l = (l', Ok tt)
    /\ wal_inv l' [word x62; word x63].
Proof.
  destruct three_words_log as (l & Hinv & Ef & El).
  destruct (TruncateFront_keeps l three_words 2 Hinv) as [Ht _].
  destruct Ht as (l' & Hrun & Hinv' & _); [lia|]. rewrite Ef in Hinv'. by exists l, l'.
Defined.

Lemma Open_recovers_witness :
  exists l l', wal_inv l three_words /\ Open DefaultOptions (disk l) = (l', Ok tt) /\ wal_inv l' three_words.
Proof.
  destruct three_words_log as (l & Hinv & _).
  destruct (Open_recovers l three_words DefaultOptions Hinv eq_refl) as (l' & Hrun & Hinv' & _). by exists l, l'.
Defined.
