(* ===== verification/WalCrash.v ===== *)
(** * WalCrash: the write-ahead log after a crash

    The disk stops working at any call of a truncation ([health] of Wal.v), in
    the middle of a write or between two calls, syncs, closes and reads
    included; the process is gone, and
    [Open] of wal/wal.go runs on what the directory holds then.  It finds a log,
    the one before the truncation or the one after it: the temporary file is
    ignored, and a START or END segment is the decision to finish the
    truncation, which [load] does.  After an interrupted batch it finds
    the entries of which all bytes are there, or refuses a last one of which
    only some are. *)

From stdpp Require Import sorting.
From S2P Require Import Prelude Binary WalJson Wal WalSpec WalTrunc.

Section crash.
Context {gjson : Gjson} {lru : LRU} {lru_laws : LRULaws}.
Implicit Types l : Log.
Implicit Types d : gmap fname (list byte).
Implicit Types P : list (list (list byte)).

(** ** Directories *)

(** The directory of a log whose segments hold the parts [P], the last of which
    is the tail. *)
Record dir_all d (first : Z) P : Prop := {
  all_first : 0 < first;
  all_parts k ds : P !! k = Some ds ->
    d !! Seg (start first P k) = Some (enc_all ds) /\ Forall small ds /\ ((S k < length P)%nat -> ds <> []);
  all_ne : P <> [];
  all_files g : is_Some (d !! g) -> g = Temp \/ exists k, (k < length P)%nat /\ g = Seg (start first P k)
}.

Lemma dir_log_all d first parts tl : dir_log d first parts tl -> dir_all d first (parts ++ [tl]).
Proof.
  intros [H0 Hp [Ht Hs] Hf]. split; [done| |by destruct parts|].
  - intros k ds Hk. pose proof (lookup_lt_Some _ _ _ Hk) as Hlt. rewrite length_app in *. simpl in *.
    rewrite start_snoc by lia. apply lookup_app_Some in Hk as [Hk|[Hge Hk]].
    + destruct (Hp k ds Hk) as (? & ? & ?). by split_and!.
    + assert (k = length parts) as -> by lia. rewrite Nat.sub_diag in Hk. injection Hk as <-. split_and!; [done..|lia].
  - intros g [->|(k & Hk & ->)]%Hf; [by left|right]. exists k. rewrite length_app, start_snoc by done. simpl. split; [lia|done].
Qed.

Lemma dir_all_log d first P :
  dir_all d first P -> exists parts tl, P = parts ++ [tl] /\ dir_log d first parts tl.
Proof.
  intros [H0 Hp Hne Hf]. destruct P as [|tl parts _] using rev_ind; [done|]. exists parts, tl. split; [done|].
  rewrite length_app in *. simpl in *. split; [done| | |].
  - intros k ds Hk. pose proof (lookup_lt_Some _ _ _ Hk). destruct (Hp k ds) as (Hd & Hs & Hn); [by rewrite lookup_app_l by lia|].
    rewrite start_snoc in Hd by lia. split_and!; [done..|apply Hn; lia].
  - destruct (Hp (length parts) tl) as (Hd & Hs & _); [by apply list_lookup_middle|]. by rewrite start_snoc in Hd.
  - intros g [->|(k & Hk & ->)]%Hf; [by left|right]. exists k. rewrite start_snoc by lia. split; [lia|done].
Qed.

Definition starts_of (first : Z) P : list Z := map (start first P) (seq 0 (length P)).

Lemma starts_of_snoc first parts tl : starts_of first (parts ++ [tl]) = starts first parts.
Proof.
  unfold starts_of, starts. rewrite length_app, Nat.add_comm. apply map_ext_in. intros k Hk%in_seq.
  apply start_snoc. lia.
Qed.

Lemma load_open_all l first P :
  found l (map fresh (starts_of first P)) -> dir_all (disk l) first P ->
  exists l', load_open l = (l', Ok tt) /\ wal_inv l' (concat P) /\ firstIndex l' = first.
Proof.
  intros Hl (parts & tl & -> & Hd)%dir_all_log. rewrite starts_of_snoc in Hl.
  rewrite concat_app. simpl. rewrite app_nil_r. by apply load_open_dir.
Qed.

Lemma open_all d first P o :
  dir_all d first P -> Format o = BinaryFormat ->
  exists l', Open o d = (l', Ok tt) /\ wal_inv l' (concat P) /\ firstIndex l' = first.
Proof.
  intros (parts & tl & -> & Hd)%dir_all_log. rewrite concat_app. simpl. rewrite app_nil_r. by apply open_dir.
Qed.

Lemma all_start_lt d first P j k :
  dir_all d first P -> (j < k < length P)%nat -> start first P j < start first P k.
Proof.
  intros Hd Hjk. destruct (lookup_lt_is_Some_2 P j) as [ds Hds]; [lia|].
  destruct (all_parts _ _ _ Hd j ds Hds) as (_ & _ & Hne).
  pose proof (start_S first P j ds Hds). pose proof (start_mono first P (S j) k ltac:(lia)).
  destruct ds; [by destruct Hne; [lia|]|]. simpl in *. lia.
Qed.

(** A part [k] that loses its first [j] entries, and the parts before it gone. *)
Lemma front_dir d d' first P k ds j :
  let ix := start first P k + Z.of_nat j in
  dir_all d first P -> P !! k = Some ds -> (j < length ds)%nat ->
  d' !! Seg ix = Some (enc_all (drop j ds)) ->
  (forall i, (k < i < length P)%nat -> d' !! Seg (start first P i) = d !! Seg (start first P i)) ->
  (forall g, is_Some (d' !! g) -> g = Temp \/ g = Seg ix \/ exists i, (k < i < length P)%nat /\ g = Seg (start first P i)) ->
  dir_all d' ix (drop j ds :: drop (S k) P).
Proof.
  intros ix Hd Hk Hj Hix Hsame Hfiles. pose proof (all_first _ _ _ Hd). pose proof (lookup_lt_Some _ _ _ Hk) as Hlt.
  assert (forall m, start ix (drop j ds :: drop (S k) P) (S m) = start first P (S k + m)) as Est.
  { intros m. apply start_cut; [done|lia]. }
  destruct (all_parts _ _ _ Hd k ds Hk) as (_ & Hsm & _).
  split; [unfold ix, start; lia| |done|].
  - intros [|m] dsm Hm; simpl in Hm.
    + injection Hm as <-. rewrite start_0. split_and!; [done|by apply Forall_drop|].
      intros _ E. apply (f_equal length) in E. rewrite length_drop in E. simpl in E. lia.
    + rewrite lookup_drop in Hm. pose proof (lookup_lt_Some _ _ _ Hm). rewrite Est, Hsame by lia.
      destruct (all_parts _ _ _ Hd _ _ Hm) as (? & ? & Hn). split_and!; [done..|].
      simpl. rewrite length_drop. intros ?. apply Hn. lia.
  - intros g [->|[->|(i & Hi & ->)]]%Hfiles; [by left|right; exists 0%nat; rewrite start_0; simpl; split; [lia|done]|].
    right. exists (S (i - S k)). simpl. rewrite length_drop. split; [lia|]. rewrite Est. do 2 f_equal. lia.
Qed.

(** A part [k] that keeps its first entries up to [j], and the parts after it
    gone. *)
Lemma back_dir d d' first P k ds j :
  dir_all d first P -> P !! k = Some ds -> (j < length ds)%nat ->
  d' !! Seg (start first P k) = Some (enc_all (take (S j) ds)) ->
  (forall i, (i < k)%nat -> d' !! Seg (start first P i) = d !! Seg (start first P i)) ->
  (forall g, is_Some (d' !! g) -> g = Temp \/ exists i, (i <= k)%nat /\ g = Seg (start first P i)) ->
  dir_all d' first (take k P ++ [take (S j) ds]).
Proof.
  intros Hd Hk Hj Hix Hsame Hfiles. pose proof (lookup_lt_Some _ _ _ Hk) as Hlt.
  assert (length (take k P) = k) as Hlk by (rewrite length_take; lia).
  assert (forall m, (m <= k)%nat -> start first (take k P ++ [take (S j) ds]) m = start first P m) as Est.
  { intros m Hm. rewrite start_snoc by lia. by apply start_take. }
  destruct (all_parts _ _ _ Hd k ds Hk) as (_ & Hsm & _).
  split; [by apply Hd| |by destruct (take k P)|].
  - intros m dsm Hm. pose proof (lookup_lt_Some _ _ _ Hm) as Hml. rewrite length_app, Hlk in *. simpl in *.
    rewrite Est by lia. apply lookup_app_Some in Hm as [Hm|[Hge Hm]].
    + apply lookup_take_Some in Hm as [Hm Hmk]. rewrite Hsame by lia.
      destruct (all_parts _ _ _ Hd _ _ Hm) as (? & ? & Hn). split_and!; [done..|]. intros ?. apply Hn. lia.
    + assert (m = k) as -> by lia. rewrite Hlk, Nat.sub_diag in Hm. injection Hm as <-.
      split_and!; [done|by apply Forall_take|lia].
  - intros g [->|(i & Hi & ->)]%Hfiles; [by left|right]. exists i. rewrite length_app, Hlk, Est by lia. simpl.
    split; [lia|done].
Qed.

(** ** A START segment *)

(** The first indices of [n] segments from the [a]-th on. *)
Definition run_of (first : Z) P (a n : nat) : list Z := map (start first P) (seq a n).

Lemma elem_run first P a n g :
  g ∈ map Seg (run_of first P a n) <-> exists i, (a <= i < a + n)%nat /\ g = Seg (start first P i).
Proof.
  unfold run_of. rewrite list_elem_of_fmap. setoid_rewrite list_elem_of_fmap. setoid_rewrite elem_of_seq. naive_solver.
Qed.

Lemma run_NoDup d first P a n :
  dir_all d first P -> (a + n <= length P)%nat -> NoDup (map Seg (run_of first P a n)).
Proof.
  intros Hd. revert a. induction n as [|n IH]; intros a Ha; [constructor|]. cbn [run_of seq map].
  constructor; [|apply IH; lia]. intros (i & Hi & [= E])%elem_run.
  pose proof (all_start_lt _ _ _ a i Hd ltac:(lia)). lia.
Qed.

(** Names of segments around a START or END segment, as the directory lists
    them. *)
Lemma ReadDir_around d d0 first P a n b c x :
  dir_all d0 first P -> (a + n <= b)%nat -> (b + c <= length P)%nat -> (forall i, x <> Seg i) -> x <> Temp ->
  (forall g, g ∈ map Seg (run_of first P a n) -> name_le g x) ->
  (forall g, g ∈ map Seg (run_of first P b c) -> name_le x g) ->
  is_Some (d !! x) ->
  (forall g, g <> x -> is_Some (d !! g) <-> g ∈ map Seg (run_of first P a n) \/ g ∈ map Seg (run_of first P b c)) ->
  ReadDir d = map Seg (run_of first P a n) ++ x :: map Seg (run_of first P b c).
Proof.
  intros Hd Hab Hbc Hx HT Hlo Hhi Hin Hg.
  assert (forall m k, x ∉ map Seg (run_of first P m k)) as Hnx by (intros m k (i & _ & E)%elem_run; by apply (Hx (start first P i))).
  apply ReadDir_names.
  - apply StronglySorted_app_2; [|apply sorted_starts|constructor; [apply sorted_starts|by apply Forall_forall]].
    intros f g Hf [->|Hg']%elem_of_cons; [by apply Hlo|]. transitivity x; [by apply Hlo|by apply Hhi].
  - apply NoDup_app. split_and!; [eapply run_NoDup; [done|lia]| |constructor; [apply Hnx|eapply run_NoDup; [done|lia]]].
    intros f (i & Hi & ->)%elem_run [E|(i' & Hi' & [= E])%elem_run]%elem_of_cons; [by destruct (Hx (start first P i))|].
    pose proof (all_start_lt _ _ _ i i' Hd ltac:(lia)). lia.
  - intros g. rewrite elem_of_app, elem_of_cons. destruct (decide (g = x)) as [->|Hne]; [naive_solver|].
    rewrite Hg by done. naive_solver.
Qed.

(** The files of a run of segments removed. *)
Lemma remove_run d first P a n l0 :
  dir_all d first P -> (a + n <= length P)%nat -> hw l0 = Healthy ->
  (forall i, (a <= i < a + n)%nat -> is_Some (disk l0 !! Seg (start first P i))) ->
  exists d', remove_segments (map fresh (run_of first P a n)) l0 = (set_disk d' l0, Ok tt)
    /\ forall g, d' !! g = if decide (g ∈ map Seg (run_of first P a n)) then None else disk l0 !! g.
Proof.
  intros Hd Hn Hw Hin.
  assert (map path (map fresh (run_of first P a n)) = map Seg (run_of first P a n)) as E by (rewrite map_map; done).
  rewrite <- E. apply remove_segments_run; [done| |by rewrite E; eapply run_NoDup].
  apply Forall_forall. intros s (i & -> & (k & -> & Hk)%list_elem_of_fmap)%list_elem_of_fmap.
  apply elem_of_seq in Hk. apply Hin. lia.
Qed.

Lemma name_le_start i ix : i <= ix -> name_le (Seg i) (SegStart ix).
Proof. unfold name_le. simpl. lia. Qed.

Lemma map_seq_shift {A} (f g : nat -> A) a b n :
  (forall i, (i < n)%nat -> f (a + i)%nat = g (b + i)%nat) -> map f (seq a n) = map g (seq b n).
Proof.
  revert a b. induction n as [|n IH]; intros a b H; simpl; [done|]. f_equal.
  - by specialize (H 0%nat ltac:(lia)); rewrite !Nat.add_0_r in H.
  - apply IH. intros i Hi. specialize (H (S i) ltac:(lia)). by rewrite !Nat.add_succ_r in H.
Qed.

Lemma idx_0 {A} (x : A) xs : idx (x :: xs) 0 = Ok x.
Proof. done. Qed.

Lemma load_start_run l A B ix d' buf :
  found l (A ++ mkSegment (SegStart ix) ix [] [] :: B) ->
  remove_segments A l = (set_disk d' l, Ok tt) -> d' !! SegStart ix = Some buf ->
  exists l', load_start (zlen A) (-1) l = (l', Ok tt) /\ found l' (fresh ix :: B)
    /\ disk l' = <[Seg ix := buf]> (delete (SegStart ix) d').
Proof.
  intros (? & ? & ? & ? & ? & Hw & Es) Hrm Hbuf. unfold load_start.
  destruct (Z.eqb_spec (zlen A) (-1)) as [E|_]; [unfold zlen in E; lia|]. cbn [negb Z.eqb Pos.eqb]. io_step.
  assert (Z.to_nat (zlen A) = length A) as -> by (unfold zlen; lia). rewrite Es, take_app_length.
  rewrite (run_bind _ _ _ _ _ Hrm). io_step. cbn [segments set_segments set_disk].
  rewrite Es, drop_app_length, idx_0. io_step.
  unfold os_rename. io_step. cbn [disk set_segments set_disk path index]. rewrite Hbuf, run_call by done.
  unfold put_segment, modify. eexists. split; [done|]. by split_and!.
Qed.

(** [load] finishes a truncation of the front that got as far as its START
    segment, [m] of the old segments being removed. *)
Lemma open_start d0 d first P k ds j m o :
  let ix := start first P k + Z.of_nat j in
  dir_all d0 first P -> P !! k = Some ds -> (j < length ds)%nat -> (m <= S k)%nat -> Format o = BinaryFormat ->
  d !! SegStart ix = Some (enc_all (drop j ds)) ->
  (forall i, (m <= i < length P)%nat -> d !! Seg (start first P i) = d0 !! Seg (start first P i)) ->
  (forall g, is_Some (d !! g) -> g = SegStart ix \/ exists i, (m <= i < length P)%nat /\ g = Seg (start first P i)) ->
  exists l', Open o d = (l', Ok tt) /\ wal_inv l' (drop j ds ++ concat (drop (S k) P)) /\ firstIndex l' = ix.
Proof.
  intros ix Hd Hk Hj Hm Hf Hix Hsame Hfiles. pose proof (lookup_lt_Some _ _ _ Hk) as Hlt.
  pose proof (all_first _ _ _ Hd) as H0. pose proof (start_S first P k ds Hk) as ES.
  assert (0 < ix) as Hpos by (unfold ix, start; lia).
  assert (forall i, (m <= i < length P)%nat -> is_Some (d !! Seg (start first P i))) as Hpres.
  { intros i Hi. rewrite Hsame by done. destruct (lookup_lt_is_Some_2 P i) as [di Hdi]; [lia|].
    destruct (all_parts _ _ _ Hd i di Hdi) as (-> & _). eauto. }
  set (n := (S k - m)%nat). set (c := (length P - S k)%nat).
  unfold Open, load. io_step. cbn [disk].
  rewrite (ReadDir_around d d0 first P m n (S k) c (SegStart ix) Hd); [|unfold n, c; lia..|done|done| | |by rewrite Hix; eauto|].
  2: { intros g (i & Hi & ->)%elem_run. apply name_le_start. pose proof (start_mono first P i k ltac:(unfold n in *; lia)).
       unfold ix. lia. }
  2: { intros g (i & Hi & ->)%elem_run. unfold name_le. simpl. pose proof (start_mono first P (S k) i ltac:(lia)). unfold ix. lia. }
  2: { intros g Hg. rewrite !elem_run. split.
       - intros [->|(i & Hi & ->)]%Hfiles; [done|]. destruct (decide (i <= k)%nat); [left|right]; exists i; unfold n, c; split; lia || done.
       - intros [(i & Hi & ->)|(i & Hi & ->)]; apply Hpres; unfold n, c in *; lia. }
  rewrite scan_segments by (by apply starts_pos). cbn [scan_dir name_rank app].
  destruct (Z.eqb_spec ix 0); [lia|]. cbn [Z.eqb Pos.eqb negb andb].
  rewrite <- (app_nil_r (map Seg (run_of first P (S k) c))), scan_segments by (by apply starts_pos). cbn [scan_dir app]. io_step.
  match goal with |- context [set_segments ?S ?L] => pose proof (found_new o d S Hf) as Hfound; set (l0 := set_segments S L) in * end.
  rewrite <- app_assoc in *. cbn [app] in *. rewrite zlen_app, zlen_cons.
  destruct (Z.eqb_spec (zlen (map fresh (run_of first P m n)) + (1 + zlen (map fresh (run_of first P (S k) c)))) 0) as [E|_];
    [unfold zlen in E; lia|].
  destruct (remove_run d0 first P m n l0) as (d1 & Hrm & Hd1); [done|unfold n; lia|done| |].
  { intros i Hi. apply Hpres. unfold n in Hi. lia. }
  assert (d1 !! SegStart ix = Some (enc_all (drop j ds))) as Hbuf.
  { rewrite Hd1, decide_False; [done|]. by intros (i & _ & ?)%elem_run. }
  destruct (load_start_run l0 _ _ ix d1 _ Hfound Hrm Hbuf) as (l1 & Hls & Hf1 & Hdisk).
  rewrite (run_bind _ _ _ _ _ Hls). unfold load_end. cbn [negb Z.eqb Pos.eqb]. io_step.
  assert (map fresh (starts_of ix (drop j ds :: drop (S k) P)) = fresh ix :: map fresh (run_of first P (S k) c)) as Estarts.
  { unfold starts_of, run_of. cbn [length seq map]. rewrite start_0, length_drop. f_equal. f_equal.
    apply map_seq_shift. intros i _. change (1 + i)%nat with (S i). unfold ix.
    by rewrite (start_cut first P k ds j i) by (done || lia). }
  rewrite <- Estarts in Hf1. apply (load_open_all l1 ix (drop j ds :: drop (S k) P) Hf1).
  rewrite Hdisk. apply (front_dir d0); [done..|apply lookup_insert_eq| |].
  - intros i Hi. pose proof (start_mono first P (S k) i ltac:(lia)).
    rewrite lookup_insert_ne, lookup_delete_ne, Hd1, decide_False, Hsame; [done|lia| |done|].
    + intros (i' & Hi' & [= E])%elem_run. pose proof (all_start_lt _ _ _ i' i Hd ltac:(unfold n in *; lia)). lia.
    + intros [= E]. fold ix in E. unfold ix in E. lia.
  - intros g Hg. apply lookup_insert_is_Some in Hg as [<-|[_ Hg]]; [by right; left|].
    apply lookup_delete_is_Some in Hg as [Hne Hg]. rewrite Hd1 in Hg.
    destruct (decide _) as [|Hni]; [by destruct Hg|]. destruct (Hfiles g Hg) as [->|(i & Hi & ->)]; [done|].
    right. right. exists i. split; [|done]. destruct (decide (k < i)%nat); [lia|]. destruct Hni.
    apply elem_run. exists i. unfold n. split; [lia|done].
Qed.

(** ** An END segment *)

(** The segment before the END segment goes when it has the same index. *)
Definition without_same (A : list segment) (e : Z) (A' : list segment) : Prop :=
  (exists s, A = A' ++ [s] /\ index s = e) \/ (A = A' /\ forall s, last A = Some s -> index s <> e).

Lemma load_end_run l A A' B e d' buf :
  found l (A ++ mkSegment (SegEnd e) e [] [] :: B) ->
  remove_segments (rev B) l = (set_disk d' l, Ok tt) -> d' !! SegEnd e = Some buf -> without_same A e A' ->
  exists l', load_end (zlen A) l = (l', Ok tt) /\ found l' (A' ++ [fresh e])
    /\ disk l' = <[Seg e := buf]> (delete (SegEnd e) d').
Proof.
  intros (? & ? & ? & ? & ? & Hw & Es) Hrm Hbuf Hsame. unfold load_end.
  destruct (Z.eqb_spec (zlen A) (-1)) as [E|_]; [unfold zlen in E; lia|]. cbn [negb]. io_step.
  assert (Z.to_nat (zlen A + 1) = length A + 1)%nat as -> by (unfold zlen; lia). rewrite Es.
  set (x := mkSegment (SegEnd e) e [] []).
  assert (A ++ x :: B = (A ++ [x]) ++ B) as Eapp by (by rewrite <- app_assoc).
  assert (length A + 1 = length (A ++ [x]))%nat as Elen by (rewrite length_app; simpl; lia).
  rewrite Eapp, Elen, drop_app_length, take_app_length. rewrite (run_bind _ _ _ _ _ Hrm). io_step.
  assert (idx (A ++ [x]) (zlen (A ++ [x]) - 1) = Ok x) as ->.
  { apply idx_Ok. unfold zlen. rewrite length_app. simpl. split; [lia|].
    replace (Z.to_nat _) with (length A) by lia. by apply list_lookup_middle. }
  io_step.
  assert ((match (A ++ [x]) !! (length (A ++ [x]) - 2)%nat with
           | Some s' => if (1 <? zlen (A ++ [x])) && (index s' =? index x)
                        then take (length (A ++ [x]) - 2) (A ++ [x]) ++ [x] else A ++ [x]
           | None => A ++ [x]
           end) = A' ++ [x]) as ->.
  { destruct Hsame as [(s & -> & Es')|[<- Hne]].
    - rewrite !length_app. simpl. replace (length A' + 1 + 1 - 2)%nat with (length A') by lia.
      rewrite <- app_assoc. cbn [app]. rewrite list_lookup_middle by done.
      rewrite Es', Z.eqb_refl, take_app_length. destruct (Z.ltb_spec 1 (zlen (A' ++ [s; x]))) as [|E]; [done|].
      unfold zlen in E. rewrite !length_app in E. simpl in E. lia.
    - destruct A as [|s A _] using rev_ind; [done|]. rewrite !length_app. simpl.
      replace (length A + 1 + 1 - 2)%nat with (length A) by lia. rewrite <- app_assoc. cbn [app].
      rewrite list_lookup_middle by done. cbn [index x].
      destruct (Z.eqb_spec (index s) e) as [E|_]; [by destruct (Hne s); [apply last_snoc|]|by rewrite andb_false_r]. }
  unfold os_rename. io_step. cbn [disk set_segments set_disk path index x]. rewrite Hbuf, run_call by done.
  unfold put_segment, modify. eexists. split; [done|]. split; [|done]. split_and!; try done.
  cbn [segments set_segments set_disk]. rewrite length_app. simpl. replace (pred (length A' + 1)) with (length A' + 0)%nat by lia.
  by rewrite insert_app_r.
Qed.

(** [load] finishes a truncation of the back that got as far as its END segment,
    [m] of the old segments being removed. *)
Lemma open_end d0 d first P k ds j m o :
  let e := start first P k in
  dir_all d0 first P -> P !! k = Some ds -> (j < length ds)%nat -> (k + m <= length P)%nat -> Format o = BinaryFormat ->
  d !! SegEnd e = Some (enc_all (take (S j) ds)) ->
  (forall i, (i < k \/ k + m <= i < length P)%nat -> d !! Seg (start first P i) = d0 !! Seg (start first P i)) ->
  (forall g, is_Some (d !! g) -> g = SegEnd e
     \/ exists i, (i < k \/ k + m <= i < length P)%nat /\ g = Seg (start first P i)) ->
  exists l', Open o d = (l', Ok tt) /\ wal_inv l' (concat (take k P) ++ take (S j) ds) /\ firstIndex l' = first.
Proof.
  intros e Hd Hk Hj Hm Hf He Hsame Hfiles. pose proof (lookup_lt_Some _ _ _ Hk) as Hlt.
  pose proof (all_first _ _ _ Hd) as H0.
  assert (0 < e) as Hpos by (unfold e, start; lia).
  assert (forall i, (i < k \/ k + m <= i < length P)%nat -> is_Some (d !! Seg (start first P i))) as Hpres.
  { intros i Hi. rewrite Hsame by done. destruct (lookup_lt_is_Some_2 P i) as [di Hdi]; [lia|].
    destruct (all_parts _ _ _ Hd i di Hdi) as (-> & _). eauto. }
  assert (forall a c s, (k + m <= a)%nat -> (a + c <= length P)%nat -> s ∈ map fresh (run_of first P a c) ->
            is_Some (d !! path s)) as Hpres_run.
  { intros a c s Ha Hc (i & -> & (i' & -> & Hi)%list_elem_of_fmap)%list_elem_of_fmap. apply elem_of_seq in Hi.
    apply Hpres. lia. }
  set (n := if decide (m = 0)%nat then S k else k). set (b := Nat.max (S k) (k + m)). set (c := (length P - b)%nat).
  assert (n = S k /\ m = 0 \/ n = k /\ 0 < m)%nat as Hn by (unfold n; destruct (decide _); lia).
  unfold Open, load. io_step. cbn [disk].
  rewrite (ReadDir_around d d0 first P 0 n b c (SegEnd e) Hd); [|unfold b, c; lia..|done|done| | |by rewrite He; eauto|].
  2: { intros g (i & Hi & ->)%elem_run. unfold name_le. simpl. pose proof (start_mono first P i k ltac:(lia)). unfold e. lia. }
  2: { intros g (i & Hi & ->)%elem_run. unfold name_le. simpl. left. unfold e. eapply all_start_lt; [done|unfold b, c in *; lia]. }
  2: { intros g Hg. rewrite !elem_run. split.
       - intros [->|(i & Hi & ->)]%Hfiles; [done|]. destruct (decide (i < n)%nat); [left|right]; exists i; unfold b, c; split; lia || done.
       - intros [(i & Hi & ->)|(i & Hi & ->)]; apply Hpres; unfold b, c in *; lia. }
  rewrite scan_segments by (by apply starts_pos). cbn [scan_dir name_rank app].
  destruct (Z.eqb_spec e 0); [lia|]. cbn [Z.eqb Pos.eqb negb andb].
  rewrite <- (app_nil_r (map Seg (run_of first P b c))), scan_segments by (by apply starts_pos). cbn [scan_dir app]. io_step.
  match goal with |- context [set_segments ?S ?L] => pose proof (found_new o d S Hf) as Hfound; set (l0 := set_segments S L) in * end.
  rewrite <- app_assoc in *. cbn [app] in *. rewrite zlen_app, zlen_cons.
  destruct (Z.eqb_spec (zlen (map fresh (run_of first P 0 n)) + (1 + zlen (map fresh (run_of first P b c)))) 0) as [E|_];
    [unfold zlen in E; lia|].
  unfold load_start. cbn [negb Z.eqb Pos.eqb]. io_step.
  assert (forall g, g ∈ map path (rev (map fresh (run_of first P b c))) <-> g ∈ map Seg (run_of first P b c)) as Hrev.
  { intros g. by rewrite map_rev, <- Permutation_rev, map_map. }
  destruct (remove_segments_run (rev (map fresh (run_of first P b c))) l0) as (d1 & Hrm & Hd1); [done| | |].
  { apply Forall_forall. intros s Hs. rewrite <- Permutation_rev in Hs.
    apply (Hpres_run b c); [unfold b, c; lia..|done]. }
  { rewrite map_rev, <- Permutation_rev, map_map. eapply run_NoDup; [done|unfold b, c; lia]. }
  assert (d1 !! SegEnd e = Some (enc_all (take (S j) ds))) as Hbuf.
  { rewrite Hd1, decide_False; [done|]. rewrite Hrev. by intros (i & _ & ?)%elem_run. }
  destruct (load_end_run l0 _ (map fresh (run_of first P 0 k)) _ e d1 _ Hfound Hrm Hbuf) as (l1 & Hls & Hf1 & Hdisk).
  { destruct Hn as [[-> _]|[-> _]].
    - left. exists (fresh e). split; [|done]. unfold run_of. by rewrite seq_S, !map_app.
    - right. split; [done|]. intros s (i & -> & (i' & -> & Hi)%list_elem_of_fmap)%last_Some_elem_of%list_elem_of_fmap E.
      apply elem_of_seq in Hi. pose proof (all_start_lt _ _ _ i' k Hd ltac:(lia)). simpl in E. unfold e in E. lia. }
  rewrite (run_bind _ _ _ _ _ Hls).
  assert (map fresh (starts_of first (take k P ++ [take (S j) ds])) = map fresh (run_of first P 0 k) ++ [fresh e]) as Estarts.
  { assert (length (take k P) = k) as Hlk by (rewrite length_take; lia).
    unfold starts_of, run_of. rewrite length_app, Hlk. simpl. rewrite Nat.add_1_r, seq_S, !map_app. simpl. f_equal.
    - f_equal. apply map_ext_in. intros i Hi%in_seq. rewrite start_snoc, start_take by lia. done.
    - rewrite start_snoc, start_take by lia. done. }
  rewrite <- Estarts in Hf1.
  replace (concat (take k P) ++ take (S j) ds) with (concat (take k P ++ [take (S j) ds]))
    by (rewrite concat_app; simpl; by rewrite app_nil_r).
  apply (load_open_all l1 first _ Hf1).
  rewrite Hdisk. apply (back_dir d0); [done..|apply lookup_insert_eq| |].
  - intros i Hi. pose proof (all_start_lt _ _ _ i k Hd ltac:(lia)).
    rewrite lookup_insert_ne, lookup_delete_ne, Hd1, decide_False, Hsame; [done|lia| |done|].
    + rewrite Hrev. intros (i' & Hi' & [= E'])%elem_run.
      pose proof (all_start_lt _ _ _ i i' Hd ltac:(unfold b, c in *; lia)). lia.
    + intros [= E']. unfold e in E'. lia.
  - intros g Hg. apply lookup_insert_is_Some in Hg as [<-|[_ Hg]]; [right; exists k; split; [lia|done]|].
    apply lookup_delete_is_Some in Hg as [Hne Hg]. rewrite Hd1 in Hg.
    destruct (decide (g ∈ map path _)) as [|Hni]; [by destruct Hg|]. destruct (Hfiles g Hg) as [->|(i & Hi & ->)]; [done|].
    right. exists i. split; [|done]. destruct (decide (i <= k)%nat); [done|]. destruct Hni.
    rewrite Hrev. apply elem_run. exists i. unfold b, c. split; [lia|done].
Qed.

(** ** The crash *)

(** The log [l] with the directory [d] on a disk that lets [n] more calls
    through. *)
Definition at_disk d (n t : nat) l : Log := set_hw (Fails n t) (set_disk d l).

Section calls.
Context (t : nat) (l : Log).

Lemma create_at f d n : os_create f (at_disk d (S n) t l) = (at_disk (<[f := []]> d) n t l, Ok tt).
Proof. done. Qed.

Lemma write_at f data d n :
  os_write f data (at_disk d (S n) t l) = (at_disk (<[f := default [] (d !! f) ++ data]> d) n t l, Ok tt).
Proof. done. Qed.

Lemma write_dead f data d :
  os_write f data (at_disk d 0 t l) = (at_disk (<[f := default [] (d !! f) ++ take t data]> d) 0 0 l, Err EIO).
Proof. done. Qed.

Lemma rename_at f g d n x :
  d !! f = Some x -> os_rename f g (at_disk d (S n) t l) = (at_disk (<[g := x]> (delete f d)) n t l, Ok tt).
Proof. intros Hf. unfold os_rename. io_step. cbn [disk at_disk set_disk set_hw]. by rewrite Hf. Qed.

Lemma quiet_at d n : os_quiet (at_disk d (S n) t l) = (at_disk d n t l, Ok tt).
Proof. done. Qed.

Lemma quiet_dead d : os_quiet (at_disk d 0 t l) = (at_disk d 0 0 l, Err EIO).
Proof. done. Qed.

Lemma rename_dead f g d : exists l' e, os_rename f g (at_disk d 0 t l) = (l', Err e) /\ disk l' = d.
Proof.
  unfold os_rename. io_step. cbn [disk at_disk set_disk set_hw]. destruct (d !! f); by do 2 eexists.
Qed.

Lemma remove_at f d n :
  is_Some (d !! f) -> os_remove f (at_disk d (S n) t l) = (at_disk (delete f d) n t l, Ok tt).
Proof. intros [x Hf]. unfold os_remove. io_step. cbn [disk at_disk set_disk set_hw]. by rewrite Hf. Qed.

Lemma remove_dead f d : exists l' e, os_remove f (at_disk d 0 t l) = (l', Err e) /\ disk l' = d.
Proof.
  unfold os_remove. io_step. cbn [disk at_disk set_disk set_hw]. destruct (d !! f); by do 2 eexists.
Qed.

(** The temporary file written, or torn. *)
Lemma write_temp_at buf d n :
  (exists d' t', ignore_err (write_temp buf) (at_disk d n t l) = (at_disk d' 0 t' l, Ok tt)
     /\ forall f, f <> Temp -> d' !! f = d !! f)
  \/ exists n', ignore_err (write_temp buf) (at_disk d n t l) = (at_disk (<[Temp := buf]> d) n' t l, Ok tt).
Proof.
  unfold ignore_err, write_temp. destruct n as [|n].
  { left. by exists d, 0%nat. }
  rewrite (run_bind _ _ _ _ _ (create_at Temp d n)). destruct n as [|n].
  { left. rewrite (run_fails _ _ _ _ _ (write_dead _ _ _)). do 2 eexists. split; [done|]. intros f Hf.
    by rewrite !lookup_insert_ne by done. }
  rewrite (run_bind _ _ _ _ _ (write_at Temp buf _ n)), lookup_insert_eq, insert_insert_eq.
  assert (forall f, f <> Temp -> <[Temp := buf]> d !! f = d !! f) as Hd by (intros f Hf; by rewrite lookup_insert_ne).
  destruct n as [|n]; [left; rewrite (run_fails _ _ _ _ _ (quiet_dead _)); by do 2 eexists|].
  rewrite (run_bind _ _ _ _ _ (quiet_at _ n)). destruct n as [|n]; [left; rewrite quiet_dead; by do 2 eexists|].
  right. by exists n.
Qed.

End calls.

(** The temporary file and its first rename: a crash leaves everything else
    as it was. *)
Lemma temp_crash {B} (m : io B) d n t l buf tn :
  (exists l' e, (_ ← ignore_err (write_temp buf); _ ← os_rename Temp tn; m) (at_disk d n t l) = (l', Err e)
     /\ forall f, f <> Temp -> disk l' !! f = d !! f)
  \/ exists n', (_ ← ignore_err (write_temp buf); _ ← os_rename Temp tn; m) (at_disk d n t l)
       = m (at_disk (<[tn := buf]> (delete Temp d)) n' t l).
Proof.
  destruct (write_temp_at t l buf d n) as [(d' & t' & E & Hd)|([|n'] & E)]; rewrite (run_bind _ _ _ _ _ E).
  - left. destruct (rename_dead t' l Temp tn d') as (l' & e & E' & Hd'). exists l', e.
    rewrite (run_fails _ _ _ _ _ E'), Hd'. done.
  - left. destruct (rename_dead t l Temp tn (<[Temp := buf]> d)) as (l' & e & E' & Hd'). exists l', e.
    rewrite (run_fails _ _ _ _ _ E'), Hd'. split; [done|]. intros f Hf. by rewrite lookup_insert_ne.
  - right. exists n'. rewrite (run_bind _ _ _ _ _ (rename_at t l Temp tn _ n' buf (lookup_insert_eq _ _ _))).
    by rewrite delete_insert_eq.
Qed.

(** The tail's file closed, if it is one of the segments that go. *)
Lemma close_crash {B} (m : io B) b d n t l :
  (exists l' e, (_ ← close_if b; m) (at_disk d n t l) = (l', Err e) /\ disk l' = d)
  \/ exists n', (_ ← close_if b; m) (at_disk d n t l) = m (at_disk d n' t (closed_if b l)).
Proof.
  destruct b; [|right; by exists n]. unfold close_if, close_sfile, on_sfile. io_step. cbn [sfile at_disk set_hw set_disk].
  destruct (sfile l) as [f|]; [|left; by do 2 eexists]. io_step.
  change (set_sfile None (at_disk d n t l)) with (at_disk d n t (closed_if true l)). destruct n as [|n].
  - left. rewrite (run_fails _ _ _ _ _ (quiet_dead _ _ _)). by do 2 eexists.
  - right. exists n. by rewrite (run_bind _ _ _ _ _ (quiet_at _ _ _ n)).
Qed.

(** The segments removed one by one: a crash leaves those not reached. *)
Lemma remove_crash {B} (m : io B) t l ss : forall d n,
  Forall (fun s => is_Some (d !! path s)) ss -> NoDup (map path ss) ->
  (exists l' e k, (_ ← remove_segments ss; m) (at_disk d n t l) = (l', Err e) /\ (k <= length ss)%nat
     /\ forall f, disk l' !! f = if decide (f ∈ map path (take k ss)) then None else d !! f)
  \/ exists n' d', (_ ← remove_segments ss; m) (at_disk d n t l) = m (at_disk d' n' t l)
     /\ forall f, d' !! f = if decide (f ∈ map path ss) then None else d !! f.
Proof.
  induction ss as [|s ss IH]; intros d n Hin Hnd.
  { right. exists n, d. by split. }
  apply Forall_cons_1 in Hin as [Hs Hin]. cbn [map] in Hnd. apply NoDup_cons in Hnd as [Hni Hnd].
  cbn [remove_segments]. rewrite run_assoc. destruct n as [|n].
  { left. destruct (remove_dead t l (path s) d) as (l' & e & E & Hd). exists l', e, 0%nat.
    rewrite (run_fails _ _ _ _ _ E), Hd. split; [done|]. split; [lia|done]. }
  rewrite (run_bind _ _ _ _ _ (remove_at t l (path s) d n Hs)).
  assert (forall ps f, (if decide (f ∈ ps) then None else delete (path s) d !! f)
    = (if decide (f ∈ path s :: ps) then None else d !! f)) as Hdel.
  { intros ps f. destruct (decide (f = path s)) as [->|Hne].
    - rewrite lookup_delete_eq, (decide_True (P := _ ∈ _ :: _)) by set_solver. by destruct (decide _).
    - rewrite lookup_delete_ne by done. destruct (decide (f ∈ ps)), (decide (f ∈ path s :: ps)); set_solver. }
  destruct (IH (delete (path s) d) n) as [(l' & e & k & E & Hk & Hd)|(n' & d' & E & Hd)]; [|done|left|right].
  - rewrite Forall_forall in Hin |- *. intros s' Hs'. rewrite lookup_delete_ne; [by apply Hin|].
    intros E. apply Hni. rewrite E. by apply list_elem_of_fmap_2.
  - exists l', e, (S k). split; [exact E|]. split; [simpl; lia|]. intros f. rewrite Hd. apply Hdel.
  - exists n', d'. split; [exact E|]. intros f. rewrite Hd. apply Hdel.
Qed.

(** The file operations of a truncation, with a crash at any point: before the
    file [tn] exists nothing but the temporary file has changed, after that
    some of the segments [ss] are gone, and at the end [tn] has its final name. *)
Lemma replace_crash {B} (m : io B) b d n t l buf tn i ss :
  (forall j, tn <> Seg j) -> tn <> Temp -> d !! tn = None ->
  Forall (fun s => is_Some (d !! path s)) ss -> NoDup (map path ss) -> Temp ∉ map path ss ->
  let run := (_ ← ignore_err (write_temp buf); _ ← os_rename Temp tn; _ ← close_if b;
              _ ← remove_segments ss; _ ← os_rename tn (Seg i); m) (at_disk d n t l) in
  (exists l' e, run = (l', Err e) /\ forall f, f <> Temp -> disk l' !! f = d !! f)
  \/ (exists l' e k, run = (l', Err e) /\ (k <= length ss)%nat /\ disk l' !! tn = Some buf
       /\ forall f, f <> tn -> disk l' !! f = if decide (f = Temp \/ f ∈ map path (take k ss)) then None else d !! f)
  \/ exists n' d', run = m (at_disk d' n' t (closed_if b l)) /\ d' !! Seg i = Some buf
       /\ forall f, f <> Seg i -> d' !! f = if decide (f = Temp \/ f ∈ map path ss) then None else d !! f.
Proof.
  intros H1 H2 H3 Hin Hnd Hnt run.
  destruct (temp_crash (_ ← close_if b; _ ← remove_segments ss; _ ← os_rename tn (Seg i); m) d n t l buf tn)
    as [(l' & e & E & Hd)|(n0 & E0)]; [left; by exists l', e|right].
  set (d1 := <[tn := buf]> (delete Temp d)) in E0.
  assert (forall s, s ∈ ss -> path s <> tn /\ path s <> Temp) as Hne.
  { intros s Hs. rewrite Forall_forall in Hin. destruct (Hin s Hs) as [c Hc].
    split; intros E'; [rewrite E' in Hc; congruence|]. apply Hnt. rewrite <- E'. by apply list_elem_of_fmap_2. }
  assert (forall k, tn ∉ map path (take k ss)) as Htn.
  { intros k (s & E' & Hs)%list_elem_of_fmap. destruct (Hne s); [|done]. eapply elem_of_sublist; [exact Hs|apply sublist_take]. }
  assert (forall (ps : list fname) f, tn ∉ ps -> f <> tn -> (if decide (f ∈ ps) then None else d1 !! f)
    = (if decide (f = Temp \/ f ∈ ps) then None else d !! f)) as Hd1.
  { intros ps f Hps Hf. unfold d1. rewrite lookup_insert_ne by done. destruct (decide (f = Temp)) as [->|HT].
    - rewrite lookup_delete_eq, (decide_True (P := _ \/ _)) by (by left). by destruct (decide _).
    - rewrite lookup_delete_ne by done. destruct (decide (f ∈ ps)), (decide (f = Temp \/ f ∈ ps)); tauto. }
  destruct (close_crash (_ ← remove_segments ss; _ ← os_rename tn (Seg i); m) b d1 n0 t l) as [(l' & e & E1 & Hd)|(n1 & E1)].
  { left. exists l', e, 0%nat. unfold run. rewrite E0, E1, Hd. split_and!; [done|lia|apply lookup_insert_eq|].
    intros f Hf. rewrite <- Hd1 by (done || apply not_elem_of_nil). done. }
  assert (run = (_ ← remove_segments ss; _ ← os_rename tn (Seg i); m) (at_disk d1 n1 t (closed_if b l))) as E
    by (unfold run; by rewrite E0, E1).
  destruct (remove_crash (_ ← os_rename tn (Seg i); m) t (closed_if b l) ss d1 n1) as [(l' & e & k & E' & Hk & Hd)|(n2 & d2 & E' & Hd)];
    [|done|left|].
  { rewrite Forall_forall in Hin |- *. intros s Hs. destruct (Hne s Hs). unfold d1.
    rewrite lookup_insert_ne, lookup_delete_ne by done. by apply Hin. }
  { exists l', e, k. rewrite E, E'. split_and!; [done|done| |].
    - rewrite Hd, decide_False by done. apply lookup_insert_eq.
    - intros f Hf. rewrite Hd. by apply Hd1. }
  assert (tn ∉ map path ss) as Htn' by (rewrite <- (firstn_all ss); apply Htn).
  assert (d2 !! tn = Some buf) as Hd2 by (rewrite Hd, decide_False by done; apply lookup_insert_eq).
  rewrite E, E'. destruct n2 as [|n2].
  - left. destruct (rename_dead t (closed_if b l) tn (Seg i) d2) as (l' & e & E2 & Ed). exists l', e, (length ss).
    rewrite (run_fails _ _ _ _ _ E2), Ed, firstn_all. split_and!; [done|done|done|]. intros f Hf. rewrite Hd. by apply Hd1.
  - right. exists n2. rewrite (run_bind _ _ _ _ _ (rename_at t (closed_if b l) tn (Seg i) d2 n2 buf Hd2)). eexists. split; [done|].
    split; [apply lookup_insert_eq|]. intros f Hf. rewrite lookup_insert_ne by done. destruct (decide (f = tn)) as [->|Hft].
    + rewrite lookup_delete_eq, H3. by destruct (decide _).
    + rewrite lookup_delete_ne, Hd by done. by apply Hd1.
Qed.

(** What follows the last rename leaves the directory alone. *)
Definition keeps_disk {A} (m : io A) : Prop := forall l, disk (m l).1 = disk l.

Lemma keeps_bind {A B} (m : io A) (g : A -> io B) : keeps_disk m -> (forall a, keeps_disk (g a)) -> keeps_disk (m ≫= g).
Proof.
  intros Hm Hg l. unfold mbind, io_bind. specialize (Hm l). destruct (m l) as [l' [a|e|]]; simpl in *; [|done..].
  by rewrite Hg.
Qed.

Lemma keeps_get : keeps_disk get.
Proof. done. Qed.

Lemma keeps_ret {A} (a : A) : keeps_disk (mret a).
Proof. done. Qed.

Lemma keeps_lift {A} (m : go A) : keeps_disk (lift m).
Proof. done. Qed.

Lemma keeps_fail {A} e : keeps_disk (fail (A := A) e).
Proof. done. Qed.

Lemma keeps_modify h : (forall l, disk (h l) = disk l) -> keeps_disk (modify h).
Proof. intros Hh l. apply Hh. Qed.

Lemma keeps_quiet : keeps_disk os_quiet.
Proof. intros l. unfold os_quiet, os_call. by destruct (hw l) as [|[|n] k|[|n] k]. Qed.

Lemma keeps_open f : keeps_disk (os_open f).
Proof. intros l. unfold os_open. io_step. destruct (disk l !! f); [apply keeps_quiet|done]. Qed.

Lemma keeps_read f : keeps_disk (os_read f).
Proof.
  intros l. unfold os_read. destruct (disk l !! f); [|done]. pose proof (keeps_quiet l) as Hq.
  by destruct (os_quiet l) as [l' [[]|e|]].
Qed.

Lemma keeps_loadSegmentEntries s : keeps_disk (loadSegmentEntries s).
Proof.
  apply keeps_bind; [apply keeps_get|intros l]. apply keeps_bind; [apply keeps_read|intros [data|]]; [|apply keeps_ret].
  apply keeps_bind; [apply keeps_lift|intros ps; apply keeps_ret].
Qed.

Lemma keeps_if {A} (b : bool) (m m' : io A) : keeps_disk m -> keeps_disk m' -> keeps_disk (if b then m else m').
Proof. by destruct b. Qed.

Lemma at_disk_self l n t : hw l = Fails n t -> at_disk (disk l) n t l = l.
Proof. intros Hw. by apply log_ext. Qed.

(** The files of some consecutive segments. *)
Lemma core_paths_slice l parts tl f a m g :
  core l parts tl f -> (a + m <= S (length parts))%nat ->
  g ∈ map path (take m (drop a (segments l)))
  <-> exists i, (a <= i < a + m)%nat /\ g = Seg (start (firstIndex l) (parts ++ [tl]) i).
Proof.
  intros Hc Ham. pose proof (core_length _ _ _ _ Hc) as Hlen. split.
  - intros (s & -> & (i & Hi)%list_elem_of_lookup)%list_elem_of_fmap.
    apply lookup_take_Some in Hi as [Hi Him]. rewrite lookup_drop in Hi.
    destruct (core_paths _ _ _ _ _ _ Hc Hi) as [E _]. apply lookup_lt_Some in Hi. exists (a + i)%nat.
    rewrite start_snoc by lia. split; [lia|done].
  - intros (i & Hi & ->). destruct (lookup_lt_is_Some_2 (segments l) i) as [s Hs]; [lia|].
    destruct (core_paths _ _ _ _ _ _ Hc Hs) as [E _]. rewrite start_snoc, <- E by lia.
    apply list_elem_of_fmap_2, list_elem_of_lookup. exists (i - a)%nat.
    rewrite lookup_take_lt, lookup_drop by lia. by replace (a + (i - a))%nat with i by lia.
Qed.

(** A change of the temporary file does not change the log. *)
Lemma dir_all_temp d d' first P :
  dir_all d first P -> (forall f, f <> Temp -> d' !! f = d !! f) -> dir_all d' first P.
Proof.
  intros [H0 Hp Hne Hf] Hd. split; [done| |done|].
  - intros k ds Hk. rewrite Hd by done. by apply Hp.
  - intros g Hg. destruct (decide (g = Temp)) as [->|HT]; [by left|]. rewrite Hd in Hg by done. by apply Hf.
Qed.

(** What [Open] finds after a crash: the log [es] from [first] on or the log
    [es'] from [first'] on, and the latter if the operation returned. *)
Definition recovers (o : Options) (run : Log * go unit) (first : Z) (es : list (list byte)) (first' : Z)
    (es' : list (list byte)) : Prop :=
  exists l', Open o (disk run.1) = (l', Ok tt)
    /\ ((run.2 <> Ok tt /\ wal_inv l' es /\ firstIndex l' = first) \/ (wal_inv l' es' /\ firstIndex l' = first')).

(** The crash of the file operations of a truncation, given what [load] makes
    of the directory in between and at the end. *)
Lemma replace_recovers (m : io unit) cl l1 n t parts tl buf tn i a b o first' es' :
  let P := parts ++ [tl] in
  let ss := take b (drop a (segments l1)) in
  core l1 parts tl (enc_all tl) -> hw l1 = Fails n t -> (a + b <= length P)%nat ->
  (forall j, tn <> Seg j) -> tn <> Temp -> Format o = BinaryFormat -> keeps_disk m ->
  (forall d' k, (k <= b)%nat -> d' !! tn = Some buf ->
     (forall j, (j < length P)%nat -> ~ (a <= j < a + k)%nat ->
        d' !! Seg (start (firstIndex l1) P j) = disk l1 !! Seg (start (firstIndex l1) P j)) ->
     (forall g, is_Some (d' !! g) -> g = tn \/ exists j, (j < length P)%nat /\ ~ (a <= j < a + k)%nat
        /\ g = Seg (start (firstIndex l1) P j)) ->
     exists l', Open o d' = (l', Ok tt) /\ wal_inv l' es' /\ firstIndex l' = first') ->
  (forall d', d' !! Seg i = Some buf ->
     (forall j, (j < length P)%nat -> ~ (a <= j < a + b)%nat -> start (firstIndex l1) P j <> i ->
        d' !! Seg (start (firstIndex l1) P j) = disk l1 !! Seg (start (firstIndex l1) P j)) ->
     (forall g, is_Some (d' !! g) -> g = Seg i \/ exists j, (j < length P)%nat /\ ~ (a <= j < a + b)%nat
        /\ g = Seg (start (firstIndex l1) P j)) ->
     exists l', Open o d' = (l', Ok tt) /\ wal_inv l' es' /\ firstIndex l' = first') ->
  recovers o ((_ ← ignore_err (write_temp buf); _ ← os_rename Temp tn; _ ← close_if cl; _ ← remove_segments ss;
               _ ← os_rename tn (Seg i); m) l1) (firstIndex l1) (concat P) first' es'.
Proof.
  intros P ss Hc Hw Hab H1 H2 Hf Hm Hmid Hend.
  pose proof (dir_log_all _ _ _ _ (core_dir _ _ _ Hc)) as Hd. fold P in Hd.
  assert (length P = S (length parts)) as HlP by (unfold P; rewrite length_app; simpl; lia).
  destruct (core_sub _ _ _ _ ss Hc) as (Hex & Hnd & Hnt).
  { etrans; [apply sublist_take|apply sublist_drop]. }
  pose proof (core_no_file _ _ _ _ tn Hc H1 H2) as Hnone.
  assert (forall k, (k <= b)%nat -> forall g, g ∈ map path (take k ss)
    <-> exists j, (a <= j < a + k)%nat /\ g = Seg (start (firstIndex l1) P j)) as Hpaths.
  { intros k Hk g. unfold ss. rewrite take_take, Nat.min_l by done. apply (core_paths_slice _ _ _ _ _ _ _ Hc). lia. }
  assert (forall j j', (j < length P)%nat -> (j' < length P)%nat ->
    start (firstIndex l1) P j = start (firstIndex l1) P j' -> j = j') as Hinj.
  { intros j j' Hj Hj' E. destruct (Nat.lt_trichotomy j j') as [?|[?|?]]; [|done|].
    - pose proof (all_start_lt _ _ _ j j' Hd ltac:(lia)). lia.
    - pose proof (all_start_lt _ _ _ j' j Hd ltac:(lia)). lia. }
  assert (forall k d' x, (k <= b)%nat ->
    (forall g, g <> x -> d' !! g = if decide (g = Temp \/ g ∈ map path (take k ss)) then None else disk l1 !! g) ->
    (forall j, (j < length P)%nat -> ~ (a <= j < a + k)%nat -> Seg (start (firstIndex l1) P j) <> x ->
       d' !! Seg (start (firstIndex l1) P j) = disk l1 !! Seg (start (firstIndex l1) P j))
    /\ (forall g, is_Some (d' !! g) -> g = x \/ exists j, (j < length P)%nat /\ ~ (a <= j < a + k)%nat
        /\ g = Seg (start (firstIndex l1) P j))) as Hlook.
  { intros k d' x Hk Hd'. split.
    - intros j Hj Hnot Hx. rewrite Hd', decide_False; [done| |done].
      intros [?|(j' & Hj' & [= E])%(Hpaths k Hk)]; [done|]. apply Hinj in E; [|lia..]. lia.
    - intros g Hg. destruct (decide (g = x)) as [->|Hx]; [by left|right]. rewrite Hd' in Hg by done.
      destruct (decide (g = Temp \/ g ∈ map path (take k ss))) as [|Hni]; [by destruct Hg|].
      destruct (all_files _ _ _ Hd g Hg) as [->|(j & Hj & ->)]; [by destruct Hni; left|].
      exists j. split_and!; [done| |done]. intros Hin. apply Hni. right. apply (Hpaths k Hk). by exists j. }
  assert (length ss <= b)%nat as Hlss by (unfold ss; rewrite length_take; lia).
  pose proof (replace_crash m cl (disk l1) n t l1 buf tn i ss H1 H2 Hnone Hex Hnd Hnt) as Hrep. cbv zeta in Hrep.
  rewrite at_disk_self in Hrep by done.
  destruct Hrep as [(l' & e & -> & Hd')|[(l' & e & k & -> & Hk & Hbuf & Hd')|(n' & d' & -> & Hbuf & Hd')]].
  - destruct (open_all (disk l') (firstIndex l1) P o) as (lo & Ho & Hi & Ef); [by eapply dir_all_temp|done|].
    exists lo. split; [done|]. left. by split_and!.
  - destruct (Hlook k (disk l') tn ltac:(lia) Hd') as [Hs Hg].
    destruct (Hmid (disk l') k) as (lo & Ho & Hi & Ef); [lia|done| |done|exists lo; split; [done|by right]].
    intros j Hj Hnot. apply Hs; [done..|]. intros E. by apply (H1 (start (firstIndex l1) P j)).
  - assert (take b ss = ss) as Hb by (by apply take_ge). rewrite <- Hb in Hd'.
    destruct (Hlook b d' (Seg i) ltac:(lia) Hd') as [Hs Hg].
    destruct (Hend d') as (lo & Ho & Hi & Ef); [done| |done|].
    { intros j Hj Hnot Hne. apply Hs; [done..|]. by intros [= E]. }
    exists lo. split; [|by right]. rewrite Hm. exact Ho.
Qed.

(** ** The theorems *)

Ltac keeps_tac :=
  unfold put_segment, reopen_tail, clearCache;
  repeat first
    [ apply keeps_get | apply keeps_ret | apply keeps_lift | apply keeps_fail | apply keeps_open
    | apply keeps_quiet | apply keeps_loadSegmentEntries
    | apply keeps_modify; intros ?; reflexivity | apply keeps_if | apply keeps_bind; [|intros ?] ].

Lemma guard_open_hw l es h {B} (m : io B) : wal_inv l es -> (_ ← guard_open; m) (set_hw h l) = m (set_hw h l).
Proof.
  intros (parts & tl & _ & Hc & _). destruct (core_open _ _ _ _ Hc) as [Ho1 Ho2].
  unfold guard_open. io_step. cbn [closed corrupt set_hw]. by rewrite Ho1, Ho2.
Qed.

Lemma concat_snoc {A} (parts : list (list A)) (tl : list A) : concat (parts ++ [tl]) = concat parts ++ tl.
Proof. rewrite concat_app. simpl. by rewrite app_nil_r. Qed.

(** The log before the operation, found again: the directory is the same. *)
Lemma recovers_same l0 l es o (r : go unit) parts tl first' es' :
  core l parts tl (enc_all tl) -> es = concat parts ++ tl -> disk l0 = disk l -> Format o = BinaryFormat ->
  r <> Ok tt \/ (es' = es /\ first' = firstIndex l) ->
  recovers o (l0, r) (firstIndex l) es first' es'.
Proof.
  intros Hc -> Ed Hf Hr. destruct (open_all (disk l) (firstIndex l) (parts ++ [tl]) o) as (lo & Ho & Hi & Ef); [|done|].
  { by apply dir_log_all, core_dir. }
  rewrite concat_snoc in Hi. exists lo. cbn [fst snd]. rewrite Ed. split; [done|]. destruct Hr as [Hr|[-> ->]]; [left|right]; by split_and!.
Qed.

Lemma unread_recovers l parts tl (m : io unit) o first' es' :
  unread l parts tl m -> Format o = BinaryFormat ->
  recovers o (m l) (firstIndex l) (concat parts ++ tl) first' es'.
Proof.
  intros (_ & l1 & -> & Hc & (_ & _ & _ & <- & _)) Hf. eapply recovers_same; [done..|by left].
Qed.

(** A truncation begins with reads only: one that fails ends it, and otherwise
    the crash is one of its second half. *)
Lemma truncateFront_crash l parts tl ix n t o :
  core l parts tl (enc_all tl) -> cached_below l (length parts) ->
  lastIndex l + 1 = firstIndex l + Z.of_nat (length (concat parts ++ tl)) -> firstIndex l < ix <= lastIndex l ->
  hw l = Fails n t -> Format o = BinaryFormat ->
  recovers o (truncateFront ix l) (firstIndex l) (concat parts ++ tl) ix
    (drop (Z.to_nat (ix - firstIndex l)) (concat parts ++ tl)).
Proof.
  intros Hc Hb Hlast Hix Hw Hf.
  destruct (truncateFront_reads l parts tl ix Hc Hb Hlast Hix)
    as [(l1 & k & s & ds & j & [Hc1 _ (A1 & A2 & A3 & A4 & A5 & A6 & A7 & A8) Hs Hds Hl (Hj & Eix & _ & Hkl) _] & ->)|Hun];
    [|by apply unread_recovers].
  rewrite Hw in A8. destruct A8 as (n1 & t1 & A8).
  destruct (entries_cut (firstIndex l) parts tl k ds j ix Hds Hj Hkl Eix) as [_ ->].
  pose proof (dir_log_all _ _ _ _ (core_dir _ _ _ Hc1)) as Hd.
  assert (ix = start (firstIndex l1) (parts ++ [tl]) k + Z.of_nat j) as Eix1 by (by rewrite A4, start_snoc).
  assert (length (parts ++ [tl]) = S (length parts)) as HlP by (rewrite length_app; simpl; lia).
  unfold replace_front. io_step. replace (Z.to_nat (Z.of_nat k + 1)) with (S k) by lia.
  rewrite <- concat_snoc, <- A4. change (take (S k) (segments l1)) with (take (S k) (drop 0 (segments l1))).
  eapply replace_recovers; [exact Hc1|exact A8|lia|done|done|done|keeps_tac| |].
  - intros d' m Hm Hbuf Hsame Hfiles. rewrite Eix1 in *.
    apply (open_start (disk l1) d' (firstIndex l1) _ k ds j m); try done.
    + intros i Hi. apply Hsame; lia.
    + intros g [->|(i & ? & ? & ->)]%Hfiles; [by left|right]. exists i. split; [lia|done].
  - intros d' Hbuf Hsame Hfiles. rewrite Eix1 in *.
    apply (open_all d' _ (drop j ds :: drop (S k) (parts ++ [tl]))); [|done].
    apply (front_dir (disk l1)); try done.
    + intros i Hi. apply Hsame; [lia..|]. pose proof (start_S (firstIndex l1) _ k ds Hds).
      pose proof (start_mono (firstIndex l1) (parts ++ [tl]) (S k) i ltac:(lia)). lia.
    + intros g [->|(i & ? & ? & ->)]%Hfiles; [by right; left|right; right]. exists i. split; [lia|done].
Qed.

Lemma truncateBack_crash l parts tl ix n t o :
  core l parts tl (enc_all tl) -> cached_below l (length parts) ->
  lastIndex l + 1 = firstIndex l + Z.of_nat (length (concat parts ++ tl)) -> firstIndex l <= ix < lastIndex l ->
  hw l = Fails n t -> Format o = BinaryFormat ->
  recovers o (truncateBack ix l) (firstIndex l) (concat parts ++ tl) (firstIndex l)
    (take (Z.to_nat (ix - firstIndex l + 1)) (concat parts ++ tl)).
Proof.
  intros Hc Hb Hlast Hix Hw Hf.
  destruct (truncateBack_reads l parts tl ix Hc Hb Hlast Hix)
    as [(l1 & k & s & ds & j & [Hc1 _ (A1 & A2 & A3 & A4 & A5 & A6 & A7 & A8) Hs Hds Hl (Hj & Eix & Ei & Hkl) _] & ->)|Hun];
    [|by apply unread_recovers].
  rewrite Hw in A8. destruct A8 as (n1 & t1 & A8).
  destruct (entries_cut (firstIndex l) parts tl k ds j ix Hds Hj Hkl Eix) as [-> _].
  pose proof (dir_log_all _ _ _ _ (core_dir _ _ _ Hc1)) as Hd. pose proof (core_length _ _ _ _ Hc1) as Hlen.
  assert (index s = start (firstIndex l1) (parts ++ [tl]) k) as Ei1 by (by rewrite A4, start_snoc).
  assert (length (parts ++ [tl]) = S (length parts)) as HlP by (rewrite length_app; simpl; lia).
  rewrite <- (take_app_le parts [tl] k) by lia.
  unfold replace_back. io_step. rewrite !Nat2Z.id, <- concat_snoc, <- A4.
  rewrite <- (take_ge (drop k (segments l1)) (S (length parts) - k)) by (rewrite length_drop; lia).
  eapply replace_recovers; [exact Hc1|exact A8|lia|done|done|done|keeps_tac| |].
  - intros d' m Hm Hbuf Hsame Hfiles. rewrite Ei1 in *.
    apply (open_end (disk l1) d' (firstIndex l1) _ k ds j m); try done; [lia| |].
    + intros i Hi. apply Hsame; lia.
    + intros g [->|(i & ? & ? & ->)]%Hfiles; [by left|right]. exists i. split; [lia|done].
  - intros d' Hbuf Hsame Hfiles. rewrite Ei1 in *. rewrite <- concat_snoc.
    apply (open_all d' (firstIndex l1)); [|done].
    apply (back_dir (disk l1)); try done.
    + intros i Hi. pose proof (all_start_lt _ _ _ i k Hd ltac:(lia)). apply Hsame; lia.
    + intros g [->|(i & ? & ? & ->)]%Hfiles; [right; exists k; split; [lia|done]|right]. exists i. split; [lia|done].
Qed.

(** C27. The disk fails for good at any call of a [TruncateFront] ([n] calls go
    through, the next may write [t] bytes of what it was given, and no call
    after that does anything): [Open] on what is left finds a log, and it is
    the one before the truncation, if that did not report success, or the
    truncated one, under the right indices either way. *)
Theorem TruncateFront_crash_safe l es ix n t o :
  wal_inv l es -> firstIndex l <= ix <= lastIndex l -> Format o = BinaryFormat ->
  recovers o (TruncateFront ix (set_hw (Fails n t) l)) (firstIndex l) es
    ix (drop (Z.to_nat (ix - firstIndex l)) es).
Proof.
  intros Hinv Hix Hf. unfold TruncateFront. rewrite (guard_open_hw l es) by done.
  destruct (decide (ix = firstIndex l)) as [->|Hne].
  - rewrite Z.sub_diag, drop_0. pose proof Hinv as (parts & tl & Ees & Hc & _). pose proof (core_first _ _ _ _ Hc).
    pose proof (truncateFront_whole (set_hw (Fails n t) l) ltac:(simpl; lia)) as Ht. cbn [firstIndex set_hw] in Ht.
    rewrite Ht. eapply recovers_same; [done..|by right].
  - destruct Hinv as (parts & tl & -> & Hc & Hb & Hlast & _).
    apply (truncateFront_crash (set_hw (Fails n t) l) parts tl ix n t o); try done; [by apply core_hw|simpl; lia].
Qed.

(** C28. The same of [TruncateBack]: after a crash at any of its calls, [Open]
    finds the log as it was, if the truncation did not report success, or
    without the entries after [ix]. *)
Theorem TruncateBack_crash_safe l es ix n t o :
  wal_inv l es -> firstIndex l <= ix <= lastIndex l -> Format o = BinaryFormat ->
  recovers o (TruncateBack ix (set_hw (Fails n t) l)) (firstIndex l) es
    (firstIndex l) (take (Z.to_nat (ix - firstIndex l + 1)) es).
Proof.
  intros Hinv Hix Hf. unfold TruncateBack. rewrite (guard_open_hw l es) by done.
  destruct (decide (ix = lastIndex l)) as [->|Hne].
  - pose proof Hinv as (parts & tl & Ees & Hc & _ & El & _). pose proof (core_first _ _ _ _ Hc).
    rewrite take_ge by lia.
    pose proof (truncateBack_whole (set_hw (Fails n t) l) ltac:(simpl; lia) ltac:(simpl; lia)) as Ht.
    cbn [lastIndex set_hw] in Ht. rewrite Ht. eapply recovers_same; [done..|by right].
  - destruct Hinv as (parts & tl & -> & Hc & Hb & Hlast & _).
    apply (truncateBack_crash (set_hw (Fails n t) l) parts tl ix n t o); try done; [by apply core_hw|simpl; lia].
Qed.

(** ** A write that is cut short *)

(** A list between [es] and [es ++ all]. *)
Lemma prefix_take {A} (es all ds : list A) :
  es `prefix_of` ds -> ds `prefix_of` es ++ all -> exists m, ds = es ++ take m all.
Proof.
  intros [e ->] [rest E]. rewrite <- app_assoc in E. apply app_inv_head in E as ->.
  exists (length e). by rewrite take_app_length.
Qed.

(** A part of an entry is not an entry. *)
Lemma loadNext_short (x : list byte) k : small x -> (k < length (enc x))%nat -> loadNextBinaryEntry (take k (enc x)) = Err ErrCorrupt.
Proof.
  intros Hd Hk. destruct (enc_eq x Hd) as (n & Hn & E & Hp & Hu). rewrite E in *. unfold loadNextBinaryEntry.
  destruct (decide (k < length n)%nat) as [Hlt|Hge].
  - by rewrite take_app_le, (Uvarint_short _ _ _ Hn) by lia.
  - rewrite take_app_ge, Hu by lia. rewrite length_app in Hk. rewrite zlen_app.
    destruct (Z.leb_spec (zlen n) 0); [done|].
    destruct (Z.ltb_spec (zlen n + zlen (take (k - length n) x) - zlen n) (zlen x)) as [|Hle]; [done|].
    unfold zlen in Hle. rewrite length_take in Hle. lia.
Qed.

Lemma load_positions_short ds (x : list byte) k fuel p :
  Forall small ds -> small x -> (0 < k < length (enc x))%nat -> (length (enc_all ds) < fuel)%nat ->
  load_positions fuel BinaryFormat (enc_all ds ++ take k (enc x)) p = Err ErrCorrupt.
Proof.
  intros Hs Hd Hk. revert fuel p. induction Hs as [|d' ds Hd' Hs IH]; intros fuel p Hf; (destruct fuel as [|fuel]; [simpl in Hf; lia|]).
  - change (enc_all [] ++ take k (enc x)) with (take k (enc x)). cbn [load_positions loadNextEntry].
    rewrite loadNext_short by (done || lia). destruct (Z.eqb_spec (zlen (take k (enc x))) 0) as [E|]; [|done].
    unfold zlen in E. rewrite length_take in E. lia.
  - unfold enc_all in *. cbn [map concat] in *. rewrite length_app in Hf. pose proof (enc_pos d' Hd') as Hp. unfold zlen in Hp.
    rewrite <- app_assoc, load_positions_step, IH by (done || lia). done.
Qed.

(** Some bytes of a list of entries are some entries and a part of the next. *)
Lemma enc_all_cut ds k :
  exists m, take k (enc_all ds) = enc_all (take m ds)
  \/ exists x j, ds !! m = Some x /\ (0 < j < length (enc x))%nat /\ take k (enc_all ds) = enc_all (take m ds) ++ take j (enc x).
Proof.
  revert k. induction ds as [|d ds IH]; intros k; [exists 0%nat; left; by destruct k|].
  change (enc_all (d :: ds)) with (enc d ++ enc_all ds).
  destruct (decide (k = 0)%nat) as [->|H0]; [exists 0%nat; by left|].
  destruct (decide (k < length (enc d))%nat) as [Hlt|Hge].
  - exists 0%nat. right. exists d, k. rewrite take_app_le by lia. split_and!; [done|lia..|done].
  - destruct (IH (k - length (enc d))%nat) as (m & Hm). exists (S m). rewrite take_app_ge by lia.
    change (enc_all (take (S m) (d :: ds))) with (enc d ++ enc_all (take m ds)).
    destruct Hm as [->|(d' & j & Hd' & Hj & ->)]; [by left|right]. exists d', j. by rewrite <- app_assoc.
Qed.

Lemma ReadDir_insert d f c c' : d !! f = Some c -> ReadDir (<[f := c']> d) = ReadDir d.
Proof.
  intros Hf. apply ReadDir_names.
  - apply Sorted_StronglySorted; [apply _|]. apply Sorted_merge_sort, _.
  - unfold ReadDir. rewrite merge_sort_Permutation. apply NoDup_fst_map_to_list.
  - intros g. unfold ReadDir. rewrite merge_sort_Permutation, list_elem_of_fmap, lookup_insert_is_Some'. split.
    + intros ([h x] & -> & Hin%elem_of_map_to_list). right. simpl. eauto.
    + intros [<-|[x Hx]]; [exists (f, c)|exists (g, x)]; by rewrite elem_of_map_to_list.
Qed.

(** A tail whose file ends in a part of an entry: [Open] refuses the log. *)
Lemma open_short d first parts ds x k o :
  let f := Seg (start first parts (length parts)) in
  dir_log (<[f := enc_all ds]> d) first parts ds -> d !! f = Some (enc_all ds ++ take k (enc x)) ->
  small x -> (0 < k < length (enc x))%nat -> Format o = BinaryFormat -> (Open o d).2 = Err ErrCorrupt.
Proof.
  intros f Hd Hf Hx Hk Ho. pose proof (dir_first _ _ _ _ Hd) as H0. destruct (dir_tail _ _ _ _ Hd) as [_ Hs].
  unfold Open, load. io_step. cbn [disk].
  rewrite <- (ReadDir_insert d f _ (enc_all ds) Hf), (dir_listing _ _ _ _ Hd), scan_segments, scan_temp by (by apply starts_pos).
  cbn [app]. io_step.
  destruct (Z.eqb_spec (zlen (map fresh (starts first parts))) 0) as [E|_].
  { unfold zlen in E. rewrite length_map, length_starts in E. lia. }
  unfold load_start, load_end. cbn [negb Z.eqb Pos.eqb]. io_step. unfold load_open. io_step.
  cbn [segments set_segments]. rewrite (proj2 (idx_Ok _ 0 (fresh (start first parts 0)))).
  2: { split; [lia|]. by rewrite list_lookup_fmap, starts_lookup by lia. }
  io_step. unfold tail. cbn [segments set_segments].
  rewrite (proj2 (idx_Ok _ (zlen (map fresh (starts first parts)) - 1) (fresh (start first parts (length parts))))).
  2: { unfold zlen. rewrite length_map, length_starts. split; [lia|]. replace (Z.to_nat _) with (length parts) by lia.
       by rewrite list_lookup_fmap, starts_lookup by lia. }
  io_step. unfold os_open. io_step. cbn [disk set_firstIndex set_segments path fresh]. fold f. rewrite Hf, run_call by done. io_step.
  rewrite run_quiet by done. unfold loadSegmentEntries. io_step. unfold os_read, mbind, io_bind.
  cbn [disk set_sfile set_firstIndex set_segments path fresh opts]. fold f. rewrite Hf. unfold os_quiet, os_call.
  cbn [hw set_sfile set_firstIndex set_segments]. unfold lift.
  replace (Format (fill_options o)) with BinaryFormat by (by rewrite <- Ho).
  rewrite load_positions_short; [done|done|done|done|]. rewrite length_app, length_take. lia.
Qed.

(** The directory of the log [es] with some, not all, of the bytes of a next
    entry [x] at the end of the tail's file. *)
Definition torn_after d (first : Z) (es : list (list byte)) (x : list byte) : Prop :=
  exists parts tl k, let f := Seg (start first parts (length parts)) in
    es = concat parts ++ tl /\ dir_log (<[f := enc_all tl]> d) first parts tl
    /\ (0 < k < length (enc x))%nat /\ d !! f = Some (enc_all tl ++ take k (enc x)).

(** What a stopped write leaves. *)
Lemma stopped_opens l es all (r : Log * go unit) o :
  stops r l es (es ++ all) -> Format o = BinaryFormat ->
  r.2 = Err EIO
  /\ exists m,
      (exists l', Open o (disk r.1) = (l', Ok tt) /\ wal_inv l' (es ++ take m all) /\ firstIndex l' = firstIndex l)
      \/ exists x, all !! m = Some x /\ torn_after (disk r.1) (firstIndex l) (es ++ take m all) x
           /\ (Open o (disk r.1)).2 = Err ErrCorrupt.
Proof.
  intros (_ & l' & parts & done & pend & k & -> & Ef & Hc & [e He] & [rest Hrest]) Hf. split; [done|]. cbn [fst].
  destruct (core_tail _ _ _ _ Hc) as (Ht & Hsm). apply Forall_app in Hsm as [Hs1 Hs2].
  assert (tail_start l' parts = start (firstIndex l') parts (length parts)) as Ets by (unfold tail_start, start; by rewrite firstn_all).
  rewrite Ets in Ht. destruct (enc_all_cut pend k) as (m & Hcut).
  assert (Forall small (done ++ take m pend)) as Hs3 by (apply Forall_app; split; [done|by apply Forall_take]).
  assert (forall d, d !! Seg (start (firstIndex l') parts (length parts)) = Some (enc_all (done ++ take m pend)) ->
    (forall g, g <> Seg (start (firstIndex l') parts (length parts)) -> d !! g = disk l' !! g) ->
    dir_log d (firstIndex l') parts (done ++ take m pend)) as Hdir.
  { intros d Hd1 Hd2. by eapply core_dir_tail. }
  assert (all = e ++ pend ++ rest) as ->.
  { rewrite app_assoc, He, <- !app_assoc in Hrest. by apply app_inv_head in Hrest. }
  assert (es ++ e ++ take m pend = concat parts ++ done ++ take m pend) as Etake by (by rewrite !app_assoc, He).
  destruct Hcut as [Ek|(x & j & Hx & Hj & Ek)]; rewrite Ek in Ht.
  - destruct (open_dir (disk l') (firstIndex l') parts (done ++ take m pend) o) as (lo & Ho & Hi & Efo); [|done|].
    { apply Hdir; [|done]. by rewrite enc_all_app. }
    exists (length (e ++ take m pend)). left. exists lo. split_and!; [done| |congruence].
    rewrite <- (take_drop m pend) at 2. rewrite <- !app_assoc, (app_assoc e), take_app_length, Etake. done.
  - pose proof (lookup_lt_Some _ _ _ Hx) as Hm. exists (length e + m)%nat. right. exists x.
    assert (take (length e + m) (e ++ pend ++ rest) = e ++ take m pend) as -> by (by rewrite take_app_add, take_app_le by lia).
    rewrite lookup_app_r, Nat.add_comm, Nat.add_sub, lookup_app_l by lia. rewrite Etake, <- Ef. split; [done|].
    assert (disk l' !! Seg (start (firstIndex l') parts (length parts)) = Some (enc_all (done ++ take m pend) ++ take j (enc x)))
      as Ht' by (by rewrite enc_all_app, <- app_assoc).
    assert (dir_log (<[Seg (start (firstIndex l') parts (length parts)) := enc_all (done ++ take m pend)]> (disk l'))
      (firstIndex l') parts (done ++ take m pend)) as Hdl.
    { apply Hdir; [apply lookup_insert_eq|]. intros g Hg. by apply lookup_insert_ne. }
    split; [by exists parts, (done ++ take m pend), j|].
    apply (open_short (disk l') (firstIndex l') parts (done ++ take m pend) x j); try done.
    rewrite Forall_lookup in Hs2. by apply (Hs2 m).
Qed.

(** C26. A batch written to a disk in any state of health, of any entries and
    over any number of segments: if it returns, [Open] on its directory finds
    the log with the whole batch.  If not, it has failed with the disk's error,
    and for some [m] either [Open] finds the log with the first [m] entries of
    the batch and none of the older ones missing, or the directory is that of
    this log with some but not all bytes of the next entry of the batch after
    it, and then, and only then, [Open] reports [ErrCorrupt].  Bytes written are
    taken to be on disk, synced or not. *)
Theorem WriteBatch_crash_prefix l es bd h o :
  wal_inv l es -> Forall small bd -> bd <> [] -> Format o = BinaryFormat ->
  let run := WriteBatch (mkBatch (batch_entries (lastIndex l + 1) bd) (concat bd)) (set_hw h l) in
  exists m,
    ((run.2 = Ok tt /\ m = length bd \/ run.2 = Err EIO)
     /\ exists l', Open o (disk run.1) = (l', Ok tt) /\ wal_inv l' (es ++ take m bd) /\ firstIndex l' = firstIndex l)
    \/ (run.2 = Err EIO
        /\ exists x, bd !! m = Some x /\ torn_after (disk run.1) (firstIndex l) (es ++ take m bd) x
        /\ (Open o (disk run.1)).2 = Err ErrCorrupt).
Proof.
  intros Hinv Hs Hne Hf run. unfold run. clear run. unfold WriteBatch. rewrite (guard_open_hw l es) by done.
  destruct (Z.eqb_spec (zlen (entries (mkBatch (batch_entries (lastIndex l + 1) bd) (concat bd)))) 0) as [E|_].
  { unfold zlen in E. cbn [entries] in E. rewrite length_batch_entries in E. by destruct bd. }
  change (lastIndex l) with (lastIndex (set_hw h l)).
  destruct (writeBatch_outcome (set_hw h l) es bd) as [(l' & -> & Hr & Ef & _)|Hstop]; [by apply at_rest_hw, wal_inv_rest|done|done| |].
  - exists (length bd). left. split; [by left|]. rewrite firstn_all.
    destruct Hr as (parts & tl & Ees & Hc & _). apply core_dir in Hc. rewrite Ees.
    destruct (open_dir _ _ _ _ o Hc Hf) as (lo & Ho & Hi & Efo). exists lo. split_and!; [exact Ho|done|rewrite Efo; exact Ef].
  - apply (stopped_opens _ _ _ _ o) in Hstop as (Hr & m & [(lo & Ho & Hi & Ef)|(x & Hx & Ht & Hbad)]); [| |done]; exists m.
    + left. split; [by right|]. exists lo. split_and!; [done|done|exact Ef].
    + right. split; [done|]. by exists x.
Qed.

End crash.

(** Three entries, and a disk that fails during the second write. *)
Lemma WriteBatch_crash_prefix_witness :
  exists l, wal_inv l three_words /\
    let run := WriteBatch (mkBatch (batch_entries 4 [word x64; word x65]) (word x64 ++ word x65)) (set_hw (Fails 2 4) l) in
    exists m,
      ((run.2 = Ok tt /\ m = 2%nat \/ run.2 = Err EIO)
       /\ exists l', Open tiny (disk run.1) = (l', Ok tt) /\ wal_inv l' (three_words ++ take m [word x64; word x65])
         /\ firstIndex l' = 1)
      \/ (run.2 = Err EIO
          /\ exists x, [word x64; word x65] !! m = Some x /\ torn_after (disk run.1) 1 (three_words ++ take m [word x64; word x65]) x
          /\ (Open tiny (disk run.1)).2 = Err ErrCorrupt).
Proof.
  destruct three_words_log as (l & Hinv & Ef & El). exists l. split; [done|].
  pose proof (WriteBatch_crash_prefix l three_words [word x64; word x65] (Fails 2 4) tiny Hinv
    ltac:(repeat constructor; apply word_small) ltac:(done) eq_refl) as H.
  rewrite Ef, El in H. exact H.
Defined.

(** The disk fails at the rename to the START segment's final name: the log is
    the truncated one. *)
Lemma TruncateFront_crash_safe_witness :
  exists l, wal_inv l three_words
    /\ recovers tiny (TruncateFront 2 (set_hw (Fails 4 0) l)) 1 three_words 2 [word x62; word x63].
Proof.
  destruct three_words_log as (l & Hinv & Ef & El). exists l. split; [done|].
  pose proof (TruncateFront_crash_safe l three_words 2 4 0 tiny Hinv ltac:(lia) eq_refl) as H.
  rewrite Ef in H. exact H.
Defined.

Lemma TruncateBack_crash_safe_witness :
  exists l, wal_inv l three_words
    /\ recovers tiny (TruncateBack 2 (set_hw (Fails 1 0) l)) 1 three_words 1 [word x61; word x62].
Proof.
  destruct three_words_log as (l & Hinv & Ef & El). exists l. split; [done|].
  pose proof (TruncateBack_crash_safe l three_words 2 1 0 tiny Hinv ltac:(lia) eq_refl) as H.
  rewrite Ef in H. exact H.
Defined.

(** ** What the disk can still break *)

(** A log of three entries on a disk that fails next. *)
Definition failing (h : health) : Log :=
  let l0 := (Open tiny ∅).1 in
  set_hw h (WriteBatch (foldl (fun b x => Batch_Write b x.1 x.2) Batch_Clear
    [(1, word x61); (2, word x62); (3, word x63)]) l0).1.

(** The error of writing the temporary file is lost: when only that write
    fails, [TruncateFront] reports success, the entry [ix] is gone from the
    disk, and reading it panics. *)
Theorem temp_error_loses_entries :
  let l := failing (FailsOnce 2 0) in
  let run := TruncateFront 2 l in
  (Read 2 l).2 = Ok (word x62)
  /\ run.2 = Ok tt /\ disk run.1 !! Seg 2 = Some [] /\ firstIndex run.1 = 2 /\ (Read 2 run.1).2 = Panic.
Proof. by vm_compute. Qed.

(** A segment file that cannot be read is taken for one without entries, and
    reading an index in it panics. *)
Theorem read_error_panics :
  (Read 2 (failing Healthy)).2 = Ok (word x62) /\ (Read 2 (failing (FailsOnce 0 0))).2 = Panic.
Proof. by vm_compute. Qed.

(** A crash in the middle of an entry's bytes leaves a log that [Open] refuses
    with [ErrCorrupt], the entries before it included. *)
Theorem torn_write_refused :
  let run := Write 4 (word x64) (failing (Fails 0 2)) in
  run.2 = Err EIO /\ (Open tiny (disk run.1)).2 = Err ErrCorrupt
  /\ (Open tiny (disk (failing Healthy))).2 = Ok tt.
Proof. by vm_compute. Qed.

(** An error after the rename that decides a truncation is returned as it is:
    the log is not marked corrupt, and goes on serving its old state, although
    the directory holds the truncated log already. *)
Theorem failed_truncation_not_corrupt :
  let run := TruncateFront 2 (failing (FailsOnce 6 0)) in
  run.2 = Err EIO /\ corrupt run.1 = false /\ firstIndex run.1 = 1
  /\ firstIndex (Open tiny (disk run.1)).1 = 2.
Proof. by vm_compute. Qed.

(** A failed write leaves its entry in the buffers of the tail: when a write of
    the same index then succeeds, reading that index gives the data of the
    failed write, and the data on disk, which is that of the second, only after
    the log is opened again. *)
Theorem failed_write_shadows :
  let run := Write 4 (word x64) (failing (FailsOnce 0 0)) in
  let again := Write 4 (word x65) run.1 in
  run.2 = Err EIO /\ again.2 = Ok tt /\ lastIndex again.1 = 4
  /\ (Read 4 again.1).2 = Ok (word x64)
  /\ (Read 4 (Open tiny (disk again.1)).1).2 = Ok (word x65).
Proof. by vm_compute. Qed.
