(* ===== verification/Persister.v ===== *)
(** * Persister: the persister of a node (persister/persister.go)

    The persister keeps three things on disk: a state file with the vote, the
    term, the commit index and the bounds of the log (an [IndexState]), the
    entries of the log in a write-ahead log (Wal.v), and snapshots, one file
    each, in a directory (persister/snapshotter.go).  [Save] writes the state
    file itself and puts the changed entries on a channel; a goroutine takes
    them off the channel and writes them to the log ([saveLogToDisk]); another
    one saves the snapshot from time to time ([saveSnapClock]).  One function
    per critical section of the persister's mutex.

    Outside the sources: the protobuf encoding of the three messages
    (google.golang.org/protobuf), a type class with its round trip as law.  An
    entry whose strings are not UTF-8 cannot be encoded, so encoding an entry
    is partial.  [log.Fatal] and [panic] both end the process and are [Panic]
    here.  [saveState] is one step that succeeds: here a crash falls between two
    critical sections, and PersisterSpec.v adds the crashes inside a write of
    the state file, which truncates it first.  Failures of the other file
    operations are the subject of WalCrash.v (the write-ahead log) and
    SnapFiles.v (the snapshot files).

    Each persister has a snapshot directory of its own here.  In the code the
    state file and the log carry the number of the node in their names but the
    snapshot directory is ./snap for all of them, so the model is that of one
    node per working directory. *)

From stdpp Require Import sorting.
From S2P Require Import Prelude Types Store WalJson Wal.

(** ** hash/crc32, the IEEE polynomial *)

Definition crc_bit (c : Z) : Z :=
  if Z.testbit c 0 then Z.lxor (Z.shiftr c 1) 3988292384 else Z.shiftr c 1.

Definition crc_byte (c : Z) (b : byte) : Z :=
  Nat.iter 8 crc_bit (Z.lxor c (byte_to_Z b)).

Definition ChecksumIEEE (data : list byte) : Z :=
  Z.lxor (foldl crc_byte 4294967295 data) 4294967295.

Arguments ChecksumIEEE : simpl never.

(** The check value of the CRC catalogue, for the digits 1 to 9. *)
Example crc_check :
  ChecksumIEEE [x31; x32; x33; x34; x35; x36; x37; x38; x39] = 3421780262.
Proof. by vm_compute. Qed.

Module PS.

(** ** Data *)

Record IndexState := mkIndexState {
  FirstIndex : Z;
  LastIndex : Z;
  LastCommitIndex : Z;
  RaftSate : State
}.

Record Snapshot := mkSnapshot {
  RowData : list byte;
  SnapLastIndex : Z;
  SnapLastTerm : Z
}.

#[export] Instance Snapshot_eq_dec : EqDecision Snapshot.
Proof. solve_decision. Defined.

Definition IsEmptySnap (sp : Snapshot) : bool := SnapLastIndex sp =? 0.

Record logEntry := mkLogEntry {
  Index : Z;
  EntryBytes : list byte
}.

(** The encodings of the messages. *)
Class ProtoCodec := {
  Marshal_Entry : Entry -> option (list byte);
  Unmarshal_Entry : list byte -> option Entry;
  Marshal_IndexState : IndexState -> list byte;
  Unmarshal_IndexState : list byte -> option IndexState;
  Marshal_Snapshot : Snapshot -> list byte;
  Unmarshal_Snapshot : list byte -> option Snapshot
}.

(** An [IndexState] always has its state set, so its encoding is not empty. *)
Class ProtoCodecLaws `{ProtoCodec} := {
  entry_decodes e b : Marshal_Entry e = Some b -> Unmarshal_Entry b = Some e;
  state_decodes s : Unmarshal_IndexState (Marshal_IndexState s) = Some s;
  state_nonempty s : Marshal_IndexState s <> [];
  snapshot_decodes s : Unmarshal_Snapshot (Marshal_Snapshot s) = Some s
}.

Section persister.
Context {gjson : Gjson} {lru : LRU} {codec : ProtoCodec}.

(** [checkSum], [state], [snapshot] and the two channel fields are memory;
    [statFile], [snapDir] and the directory of [log] are the disk.  A snapshot
    file is named after its term and index.  [saving] is the entry the saving
    goroutine has taken off the channel. *)
Record Persister := mkPersister {
  state : IndexState;
  snapshot : Snapshot;
  LastIdx : Z;                       (* snapshotter.LastIdx *)
  log : Log;
  entryCh : list logEntry;
  capCh : Z;                         (* the channel's capacity *)
  saving : option logEntry;
  checkSum : list Z;
  statFile : option (list byte);
  snapDir : gmap (Z * Z) (list byte)
}.

Definition set_state s p := mkPersister s (snapshot p) (LastIdx p) (log p) (entryCh p) (capCh p)
  (saving p) (checkSum p) (statFile p) (snapDir p).
Definition set_snapshot s p := mkPersister (state p) s (LastIdx p) (log p) (entryCh p) (capCh p)
  (saving p) (checkSum p) (statFile p) (snapDir p).
Definition set_LastIdx i p := mkPersister (state p) (snapshot p) i (log p) (entryCh p) (capCh p)
  (saving p) (checkSum p) (statFile p) (snapDir p).
Definition set_log l p := mkPersister (state p) (snapshot p) (LastIdx p) l (entryCh p) (capCh p)
  (saving p) (checkSum p) (statFile p) (snapDir p).
Definition set_entryCh q p := mkPersister (state p) (snapshot p) (LastIdx p) (log p) q (capCh p)
  (saving p) (checkSum p) (statFile p) (snapDir p).
Definition set_capCh n p := mkPersister (state p) (snapshot p) (LastIdx p) (log p) (entryCh p) n
  (saving p) (checkSum p) (statFile p) (snapDir p).
Definition set_saving e p := mkPersister (state p) (snapshot p) (LastIdx p) (log p) (entryCh p) (capCh p)
  e (checkSum p) (statFile p) (snapDir p).
Definition set_checkSum c p := mkPersister (state p) (snapshot p) (LastIdx p) (log p) (entryCh p) (capCh p)
  (saving p) c (statFile p) (snapDir p).
Definition set_statFile f p := mkPersister (state p) (snapshot p) (LastIdx p) (log p) (entryCh p) (capCh p)
  (saving p) (checkSum p) f (snapDir p).
Definition set_snapDir d p := mkPersister (state p) (snapshot p) (LastIdx p) (log p) (entryCh p) (capCh p)
  (saving p) (checkSum p) (statFile p) d.

Arguments set_state s p /.
Arguments set_snapshot s p /.
Arguments set_LastIdx i p /.
Arguments set_log l p /.
Arguments set_entryCh q p /.
Arguments set_capCh n p /.
Arguments set_saving e p /.
Arguments set_checkSum c p /.
Arguments set_statFile f p /.
Arguments set_snapDir d p /.

Definition set_FirstIndex i s := mkIndexState i (LastIndex s) (LastCommitIndex s) (RaftSate s).
Definition set_LastIndex i s := mkIndexState (FirstIndex s) i (LastCommitIndex s) (RaftSate s).

(** ** The state file *)

Definition saveState (p : Persister) : Persister :=
  set_statFile (Some (Marshal_IndexState (state p))) p.

Definition loadState (p : Persister) : go Persister :=
  let b := default [] (statFile p) in
  let p := match statFile p with
           | None => set_state (set_FirstIndex 1 (state p)) (set_statFile (Some []) p)
           | Some _ => p
           end in
  if 0 <? zlen b then
    match Unmarshal_IndexState b with
    | Some s => mret (set_state s p)
    | None => Panic
    end
  else mret p.

(** ** Snapshot files *)

(** Names sort by term and index, both printed with sixteen hexadecimal
    digits. *)
Definition snap_ge (a b : Z * Z) : Prop := b.1 < a.1 \/ (b.1 = a.1 /\ b.2 <= a.2).

#[export] Instance snap_ge_dec a b : Decision (snap_ge a b).
Proof. unfold snap_ge. apply _. Defined.

Definition snapNames (d : gmap (Z * Z) (list byte)) : list (Z * Z) :=
  merge_sort snap_ge (map_to_list d).*1.

(** [Read] of one file: empty and malformed files are errors. *)
Definition readSnap (b : list byte) : option Snapshot :=
  if zlen b =? 0 then None else Unmarshal_Snapshot b.

(** [Load]: the latest file that can be read; the ones before it are renamed
    away as broken. *)
Fixpoint loadSnaps (names : list (Z * Z)) (d : gmap (Z * Z) (list byte))
    : option Snapshot * gmap (Z * Z) (list byte) :=
  match names with
  | [] => (None, d)
  | n :: names =>
      match d !! n ≫= readSnap with
      | Some s => (Some s, d)
      | None => loadSnaps names (delete n d)
      end
  end.

Definition SaveSnap (s : Snapshot) (d : gmap (Z * Z) (list byte)) : gmap (Z * Z) (list byte) :=
  if IsEmptySnap s then d else <[(SnapLastTerm s, SnapLastIndex s) := Marshal_Snapshot s]> d.

(** ** Start-up *)

(** The checksums of the entries [i] to [last], stored from [i - first] on. *)
Fixpoint load_sums (n : nat) (i first : Z) (l : Log) (sums : list Z) : go (Log * list Z) :=
  match n with
  | O => mret (l, sums)
  | S n =>
      match Read i l with
      | (l, Ok b) =>
          _ ← idx sums (i - first);
          load_sums n (i + 1) first l (<[Z.to_nat (i - first) := ChecksumIEEE b]> sums)
      | _ => Panic
      end
  end.

Definition zero_Entry : Entry := mkEntry 0 None.

Definition initFromDisk (p : Persister) : go Persister :=
  let '(snap, d) := loadSnaps (snapNames (snapDir p)) (snapDir p) in
  let p := set_snapDir d (set_snapshot (default (mkSnapshot [] 0 0) snap) p) in
  p ← loadState p;
  let n := LastIndex (state p) - FirstIndex (state p) + 1 in
  let sums := replicate (Z.to_nat (Z.max 16 n)) 0 in
  let p := set_capCh (Z.max 100 n) p in
  if LastIndex (state p) =? -1 then
    match Marshal_Entry zero_Entry with
    | Some b =>
        mret (set_state (set_LastIndex 0 (state p))
               (set_checkSum (<[0%nat := ChecksumIEEE b]> sums) p))
    | None => Panic
    end
  else
    let i := Z.max (FirstIndex (state p)) 1 in
    '(l, sums) ← load_sums (Z.to_nat (LastIndex (state p) - i + 1)) i (FirstIndex (state p)) (log p) sums;
    mret (set_checkSum sums (set_log l p)).

(** [MakePersister] on a disk: the log's directory, the state file and the
    snapshot files. *)
Definition MakePersister (wal : gmap fname (list byte)) (stat : option (list byte))
    (snaps : gmap (Z * Z) (list byte)) : go Persister :=
  match Open DefaultOptions wal with
  | (l, Ok _) =>
      initFromDisk (mkPersister (mkIndexState 0 (-1) 0 (mkState (-1) 0)) (mkSnapshot [] 0 0) 0 l
                      [] 0 None [] stat snaps)
  | _ => Panic
  end.

(** A persister made again from the disk of another one: after a crash, and
    for [Copy]. *)
Definition restart (p : Persister) : go Persister :=
  MakePersister (disk (log p)) (statFile p) (snapDir p).

Definition Copy (p : Persister) : go Persister :=
  np ← restart p; mret (set_snapshot (snapshot p) np).

(** ** Reading *)

(** The entries from [i] on, [n] of them. *)
Fixpoint read_entries (n : nat) (i : Z) (l : Log) : go (Log * list (option Entry)) :=
  match n with
  | O => mret (l, [])
  | S n =>
      match Read i l with
      | (l, Ok b) =>
          match Unmarshal_Entry b with
          | Some e => '(l, es) ← read_entries n (i + 1) l; mret (l, Some e :: es)
          | None => Panic
          end
      | _ => Panic
      end
  end.

(** A slice cannot be made with a negative capacity. *)
Definition ReadRaftState (p : Persister) : go (Persister * (list (option Entry) * Z * Z * Z)) :=
  let first := FirstIndex (state p) in
  let last := LastIndex (state p) in
  _ ← (if last - first + 1 <? 0 then Panic else mret tt);
  let n := if 0 <? last then Z.to_nat (last - first + 1) else 0%nat in
  '(l, es) ← read_entries n first (log p);
  let st := RaftSate (state p) in
  mret (set_log l p, (Some (mkEntry (Z.max (first - 1) 0) None) :: es,
                      VotedFor st, CurrentTerm st, LastCommitIndex (state p))).

Definition RaftStateSize (p : Persister) : Z := LastIndex (state p) - FirstIndex (state p) + 1.

Definition ReadSnapshot (p : Persister) : list byte * Z * Z :=
  (RowData (snapshot p), SnapLastIndex (snapshot p), SnapLastTerm (snapshot p)).

Definition SnapshotSize (p : Persister) : Z := zlen (RowData (snapshot p)).

(** ** Save *)

(** A send on [entryCh] while the mutex is held.  On a full channel the send
    waits for the saving goroutine, which can take one entry and then waits for
    the mutex; after that the send blocks for ever. *)
Definition send (e : logEntry) (p : Persister) : go Persister :=
  if zlen (entryCh p) <? capCh p then mret (set_entryCh (entryCh p ++ [e]) p)
  else match saving p, entryCh p with
       | None, h :: q => mret (set_entryCh (q ++ [e]) (set_saving (Some h) p))
       | _, _ => Err ErrBlocked
       end.

(** The first loop of [filter]: all entries are new. *)
Fixpoint send_all (ix : Z) (logs : list Entry) (p : Persister) : go Persister :=
  match logs with
  | [] => mret p
  | e :: logs =>
      b ← deref (Marshal_Entry e);
      p ← send (mkLogEntry ix b) p;
      send_all (ix + 1) logs p
  end.

(** The second loop: only entries past the end of the log or with another
    checksum. *)
Fixpoint send_changed (ix : Z) (logs : list Entry) (p : Persister) : go Persister :=
  match logs with
  | [] => mret p
  | e :: logs =>
      b ← deref (Marshal_Entry e);
      changed ← (if LastIndex (state p) <? ix then mret true
                 else sum ← idx (checkSum p) (ix - FirstIndex (state p));
                      mret (negb (ChecksumIEEE b =? sum)));
      p ← (if changed : bool then send (mkLogEntry ix b) p else mret p);
      send_changed (ix + 1) logs p
  end.

Definition filter (lastIndex : Z) (logs : list Entry) (p : Persister) : go Persister :=
  if LastIndex (state p) <=? lastIndex then send_all (lastIndex + 1) logs p
  else
    let i := Z.max 0 (LastCommitIndex (state p) - lastIndex) in
    send_changed (i + lastIndex + 1) (drop (Z.to_nat i) logs) p.

Definition Save (p : Persister) (snap : list byte) (st : State) (logs : list Entry)
    (lastIncludeIndex lastTerm commitIndex : Z) : go Persister :=
  let p := set_state (mkIndexState (FirstIndex (state p)) (LastIndex (state p)) commitIndex st) p in
  let p := saveState p in
  let p := set_snapshot (mkSnapshot snap lastIncludeIndex lastTerm) p in
  filter lastIncludeIndex logs p.

(** ** The background goroutines *)

Definition saveSnapToDisk (p : Persister) : go Persister :=
  if negb (SnapLastIndex (snapshot p) =? LastIdx p) then
    let p := set_LastIdx (SnapLastIndex (snapshot p))
               (set_snapDir (SaveSnap (snapshot p) (snapDir p)) p) in
    match TruncateFront (Z.min (SnapLastIndex (snapshot p)) (lastIndex (log p))) (log p) with
    | (l, Ok _) =>
        let p := set_log l p in
        sums ← slice_from (checkSum p) (SnapLastIndex (snapshot p) - FirstIndex (state p) + 1);
        let p := set_checkSum sums p in
        mret (saveState (set_state (set_FirstIndex (SnapLastIndex (snapshot p) + 1) (state p)) p))
    | _ => Panic
    end
  else mret p.

(** [_log := <-ps.entryCh] *)
Definition saveLogToDisk_take (p : Persister) : option Persister :=
  match saving p, entryCh p with
  | None, e :: q => Some (set_entryCh q (set_saving (Some e) p))
  | _, _ => None
  end.

(** One turn of [saveLogToDisk] with the entry it has taken. *)
Definition saveLogToDisk (p : Persister) (e : logEntry) : go Persister :=
  let p := set_saving None p in
  p ← (if LastIndex (state p) <? SnapLastIndex (snapshot p) then saveSnapToDisk p
       else if Index e <? LastIndex (state p) then
         match TruncateBack (Index e - 1) (log p) with
         | (l, Ok _) =>
             let p := set_log l p in
             sums ← slice_to (checkSum p) (Index e - FirstIndex (state p));
             mret (set_state (set_LastIndex (lastIndex l) (state p)) (set_checkSum sums p))
         | _ => Panic
         end
       else mret p);
  match Write (Index e) (EntryBytes e) (log p) with
  | (l, Ok _) =>
      let p := set_checkSum (checkSum p ++ [ChecksumIEEE (EntryBytes e)]) (set_log l p) in
      mret (saveState (set_state (set_LastIndex (lastIndex l) (state p)) p))
  | (l, Err _) => mret (set_log l p)
  | (_, Panic) => Panic
  end.

End persister.
End PS.
