(* ===== verification/FileUtil.v ===== *)
(** * FileUtil: the file helpers of persister/util.go

    Directories hold files by name; a file is the list of contents a crash may
    leave, the present one first ([None] is an absent file), so that [Fsync]
    is the operation that forgets the older ones; it does not make the name of
    the file durable, so a file that might be absent still might.  The kernel may write back any
    prefix of what a write has handed over.  The outcome of each system call is
    an argument: [None] for success, or the error.

    [ReadDir] is modelled with [sort.Strings] and [filepath.Ext] of the
    standard library; names are byte strings. *)

From stdpp Require Import sorting.
From S2P Require Import Prelude Store.

Module FU.

Abbreviation outcome := (option error).

(** ** Names *)

(** [sort.Strings] orders by bytes. *)
Fixpoint bytes_leb (a b : gostring) : bool :=
  match a, b with
  | [], _ => true
  | _ :: _, [] => false
  | x :: a, y :: b =>
      (byte_to_Z x <? byte_to_Z y) || ((byte_to_Z x =? byte_to_Z y) && bytes_leb a b)
  end.

Definition bytes_le (a b : gostring) : Prop := bytes_leb a b = true.

#[export] Instance bytes_le_dec a b : Decision (bytes_le a b).
Proof. unfold bytes_le. apply _. Defined.

Definition dot : byte := x2e.
Definition slash : byte := x2f.

(** [filepath.Ext]: scan backwards for a dot, up to the last slash. *)
Fixpoint ext_scan (r acc : gostring) : gostring :=
  match r with
  | [] => []
  | c :: r =>
      if bool_decide (c = slash) then []
      else if bool_decide (c = dot) then c :: acc
      else ext_scan r (c :: acc)
  end.

Definition Ext (path : gostring) : gostring := ext_scan (reverse path) [].

(** ** Files and directories *)

Definition file := list (option gostring).

Record Dir := mkDir {
  perm : Z;
  entries : list (gostring * file)  (* in directory order *)
}.

Abbreviation FS := (gmap gostring Dir).

Definition PrivateFileMode : Z := 384.  (* 0600 *)
Definition PrivateDirMode : Z := 448.  (* 0700 *)

(** The file of a name in a directory; [[None]] for a name without file. *)
Fixpoint find_file (n : gostring) (es : list (gostring * file)) : file :=
  match es with
  | [] => [None]
  | (m, f) :: es => if bool_decide (m = n) then f else find_file n es
  end.

Fixpoint put_file (n : gostring) (f : file) (es : list (gostring * file)) : list (gostring * file) :=
  match es with
  | [] => [(n, f)]
  | (m, g) :: es => if bool_decide (m = n) then (n, f) :: es else (m, g) :: put_file n f es
  end.

Definition drop_file (n : gostring) (es : list (gostring * file)) : list (gostring * file) :=
  filter (fun e => e.1 <> n) es.

Definition file_at (fs : FS) (dir n : gostring) : file :=
  match fs !! dir with Some d => find_file n (entries d) | None => [None] end.

Definition set_file (dir n : gostring) (f : file) (fs : FS) : FS :=
  alter (fun d => mkDir (perm d) (put_file n f (entries d))) dir fs.

(** What the program reads. *)
Definition contents (f : file) : option gostring := mjoin (head f).

(** What it may read after a crash. *)
Definition after_crash (f : file) (c : option gostring) : Prop := c ∈ f.

(** [os.OpenFile] for writing, creating and truncating. *)
Definition open_trunc (f : file) : file := Some [] :: f.

(** [f.Write] on a file just truncated: [n] bytes went out, any part of which
    may have reached the disk. *)
Definition write_bytes (data : gostring) (n : nat) (f : file) : file :=
  map (fun k => Some (take k data)) (reverse (seq 0 (S n))) ++ f.

(** [fsync] of the file, not of its directory: the older contents are gone, but
    a file whose name is not on disk yet may still be absent after a crash. *)
Definition may_vanish (f : file) : file := if bool_decide (None ∈ f) then [None] else [].

Definition sync_file (f : file) : file := take 1 f ++ may_vanish f.

(** ** Writing a file *)

(** The outcomes of the calls of [WriteAndSyncFile]. *)
Record WriteCalls := mkWriteCalls {
  w_open : outcome;
  w_count : nat;  (* bytes written *)
  w_write : outcome;
  w_sync : outcome;
  w_close : outcome
}.

Definition Fsync (o : outcome) (f : file) : file * outcome :=
  match o with None => (sync_file f, None) | Some e => (f, Some e) end.

(** The file descriptor's part: the calls from [Write] to [Close]. *)
Definition write_and_sync (c : WriteCalls) (data : gostring) (f : file) : file * outcome :=
  let f := write_bytes data (w_count c) f in
  let err := match w_write c with
             | None => if bool_decide (w_count c < length data)%nat then Some ErrShortWrite else None
             | e => e
             end in
  let '(f, err) := match err with None => Fsync (w_sync c) f | _ => (f, err) end in
  (f, match err with None => w_close c | _ => err end).

(** A missing directory makes the open fail whatever the outcome says. *)
Definition WriteAndSyncFile (c : WriteCalls) (dir n data : gostring) (fs : FS) : FS * outcome :=
  match fs !! dir with
  | None => (fs, Some ErrNotExist)
  | Some d =>
      match w_open c with
      | Some e => (fs, Some e)
      | None =>
          let '(f, err) := write_and_sync c data (open_trunc (find_file n (entries d))) in
          (set_file dir n f fs, err)
      end
  end.

(** ** Assertions *)

Definition Assert (condition : bool) : go unit := if condition then mret tt else Panic.

(** [MustMarshal] on the result of [proto.Marshal]. *)
Definition MustMarshal (r : option gostring) : go gostring :=
  match r with Some b => mret b | None => Panic end.

(** ** Directories *)

Definition Exist (fs : FS) (dir : gostring) : bool := bool_decide (is_Some (fs !! dir)).

Record ReadDirOp := mkReadDirOp { ext : gostring }.

Definition ReadDirOption := ReadDirOp -> ReadDirOp.

Definition WithExt (e : gostring) : ReadDirOption := fun _ => mkReadDirOp e.

Definition applyOpts (op : ReadDirOp) (opts : list ReadDirOption) : ReadDirOp :=
  foldl (fun op opt => opt op) op opts.

(** [o] is the outcome of [Readdirnames]. *)
Definition ReadDir (o : outcome) (fs : FS) (dir : gostring) (opts : list ReadDirOption)
    : go (list gostring) :=
  let op := applyOpts (mkReadDirOp []) opts in
  match fs !! dir, o with
  | None, _ => Err ErrNotExist
  | Some _, Some e => Err e
  | Some d, None =>
      let names := merge_sort bytes_le (entries d).*1 in
      mret (if bool_decide (ext op <> []) then filter (fun v => Ext v = ext op) names else names)
  end.

Definition dot_wal : gostring := [x2e; x77; x61; x6c].

Definition ExistWal (o : outcome) (fs : FS) (dir : gostring) : bool :=
  match ReadDir o fs dir [WithExt dot_wal] with
  | Ok names => bool_decide (length names <> 0)%nat
  | _ => false
  end.

Definition CheckDirPermission (fs : FS) (dir : gostring) (p : Z) : outcome :=
  match fs !! dir with
  | None => Some ErrNotExist
  | Some d => if perm d =? p then None else Some ErrPermission
  end.

Definition dot_touch : gostring := [x2e; x74; x6f; x75; x63; x68].

(** The outcomes of the calls below: [MkdirAll], [Abs], the open and the close
    of [WriteFile], [Remove]. *)
Record TouchCalls := mkTouchCalls {
  t_mkdir : outcome;
  t_abs : outcome;
  t_open : outcome;
  t_close : outcome;
  t_remove : outcome
}.

Definition IsDirWriteable (c : TouchCalls) (dir : gostring) (fs : FS) : FS * outcome :=
  match t_abs c, fs !! dir, t_open c with
  | Some e, _, _ => (fs, Some e)
  | None, None, _ => (fs, Some ErrNotExist)
  | None, Some _, Some e => (fs, Some e)
  | None, Some d, None =>
      let fs1 := set_file dir dot_touch (open_trunc (find_file dot_touch (entries d))) fs in
      match t_close c, t_remove c with
      | Some e, _ => (fs1, Some e)
      | None, Some e => (fs1, Some e)
      | None, None =>
          (<[dir := mkDir (perm d) (drop_file dot_touch (entries d))]> fs, None)
      end
  end.

(** [lg] says whether a logger was given. *)
Definition TouchDirAll (c : TouchCalls) (lg : bool) (dir : gostring) (fs : FS) : go (FS * outcome) :=
  _ ← Assert lg;
  if Exist fs dir then mret (IsDirWriteable c dir fs)
  else
    match t_mkdir c with
    | Some e => mret (fs, Some e)
    | None => mret (IsDirWriteable c dir (<[dir := mkDir PrivateDirMode []]> fs))
    end.

Definition CreateDirAll (c : TouchCalls) (o : outcome) (lg : bool) (dir : gostring) (fs : FS)
    : go (FS * outcome) :=
  '(fs, err) ← TouchDirAll c lg dir fs;
  match err with
  | Some e => mret (fs, Some e)
  | None =>
      match ReadDir o fs dir [] with
      | Ok ns => mret (fs, if bool_decide (length ns <> 0)%nat then Some ErrNotEmpty else None)
      | Err e => mret (fs, Some e)
      | Panic => Panic
      end
  end.

(** ** Preallocation *)

(** An open file: its bytes and the offset of the descriptor. *)
Record Handle := mkHandle {
  bytes : gostring;
  offset : Z
}.

Definition ENOTSUP : Z := 95.
Definition EINTR : Z := 4.

(** [Truncate]: cut, or extend with zero bytes. *)
Definition resize (n : Z) (b : gostring) : gostring :=
  take (Z.to_nat n) b ++ replicate (Z.to_nat n - length b) x00.

(** [syscall.Fallocate] from offset 0; mode 1 keeps the size. *)
Definition Fallocate (o : outcome) (mode size : Z) (h : Handle) : Handle * outcome :=
  match o with
  | Some e => (h, Some e)
  | None => (if mode =? 1 then h else mkHandle (resize (Z.max size (zlen (bytes h))) (bytes h)) (offset h),
             None)
  end.

(** The outcomes of [Fallocate], of the three seeks and of [Truncate]. *)
Record AllocCalls := mkAllocCalls {
  a_fallocate : outcome;
  a_seek_cur : outcome;
  a_seek_end : outcome;
  a_seek_start : outcome;
  a_truncate : outcome
}.

Definition preallocFixed (c : AllocCalls) (h : Handle) (size : Z) : Handle * outcome :=
  let '(h, err) := Fallocate (a_fallocate c) 1 size h in
  (h, if bool_decide (err = Some (Errno ENOTSUP)) then None else err).

Definition preallocExtendTrunc (c : AllocCalls) (h : Handle) (sizeInBytes : Z) : Handle * outcome :=
  match a_seek_cur c with
  | Some e => (h, Some e)
  | None =>
      let curOff := offset h in
      match a_seek_end c with
      | Some e => (h, Some e)
      | None =>
          let size := zlen (bytes h) + sizeInBytes in
          match a_seek_start c with
          | Some e => (mkHandle (bytes h) size, Some e)
          | None =>
              let h := mkHandle (bytes h) curOff in
              if size <? sizeInBytes then (h, None)
              else
                match a_truncate c with
                | Some e => (h, Some e)
                | None => (mkHandle (resize sizeInBytes (bytes h)) (offset h), None)
                end
          end
      end
  end.

Definition preallocExtend (c : AllocCalls) (h : Handle) (size : Z) : Handle * outcome :=
  let '(h, err) := Fallocate (a_fallocate c) 0 size h in
  if bool_decide (err = Some (Errno ENOTSUP) \/ err = Some (Errno EINTR))
  then preallocExtendTrunc c h size else (h, err).

Definition Preallocate (c : AllocCalls) (h : Handle) (size : Z) (extendFile : bool) : Handle * outcome :=
  if size =? 0 then (h, None)
  else if extendFile then preallocExtend c h size else preallocFixed c h size.

(** ** Locks *)

(** The descriptors this process has open on a file, and whether one of them
    holds the exclusive lock; [Flock] returns once it has it. *)
Record Locks := mkLocks {
  descriptors : nat;
  locked : bool
}.

Definition flockLockFile (o_open o_flock : outcome) (s : Locks) : Locks * outcome :=
  match o_open with
  | Some e => (s, Some e)
  | None =>
      match o_flock with
      | Some e => (mkLocks (S (descriptors s) - 1) (locked s), Some e)
      | None => (mkLocks (S (descriptors s)) true, None)
      end
  end.

Definition LockFile := flockLockFile.

(** ** persister/state.go *)

Definition EmptyState : State := mkState 0 0.

Definition isEmptyState (a b : State) : bool :=
  (VotedFor a =? VotedFor b) && (CurrentTerm a =? CurrentTerm b).

Definition IsEmptyState (a : State) : bool := isEmptyState a EmptyState.

Definition MustSync (st prevst : State) (entsnum : Z) : bool :=
  negb (entsnum =? 0) || negb (VotedFor st =? VotedFor prevst)
  || negb (CurrentTerm st =? CurrentTerm prevst).

(** * Theorems *)

(** ** The order of names *)

Lemma byte_to_Z_inj a b : byte_to_Z a = byte_to_Z b -> a = b.
Proof. intros E. by rewrite <- (byte_of_to_Z a), <- (byte_of_to_Z b), E. Qed.

Lemma bytes_leb_cons x a y b :
  bytes_le (x :: a) (y :: b)
  <-> byte_to_Z x < byte_to_Z y \/ (x = y /\ bytes_le a b).
Proof.
  unfold bytes_le. simpl. rewrite orb_true_iff, andb_true_iff, Z.ltb_lt, Z.eqb_eq.
  split; intros [?|[E ?]]; [by left|right|by left|right; by subst].
  split; [by apply byte_to_Z_inj|done].
Qed.

#[export] Instance bytes_le_total : Total bytes_le.
Proof.
  intros a. induction a as [|x a IH]; intros [|y b]; [by left|by left|by right|].
  rewrite !bytes_leb_cons. destruct (Z.lt_total (byte_to_Z x) (byte_to_Z y)) as [|[E|]]; [auto| |auto].
  apply byte_to_Z_inj in E as ->. destruct (IH b); auto.
Qed.

#[export] Instance bytes_le_trans : Transitive bytes_le.
Proof.
  intros a. induction a as [|x a IH]; intros [|y b] [|z c]; try done.
  rewrite !bytes_leb_cons. intros [?|[-> ?]] [?|[-> ?]]; [left; lia|auto|auto|]. right. eauto.
Qed.

#[export] Instance bytes_le_antisymm : AntiSymm (=) bytes_le.
Proof.
  intros a. induction a as [|x a IH]; intros [|y b]; try done.
  rewrite !bytes_leb_cons. intros [?|[-> ?]] [?|[E ?]]; [lia|subst; lia|lia|].
  f_equal. by apply IH.
Qed.

(** ** [ReadDir] *)

(** What a scan finds: the part from the last dot of the last path element. *)
Lemma ext_scan_spec r acc :
  dot ∉ acc -> slash ∉ acc ->
  match ext_scan r acc with
  | [] => forall p s, reverse r ++ acc <> p ++ dot :: s \/ dot ∈ s \/ slash ∈ s
  | e => exists p s, reverse r ++ acc = p ++ e /\ e = dot :: s /\ dot ∉ s /\ slash ∉ s
  end.
Proof.
  revert acc. induction r as [|c r IH]; intros acc Hd Hs; simpl.
  - intros p s. destruct (decide (acc = p ++ dot :: s)) as [->|]; [|by left]. set_solver.
  - rewrite reverse_cons, <- app_assoc. simpl. case_bool_decide as Hc.
    + subst c. intros p s. destruct (decide (reverse r ++ slash :: acc = p ++ dot :: s)) as [E|];
        [right|by left].
      destruct (app_eq_inv _ _ _ _ E) as [(k & _ & E2)|(k & _ & E2)];
        destruct k as [|x k]; simplify_eq/=; set_solver.
    + case_bool_decide as Hc2.
      * subst c. by exists (reverse r), acc.
      * apply IH; set_solver.
Qed.

(** The extension is what follows the last dot of the last path element. *)
Lemma Ext_spec path s :
  dot ∉ s -> slash ∉ s -> (Ext path = dot :: s <-> exists p, path = p ++ dot :: s).
Proof.
  intros Hd Hs. unfold Ext. pose proof (ext_scan_spec (reverse path) []) as H.
  rewrite reverse_involutive, app_nil_r in H. specialize (H ltac:(set_solver) ltac:(set_solver)).
  destruct (ext_scan _ _) as [|c e].
  - split; [done|]. intros [p E]. destruct (H p s) as [?|[?|?]]; done.
  - destruct H as (p & s' & E & [= -> ->] & Hd' & Hs'). split; [intros [= ->]; eauto|].
    intros [p' E']. rewrite E' in E. f_equal.
    destruct (app_eq_inv _ _ _ _ E) as [(k & _ & E2)|(k & _ & E2)];
      destruct k as [|x k]; simplify_eq/=; set_solver.
Qed.

Lemma StronglySorted_filter {A} (R : relation A) (Q : A -> Prop) `{!forall x, Decision (Q x)} (l : list A) :
  StronglySorted R l -> StronglySorted R (filter Q l).
Proof.
  induction 1 as [|x l _ IH Hx]; [constructor|]. rewrite filter_cons. case_decide; [|done].
  constructor; [done|]. rewrite Forall_forall in *. intros y [_ Hy]%list_elem_of_filter. by apply Hx.
Qed.

Lemma filter_every {A} (Q : A -> Prop) `{!forall x, Decision (Q x)} (l : list A) :
  (forall x, Q x) -> filter Q l = l.
Proof.
  intros HQ. induction l as [|x l IH]; [done|]. rewrite filter_cons, decide_True by done. by rewrite IH.
Qed.

(** The names [ReadDir] keeps. *)
Definition wanted (op : ReadDirOp) (v : gostring) : Prop := ext op = [] \/ Ext v = ext op.

#[export] Instance wanted_dec op v : Decision (wanted op v).
Proof. unfold wanted. apply _. Defined.

Lemma ReadDir_Ok fs dir d opts :
  fs !! dir = Some d ->
  let op := applyOpts (mkReadDirOp []) opts in
  exists names, ReadDir None fs dir opts = Ok names
    /\ StronglySorted bytes_le names /\ names ≡ₚ filter (wanted op) (entries d).*1.
Proof.
  intros Hd op. unfold ReadDir. rewrite Hd. eexists. split; [done|]. fold op.
  pose proof (StronglySorted_merge_sort bytes_le (entries d).*1) as Hs.
  pose proof (merge_sort_Permutation bytes_le (entries d).*1) as Hp.
  case_bool_decide as He.
  - rewrite (list_filter_iff (wanted op) (fun v => Ext v = ext op)) by (unfold wanted; tauto).
    split; [by apply StronglySorted_filter|by rewrite Hp].
  - split; [done|]. rewrite Hp. replace (filter (wanted op) _) with (entries d).*1; [done|].
    symmetry. apply filter_every. intros v. left. destruct (ext op); [done|]. by destruct He.
Qed.

(** [ReadDir] lists exactly the names of the directory with the wanted
    extension, in ascending byte order, whatever order the system returned them
    in. *)
Theorem ReadDir_lists fs fs' dir d d' opts :
  fs !! dir = Some d -> fs' !! dir = Some d' -> (entries d').*1 ≡ₚ (entries d).*1 ->
  exists names, ReadDir None fs dir opts = Ok names /\ ReadDir None fs' dir opts = Ok names
    /\ StronglySorted bytes_le names
    /\ forall v, v ∈ names <-> v ∈ (entries d).*1 /\ wanted (applyOpts (mkReadDirOp []) opts) v.
Proof.
  intros Hd Hd' Hp. destruct (ReadDir_Ok fs dir d opts Hd) as (names & Hr & Hs & Hn).
  destruct (ReadDir_Ok fs' dir d' opts Hd') as (names' & Hr' & Hs' & Hn').
  assert (names' = names) as ->.
  { apply (StronglySorted_unique bytes_le); [done..|]. by rewrite Hn', Hn, Hp. }
  exists names. split_and!; [done..|]. intros v. rewrite Hn, list_elem_of_filter. tauto.
Qed.

(** A log exists where a file has the extension. *)
Lemma ExistWal_spec fs dir :
  ExistWal None fs dir = true
  <-> exists d n, fs !! dir = Some d /\ n ∈ (entries d).*1 /\ Ext n = dot_wal.
Proof.
  unfold ExistWal. destruct (fs !! dir) as [d|] eqn:Hd.
  - destruct (ReadDir_Ok fs dir d [WithExt dot_wal] Hd) as (names & -> & _ & Hn).
    rewrite bool_decide_eq_true. split.
    + intros Hl. destruct names as [|n names]; [done|]. exists d, n. split; [done|].
      assert (n ∈ n :: names) as Hin by (by left). rewrite Hn, list_elem_of_filter in Hin.
      destruct Hin as [[?|?] ?]; [done|done].
    + intros (d' & n & [= <-] & Hin & He). assert (n ∈ names) as Hn'.
      { rewrite Hn, list_elem_of_filter. split; [by right|done]. }
      destruct names; [by apply elem_of_nil in Hn'|done].
  - unfold ReadDir. rewrite Hd. split; [done|]. by intros (? & ? & ? & _).
Qed.

(** ** Writing a file *)

Lemma find_put_eq n f es : find_file n (put_file n f es) = f.
Proof.
  induction es as [|[m g] es IH]; simpl; [by rewrite bool_decide_true|].
  case_bool_decide; simpl; [by rewrite bool_decide_true|by rewrite bool_decide_false].
Qed.

Lemma find_put_ne n m f es : m <> n -> find_file m (put_file n f es) = find_file m es.
Proof.
  intros Hne. induction es as [|[k g] es IH]; simpl; [by rewrite bool_decide_false|].
  case_bool_decide; simpl.
  - subst k. by rewrite !bool_decide_false.
  - by rewrite IH.
Qed.

Lemma find_drop_ne n m es : m <> n -> find_file m (drop_file n es) = find_file m es.
Proof.
  intros Hne. unfold drop_file. induction es as [|[k g] es IH]; simpl; [done|].
  rewrite filter_cons. case_decide as Hk; simpl in *.
  - by rewrite IH.
  - rewrite IH, bool_decide_false; [done|]. intros ->. tauto.
Qed.

Lemma file_at_set_eq fs dir n f : is_Some (fs !! dir) -> file_at (set_file dir n f fs) dir n = f.
Proof.
  intros [d Hd]. unfold file_at, set_file. rewrite lookup_alter_eq, Hd. simpl. apply find_put_eq.
Qed.

Lemma file_at_set_ne fs dir n f dir' n' :
  (dir', n') <> (dir, n) -> file_at (set_file dir n f fs) dir' n' = file_at fs dir' n'.
Proof.
  intros Hne. unfold file_at, set_file. destruct (decide (dir' = dir)) as [->|].
  - rewrite lookup_alter_eq. destruct (fs !! dir); simpl; [|done].
    apply find_put_ne. congruence.
  - by rewrite lookup_alter_ne by congruence.
Qed.

Lemma write_bytes_head data n f : head (write_bytes data n f) = Some (Some (take n data)).
Proof. unfold write_bytes. rewrite seq_S, reverse_app. done. Qed.


Lemma write_bytes_crash data n f c :
  after_crash (write_bytes data n f) c <->
  (exists k, (k <= n)%nat /\ c = Some (take k data)) \/ after_crash f c.
Proof.
  unfold after_crash, write_bytes. rewrite elem_of_app, list_elem_of_fmap.
  split; (intros [H|]; [left|by right]).
  - destruct H as (k & -> & Hk). exists k. rewrite elem_of_reverse, elem_of_seq in Hk. split; [lia|done].
  - destruct H as (k & Hk & ->). exists k. rewrite elem_of_reverse, elem_of_seq. split; [done|lia].
Qed.

Lemma may_vanish_iff f g : (None ∈ f <-> None ∈ g) -> may_vanish f = may_vanish g.
Proof. intros H. unfold may_vanish. by rewrite (bool_decide_ext _ _ H). Qed.

Lemma elem_may_vanish f x : x ∈ may_vanish f <-> x = None /\ None ∈ f.
Proof. unfold may_vanish. case_bool_decide; set_solver. Qed.

Lemma sync_write data n f : sync_file (write_bytes data n f) = Some (take n data) :: may_vanish f.
Proof.
  pose proof (write_bytes_head data n f) as H. unfold sync_file.
  rewrite (may_vanish_iff (write_bytes data n f) f).
  - destruct (write_bytes data n f) as [|x fs]; [done|]. simpl in *. injection H as ->. by destruct fs.
  - change (after_crash (write_bytes data n f) None <-> after_crash f None). rewrite write_bytes_crash. naive_solver.
Qed.

(** Without an error the new contents are the only ones left. *)
Lemma write_and_sync_durable c data f f' :
  write_and_sync c data f = (f', None) -> f' = Some data :: may_vanish f.
Proof.
  unfold write_and_sync. destruct (w_write c); [done|]. case_bool_decide; [done|]. simpl.
  destruct (w_sync c); simpl; [done|]. intros [= <- _]. by rewrite sync_write, take_ge by lia.
Qed.

(** The error [WriteAndSyncFile] reports is the first of the sequence. *)
Definition first_error (c : WriteCalls) (data : gostring) : outcome :=
  head (omap id
    [w_open c; w_write c;
     if bool_decide (w_count c < length data)%nat then Some ErrShortWrite else None;
     w_sync c; w_close c]).

(** C33. [WriteAndSyncFile] touches its file only and reports the first error of
    its calls.  When it reports none, the file holds the new contents and they
    are the only ones a crash can leave, except that a file which a crash could
    have left absent before, such as one that did not exist, may still be absent
    after it: the directory is not synced.  Otherwise a crash leaves what it
    could leave before, or some prefix of the new contents. *)
Theorem WriteAndSyncFile_outcome c dir n data fs fs' err :
  is_Some (fs !! dir) -> WriteAndSyncFile c dir n data fs = (fs', err) ->
  err = first_error c data
  /\ (err = None -> contents (file_at fs' dir n) = Some data
      /\ forall x, after_crash (file_at fs' dir n) x <-> x = Some data \/ (x = None /\ after_crash (file_at fs dir n) None))
  /\ (forall x, after_crash (file_at fs' dir n) x ->
        after_crash (file_at fs dir n) x \/ exists k, x = Some (take k data))
  /\ (forall dir' n', (dir', n') <> (dir, n) -> file_at fs' dir' n' = file_at fs dir' n').
Proof.
  intros [d Hd] Hw. unfold WriteAndSyncFile in Hw. rewrite Hd in Hw.
  assert (find_file n (entries d) = file_at fs dir n) as Ef by (unfold file_at; by rewrite Hd).
  unfold first_error. destruct (w_open c) as [e|]; [simplify_eq/=; split_and!; (done || by left)|].
  destruct (write_and_sync c data _) as [f err'] eqn:Hws. injection Hw as <- <-.
  rewrite file_at_set_eq by eauto. split_and!; [| | |intros; by apply file_at_set_ne].
  - revert Hws. unfold write_and_sync. simpl. destruct (w_write c); [by intros [= _ <-]|].
    case_bool_decide; [by intros [= _ <-]|]. simpl. destruct (w_sync c); simpl; [by intros [= _ <-]|].
    intros [= _ <-]. by destruct (w_close c).
  - intros ->. apply write_and_sync_durable in Hws as ->. split; [done|]. intros x. unfold after_crash.
    rewrite elem_of_cons, elem_may_vanish. unfold open_trunc. rewrite Ef. set_solver.
  - intros x Hx. assert (after_crash (write_bytes data (w_count c) (open_trunc (find_file n (entries d)))) x)
      as Hx'.
    { revert Hws. unfold write_and_sync. destruct (w_write c); [by intros [= <- _]|].
      case_bool_decide; [by intros [= <- _]|]. simpl. destruct (w_sync c); simpl; [by intros [= <- _]|].
      intros [= <- _]. unfold after_crash, sync_file in Hx. apply elem_of_app in Hx as [Hx|[-> Hx]%elem_may_vanish]; [|done].
      apply elem_of_take in Hx as (i & Hx & _). by eapply list_elem_of_lookup_2. }
    apply write_bytes_crash in Hx' as [(k & _ & ->)|Hx']; [eauto|].
    apply elem_of_cons in Hx' as [-> |Hx']; [right; by exists 0%nat|left]. by rewrite <- Ef.
Qed.

(** The file is truncated before the new contents are written: until the sync,
    a crash may leave an empty file, whatever was durable before. *)
Theorem write_not_atomic old data n :
  after_crash (open_trunc old) (Some []) /\ after_crash (write_bytes data n (open_trunc old)) (Some []).
Proof.
  split; [by left|]. apply write_bytes_crash. left. exists 0%nat. split; [lia|done].
Qed.

(** A file written for the first time may be gone after a crash, although its
    contents were synced. *)
Theorem new_file_may_vanish dir n data fs d :
  fs !! dir = Some d -> n ∉ (entries d).*1 ->
  exists fs', WriteAndSyncFile (mkWriteCalls None (length data) None None None) dir n data fs = (fs', None)
    /\ after_crash (file_at fs' dir n) None.
Proof.
  intros Hd Hn. unfold WriteAndSyncFile. rewrite Hd. cbn [w_open].
  destruct (write_and_sync _ data _) as [f err] eqn:E.
  assert (err = None) as ->.
  { unfold write_and_sync in E. cbn [w_write w_count w_sync w_close] in E. rewrite bool_decide_false in E by lia. simpl in E. congruence. }
  eexists. split; [done|]. rewrite file_at_set_eq by eauto. apply write_and_sync_durable in E as ->.
  right. apply elem_may_vanish. split; [done|]. right. clear Hd. induction (entries d) as [|[m g] es IH]; simpl in *; [by left|].
  rewrite bool_decide_false by set_solver. apply IH. set_solver.
Qed.

(** ** Directories *)

Definition other_files (dir : gostring) (fs fs' : FS) : Prop :=
  forall dir' n, dir' <> dir \/ n <> dot_touch -> file_at fs' dir' n = file_at fs dir' n.

Lemma IsDirWriteable_Ok c dir fs fs' err :
  IsDirWriteable c dir fs = (fs', err) ->
  other_files dir fs fs'
  /\ (err = None -> exists d, fs !! dir = Some d
        /\ fs' !! dir = Some (mkDir (perm d) (drop_file dot_touch (entries d)))).
Proof.
  unfold IsDirWriteable, other_files. destruct (t_abs c); [intros [= <- <-]; done|].
  destruct (fs !! dir) as [d|] eqn:Hd; [|by intros [= <- <-]].
  destruct (t_open c); [by intros [= <- <-]|].
  destruct (t_close c); [|destruct (t_remove c)]; intros [= <- <-];
    (split; [intros dir' n Hn|intros E]); try done;
    try (by rewrite file_at_set_ne by (destruct Hn; congruence)).
  - unfold file_at. destruct (decide (dir' = dir)) as [->|].
    + rewrite lookup_insert_eq, Hd. simpl. apply find_drop_ne. by destruct Hn.
    + by rewrite lookup_insert_ne.
  - exists d. by rewrite lookup_insert_eq.
Qed.

Lemma file_at_fresh fs dir p dir' n :
  fs !! dir = None -> file_at (<[dir := mkDir p []]> fs) dir' n = file_at fs dir' n.
Proof.
  intros Hd. unfold file_at. destruct (decide (dir' = dir)) as [->|].
  - by rewrite lookup_insert_eq, Hd.
  - by rewrite lookup_insert_ne.
Qed.

Lemma TouchDirAll_Ok c lg dir fs fs' err :
  TouchDirAll c lg dir fs = Ok (fs', err) ->
  other_files dir fs fs' /\ (err = None -> is_Some (fs' !! dir)).
Proof.
  unfold TouchDirAll, Exist. intros H. apply bind_Ok in H as ([] & _ & H).
  case_bool_decide as Hd.
  - apply Ok_inj in H. destruct (IsDirWriteable_Ok _ _ _ _ _ H) as [Ho Hs].
    split; [done|]. intros E. destruct (Hs E) as (d & _ & ->). eauto.
  - apply eq_None_not_Some in Hd. destruct (t_mkdir c); [by go_inv|]. apply Ok_inj in H.
    destruct (IsDirWriteable_Ok _ _ _ _ _ H) as [Ho Hs].
    split; [|intros E; destruct (Hs E) as (d & _ & ->); eauto].
    intros dir' n Hn. rewrite (Ho dir' n Hn). by apply file_at_fresh.
Qed.

(** [CreateDirAll] succeeds only with a directory that exists and is
    empty, and it changes no file but [.touch] in that directory. *)
Theorem CreateDirAll_empty c o lg dir fs fs' err :
  CreateDirAll c o lg dir fs = Ok (fs', err) ->
  other_files dir fs fs'
  /\ (err = None -> exists d, fs' !! dir = Some d /\ entries d = []).
Proof.
  unfold CreateDirAll. intros H. apply bind_Ok in H as ([fs1 err1] & Ht & H).
  destruct (TouchDirAll_Ok _ _ _ _ _ _ Ht) as [Ho Hs].
  destruct err1 as [e|]; [by go_inv|]. destruct (Hs eq_refl) as [d Hd].
  destruct (ReadDir o fs1 dir []) as [ns| |] eqn:Hr; [|by go_inv|done].
  apply Ok_inj in H. injection H as <- <-. split; [done|].
  case_bool_decide as Hl; [done|]. intros _. exists d. split; [done|].
  destruct o as [e|]; [unfold ReadDir in Hr; by rewrite Hd in Hr|].
  destruct (ReadDir_Ok fs1 dir d [] Hd) as (names & Hr' & _ & Hp). rewrite Hr in Hr'.
  injection Hr' as <-. destruct ns; [|done].
  rewrite filter_every in Hp by (by left). apply Permutation_nil in Hp. by destruct (entries d).
Qed.

(** ** Preallocation *)

Lemma length_resize n b : 0 <= n -> zlen (resize n b) = n.
Proof. intros Hn. unfold zlen, resize. rewrite length_app, length_take, length_replicate. lia. Qed.

(** Space is made without losing data when [fallocate] works: the contents
    stay, with zero bytes behind them if the file is to be extended. *)
Lemma Preallocate_keeps c h size ext h' :
  a_fallocate c = None -> 0 <= size -> Preallocate c h size ext = (h', None) ->
  offset h' = offset h
  /\ bytes h' = bytes h ++ replicate (if ext then Z.to_nat size - length (bytes h) else 0)%nat x00.
Proof.
  intros Ha Hs. unfold Preallocate, preallocExtend, preallocFixed, Fallocate. rewrite Ha.
  destruct (Z.eqb_spec size 0) as [->|].
  - intros [= <-]. split; [done|]. by destruct ext; rewrite app_nil_r.
  - destruct ext; simpl.
    + intros [= <-]. split; [done|]. simpl. unfold resize, zlen.
      rewrite take_ge by lia. f_equal. f_equal. lia.
    + intros [= <-]. by rewrite app_nil_r.
Qed.

(** Where [fallocate] is not supported, the file gets exactly the size asked
    for: [Seek] counts from the end, so the test for a file that is long enough
    never holds, and a longer file loses its tail. *)
Theorem prealloc_fallback_truncates c h size :
  a_fallocate c = Some (Errno ENOTSUP) -> a_seek_cur c = None -> a_seek_end c = None ->
  a_seek_start c = None -> a_truncate c = None -> 0 < size ->
  Preallocate c h size true = (mkHandle (resize size (bytes h)) (offset h), None).
Proof.
  intros Hf H1 H2 H3 H4 Hs. unfold Preallocate, preallocExtend, preallocExtendTrunc, Fallocate.
  rewrite Hf, H1, H2, H3, H4. destruct (Z.eqb_spec size 0); [lia|].
  rewrite bool_decide_true by (by left). simpl.
  destruct (Z.ltb_spec (zlen (bytes h) + size) size); [|done].
  pose proof (zlen_nonneg (bytes h)). lia.
Qed.

(** A failed lock leaves no descriptor behind; a granted one is exclusive. *)
Lemma LockFile_spec o1 o2 s s' err :
  LockFile o1 o2 s = (s', err) ->
  match err with
  | None => descriptors s' = S (descriptors s) /\ locked s' = true
  | Some _ => s' = s
  end.
Proof.
  unfold LockFile, flockLockFile. destruct o1; [by intros [= <- <-]|].
  destruct o2; intros [= <- <-]; simpl; [|done]. destruct s. by rewrite Nat.sub_0_r.
Qed.

(** A write is due exactly when entries were added or the state changed. *)
Lemma MustSync_spec st prev n : MustSync st prev n = false <-> n = 0 /\ st = prev.
Proof.
  unfold MustSync. destruct st as [v t], prev as [v' t']. simpl.
  rewrite !orb_false_iff, !negb_false_iff, !Z.eqb_eq. naive_solver.
Qed.

Lemma IsEmptyState_spec st : IsEmptyState st = true <-> st = EmptyState.
Proof.
  unfold IsEmptyState, isEmptyState, EmptyState. destruct st as [v t]. simpl.
  rewrite andb_true_iff, !Z.eqb_eq. naive_solver.
Qed.

(** ** Witnesses *)

Definition wal_dir : gostring := [x77].
Definition a_wal : gostring := x61 :: dot_wal.
Definition b_wal : gostring := x62 :: dot_wal.

Definition sample_dir (es : list (gostring * file)) : FS := <[wal_dir := mkDir PrivateDirMode es]> ∅.

Lemma ReadDir_lists_witness :
  ReadDir None (sample_dir [(b_wal, [None]); ([x63], [None]); (a_wal, [None])]) wal_dir [WithExt dot_wal]
    = Ok [a_wal; b_wal]
  /\ ReadDir None (sample_dir [(a_wal, [None]); (b_wal, [None]); ([x63], [None])]) wal_dir [WithExt dot_wal]
    = Ok [a_wal; b_wal].
Proof.
  destruct (ReadDir_lists
    (sample_dir [(b_wal, [None]); ([x63], [None]); (a_wal, [None])])
    (sample_dir [(a_wal, [None]); (b_wal, [None]); ([x63], [None])]) wal_dir
    (mkDir PrivateDirMode [(b_wal, [None]); ([x63], [None]); (a_wal, [None])])
    (mkDir PrivateDirMode [(a_wal, [None]); (b_wal, [None]); ([x63], [None])])
    [WithExt dot_wal]) as (names & H1 & H2 & _); [reflexivity|reflexivity| |].
  - simpl. transitivity [b_wal; a_wal; [x63]]; constructor; constructor.
  - rewrite H2. vm_compute in H1. by injection H1 as <-.
Defined.

Lemma WriteAndSyncFile_outcome_witness :
  exists fs', WriteAndSyncFile (mkWriteCalls None 2 None None None) wal_dir a_wal [x01; x02]
                (sample_dir [(a_wal, [Some [x09]])]) = (fs', None)
    /\ contents (file_at fs' wal_dir a_wal) = Some [x01; x02].
Proof.
  eexists. split; [reflexivity|].
  eapply (WriteAndSyncFile_outcome (mkWriteCalls None 2 None None None) wal_dir a_wal [x01; x02]
    (sample_dir [(a_wal, [Some [x09]])])); [by eexists|reflexivity|reflexivity].
Defined.

Lemma CreateDirAll_empty_witness :
  exists fs' d, CreateDirAll (mkTouchCalls None None None None None) None true wal_dir ∅ = Ok (fs', None)
    /\ fs' !! wal_dir = Some d /\ entries d = [].
Proof.
  assert (exists fs', CreateDirAll (mkTouchCalls None None None None None) None true wal_dir ∅
                      = Ok (fs', None)) as [fs' E] by (eexists; vm_compute; reflexivity).
  destruct (CreateDirAll_empty _ _ _ _ _ _ _ E) as [_ Hd]. destruct (Hd eq_refl) as (d & ? & ?).
  by exists fs', d.
Defined.

End FU.
