(* ===== verification/PersisterSpec.v ===== *)
(** * PersisterSpec: the persister as the store of a Raft node

    The persister of Persister.v implements the interface of Store.v: the vote
    and the term are in the state file when [Save] returns, and neither the
    background goroutines nor a crash outside a write of the state file change
    them; [crash_stat] lists what a crash at any moment may leave.  The entries
    of the log reach the write-ahead log through the saving goroutine; the second
    half says when they do, and shows runs of the code in which they do not. *)

From stdpp Require Import sorting.
From S2P Require Import Prelude Types Store WalJson Wal WalSpec WalTrunc Persister FileUtil.
Import PS.

Section store.
Context {gjson : Gjson} {lru : LRU} {lru_laws : LRULaws} {codec : ProtoCodec} {codec_laws : ProtoCodecLaws}.
Implicit Types p : Persister.

(** ** The interface *)

(** The election state in the state file, the initial one without a file. *)
Definition file_state (f : option (list byte)) : State :=
  match f ≫= Unmarshal_IndexState with
  | Some s => if decide (f = Some []) then mkState (-1) 0 else RaftSate s
  | None => mkState (-1) 0
  end.

(** Memory and disk agree on the election state. *)
Definition synced p : Prop := file_state (statFile p) = RaftSate (state p).

(** A step of one of the persister's goroutines. *)
Inductive bg_step p : Persister -> Prop :=
  | bg_take p' : saveLogToDisk_take p = Some p' -> bg_step p p'
  | bg_save e p' : saving p = Some e -> saveLogToDisk p e = Ok p' -> bg_step p p'
  | bg_snap p' : saveSnapToDisk p = Ok p' -> bg_step p p'.

Lemma file_state_save s : file_state (Some (Marshal_IndexState s)) = RaftSate s.
Proof.
  unfold file_state. simpl. rewrite state_decodes. simpl. rewrite decide_False; [done|].
  intros [= E]. by apply (state_nonempty s).
Qed.

(** What the operations keep of the state file and of the state in memory: a
    step leaves both alone or writes the file anew. *)
Definition file_kept p p' : Prop :=
  RaftSate (state p') = RaftSate (state p)
  /\ (statFile p' = statFile p \/ exists s, statFile p' = Some (Marshal_IndexState s) /\ RaftSate s = RaftSate (state p)).

Lemma file_kept_refl p : file_kept p p.
Proof. by split; [|left]. Qed.

Lemma file_kept_trans p1 p2 p3 : file_kept p1 p2 -> file_kept p2 p3 -> file_kept p1 p3.
Proof.
  intros [E1 [F1|(s1 & F1 & R1)]] [E2 [F2|(s2 & F2 & R2)]]; (split; [congruence|]).
  - left. congruence.
  - right. exists s2. split; congruence.
  - right. exists s1. split; congruence.
  - right. exists s2. split; congruence.
Qed.

Lemma file_kept_synced p p' : synced p -> file_kept p p' -> synced p' /\ file_state (statFile p') = file_state (statFile p).
Proof.
  unfold synced. intros Hs [E [F|(s & F & R)]]; rewrite F, ?E.
  - done.
  - rewrite file_state_save, R, Hs. done.
Qed.

Lemma send_kept e p p' : send e p = Ok p' -> state p' = state p /\ statFile p' = statFile p.
Proof. unfold send. intros H. repeat case_match; go_inv; try done. Qed.

Lemma send_all_kept logs : forall ix p p',
  send_all ix logs p = Ok p' -> state p' = state p /\ statFile p' = statFile p.
Proof.
  induction logs as [|e logs IH]; intros ix p p' H; simpl in H; [by go_inv|].
  apply bind_Ok in H as (b & _ & H). apply bind_Ok in H as (p1 & H1 & H).
  apply send_kept in H1 as [<- <-]. by apply IH in H.
Qed.

Lemma send_changed_kept logs : forall ix p p',
  send_changed ix logs p = Ok p' -> state p' = state p /\ statFile p' = statFile p.
Proof.
  induction logs as [|e logs IH]; intros ix p p' H; simpl in H; [by go_inv|].
  apply bind_Ok in H as (b & _ & H). apply bind_Ok in H as (ch & _ & H). apply bind_Ok in H as (p1 & H1 & H).
  destruct ch; [apply send_kept in H1 as [<- <-]|go_inv]; by apply IH in H.
Qed.

Lemma Save_files p snap st logs li lt ci p' :
  Save p snap st logs li lt ci = Ok p' -> file_state (statFile p') = st /\ RaftSate (state p') = st.
Proof.
  unfold Save, filter. intros H.
  assert (exists p1, state p' = state p1 /\ statFile p' = statFile p1 /\ RaftSate (state p1) = st
    /\ statFile p1 = Some (Marshal_IndexState (state p1))) as (p1 & -> & -> & Er & ->).
  { destruct (_ <=? _) in H; [apply send_all_kept in H as [E1 E2]|apply send_changed_kept in H as [E1 E2]];
      eexists; (split; [exact E1|]; split; [exact E2|done]). }
  by rewrite file_state_save.
Qed.

Lemma saveSnapToDisk_kept p p' : saveSnapToDisk p = Ok p' -> file_kept p p'.
Proof.
  unfold saveSnapToDisk. intros H. destruct (negb _) in H; [|by go_inv; apply file_kept_refl].
  destruct (TruncateFront _ _) as [l [[]| |]]; try done. go_inv.
  split; [done|]. right. eexists. split; [done|]. done.
Qed.

Lemma saveLogToDisk_kept p e p' : saveLogToDisk p e = Ok p' -> file_kept p p'.
Proof.
  unfold saveLogToDisk. intros H. apply bind_Ok in H as (p1 & H1 & H).
  assert (file_kept p p1) as Hk.
  { destruct (_ <? _) in H1; [by apply saveSnapToDisk_kept in H1|].
    destruct (_ <? _) in H1; [|go_inv; by split; [|left]].
    destruct (TruncateBack _ _) as [l [[]| |]]; try done. go_inv. by split; [|left]. }
  apply (file_kept_trans _ _ _ Hk).
  destruct (Write _ _ _) as [l [[]| |]]; go_inv; [|by split; [|left]].
  split; [done|]. right. eexists. split; [done|]. done.
Qed.

Lemma bg_step_kept p p' : bg_step p p' -> file_kept p p'.
Proof.
  destruct 1 as [p' H|e p' _ H|p' H]; eauto using saveSnapToDisk_kept, saveLogToDisk_kept.
  unfold saveLogToDisk_take in H. repeat case_match; simplify_eq. by split; [|left].
Qed.

Lemma file_state_empty : file_state (Some []) = mkState (-1) 0.
Proof. unfold file_state. destruct (_ ≫= _); [|done]. by rewrite decide_True. Qed.

(** A restart reads the state file into memory. *)
Lemma loadState_file p p' :
  RaftSate (state p) = mkState (-1) 0 -> loadState p = Ok p' ->
  file_state (statFile p') = file_state (statFile p) /\ RaftSate (state p') = file_state (statFile p).
Proof.
  unfold loadState. intros Hinit H.
  pose proof file_state_empty as Hnil.
  destruct (statFile p) as [b|] eqn:Ef; simpl in H.
  - destruct (Z.ltb_spec 0 (zlen b)) as [Hb|Hb].
    + destruct (Unmarshal_IndexState b) as [s|] eqn:Eu; [|done]. go_inv. rewrite Ef. split; [done|].
      unfold file_state. simpl. rewrite Eu, decide_False; [done|]. intros [= ->]. done.
    + go_inv. assert (b = []) as -> by (destruct b as [|x b]; [done|rewrite zlen_cons in Hb; pose proof (zlen_nonneg b); lia]).
      rewrite Ef. by rewrite Hnil.
  - go_inv. rewrite Hnil. done.
Qed.

Lemma MakePersister_file wal f snaps p' :
  MakePersister wal f snaps = Ok p' ->
  file_state (statFile p') = file_state f /\ RaftSate (state p') = file_state f.
Proof.
  unfold MakePersister. intros H. destruct (Open _ _) as [l [[]| |]]; try done.
  unfold initFromDisk in H. destruct (loadSnaps _ _) as [snap d].
  apply bind_Ok in H as (p1 & H1 & H). apply loadState_file in H1; [|done]. simpl in H1.
  destruct (_ =? -1) in H.
  - destruct (Marshal_Entry zero_Entry); [|done]. go_inv. done.
  - apply bind_Ok in H as ([l' sums] & _ & H). go_inv. done.
Qed.

Lemma restart_file p p' :
  restart p = Ok p' ->
  file_state (statFile p') = file_state (statFile p) /\ RaftSate (state p') = file_state (statFile p).
Proof. apply MakePersister_file. Qed.

Lemma ReadRaftState_file p p' logs v t c :
  ReadRaftState p = Ok (p', (logs, v, t, c)) -> state p' = state p /\ statFile p' = statFile p
    /\ RaftSate (state p) = mkState v t.
Proof.
  unfold ReadRaftState. intros H. apply bind_Ok in H as (? & _ & H).
  apply bind_Ok in H as ([l es] & _ & H). go_inv. split_and!; [done..|]. by destruct (RaftSate (state p)).
Qed.

(** The background steps are those of a synced persister; every persister that
    [restart] returns or [Save] has been called on is synced, and stays it. *)
#[export] Instance persister_store : RaftStore Persister := {
  Save := PS.Save;
  ReadRaftState := PS.ReadRaftState;
  ReadSnapshot := PS.ReadSnapshot;
  background p p' := synced p /\ bg_step p p';
  reboot := restart;
  durable p := file_state (statFile p)
}.

#[export] Instance persister_store_laws : RaftStoreLaws Persister.
Proof.
  split; simpl.
  - intros p snap st logs li lt ci p' H. by apply Save_files in H as [? _].
  - intros p p' [Hs H]. apply bg_step_kept in H. by destruct (file_kept_synced _ _ Hs H).
  - intros p p' H. by apply restart_file in H as [? _].
  - intros p p' p'' logs v t c H1 H2. apply restart_file in H1 as [E1 E2].
    apply ReadRaftState_file in H2 as (Es & Ef & Ev). rewrite Ef. split; congruence.
Qed.

(** A crash at any moment.  [writes p s]: a critical section that starts in [p]
    has [saveState] write [s], either [Save], which keeps the bounds of the log,
    or one of the goroutines. *)
Definition saved p (ci : Z) (st : State) : IndexState :=
  mkIndexState (FirstIndex (state p)) (LastIndex (state p)) ci st.

Inductive writes p : IndexState -> Prop :=
  | writes_Save ci st : writes p (saved p ci st)
  | writes_bg p' : bg_step p p' -> writes p (state p').

(** What a crash leaves of the state file: the file as it is between two writes;
    in the middle of a write, which truncates the file first, any outcome of
    FileUtil.v for the bytes written so far; or no file, as long as the name has
    not reached the disk, since the directory is never synced. *)
Inductive crash_stat p : option (list byte) -> Prop :=
  | crash_between : crash_stat p (statFile p)
  | crash_writing s n f :
      writes p s -> FU.after_crash (FU.write_bytes (Marshal_IndexState s) n (FU.open_trunc [statFile p])) f ->
      crash_stat p f
  | crash_unnamed : crash_stat p None.

(** The file is gone, or holds a part of what was being written. *)
Definition torn_stat p (f : option (list byte)) : Prop :=
  f = None \/ exists s k, writes p s /\ (k < length (Marshal_IndexState s))%nat /\ f = Some (take k (Marshal_IndexState s)).

Lemma bg_synced p1 p2 :
  rtc bg_step p1 p2 -> synced p1 -> synced p2 /\ file_state (statFile p2) = file_state (statFile p1).
Proof.
  induction 1 as [|p1 p1' p2 Hstep _ IH]; intros Hs1; [done|].
  destruct (file_kept_synced _ _ Hs1 (bg_step_kept _ _ Hstep)) as [Hs F]. destruct (IH Hs). split; [done|congruence].
Qed.

(** What a crash leaves, if it is not torn. *)
Lemma crash_stat_state p f :
  synced p -> crash_stat p f ->
  file_state f = RaftSate (state p) \/ (exists ci st, f = Some (Marshal_IndexState (saved p ci st)) /\ file_state f = st)
  \/ torn_stat p f.
Proof.
  intros Hs [|s n f' Hw Hc|]; [by left| |right; right; by left].
  apply FU.write_bytes_crash in Hc as [(k & _ & ->)|Hc].
  - destruct (decide (k < length (Marshal_IndexState s))%nat) as [Hk|Hk]; [right; right; right; eauto|].
    rewrite take_ge by lia. rewrite file_state_save. destruct Hw as [ci st|p' Hbg]; [right; left; by exists ci, st|left].
    destruct (file_kept_synced _ _ Hs (bg_step_kept _ _ Hbg)) as [Hs' F]. unfold synced in *. congruence.
  - unfold FU.after_crash, FU.open_trunc in Hc. apply elem_of_cons in Hc as [->|Hc%list_elem_of_singleton].
    + right; right; right. exists s, 0%nat. split_and!; [done| |done].
      pose proof (state_nonempty s). destruct (Marshal_IndexState s); [done|simpl; lia].
    + subst f'. by left.
Qed.

(** C16. The promise of the persister on the vote and the term, with a crash at
    any moment after a [Save] that returned, whatever steps the persister's
    goroutines have taken since.  A restart on whatever the crash has left of
    the other files, followed by [ReadRaftState], reads back the vote and the
    term of that [Save], or those of a later [Save] the crash interrupted, with
    one exception: the crash came in the middle of a write of the state file
    (it is truncated before it is written) and the file holds only a part of
    the new bytes, or the name of the file was never on disk (the directory is
    not synced) and there is no file.  An empty or missing file reads as no
    vote and term 0.  A system call of [saveState] that fails ends the process,
    which is such a crash. *)
Theorem Persister_durable p snap st logs li lt ci p1 p2 f wal snaps p3 p4 es v t c :
  PS.Save p snap st logs li lt ci = Ok p1 -> rtc bg_step p1 p2 -> crash_stat p2 f ->
  MakePersister wal f snaps = Ok p3 -> PS.ReadRaftState p3 = Ok (p4, (es, v, t, c)) ->
  synced p2 /\ synced p4
  /\ (mkState v t = st \/ (exists ci' st', f = Some (Marshal_IndexState (saved p2 ci' st')) /\ mkState v t = st')
      \/ torn_stat p2 f)
  /\ (f = None \/ f = Some [] -> v = -1 /\ t = 0).
Proof.
  intros H1 H2 Hf H3 H4. apply Save_files in H1 as [F1 R1].
  destruct (bg_synced _ _ H2 ltac:(unfold synced; congruence)) as [Hs2 F2].
  apply MakePersister_file in H3 as [F3 R3]. apply ReadRaftState_file in H4 as (Es & Ef & Ev).
  assert (file_state f = mkState v t) as Efs by congruence.
  split_and!; [done|unfold synced; rewrite Ef, Es; congruence| |].
  - destruct (crash_stat_state _ _ Hs2 Hf) as [E|[(ci' & st' & -> & E)|]]; [left|right; left|by do 2 right].
    + unfold synced in Hs2. congruence.
    + exists ci', st'. split; [done|congruence].
  - intros [->| ->]; [|rewrite file_state_empty in Efs]; by injection Efs.
Qed.

(** ** The log *)

(** The write-ahead log holds the entries [bs] from [FirstIndex] to [LastIndex],
    and perhaps older ones a snapshot covers. *)
Record ps_inv p (bs : list (list byte)) : Prop := {
  pi_log : exists kept, wal_inv (log p) (kept ++ bs)
    /\ FirstIndex (state p) = firstIndex (log p) + Z.of_nat (length kept);
  pi_last : LastIndex (state p) = lastIndex (log p)
}.

Lemma ps_inv_last p bs :
  ps_inv p bs -> LastIndex (state p) + 1 = FirstIndex (state p) + Z.of_nat (length bs)
    /\ 0 < FirstIndex (state p).
Proof.
  intros [(kept & (parts & tl & E & Hc & _ & Hl) & Ef) El]. rewrite length_app in Hl.
  pose proof (core_first _ _ _ _ Hc). lia.
Qed.

(** What the saving goroutine still has to write. *)
Definition pending p : list logEntry := option_list (saving p) ++ entryCh p.

Fixpoint numbered (ix : Z) (bs : list (list byte)) : list logEntry :=
  match bs with
  | [] => []
  | b :: bs => mkLogEntry ix b :: numbered (ix + 1) bs
  end.

(** The saving goroutine takes an entry, if it has none, and writes it. *)
Definition saver_turn p : go Persister :=
  match saving p with
  | Some e => saveLogToDisk p e
  | None => match saveLogToDisk_take p with
            | Some p' => match saving p' with Some e => saveLogToDisk p' e | None => mret p' end
            | None => mret p
            end
  end.

Fixpoint saver_runs (n : nat) p : go Persister :=
  match n with
  | O => mret p
  | S n => p' ← saver_turn p; saver_runs n p'
  end.

(** [p'] is [p] with another queue. *)
Definition same_but_queue p p' : Prop :=
  state p' = state p /\ snapshot p' = snapshot p /\ LastIdx p' = LastIdx p /\ log p' = log p
  /\ capCh p' = capCh p /\ checkSum p' = checkSum p /\ statFile p' = statFile p /\ snapDir p' = snapDir p.

Lemma same_but_queue_refl p : same_but_queue p p.
Proof. by split_and!. Qed.

Lemma same_but_queue_trans p1 p2 p3 : same_but_queue p1 p2 -> same_but_queue p2 p3 -> same_but_queue p1 p3.
Proof.
  intros (A1 & A2 & A3 & A4 & A5 & A6 & A7 & A8) (B1 & B2 & B3 & B4 & B5 & B6 & B7 & B8). split_and!; congruence.
Qed.

Lemma same_but_queue_inv p p' bs : same_but_queue p p' -> ps_inv p bs -> ps_inv p' bs.
Proof. intros (A1 & _ & _ & A4 & _) [H1 H2]. split; by rewrite A1, A4. Qed.

(** A send succeeds while the channel and the saving goroutine have room. *)
Lemma send_room e p :
  0 < capCh p -> zlen (pending p) <= capCh p ->
  exists p', send e p = Ok p' /\ pending p' = pending p ++ [e] /\ same_but_queue p p'.
Proof.
  unfold pending, send. intros Hcap Hlen. rewrite zlen_app in Hlen.
  destruct (Z.ltb_spec (zlen (entryCh p)) (capCh p)).
  - eexists. split; [done|]. simpl. by rewrite app_assoc.
  - destruct (saving p) as [h|] eqn:Es; simpl in Hlen; [rewrite zlen_cons, zlen_nil in Hlen; lia|].
    destruct (entryCh p) as [|h q] eqn:Eq; [rewrite zlen_nil in *; lia|]. eexists. split; [done|]. done.
Qed.

Lemma send_all_room logs bs : forall ix p,
  Forall2 (fun e b => Marshal_Entry e = Some b) logs bs -> 0 < capCh p ->
  zlen (pending p) + zlen bs <= capCh p + 1 ->
  exists p', send_all ix logs p = Ok p' /\ pending p' = pending p ++ numbered ix bs /\ same_but_queue p p'.
Proof.
  intros ix p Hm. revert ix p. induction Hm as [|e b logs bs Hb Hm IH]; intros ix p Hcap Hlen.
  { exists p. by rewrite app_nil_r. }
  rewrite zlen_cons in Hlen. pose proof (zlen_nonneg bs).
  cbn [send_all]. rewrite Hb. cbn [deref]. go_step.
  destruct (send_room (mkLogEntry ix b) p Hcap) as (p1 & -> & E1 & S1); [lia|]. go_step.
  destruct (IH (ix + 1) p1) as (p2 & -> & E2 & S2).
  { by destruct S1 as (_ & _ & _ & _ & -> & _). }
  { destruct S1 as (_ & _ & _ & _ & -> & _). rewrite E1, zlen_app, zlen_cons, zlen_nil. lia. }
  exists p2. split; [done|]. split; [by rewrite E2, E1, <- app_assoc|by eapply same_but_queue_trans].
Qed.

(** Entries past the end of the log are all sent. *)
Lemma send_changed_new logs : forall ix p,
  LastIndex (state p) < ix -> send_changed ix logs p = send_all ix logs p.
Proof.
  induction logs as [|e logs IH]; intros ix p Hix; [done|]. cbn [send_changed send_all].
  destruct (Marshal_Entry e) as [b|]; [|done]. cbn [deref]. go_step.
  destruct (Z.ltb_spec (LastIndex (state p)) ix); [|lia]. go_step.
  destruct (send _ p) as [p1| |] eqn:E; [|done|done]. go_step. apply send_kept in E as [E _].
  apply IH. rewrite E. lia.
Qed.

(** Entries whose checksums match are not. *)
Lemma send_changed_old logs bs rest : forall ix p,
  Forall2 (fun e b => Marshal_Entry e = Some b) logs bs ->
  ix + zlen bs <= LastIndex (state p) + 1 ->
  (forall k b, bs !! k = Some b -> idx (checkSum p) (ix + Z.of_nat k - FirstIndex (state p)) = Ok (ChecksumIEEE b)) ->
  send_changed ix (logs ++ rest) p = send_changed (ix + zlen bs) rest p.
Proof.
  intros ix p Hm. revert ix p. induction Hm as [|e b logs bs Hb Hm IH]; intros ix p Hix Hs.
  { by rewrite zlen_nil, Z.add_0_r. }
  rewrite zlen_cons in Hix. pose proof (zlen_nonneg bs).
  cbn [app send_changed]. rewrite Hb. cbn [deref]. go_step.
  destruct (Z.ltb_spec (LastIndex (state p)) ix); [lia|].
  pose proof (Hs 0%nat b eq_refl) as Hs0. rewrite Z.add_0_r in Hs0. rewrite Hs0. go_step.
  rewrite Z.eqb_refl. cbn [negb]. go_step. rewrite IH; [f_equal; rewrite zlen_cons; lia|lia|].
  intros k c Hk. rewrite <- (Hs (S k) c Hk). f_equal. lia.
Qed.

(** The saving goroutine writes the next entry. *)
Lemma saveLogToDisk_next p bs b :
  ps_inv p bs -> small b -> SnapLastIndex (snapshot p) <= LastIndex (state p) ->
  exists p', saveLogToDisk p (mkLogEntry (LastIndex (state p) + 1) b) = Ok p' /\ ps_inv p' (bs ++ [b])
    /\ saving p' = None /\ entryCh p' = entryCh p /\ snapshot p' = snapshot p
    /\ state p' = set_LastIndex (LastIndex (state p) + 1) (state p)
    /\ statFile p' = Some (Marshal_IndexState (state p')) /\ checkSum p' = checkSum p ++ [ChecksumIEEE b]
    /\ capCh p' = capCh p.
Proof.
  intros [(kept & Hw & Ef) El] Hb Hsn. unfold saveLogToDisk.
  cbn [state snapshot set_saving Index EntryBytes].
  destruct (Z.ltb_spec (LastIndex (state p)) (SnapLastIndex (snapshot p))); [lia|].
  destruct (Z.ltb_spec (LastIndex (state p) + 1) (LastIndex (state p))); [lia|]. go_step.
  cbn [log set_saving]. rewrite El.
  destruct (Write_next (log p) (kept ++ bs) b Hw Hb) as (l' & -> & Hw' & Ef' & El').
  eexists. split; [done|]. cbn [saveState set_statFile set_state set_checkSum set_log set_saving state log
    saving entryCh snapshot statFile checkSum capCh]. rewrite El'. split; [|done].
  split; simpl; [|by rewrite El']. exists kept. rewrite app_assoc, Ef'. done.
Qed.

Lemma saver_turn_head p e rest :
  pending p = e :: rest ->
  exists p1, saver_turn p = saveLogToDisk p1 e /\ entryCh p1 = rest /\ same_but_queue p p1.
Proof.
  unfold saver_turn, saveLogToDisk_take, pending. intros Hq.
  destruct (saving p) as [e'|]; simpl in Hq.
  - exists p. injection Hq as -> Hq. by split_and!.
  - rewrite Hq. eexists. split; [done|]. by split_and!.
Qed.

Lemma saver_runs_new new : forall p bs,
  ps_inv p bs -> Forall small new -> SnapLastIndex (snapshot p) <= LastIndex (state p) ->
  pending p = numbered (LastIndex (state p) + 1) new -> statFile p = Some (Marshal_IndexState (state p)) ->
  exists p', saver_runs (length new) p = Ok p' /\ ps_inv p' (bs ++ new) /\ pending p' = []
    /\ state p' = set_LastIndex (LastIndex (state p) + zlen new) (state p) /\ snapshot p' = snapshot p
    /\ statFile p' = Some (Marshal_IndexState (state p')) /\ checkSum p' = checkSum p ++ map ChecksumIEEE new
    /\ capCh p' = capCh p.
Proof.
  induction new as [|b new IH]; intros p bs Hinv Hs Hsn Hq Hf.
  { exists p. rewrite !app_nil_r, zlen_nil, Z.add_0_r. split_and!; try done. by destruct (state p). }
  apply Forall_cons_1 in Hs as [Hb Hs]. cbn [length saver_runs].
  destruct (saver_turn_head p _ _ Hq) as (p1 & -> & Eq & Sq).
  pose proof Sq as (A1 & A2 & _ & _ & A5 & A6 & _).
  destruct (saveLogToDisk_next p1 bs b) as (p2 & Hrun & Hi2 & E1 & E2 & E3 & E4 & E5 & E6 & E7);
    [by eapply same_but_queue_inv|done|by rewrite A1, A2|].
  rewrite A1 in Hrun, E4. rewrite Hrun. go_step.
  destruct (IH p2 (bs ++ [b])) as (p' & Hr & Hi & Hp & Est & Esn & Efl & Ecs & Eca);
    [done|done|rewrite E3, E4, A2; simpl; lia| |done|].
  { unfold pending. rewrite E1, E2, Eq, E4. done. }
  exists p'. rewrite Hr. split_and!; try done.
  - by rewrite <- app_assoc in Hi.
  - rewrite Est, E4, zlen_cons. unfold set_LastIndex. simpl. f_equal. lia.
  - congruence.
  - rewrite Ecs, E6, A6, <- app_assoc. done.
  - congruence.
Qed.

(** The checksums kept in memory are right for the entries [Save] compares:
    those after the snapshot and the commit index that are in the log. *)
Definition sums_match p (lbs : list (list byte)) (li ci : Z) : Prop :=
  forall k b, lbs !! k = Some b -> Z.max li ci < li + 1 + Z.of_nat k <= LastIndex (state p) ->
    idx (checkSum p) (li + 1 + Z.of_nat k - FirstIndex (state p)) = Ok (ChecksumIEEE b).

(** [Save] on a log that continues the one on disk queues the new entries. *)
Lemma Save_queues p bs snap st logs lbs li lt ci new :
  ps_inv p bs -> pending p = [] -> 0 < capCh p ->
  Forall2 (fun e b => Marshal_Entry e = Some b) logs lbs ->
  FirstIndex (state p) - 1 <= li <= LastIndex (state p) -> ci <= LastIndex (state p) ->
  lbs = drop (Z.to_nat (li + 1 - FirstIndex (state p))) bs ++ new ->
  sums_match p lbs li ci -> zlen new <= capCh p + 1 ->
  exists p1, PS.Save p snap st logs li lt ci = Ok p1
    /\ pending p1 = numbered (LastIndex (state p) + 1) new /\ snapshot p1 = mkSnapshot snap li lt
    /\ state p1 = mkIndexState (FirstIndex (state p)) (LastIndex (state p)) ci st
    /\ statFile p1 = Some (Marshal_IndexState (state p1)) /\ checkSum p1 = checkSum p /\ log p1 = log p
    /\ capCh p1 = capCh p.
Proof.
  intros Hinv Hq Hcap Hm Hli Hci Elbs Hsums Hnew. destruct (ps_inv_last p bs Hinv) as [Hlast H0].
  unfold PS.Save. set (p0 := set_snapshot _ _).
  assert (state p0 = mkIndexState (FirstIndex (state p)) (LastIndex (state p)) ci st) as E0 by done.
  assert (exists p1, filter li logs p0 = Ok p1 /\ pending p1 = numbered (LastIndex (state p) + 1) new
    /\ same_but_queue p0 p1) as (p1 & Hrun & Eq & A1 & A2 & _ & A4 & A5 & A6 & A7 & _).
  2: { exists p1. rewrite A1, A2, A4, A5, A6, A7. split_and!; try done. }
  assert (pending p0 = []) as Hq0 by done. unfold filter. rewrite E0. cbn [LastIndex LastCommitIndex].
  assert (zlen (pending p0) + zlen new <= capCh p0 + 1) as Hroom by (rewrite Hq0, zlen_nil; simpl; lia).
  destruct (Z.leb_spec (LastIndex (state p)) li).
  - assert (li = LastIndex (state p)) as -> by lia. rewrite drop_ge in Elbs by lia. subst lbs.
    destruct (send_all_room logs new (LastIndex (state p) + 1) p0 Hm Hcap Hroom) as (p1 & Hrun & E & S).
    exists p1. by rewrite Hq0 in E.
  - set (i := Z.max 0 (ci - li)). set (old := drop (Z.to_nat (li + 1 - FirstIndex (state p))) bs) in Elbs.
    assert (zlen old = LastIndex (state p) - li) as Ho by (unfold old, zlen; rewrite length_drop; lia).
    assert (drop (Z.to_nat i) lbs = drop (Z.to_nat i) old ++ new) as Ed.
    { rewrite Elbs, drop_app_le; [done|]. unfold zlen in Ho. lia. }
    pose proof (Forall2_drop _ _ _ (Z.to_nat i) Hm) as Hm'. rewrite Ed in Hm'.
    apply Forall2_app_inv_r in Hm' as (l1 & l2 & Hm1 & Hm2 & El). rewrite El.
    assert (zlen (drop (Z.to_nat i) old) = LastIndex (state p) - li - i) as Hod.
    { rewrite zlen_drop; lia. }
    rewrite (send_changed_old l1 (drop (Z.to_nat i) old) l2); [|done|rewrite E0; simpl; lia|].
    2: { intros k b Hk. rewrite E0. cbn [FirstIndex]. change (checkSum p0) with (checkSum p).
         pose proof (lookup_lt_Some _ _ _ Hk) as Hkl. unfold zlen in Hod. rewrite lookup_drop in Hk.
         assert (lbs !! (Z.to_nat i + k)%nat = Some b) as Hkb
           by (rewrite Elbs, lookup_app_l; [done|by eapply lookup_lt_Some]).
         rewrite <- (Hsums _ b Hkb ltac:(lia)). f_equal. lia. }
    rewrite send_changed_new by (rewrite E0; simpl; lia).
    destruct (send_all_room l2 new (i + li + 1 + zlen (drop (Z.to_nat i) old)) p0 Hm2 Hcap Hroom)
      as (p1 & Hrun & E & S).
    exists p1. rewrite Hrun. split; [done|]. split; [|done]. rewrite E, Hq0, Hod. cbn [app]. f_equal. lia.
Qed.

Lemma Save_then_saver p bs snap st logs lbs li lt ci new :
  ps_inv p bs -> pending p = [] -> 0 < capCh p ->
  Forall2 (fun e b => Marshal_Entry e = Some b) logs lbs -> Forall small lbs ->
  FirstIndex (state p) - 1 <= li <= LastIndex (state p) -> ci <= LastIndex (state p) ->
  lbs = drop (Z.to_nat (li + 1 - FirstIndex (state p))) bs ++ new ->
  sums_match p lbs li ci -> zlen new <= capCh p + 1 ->
  exists p1 p2, PS.Save p snap st logs li lt ci = Ok p1 /\ saver_runs (length new) p1 = Ok p2
    /\ ps_inv p2 (bs ++ new) /\ pending p2 = []
    /\ state p2 = mkIndexState (FirstIndex (state p)) (LastIndex (state p) + zlen new) ci st
    /\ statFile p2 = Some (Marshal_IndexState (state p2))
    /\ checkSum p2 = checkSum p ++ map ChecksumIEEE new /\ capCh p2 = capCh p.
Proof.
  intros Hinv Hq Hcap Hm Hs Hli Hci Elbs Hsums Hnew.
  destruct (Save_queues p bs snap st logs lbs li lt ci new) as (p1 & Hrun & Eq & Esn & Est & Ef & Ec & El & Eca); try done.
  assert (ps_inv p1 bs) as Hi1.
  { destruct Hinv as [H1 H2]. split; rewrite Est, El; done. }
  rewrite Elbs in Hs. apply Forall_app in Hs as [_ Hs].
  destruct (saver_runs_new new p1 bs) as (p2 & Hr & Hi & Hp & Es2 & _ & Ef2 & Ec2 & Eca2); try done.
  { rewrite Esn, Est. simpl. lia. }
  { by rewrite Eq, Est. }
  exists p1, p2. split_and!; try done; [by rewrite Es2, Est|congruence..].
Qed.

(** ** Restart *)

Lemma load_sums_reads w first n : forall i l sums,
  wal_inv l w -> firstIndex l <= i -> i + Z.of_nat n - 1 <= lastIndex l ->
  first <= i -> i - first + Z.of_nat n <= zlen sums ->
  exists l' sums', load_sums n i first l sums = Ok (l', sums') /\ wal_inv l' w /\ same_store l l'
    /\ (forall k, (k < n)%nat -> exists b, w !! Z.to_nat (i + Z.of_nat k - firstIndex l) = Some b
          /\ sums' !! Z.to_nat (i + Z.of_nat k - first) = Some (ChecksumIEEE b))
    /\ (forall m, (m < Z.to_nat (i - first))%nat -> sums' !! m = sums !! m)
    /\ length sums' = length sums.
Proof.
  induction n as [|n IH]; intros i l sums Hw Hi1 Hi2 Hf Hlen.
  { exists l, sums. split_and!; try done; [apply same_store_refl|lia]. }
  destruct (Read_entry l w i Hw) as (l1 & b & Hb & Hrd & Hw1 & Hst1); [lia|].
  cbn [load_sums]. rewrite Hrd. destruct (idx_in_range sums (i - first)) as [x ->]; [lia|]. go_step.
  pose proof Hst1 as (_ & _ & _ & A4 & A5 & _).
  destruct (IH (i + 1) l1 (<[Z.to_nat (i - first) := ChecksumIEEE b]> sums))
    as (l' & sums' & Hrun & Hw' & Hst' & Hnew & Hold & Hl); [done|lia|lia|lia| |].
  { unfold zlen in *. rewrite length_insert. lia. }
  exists l', sums'. split_and!; try done.
  - by eapply same_store_trans.
  - intros k Hk. destruct k as [|k].
    + exists b. rewrite Z.add_0_r. split; [done|]. rewrite Hold by lia. apply list_lookup_insert_eq.
      unfold zlen in Hlen. lia.
    + destruct (Hnew k) as (b' & Hb' & Hs'); [lia|]. exists b'. rewrite A4 in Hb'.
      replace (i + Z.of_nat (S k)) with (i + 1 + Z.of_nat k) by lia. done.
  - intros m Hm. rewrite Hold by lia. apply list_lookup_insert_ne. lia.
  - by rewrite Hl, length_insert.
Qed.

Lemma read_entries_reads w es : forall i l bs,
  wal_inv l w -> firstIndex l <= i -> i + Z.of_nat (length es) - 1 <= lastIndex l ->
  drop (Z.to_nat (i - firstIndex l)) w = bs -> Forall2 (fun e b => Unmarshal_Entry b = Some e) es bs ->
  exists l', read_entries (length es) i l = Ok (l', map Some es) /\ wal_inv l' w /\ same_store l l'.
Proof.
  induction es as [|e es IH]; intros i l bs Hw Hi1 Hi2 Hd Hu.
  { exists l. split_and!; [done..|apply same_store_refl]. }
  apply Forall2_cons_inv_l in Hu as (b & bs' & Hb & Hu & ->). simpl length in *.
  destruct (Read_entry l w i Hw) as (l1 & b' & Hb' & Hrd & Hw1 & Hst1); [lia|].
  assert (b' = b) as -> by (apply (f_equal (lookup 0%nat)) in Hd; rewrite lookup_drop, Nat.add_0_r in Hd; simpl in Hd; congruence).
  cbn [read_entries]. rewrite Hrd, Hb. pose proof Hst1 as (_ & _ & _ & A4 & A5 & _).
  destruct (IH (i + 1) l1 bs') as (l' & Hrun & Hw' & Hst'); [done|lia|lia| |done|].
  { rewrite A4. replace (Z.to_nat (i + 1 - firstIndex l)) with (S (Z.to_nat (i - firstIndex l))) by lia.
    rewrite <- Nat.add_1_r, <- drop_drop, Hd. done. }
  rewrite Hrun. go_step. exists l'. split_and!; try done. by eapply same_store_trans.
Qed.

Lemma restart_sums p bs :
  ps_inv p bs -> statFile p = Some (Marshal_IndexState (state p)) ->
  exists p', restart p = Ok p' /\ ps_inv p' bs /\ state p' = state p /\ pending p' = [] /\ 100 <= capCh p'
    /\ statFile p' = statFile p /\ length (checkSum p') = Nat.max 16 (length bs)
    /\ forall k b, bs !! k = Some b -> idx (checkSum p') (Z.of_nat k) = Ok (ChecksumIEEE b).
Proof.
  intros Hinv Hf. destruct (ps_inv_last p bs Hinv) as [Hlast H0]. destruct Hinv as [(kept & Hw & Ef) El].
  unfold restart, MakePersister.
  destruct (open_existing (log p) (kept ++ bs) DefaultOptions Hw eq_refl) as (l1 & -> & Hw1 & Ef1 & El1).
  unfold initFromDisk. destruct (loadSnaps _ _) as [snap d]. unfold loadState. cbn [statFile set_snapDir set_snapshot].
  rewrite Hf. cbn [default]. simpl.
  destruct (Z.ltb_spec 0 (zlen (Marshal_IndexState (state p)))) as [_|Hz].
  2: { exfalso. apply (state_nonempty (state p)). destruct (Marshal_IndexState (state p)) as [|x m]; [done|].
       rewrite zlen_cons in Hz. pose proof (zlen_nonneg m). lia. }
  rewrite state_decodes. go_step. simpl.
  destruct (Z.eqb_spec (LastIndex (state p)) (-1)); [lia|].
  rewrite (Z.max_l (FirstIndex (state p)) 1) by lia. set (n1 := LastIndex (state p) - FirstIndex (state p) + 1).
  destruct (load_sums_reads (kept ++ bs) (FirstIndex (state p)) (Z.to_nat n1) (FirstIndex (state p)) l1
    (replicate (Z.to_nat (Z.max 16 n1)) 0)) as (l2 & sums & -> & Hw2 & Hst & Hsums & _ & Hl); [done|lia|lia|lia| |].
  { unfold zlen. rewrite length_replicate. lia. }
  go_step. eexists. split; [done|]. destruct Hst as (_ & _ & _ & A4 & A5 & _). split_and!; try done.
  - split; simpl; [|congruence]. exists kept. rewrite A4, Ef1. done.
  - simpl. lia.
  - simpl. rewrite Hl, length_replicate. lia.
  - intros k b Hk. simpl. pose proof (lookup_lt_Some _ _ _ Hk) as Hkl.
    destruct (Hsums k) as (b' & Hb' & Hs); [lia|].
    rewrite Ef1, lookup_app_r in Hb' by lia.
    replace (Z.to_nat _ - length kept)%nat with k in Hb' by lia. simplify_eq.
    apply idx_Ok. split; [lia|]. rewrite <- Hs. f_equal. lia.
Qed.

Lemma restart_then_read p bs es :
  ps_inv p bs -> statFile p = Some (Marshal_IndexState (state p)) ->
  Forall2 (fun e b => Unmarshal_Entry b = Some e) es bs ->
  exists p' p'', restart p = Ok p'
    /\ PS.ReadRaftState p' = Ok (p'', (Some (mkEntry (FirstIndex (state p) - 1) None) :: map Some es,
          VotedFor (RaftSate (state p)), CurrentTerm (RaftSate (state p)), LastCommitIndex (state p)))
    /\ ps_inv p'' bs /\ pending p'' = []
    /\ forall k b, bs !! k = Some b -> idx (checkSum p'') (Z.of_nat k) = Ok (ChecksumIEEE b).
Proof.
  intros Hinv Hf Hu. destruct (restart_sums p bs Hinv Hf) as (p' & Hr & Hi' & Es & Hq & _ & _ & _ & Hsums).
  destruct (ps_inv_last p bs Hinv) as [Hlast H0]. pose proof (Forall2_length _ _ _ Hu) as Hlen.
  destruct Hi' as [(kept & Hw & Ef) El]. rewrite Es in *.
  destruct (read_entries_reads (kept ++ bs) es (FirstIndex (state p)) (log p') bs Hw) as (l' & Hrd & Hw' & Hst);
    [lia|lia| |done|].
  { rewrite drop_app_ge by lia. replace (Z.to_nat _ - length kept)%nat with 0%nat by lia. done. }
  exists p', (set_log l' p'). split; [done|]. split.
  - unfold PS.ReadRaftState. rewrite Es. destruct (Z.ltb_spec (LastIndex (state p) - FirstIndex (state p) + 1) 0); [lia|].
    go_step. assert ((if 0 <? LastIndex (state p) then Z.to_nat (LastIndex (state p) - FirstIndex (state p) + 1) else 0%nat)
      = length es) as -> by (destruct (Z.ltb_spec 0 (LastIndex (state p))); lia).
    rewrite Hrd. go_step. rewrite Z.max_l by lia. done.
  - destruct Hst as (_ & _ & _ & A4 & A5 & _). split; [|done].
    split; simpl; rewrite ?Es, ?A4, ?A5; [by exists kept|done].
Qed.

(** C18. A restart reads back what the write-ahead log and the state file hold:
    the entries after the snapshot in order, behind a placeholder, with vote,
    term and commit index, and right checksums for all of them. *)
Theorem restart_reads_log p bs es :
  ps_inv p bs -> statFile p = Some (Marshal_IndexState (state p)) ->
  Forall2 (fun e b => Unmarshal_Entry b = Some e) es bs ->
  exists p' p'', restart p = Ok p'
    /\ PS.ReadRaftState p' = Ok (p'', (Some (mkEntry (FirstIndex (state p) - 1) None) :: map Some es,
          VotedFor (RaftSate (state p)), CurrentTerm (RaftSate (state p)), LastCommitIndex (state p)))
    /\ ps_inv p'' bs /\ pending p'' = []
    /\ forall k b, bs !! k = Some b -> idx (checkSum p'') (Z.of_nat k) = Ok (ChecksumIEEE b).
Proof. apply restart_then_read. Qed.

(** ** What goes wrong *)

(** A conflicting entry at the very end of the log is queued, but the saving
    goroutine cuts the log only for entries before the end. *)
Lemma saver_refused p bs b rest :
  ps_inv p bs -> SnapLastIndex (snapshot p) <= LastIndex (state p) ->
  pending p = mkLogEntry (LastIndex (state p)) b :: rest ->
  exists p', saver_turn p = Ok p' /\ ps_inv p' bs /\ pending p' = rest /\ state p' = state p
    /\ snapshot p' = snapshot p /\ checkSum p' = checkSum p /\ capCh p' = capCh p /\ statFile p' = statFile p.
Proof.
  intros [(kept & Hw & Ef) El] Hsn Hq.
  destruct (saver_turn_head p _ rest Hq) as (p1 & -> & Eq & A1 & A2 & _ & A4 & A5 & A6 & A7 & _).
  unfold saveLogToDisk. cbn [state snapshot set_saving Index EntryBytes]. rewrite A1, A2.
  destruct (Z.ltb_spec (LastIndex (state p)) (SnapLastIndex (snapshot p))); [lia|].
  destruct (Z.ltb_spec (LastIndex (state p)) (LastIndex (state p))); [lia|]. go_step.
  cbn [log set_saving]. rewrite A4, (Write_refused (log p) (kept ++ bs)) by (done || lia). go_step.
  eexists. split; [done|]. simpl. unfold pending. simpl. split; [|done].
  split; simpl; rewrite A1; [by exists kept|done].
Qed.

(** A log whose last entry was replaced, as a new leader does, never reaches
    the disk: [Save] queues the new entry, the saving goroutine drops it, and
    the write-ahead log keeps the old one, with nothing left in the queue. *)
Theorem last_conflict_kept p bs old new snap st logs lt ci :
  ps_inv p (bs ++ [old]) -> pending p = [] -> 0 < capCh p ->
  Forall2 (fun e b => Marshal_Entry e = Some b) logs (bs ++ [new]) ->
  ci < LastIndex (state p) ->
  (forall k b, (bs ++ [old]) !! k = Some b -> idx (checkSum p) (Z.of_nat k) = Ok (ChecksumIEEE b)) ->
  ChecksumIEEE new <> ChecksumIEEE old ->
  exists p1 p2, PS.Save p snap st logs (FirstIndex (state p) - 1) lt ci = Ok p1
    /\ saver_runs 1 p1 = Ok p2 /\ ps_inv p2 (bs ++ [old]) /\ pending p2 = [].
Proof.
  intros Hinv Hq Hcap Hm Hci Hsums Hne. destruct (ps_inv_last _ _ Hinv) as [Hlast H0].
  rewrite length_app in Hlast. simpl in Hlast. unfold PS.Save. set (p0 := set_snapshot _ _).
  set (li := FirstIndex (state p) - 1).
  assert (state p0 = mkIndexState (FirstIndex (state p)) (LastIndex (state p)) ci st) as E0 by done.
  unfold filter. rewrite E0. cbn [LastIndex LastCommitIndex].
  destruct (Z.leb_spec (LastIndex (state p)) li); [lia|].
  set (i := Z.max 0 (ci - li)).
  assert (drop (Z.to_nat i) (bs ++ [new]) = drop (Z.to_nat i) bs ++ [new]) as Ed by (rewrite drop_app_le; [done|lia]).
  pose proof (Forall2_drop _ _ _ (Z.to_nat i) Hm) as Hm'. rewrite Ed in Hm'.
  apply Forall2_app_inv_r in Hm' as (l1 & l2 & Hm1 & Hm2 & ->).
  apply Forall2_cons_inv_r in Hm2 as (e & l3 & He & Hm3 & ->). apply Forall2_nil_inv_r in Hm3 as ->.
  assert (zlen (drop (Z.to_nat i) bs) = Z.of_nat (length bs) - i) as Hod by (rewrite zlen_drop; unfold zlen; lia).
  rewrite (send_changed_old l1 (drop (Z.to_nat i) bs)); [|done|rewrite E0; simpl; lia|].
  2: { intros k b Hk. rewrite E0. cbn [FirstIndex]. change (checkSum p0) with (checkSum p).
       rewrite lookup_drop in Hk. pose proof (lookup_lt_Some _ _ _ Hk).
       rewrite <- (Hsums (Z.to_nat i + k)%nat b) by (by rewrite lookup_app_l). f_equal. lia. }
  cbn [send_changed]. rewrite He. cbn [deref]. go_step. rewrite E0. cbn [LastIndex FirstIndex].
  replace (i + li + 1 + zlen (drop (Z.to_nat i) bs)) with (LastIndex (state p)) by lia.
  destruct (Z.ltb_spec (LastIndex (state p)) (LastIndex (state p))); [lia|].
  change (checkSum p0) with (checkSum p).
  replace (LastIndex (state p) - FirstIndex (state p)) with (Z.of_nat (length bs)) by lia.
  rewrite (Hsums (length bs) old) by (by rewrite lookup_app_r, Nat.sub_diag by lia). go_step.
  destruct (Z.eqb_spec (ChecksumIEEE new) (ChecksumIEEE old)); [done|]. cbn [negb].
  assert (pending p0 = []) as Hq0 by done.
  destruct (send_room (mkLogEntry (LastIndex (state p)) new) p0) as (p1 & -> & Eq & Sq); [done|rewrite Hq0, zlen_nil; simpl; lia|].
  go_step. exists p1. rewrite Hq0 in Eq. pose proof Sq as (A1 & A2 & _ & A4 & _).
  destruct (saver_refused p1 (bs ++ [old]) new []) as (p2 & Hr & Hi & Hp & _).
  - destruct Hinv as [(kept & Hw & Ef) El]. split; rewrite A1, A4, E0; [by exists kept|done].
  - rewrite A1, A2, E0. simpl. lia.
  - rewrite Eq, A1, E0. done.
  - exists p2. cbn [saver_runs]. rewrite Hr. done.
Qed.

(** The persister of a node that starts for the first time. *)
Lemma fresh_persister z :
  Marshal_Entry zero_Entry = Some z ->
  exists p, MakePersister ∅ None ∅ = Ok p /\ ps_inv p [] /\ state p = mkIndexState 1 0 0 (mkState (-1) 0)
    /\ pending p = [] /\ capCh p = 100 /\ checkSum p = ChecksumIEEE z :: replicate 15 0
    /\ statFile p = Some [] /\ SnapLastIndex (snapshot p) = 0.
Proof.
  intros Hz. unfold MakePersister.
  destruct (open_new DefaultOptions eq_refl) as (l & -> & Hw & Ef & El).
  unfold initFromDisk, snapNames. cbn [snapDir]. rewrite map_to_list_empty. cbn [fmap list_fmap].
  cbn [merge_sort merge_sort_aux merge_stack loadSnaps]. unfold loadState. simpl. rewrite Hz. eexists. split; [done|].
  split; [|done]. split; simpl; [|by rewrite El]. exists []. by rewrite Ef.
Qed.

(** ** Saving after a start *)













(** [Save] sends no entry up to the commit index it is given: when that is past
    the log on disk, as line 556 of raft.go allows, the new entries below it
    never get there. *)
Theorem committed_not_saved p snap st logs li lt ci :
  li < LastIndex (state p) -> li + zlen logs <= ci ->
  exists p1, PS.Save p snap st logs li lt ci = Ok p1 /\ pending p1 = pending p /\ log p1 = log p.
Proof.
  intros Hl Hc. unfold PS.Save, filter. simpl. destruct (Z.leb_spec (LastIndex (state p)) li); [lia|].
  pose proof (zlen_nonneg logs). rewrite drop_ge by (unfold zlen in *; lia). by eexists.
Qed.

(** An entry with a wrong checksum is sent again. *)
Lemma send_changed_conflict e b x logs ix p :
  Marshal_Entry e = Some b -> ix <= LastIndex (state p) -> idx (checkSum p) (ix - FirstIndex (state p)) = Ok x ->
  ChecksumIEEE b <> x -> 0 < capCh p -> zlen (pending p) <= capCh p ->
  exists p', send_changed ix (e :: logs) p = send_changed (ix + 1) logs p'
    /\ pending p' = pending p ++ [mkLogEntry ix b] /\ same_but_queue p p'.
Proof.
  intros He Hix Hx Hne Hcap Hq. cbn [send_changed]. rewrite He. cbn [deref]. go_step.
  destruct (Z.ltb_spec (LastIndex (state p)) ix); [lia|]. rewrite Hx. go_step.
  destruct (Z.eqb_spec (ChecksumIEEE b) x); [done|]. cbn [negb].
  destruct (send_room (mkLogEntry ix b) p Hcap Hq) as (p' & -> & Ep & Sp). go_step. by exists p'.
Qed.

(** [Save] of the whole log, no entry committed, on a node with entries on
    disk: a run over the log. *)
Lemma Save_uncommitted p snap st logs lt :
  0 < LastIndex (state p) ->
  exists p0, PS.Save p snap st logs 0 lt 0 = send_changed 1 logs p0
    /\ state p0 = mkIndexState (FirstIndex (state p)) (LastIndex (state p)) 0 st
    /\ snapshot p0 = mkSnapshot snap 0 lt /\ log p0 = log p /\ pending p0 = pending p
    /\ checkSum p0 = checkSum p /\ capCh p0 = capCh p /\ statFile p0 = Some (Marshal_IndexState (state p0)).
Proof.
  intros Hl. unfold PS.Save, filter. simpl. destruct (Z.leb_spec (LastIndex (state p)) 0); [lia|].
  eexists. split; [done|]. done.
Qed.

Lemma TruncateBack_zero l es : wal_inv l es -> TruncateBack 0 l = (l, Err ErrOutOfRange).
Proof. intros Hw. unfold TruncateBack. by rewrite (guard_open_core l es). Qed.

(** The second of the two runs: the entries 1 and 2 are on disk, and 1 is sent
    again. *)
Lemma resend_first_fatal p bs b rest :
  ps_inv p bs -> SnapLastIndex (snapshot p) <= LastIndex (state p) -> 1 < LastIndex (state p) ->
  pending p = mkLogEntry 1 b :: rest -> saver_runs 1 p = Panic.
Proof.
  intros [(kept & Hw & Ef) El] Hsn Hl Hq. cbn [saver_runs].
  destruct (saver_turn_head p _ _ Hq) as (p1 & -> & Eq & A1 & A2 & _ & A4 & _).
  unfold saveLogToDisk. cbn [state snapshot set_saving Index EntryBytes]. rewrite A1, A2.
  destruct (Z.ltb_spec (LastIndex (state p)) (SnapLastIndex (snapshot p))); [lia|].
  destruct (Z.ltb_spec 1 (LastIndex (state p))); [|lia].
  cbn [log set_saving]. change (1 - 1) with 0. by rewrite A4, (TruncateBack_zero _ _ Hw).
Qed.

(** The second save of a new node: entry 1 is sent again and refused, entry 2
    is written. *)
Lemma save_second p x e1 e2 b1 b2 st :
  ps_inv p [b1] -> pending p = [] -> state p = mkIndexState 1 1 0 st -> capCh p = 100 ->
  idx (checkSum p) 0 = Ok x -> ChecksumIEEE b1 <> x ->
  Marshal_Entry e1 = Some b1 -> Marshal_Entry e2 = Some b2 -> small b2 ->
  exists p2 p2', PS.Save p [] st [e1; e2] 0 0 0 = Ok p2 /\ saver_runs 2 p2 = Ok p2'
    /\ ps_inv p2' [b1; b2] /\ pending p2' = [] /\ state p2' = mkIndexState 1 2 0 st /\ capCh p2' = 100
    /\ checkSum p2' = checkSum p ++ [ChecksumIEEE b2].
Proof.
  intros Hi Hq Es Hcap Hx Hne H1 H2 Hs2.
  destruct (Save_uncommitted p [] st [e1; e2] 0) as (q0 & HS & E1 & E2 & E3 & E4 & E5 & E6 & E7); [by rewrite Es|].
  rewrite Es in E1. cbn [FirstIndex LastIndex] in E1.
  destruct (send_changed_conflict e1 b1 x [e2] 1 q0) as (q1 & HC1 & EC1 & SC1);
    [done|by rewrite E1|by rewrite E1, E5|done|lia|rewrite E4, Hq, zlen_nil; lia|].
  pose proof SC1 as (A1 & A2 & _ & A4 & A5 & A6 & A7 & _).
  destruct (send_all_room [e2] [b2] 2 q1) as (q2 & HC2 & EC2 & SC2);
    [by constructor|lia|rewrite EC1, E4, Hq, A5, E6, Hcap; by vm_compute|].
  pose proof SC2 as (B1 & B2 & _ & B4 & B5 & B6 & B7 & _).
  rewrite HS, HC1, (send_changed_new [e2]) by (rewrite A1, E1; simpl; lia). change (1 + 1) with 2. rewrite HC2.
  exists q2. rewrite EC1, E4, Hq in EC2. cbn [app numbered] in EC2.
  destruct (saver_refused q2 [b1] b1 [mkLogEntry 2 b2]) as (r1 & Hr1 & Hi1 & Hq1 & C1 & C2 & C3 & C4 & C5).
  { destruct Hi as [(kept & Hw & Ef) El]. split; rewrite B1, A1, B4, A4, E1, E3; rewrite Es in *; [by exists kept|done]. }
  { rewrite B2, A2, E2, B1, A1, E1. done. }
  { by rewrite EC2, B1, A1, E1. }
  destruct (saver_runs_new [b2] r1 [b1]) as (r2 & Hr2 & Hi2 & Hq2 & D1 & D2 & _ & D4 & D5);
    [done|by constructor|rewrite C2, B2, A2, E2, C1, B1, A1, E1; done|by rewrite Hq1, C1, B1, A1, E1
    |by rewrite C5, B7, A7, E7, C1, B1, A1|].
  exists r2. split; [done|]. split; [cbn [saver_runs length] in *; rewrite Hr1; go_step; exact Hr2|].
  split_and!; try done; [by rewrite D1, C1, B1, A1, E1|lia|by rewrite D4, C3, B6, A6, E5].
Qed.

Lemma save_third p x e1 e2 e3 b1 b2 b3 st :
  ps_inv p [b1; b2] -> pending p = [] -> state p = mkIndexState 1 2 0 st -> capCh p = 100 ->
  idx (checkSum p) 0 = Ok x -> ChecksumIEEE b1 <> x -> idx (checkSum p) 1 = Ok 0 -> ChecksumIEEE b2 <> 0 ->
  Marshal_Entry e1 = Some b1 -> Marshal_Entry e2 = Some b2 -> Marshal_Entry e3 = Some b3 ->
  exists p3, PS.Save p [] st [e1; e2; e3] 0 0 0 = Ok p3 /\ saver_runs 1 p3 = Panic.
Proof.
  intros Hi Hq Es Hcap Hx Hne Hx2 Hne2 H1 H2 H3.
  destruct (Save_uncommitted p [] st [e1; e2; e3] 0) as (q0 & HS & E1 & E2 & E3 & E4 & E5 & E6 & E7); [by rewrite Es|].
  rewrite Es in E1. cbn [FirstIndex LastIndex] in E1.
  destruct (send_changed_conflict e1 b1 x [e2; e3] 1 q0) as (q1 & HC1 & EC1 & SC1);
    [done|by rewrite E1|by rewrite E1, E5|done|lia|rewrite E4, Hq, zlen_nil; lia|].
  pose proof SC1 as (A1 & A2 & _ & A4 & A5 & A6 & _).
  destruct (send_changed_conflict e2 b2 0 [e3] 2 q1) as (q2 & HC2 & EC2 & SC2);
    [done|by rewrite A1, E1|by rewrite A1, E1, A6, E5|done|lia|rewrite EC1, E4, Hq, A5, E6, Hcap; by vm_compute|].
  pose proof SC2 as (B1 & B2 & _ & B4 & B5 & _).
  destruct (send_all_room [e3] [b3] 3 q2) as (q3 & HC3 & EC3 & SC3);
    [by constructor|lia|rewrite EC2, EC1, E4, Hq, B5, A5, E6, Hcap; by vm_compute|].
  pose proof SC3 as (C1 & C2 & _ & C4 & _). change (1 + 1) with 2 in HC1. change (2 + 1) with 3 in HC2.
  rewrite HS, HC1, HC2, (send_changed_new [e3]) by (rewrite B1, A1, E1; simpl; lia). rewrite HC3.
  exists q3. split; [done|]. rewrite EC2, EC1, E4, Hq in EC3. cbn [app numbered] in EC3.
  apply (resend_first_fatal q3 [b1; b2] b1 [mkLogEntry 2 b2; mkLogEntry 3 b3]).
  - destruct Hi as [(kept & Hw & Ef) El].
    split; rewrite C1, B1, A1, C4, B4, A4, E1, E3; rewrite Es in *; [by exists kept|done].
  - by rewrite C2, B2, A2, E2, C1, B1, A1, E1.
  - by rewrite C1, B1, A1, E1.
  - exact EC3.
Qed.

(** A new node that saves three entries one after the other, none of them
    committed yet, ends its own process, even if the saving goroutine keeps up:
    the checksum slice starts with sixteen values and new checksums go behind
    them, so the entries on disk look changed and are sent again, and cutting
    the log before entry 1 is fatal. *)
Theorem fresh_saves_fatal z e1 e2 e3 b1 b2 b3 st :
  Marshal_Entry zero_Entry = Some z -> Marshal_Entry e1 = Some b1 -> Marshal_Entry e2 = Some b2 ->
  Marshal_Entry e3 = Some b3 -> small b1 -> small b2 ->
  ChecksumIEEE b1 <> ChecksumIEEE z -> ChecksumIEEE b2 <> 0 ->
  exists p0 p1 p1' p2 p2' p3,
    MakePersister ∅ None ∅ = Ok p0
    /\ PS.Save p0 [] st [e1] 0 0 0 = Ok p1 /\ saver_runs 1 p1 = Ok p1' /\ pending p1' = []
    /\ PS.Save p1' [] st [e1; e2] 0 0 0 = Ok p2 /\ saver_runs 2 p2 = Ok p2' /\ pending p2' = []
    /\ PS.Save p2' [] st [e1; e2; e3] 0 0 0 = Ok p3 /\ saver_runs 1 p3 = Panic.
Proof.
  intros Hz H1 H2 H3 Hs1 Hs2 Hc1 Hc2.
  destruct (fresh_persister z Hz) as (p0 & Hp0 & Hi0 & Es0 & Hq0 & Hcap0 & Hcs0 & _).
  destruct (Save_then_saver p0 [] [] st [e1] [b1] 0 0 0 [b1])
    as (p1 & p1' & Hp1 & Hr1 & Hi1 & Hq1 & Es1 & _ & Hcs1 & Hcap1);
    [done|done|lia|by constructor|by constructor|rewrite Es0; simpl; lia|rewrite Es0; simpl; lia
    |by rewrite drop_nil| |by rewrite Hcap0|].
  { intros k b _ Hk. rewrite Es0 in Hk. simpl in Hk. lia. }
  rewrite Es0 in Es1. rewrite Hcs0 in Hcs1. rewrite Hcap0 in Hcap1.
  destruct (save_second p1' (ChecksumIEEE z) e1 e2 b1 b2 st) as (p2 & p2' & Hp2 & Hr2 & Hi2 & Hq2 & Es2 & Hcap2 & Hcs2);
    try done; [by rewrite Hcs1|].
  destruct (save_third p2' (ChecksumIEEE z) e1 e2 e3 b1 b2 b3 st) as (p3 & Hp3 & Hr3);
    try done; [by rewrite Hcs2, Hcs1|by rewrite Hcs2, Hcs1|].
  exists p0, p1, p1', p2, p2', p3. by split_and!.
Qed.

Lemma saver_turn_bg p p' : saver_turn p = Ok p' -> rtc bg_step p p'.
Proof.
  unfold saver_turn. intros H. destruct (saving p) as [e|] eqn:Es.
  - apply rtc_once. by eapply bg_save.
  - destruct (saveLogToDisk_take p) as [q|] eqn:Et; [|by go_inv].
    destruct (saving q) as [e|] eqn:Eq.
    + eapply rtc_l; [by apply bg_take|]. apply rtc_once. by eapply bg_save.
    + go_inv. apply rtc_once. by apply bg_take.
Qed.

End store.

(** ** An encoding, and runs of the persister *)

#[export] Instance Op_countable : Countable Op.
Proof.
  apply (inj_countable' (fun o => (Optype o, IncrId o, ClerkId o, Key o, Value o))
    (fun '(a, b, c, d, e) => mkOp a b c d e)). by intros [].
Defined.

#[export] Instance Entry_countable : Countable Entry.
Proof. apply (inj_countable' (fun e => (Term e, Command e)) (fun '(a, b) => mkEntry a b)). by intros []. Defined.

#[export] Instance State_countable : Countable State.
Proof. apply (inj_countable' (fun s => (VotedFor s, CurrentTerm s)) (fun '(a, b) => mkState a b)). by intros []. Defined.

#[export] Instance IndexState_eq_dec : EqDecision IndexState.
Proof. solve_decision. Defined.

#[export] Instance IndexState_countable : Countable IndexState.
Proof.
  apply (inj_countable' (fun s => (FirstIndex s, LastIndex s, LastCommitIndex s, RaftSate s))
    (fun '(a, b, c, d) => mkIndexState a b c d)). by intros [].
Defined.

#[export] Instance Snapshot_countable : Countable Snapshot.
Proof.
  apply (inj_countable' (fun s => (RowData s, SnapLastIndex s, SnapLastTerm s))
    (fun '(a, b, c) => mkSnapshot a b c)). by intros [].
Defined.

#[export] Instance count_proto : ProtoCodec := {
  Marshal_Entry e := Some (count_encode e);
  Unmarshal_Entry b := fst <$> count_decode b;
  Marshal_IndexState := count_encode;
  Unmarshal_IndexState b := fst <$> count_decode b;
  Marshal_Snapshot := count_encode;
  Unmarshal_Snapshot b := fst <$> count_decode b
}.

Lemma count_roundtrip {A} `{Countable A} (a : A) : fst <$> count_decode (count_encode a) = Some a.
Proof. pose proof (count_decode_encode a []) as E. rewrite app_nil_r in E. by rewrite E. Qed.

#[export] Instance count_proto_laws : ProtoCodecLaws.
Proof.
  split; cbn -[count_encode count_decode]; intros; simplify_eq; try apply count_roundtrip.
  unfold count_encode. by destruct (encode s).
Qed.

Definition put_entry (t : Z) (v : byte) : Entry := mkEntry t (Some (mkOp PUT 7 3 [x61] [v])).

Definition bytes_of (e : Entry) : list byte := count_encode e.

(** A new node that has saved one entry and written it. *)
Lemma saved_one :
  exists p0 p1 p2, MakePersister ∅ None ∅ = Ok p0 /\ ps_inv p0 [] /\ pending p0 = [] /\ capCh p0 = 100
    /\ state p0 = mkIndexState 1 0 0 (mkState (-1) 0)
    /\ PS.Save p0 [] (mkState 2 1) [put_entry 1 x62] 0 0 0 = Ok p1 /\ saver_runs 1 p1 = Ok p2
    /\ ps_inv p2 [bytes_of (put_entry 1 x62)] /\ state p2 = mkIndexState 1 1 0 (mkState 2 1)
    /\ statFile p2 = Some (Marshal_IndexState (state p2)).
Proof.
  destruct (fresh_persister (codec := count_proto) (bytes_of zero_Entry) eq_refl) as (p0 & Hp0 & Hi0 & Es0 & Hq0 & Hcap0 & _).
  destruct (Save_then_saver p0 [] [] (mkState 2 1) [put_entry 1 x62] [bytes_of (put_entry 1 x62)] 0 0 0
    [bytes_of (put_entry 1 x62)]) as (p1 & p2 & Hp1 & Hr1 & Hi1 & _ & Es1 & Ef1 & _);
    [done|done|lia|by constructor|by constructor|rewrite Es0; simpl; lia|rewrite Es0; simpl; lia
    |by rewrite drop_nil| |by rewrite Hcap0|].
  { intros k b _ Hk. rewrite Es0 in Hk. simpl in Hk. lia. }
  rewrite Es0 in Es1. exists p0, p1, p2. by split_and!.
Qed.

Lemma Persister_durable_witness :
  exists p0 p1 p2 p3 p4 es c, PS.Save p0 [] (mkState 2 1) [put_entry 1 x62] 0 0 0 = Ok p1
    /\ rtc bg_step p1 p2 /\ restart p2 = Ok p3 /\ PS.ReadRaftState p3 = Ok (p4, (es, 2, 1, c)) /\ synced p4.
Proof.
  destruct saved_one as (p0 & p1 & p2 & _ & _ & _ & _ & _ & Hs & Hr & Hi & Es & Ef).
  cbn [saver_runs] in Hr. apply bind_Ok in Hr as (p2' & Hr & Hr'). injection Hr' as ->.
  apply saver_turn_bg in Hr.
  destruct (restart_then_read p2 _ [put_entry 1 x62] Hi Ef) as (p3 & p4 & H3 & H4 & _).
  { constructor; [apply count_roundtrip|constructor]. }
  destruct (Persister_durable _ _ _ _ _ _ _ _ _ _ _ _ _ _ _ _ _ _ Hs Hr (crash_between p2) H3 H4) as (_ & Hsy & _).
  rewrite Es in H4. exists p0, p1, p2, p3, p4. eexists _, _. by split_and!.
Defined.


Lemma restart_reads_log_witness :
  exists p p' p'', restart p = Ok p'
    /\ PS.ReadRaftState p' = Ok (p'', ([Some (mkEntry 0 None); Some (put_entry 1 x62)], 2, 1, 0)).
Proof.
  destruct saved_one as (_ & _ & p2 & _ & _ & _ & _ & _ & _ & _ & Hi & Es & Ef).
  destruct (restart_reads_log p2 _ [put_entry 1 x62] Hi Ef) as (p3 & p4 & H3 & H4 & _).
  { constructor; [apply count_roundtrip|constructor]. }
  rewrite Es in H4. by exists p2, p3, p4.
Defined.

