(* ===== verification/SnapFiles.v ===== *)
(** * SnapFiles: the snapshot directory by file names (persister/snapshotter.go)

    Persister.v keeps the snapshot files as a map from term and index.  Here
    they are files of a directory of FileUtil.v, named as the code names them,
    among other files: names are formed with [%016x], the directory is cleaned
    of leftovers, filtered by suffix and sorted as strings, a file that cannot
    be read is renamed away.  The refinement theorem says that both views agree.

    The outcome of each system call is an argument, as in FileUtil.v. *)

From stdpp Require Import sorting.
From S2P Require Import Prelude Types Store Binary WalJson Wal WalSpec Persister PersisterSpec FileUtil.
Import FU.

Module Snap.

(** ** Names *)

Definition hex_digit (r : Z) : byte := byte_of_Z (if r <? 10 then 48 + r else 87 + r).

(** The last [n] hexadecimal digits of a number. *)
Fixpoint hex (n : nat) (x : Z) : gostring :=
  match n with
  | O => []
  | S n => hex n (x / 16) ++ [hex_digit (x mod 16)]
  end.

(** A non-negative [int64] has at most sixteen: [%016x]. *)
Definition hex16 (x : Z) : gostring := hex 16 x.

Definition snapSuffix : gostring := [x2e; x73; x6e; x61; x70].
Definition dash : byte := x2d.

(** The name [save] forms, by term and index. *)
Definition snapName (k : Z * Z) : gostring := hex16 k.1 ++ [dash] ++ hex16 k.2 ++ snapSuffix.

Definition brokenSuffix : gostring := [x2e; x62; x72; x6f; x6b; x65; x6e].
Definition db_tmp : gostring := [x64; x62; x2e; x74; x6d; x70].

Definition HasSuffix (n s : gostring) : bool := bool_decide (s `suffix_of` n).
Definition HasPrefix (n s : gostring) : bool := bool_decide (s `prefix_of` n).

(** ** The directory *)

Section files.
Context {codec : PS.ProtoCodec}.

Definition remove_file (n : gostring) (d : Dir) : Dir := mkDir (perm d) (drop_file n (entries d)).

(** [os.Rename] within the directory. *)
Definition rename_file (n m : gostring) (d : Dir) : Dir :=
  mkDir (perm d) (put_file m (find_file n (entries d)) (drop_file n (entries d))).

(** Leftover files are removed; a file that is gone already is no error.  [rm]
    is the outcome of [os.Remove] for a name. *)
Fixpoint cleanupSnapdir (rm : gostring -> outcome) (filenames : list gostring) (d : Dir)
    : Dir * go (list gostring) :=
  match filenames with
  | [] => (d, Ok [])
  | f :: fs =>
      if HasPrefix f db_tmp then
        match rm f with
        | None => cleanupSnapdir rm fs (remove_file f d)
        | Some ErrNotExist => cleanupSnapdir rm fs d
        | Some e => (d, Err e)
        end
      else
        match cleanupSnapdir rm fs d with
        | (d, Ok names) => (d, Ok (f :: names))
        | r => r
        end
  end.

Definition checkSuffix (names : list gostring) : list gostring :=
  filter (fun n => HasSuffix n snapSuffix = true) names.

(** Descending order: [sort.Reverse(sort.StringSlice(snaps))]. *)
Definition bytes_ge (a b : gostring) : Prop := bytes_le b a.

#[export] Instance bytes_ge_dec a b : Decision (bytes_ge a b).
Proof. unfold bytes_ge. apply _. Defined.

Definition snapNames (rm : gostring -> outcome) (d : Dir) : Dir * go (list gostring) :=
  match cleanupSnapdir rm (entries d).*1 d with
  | (d, Ok filenames) =>
      let snaps := checkSuffix filenames in
      (d, if bool_decide (length snaps = 0%nat) then Err ErrNotFound
          else Ok (merge_sort bytes_ge snaps))
  | r => r
  end.

(** [Read] of one file, and the renaming of one that fails; [mv] is the outcome
    of [os.Rename], whose failure is only logged. *)
Definition loadSnap (mv : gostring -> outcome) (name : gostring) (d : Dir) : Dir * option PS.Snapshot :=
  match contents (find_file name (entries d)) ≫= PS.readSnap with
  | Some s => (d, Some s)
  | None =>
      (match mv name with None => rename_file name (name ++ brokenSuffix) d | Some _ => d end, None)
  end.

(** [loadMatching] with the predicate that accepts every snapshot. *)
Fixpoint load_names (mv : gostring -> outcome) (names : list gostring) (d : Dir)
    : Dir * option PS.Snapshot :=
  match names with
  | [] => (d, None)
  | n :: names =>
      match loadSnap mv n d with
      | (d, Some s) => (d, Some s)
      | (d, None) => load_names mv names d
      end
  end.

Definition Load (rm mv : gostring -> outcome) (d : Dir) : Dir * option PS.Snapshot :=
  match snapNames rm d with
  | (d, Ok names) => load_names mv names d
  | (d, _) => (d, None)
  end.

(** [save]: a file that could not be written is removed. *)
Definition save (c : WriteCalls) (rm : outcome) (s : PS.Snapshot) (d : Dir) : Dir * outcome :=
  let name := snapName (PS.SnapLastTerm s, PS.SnapLastIndex s) in
  match w_open c with
  | Some e => (match rm with None => remove_file name d | Some _ => d end, Some e)
  | None =>
      let '(f, err) := write_and_sync c (PS.Marshal_Snapshot s)
                         (open_trunc (find_file name (entries d))) in
      let d := mkDir (perm d) (put_file name f (entries d)) in
      match err with
      | None => (d, None)
      | Some e => (match rm with None => remove_file name d | Some _ => d end, Some e)
      end
  end.

Definition SaveSnap (c : WriteCalls) (rm : outcome) (s : PS.Snapshot) (d : Dir) : Dir * outcome :=
  if PS.IsEmptySnap s then (d, None) else save c rm s d.

End files.

(** ** The order of snapshot names *)

Lemma hex_digit_mono r r' :
  0 <= r < 16 -> 0 <= r' < 16 -> r < r' -> byte_to_Z (hex_digit r) < byte_to_Z (hex_digit r').
Proof.
  intros Hr Hr' Hlt. unfold hex_digit. rewrite !byte_to_of_Z, !Z.mod_small;
    destruct (Z.ltb_spec r 10), (Z.ltb_spec r' 10); lia.
Qed.

Lemma bytes_le_app p a b : bytes_le (p ++ a) (p ++ b) <-> bytes_le a b.
Proof.
  induction p as [|x p IH]; [done|]. simpl. rewrite bytes_leb_cons, IH.
  split; [intros [?|[_ ?]]; [lia|done]|by right].
Qed.

Lemma hex_lt n x y a b :
  0 <= x < 16 ^ Z.of_nat n -> 0 <= y < 16 ^ Z.of_nat n -> x < y ->
  bytes_le (hex n x ++ a) (hex n y ++ b).
Proof.
  revert x y a b. induction n as [|n IH]; intros x y a b Hx Hy Hlt; [simpl in *; lia|].
  replace (Z.of_nat (S n)) with (Z.of_nat n + 1) in * by lia.
  rewrite Z.pow_add_r in * by lia. simpl. rewrite <- !app_assoc. simpl.
  pose proof (Z.div_mod x 16 ltac:(lia)). pose proof (Z.div_mod y 16 ltac:(lia)).
  pose proof (Z.mod_pos_bound x 16 ltac:(lia)). pose proof (Z.mod_pos_bound y 16 ltac:(lia)).
  destruct (Z.lt_total (x / 16) (y / 16)) as [H'|[E|H']]; [apply IH; lia| |lia].
  rewrite E. apply bytes_le_app, bytes_leb_cons. left. apply hex_digit_mono; lia.
Qed.

Lemma hex_inj n x y :
  0 <= x < 16 ^ Z.of_nat n -> 0 <= y < 16 ^ Z.of_nat n -> hex n x = hex n y -> x = y.
Proof.
  revert x y. induction n as [|n IH]; intros x y Hx Hy E; [simpl in *; lia|].
  replace (Z.of_nat (S n)) with (Z.of_nat n + 1) in * by lia.
  rewrite Z.pow_add_r in * by lia. simpl in E. apply app_inj_2 in E as [E1 E2]; [|done].
  pose proof (Z.div_mod x 16 ltac:(lia)). pose proof (Z.div_mod y 16 ltac:(lia)).
  pose proof (Z.mod_pos_bound x 16 ltac:(lia)). pose proof (Z.mod_pos_bound y 16 ltac:(lia)).
  apply IH in E1; [|lia..]. injection E2 as E2.
  destruct (Z.lt_total (x mod 16) (y mod 16)) as [H'|[?|H']]; [|lia|];
    (apply hex_digit_mono in H'; [rewrite E2 in H'|..]; lia).
Qed.

Lemma length_hex n x : length (hex n x) = n.
Proof. revert x. induction n as [|n IH]; intros x; [done|]. simpl. rewrite length_app, IH. simpl. lia. Qed.

(** Term and index of a snapshot are non-negative [int64]. *)
Definition in_range (k : Z * Z) : Prop := 0 <= k.1 < 2 ^ 63 /\ 0 <= k.2 < 2 ^ 63.

Lemma snapName_inj a b : in_range a -> in_range b -> snapName a = snapName b -> a = b.
Proof.
  intros [Ha1 Ha2] [Hb1 Hb2] E. unfold snapName, hex16 in E.
  apply app_inj_1 in E as [E1 E]; [|by rewrite !length_hex].
  apply app_inj_1 in E as [_ E]; [|done].
  apply app_inj_1 in E as [E2 _]; [|by rewrite !length_hex].
  apply hex_inj in E1; [|lia..]. apply hex_inj in E2; [|lia..]. by destruct a, b; simplify_eq/=.
Qed.

(** Later snapshots have larger names. *)
Lemma snapName_order a b :
  in_range a -> in_range b -> PS.snap_ge a b -> bytes_ge (snapName a) (snapName b).
Proof.
  intros [Ha1 Ha2] [Hb1 Hb2] [Hlt|[E Hle]]; unfold bytes_ge, snapName, hex16.
  - apply hex_lt; lia.
  - rewrite E. apply bytes_le_app, bytes_le_app.
    destruct (decide (b.2 = a.2)) as [->|]; [|apply hex_lt; lia].
    apply bytes_le_app. by vm_compute.
Qed.

(** ** Directory lemmas *)

Lemma elem_of_put n f es m : m ∈ (put_file n f es).*1 <-> m = n \/ m ∈ es.*1.
Proof.
  induction es as [|[k g] es IH]; simpl; [set_solver|].
  case_bool_decide as Hk; simpl; [subst; set_solver|]. rewrite !elem_of_cons, IH. tauto.
Qed.

Lemma NoDup_put n f es : NoDup es.*1 -> NoDup (put_file n f es).*1.
Proof.
  induction es as [|[k g] es IH]; simpl; [intros _; apply NoDup_singleton|].
  intros [Hk Hn]%NoDup_cons. case_bool_decide as E; simpl; [subst; by constructor|].
  constructor; [|by apply IH]. rewrite elem_of_put. naive_solver.
Qed.

Lemma drop_file_names n es : (drop_file n es).*1 = filter (fun m => m <> n) es.*1.
Proof.
  unfold drop_file. induction es as [|[k g] es IH]; [done|].
  rewrite fmap_cons, !filter_cons. simpl. destruct (decide (k <> n)); simpl; [f_equal|]; exact IH.
Qed.

Lemma elem_of_drop n es m : m ∈ (drop_file n es).*1 <-> m <> n /\ m ∈ es.*1.
Proof. by rewrite drop_file_names, list_elem_of_filter. Qed.

Lemma NoDup_drop n es : NoDup es.*1 -> NoDup (drop_file n es).*1.
Proof. rewrite drop_file_names. apply NoDup_filter. Qed.

(** A digit is no dot. *)
Lemma hex_no_dot n x b : b ∈ hex n x -> b <> dot.
Proof.
  revert x. induction n as [|n IH]; intros x; simpl; [set_solver|].
  rewrite elem_of_app, list_elem_of_singleton. intros [?|Hb]; [by eapply IH|].
  intros ->. apply (f_equal byte_to_Z) in Hb. unfold hex_digit in Hb. rewrite byte_to_of_Z in Hb.
  change (byte_to_Z dot) with 46 in Hb. pose proof (Z.mod_pos_bound x 16 ltac:(lia)).
  rewrite Z.mod_small in Hb by (destruct (Z.ltb_spec (x mod 16) 10); lia).
  destruct (Z.ltb_spec (x mod 16) 10); lia.
Qed.

Lemma snapName_not_tmp k : HasPrefix (snapName k) db_tmp = false.
Proof.
  apply bool_decide_eq_false. intros [s E]. unfold snapName, hex16 in E.
  destruct (lookup_lt_is_Some_2 (hex 16 k.1) 2) as [b Hb]; [rewrite length_hex; lia|].
  assert (b ∈ hex 16 k.1) as Hin by (by eapply list_elem_of_lookup_2).
  apply (hex_no_dot 16 k.1 b Hin).
  apply (f_equal (lookup 2%nat)) in E. rewrite lookup_app_l in E by (rewrite length_hex; lia).
  rewrite Hb in E. by injection E.
Qed.

Lemma snapName_suffix k : HasSuffix (snapName k) snapSuffix = true.
Proof.
  apply bool_decide_eq_true. exists (hex16 k.1 ++ [dash] ++ hex16 k.2). unfold snapName.
  by rewrite <- !app_assoc.
Qed.

Lemma broken_no_suffix n : HasSuffix (n ++ brokenSuffix) snapSuffix = false.
Proof.
  apply bool_decide_eq_false. intros [p E]. apply (f_equal (last)) in E.
  unfold brokenSuffix, snapSuffix in E.
  change (n ++ [x2e; x62; x72; x6f; x6b; x65; x6e])
    with (n ++ [x2e; x62; x72; x6f; x6b; x65] ++ [x6e]) in E.
  change (p ++ [x2e; x73; x6e; x61; x70]) with (p ++ [x2e; x73; x6e; x61] ++ [x70]) in E.
  rewrite !app_assoc, !last_snoc in E. done.
Qed.

(** ** The two views of the directory *)

Section refinement.
Context {codec : PS.ProtoCodec}.

(** The files with the suffix are the snapshots of [m]. *)
Record snap_dir (d : Dir) (m : gmap (Z * Z) (list byte)) : Prop := {
  sd_nodup : NoDup (entries d).*1;
  sd_name n : n ∈ (entries d).*1 -> HasSuffix n snapSuffix = true ->
    exists k, n = snapName k /\ is_Some (m !! k);
  sd_file k b : m !! k = Some b ->
    in_range k /\ snapName k ∈ (entries d).*1
    /\ contents (find_file (snapName k) (entries d)) = Some b
}.

Lemma cleanupSnapdir_Ok rm fs d :
  (forall n, rm n = None \/ rm n = Some ErrNotExist) ->
  exists d', cleanupSnapdir rm fs d
      = (d', Ok (filter (fun f => HasPrefix f db_tmp = false) fs))
    /\ (NoDup (entries d).*1 -> NoDup (entries d').*1)
    /\ (forall n, n ∈ (entries d').*1 -> n ∈ (entries d).*1)
    /\ (forall n, HasPrefix n db_tmp = false ->
          (n ∈ (entries d).*1 -> n ∈ (entries d').*1)
          /\ find_file n (entries d') = find_file n (entries d)).
Proof.
  intros Hrm. revert d. induction fs as [|f fs IH]; intros d; simpl; [by exists d|].
  rewrite filter_cons. destruct (HasPrefix f db_tmp) eqn:Hf; simpl.
  - destruct (Hrm f) as [-> | ->]; [|apply IH].
    destruct (IH (remove_file f d)) as (d' & -> & Hnd & Hsub & Hsame). exists d'.
    split_and!; [done| | |]; simpl in *.
    + intros. by apply Hnd, NoDup_drop.
    + intros n Hn. apply Hsub in Hn. rewrite elem_of_drop in Hn. tauto.
    + intros n Hn. destruct (Hsame n Hn) as [H1 ->]. assert (n <> f) by congruence.
      split; [|by apply find_drop_ne]. intros Hin. apply H1. by rewrite elem_of_drop.
  - destruct (IH d) as (d' & -> & Hr). by exists d'.
Qed.

Lemma cleanup_snap_dir rm fs d m :
  (forall n, rm n = None \/ rm n = Some ErrNotExist) -> snap_dir d m ->
  exists d', cleanupSnapdir rm fs d = (d', Ok (filter (fun f => HasPrefix f db_tmp = false) fs))
    /\ snap_dir d' m.
Proof.
  intros Hrm [Hnd Hname Hfile]. destruct (cleanupSnapdir_Ok rm fs d Hrm) as (d' & E & Hn & Hs & Hf).
  exists d'. split; [done|]. split; [auto|eauto|]. intros k b Hk.
  destruct (Hfile k b Hk) as (? & ? & ?).
  destruct (Hf (snapName k) (snapName_not_tmp k)) as [Hkeep ->]. split_and!; [done|by apply Hkeep|done].
Qed.

#[export] Instance bytes_ge_total : Total bytes_ge.
Proof. intros a b. unfold bytes_ge. destruct (total bytes_le a b); auto. Qed.

#[export] Instance bytes_ge_trans : Transitive bytes_ge.
Proof. intros a b c. unfold bytes_ge. intros. by transitivity b. Qed.

#[export] Instance bytes_ge_antisymm : AntiSymm (=) bytes_ge.
Proof. intros a b. unfold bytes_ge. intros. by apply (anti_symm bytes_le). Qed.

#[export] Instance snap_ge_total : Total PS.snap_ge.
Proof. intros a b. unfold PS.snap_ge. lia. Qed.

#[export] Instance snap_ge_trans : Transitive PS.snap_ge.
Proof. intros a b c. unfold PS.snap_ge. lia. Qed.

Lemma elem_of_keys (m : gmap (Z * Z) (list byte)) k : k ∈ (map_to_list m).*1 <-> is_Some (m !! k).
Proof.
  rewrite list_elem_of_fmap. split.
  - intros ([k' b] & -> & Hk). apply elem_of_map_to_list in Hk. eauto.
  - intros [b Hb]. exists (k, b). by rewrite elem_of_map_to_list.
Qed.

Lemma snap_names_of_keys (ks : list (Z * Z)) :
  StronglySorted PS.snap_ge ks -> (forall k, k ∈ ks -> in_range k) ->
  StronglySorted bytes_ge (map snapName ks).
Proof.
  induction 1 as [|k ks _ IH Hk]; intros Hr; simpl; constructor; [apply IH; set_solver|].
  rewrite Forall_forall in Hk. apply Forall_forall. intros n (k' & -> & Hk')%list_elem_of_fmap.
  apply snapName_order; [apply Hr; by left|apply Hr; by right|by apply Hk].
Qed.

(** The names sort as the terms and indices they stand for. *)
Lemma snapNames_sorted d m names :
  snap_dir d m -> NoDup names ->
  (forall n, n ∈ names <-> n ∈ (entries d).*1 /\ HasPrefix n db_tmp = false) ->
  merge_sort bytes_ge (checkSuffix names) = map snapName (PS.snapNames m).
Proof.
  intros [Hnd Hname Hfile] Hndn Hin.
  assert (forall k, k ∈ PS.snapNames m <-> is_Some (m !! k)) as Hks.
  { intros k. unfold PS.snapNames. by rewrite merge_sort_Permutation, elem_of_keys. }
  assert (forall k, k ∈ PS.snapNames m -> in_range k) as Hrange.
  { intros k [b Hb]%Hks. by destruct (Hfile k b Hb). }
  apply (StronglySorted_unique bytes_ge).
  - apply (StronglySorted_merge_sort bytes_ge).
  - apply snap_names_of_keys; [|done]. apply (StronglySorted_merge_sort PS.snap_ge).
  - rewrite merge_sort_Permutation. apply NoDup_Permutation.
    + by apply NoDup_filter.
    + apply NoDup_fmap_2_strong; [intros a b Ha Hb; apply snapName_inj; auto|].
      unfold PS.snapNames. rewrite merge_sort_Permutation. apply NoDup_fst_map_to_list.
    + intros n. unfold checkSuffix. rewrite list_elem_of_filter, Hin. split.
      * intros (Hs & Hn & _). destruct (Hname n Hn Hs) as (k & -> & Hk).
        apply list_elem_of_fmap. exists k. split; [done|by apply Hks].
      * intros (k & -> & [b Hb]%Hks)%list_elem_of_fmap. destruct (Hfile k b Hb) as (_ & ? & _).
        split_and!; [apply snapName_suffix|done|apply snapName_not_tmp].
Qed.

(** A file that cannot be read is renamed: no longer a snapshot. *)
Lemma rename_snap_dir d m k :
  snap_dir d m -> in_range k ->
  snap_dir (rename_file (snapName k) (snapName k ++ brokenSuffix) d) (delete k m).
Proof.
  intros [Hnd Hname Hfile] Hk. split; unfold rename_file; cbn [entries].
  - by apply NoDup_put, NoDup_drop.
  - intros n Hn Hs. apply elem_of_put in Hn as [-> |Hn]; [by rewrite broken_no_suffix in Hs|].
    apply elem_of_drop in Hn as [Hne Hn]. destruct (Hname n Hn Hs) as (k' & -> & Hk').
    exists k'. split; [done|]. rewrite lookup_delete_ne; [done|]. congruence.
  - intros k' b [Hne Hb]%lookup_delete_Some. destruct (Hfile k' b Hb) as (Hr & Hin & Hc).
    assert (snapName k' <> snapName k) as Hnn by (intros E; by apply snapName_inj in E).
    assert (snapName k' <> snapName k ++ brokenSuffix) as Hnb.
    { intros E. pose proof (snapName_suffix k') as Hs. by rewrite E, broken_no_suffix in Hs. }
    split_and!; [done| |].
    + rewrite elem_of_put, elem_of_drop. auto.
    + by rewrite find_put_ne, find_drop_ne.
Qed.

Lemma load_names_refines mv ks d m :
  (forall n, mv n = None) -> snap_dir d m -> NoDup ks -> (forall k, k ∈ ks -> is_Some (m !! k)) ->
  exists d', load_names mv (map snapName ks) d = (d', (PS.loadSnaps ks m).1)
    /\ snap_dir d' (PS.loadSnaps ks m).2.
Proof.
  intros Hmv. revert d m. induction ks as [|k ks IH]; intros d m Hd Hnd Hks; [by exists d|].
  apply NoDup_cons in Hnd as [Hk Hnd]. destruct (Hks k) as [b Hb]; [by left|].
  destruct (sd_file d m Hd k b Hb) as (Hr & _ & Hc).
  cbn [map load_names PS.loadSnaps]. unfold loadSnap. rewrite Hc, Hb, Hmv. cbn [mbind option_bind].
  destruct (PS.readSnap b) as [s|]; [by exists d|].
  apply (IH _ (delete k m)); [by apply rename_snap_dir|done|].
  intros k' Hk'. rewrite lookup_delete_ne by (intros <-; done). apply Hks. by right.
Qed.

(** C31. The snapshot directory as files: with the names formed, cleaned,
    filtered and sorted as strings, [Load] returns the snapshot of the largest
    term and index that can be read, as the map of Persister.v has it, and
    leaves the directory of the map that is left. *)
Theorem Load_refines rm mv d m :
  (forall n, rm n = None \/ rm n = Some ErrNotExist) -> (forall n, mv n = None) -> snap_dir d m ->
  exists d', Load rm mv d = (d', (PS.loadSnaps (PS.snapNames m) m).1)
    /\ snap_dir d' (PS.loadSnaps (PS.snapNames m) m).2.
Proof.
  intros Hrm Hmv Hd. destruct (cleanup_snap_dir rm (entries d).*1 d m Hrm Hd) as (d1 & E & Hd1).
  unfold Load, snapNames. rewrite E.
  set (names := filter (fun f => HasPrefix f db_tmp = false) (entries d).*1).
  assert (merge_sort bytes_ge (checkSuffix names) = map snapName (PS.snapNames m)) as Es.
  { apply (snapNames_sorted d m); [done|apply NoDup_filter, Hd|].
    intros n. unfold names. rewrite list_elem_of_filter. tauto. }
  assert (forall k, k ∈ PS.snapNames m -> is_Some (m !! k)) as Hks.
  { intros k. unfold PS.snapNames. by rewrite merge_sort_Permutation, elem_of_keys. }
  assert (NoDup (PS.snapNames m)) as Hnd.
  { unfold PS.snapNames. rewrite merge_sort_Permutation. apply NoDup_fst_map_to_list. }
  case_bool_decide as Hl.
  - assert (PS.snapNames m = []) as ->; [|by exists d1].
    rewrite <- (merge_sort_Permutation bytes_ge), Es, length_map in Hl.
    by apply length_zero_iff_nil.
  - rewrite Es. by apply load_names_refines.
Qed.

(** C32. Saving a snapshot writes its file durably and adds it to the map; when
    a call fails the error is returned and no file of that name is left. *)
Theorem SaveSnap_refines c s d m d' err :
  snap_dir d m -> in_range (PS.SnapLastTerm s, PS.SnapLastIndex s) ->
  SaveSnap c None s d = (d', err) ->
  snap_dir d' (match err with
               | None => PS.SaveSnap s m
               | Some _ => delete (PS.SnapLastTerm s, PS.SnapLastIndex s) m
               end).
Proof.
  intros Hd Hr. unfold SaveSnap, PS.SaveSnap.
  destruct (PS.IsEmptySnap s); [by intros [= <- <-]|]. unfold save.
  set (k := (PS.SnapLastTerm s, PS.SnapLastIndex s)) in *.
  assert (forall d0, (forall n, n ∈ (entries d0).*1 -> n = snapName k \/ n ∈ (entries d).*1) ->
    NoDup (entries d0).*1 -> (forall n, n <> snapName k -> n ∈ (entries d).*1 -> n ∈ (entries d0).*1) ->
    (forall n, n <> snapName k -> find_file n (entries d0) = find_file n (entries d)) ->
    snap_dir (remove_file (snapName k) d0) (delete k m)) as Hrem.
  { intros d0 Hsub Hnd Hsup Hf. destruct Hd as [_ Hname Hfile]. split; unfold remove_file; cbn [entries].
    - by apply NoDup_drop.
    - intros n [Hne Hn]%elem_of_drop Hs. destruct (Hsub n Hn) as [?|Hn']; [done|].
      destruct (Hname n Hn' Hs) as (k' & -> & Hk'). exists k'. split; [done|].
      rewrite lookup_delete_ne; [done|]. congruence.
    - intros k' b [Hne Hb]%lookup_delete_Some. destruct (Hfile k' b Hb) as (Hr' & Hin & Hc).
      assert (snapName k' <> snapName k) as Hnn by (intros E; by apply snapName_inj in E).
      rewrite elem_of_drop, find_drop_ne, Hf by done. auto. }
  destruct (w_open c) as [e|].
  { intros [= <- <-]. apply Hrem; [by right|apply Hd|done|done]. }
  destruct (write_and_sync c (PS.Marshal_Snapshot s) _) as [f err'] eqn:Hw.
  destruct err' as [e|]; intros [= <- <-].
  - apply Hrem; cbn [entries]; [intros n; by rewrite elem_of_put|apply NoDup_put, Hd| |].
    + intros n _ Hn. rewrite elem_of_put. by right.
    + intros n Hn. by apply find_put_ne.
  - apply write_and_sync_durable in Hw. subst f. destruct Hd as [Hnd Hname Hfile]. split; cbn [entries].
    + by apply NoDup_put.
    + intros n [-> |Hn]%elem_of_put Hs.
      * exists k. split; [done|]. rewrite lookup_insert_eq. by eexists.
      * destruct (Hname n Hn Hs) as (k' & -> & Hk'). exists k'. split; [done|].
        destruct (decide (k' = k)) as [->|]; [rewrite lookup_insert_eq; by eexists|].
        by rewrite lookup_insert_ne by congruence.
    + intros k' b [[<- <-]|[Hne Hb]]%lookup_insert_Some.
      * split_and!; [done|rewrite elem_of_put; by left|by rewrite find_put_eq].
      * destruct (Hfile k' b Hb) as (Hr' & Hin & Hc).
        assert (snapName k' <> snapName k) as Hnn by (intros E; by apply snapName_inj in E).
        rewrite elem_of_put, find_put_ne by done. auto.
Qed.

End refinement.

(** ** A crash while the state is written *)

Section crash.
Context {gjson : Gjson} {lru : LRU} {codec : PS.ProtoCodec}.

(** [saveState] replaces the state file in place.  A crash between the
    truncation and the sync may leave it empty, and a node that starts from an
    empty state file has forgotten its vote and its term. *)
Theorem crash_forgets_vote old wal snaps p :
  after_crash (open_trunc old) (Some []) /\
  (PS.MakePersister wal (Some []) snaps = Ok p -> PS.RaftSate (PS.state p) = mkState (-1) 0).
Proof.
  split; [by left|]. unfold PS.MakePersister.
  destruct (Open DefaultOptions wal) as [l [[]| |]]; [|done|done]. unfold PS.initFromDisk.
  destruct (PS.loadSnaps _ _) as [snap d]. cbn. destruct (PS.Marshal_Entry PS.zero_Entry); [|done].
  by intros [= <-].
Qed.

End crash.

(** ** Witnesses *)

Definition one_snap : PS.Snapshot := PS.mkSnapshot [x05] 1 1.

Definition snap_files : Dir :=
  mkDir PrivateDirMode
    [(db_tmp ++ [x31], [Some [x01]]); (snapName (1, 2), [Some []]);
     (snapName (1, 1), [Some (count_encode one_snap)])].

Definition snap_map : gmap (Z * Z) (list byte) :=
  <[(1, 2) := []]> {[(1, 1) := count_encode one_snap]}.

Lemma snap_files_dir : snap_dir snap_files snap_map.
Proof.
  split.
  - apply (bool_decide_unpack _). by vm_compute.
  - intros n Hn Hs. apply list_elem_of_In in Hn. destruct Hn as [<-|[<-|[<-|[]]]].
    + by vm_compute in Hs.
    + exists (1, 2). split; [done|]. by eexists.
    + exists (1, 1). split; [done|]. by eexists.
  - unfold snap_map. intros k b [[<- <-]|[_ [<- <-]%lookup_singleton_Some]]%lookup_insert_Some.
    + split_and!; [split; simpl; lia|right; left|by vm_compute].
    + split_and!; [split; simpl; lia|right; right; left|by vm_compute].
Qed.

Lemma Load_refines_witness :
  exists d', Load (fun _ => None) (fun _ => None) snap_files = (d', Some one_snap)
    /\ snap_dir d' {[(1, 1) := count_encode one_snap]}.
Proof.
  destruct (Load_refines (fun _ => None) (fun _ => None) snap_files snap_map) as (d' & E & Hd);
    [by left|done|apply snap_files_dir|].
  assert (PS.loadSnaps (PS.snapNames snap_map) snap_map
          = (Some one_snap, {[(1, 1) := count_encode one_snap]})) as El by (vm_compute; reflexivity).
  rewrite El in E, Hd. by exists d'.
Defined.

Lemma SaveSnap_refines_witness :
  exists d', SaveSnap (mkWriteCalls None 100 None None None) None one_snap snap_files = (d', None)
    /\ snap_dir d' snap_map.
Proof.
  destruct (SaveSnap (mkWriteCalls None 100 None None None) None one_snap snap_files) as [d' err] eqn:E.
  assert (err = None) as -> by (vm_compute in E; by injection E).
  exists d'. split; [done|].
  pose proof (SaveSnap_refines _ one_snap snap_files snap_map d' None snap_files_dir
    ltac:(split; simpl; lia) E) as Hd.
  assert (PS.SaveSnap one_snap snap_map = snap_map) as Em by (vm_compute; reflexivity).
  by rewrite Em in Hd.
Defined.

End Snap.
