(* ===== verification/TcpProxy.v ===== *)
(** * TcpProxy: the proxy's choice of a remote (proxy/tcpproxy.go)

    A remote is an SRV record with an activity flag.  [pick] takes the values
    of the random generator as arguments; [serve] takes the outcome of each
    [net.Dial] and how the copying ends; the remotes are pointers in the code
    and positions in [remotes] here, since every one of them is created by [Run]
    and stays in that slice.  [serve] is the goroutine of one connection run on
    its own, and [serve_run] the same with the critical sections of other
    connections' goroutines and of the monitor between its own. *)

From S2P Require Import Prelude.

Module TcpProxy.

(** ** Data *)

(** [net.SRV]; the three numbers are [uint16]. *)
Record SRV := mkSRV {
  Target : gostring;
  Port : Z;
  Priority : Z;
  Weight : Z
}.

Record remote := mkRemote {
  srv : SRV;
  addr : gostring;
  inactive : bool
}.

Definition inactivate (r : remote) : remote := mkRemote (srv r) (addr r) true.

(** [dialled] is the outcome of [net.Dial(r.addr)]. *)
Definition tryReactivate (dialled : bool) (r : remote) : go remote :=
  if dialled then Ok (mkRemote (srv r) (addr r) false) else Err ErrDial.

Definition isActive (r : remote) : bool := negb (inactive r).

(** [donec] is nil before [Run], then a channel that [Stop] closes. *)
Inductive donec_state := DoneNil | DoneOpen | DoneClosed.

Record TCPProxy := mkProxy {
  WListener : bool;           (* open *)
  RListener : bool;
  Endpoints : list SRV;
  MonitorInterval : Z;        (* nanoseconds *)
  donec : donec_state;
  remotes : list remote;
  pickCount : Z               (* int *)
}.

Definition set_remotes (rs : list remote) (tp : TCPProxy) : TCPProxy :=
  mkProxy (WListener tp) (RListener tp) (Endpoints tp) (MonitorInterval tp) (donec tp) rs (pickCount tp).

Definition set_pickCount (n : Z) (tp : TCPProxy) : TCPProxy :=
  mkProxy (WListener tp) (RListener tp) (Endpoints tp) (MonitorInterval tp) (donec tp) (remotes tp) n.

(** ** Run: the set-up before the goroutines start *)

Definition colon : byte := Byte.x3a.

(** [net.JoinHostPort]: a host with a colon is an IPv6 address. *)
Definition JoinHostPort (host port : gostring) : gostring :=
  if bool_decide (colon ∈ host) then [Byte.x5b] ++ host ++ [Byte.x5d; colon] ++ port
  else host ++ [colon] ++ port.

Definition Run_remote (s : SRV) : remote :=
  mkRemote s (JoinHostPort (Target s) (fmt_d (Port s))) false.

Definition Run_setup (tp : TCPProxy) : TCPProxy :=
  mkProxy (WListener tp) (RListener tp) (Endpoints tp)
    (if MonitorInterval tp =? 0 then 5 * 60 * 1000000000 else MonitorInterval tp)
    DoneOpen (remotes tp ++ map Run_remote (Endpoints tp)) (pickCount tp).

(** ** pick *)

Record scan := mkScan {
  bestPr : Z;
  w : Z;
  weighted : list (nat * remote);
  unweighted : list (nat * remote)
}.

Definition scan_add (st : scan) (ir : nat * remote) : scan :=
  if 0 <? Weight (srv ir.2)
  then mkScan (bestPr st) (wrap_s 64 (w st + Weight (srv ir.2))) (weighted st ++ [ir]) (unweighted st)
  else mkScan (bestPr st) (w st) (weighted st) (unweighted st ++ [ir]).

(** One iteration of the loop; the second case falls through to the third. *)
Definition scan_step (st : scan) (ir : nat * remote) : scan :=
  let p := Priority (srv ir.2) in
  if negb (isActive ir.2) then st
  else if p <? bestPr st then scan_add (mkScan p 0 [] []) ir
  else if p =? bestPr st then scan_add st ir
  else st.

Definition pick_scan (rs : list remote) : scan :=
  fold_left scan_step (imap pair rs) (mkScan 65535 0 [] []).

Fixpoint choose_loop (ws : list (nat * remote)) (choose : Z) : option nat :=
  match ws with
  | [] => None
  | ir :: ws =>
      let choose := choose - Weight (srv ir.2) in
      if choose <=? 0 then Some ir.1 else choose_loop ws choose
  end.

(** [rs[n%len(rs)]]: Go's remainder truncates, so a negative count panics. *)
Definition at_count {A} (l : list A) (n : Z) : go A := idx l (Z.rem n (zlen l)).

Fixpoint round_robin (rs : list remote) (n : nat) (count : Z) : go (option nat * Z) :=
  match n with
  | O => Ok (None, count)
  | S n =>
      picked ← at_count rs count;
      let i := Z.to_nat (Z.rem count (zlen rs)) in
      let count := wrap_s 64 (count + 1) in
      if isActive picked then Ok (Some i, count) else round_robin rs n count
  end.

Definition pick_unweighted (st : scan) (tp : TCPProxy) : go (option nat * TCPProxy) :=
  match unweighted st with
  | [] => Ok (None, tp)
  | _ =>
      '(r, count) ← round_robin (remotes tp) (length (remotes tp)) (pickCount tp);
      mret (r, set_pickCount count tp)
  end.

(** The weighted choice; it falls through to the last [if] of [pick]. *)
Definition pick_choose (r2 : Z) (st : scan) (tp : TCPProxy) : go (option nat * TCPProxy) :=
  choose ← rand_Intn r2 (w st);
  match choose_loop (weighted st) choose with
  | Some i => mret (Some i, tp)
  | None => pick_unweighted st tp
  end.

(** [r1] and [r2] are the states of the generator at the two calls. *)
Definition pick (r1 r2 : Z) (tp : TCPProxy) : go (option nat * TCPProxy) :=
  let st := pick_scan (remotes tp) in
  match weighted st with
  | [] => pick_unweighted st tp
  | _ =>
      rare ← match unweighted st with [] => Ok 0 | _ => rand_Intn r1 100 end;
      if negb (bool_decide (unweighted st = [])) && (rare =? 1) then
        r ← at_count (unweighted st) (pickCount tp);
        mret (Some r.1, set_pickCount (wrap_s 64 (pickCount tp + 1)) tp)
      else pick_choose r2 st tp
  end.

(** ** serve *)

(** The loop: [dial k i] is the outcome of the [k]-th dial, to remote [i].
    [None] means that the fuel ran out. *)
Fixpoint serve_loop (fuel : nat) (k : nat) (rnd : nat -> Z * Z) (dial : nat -> nat -> bool)
    (tp : TCPProxy) : option (go (option nat * TCPProxy)) :=
  match fuel with
  | O => None
  | S fuel =>
      match pick (rnd k).1 (rnd k).2 tp with
      | Ok (None, tp) => Some (Ok (None, tp))
      | Ok (Some i, tp) =>
          if dial k i then Some (Ok (Some i, tp))
          else serve_loop fuel (S k) rnd dial (set_remotes (alter inactivate i (remotes tp)) tp)
      | Err e => Some (Err e)
      | Panic => Some Panic
      end
  end.



(** How the copying ends: the direction whose [io.Copy] returns first, the bytes
    it copied if an error ended it ([None]: all of them), and the bytes the
    other direction has copied when both connections are closed then. *)
Inductive direction := InToOut | OutToIn.

Record copy_end := mkCopyEnd {
  first : direction;
  first_bytes : option nat;
  other_bytes : nat
}.

Definition copied (n : option nat) (bs : list byte) : list byte :=
  match n with Some n => take n bs | None => bs end.

(** The rest of [serve]: without a connection [in] is closed; with one the bytes
    of each side are copied to the other until one of the two copies ends, which
    closes both connections.  The result lists what the client and the remote
    receive. *)
Record served := mkServed { to_in : list byte; to_out : list (nat * list byte); in_closed : bool }.

Definition serve_copy (e : copy_end) (out : option nat) (from_in from_out : list byte) : served :=
  match out with
  | None => mkServed [] [] true
  | Some i =>
      match first e with
      | InToOut => mkServed (take (other_bytes e) from_out) [(i, copied (first_bytes e) from_in)] true
      | OutToIn => mkServed (copied (first_bytes e) from_out) [(i, take (other_bytes e) from_in)] true
      end
  end.

Definition serve (rnd : nat -> Z * Z) (dial : nat -> nat -> bool) (e : copy_end)
    (from_in : list byte) (from_out : nat -> list byte) (tp : TCPProxy)
    : option (go (served * TCPProxy)) :=
  match serve_loop (S (length (remotes tp))) 0 rnd dial tp with
  | None => None
  | Some (Ok (out, tp)) =>
      Some (Ok (serve_copy e out from_in (match out with Some i => from_out i | None => [] end), tp))
  | Some (Err e) => Some (Err e)
  | Some Panic => Some Panic
  end.

(** One iteration of the accept loops of [Run].  An error is sent on a channel
    of capacity 1 ([full]: it holds one that [Run] has not taken), and then
    [serve] runs on the nil connection that came with it: whichever way its
    loop ends, it uses that connection.  The new content of the channel is
    returned with the outcome of [serve]. *)
Definition Run_accept (rnd : nat -> Z * Z) (dial : nat -> nat -> bool) (e : copy_end) (accepted : option (list byte))
    (from_out : nat -> list byte) (full : bool) (tp : TCPProxy) : bool * option (go (served * TCPProxy)) :=
  match accepted with
  | Some from_in => (full, serve rnd dial e from_in from_out tp)
  | None =>
      if full then (true, Some (Err ErrBlocked))
      else (true,
        match serve_loop (S (length (remotes tp))) 0 rnd dial tp with
        | None => None
        | Some (Ok _) => Some Panic
        | Some (Err e) => Some (Err e)
        | Some Panic => Some Panic
        end)
  end.

(** ** The monitor and Stop *)

(** One expiry of the interval: [dialled i] is the outcome of the dial of the
    goroutine started for remote [i]. *)
Definition runMonitor_tick (dialled : nat -> bool) (tp : TCPProxy) : TCPProxy :=
  set_remotes
    (imap (fun i r =>
       if isActive r then r
       else match tryReactivate (dialled i) r with Ok r => r | _ => r end) (remotes tp)) tp.

(** Closing a nil or a closed channel panics. *)
Definition Stop (tp : TCPProxy) : go TCPProxy :=
  match donec tp with
  | DoneOpen =>
      Ok (mkProxy false false (Endpoints tp) (MonitorInterval tp) DoneClosed (remotes tp) (pickCount tp))
  | _ => Panic
  end.

(** ** The best priority class *)

Definition srv_wf (s : SRV) : Prop :=
  in_u 16 (Port s) /\ in_u 16 (Priority s) /\ in_u 16 (Weight s).

(** What [Run] builds from SRV records; the count stays below its width. *)
Definition proxy_wf (tp : TCPProxy) : Prop :=
  Forall (fun r => srv_wf (srv r)) (remotes tp)
  /\ zlen (remotes tp) < 2 ^ 32
  /\ 0 <= pickCount tp /\ pickCount tp + zlen (remotes tp) < 2 ^ 63.

Definition active_remote (rs : list remote) (i : nat) (r : remote) : Prop :=
  rs !! i = Some r /\ isActive r = true.

(** The least priority number of an active remote. *)
Definition best (l : list (nat * remote)) : Z :=
  fold_left (fun b ir => if isActive ir.2 then Z.min b (Priority (srv ir.2)) else b) l 65535.

(** The active remotes of priority [p] with a positive ([b]) or a zero weight. *)
Definition class (l : list (nat * remote)) (p : Z) (b : bool) : list (nat * remote) :=
  filter (fun ir => isActive ir.2 = true /\ Priority (srv ir.2) = p /\ (0 <? Weight (srv ir.2)) = b) l.

Definition sumw (l : list (nat * remote)) : Z :=
  foldr (fun ir acc => Weight (srv ir.2) + acc) 0 l.

Arguments sumw : simpl never.

Lemma best_snoc l ir :
  best (l ++ [ir]) = if isActive ir.2 then Z.min (best l) (Priority (srv ir.2)) else best l.
Proof. unfold best. by rewrite fold_left_app. Qed.

Lemma class_snoc l ir p b :
  class (l ++ [ir]) p b =
  class l p b ++
    (if isActive ir.2 && (Priority (srv ir.2) =? p) && Bool.eqb (0 <? Weight (srv ir.2)) b then [ir] else []).
Proof.
  unfold class. rewrite filter_app. f_equal. rewrite filter_cons, filter_nil.
  case_decide as H; case_match eqn:E; [done| | |done]; exfalso.
  - destruct H as (H1 & H2 & H3). by rewrite H1, H2, H3, Z.eqb_refl, Bool.eqb_reflx in E.
  - apply H. apply andb_true_iff in E as [E ?%Bool.eqb_prop].
    apply andb_true_iff in E as [? ?%Z.eqb_eq]. done.
Qed.

Lemma sumw_app l1 l2 : sumw (l1 ++ l2) = sumw l1 + sumw l2.
Proof. induction l1 as [|x l1 IH]; [done|]. unfold sumw in *. simpl. lia. Qed.

Lemma best_le l ir : ir ∈ l -> isActive ir.2 = true -> best l <= Priority (srv ir.2).
Proof.
  induction l as [|x l IH] using rev_ind; intros Hin Ha; [set_solver|].
  rewrite best_snoc. apply elem_of_app in Hin as [Hin|Hin%list_elem_of_singleton].
  - specialize (IH Hin Ha). case_match; lia.
  - subst. rewrite Ha. lia.
Qed.

(** No remote is in a class better than the best one. *)
Lemma class_above l p b : p < best l -> class l p b = [].
Proof.
  intros Hp. destruct (class l p b) as [|ir c] eqn:E; [done|]. exfalso.
  assert (ir ∈ class l p b) as Hin by (rewrite E; set_solver).
  apply list_elem_of_filter in Hin as [(Ha & Hpr & _) Hin].
  pose proof (best_le l ir Hin Ha). lia.
Qed.

Section scanning.
Definition entry_wf (ir : nat * remote) : Prop := srv_wf (srv ir.2).

Lemma sumw_bound l : Forall entry_wf l -> 0 <= sumw l <= 65535 * zlen l.
Proof.
  induction 1 as [|ir l (_ & _ & Hw) _ IH]; [done|].
  unfold in_u in Hw. rewrite zlen_cons. unfold sumw in *. simpl. lia.
Qed.

Lemma class_length l p b : zlen (class l p b) <= zlen l.
Proof. unfold zlen, class. pose proof (length_filter (fun ir : nat * remote => isActive ir.2 = true /\ Priority (srv ir.2) = p /\ (0 <? Weight (srv ir.2)) = b) l). lia. Qed.

Lemma class_wf l p b : Forall entry_wf l -> Forall entry_wf (class l p b).
Proof.
  rewrite !Forall_forall. intros Hwf ir Hin. apply Hwf. by apply list_elem_of_filter in Hin as [_ Hin].
Qed.

Lemma scan_correct l :
  Forall entry_wf l -> zlen l < 2 ^ 32 ->
  fold_left scan_step l (mkScan 65535 0 [] []) =
  mkScan (best l) (sumw (class l (best l) true)) (class l (best l) true) (class l (best l) false).
Proof.
  induction l as [|ir l IH] using rev_ind; intros Hwf Hlen; [done|].
  apply Forall_app in Hwf as [Hwf Hir]. rewrite Forall_singleton in Hir.
  rewrite zlen_app, zlen_cons, zlen_nil in Hlen.
  rewrite fold_left_app, IH by (done || lia). clear IH.
  rewrite best_snoc, !class_snoc, sumw_app. simpl. unfold scan_step. simpl.
  pose proof (sumw_bound _ (class_wf l (best l) true Hwf)) as Hs.
  pose proof (class_length l (best l) true) as Hc.
  destruct Hir as (_ & _ & Hw). unfold in_u in Hw.
  assert (sumw [ir] = Weight (srv ir.2)) as Hone by (unfold sumw; simpl; lia).
  destruct (isActive ir.2); simpl; [|by rewrite !app_nil_r, Z.add_0_r].
  destruct (Z.ltb_spec (Priority (srv ir.2)) (best l)) as [Hp|Hp].
  - rewrite Z.min_r, Z.eqb_refl by lia. rewrite !class_above by lia. unfold scan_add. simpl.
    destruct (0 <? _); simpl; f_equal.
    rewrite Hone, wrap_s_id by (unfold in_s; lia). unfold sumw. simpl. lia.
  - rewrite Z.min_l by lia. destruct (Z.eqb_spec (Priority (srv ir.2)) (best l)).
    + unfold scan_add. simpl. destruct (0 <? _); simpl; rewrite ?app_nil_r, ?Z.add_0_r; f_equal.
      rewrite Hone. apply wrap_s_id; unfold in_s; lia.
    + simpl. by rewrite !app_nil_r, Z.add_0_r.
Qed.

End scanning.

(** *** The scan of a whole proxy *)

Definition indexed (tp : TCPProxy) : list (nat * remote) := imap pair (remotes tp).

Lemma indexed_elem tp ir : ir ∈ indexed tp <-> remotes tp !! ir.1 = Some ir.2.
Proof.
  unfold indexed. rewrite elem_of_lookup_imap. destruct ir as [i r]. simpl. naive_solver.
Qed.

Lemma NoDup_fmap_fst_class tp p b : NoDup (class (indexed tp) p b).*1.
Proof.
  eapply sublist_NoDup; [|apply (fmap_sublist fst), sublist_filter].
  unfold indexed. rewrite fmap_imap. rewrite (imap_ext _ (fun i _ => i)) by done.
  rewrite imap_seq_0. apply NoDup_fmap_2; [apply _|]. apply NoDup_seq.
Qed.

Lemma zlen_indexed tp : zlen (indexed tp) = zlen (remotes tp).
Proof. unfold indexed, zlen. by rewrite length_imap. Qed.

Lemma indexed_wf tp : proxy_wf tp -> Forall entry_wf (indexed tp).
Proof.
  intros (Hwf & _). apply Forall_forall. intros [i r] Hin%indexed_elem.
  eapply Forall_lookup_1 in Hwf; [|done]. done.
Qed.

(** The two candidate lists of [pick], and the class they come from. *)
Definition best_of (tp : TCPProxy) : Z := best (indexed tp).
Definition weighted_of (tp : TCPProxy) : list (nat * remote) := class (indexed tp) (best_of tp) true.
Definition unweighted_of (tp : TCPProxy) : list (nat * remote) := class (indexed tp) (best_of tp) false.

Lemma pick_scan_correct tp :
  proxy_wf tp ->
  pick_scan (remotes tp) =
  mkScan (best_of tp) (sumw (weighted_of tp)) (weighted_of tp) (unweighted_of tp).
Proof.
  intros Hwf. apply (scan_correct (indexed tp)); [by apply indexed_wf|]. rewrite zlen_indexed. apply Hwf.
Qed.

(** Position [i] holds an active remote of the best class. *)
Definition in_best (tp : TCPProxy) (i : nat) : Prop :=
  exists r, active_remote (remotes tp) i r /\ Priority (srv r) = best_of tp.

Lemma class_in_best tp b ir : ir ∈ class (indexed tp) (best_of tp) b -> in_best tp ir.1.
Proof.
  intros [(Ha & Hp & _) Hin]%list_elem_of_filter. exists ir.2.
  by split; [split; [apply indexed_elem|]|].
Qed.

(** The active remotes are in a class of their own priority. *)
Lemma active_has_class tp i r :
  proxy_wf tp -> active_remote (remotes tp) i r ->
  best_of tp <= Priority (srv r).
Proof. intros _ [Hi Ha]. apply (best_le _ (i, r)); [by apply indexed_elem|done]. Qed.

Lemma best_in_class l :
  (exists ir, ir ∈ l /\ isActive ir.2 = true) -> Forall entry_wf l ->
  class l (best l) true <> [] \/ class l (best l) false <> [].
Proof.
  induction l as [|ir l IH] using rev_ind; intros (x & Hin & Ha) Hwf; [set_solver|].
  apply Forall_app in Hwf as [Hwf Hir]. rewrite Forall_singleton in Hir.
  destruct Hir as (_ & Hp & _). unfold in_u in Hp.
  rewrite best_snoc, !class_snoc. destruct (isActive ir.2) eqn:Hact.
  - destruct (Z.le_gt_cases (Priority (srv ir.2)) (best l)).
    + rewrite Z.min_r, Z.eqb_refl by lia. simpl. destruct (0 <? _); simpl; [left|right]; by intros [??]%app_nil.
    + rewrite Z.min_l by lia.
      destruct (decide (Exists (fun y : nat * remote => isActive y.2 = true) l)) as [Hex|Hno].
      * apply Exists_exists in Hex as (y & ? & ?).
        destruct IH as [IH|IH]; [by exists y|done|left|right]; by intros [??]%app_nil.
      * exfalso. assert (best l = 65535) as E; [|lia]. clear -Hno.
        induction l as [|z l IH] using rev_ind; [done|].
        rewrite Exists_app, Exists_cons, Exists_nil in Hno. rewrite best_snoc.
        destruct (isActive z.2); [tauto|]. apply IH. tauto.
  - simpl. rewrite !app_nil_r. apply IH; [|done]. exists x. split; [|done].
    apply elem_of_app in Hin as [?|Hx%list_elem_of_singleton]; [done|congruence].
Qed.

Lemma some_class tp :
  proxy_wf tp -> (exists i r, active_remote (remotes tp) i r) ->
  weighted_of tp <> [] \/ unweighted_of tp <> [].
Proof.
  intros Hwf (i & r & Hi & Ha). apply best_in_class; [|by apply indexed_wf].
  exists (i, r). by split; [apply indexed_elem|].
Qed.

(** *** The two selection loops *)

Lemma choose_loop_total ws c : ws <> [] -> c < sumw ws -> exists i, choose_loop ws c = Some i.
Proof.
  revert c. induction ws as [|ir ws IH]; intros c Hne Hc; [done|]. simpl in *.
  destruct (Z.leb_spec (c - Weight (srv ir.2)) 0); [by eexists|].
  unfold sumw in Hc. simpl in Hc. destruct ws; [simpl in *; lia|]. apply IH; [done|].
  unfold sumw. lia.
Qed.

Lemma choose_loop_in ws c i : choose_loop ws c = Some i -> exists ir, ir ∈ ws /\ ir.1 = i.
Proof.
  revert c. induction ws as [|ir ws IH]; intros c Hc; simpl in Hc; [done|].
  case_match; simplify_eq; [exists ir; set_solver|]. apply IH in Hc as (? & ? & ?). set_solver.
Qed.

(** The draws that select position [k]: the first candidate takes draw 0 too. *)
Lemma choose_loop_interval ws k ir c :
  NoDup ws.*1 -> Forall (fun x : nat * remote => 0 < Weight (srv x.2)) ws ->
  ws !! k = Some ir -> 0 <= c ->
  choose_loop ws c = Some ir.1 <->
  (if k is O then 0 else sumw (take k ws) + 1) <= c <= sumw (take (S k) ws).
Proof.
  revert k c. induction ws as [|x ws IH]; intros k c Hnd Hpos Hk Hc; [done|].
  inversion Hnd as [|?? Hx Hnd']; subst. inversion Hpos as [|?? Hx0 Hpos']; subst. simpl.
  destruct k as [|k]; simpl in *; simplify_eq.
  - unfold sumw. simpl. destruct (Z.leb_spec (c - Weight (srv ir.2)) 0).
    + split; [lia|done].
    + split; [|lia]. intros (y & Hy & E)%choose_loop_in. exfalso. apply Hx.
      apply list_elem_of_fmap. by exists y.
  - change (sumw (x :: take k ws)) with (Weight (srv x.2) + sumw (take k ws)).
    change (sumw (x :: take (S k) ws)) with (Weight (srv x.2) + sumw (take (S k) ws)).
    assert (0 <= sumw (take k ws)) as Hs.
    { assert (Forall (fun y : nat * remote => 0 < Weight (srv y.2)) (take k ws)) as HF by by apply Forall_take.
      clear -HF. induction HF; unfold sumw in *; simpl; lia. }
    destruct (Z.leb_spec (c - Weight (srv x.2)) 0).
    + split; [|lia]. intros [= E]. exfalso. apply Hx. rewrite E. apply list_elem_of_fmap.
      exists ir. split; [done|]. by eapply list_elem_of_lookup_2.
    + rewrite (IH k) by (done || lia). destruct k as [|k]; [|lia].
      unfold sumw at 2. simpl. lia.
Qed.

Lemma at_count_Ok {A} (l : list A) n :
  l <> [] -> 0 <= n -> exists a, at_count l n = Ok a /\ l !! Z.to_nat (Z.rem n (zlen l)) = Some a.
Proof.
  intros Hl Hn. assert (0 < zlen l) by (destruct l; [done|rewrite zlen_cons; pose proof (zlen_nonneg l); lia]).
  pose proof (Z.rem_bound_pos n (zlen l)) as Hr.
  destruct (idx_in_range l (Z.rem n (zlen l))) as [a Ha]; [lia|].
  exists a. split; [done|]. by apply idx_Ok in Ha as [_ ?].
Qed.

(** The loop returns an active remote, or none of the next [n] is active. *)
Lemma round_robin_spec rs n count :
  rs <> [] -> 0 <= count -> count + Z.of_nat n < 2 ^ 63 ->
  exists r count', round_robin rs n count = Ok (r, count')
    /\ count <= count' <= count + Z.of_nat n
    /\ match r with
       | Some i => exists rm, active_remote rs i rm
       | None => forall j r, (j < n)%nat ->
           rs !! Z.to_nat (Z.rem (count + Z.of_nat j) (zlen rs)) = Some r -> isActive r = false
       end.
Proof.
  intros Hrs. revert count. induction n as [|n IH]; intros count H0 Hmax; simpl.
  { exists None, count. repeat split; [lia..|]. intros; lia. }
  destruct (at_count_Ok rs count Hrs H0) as (a & -> & Ha). simpl.
  rewrite wrap_s_id by (unfold in_s; lia). destruct (isActive a) eqn:Hact.
  { exists (Some (Z.to_nat (Z.rem count (zlen rs)))), (count + 1). repeat split; [lia..|].
    exists a. by split. }
  destruct (IH (count + 1)) as (r & c & -> & Hc & Hr); [lia..|].
  exists r, c. repeat split; [lia..|]. destruct r as [i|]; [done|].
  intros [|j] rm Hj Hl.
  - rewrite Z.add_0_r, Ha in Hl. by simplify_eq.
  - apply (Hr j); [lia|]. by replace (count + 1 + Z.of_nat j) with (count + Z.of_nat (S j)) by lia.
Qed.

(** [len] consecutive counts reach every position. *)
Lemma rem_covers count len i :
  0 <= count -> (i < len)%nat ->
  exists j, (j < len)%nat /\ Z.to_nat (Z.rem (count + Z.of_nat j) (Z.of_nat len)) = i.
Proof.
  intros Hc Hi. pose proof (Z.mod_pos_bound (Z.of_nat i - count) (Z.of_nat len)) as Hb.
  exists (Z.to_nat ((Z.of_nat i - count) mod Z.of_nat len)). split; [lia|].
  rewrite Z.rem_mod_nonneg, Z2Nat.id by lia.
  rewrite Zplus_mod_idemp_r. replace (count + (Z.of_nat i - count)) with (Z.of_nat i) by lia.
  rewrite Z.mod_small by lia. lia.
Qed.

Lemma round_robin_all rs count :
  rs <> [] -> 0 <= count -> count + zlen rs < 2 ^ 63 ->
  exists r count', round_robin rs (length rs) count = Ok (r, count')
    /\ count <= count' <= count + zlen rs
    /\ match r with
       | Some i => exists rm, active_remote rs i rm
       | None => forall i rm, ~ active_remote rs i rm
       end.
Proof.
  intros Hrs H0 Hmax. destruct (round_robin_spec rs (length rs) count Hrs H0 Hmax) as (r & c & E & Hc & Hr).
  fold (zlen rs) in Hc. exists r, c. repeat split; [done|lia..|]. destruct r as [i|]; [done|].
  intros i rm [Hi Ha]. pose proof (lookup_lt_Some _ _ _ Hi) as Hlt.
  destruct (rem_covers count (length rs) i H0 Hlt) as (j & Hj & Ej).
  rewrite (Hr j rm Hj) in Ha; [done|]. unfold zlen. by rewrite Ej.
Qed.

Lemma weighted_pos tp : Forall (fun ir : nat * remote => 0 < Weight (srv ir.2)) (weighted_of tp).
Proof. apply Forall_forall. intros ir [(_ & _ & H%Z.ltb_lt) _]%list_elem_of_filter. done. Qed.

Lemma weighted_sum_pos tp : weighted_of tp <> [] -> 0 < sumw (weighted_of tp).
Proof.
  pose proof (weighted_pos tp) as H. destruct H as [|ir l Hir Hl]; [done|]. intros _.
  assert (0 <= sumw l); [|unfold sumw in *; simpl; lia].
  induction Hl; unfold sumw in *; simpl in *; lia.
Qed.

Lemma pick_unweighted_spec tp :
  proxy_wf tp -> unweighted_of tp <> [] ->
  exists i c rm, pick_unweighted (pick_scan (remotes tp)) tp = Ok (Some i, set_pickCount c tp)
    /\ pickCount tp <= c <= pickCount tp + zlen (remotes tp) /\ active_remote (remotes tp) i rm.
Proof.
  intros Hwf Hu. unfold pick_unweighted. rewrite pick_scan_correct by done. simpl.
  destruct (unweighted_of tp) as [|ir l] eqn:E; [done|].
  assert (ir ∈ unweighted_of tp) as Hin by (rewrite E; set_solver).
  apply class_in_best in Hin as (r0 & Hact & _). destruct Hwf as (_ & Hlen & H0 & Hmax).
  destruct (round_robin_all (remotes tp) (pickCount tp)) as (r & c & -> & Hc & Hr); [|lia..|].
  { intros Hnil. destruct Hact as [Hl _]. by rewrite Hnil in Hl. }
  destruct r as [i|]; [|by apply Hr in Hact]. destruct Hr as [rm Hrm]. exists i, c, rm. by simpl.
Qed.

(** What a call of [pick] may return. *)
Definition pick_ok (tp : TCPProxy) (res : go (option nat * TCPProxy)) : Prop :=
  exists r c, res = Ok (r, set_pickCount c tp)
    /\ pickCount tp <= c <= pickCount tp + zlen (remotes tp)
    /\ (weighted_of tp <> [] -> exists i, r = Some i /\ in_best tp i)
    /\ match r with
       | Some i => exists rm, active_remote (remotes tp) i rm
       | None => forall i rm, ~ active_remote (remotes tp) i rm
       end.

Lemma set_pickCount_id tp : set_pickCount (pickCount tp) tp = tp.
Proof. by destruct tp. Qed.

(** A candidate of either list is a legal result. *)
Lemma class_pick_ok tp ir b c :
  ir ∈ class (indexed tp) (best_of tp) b ->
  pickCount tp <= c <= pickCount tp + zlen (remotes tp) ->
  pick_ok tp (Ok (Some ir.1, set_pickCount c tp)).
Proof.
  intros Hin%class_in_best Hc. exists (Some ir.1), c. repeat split; [lia..| |].
  - intros _. by exists ir.1.
  - destruct Hin as (rm & ? & _). by exists rm.
Qed.

Lemma pick_choose_weighted r2 tp :
  proxy_wf tp -> weighted_of tp <> [] ->
  exists c ir, rand_Intn r2 (sumw (weighted_of tp)) = Ok c
    /\ choose_loop (weighted_of tp) c = Some ir.1 /\ ir ∈ weighted_of tp
    /\ pick_choose r2 (pick_scan (remotes tp)) tp = Ok (Some ir.1, tp).
Proof.
  intros Hwf Hne.
  destruct (rand_Intn_pos r2 (sumw (weighted_of tp))) as (c & Hrand & Hc); [by apply weighted_sum_pos|].
  destruct (choose_loop_total (weighted_of tp) c Hne) as (i & Hi); [lia|].
  destruct (choose_loop_in _ _ _ Hi) as (ir & Hin & <-).
  exists c, ir. repeat split; [done..|]. unfold pick_choose. rewrite pick_scan_correct by done.
  simpl. rewrite Hrand. simpl. by rewrite Hi.
Qed.

Lemma pick_result r1 r2 tp : proxy_wf tp -> pick_ok tp (pick r1 r2 tp).
Proof.
  intros Hwf. pose proof Hwf as (_ & _ & H0 & Hmax). pose proof (zlen_nonneg (remotes tp)).
  unfold pick. cbv zeta. pose proof (pick_scan_correct tp Hwf) as Escan.
  destruct (weighted_of tp) as [|x ws] eqn:Ew; rewrite Escan; cbn [weighted unweighted].
  - destruct (decide (unweighted_of tp = [])) as [Eu|Eu].
    + unfold pick_unweighted. rewrite Eu. simpl.
      exists None, (pickCount tp). rewrite set_pickCount_id, Ew. repeat split; [lia..|done|].
      intros i rm Ha. destruct (some_class tp Hwf) as [?|?]; [by eauto|done..].
    + destruct (pick_unweighted_spec tp Hwf Eu) as (i & c & rm & E & Hc & Hrm).
      rewrite Escan in E. exists (Some i), c. rewrite E, Ew. by repeat split; [lia..| |eauto].
  - destruct (pick_choose_weighted r2 tp Hwf) as (c & ir & _ & _ & Hin & Hch); [by rewrite Ew|].
    assert (pick_ok tp (Ok (Some ir.1, tp))) as Hok.
    { rewrite <- (set_pickCount_id tp) at 2. apply (class_pick_ok tp ir true); [done|lia]. }
    rewrite Escan in Hch. destruct (unweighted_of tp) as [|y us] eqn:Eu.
    { rewrite bool_decide_true by done. go_step. simpl (_ && _). by rewrite Hch. }
    destruct (rand_Intn_pos r1 100) as (q & -> & _); [lia|]. go_step.
    rewrite bool_decide_false by done. simpl (_ && _). destruct (q =? 1); [|by rewrite Hch].
    destruct (at_count_Ok (y :: us) (pickCount tp)) as (a & -> & Ha); [done|lia|]. go_step.
    assert (a ∈ unweighted_of tp) as Hau by (rewrite Eu; by eapply list_elem_of_lookup_2).
    assert (0 < zlen (remotes tp)).
    { apply class_in_best in Hau as (r & [Hl _] & _). apply lookup_lt_Some in Hl. unfold zlen. lia. }
    rewrite wrap_s_id by (unfold in_s; lia). apply (class_pick_ok tp a false); [done|lia].
Qed.

(** Exactly which draws select the [k]-th weighted candidate. *)
Lemma pick_draws r1 r2 tp k ir :
  proxy_wf tp -> unweighted_of tp = [] -> weighted_of tp !! k = Some ir ->
  pick r1 r2 tp = Ok (Some ir.1, tp) <->
  (if k is O then 0 else sumw (take k (weighted_of tp)) + 1)
    <= r2 mod sumw (weighted_of tp) <= sumw (take (S k) (weighted_of tp)).
Proof.
  intros Hwf Hu Hk.
  assert (weighted_of tp <> []) as Hne by by intros E; rewrite E in Hk.
  pose proof (weighted_sum_pos tp Hne) as Hpos.
  destruct (pick_choose_weighted r2 tp Hwf Hne) as (c & x & Hrand & Hc & Hx & Hch).
  assert (pick r1 r2 tp = Ok (Some x.1, tp)) as ->.
  { rewrite <- Hch. unfold pick. cbv zeta. rewrite (pick_scan_correct tp Hwf), Hu. cbn [weighted unweighted].
    by destruct (weighted_of tp). }
  unfold rand_Intn in Hrand. destruct (Z.leb_spec (sumw (weighted_of tp)) 0); [lia|].
  injection Hrand as Ec. pose proof (Z.mod_pos_bound r2 _ Hpos).
  rewrite Ec in *. rewrite <- choose_loop_interval; [|apply NoDup_fmap_fst_class|apply weighted_pos|done|lia].
  rewrite Hc. split; [by intros [= ->]|by intros [= ->]].
Qed.

(** *** The dial loop *)

Definition actives (rs : list remote) : nat := length (filter (fun r => isActive r = true) rs).

Lemma actives_le rs : (actives rs <= length rs)%nat.
Proof. apply length_filter. Qed.

Lemma actives_inactivate rs i r :
  active_remote rs i r -> (actives (alter inactivate i rs) < actives rs)%nat.
Proof.
  unfold actives. intros [Hi Ha]. revert i Hi. induction rs as [|x rs IH]; intros [|i] Hi; simpl in Hi; [done..| |].
  - simplify_eq. simpl. rewrite !filter_cons. rewrite decide_False by done. rewrite decide_True by done. simpl. lia.
  - change (alter inactivate (S i) (x :: rs)) with (x :: alter inactivate i rs).
    rewrite !filter_cons. specialize (IH i Hi). case_decide; simpl; lia.
Qed.

(** Inactivating one remote changes no other, and no SRV record. *)
Lemma active_alter rs i j r :
  active_remote (alter inactivate i rs) j r -> i <> j /\ active_remote rs j r.
Proof.
  intros [Hl Ha]. destruct (decide (i = j)) as [->|Hne].
  - rewrite list_lookup_alter_eq in Hl. by destruct (rs !! j); simplify_eq/=.
  - rewrite list_lookup_alter_ne in Hl by done. done.
Qed.

Lemma alter_srv_wf rs i :
  Forall (fun r => srv_wf (srv r)) rs -> Forall (fun r => srv_wf (srv r)) (alter inactivate i rs).
Proof. intros H. apply Forall_alter; [done|]. intros x _ Hx. done. Qed.

(** [fuel] more picks of [tp] keep the round-robin counter below its width. *)
Definition pick_room (fuel : nat) (tp : TCPProxy) : Prop :=
  Forall (fun r => srv_wf (srv r)) (remotes tp) /\ zlen (remotes tp) < 2 ^ 32
  /\ 0 <= pickCount tp /\ pickCount tp + Z.of_nat fuel * zlen (remotes tp) < 2 ^ 63.

Lemma pick_room_wf fuel tp : pick_room (S fuel) tp -> proxy_wf tp.
Proof. intros (? & ? & ? & ?). pose proof (zlen_nonneg (remotes tp)). repeat split; [done|lia..|nia]. Qed.

Lemma pick_room_step fuel tp i c :
  pick_room (S fuel) tp -> pickCount tp <= c <= pickCount tp + zlen (remotes tp) ->
  pick_room fuel (set_remotes (alter inactivate i (remotes tp)) (set_pickCount c tp)).
Proof.
  intros (Hs & Hl & H0 & Hm) Hc. unfold pick_room, set_remotes, set_pickCount. simpl.
  assert (zlen (alter inactivate i (remotes tp)) = zlen (remotes tp)) as ->
    by (unfold zlen; by rewrite length_alter).
  repeat split; [by apply alter_srv_wf|lia..|nia].
Qed.

(** A run of the loop: it ends with a successful dial, or with a failed dial
    of every remote that was active. *)
Lemma serve_loop_result fuel k rnd dial tp :
  pick_room fuel tp -> (actives (remotes tp) < fuel)%nat ->
  exists r tp', serve_loop fuel k rnd dial tp = Some (Ok (r, tp'))
    /\ match r with
       | Some i => exists rm k', active_remote (remotes tp) i rm /\ dial k' i = true
       | None => (forall i rm, ~ active_remote (remotes tp') i rm)
           /\ forall i rm, active_remote (remotes tp) i rm -> exists k', dial k' i = false
       end.
Proof.
  revert k tp. induction fuel as [|fuel IH]; intros k tp Hroom Hact; [lia|].
  pose proof (pick_result (rnd k).1 (rnd k).2 tp (pick_room_wf _ _ Hroom)) as (r & c & E & Hc & _ & Hr).
  simpl. rewrite E. destruct r as [i|].
  - destruct Hr as (rm & Hrm). destruct (dial k i) eqn:Hd.
    { exists (Some i), (set_pickCount c tp). split; [done|]. by exists rm, k. }
    pose proof (actives_inactivate _ _ _ Hrm) as Hlt.
    destruct (IH (S k) (set_remotes (alter inactivate i (remotes tp)) (set_pickCount c tp)))
      as (r & tp' & Er & Hres); [by apply pick_room_step|simpl; lia|].
    exists r, tp'. split; [done|]. simpl in Hres. destruct r as [j|].
    + destruct Hres as (rj & k' & [_ Hj]%active_alter & ?). by exists rj, k'.
    + destruct Hres as [Hnone Hfail]. split; [done|]. intros j rj Hj.
      destruct (decide (i = j)) as [->|Hne]; [by exists k|].
      apply (Hfail j rj). destruct Hj. split; [by rewrite list_lookup_alter_ne|done].
  - exists None, (set_pickCount c tp). split; [done|]. split; [done|]. intros i rm Hi. by apply Hr in Hi.
Qed.

(** ** Properties *)

(** The best active priority is that of remote [r]. *)
Definition least_priority (tp : TCPProxy) (r : remote) : Prop :=
  forall k y, active_remote (remotes tp) k y -> Priority (srv r) <= Priority (srv y).

(** [pick] on any state [Run] can reach: it returns an active remote
    whenever there is one, and nothing otherwise, and changes no remote;
    when a remote of the best active priority has a positive weight, the
    remote returned is of that priority. *)
Theorem pick_serves_best r1 r2 tp :
  proxy_wf tp ->
  (exists i rm tp', pick r1 r2 tp = Ok (Some i, tp') /\ remotes tp' = remotes tp
     /\ active_remote (remotes tp) i rm
     /\ ((exists j x, active_remote (remotes tp) j x /\ 0 < Weight (srv x) /\ least_priority tp x) ->
         least_priority tp rm))
  \/ ((forall i rm, ~ active_remote (remotes tp) i rm) /\ exists tp', pick r1 r2 tp = Ok (None, tp')
      /\ remotes tp' = remotes tp).
Proof.
  intros Hwf. destruct (pick_result r1 r2 tp Hwf) as (r & c & E & _ & Hbest & Hr).
  destruct r as [i|]; [left|right; split; [done|by exists (set_pickCount c tp)]].
  destruct Hr as (rm & Hrm). exists i, rm, (set_pickCount c tp). repeat split; [done|apply Hrm..|].
  intros (j & x & [Hj Hja] & Hw & Hleast) k y Hy.
  destruct Hbest as (i' & [= <-] & rm' & [Hl _] & Hp).
  - assert ((j, x) ∈ weighted_of tp) as Hin; [|by intros En; rewrite En in Hin; set_solver].
    apply list_elem_of_filter. split; [|by apply indexed_elem]. repeat split; [done| |simpl; lia].
    apply Z.le_antisymm; [|by apply (active_has_class tp j)]. simpl.
    destruct (some_class tp Hwf) as [Hne|Hne]; [by exists j, x|..];
      [destruct (weighted_of tp) as [|z zs] eqn:Ez|destruct (unweighted_of tp) as [|z zs] eqn:Ez]; try done;
      assert (z ∈ z :: zs) as Hz by set_solver; rewrite <- Ez in Hz;
      apply class_in_best in Hz as (rz & Hz & <-); by eapply Hleast.
  - destruct Hrm as [Hl' _]. simplify_eq. rewrite Hp. by eapply active_has_class.
Qed.

(** Three endpoints after [Run]: two of priority 1, a better one inactive. *)
Definition sample_proxy : TCPProxy :=
  let tp := Run_setup (mkProxy true true
    [mkSRV [Byte.x61] 80 0 5; mkSRV [Byte.x62] 81 1 3; mkSRV [Byte.x63] 82 1 1] 0 DoneNil [] 0) in
  set_remotes (alter inactivate 0%nat (remotes tp)) tp.

Lemma sample_proxy_wf : proxy_wf sample_proxy.
Proof. repeat constructor; vm_compute; try lia; done. Qed.

Lemma pick_serves_best_witness :
  proxy_wf sample_proxy /\ exists i rm tp', pick 0 7 sample_proxy = Ok (Some i, tp')
    /\ active_remote (remotes sample_proxy) i rm.
Proof.
  split; [apply sample_proxy_wf|].
  destruct (pick_serves_best 0 7 sample_proxy sample_proxy_wf)
    as [(i & rm & tp' & H1 & _ & H2 & _)|[Hno _]].
  - exists i, rm, tp'. by split.
  - exfalso. apply (Hno 1%nat (Run_remote (mkSRV [Byte.x62] 81 1 3))). by vm_compute.
Defined.

(** A candidate of weight 1 at the end of the class is never returned. *)
Theorem last_weight_one_unpicked r1 r2 tp ws ir tp' :
  proxy_wf tp -> unweighted_of tp = [] -> weighted_of tp = ws ++ [ir] -> ws <> [] ->
  Weight (srv ir.2) = 1 -> pick r1 r2 tp <> Ok (Some ir.1, tp').
Proof.
  intros Hwf Hu Hw Hne H1 Hp.
  assert (tp' = tp) as ->.
  { unfold pick in Hp. cbv zeta in Hp. rewrite pick_scan_correct, Hu in Hp by done. cbn [weighted unweighted] in Hp.
    destruct (pick_choose_weighted r2 tp Hwf) as (c & x & _ & _ & _ & Hch); [rewrite Hw; by destruct ws|].
    rewrite pick_scan_correct, Hu in Hch by done.
    destruct (weighted_of tp); [by destruct ws|]. go_step. simpl in Hp. rewrite Hch in Hp. by simplify_eq. }
  assert (weighted_of tp !! length ws = Some ir) as Hk by (rewrite Hw; by apply list_lookup_middle).
  apply (pick_draws r1 r2 tp (length ws) ir Hwf Hu Hk) in Hp as [Hp _].
  rewrite Hw, take_app_length, sumw_app in Hp.
  assert (sumw [ir] = 1) as E by (unfold sumw; simpl; lia). rewrite E in Hp.
  assert (0 < sumw ws + 1) as Hpos.
  { pose proof (weighted_sum_pos tp) as H. rewrite Hw, sumw_app, E in H. apply H. by destruct ws. }
  destruct ws as [|x ws]; [done|]. cbn [length] in Hp.
  pose proof (Z.mod_pos_bound r2 _ Hpos). lia.
Qed.

(** When no candidate of the best class has a weight, the round robin runs
    over all remotes and returns active ones of other priorities too. *)
Theorem pick_crosses_priorities :
  exists tp i rm j better, proxy_wf tp
    /\ pick 0 0 tp = Ok (Some i, set_pickCount (pickCount tp + 1) tp)
    /\ active_remote (remotes tp) i rm /\ active_remote (remotes tp) j better
    /\ Priority (srv better) < Priority (srv rm).
Proof.
  set (rs := map Run_remote [mkSRV [Byte.x61] 80 0 0; mkSRV [Byte.x62] 81 9 5]).
  exists (mkProxy true true [] 0 DoneOpen rs 1), 1%nat, (Run_remote (mkSRV [Byte.x62] 81 9 5)), 0%nat,
    (Run_remote (mkSRV [Byte.x61] 80 0 0)).
  split; [repeat constructor; vm_compute; try lia; done|]. repeat split.
Qed.










(** A monitor tick makes a remote active exactly when it was, or its dial succeeds. *)
Lemma runMonitor_tick_lookup dialled tp i r :
  remotes tp !! i = Some r ->
  remotes (runMonitor_tick dialled tp) !! i =
    Some (if isActive r || dialled i then mkRemote (srv r) (addr r) false else r).
Proof.
  intros Hi. unfold runMonitor_tick. simpl. rewrite list_lookup_imap, Hi. simpl.
  destruct r as [s a []]; simpl; [|done]. by destruct (dialled i).
Qed.

(** An error of [Accept], which [Stop] causes by closing the listeners, does
    not end the accept loop: the loop hands the nil connection to [serve],
    which panics. *)
Theorem accept_error_panics rnd dial e from_out tp :
  pick_room (S (length (remotes tp))) tp ->
  Run_accept rnd dial e None from_out false tp = (true, Some Panic).
Proof.
  intros Hroom. pose proof (actives_le (remotes tp)).
  destruct (serve_loop_result (S (length (remotes tp))) 0 rnd dial tp Hroom) as (r & tp' & E & _); [lia|].
  unfold Run_accept. by rewrite E.
Qed.

End TcpProxy.
