(* ===== verification/Client.v ===== *)
(** * Client: the clerk of server/client.go

    A clerk sends requests on one connection per operation and reassembles
    the responses that come back on the GET and the PUT connection in two
    2048-byte buffers.  A response is handed to the waiting call through a
    channel of capacity 1, found by its request id.

    What the network and the clock decide is an argument: the bytes each
    [Read] returns, the outcome of each [Write] and [net.Dial], the timestamp
    that becomes a request id, and what the other goroutines of the clerk do
    while a call waits.  Channels are positions in [chans], so that the map
    and the waiting call share them; a connection is its number, and what is
    written to connections is recorded in [outbox]. *)

From S2P Require Import Prelude Binary Types Wire.

Module Client.
Import Common.

(** ** Data *)

(** A byte slice: its own memory, or a window of [responsePutBuffer], whose
    contents later messages overwrite. *)
Inductive bytes_ref :=
  | Owned (bs : list byte)
  | PutBuf (lo hi : Z).

(** [proxy.Result], with the body of [proxy.Body]. *)
Record Result := mkResult {
  ErrId : Z;        (* uint32 *)
  KeyLen : Z;       (* uint32 *)
  KeyValue : bytes_ref
}.

(** A channel of capacity 1. *)
Record channel := mkChan { item : option Result; closed : bool }.

Record Clerk := mkClerk {
  clerkId : Z;                          (* int32 *)
  connections : gmap Z (option Z);      (* operation to connection, which may be nil *)
  maxRetryTime : Z;
  putOffset : Z;
  getOffset : Z;
  responsePutBuffer : list byte;
  responseGetBuffer : list byte;
  responseCh : gmap Z nat;              (* request id to channel *)
  dead : Z;
  chans : list channel;
  outbox : list (Z * list byte);
  closed_conns : list Z
}.

Definition set_connections x (c : Clerk) : Clerk :=
  mkClerk (clerkId c) x (maxRetryTime c) (putOffset c) (getOffset c) (responsePutBuffer c)
    (responseGetBuffer c) (responseCh c) (dead c) (chans c) (outbox c) (closed_conns c).
Definition set_put off buf (c : Clerk) : Clerk :=
  mkClerk (clerkId c) (connections c) (maxRetryTime c) off (getOffset c) buf
    (responseGetBuffer c) (responseCh c) (dead c) (chans c) (outbox c) (closed_conns c).
Definition set_get off buf (c : Clerk) : Clerk :=
  mkClerk (clerkId c) (connections c) (maxRetryTime c) (putOffset c) off (responsePutBuffer c)
    buf (responseCh c) (dead c) (chans c) (outbox c) (closed_conns c).
Definition set_channels m l (c : Clerk) : Clerk :=
  mkClerk (clerkId c) (connections c) (maxRetryTime c) (putOffset c) (getOffset c) (responsePutBuffer c)
    (responseGetBuffer c) m (dead c) l (outbox c) (closed_conns c).
Definition set_outbox x (c : Clerk) : Clerk :=
  mkClerk (clerkId c) (connections c) (maxRetryTime c) (putOffset c) (getOffset c) (responsePutBuffer c)
    (responseGetBuffer c) (responseCh c) (dead c) (chans c) x (closed_conns c).

Definition Kill (c : Clerk) : Clerk :=
  mkClerk (clerkId c) (connections c) (maxRetryTime c) (putOffset c) (getOffset c) (responsePutBuffer c)
    (responseGetBuffer c) (responseCh c) 1 (chans c) (outbox c) (closed_conns c).

Definition killed (c : Clerk) : bool := dead c =? 1.

(** ** Channels *)

Definition chan_send (r : Result) (ch : channel) : go channel :=
  if closed ch then Panic
  else match item ch with
       | Some _ => Err ErrBlocked
       | None => Ok (mkChan (Some r) false)
       end.

Definition chan_close (ch : channel) : go channel :=
  if closed ch then Panic else Ok (mkChan (item ch) true).

(** [None]: a receive waits.  A closed empty channel yields the nil pointer. *)
Definition chan_recv (ch : channel) : option (option Result * channel) :=
  match item ch with
  | Some r => Some (Some r, mkChan None (closed ch))
  | None => if closed ch then Some (None, ch) else None
  end.

(** ** Identifiers and connections *)

(** The package variable [id] before the call, the new value and the result. *)
Definition getClerkId (id : Z) : Z * Z := let id := wrap_s 32 (id + 1) in (id, id).

Definition getUid (now : Z) : Z := wrap_u 64 now.

(** The first loop over [addrMap], in the order the map is iterated; [dial n]
    is the outcome of the [n]-th call of [net.Dial]. *)
Fixpoint connect_first (dial : nat -> option Z) (n : nat) (addrs failed : list (Z * gostring))
    (conns : gmap Z (option Z)) : nat * list (Z * gostring) * gmap Z (option Z) :=
  match addrs with
  | [] => (n, failed, conns)
  | (op, addr) :: addrs =>
      match dial n with
      | None => connect_first dial (S n) addrs (failed ++ [(op, addr)]) conns
      | Some conn => connect_first dial (S n) addrs failed (<[op := Some conn]> conns)
      end
  end.

(** One pass of the retry loop over [failed], which it never shortens. *)
Fixpoint connect_pass (dial : nat -> option Z) (n : nat) (failed : list (Z * gostring)) (count : Z)
    (conns : gmap Z (option Z)) : nat * Z * gmap Z (option Z) :=
  match failed with
  | [] => (n, count, conns)
  | (op, addr) :: failed =>
      match dial n with
      | None => connect_pass dial (S n) failed (count + 1) conns
      | Some conn => connect_pass dial (S n) failed count (<[op := Some conn]> conns)
      end
  end.

(** [None]: the loop is still running after [fuel] passes. *)
Fixpoint connect_retry (fuel : nat) (dial : nat -> option Z) (n : nat) (failed : list (Z * gostring))
    (count : Z) (conns : gmap Z (option Z)) : option (gmap Z (option Z)) :=
  if bool_decide (failed = []) || (10 <=? count) then Some conns
  else match fuel with
       | O => None
       | S fuel =>
           let '(n, count, conns) := connect_pass dial n failed count conns in
           connect_retry fuel dial n failed count conns
       end.

Definition connectToProxy (fuel : nat) (dial : nat -> option Z) (addrMap : list (Z * gostring))
    (c : Clerk) : option (Clerk * go unit) :=
  let '(n, failed, conns) := connect_first dial 0 addrMap [] (connections c) in
  match connect_retry fuel dial n failed 0 conns with
  | None => None
  | Some conns =>
      if negb (bool_decide (failed = [])) then Some (set_connections conns c, Err ErrDial)
      else
        let conns := match conns !! APPEND with
                     | Some _ => conns
                     | None => <[APPEND := default None (conns !! PUT)]> conns
                     end in
        Some (set_connections conns c, Ok tt)
  end.

Definition buffer_size : nat := 2048.

(** [MakeClerk] up to the start of the two receiving goroutines. *)
Definition MakeClerk (fuel : nat) (dial : nat -> option Z) (addrs : list (Z * gostring)) (id : Z)
    : option (Z * go Clerk) :=
  let '(id, clerk) := getClerkId id in
  let ck := mkClerk clerk ∅ 1 0 0 (replicate buffer_size Byte.x00) (replicate buffer_size Byte.x00) ∅ 0 [] [] [] in
  match connectToProxy fuel dial addrs ck with
  | None => None
  | Some (ck, Ok _) => Some (id, Ok ck)
  | Some (_, _) => Some (id, Panic)
  end.

(** [Stop] closes every connection and every channel still registered. *)
Fixpoint close_all (l : list channel) (chs : list nat) : go (list channel) :=
  match chs with
  | [] => Ok l
  | c :: chs =>
      ch ← deref (l !! c);
      ch ← chan_close ch;
      close_all (<[c := ch]> l) chs
  end.

(** Calling [Close] on a nil connection panics. *)
Definition Stop (c : Clerk) : go Clerk :=
  let c := Kill c in
  conns ← mapM deref (map_to_list (connections c)).*2;
  l ← close_all (chans c) (map_to_list (responseCh c)).*2;
  mret (mkClerk (clerkId c) (connections c) (maxRetryTime c) (putOffset c) (getOffset c)
          (responsePutBuffer c) (responseGetBuffer c) (responseCh c) (dead c) l (outbox c)
          (closed_conns c ++ conns)).

(** ** Requests *)

Section protocol.

(** [utils.GlobalObject.MaxPackageSize], as in Wire. *)
Context (MaxPackageSize : Z).

Definition prepareData (now : Z) (keyValue : list byte) (op keyLen : Z) (c : Clerk)
    : go (Clerk * (list byte * Z)) :=
  bodyData ← BodyPack.Pack (BodyPack.mk keyLen keyValue);
  let msg := ClientMessage.mk op (wrap_u 32 (zlen bodyData)) (getUid now) (clerkId c) bodyData in
  let c := match responseCh c !! ClientMessage.IncrId msg with
           | Some _ => c
           | None => set_channels (<[ClientMessage.IncrId msg := length (chans c)]> (responseCh c))
                                  (chans c ++ [mkChan None false]) c
           end in
  binaryData ← ClientDataPack.Pack (IClient msg);
  mret (c, (binaryData, ClientMessage.IncrId msg)).

Definition packData (now : Z) (keyValue : list byte) (op keyLen : Z) (c : Clerk)
    : go (Clerk * (list byte * Z)) :=
  if negb (op =? GET) && negb (op =? PUT) && negb (op =? APPEND) then Err ErrOpType
  else prepareData now keyValue op keyLen c.

(** [werr] is the error of the [Write], if it fails. *)
Definition sendRequest (werr : option error) (binaryMsg : list byte) (op : Z) (c : Clerk) : go Clerk :=
  match connections c !! op with
  | None => Err ErrNoConn
  | Some conn =>
      conn ← deref conn;
      match werr with
      | Some e => Err e
      | None => Ok (set_outbox (outbox c ++ [(conn, binaryMsg)]) c)
      end
  end.

(** What the caller's goroutine meets while attempt [k] is under way. *)
Record environment := mkEnv {
  env_now : Z;                           (* the clock, for the request id *)
  env_write : nat -> option error;       (* outcome of the write *)
  env_wait : nat -> Clerk -> go Clerk;   (* the other goroutines, during the select *)
  env_timeout : nat -> bool              (* the timer fires before a receive *)
}.

(** The [select]: a value from the channel, or the timer, which fires in any
    case when nothing arrives.  A nil channel is never ready. *)
Definition select_response (timed_out : bool) (ch : option nat) (c : Clerk)
    : option (option Result * Clerk) :=
  if timed_out then None
  else
    n ← ch;
    cell ← chans c !! n;
    '(r, cell) ← chan_recv cell;
    Some (r, set_channels (responseCh c) (<[n := cell]> (chans c)) c).

(** The two results of [retryRequest]: a pointer and an error. *)
Fixpoint retry_loop (n k : nat) (env : environment) (binaryData : list byte) (op : Z) (ch : option nat)
    (lastErr : option error) (c : Clerk) : go (Clerk * (option Result * option error)) :=
  match n with
  | O => Ok (c, (None, lastErr))
  | S n =>
      match sendRequest (env_write env k) binaryData op c with
      | Panic => Panic
      | Err e => retry_loop n (S k) env binaryData op ch (Some e) c
      | Ok c =>
          c ← env_wait env k c;
          match select_response (env_timeout env k) ch c with
          | Some (resp, c) => Ok (c, (resp, None))
          | None => retry_loop n (S k) env binaryData op ch (Some ErrTimeout) c
          end
      end
  end.

(** A failed [packData] returns the id 0; a channel under it is closed. *)
Definition retryRequest (env : environment) (op keyLen : Z) (keyValue : list byte) (c : Clerk)
    : go (Clerk * (option Result * option error)) :=
  match packData (env_now env) keyValue op keyLen c with
  | Panic => Panic
  | Err e =>
      match responseCh c !! 0 with
      | None => Ok (c, (None, Some e))
      | Some n =>
          ch ← deref (chans c !! n);
          ch ← chan_close ch;
          mret (set_channels (delete 0 (responseCh c)) (<[n := ch]> (chans c)) c, (None, Some e))
      end
  | Ok (c, (binaryData, incrId)) =>
      retry_loop (Z.to_nat (maxRetryTime c)) 0 env binaryData op (responseCh c !! incrId) None c
  end.

(** The bytes a slice holds now. *)
Definition read_ref (c : Clerk) (r : bytes_ref) : go (list byte) :=
  match r with
  | Owned bs => Ok bs
  | PutBuf lo hi => slice (responsePutBuffer c) lo hi
  end.

Definition result_value (c : Clerk) (r : Result) : go gostring :=
  kv ← read_ref c (KeyValue r);
  BodyPack.GetValue (BodyPack.mk (KeyLen r) kv).

Definition reply_error (errId : Z) : option error :=
  if errId =? ErrMap OK then None else Some (ErrReply errId).

(** The outer result is a panic of the caller; the inner one what it returns. *)
Definition Get (env : environment) (key : gostring) (c : Clerk) : go (Clerk * go gostring) :=
  '(c, (res, err)) ← retryRequest env GET (wrap_u 32 (zlen key)) key c;
  match err with
  | Some e => mret (c, Err e)
  | None =>
      res ← deref res;
      match reply_error (ErrId res) with
      | Some e => mret (c, Err e)
      | None => v ← result_value c res; mret (c, Ok v)
      end
  end.

Definition Put (env : environment) (key value : gostring) (c : Clerk) : go (Clerk * option error) :=
  '(c, (res, err)) ← retryRequest env PUT (wrap_u 32 (zlen key)) (key ++ value) c;
  match err with
  | Some e => mret (c, Some e)
  | None => res ← deref res; mret (c, reply_error (ErrId res))
  end.

(** [Append] looks at the result before the error. *)
Definition Append (env : environment) (key value : gostring) (c : Clerk) : go (Clerk * option error) :=
  '(c, (res, err)) ← retryRequest env APPEND (wrap_u 32 (zlen key)) (key ++ value) c;
  res ← deref res;
  match reply_error (ErrId res) with
  | Some e => mret (c, Some e)
  | None => mret (c, err)
  end.

(** ** Responses *)

(** The slice [data[4:]] that the unpacked body keeps. *)
Definition body_ref (data : bytes_ref) : bytes_ref :=
  match data with
  | Owned bs => Owned (drop 4 bs)
  | PutBuf lo hi => PutBuf (lo + 4) hi
  end.

(** [bytes] are the contents of the slice [data] at the call.  An error of
    the body is the only error returned; a send that waits blocks the loop. *)
Definition processResponse (incrId errId : Z) (data : bytes_ref) (bytes : list byte) (c : Clerk)
    : go (Clerk * option error) :=
  match BodyPack.Unpack bytes with
  | Panic => Panic
  | Err e => Ok (c, Some e)
  | Ok body =>
      let res := mkResult errId (BodyPack.KeyLen body) (body_ref data) in
      match responseCh c !! incrId with
      | None => Ok (c, None)
      | Some n =>
          ch ← deref (chans c !! n);
          ch ← chan_send res ch;
          ch ← chan_close ch;
          mret (set_channels (delete incrId (responseCh c)) (<[n := ch]> (chans c)) c, None)
      end
  end.

Definition headLen : Z := SerRespPack.GetHeadLen.

(** One iteration of the loop of [processGetBuffer] and [processPutBuffer],
    which differ in the slice [ref] they pass on.  [None] is the [return] of
    an incomplete message.  The concrete type is asserted before the error of
    [Unpack] is looked at, so an error there panics. *)
Definition process_one (ref : list byte -> Z -> bytes_ref) (buffer : list byte) (offset : Z) (c : Clerk)
    : go (option (list byte * Z * Clerk)) :=
  if offset <? headLen then Ok None
  else
    lenBytes ← slice buffer 4 8;
    let dataLen := le_get lenBytes in
    let total := wrap_u 32 (dataLen + headLen) in
    if wrap_u 32 offset <? total then Ok None
    else
      head ← slice_to buffer headLen;
      match SerRespPack.Unpack MaxPackageSize head with
      | Ok smsg =>
          data ← slice buffer headLen total;
          '(c, _) ← processResponse (ServerResponse.IncrId smsg) (ServerResponse.Err smsg)
                      (ref data total) data c;
          rest ← slice buffer total offset;
          mret (Some (copy buffer rest, offset - total, c))
      | _ => Panic
      end.

(** Every iteration removes the 28 bytes of a header at least, so [offset]
    iterations are enough. *)
Fixpoint process_loop (fuel : nat) (ref : list byte -> Z -> bytes_ref) (buffer : list byte) (offset : Z)
    (c : Clerk) : go (list byte * Z * Clerk) :=
  r ← process_one ref buffer offset c;
  match r, fuel with
  | None, _ => Ok (buffer, offset, c)
  | Some _, O => Err ErrBlocked
  | Some (buffer, offset, c), S fuel => process_loop fuel ref buffer offset c
  end.

(** The GET path copies the body, the PUT path keeps a window of the buffer. *)
Definition get_ref (data : list byte) (_ : Z) : bytes_ref := Owned data.
Definition put_ref (_ : list byte) (total : Z) : bytes_ref := PutBuf headLen total.

Definition processGetBuffer (c : Clerk) : go Clerk :=
  '(buffer, offset, c) ← process_loop (Z.to_nat (getOffset c)) get_ref (responseGetBuffer c) (getOffset c) c;
  mret (set_get offset buffer c).

Definition processPutBuffer (c : Clerk) : go Clerk :=
  '(buffer, offset, c) ← process_loop (Z.to_nat (putOffset c)) put_ref (responsePutBuffer c) (putOffset c) c;
  mret (set_put offset buffer c).

(** [conn.Read(buffer[offset:])] when the bytes [s] are on their way and the
    network delivers up to [S k] of them: the new buffer, the count, the rest.
    An empty window reads nothing; with nothing on its way the call waits. *)
Definition read_into (k : nat) (buffer : list byte) (offset : Z) (s : list byte)
    : go (option (list byte * Z * list byte)) :=
  window ← slice_from buffer offset;
  let n := Nat.min (S k) (length window) in
  match s with
  | [] => if bool_decide (window = []) then Ok (Some (buffer, 0, s)) else Ok None
  | _ => Ok (Some (take (Z.to_nat offset) buffer ++ copy window (take n s),
                   zlen (take n s), drop n s))
  end.

(** The body of the loop of [receiveGetResponse]; [None]: it waits. *)
Definition receiveGetResponse (k : nat) (s : list byte) (c : Clerk) : go (option (Clerk * list byte)) :=
  _ ← deref (default None (connections c !! GET));
  r ← read_into k (responseGetBuffer c) (getOffset c) s;
  match r with
  | None => Ok None
  | Some (buffer, n, s) => c ← processGetBuffer (set_get (getOffset c + n) buffer c); mret (Some (c, s))
  end.

Definition receivePutAppendResponse (k : nat) (s : list byte) (c : Clerk)
    : go (option (Clerk * list byte)) :=
  _ ← deref (default None (connections c !! PUT));
  r ← read_into k (responsePutBuffer c) (putOffset c) s;
  match r with
  | None => Ok None
  | Some (buffer, n, s) => c ← processPutBuffer (set_put (putOffset c + n) buffer c); mret (Some (c, s))
  end.

(** A receiving goroutine on a stream that the network cuts as [ks] says;
    it ends when killed, and this run of it when it waits. *)
Fixpoint receive_loop (recv : nat -> list byte -> Clerk -> go (option (Clerk * list byte)))
    (ks : list nat) (s : list byte) (c : Clerk) : go (Clerk * list byte) :=
  match ks with
  | [] => Ok (c, s)
  | k :: ks =>
      if killed c then Ok (c, s)
      else
        r ← recv k s c;
        match r with
        | None => Ok (c, s)
        | Some (c, s) => receive_loop recv ks s c
        end
  end.

End protocol.

End Client.
