(* ===== verification/ClientSpec.v ===== *)
(** * ClientSpec: what the clerk promises

    The reference for the receiving side is [deliver]: a response, whole,
    handed to the call that waits for it.  The buffer loops are shown to
    deliver the responses of a stream in order however the network cuts it;
    then a [Get] is followed from its request bytes to its value, and the
    error paths of the clerk are stated. *)

From S2P Require Import Prelude Binary Types Wire Client.

Module ClientSpec.
Import Common Client.

(** ** Frames *)

Definition frame_head (r : ServerResponse.t) : list byte :=
  le_put 4 (ServerResponse.OpId r) ++ le_put 4 (ServerResponse.DataLen r)
  ++ le_put 8 (ServerResponse.IncrId r) ++ le_put 4 (ServerResponse.ClerkId r)
  ++ le_put 4 (ServerResponse.ServerId r) ++ le_put 4 (ServerResponse.Err r).

Definition frame (r : ServerResponse.t) : list byte := frame_head r ++ ServerResponse.Data r.

Lemma frame_packed r : MsgProcess.RespToBinary r = Ok (frame r).
Proof. unfold MsgProcess.RespToBinary, SerRespPack.Pack, frame, frame_head. by rewrite <- !app_assoc. Qed.

Lemma mapM_frames rs : mapM MsgProcess.RespToBinary rs = Ok (map frame rs).
Proof.
  induction rs as [|r rs IH]; [done|].
  change (mapM MsgProcess.RespToBinary (r :: rs)) with
    (x ← MsgProcess.RespToBinary r; xs ← mapM MsgProcess.RespToBinary rs; mret (x :: xs)).
  by rewrite frame_packed, IH.
Qed.

Lemma length_frame_head r : length (frame_head r) = 28%nat.
Proof. unfold frame_head. by rewrite !length_app, !length_le_put. Qed.

Lemma zlen_frame r : zlen (frame r) = 28 + zlen (ServerResponse.Data r).
Proof. unfold frame. rewrite zlen_app. unfold zlen at 1. by rewrite length_frame_head. Qed.

(** The cut of a list into three parts. *)
Lemma slice_mid {A} (a b c : list A) : slice (a ++ b ++ c) (zlen a) (zlen a + zlen b) = Ok b.
Proof.
  apply slice_Ok. pose proof (zlen_nonneg a). pose proof (zlen_nonneg b). pose proof (zlen_nonneg c).
  rewrite !zlen_app. repeat split; [lia..|].
  replace (zlen a + zlen b - zlen a) with (zlen b) by lia. unfold zlen. rewrite !Nat2Z.id.
  by rewrite drop_app_length, take_app_length.
Qed.

Lemma slice_to_app {A} (a b : list A) : slice_to (a ++ b) (zlen a) = Ok a.
Proof.
  apply slice_to_Ok. pose proof (zlen_nonneg a). pose proof (zlen_nonneg b).
  rewrite zlen_app. split; [lia|]. unfold zlen. by rewrite Nat2Z.id, take_app_length.
Qed.

(** The length field of a header. *)
Lemma slice_data_len r tl :
  in_u 32 (ServerResponse.DataLen r) ->
  exists bs, slice (frame_head r ++ tl) 4 8 = Ok bs /\ le_get bs = ServerResponse.DataLen r.
Proof.
  intros H. exists (le_put 4 (ServerResponse.DataLen r)). split.
  - unfold frame_head. rewrite <- !app_assoc.
    pose proof (slice_mid (le_put 4 (ServerResponse.OpId r)) (le_put 4 (ServerResponse.DataLen r))
      (le_put 8 (ServerResponse.IncrId r) ++ le_put 4 (ServerResponse.ClerkId r)
       ++ le_put 4 (ServerResponse.ServerId r) ++ le_put 4 (ServerResponse.Err r) ++ tl)) as E.
    unfold zlen in E. rewrite !length_le_put in E. exact E.
  - rewrite le_get_put. by apply Z.mod_small.
Qed.

(** ** Channels of a running clerk *)

(** Every registered channel is open and empty, and has one owner. *)
Definition chans_wf (c : Clerk) : Prop :=
  (forall i n, responseCh c !! i = Some n -> chans c !! n = Some (mkChan None false))
  /\ (forall i j n, responseCh c !! i = Some n -> responseCh c !! j = Some n -> i = j).

(** The reference: response [r] reaches the call registered under its id. *)
Definition deliver (ref : list byte -> Z -> bytes_ref) (c : Clerk) (r : ServerResponse.t) : Clerk :=
  match BodyPack.Unpack (ServerResponse.Data r), responseCh c !! ServerResponse.IncrId r with
  | Ok body, Some n =>
      let res := mkResult (ServerResponse.Err r) (BodyPack.KeyLen body)
                   (body_ref (ref (ServerResponse.Data r) (zlen (frame r)))) in
      set_channels (delete (ServerResponse.IncrId r) (responseCh c))
                   (<[n := mkChan (Some res) true]> (chans c)) c
  | _, _ => c
  end.

Lemma Unpack_no_panic data : BodyPack.Unpack data <> Panic.
Proof.
  unfold BodyPack.Unpack. destruct (read_u 4 data) as [[x s]|e|] eqn:E; simpl; [|done|].
  - unfold read_u in E. apply bind_Ok in E as ([bs s'] & [-> Hl]%read_full_Ok & _).
    destruct (slice_from (bs ++ s') 4) as [| |] eqn:E2; simpl; [done..|].
    unfold slice_from in E2. rewrite zlen_app in E2. pose proof (zlen_nonneg s').
    unfold zlen at 1 in E2. rewrite Hl in E2. destruct (Z.ltb_spec (Z.of_nat 4 + zlen s') 4); [lia|done].
  - unfold read_u in E. destruct (read_full 4 data) as [[]| |] eqn:E2; try done.
    unfold read_full in E2. by case_match; [destruct data|].
Qed.

Lemma processResponse_deliver ref r c :
  chans_wf c ->
  exists e, processResponse (ServerResponse.IncrId r) (ServerResponse.Err r)
    (ref (ServerResponse.Data r) (zlen (frame r))) (ServerResponse.Data r) c = Ok (deliver ref c r, e).
Proof.
  intros [Hopen _]. unfold processResponse, deliver. pose proof (Unpack_no_panic (ServerResponse.Data r)).
  destruct (BodyPack.Unpack (ServerResponse.Data r)) as [body|e|]; [|by eexists|done].
  destruct (responseCh c !! ServerResponse.IncrId r) as [n|] eqn:En; [|by eexists].
  rewrite (Hopen _ _ En). simpl. by eexists.
Qed.

Lemma deliver_wf ref c r : chans_wf c -> chans_wf (deliver ref c r).
Proof.
  intros [Hopen Hinj]. unfold deliver.
  destruct (BodyPack.Unpack _) as [body| |]; [|done..].
  destruct (responseCh c !! ServerResponse.IncrId r) as [n|] eqn:En; [|done].
  split; simpl; [intros i m [Hi Hm]%lookup_delete_Some|intros i j m [_ Hi]%lookup_delete_Some [_ Hj]%lookup_delete_Some].
  - rewrite list_lookup_insert_ne; [by apply (Hopen i)|]. intros ->. by apply Hi, (Hinj _ _ m).
  - by apply (Hinj i j m).
Qed.

Definition deliver_all (ref : list byte -> Z -> bytes_ref) (rs : list ServerResponse.t) (c : Clerk) : Clerk :=
  fold_left (deliver ref) rs c.

Lemma deliver_all_wf ref rs c : chans_wf c -> chans_wf (deliver_all ref rs c).
Proof. revert c. induction rs as [|r rs IH]; intros c H; [done|]. by apply IH, deliver_wf. Qed.

(** [deliver] touches nothing but the channels. *)
Lemma deliver_frame ref c r :
  exists m l, deliver ref c r = set_channels m l c.
Proof.
  unfold deliver.
  destruct (BodyPack.Unpack (ServerResponse.Data r)), (responseCh c !! ServerResponse.IncrId r);
    try (exists (responseCh c), (chans c); by destruct c). by do 2 eexists.
Qed.

Lemma deliver_all_frame ref rs c : exists m l, deliver_all ref rs c = set_channels m l c.
Proof.
  revert c. induction rs as [|r rs IH]; intros c; simpl.
  - exists (responseCh c), (chans c). by destruct c.
  - destruct (deliver_frame ref c r) as (m & l & ->).
    destruct (IH (set_channels m l c)) as (m' & l' & ->). by exists m', l'.
Qed.

(** ** Reassembly *)

(** A response a buffer can hold and the size limit admits. *)
Definition resp_fits (max : Z) (r : ServerResponse.t) : Prop :=
  ServerResponse.head_wf r
  /\ ServerResponse.DataLen r = zlen (ServerResponse.Data r)
  /\ zlen (frame r) <= Z.of_nat buffer_size
  /\ (max <= 0 \/ ServerResponse.DataLen r <= max).

Definition stream (rs : list ServerResponse.t) : list byte := concat (map frame rs).

Section reassembly.
Context (max : Z) (ref : list byte -> Z -> bytes_ref).

Lemma zlen_frame_fits r : resp_fits max r -> 28 <= zlen (frame r) <= 2048.
Proof.
  intros (_ & _ & H & _). rewrite zlen_frame in *. pose proof (zlen_nonneg (ServerResponse.Data r)).
  unfold buffer_size in H. lia.
Qed.

Lemma total_fits r :
  resp_fits max r -> wrap_u 32 (ServerResponse.DataLen r + headLen) = zlen (frame r).
Proof.
  intros Hfit. pose proof (zlen_frame_fits r Hfit) as Hb. destruct Hfit as (_ & -> & _).
  rewrite zlen_frame in *. rewrite Z.add_comm. apply wrap_u_id. unfold in_u. change headLen with 28. lia.
Qed.

Lemma Unpack_head r :
  resp_fits max r -> SerRespPack.Unpack max (frame_head r) = Ok (ServerResponse.SetData [] r).
Proof.
  intros (Hwf & _ & _ & Hmax). destruct (read_full 28 (frame r)) as [s| |] eqn:E.
  - pose proof E as E2. unfold frame, frame_head in E2. rewrite <- !app_assoc in E2.
    apply (SerRespPack_Unpack_Pack max r) in E2 as (head & -> & Hu); [|done..].
    unfold frame in E. rewrite read_full_app in E by apply length_frame_head. by simplify_eq.
  - unfold frame in E. by rewrite read_full_app in E by apply length_frame_head.
  - unfold frame in E. by rewrite read_full_app in E by apply length_frame_head.
Qed.

(** A whole frame at the front of the buffer is delivered and removed. *)
Lemma process_one_frame r rest junk c :
  resp_fits max r -> chans_wf c -> zlen (frame r ++ rest) <= 2048 ->
  process_one max ref (frame r ++ rest ++ junk) (zlen (frame r ++ rest)) c
  = Ok (Some (copy (frame r ++ rest ++ junk) rest, zlen rest, deliver ref c r)).
Proof.
  intros Hfit Hc Hroom. pose proof (zlen_frame_fits r Hfit). pose proof (zlen_nonneg rest).
  rewrite zlen_app in *. remember (frame r ++ rest ++ junk) as B eqn:EB.
  assert (B = frame_head r ++ ServerResponse.Data r ++ rest ++ junk) as EB'
    by (subst B; unfold frame; by rewrite <- app_assoc).
  assert (zlen (frame_head r) = headLen) as Eh by (unfold zlen; by rewrite length_frame_head).
  assert (zlen (frame r) = zlen (frame_head r) + zlen (ServerResponse.Data r)) as Ef
    by (rewrite zlen_frame, Eh; done).
  unfold process_one. change headLen with 28.
  destruct (Z.ltb_spec (zlen (frame r) + zlen rest) 28); [lia|].
  destruct (slice_data_len r (ServerResponse.Data r ++ rest ++ junk)) as (bs & E & El); [apply Hfit|].
  rewrite <- EB' in E. rewrite E. go_step. rewrite El.
  change 28 with headLen. rewrite total_fits by done. rewrite wrap_u_id by (unfold in_u; lia).
  destruct (Z.ltb_spec (zlen (frame r) + zlen rest) (zlen (frame r))); [lia|].
  assert (slice_to B headLen = Ok (frame_head r)) as -> by (rewrite EB', <- Eh; apply slice_to_app).
  go_step. rewrite (Unpack_head r Hfit).
  assert (slice B headLen (zlen (frame r)) = Ok (ServerResponse.Data r)) as ->
    by (rewrite EB', Ef, <- Eh; apply slice_mid).
  go_step. destruct (processResponse_deliver ref r c Hc) as (e & Ep).
  change (ServerResponse.IncrId (ServerResponse.SetData [] r)) with (ServerResponse.IncrId r).
  change (ServerResponse.Err (ServerResponse.SetData [] r)) with (ServerResponse.Err r).
  rewrite Ep. go_step. rewrite EB, slice_mid. go_step.
  by replace (zlen (frame r) + zlen rest - zlen (frame r)) with (zlen rest) by lia.
Qed.

(** [copy] moves the rest to the front and keeps the length. *)
Lemma copy_front (B rest : list byte) :
  (length rest <= length B)%nat ->
  exists junk, copy B rest = rest ++ junk /\ length (rest ++ junk) = length B.
Proof.
  intros. unfold copy. rewrite take_ge by lia. eexists. split; [done|].
  rewrite length_app, length_drop. lia.
Qed.

(** A strict prefix of a frame stays where it is, whatever its size. *)
Lemma process_one_partial r pre q junk c :
  ServerResponse.DataLen r = zlen (ServerResponse.Data r) -> zlen (frame r) < 2 ^ 32 ->
  pre ++ q = frame r -> q <> [] ->
  process_one max ref (pre ++ junk) (zlen pre) c = Ok None.
Proof.
  intros Hlen Hf Hpre Hq. pose proof (zlen_nonneg pre). pose proof (zlen_nonneg (ServerResponse.Data r)).
  assert (zlen pre < zlen (frame r)) as Hlt.
  { rewrite <- Hpre, zlen_app. destruct q; [done|]. rewrite zlen_cons. pose proof (zlen_nonneg q). lia. }
  unfold process_one. change headLen with 28. destruct (Z.ltb_spec (zlen pre) 28); [done|].
  assert (exists mid, pre = frame_head r ++ mid) as (mid & ->).
  { exists (drop 28 pre). rewrite <- (take_drop 28 pre) at 1. f_equal.
    apply (f_equal (take 28)) in Hpre. rewrite take_app_le in Hpre by (unfold zlen in *; lia).
    rewrite Hpre. unfold frame. by rewrite take_app_le, take_ge by (rewrite length_frame_head; lia). }
  rewrite zlen_frame in *. rewrite <- app_assoc.
  destruct (slice_data_len r (mid ++ junk)) as (bs & E & El); [unfold in_u; lia|].
  rewrite E. go_step. rewrite El, Hlen, !wrap_u_id by (unfold in_u; lia).
  destruct (Z.ltb_spec (zlen (frame_head r ++ mid)) (zlen (ServerResponse.Data r) + 28)); [done|lia].
Qed.

(** Splitting a stream at the end of the buffered bytes. *)
Lemma stream_split pre s r rs :
  pre ++ s = stream (r :: rs) ->
  (exists rest, pre = frame r ++ rest /\ rest ++ s = stream rs)
  \/ (exists q, pre ++ q = frame r /\ q <> []).
Proof.
  unfold stream. simpl. intros E. apply app_eq_inv in E as [(k & E1 & E2)|(k & E1 & E2)].
  - left. by exists k.
  - destruct k as [|b k]; [left; exists []|right; by exists (b :: k)].
    rewrite app_nil_r in *. by subst.
Qed.

(** What a run of the loop leaves: whole frames delivered, the rest kept. *)
Lemma process_loop_stream rs fuel pre junk s c :
  Forall (resp_fits max) rs -> chans_wf c -> pre ++ s = stream rs ->
  zlen pre <= 2048 -> (length pre <= fuel)%nat ->
  exists rs1 rs2 pre' junk', rs = rs1 ++ rs2
    /\ process_loop max fuel ref (pre ++ junk) (zlen pre) c
      = Ok (pre' ++ junk', zlen pre', deliver_all ref rs1 c)
    /\ length (pre' ++ junk') = length (pre ++ junk) /\ pre' ++ s = stream rs2
    /\ zlen pre' < 2048 /\ (s = [] -> rs2 = [] /\ pre' = []).
Proof.
  revert rs pre junk c. induction fuel as [fuel IH] using lt_wf_ind. intros rs pre junk c Hfit Hc Hs Hb Hf.
  destruct rs as [|r rs].
  { unfold stream in Hs. simpl in Hs. apply app_nil in Hs as [-> ->].
    exists [], [], [], junk. repeat split; by destruct fuel. }
  apply Forall_cons in Hfit as Hfit'. destruct Hfit' as [Hr Hrs].
  pose proof (zlen_frame_fits r Hr) as Hlr.
  destruct (stream_split pre s r rs Hs) as [(rest & -> & Hrest)|(q & Hq & Hne)].
  - rewrite length_app in Hf. assert (length (frame r) = Z.to_nat (zlen (frame r))) as El by (unfold zlen; lia).
    pose proof (process_one_frame r rest junk c Hr Hc Hb) as E1.
    destruct (copy_front (frame r ++ rest ++ junk) rest) as (junk1 & Ec & Hl1); [rewrite !length_app; lia|].
    rewrite Ec in E1.
    destruct fuel as [|fuel]; [lia|].
    rewrite zlen_app in Hb. destruct (IH fuel ltac:(lia) rs rest junk1 (deliver ref c r)) as
      (rs1 & rs2 & pre' & junk' & -> & E & Hl & Hpre & Hlt & Hend); [done|by apply deliver_wf|done|lia..|].
    exists (r :: rs1), rs2, pre', junk'. rewrite <- app_assoc. simpl process_loop. rewrite E1. go_step.
    rewrite E. split_and!; [done..|by rewrite Hl, Hl1|done|done|done].
  - exists [], (r :: rs), pre, junk.
    assert (process_loop max fuel ref (pre ++ junk) (zlen pre) c = Ok (pre ++ junk, zlen pre, c)) as E.
    { destruct fuel; simpl; by rewrite (process_one_partial r pre q junk c) by (apply Hr || done || lia). }
    rewrite E. assert (zlen pre < zlen (frame r)).
    { rewrite <- Hq, zlen_app. destruct q; [done|]. rewrite zlen_cons. pose proof (zlen_nonneg q). lia. }
    split_and!; [done..|lia|]. intros ->. exfalso. rewrite app_nil_r in Hs. subst pre.
    unfold stream in *. simpl in *. rewrite zlen_app in *. pose proof (zlen_nonneg (concat (map frame rs))). lia.
Qed.

End reassembly.

(** ** The two receiving goroutines

    They run the same loop on different fields; [Side] lists the fields, and
    its laws say that they are independent of what [deliver] changes. *)

Class Side := {
  side_op : Z;
  side_ref : list byte -> Z -> bytes_ref;
  side_off : Clerk -> Z;
  side_buf : Clerk -> list byte;
  side_set : Z -> list byte -> Clerk -> Clerk;
  side_recv : Z -> nat -> list byte -> Clerk -> go (option (Clerk * list byte));
  side_off_set o b c : side_off (side_set o b c) = o;
  side_buf_set o b c : side_buf (side_set o b c) = b;
  side_set_set o b o' b' c : side_set o b (side_set o' b' c) = side_set o b c;
  side_set_id c : side_set (side_off c) (side_buf c) c = c;
  side_set_channels o b m l c :
    set_channels m l (side_set o b c) = side_set o b (set_channels m l c);
  side_responseCh o b c : responseCh (side_set o b c) = responseCh c;
  side_chans o b c : chans (side_set o b c) = chans c;
  side_dead o b c : dead (side_set o b c) = dead c;
  side_connections o b c : connections (side_set o b c) = connections c;
  side_maxRetryTime o b c : maxRetryTime (side_set o b c) = maxRetryTime c;
  side_outbox o b c : outbox (side_set o b c) = outbox c;
  side_off_channels m l c : side_off (set_channels m l c) = side_off c;
  side_buf_channels m l c : side_buf (set_channels m l c) = side_buf c;
  side_off_outbox x c : side_off (set_outbox x c) = side_off c;
  side_buf_outbox x c : side_buf (set_outbox x c) = side_buf c;
  side_recv_eq max k s c :
    side_recv max k s c =
    (_ ← deref (default None (connections c !! side_op));
     r ← read_into k (side_buf c) (side_off c) s;
     match r with
     | None => Ok None
     | Some (buffer, n, s) =>
         let c := side_set (side_off c + n) buffer c in
         '(buffer, offset, c) ← process_loop max (Z.to_nat (side_off c)) side_ref (side_buf c) (side_off c) c;
         mret (Some (side_set offset buffer c, s))
     end)
}.

Lemma process_bind (f : list byte -> Z -> Clerk -> Clerk) (s : list byte) (m : go (list byte * Z * Clerk)) :
  ('(b, o, c) ← m; mret (f b o c)) ≫= (fun c => mret (Some (c, s)))
  = ('(b, o, c) ← m; mret (Some (f b o c, s))) :> go (option (Clerk * list byte)).
Proof. by destruct m as [[[b o] c]| |]. Qed.

#[export] Program Instance GetSide : Side := {|
  side_op := GET; side_ref := get_ref; side_off := getOffset; side_buf := responseGetBuffer;
  side_set := set_get; side_recv := receiveGetResponse |}.
Solve Obligations with (intros; try by repeat match goal with c : Clerk |- _ => destruct c end).
Next Obligation.
  intros max k s c. unfold receiveGetResponse. destruct (deref _); simpl; [|done..].
  destruct (read_into _ _ _ _) as [[[[b n] s']|]| |]; simpl; [|done..].
  unfold processGetBuffer. simpl. apply (process_bind (fun b o c => set_get o b c)).
Qed.

#[export] Program Instance PutSide : Side := {|
  side_op := PUT; side_ref := put_ref; side_off := putOffset; side_buf := responsePutBuffer;
  side_set := set_put; side_recv := receivePutAppendResponse |}.
Solve Obligations with (intros; try by repeat match goal with c : Clerk |- _ => destruct c end).
Next Obligation.
  intros max k s c. unfold receivePutAppendResponse. destruct (deref _); simpl; [|done..].
  destruct (read_into _ _ _ _) as [[[[b n] s']|]| |]; simpl; [|done..].
  unfold processPutBuffer. simpl. apply (process_bind (fun b o c => set_put o b c)).
Qed.

(** Both connections exist, the clerk runs, the buffer has its size. *)
Definition side_ready `{Side} (c : Clerk) : Prop :=
  chans_wf c /\ killed c = false /\ (exists conn, connections c !! side_op = Some (Some conn))
  /\ length (side_buf c) = buffer_size.

Section sides.
Context `{Side} (max : Z).

Lemma chans_wf_set o b c : chans_wf (side_set o b c) <-> chans_wf c.
Proof. unfold chans_wf. by rewrite side_responseCh, side_chans. Qed.

Lemma deliver_set ref o b c r : deliver ref (side_set o b c) r = side_set o b (deliver ref c r).
Proof.
  unfold deliver. rewrite side_responseCh, side_chans.
  destruct (BodyPack.Unpack _); [|done..]. destruct (responseCh c !! _); [|done]. apply side_set_channels.
Qed.

Lemma deliver_all_set ref o b rs c :
  deliver_all ref rs (side_set o b c) = side_set o b (deliver_all ref rs c).
Proof. revert c. induction rs as [|r rs IH]; intros c; [done|]. simpl. by rewrite deliver_set, IH. Qed.

(** A [Read] puts at least one byte behind the buffered ones. *)
Lemma read_into_chunk k pre junk s :
  s <> [] -> length (pre ++ junk) = buffer_size -> zlen pre < 2048 ->
  exists chunk rest junk', s = chunk ++ rest /\ chunk <> []
    /\ read_into k (pre ++ junk) (zlen pre) s = Ok (Some ((pre ++ chunk) ++ junk', zlen chunk, rest))
    /\ length ((pre ++ chunk) ++ junk') = buffer_size.
Proof.
  intros Hs Hlen Hpre. rewrite length_app in Hlen. unfold read_into.
  assert (slice_from (pre ++ junk) (zlen pre) = Ok junk) as ->.
  { apply slice_from_Ok. rewrite zlen_app. pose proof (zlen_nonneg pre). pose proof (zlen_nonneg junk).
    split; [lia|]. unfold zlen. by rewrite Nat2Z.id, drop_app_length. }
  go_step. unfold zlen in Hpre. unfold buffer_size in *.
  set (n := Nat.min (S k) (length junk)). assert (0 < n <= length junk)%nat by lia.
  exists (take n s), (drop n s), (drop (length (take n s)) junk).
  assert (Z.to_nat (zlen pre) = length pre) as Ep by (unfold zlen; lia).
  destruct s as [|b s]; [done|]. rewrite Ep, take_app_length. split_and!.
  - by rewrite take_drop.
  - destruct n; [lia|done].
  - unfold copy. rewrite (take_ge (take n (b :: s))) by (rewrite length_take; lia). by rewrite app_assoc.
  - rewrite !length_app, length_drop, !length_take. lia.
Qed.

(** The buffer holds the bytes [pre]. *)
Definition buffered (pre : list byte) (c : Clerk) : Prop :=
  exists junk, side_buf c = pre ++ junk /\ side_off c = zlen pre /\ zlen pre < 2048.

(** Delivering and moving the buffer keep the clerk ready. *)
Lemma side_ready_deliver rs o b c :
  side_ready c -> length b = buffer_size -> side_ready (side_set o b (deliver_all side_ref rs c)).
Proof.
  intros (Hwf & Hk & (conn & Hconn) & _) Hb. destruct (deliver_all_frame side_ref rs c) as (m & l & Ed).
  split_and!; [by apply chans_wf_set, deliver_all_wf| | |by rewrite side_buf_set].
  - unfold killed in *. by rewrite side_dead, Ed.
  - exists conn. by rewrite side_connections, Ed.
Qed.

(** One iteration delivers the frames completed by the chunk it reads. *)
Lemma side_recv_step k pre s rs c :
  side_ready c -> buffered pre c -> s <> [] -> pre ++ s = stream rs -> Forall (resp_fits max) rs ->
  exists rs1 rs2 pre' buf rest, rs = rs1 ++ rs2 /\ (length rest < length s)%nat
    /\ side_recv max k s c = Ok (Some (side_set (zlen pre') buf (deliver_all side_ref rs1 c), rest))
    /\ length buf = buffer_size /\ buffered pre' (side_set (zlen pre') buf (deliver_all side_ref rs1 c))
    /\ pre' ++ rest = stream rs2 /\ (rest = [] -> rs2 = []).
Proof.
  intros (Hwf & Hk & (conn & Hconn) & Hbl) (junk & Hb & Ho & Hp) Hne Hs Hfit. rewrite Hb in Hbl.
  destruct (read_into_chunk k pre junk s Hne Hbl Hp) as (chunk & rest & junk1 & -> & Hch & E & Hl).
  rewrite side_recv_eq, Hconn, Hb, Ho. simpl (deref _). go_step. rewrite E. go_step. cbv zeta.
  rewrite side_off_set, side_buf_set, <- zlen_app.
  destruct (process_loop_stream max side_ref rs (Z.to_nat (zlen (pre ++ chunk))) (pre ++ chunk) junk1 rest
    (side_set (zlen (pre ++ chunk)) ((pre ++ chunk) ++ junk1) c)) as
    (rs1 & rs2 & pre' & junk' & -> & Ep & Hl' & Hs' & Hp' & Hend').
  - done.
  - by apply chans_wf_set.
  - by rewrite <- app_assoc.
  - unfold zlen. rewrite length_app in Hl. unfold buffer_size in Hl. lia.
  - unfold zlen. lia.
  - exists rs1, rs2, pre', (pre' ++ junk'), rest. rewrite Ep. go_step.
    rewrite deliver_all_set, side_set_set. split_and!; [done| |done|by rewrite Hl'| |done|by intros [? _]%Hend'].
    + rewrite length_app. destruct chunk; [done|simpl; lia].
    + exists junk'. by rewrite side_buf_set, side_off_set.
Qed.

(** With nothing buffered and nothing on its way the goroutine waits. *)
Lemma side_recv_idle k c : side_ready c -> buffered [] c -> side_recv max k [] c = Ok None.
Proof.
  intros (_ & _ & (conn & Hconn) & Hbl) (junk & Hb & Ho & _).
  rewrite side_recv_eq, Hconn, Hb, Ho. simpl (deref _). go_step. unfold read_into. simpl app.
  change (zlen []) with 0.
  assert (slice_from junk 0 = Ok junk) as -> by (apply slice_from_Ok; pose proof (zlen_nonneg junk); done).
  go_step. rewrite bool_decide_false; [done|]. intros ->. rewrite Hb in Hbl. done.
Qed.

Lemma receive_stream_pre ks pre s rs c :
  side_ready c -> buffered pre c -> pre ++ s = stream rs -> (s = [] -> rs = []) ->
  Forall (resp_fits max) rs -> (length s <= length ks)%nat ->
  exists buf, length buf = buffer_size
    /\ receive_loop (side_recv max) ks s c = Ok (side_set 0 buf (deliver_all side_ref rs c), []).
Proof.
  revert pre s rs c. induction ks as [|k ks IH]; intros pre s rs c Hr Hb Hs Hend Hfit Hlen.
  all: destruct (decide (s = [])) as [->|Hne].
  1,3: rewrite app_nil_r in Hs; rewrite Hend in * by done; unfold stream in Hs; simpl in Hs; subst pre;
    exists (side_buf c); split; [apply Hr|];
    pose proof Hb as (junk & _ & Ho & _); change 0 with (@zlen byte []); rewrite <- Ho; simpl deliver_all;
    rewrite side_set_id.
  - done.
  - simpl. pose proof Hr as (_ & -> & _). by rewrite side_recv_idle.
  - destruct s; [done|simpl in Hlen; lia].
  - destruct (side_recv_step k pre s rs c Hr Hb Hne Hs Hfit)
      as (rs1 & rs2 & pre' & buf & rest & -> & Hlt & E & Hbuf & Hb' & Hs' & Hend').
    simpl. pose proof Hr as (_ & -> & _). rewrite E. go_step.
    destruct (IH pre' rest rs2 (side_set (zlen pre') buf (deliver_all side_ref rs1 c))) as (buf' & Hl & Er).
    + by apply side_ready_deliver.
    + done.
    + done.
    + done.
    + by apply Forall_app in Hfit as [_ ?].
    + simpl in Hlen. lia.
    + exists buf'. split; [done|]. rewrite Er, deliver_all_set, side_set_set.
      unfold deliver_all. by rewrite fold_left_app.
Qed.

(** *** Arbitrary bytes *)

(** What holds of a clerk that is not stopped, whatever it received. *)
Definition side_wf (c : Clerk) : Prop :=
  chans_wf c /\ length (side_buf c) = buffer_size /\ 0 <= side_off c <= Z.of_nat buffer_size.

Lemma processResponse_wf i e data bytes c :
  chans_wf c ->
  exists c' err m l, processResponse i e data bytes c = Ok (c', err) /\ chans_wf c' /\ c' = set_channels m l c.
Proof.
  intros Hc. set (r := ServerResponse.mk 0 0 i 0 0 e bytes).
  destruct (processResponse_deliver (fun _ _ => data) r c Hc) as (err & E).
  destruct (deliver_frame (fun _ _ => data) c r) as (m & l & Ed).
  exists (deliver (fun _ _ => data) c r), err, m, l. split_and!; [done|by apply deliver_wf|done].
Qed.

(** One iteration removes a message that lies within the buffer, or panics. *)
Lemma process_one_bounds ref buffer offset c :
  chans_wf c -> length buffer = buffer_size -> 0 <= offset <= Z.of_nat buffer_size ->
  match process_one max ref buffer offset c with
  | Ok (Some (b, o, c')) => length b = buffer_size /\ 0 <= o < offset /\ chans_wf c'
      /\ exists m l, c' = set_channels m l c
  | Err _ => False
  | _ => True
  end.
Proof.
  intros Hc Hb Ho. unfold process_one. change headLen with 28.
  assert (zlen buffer = 2048) as Hz by (unfold zlen; by rewrite Hb).
  destruct (Z.ltb_spec offset 28); [done|].
  destruct (slice buffer 4 8) as [bs|e|] eqn:E1; simpl; [|by unfold slice in E1; case_match|done].
  set (total := wrap_u 32 (le_get bs + 28)). unfold buffer_size in Ho.
  rewrite (wrap_u_id 32 offset) by (unfold in_u; lia). destruct (Z.ltb_spec offset total); [done|].
  destruct (slice_to buffer 28) as [h|e|] eqn:E2; simpl; [|by unfold slice_to in E2; case_match|done].
  destruct (SerRespPack.Unpack max h) as [smsg|e|]; [|done..].
  destruct (slice buffer 28 total) as [d|e|] eqn:E3; simpl; [|by unfold slice in E3; case_match|done].
  apply slice_Ok in E3 as (? & ? & _).
  destruct (processResponse_wf (ServerResponse.IncrId smsg) (ServerResponse.Err smsg) (ref d total) d c Hc)
    as (c' & err & m & l & -> & Hc' & Ec'). simpl.
  destruct (slice buffer total offset) as [rest|e|] eqn:E4; simpl; [|by unfold slice in E4; case_match|done].
  rewrite length_copy. split_and!; [done|lia..|done|by exists m, l].
Qed.

Lemma process_loop_bounds ref fuel buffer offset c :
  chans_wf c -> length buffer = buffer_size -> 0 <= offset <= Z.of_nat buffer_size ->
  (Z.to_nat offset <= fuel)%nat ->
  match process_loop max fuel ref buffer offset c with
  | Ok (b, o, c') => length b = buffer_size /\ 0 <= o <= offset /\ chans_wf c'
      /\ exists m l, c' = set_channels m l c
  | Err _ => False
  | Panic => True
  end.
Proof.
  revert buffer offset c. induction fuel as [|fuel IH]; intros buffer offset c Hc Hb Ho Hf; simpl;
    pose proof (process_one_bounds ref buffer offset c Hc Hb Ho) as H1;
    destruct (process_one max ref buffer offset c) as [[[[b o] c']|]|e|]; simpl; try done;
    try (split_and!; [done|lia..|done|exists (responseCh c), (chans c); by destruct c]).
  - destruct H1 as (_ & ? & _). lia.
  - destruct H1 as (Hb1 & Ho1 & Hc1 & m & l & ->).
    pose proof (IH b o (set_channels m l c) Hc1 Hb1 ltac:(lia) ltac:(lia)) as H2.
    destruct (process_loop max fuel ref b o (set_channels m l c)) as [[[b2 o2] c2]|e|]; [|done..].
    destruct H2 as (? & ? & ? & m2 & l2 & ->). split_and!; [done|lia..|done|by exists m2, l2].
Qed.

(** A [Read] never writes past the buffer. *)
Lemma read_into_bounds k buffer offset s :
  length buffer = buffer_size -> 0 <= offset <= Z.of_nat buffer_size ->
  match read_into k buffer offset s with
  | Ok (Some (b, n, rest)) => length b = buffer_size /\ 0 <= n /\ offset + n <= Z.of_nat buffer_size
      /\ exists chunk, s = chunk ++ rest
  | Ok None => True
  | _ => False
  end.
Proof.
  intros Hb Ho. unfold read_into. assert (zlen buffer = 2048) as Hz by (unfold zlen; by rewrite Hb).
  unfold buffer_size in *.
  destruct (slice_from buffer offset) as [win|e|] eqn:E; go_step.
  2,3: unfold slice_from in E; case_match eqn:E2; try done; destruct (Z.ltb_spec offset 0), (Z.ltb_spec (zlen buffer) offset);
    simpl in E2; (done || lia).
  apply slice_from_Ok in E as [_ ->].
  destruct s as [|x s]; [case_bool_decide; [|done]; split_and!; [done|lia..|by exists []]|].
  set (n := Nat.min (S k) (length (drop (Z.to_nat offset) buffer))).
  assert (n <= length (drop (Z.to_nat offset) buffer))%nat as Hn by lia. rewrite length_drop in Hn.
  split_and!.
  - rewrite length_app, length_take, length_copy, length_drop. lia.
  - apply zlen_nonneg.
  - unfold zlen. rewrite length_take. lia.
  - exists (take n (x :: s)). by rewrite take_drop.
Qed.

Lemma side_recv_bounds k s c :
  side_wf c ->
  match side_recv max k s c with
  | Ok (Some (c', s')) => side_wf c' /\ exists chunk, s = chunk ++ s'
  | Err _ => False
  | _ => True
  end.
Proof.
  intros (Hc & Hb & Ho). rewrite side_recv_eq. destruct (default None (connections c !! side_op)); simpl; [|done].
  pose proof (read_into_bounds k (side_buf c) (side_off c) s Hb Ho) as Hr.
  destruct (read_into k (side_buf c) (side_off c) s) as [[[[b n] rest]|]|e|]; simpl; [|done..].
  destruct Hr as (Hb1 & Hn & Hm & chunk & ->). rewrite side_off_set, side_buf_set.
  assert (chans_wf (side_set (side_off c + n) b c)) as Hc1 by by apply chans_wf_set.
  assert (0 <= side_off c + n <= Z.of_nat buffer_size) as Hn1 by lia.
  pose proof (process_loop_bounds side_ref (Z.to_nat (side_off c + n)) b (side_off c + n) _ Hc1 Hb1
    Hn1 (le_n _)) as Hp.
  destruct (process_loop max _ _ _ _ _) as [[[b2 o2] c2]|e|]; simpl; [|done..].
  destruct Hp as (? & ? & ? & _). split; [|by exists chunk].
  split_and!; [by apply chans_wf_set|by rewrite side_buf_set|rewrite side_off_set; lia..].
Qed.

Lemma receive_loop_bounds ks s c :
  side_wf c ->
  match receive_loop (side_recv max) ks s c with
  | Ok (c', s') => side_wf c' /\ exists read, s = read ++ s'
  | Err _ => False
  | Panic => True
  end.
Proof.
  revert s c. induction ks as [|k ks IH]; intros s c Hc; simpl; [split; [done|by exists []]|].
  destruct (killed c); [split; [done|by exists []]|].
  pose proof (side_recv_bounds k s c Hc) as H1.
  destruct (side_recv max k s c) as [[[c1 s1]|]|e|]; simpl; try done; [|split; [done|by exists []]].
  destruct H1 as [Hc1 (chunk & ->)]. specialize (IH s1 c1 Hc1).
  destruct (receive_loop (side_recv max) ks s1 c1) as [[c2 s2]|e|]; [|done..].
  destruct IH as [? (read & ->)]. split; [done|]. exists (chunk ++ read). by rewrite app_assoc.
Qed.

(** *** A response the buffer cannot hold *)

Lemma read_into_full k buffer s :
  length buffer = buffer_size ->
  read_into k buffer (Z.of_nat buffer_size) s = Ok (Some (buffer, 0, s)).
Proof.
  intros Hb. unfold read_into.
  assert (slice_from buffer (Z.of_nat buffer_size) = Ok []) as ->.
  { apply slice_from_Ok. unfold zlen. rewrite Hb, Nat2Z.id, drop_ge by lia. split; [unfold buffer_size; lia|done]. }
  go_step. destruct s as [|x s]; [done|].
  simpl length. rewrite Nat.min_0_r. simpl take. rewrite Nat2Z.id, <- Hb, take_ge by done.
  unfold copy. simpl. by rewrite app_nil_r.
Qed.

(** Any [Read]: it waits, or puts the next bytes behind the buffered ones. *)
Lemma read_into_any k pre junk s :
  length (pre ++ junk) = buffer_size ->
  read_into k (pre ++ junk) (zlen pre) s = Ok None \/
  exists chunk rest junk', s = chunk ++ rest /\ length ((pre ++ chunk) ++ junk') = buffer_size
    /\ read_into k (pre ++ junk) (zlen pre) s = Ok (Some ((pre ++ chunk) ++ junk', zlen chunk, rest)).
Proof.
  intros Hl. destruct (decide (zlen pre = Z.of_nat buffer_size)) as [E|E].
  { right. exists [], s, junk. rewrite app_nil_r, E, read_into_full by done. by change (zlen []) with 0. }
  destruct (decide (s = [])) as [->|Hne].
  - left. unfold read_into.
    assert (slice_from (pre ++ junk) (zlen pre) = Ok junk) as ->.
    { apply slice_from_Ok. rewrite zlen_app. pose proof (zlen_nonneg pre). pose proof (zlen_nonneg junk).
      split; [lia|]. unfold zlen. by rewrite Nat2Z.id, drop_app_length. }
    go_step. rewrite bool_decide_false; [done|]. intros ->. apply E. rewrite app_nil_r in Hl.
    unfold zlen. by rewrite Hl.
  - right. destruct (read_into_chunk k pre junk s Hne Hl) as (chunk & rest & junk1 & -> & _ & E2 & Hl2).
    { rewrite length_app in Hl. unfold zlen, buffer_size in *. lia. }
    by exists chunk, rest, junk1.
Qed.

(** The bytes a full buffer can hold are a strict prefix of a larger frame. *)
Lemma prefix_of_oversized (pre s fr tl : list byte) :
  pre ++ s = fr ++ tl -> zlen pre < zlen fr -> exists q, pre ++ q = fr /\ q <> [].
Proof.
  intros [(x & E1 & E2)|(x & E1 & E2)]%app_eq_inv Hlt.
  - exfalso. rewrite E1, zlen_app in Hlt. pose proof (zlen_nonneg x). lia.
  - exists x. split; [done|]. intros ->. rewrite app_nil_r in E1. rewrite E1 in Hlt. lia.
Qed.

Lemma process_loop_partial r fuel pre q junk c :
  ServerResponse.DataLen r = zlen (ServerResponse.Data r) -> zlen (frame r) < 2 ^ 32 ->
  pre ++ q = frame r -> q <> [] ->
  process_loop max fuel side_ref (pre ++ junk) (zlen pre) c = Ok (pre ++ junk, zlen pre, c).
Proof. intros. destruct fuel; simpl; by rewrite (process_one_partial max side_ref r pre q junk) by done. Qed.

(** The buffered bytes stay a strict prefix of the frame: nothing is delivered. *)
Lemma oversized_stuck r tl ks pre junk s c :
  ServerResponse.DataLen r = zlen (ServerResponse.Data r) ->
  Z.of_nat buffer_size < zlen (frame r) < 2 ^ 32 ->
  (exists conn, connections c !! side_op = Some (Some conn)) ->
  side_buf c = pre ++ junk -> side_off c = zlen pre -> length (pre ++ junk) = buffer_size ->
  pre ++ s = frame r ++ tl ->
  exists o b s', receive_loop (side_recv max) ks s c = Ok (side_set o b c, s')
    /\ length (pre ++ s) = (Z.to_nat o + length s')%nat /\ 0 <= o <= Z.of_nat buffer_size.
Proof.
  intros Hdl Hbig Hconn. revert pre junk s c Hconn.
  induction ks as [|k ks IH]; intros pre junk s c (conn & Hconn) Hb Ho Hl Hs.
  all: assert (receive_loop (side_recv max) [] s c = Ok (side_set (side_off c) (side_buf c) c, s)
         /\ length (pre ++ s) = (Z.to_nat (side_off c) + length s)%nat
         /\ 0 <= side_off c <= Z.of_nat buffer_size) as (Hnow & Hcount & Hrange)
    by (rewrite side_set_id, Ho, !length_app in *; unfold zlen; split_and!; (done || lia)).
  { by exists (side_off c), (side_buf c), s. }
  simpl. destruct (killed c); [by exists (side_off c), (side_buf c), s|].
  rewrite side_recv_eq, Hconn. simpl (deref _). go_step. rewrite Hb, Ho.
  destruct (read_into_any k pre junk s Hl) as [->|(chunk & rest & junk1 & -> & Hl1 & ->)]; go_step.
  { rewrite Hb, Ho in *. by exists (zlen pre), (pre ++ junk), s. }
  cbv zeta. rewrite side_off_set, side_buf_set, <- zlen_app.
  destruct (prefix_of_oversized (pre ++ chunk) rest (frame r) tl) as (q & Hq & Hqne).
  { by rewrite <- app_assoc. }
  { rewrite length_app in Hl1. unfold zlen at 1. lia. }
  rewrite (process_loop_partial r _ (pre ++ chunk) q) by (done || lia). go_step. rewrite side_set_set.
  destruct (IH (pre ++ chunk) junk1 rest (side_set (zlen (pre ++ chunk)) ((pre ++ chunk) ++ junk1) c))
    as (o & b & s' & E & Hc & Hr).
  - exists conn. by rewrite side_connections.
  - apply side_buf_set.
  - apply side_off_set.
  - done.
  - by rewrite <- app_assoc.
  - exists o, b, s'. rewrite E, side_set_set. split_and!; [done|by rewrite app_assoc|lia..].
Qed.

End sides.

(** A length field near the end of [uint32] wraps to a length below 28. *)
Lemma process_one_wrapped max ref r tl offset c :
  in_u 32 (ServerResponse.DataLen r) -> 2 ^ 32 - headLen <= ServerResponse.DataLen r ->
  length (frame_head r ++ tl) = buffer_size -> headLen <= offset <= Z.of_nat buffer_size ->
  process_one max ref (frame_head r ++ tl) offset c = Panic.
Proof.
  intros Hr Hbig Hl Ho. unfold process_one. change headLen with 28 in *.
  destruct (Z.ltb_spec offset 28); [lia|].
  destruct (slice_data_len r tl Hr) as (bs & -> & El). go_step. rewrite El.
  unfold buffer_size in *. rewrite (wrap_u_id 32 offset) by (unfold in_u; lia).
  assert (wrap_u 32 (ServerResponse.DataLen r + 28) = ServerResponse.DataLen r + 28 - 2 ^ 32) as ->.
  { unfold wrap_u, in_u in *. rewrite <- (Z_mod_plus_full _ (-1)). apply Z.mod_small. lia. }
  unfold in_u in Hr. destruct (Z.ltb_spec offset (ServerResponse.DataLen r + 28 - 2 ^ 32)); [lia|].
  assert (slice_to (frame_head r ++ tl) 28 = Ok (frame_head r)) as ->.
  { pose proof (slice_to_app (frame_head r) tl) as E. unfold zlen in E. by rewrite length_frame_head in E. }
  go_step. destruct (SerRespPack.Unpack max (frame_head r)); [|done..].
  assert (slice (frame_head r ++ tl) 28 (ServerResponse.DataLen r + 28 - 2 ^ 32) = Panic) as ->; [|done].
  unfold slice. destruct (Z.ltb_spec (ServerResponse.DataLen r + 28 - 2 ^ 32) 28); [done|lia].
Qed.

(** ** Properties *)

(** C15. However the network cuts the bytes of a sequence of packed responses,
    the receiving goroutine of either connection reads all of them, delivers
    exactly these responses, in order, to the calls registered under their ids,
    and is left with an empty buffer: the result is that of delivering whole
    responses.  Conditions: every response, head included, fits the 2048 bytes of
    the buffer and the configured size limit ([resp_fits]; a larger one stops the
    goroutine for ever, see [oversized_response_blocks]), the clerk is connected
    and not stopped, and the buffer is empty at the start. *)
Theorem responses_reassembled max ks rs packets c :
  mapM MsgProcess.RespToBinary rs = Ok packets -> Forall (resp_fits max) rs ->
  (length (concat packets) <= length ks)%nat ->
  (@side_ready GetSide c -> getOffset c = 0 ->
   exists buf, length buf = buffer_size
     /\ receive_loop (receiveGetResponse max) ks (concat packets) c
       = Ok (set_get 0 buf (deliver_all get_ref rs c), []))
  /\ (@side_ready PutSide c -> putOffset c = 0 ->
   exists buf, length buf = buffer_size
     /\ receive_loop (receivePutAppendResponse max) ks (concat packets) c
       = Ok (set_put 0 buf (deliver_all put_ref rs c), [])).
Proof.
  intros Hp Hfit Hks. rewrite mapM_frames in Hp. injection Hp as <-.
  split; intros Hr Ho;
    [apply (@receive_stream_pre GetSide max ks [] _ rs c)|apply (@receive_stream_pre PutSide max ks [] _ rs c)];
    try done; try (by eexists);
    intros E; destruct rs as [|r rs]; try done; exfalso; unfold stream in E; simpl in E;
    apply app_nil in E as [E _]; apply (f_equal length) in E; unfold frame in E;
    rewrite length_app, length_frame_head in E; done.
Qed.

Definition sample_clerk : Clerk :=
  mkClerk 101 {[GET := Some 1; PUT := Some 2; APPEND := Some 2]} 1 0 0
    (replicate buffer_size Byte.x00) (replicate buffer_size Byte.x00) {[9 := 0%nat]} 0
    [mkChan None false] [] [].

Definition sample_response : ServerResponse.t :=
  ServerResponse.mk GET 6 9 101 4 (ErrMap OK) [x01; x00; x00; x00; x61; x62].

Lemma sample_chans_wf : chans_wf sample_clerk.
Proof.
  assert (responseCh sample_clerk = {[9 := 0%nat]}) as E by done. unfold chans_wf. rewrite E. split.
  - intros i n [<- <-]%lookup_singleton_Some. done.
  - intros i j n [<- _]%lookup_singleton_Some [<- _]%lookup_singleton_Some. done.
Qed.

Lemma sample_response_fits : resp_fits 0 sample_response.
Proof. split_and!; [vm_compute; intuition congruence|done|by vm_compute|left; lia]. Qed.

Lemma responses_reassembled_witness :
  exists packets, mapM MsgProcess.RespToBinary [sample_response] = Ok packets
  /\ exists buf, receive_loop (receiveGetResponse 0) (replicate 34 0%nat) (concat packets) sample_clerk
     = Ok (set_get 0 buf (deliver_all get_ref [sample_response] sample_clerk), []).
Proof.
  eexists. split; [reflexivity|].
  destruct (responses_reassembled 0 (replicate 34 0%nat) [sample_response] _ sample_clerk eq_refl) as [H _].
  - by repeat constructor; apply sample_response_fits.
  - vm_compute. lia.
  - destruct H as (buf & _ & E); [|done|by exists buf].
    split_and!; [apply sample_chans_wf|done|by exists 1|by vm_compute].
Defined.

(** C37. Whatever bytes arrive and however they are cut, a receiving goroutine
    that does not panic keeps its offset within the buffer and the buffer at
    its size, keeps the registered channels open and empty, never waits for a
    channel, and consumes a prefix of the stream. *)
Theorem receive_stays_in_bounds max ks s c :
  (@side_wf GetSide c ->
   match receive_loop (receiveGetResponse max) ks s c with
   | Ok (c', s') => chans_wf c' /\ length (responseGetBuffer c') = buffer_size
       /\ 0 <= getOffset c' <= Z.of_nat buffer_size /\ exists read, s = read ++ s'
   | Err _ => False
   | Panic => True
   end)
  /\ (@side_wf PutSide c ->
   match receive_loop (receivePutAppendResponse max) ks s c with
   | Ok (c', s') => chans_wf c' /\ length (responsePutBuffer c') = buffer_size
       /\ 0 <= putOffset c' <= Z.of_nat buffer_size /\ exists read, s = read ++ s'
   | Err _ => False
   | Panic => True
   end).
Proof.
  split; intros Hwf;
    [pose proof (@receive_loop_bounds GetSide max ks s c Hwf) as H
    |pose proof (@receive_loop_bounds PutSide max ks s c Hwf) as H].
  - change (side_recv (Side := GetSide) max) with (receiveGetResponse max) in H.
    destruct (receive_loop _ _ _ _) as [[c' s']| |]; [|done..]. destruct H as [(? & ? & ?) ?]. done.
  - change (side_recv (Side := PutSide) max) with (receivePutAppendResponse max) in H.
    destruct (receive_loop _ _ _ _) as [[c' s']| |]; [|done..]. destruct H as [(? & ? & ?) ?]. done.
Qed.

Lemma receive_stays_in_bounds_witness :
  match receive_loop (receiveGetResponse 0) [5%nat; 7%nat] (replicate 40 Byte.x01) sample_clerk with
  | Ok (c', s') => chans_wf c' /\ length (responseGetBuffer c') = buffer_size
      /\ 0 <= getOffset c' <= Z.of_nat buffer_size /\ exists read, replicate 40 Byte.x01 = read ++ s'
  | Err _ => False
  | Panic => True
  end.
Proof.
  apply (proj1 (receive_stays_in_bounds 0 [5%nat; 7%nat] (replicate 40 Byte.x01) sample_clerk)).
  split_and!; [apply sample_chans_wf|by vm_compute|vm_compute; intuition congruence..].
Defined.

(** A response larger than the 2048-byte buffer blocks its connection: no
    run of the GET goroutine changes a channel, at most 2048 bytes are ever
    taken from the stream, and everything behind it stays unread. *)
Theorem oversized_response_blocks max r tl ks c :
  ServerResponse.DataLen r = zlen (ServerResponse.Data r) ->
  Z.of_nat buffer_size < zlen (frame r) < 2 ^ 32 ->
  @side_ready GetSide c -> getOffset c = 0 ->
  exists o b s', receive_loop (receiveGetResponse max) ks (frame r ++ tl) c = Ok (set_get o b c, s')
    /\ length (frame r ++ tl) = (Z.to_nat o + length s')%nat /\ 0 <= o <= Z.of_nat buffer_size.
Proof.
  intros Hdl Hbig (_ & _ & Hconn & Hl) Ho.
  destruct (@oversized_stuck GetSide max r tl ks [] (responseGetBuffer c) (frame r ++ tl) c)
    as (o & b & s' & E & Hc & Hr); try done.
  by exists o, b, s'.
Qed.

(** A corrupt length field of [2^32 - 28] or more crashes the client: the sum
    with the header length wraps, the completeness test passes, and the body
    slice has its end before its start. *)
Theorem wrapped_length_panics max r tl c :
  in_u 32 (ServerResponse.DataLen r) -> 2 ^ 32 - headLen <= ServerResponse.DataLen r ->
  responseGetBuffer c = frame_head r ++ tl -> length (responseGetBuffer c) = buffer_size ->
  headLen <= getOffset c <= Z.of_nat buffer_size ->
  processGetBuffer max c = Panic.
Proof.
  intros Hr Hbig Hb Hl Ho. unfold processGetBuffer. rewrite Hb in *.
  assert (exists n, Z.to_nat (getOffset c) = S n) as [n ->].
  { change headLen with 28 in Ho. exists (Nat.pred (Z.to_nat (getOffset c))). lia. }
  simpl. by rewrite process_one_wrapped.
Qed.

End ClientSpec.
