(* ===== verification/ClientCalls.v ===== *)
(** * ClientCalls: the clerk's operations from call to result

    [Get], [Put] and [Append] against a server that answers on the wire, the
    paths on which a call fails, and the connections [MakeClerk] sets up. *)

From S2P Require Import Prelude Binary Types Wire Client ClientSpec.

Module ClientCalls.
Import Common Client ClientSpec.

(** ** Requests *)

(** The operation a call puts on the wire. *)
Definition call_op (op : Z) (env : environment) (c : Clerk) (key value : gostring) : Op :=
  mkOp op (getUid (env_now env)) (clerkId c) key value.

Definition supported (op : Z) : Prop := op = GET \/ op = PUT \/ op = APPEND.

(** The clerk after it registered a fresh request id. *)
Definition registered (uid : Z) (c : Clerk) : Clerk :=
  set_channels (<[uid := length (chans c)]> (responseCh c)) (chans c ++ [mkChan None false]) c.

(** A call puts on the wire what [OpToBinary] makes of its operation. *)
Lemma packData_fresh env op key value c :
  supported op -> responseCh c !! getUid (env_now env) = None ->
  exists bin, MsgProcess.OpToBinary (call_op op env c key value) = Ok bin
    /\ packData (env_now env) (key ++ value) op (wrap_u 32 (zlen key)) c
      = Ok (registered (getUid (env_now env)) c, (bin, getUid (env_now env))).
Proof.
  intros Hop Hnone. unfold packData, prepareData.
  assert (negb (op =? GET) && negb (op =? PUT) && negb (op =? APPEND) = false) as ->
    by (destruct Hop as [->|[->| ->]]; done).
  simpl. rewrite Hnone. by eexists.
Qed.

Lemma registered_wf uid c : chans_wf c -> responseCh c !! uid = None -> chans_wf (registered uid c).
Proof.
  intros [Hopen Hinj] Hnone.
  assert (forall i n, responseCh c !! i = Some n -> (n < length (chans c))%nat) as Hlt.
  { intros i n Hi. by eapply lookup_lt_Some, Hopen. }
  split; simpl; intros i; [intros n|intros j n];
    rewrite lookup_insert_Some; [intros [[<- <-]|[_ Hi]]|].
  - by apply list_lookup_middle.
  - apply lookup_app_l_Some. by eapply Hopen.
  - rewrite lookup_insert_Some. intros [[<- <-]|[_ Hi]] [[<- E]|[_ Hj]]; try done.
    + apply Hlt in Hj. lia.
    + apply Hlt in Hi. lia.
    + by eapply Hinj.
Qed.

(** ** A call that is answered *)

(** The environment of a call that is answered once the clerk is in state [c]:
    the write succeeds and the reply arrives, cut as [ks] says, before the
    timer fires. *)
Definition answered_at `{Side} (max : Z) (ks : list nat) (packet : list byte) (env : environment) (c : Clerk) : Prop :=
  env_write env 0 = None /\ env_timeout env 0 = false
  /\ env_wait env 0 c = ('(c, _) ← receive_loop (side_recv max) ks packet c; mret c).

(** The clerk after it wrote a request. *)
Definition sent (uid conn : Z) (bin : list byte) (c : Clerk) : Clerk :=
  set_outbox (outbox c ++ [(conn, bin)]) (registered uid c).

(** The result the reply [r] becomes on this side. *)
Definition reply_result `{Side} (r : ServerResponse.t) (body : BodyPack.Body) : Result :=
  mkResult (ServerResponse.Err r) (BodyPack.KeyLen body)
    (body_ref (side_ref (ServerResponse.Data r) (zlen (frame r)))).

(** A clerk between two calls, with one attempt per call. *)
Definition idle `{Side} (c : Clerk) : Prop :=
  side_ready c /\ side_off c = 0 /\ maxRetryTime c = 1.

Lemma deliver_registered `{Side} uid r body c :
  chans_wf c -> ServerResponse.IncrId r = uid -> BodyPack.Unpack (ServerResponse.Data r) = Ok body ->
  responseCh c !! uid = None ->
  deliver side_ref (registered uid c) r
  = set_channels (responseCh c) (chans c ++ [mkChan (Some (reply_result r body)) true]) c.
Proof.
  intros [Hopen _] <- Hbody Hnone. unfold deliver, registered. rewrite Hbody. simpl. rewrite lookup_insert_eq.
  rewrite delete_insert_id by done. unfold reply_result, set_channels. simpl. f_equal.
  rewrite insert_app_r_alt by lia. by rewrite Nat.sub_diag.
Qed.

(** Registering and sending leave the buffers alone. *)
Lemma ready_sent `{Side} uid x c :
  side_ready c -> responseCh c !! uid = None -> side_ready (set_outbox x (registered uid c)).
Proof.
  intros (Hc & Hk & Hcn & Hb) Hnone. split_and!; [by apply registered_wf|done|done|].
  unfold registered. by rewrite side_buf_outbox, side_buf_channels.
Qed.

(** One reply, read whole. *)
Lemma receive_one `{Side} max ks r c :
  side_ready c -> side_off c = 0 -> resp_fits max r -> (length (frame r) <= length ks)%nat ->
  exists buf, length buf = buffer_size
    /\ receive_loop (side_recv max) ks (frame r) c = Ok (side_set 0 buf (deliver side_ref c r), []).
Proof.
  intros Hr Ho Hfit Hks.
  destruct (receive_stream_pre max ks [] (frame r) [r] c) as (buf & ? & E); try done.
  - by exists (side_buf c).
  - unfold stream. simpl. by rewrite app_nil_r.
  - by constructor.
  - by exists buf.
Qed.

Lemma deliver_outbox ref x c r : deliver ref (set_outbox x c) r = set_outbox x (deliver ref c r).
Proof.
  unfold deliver. destruct (BodyPack.Unpack _); [|done..]. simpl. by destruct (responseCh c !! _).
Qed.

(** The state after the reply was taken from its channel. *)
Lemma idle_answered `{Side} c buf x m l1 l2 :
  idle c -> length buf = buffer_size ->
  idle (set_channels (responseCh c) (<[length (chans c) := l1]> (chans c ++ [l2]))
         (side_set 0 buf (set_outbox x (set_channels m (chans c ++ [l2]) c)))).
Proof.
  intros (([Hopen Hinj] & Hk & Hcn & _) & _ & Hmax) Hbuf.
  rewrite side_set_channels. refine (conj (conj _ (conj _ (conj _ _))) (conj _ _)).
  - apply chans_wf_set. split; [|done]. intros i n Hi. simpl. pose proof (Hopen i n Hi) as Hn.
    rewrite list_lookup_insert_ne by (apply lookup_lt_Some in Hn; lia). by apply lookup_app_l_Some.
  - unfold killed in *. by rewrite side_dead.
  - by rewrite side_connections.
  - by rewrite side_buf_set.
  - apply side_off_set.
  - by rewrite side_maxRetryTime.
Qed.

(** [retryRequest] returns the reply, and the clerk is idle again. *)
Lemma retryRequest_answered `{Side} max ks env op key value c conn r body :
  idle c -> supported op -> connections c !! op = Some (Some conn) ->
  responseCh c !! getUid (env_now env) = None -> resp_fits max r ->
  ServerResponse.IncrId r = getUid (env_now env) -> BodyPack.Unpack (ServerResponse.Data r) = Ok body ->
  (forall bin, MsgProcess.OpToBinary (call_op op env c key value) = Ok bin ->
     answered_at max ks (frame r) env (sent (getUid (env_now env)) conn bin c)) ->
  (length (frame r) <= length ks)%nat ->
  exists bin c', MsgProcess.OpToBinary (call_op op env c key value) = Ok bin
    /\ retryRequest env op (wrap_u 32 (zlen key)) (key ++ value) c
      = Ok (c', (Some (reply_result r body), None))
    /\ idle c' /\ responseCh c' = responseCh c /\ outbox c' = outbox c ++ [(conn, bin)].
Proof.
  intros (Hready & Hoff & Hmax) Hop Hconn Hnone Hfit Hid Hbody Hans Hks.
  destruct (packData_fresh env op key value c Hop Hnone) as (bin & Hbin & Hpack).
  destruct (Hans bin Hbin) as (Hw & Ht & Hwait). unfold retryRequest. rewrite Hpack. set (uid := getUid (env_now env)) in *.
  change (maxRetryTime (registered uid c)) with (maxRetryTime c). rewrite Hmax. change (Z.to_nat 1) with 1%nat.
  change (responseCh (registered uid c)) with (<[uid := length (chans c)]> (responseCh c)).
  rewrite lookup_insert_eq. cbn [retry_loop]. unfold sendRequest.
  change (connections (registered uid c)) with (connections c). rewrite Hconn, Hw. simpl (deref _). go_step.
  change (outbox (registered uid c)) with (outbox c). unfold sent in Hwait.
  rewrite Hwait, Ht. set (c1 := set_outbox _ (registered uid c)).
  destruct (receive_one max ks r c1) as (buf & Hbuf & ->); [by apply ready_sent|..|done|done|].
  { unfold c1, registered. by rewrite side_off_outbox, side_off_channels. }
  go_step. unfold c1. rewrite deliver_outbox, (deliver_registered uid r body c) by (done || apply Hready).
  unfold select_response. rewrite !side_chans, !side_responseCh. simpl.
  rewrite list_lookup_middle by done. simpl.
  eexists bin, _. split_and!; [done|done|by apply idle_answered|done|].
  cbn [outbox set_channels]. by rewrite side_outbox.
Qed.

(** ** A call that is not answered *)

Definition unanswered (env : environment) (c' : Clerk -> Clerk) : Prop :=
  env_write env 0 = None /\ env_timeout env 0 = true /\ forall c, env_wait env 0 c = Ok (c' c).

Lemma retryRequest_unanswered env w op key value c conn :
  maxRetryTime c = 1 -> supported op -> connections c !! op = Some (Some conn) ->
  responseCh c !! getUid (env_now env) = None -> unanswered env w ->
  exists c', retryRequest env op (wrap_u 32 (zlen key)) (key ++ value) c = Ok (c', (None, Some ErrTimeout)).
Proof.
  intros Hmax Hop Hconn Hnone (Hw & Ht & Hwait).
  destruct (packData_fresh env op key value c Hop Hnone) as (bin & _ & Hpack).
  unfold retryRequest. rewrite Hpack. set (uid := getUid (env_now env)) in *.
  change (maxRetryTime (registered uid c)) with (maxRetryTime c). rewrite Hmax. change (Z.to_nat 1) with 1%nat.
  cbn [retry_loop]. unfold sendRequest. change (connections (registered uid c)) with (connections c).
  rewrite Hconn, Hw. simpl (deref _). go_step. rewrite Hwait. go_step. unfold select_response. rewrite Ht.
  by eexists.
Qed.

(** ** Stop while a call waits *)

Lemma close_all_keep x chs l l' : x ∉ chs -> close_all l chs = Ok l' -> l' !! x = l !! x.
Proof.
  revert l. induction chs as [|y chs IH]; intros l Hx E; simpl in E; [by injection E as <-|].
  apply bind_Ok in E as (ch & _ & E). apply bind_Ok in E as (ch' & _ & E).
  apply not_elem_of_cons in Hx as [Hxy Hx]. rewrite (IH _ Hx E). by apply list_lookup_insert_ne.
Qed.

Lemma close_all_open l chs :
  NoDup chs -> (forall n, n ∈ chs -> exists it, l !! n = Some (mkChan it false)) ->
  exists l', close_all l chs = Ok l'
    /\ forall n it, n ∈ chs -> l !! n = Some (mkChan it false) -> l' !! n = Some (mkChan it true).
Proof.
  revert l. induction chs as [|x chs IH]; intros l Hnd Hopen; [exists l; split; [done|set_solver]|].
  apply NoDup_cons in Hnd as [Hx Hnd]. destruct (Hopen x) as [it Hit]; [set_solver|].
  simpl. rewrite Hit. simpl.
  destruct (IH (<[x := mkChan it true]> l) Hnd) as (l' & E & Hl').
  { intros n Hn. rewrite list_lookup_insert_ne by set_solver. apply Hopen. set_solver. }
  exists l'. split; [done|]. intros n it' [->|Hn]%elem_of_cons Hl.
  - rewrite Hit in Hl. simplify_eq. rewrite (close_all_keep x chs _ l' Hx E). apply list_lookup_insert_eq. by eapply lookup_lt_Some.
  - apply Hl'; [done|]. rewrite list_lookup_insert_ne by set_solver. done.
Qed.

Lemma registered_chans_NoDup c : chans_wf c -> NoDup (map_to_list (responseCh c)).*2.
Proof.
  intros [_ Hinj]. apply NoDup_fmap_2_strong; [|apply NoDup_map_to_list].
  intros [i n] [j m] Hi%elem_of_map_to_list Hj%elem_of_map_to_list. simpl. intros ->.
  by rewrite (Hinj i j m).
Qed.

Definition all_connected (c : Clerk) : Prop :=
  forall op x, connections c !! op = Some x -> exists conn, x = Some conn.

(** [Stop] succeeds on a running clerk and closes every registered channel. *)
Lemma Stop_closes c :
  chans_wf c -> all_connected c ->
  exists c', Stop c = Ok c' /\ killed c' = true /\ responseCh c' = responseCh c
    /\ forall i n, responseCh c !! i = Some n -> chans c' !! n = Some (mkChan None true).
Proof.
  intros Hwf Hconn. unfold Stop.
  assert (exists conns, mapM deref (map_to_list (connections c)).*2 = Ok conns) as (conns & E).
  { assert (Forall (fun x => exists conn : Z, x = Some conn) (map_to_list (connections c)).*2) as HF.
    { apply Forall_fmap, Forall_forall. intros [op x] Hin%elem_of_map_to_list. by apply (Hconn op). }
    induction HF as [|x l [conn ->] _ [conns IH]]; [by exists []|]. exists (conn :: conns). simpl.
    by rewrite IH. }
  change (connections (Kill c)) with (connections c). rewrite E. go_step.
  destruct (close_all_open (chans c) (map_to_list (responseCh c)).*2) as (l & El & Hl).
  - by apply registered_chans_NoDup.
  - intros n ([i m] & -> & Hin)%list_elem_of_fmap. apply elem_of_map_to_list in Hin.
    exists None. by apply Hwf in Hin.
  - change (chans (Kill c)) with (chans c). change (responseCh (Kill c)) with (responseCh c). rewrite El. go_step.
    eexists. split_and!; [done|done|done|]. intros i n Hi. simpl. apply Hl; [|by apply Hwf in Hi].
    apply list_elem_of_fmap. exists (i, n). split; [done|]. by apply elem_of_map_to_list.
Qed.

(** ** Connections *)

Lemma connect_pass_ok dial n failed count conns :
  (forall k, (n <= k)%nat -> dial k <> None) ->
  exists n' conns', connect_pass dial n failed count conns = (n', count, conns') /\ (n <= n')%nat.
Proof.
  revert n conns. induction failed as [|[op addr] failed IH]; intros n conns Hd; simpl; [by eauto|].
  destruct (dial n) as [conn|] eqn:E; [|by apply Hd in E].
  destruct (IH (S n) (<[op := Some conn]> conns)) as (n' & conns' & -> & ?); [intros; apply Hd; lia|].
  exists n', conns'. split; [done|lia].
Qed.

Lemma connect_retry_forever fuel dial n failed count conns :
  failed <> [] -> count < 10 -> (forall k, (n <= k)%nat -> dial k <> None) ->
  connect_retry fuel dial n failed count conns = None.
Proof.
  revert n conns. induction fuel as [|fuel IH]; intros n conns Hne Hc Hd; simpl;
    rewrite bool_decide_false by done; destruct (Z.leb_spec 10 count); try lia; simpl; [done|].
  destruct (connect_pass_ok dial n failed count conns Hd) as (n' & conns' & -> & Hn).
  apply IH; [done..|]. intros. apply Hd. lia.
Qed.

(** And ends when they keep failing. *)
Lemma connect_pass_fails dial n failed count conns :
  (forall k, (n <= k)%nat -> dial k = None) ->
  connect_pass dial n failed count conns = ((n + length failed)%nat, count + zlen failed, conns).
Proof.
  revert n count. induction failed as [|[op addr] failed IH]; intros n count Hd; simpl.
  - by rewrite zlen_nil, Nat.add_0_r, Z.add_0_r.
  - rewrite Hd, IH by (try (intros; apply Hd); lia). rewrite zlen_cons. f_equal. f_equal; lia.
Qed.

Lemma connect_retry_ends fuel dial n failed count conns :
  failed <> [] -> (forall k, (n <= k)%nat -> dial k = None) -> 10 <= count + Z.of_nat fuel ->
  connect_retry fuel dial n failed count conns = Some conns.
Proof.
  revert n count. induction fuel as [|fuel IH]; intros n count Hne Hd Hc; simpl;
    rewrite bool_decide_false by done; simpl; destruct (Z.leb_spec 10 count); try done; [lia|].
  rewrite connect_pass_fails by done. apply IH; [done|intros; apply Hd; lia|].
  destruct failed as [|x failed]; [done|]. rewrite zlen_cons. pose proof (zlen_nonneg failed). lia.
Qed.

(** What the first loop leaves in [failed], and the connections it makes. *)
Lemma connect_first_failed dial n addrs failed conns n' failed' conns' :
  connect_first dial n addrs failed conns = (n', failed', conns') ->
  n' = (n + length addrs)%nat
  /\ (failed' = [] <-> failed = [] /\ forall k, (n <= k < n')%nat -> dial k <> None).
Proof.
  revert n failed conns. induction addrs as [|[op addr] addrs IH]; intros n failed conns E; simpl in E.
  - injection E as <- <- <-. split; [simpl; lia|]. split; [intros ->; split; [done|intros; lia]|by intros [-> _]].
  - destruct (dial n) as [conn|] eqn:Ed; apply IH in E as [-> E2]; (split; [simpl; lia|]); rewrite E2.
    + split; intros [-> Hk]; (split; [done|]); intros k Hr; [|apply Hk; lia].
      destruct (decide (k = n)) as [->|]; [congruence|apply Hk; lia].
    + split; [by intros [? _]; destruct failed|]. intros [_ Hk]. exfalso. apply (Hk n); [simpl; lia|done].
Qed.

Lemma connect_first_lookup dial n addrs failed conns n' conns' op :
  connect_first dial n addrs failed conns = (n', [], conns') ->
  is_Some (conns !! op) \/ op ∈ addrs.*1 -> (forall x, conns !! op = Some x -> x <> None) ->
  exists conn, conns' !! op = Some (Some conn).
Proof.
  revert n failed conns. induction addrs as [|[op' addr] addrs IH]; intros n failed conns E Hop Hnn; simpl in E.
  - injection E as _ _ <-. destruct Hop as [[x Hx]|Hin]; [|simpl in Hin; set_solver].
    specialize (Hnn x Hx). destruct x as [conn|]; [by exists conn|done].
  - destruct (dial n) as [conn|] eqn:Ed.
    + eapply IH in E; [done| |].
      * destruct (decide (op' = op)) as [->|Hne]; [left; rewrite lookup_insert_eq; by eexists|].
        destruct Hop as [?|Hin]; [left; by rewrite lookup_insert_ne|]. right. simpl in Hin. set_solver.
      * intros x [[_ <-]|[_ Hx]]%lookup_insert_Some; [done|by apply Hnn].
    + exfalso. apply connect_first_failed in E as [_ [Hf _]]. destruct (Hf eq_refl) as [Hn _].
      by destruct failed.
Qed.

(** The APPEND connection defaults to that of PUT. *)
Definition with_append (conns : gmap Z (option Z)) : gmap Z (option Z) :=
  match conns !! APPEND with
  | Some _ => conns
  | None => <[APPEND := default None (conns !! PUT)]> conns
  end.

Lemma connect_append_keep conns op conn :
  conns !! op = Some (Some conn) -> with_append conns !! op = Some (Some conn).
Proof.
  intros H. unfold with_append. destruct (conns !! APPEND) eqn:E; [done|].
  rewrite lookup_insert_ne; [done|congruence].
Qed.

Lemma connect_append dial n addrs n' failed conns :
  connect_first dial n addrs [] ∅ = (n', failed, conns) ->
  APPEND ∉ addrs.*1 -> is_Some (conns !! PUT) -> with_append conns !! APPEND = with_append conns !! PUT.
Proof.
  intros E Hno [p Hp]. assert (conns !! APPEND = None) as Hnone.
  { revert E Hno. generalize (@nil (Z * gostring)) as fl. assert ((∅ : gmap Z (option Z)) !! APPEND = None) as H0 by done.
    revert H0. generalize (∅ : gmap Z (option Z)) as m. revert n.
    induction addrs as [|[op addr] addrs IH]; intros n m H0 fl E Hno; simpl in E; [by injection E as _ _ <-|].
    simpl in Hno. apply not_elem_of_cons in Hno as [Hne Hno].
    destruct (dial n); apply IH in E; try done. by rewrite lookup_insert_ne. }
  unfold with_append. rewrite Hnone, Hp, lookup_insert_eq. by rewrite lookup_insert_ne.
Qed.

(** ** Properties *)

(** The reply a node makes of an operation and its value, as it reaches a clerk. *)
Definition is_reply (op : Op) (code : Z) (r : ServerResponse.t) : Prop :=
  MsgProcess.OpToResp op code = Ok r.

Lemma reply_body op code r :
  is_reply op code r -> zlen (Key op) < 2 ^ 32 ->
  ServerResponse.IncrId r = IncrId op /\ ServerResponse.Err r = code
  /\ BodyPack.Unpack (ServerResponse.Data r) = Ok (BodyPack.mk (zlen (Key op)) (Key op ++ Value op)).
Proof.
  intros Hr Hk. destruct (op_body_Unpack op Hk) as (bin & Hbin & _ & Hun).
  unfold is_reply, MsgProcess.OpToResp in Hr. rewrite Hbin in Hr. simpl in Hr. by injection Hr as <-.
Qed.

(** The value an Owned result of such a reply holds. *)
Lemma reply_value op code r c :
  is_reply op code r -> zlen (Key op) < 2 ^ 32 ->
  result_value c (@reply_result GetSide r (BodyPack.mk (zlen (Key op)) (Key op ++ Value op))) = Ok (Value op).
Proof.
  intros Hr Hk. unfold result_value, reply_result. simpl.
  assert (drop 4 (ServerResponse.Data r) = Key op ++ Value op) as ->.
  { pose proof (reply_body op code r Hr Hk) as (_ & _ & Hun). unfold BodyPack.Unpack in Hun.
    apply bind_Ok in Hun as ([kl s] & _ & Hun). apply bind_Ok in Hun as (kv & Hkv & Hun).
    apply slice_from_Ok in Hkv as [_ ->]. by injection Hun as _ E. }
  apply Body_key_value.
Qed.

(** A [Get] that is answered: the request it wrote is what [OpToBinary] makes of
    its operation, and when the reply to it arrives, in whatever pieces, the
    call returns the value of the reply, or the error of its code; the clerk
    is ready for the next call. *)
Lemma Get_answered max ks env key value code c conn r :
  @idle GetSide c -> connections c !! GET = Some (Some conn) ->
  responseCh c !! getUid (env_now env) = None -> zlen key < 2 ^ 31 ->
  is_reply (call_op GET env c key value) code r -> resp_fits max r ->
  (forall bin, MsgProcess.OpToBinary (call_op GET env c key []) = Ok bin ->
     @answered_at GetSide max ks (frame r) env (sent (getUid (env_now env)) conn bin c)) ->
  (length (frame r) <= length ks)%nat ->
  exists bin c', MsgProcess.OpToBinary (call_op GET env c key []) = Ok bin
    /\ Get env key c = Ok (c', if code =? ErrMap OK then Ok value else Err (ErrReply code))
    /\ @idle GetSide c' /\ outbox c' = outbox c ++ [(conn, bin)].
Proof.
  intros Hidle Hconn Hnone Hk Hreply Hfit Hans Hks.
  destruct (reply_body _ code r Hreply) as (Hid & Hcode & Hbody); [simpl; lia|].
  destruct (@retryRequest_answered GetSide max ks env GET key [] c conn r _ Hidle (or_introl eq_refl) Hconn Hnone
    Hfit Hid Hbody Hans Hks) as (bin & c' & Hbin & Hret & Hidle' & _ & Hout).
  rewrite app_nil_r in Hret. exists bin, c'. split_and!; [done| |done..].
  unfold Get. rewrite Hret. go_step. simpl (deref _). go_step. unfold reply_error.
  pose proof (reply_value _ code r c' Hreply) as Hv. set (res := reply_result r _) in *.
  change (ErrId res) with (ServerResponse.Err r). rewrite Hcode. destruct (code =? ErrMap OK); [|done].
  by rewrite Hv by (simpl; lia).
Qed.

(** A new clerk, connected, and a reply to its request 42. *)
Definition new_clerk : Clerk :=
  mkClerk 101 {[GET := Some 1; PUT := Some 2; APPEND := Some 2]} 1 0 0
    (replicate buffer_size Byte.x00) (replicate buffer_size Byte.x00) ∅ 0 [] [] [].

Definition sample_reply (op : Z) : ServerResponse.t :=
  ServerResponse.mk op 6 42 101 0 (ErrMap OK) [x01; x00; x00; x00; x6b; x76].

Lemma new_clerk_chans : chans_wf new_clerk.
Proof.
  assert (responseCh new_clerk = ∅) as E by done. unfold chans_wf. rewrite E.
  split; intros *; by rewrite lookup_empty.
Qed.

Lemma new_clerk_idle : @idle GetSide new_clerk /\ @idle PutSide new_clerk.
Proof.
  split; refine (conj (conj new_clerk_chans (conj eq_refl (conj _ _))) (conj eq_refl eq_refl));
    solve [by eexists|vm_compute; reflexivity].
Qed.

(** [Put] and [Append] that are answered: they return no error exactly when the
    code of the reply is OK. *)
Lemma write_answered max ks env op key value code c conn r :
  @idle PutSide c -> op = PUT \/ op = APPEND -> connections c !! op = Some (Some conn) ->
  responseCh c !! getUid (env_now env) = None -> zlen key < 2 ^ 32 ->
  is_reply (call_op op env c key value) code r -> resp_fits max r ->
  (forall bin, MsgProcess.OpToBinary (call_op op env c key value) = Ok bin ->
     @answered_at PutSide max ks (frame r) env (sent (getUid (env_now env)) conn bin c)) ->
  (length (frame r) <= length ks)%nat ->
  exists bin c', MsgProcess.OpToBinary (call_op op env c key value) = Ok bin
    /\ (if op =? PUT then Put env key value c else Append env key value c)
      = Ok (c', if code =? ErrMap OK then None else Some (ErrReply code))
    /\ @idle PutSide c' /\ outbox c' = outbox c ++ [(conn, bin)].
Proof.
  intros Hidle Hop Hconn Hnone Hk Hreply Hfit Hans Hks.
  destruct (reply_body _ code r Hreply) as (Hid & Hcode & Hbody); [simpl; lia|].
  destruct (@retryRequest_answered PutSide max ks env op key value c conn r _ Hidle (or_intror Hop) Hconn Hnone
    Hfit Hid Hbody Hans Hks) as (bin & c' & Hbin & Hret & Hidle' & _ & Hout).
  exists bin, c'. split_and!; [done| |done..].
  destruct Hop as [->| ->]; [change (PUT =? PUT) with true|change (APPEND =? PUT) with false]; cbv iota;
    unfold Put, Append; rewrite Hret; go_step; simpl (deref _); go_step; unfold reply_error;
    set (res := reply_result r _); change (ErrId res) with (ServerResponse.Err r); rewrite Hcode;
    by destruct (code =? ErrMap OK).
Qed.

(** A call whose timer fires first: [Get] and [Put] return the time-out as
    an error, but [Append] inspects the missing result before the error and
    panics. *)
Theorem timeout_crashes_append env w key value c conn :
  maxRetryTime c = 1 -> (forall op, supported op -> connections c !! op = Some (Some conn)) ->
  responseCh c !! getUid (env_now env) = None -> unanswered env w ->
  (exists c', Get env key c = Ok (c', Err ErrTimeout))
  /\ (exists c', Put env key value c = Ok (c', Some ErrTimeout))
  /\ Append env key value c = Panic.
Proof.
  intros Hmax Hconn Hnone Hun.
  assert (forall op v, supported op ->
    exists c', retryRequest env op (wrap_u 32 (zlen key)) (key ++ v) c = Ok (c', (None, Some ErrTimeout))) as Hr.
  { intros op v Hop. by apply (retryRequest_unanswered env w op key v c conn Hmax Hop (Hconn op Hop)). }
  split_and!.
  - destruct (Hr GET []) as (c' & E); [by left|]. rewrite app_nil_r in E. exists c'. unfold Get. by rewrite E.
  - destruct (Hr PUT value) as (c' & E); [by right; left|]. exists c'. unfold Put. by rewrite E.
  - destruct (Hr APPEND value) as (c' & E); [by right; right|]. unfold Append. by rewrite E.
Qed.

(** [Stop] while a [Get] waits closes its channel: the receive yields nil with
    no error, and the call dereferences it. *)
Theorem Stop_crashes_pending_Get env key c conn :
  chans_wf c -> all_connected c -> maxRetryTime c = 1 -> connections c !! GET = Some (Some conn) ->
  responseCh c !! getUid (env_now env) = None ->
  env_write env 0 = None -> env_timeout env 0 = false -> (forall c, env_wait env 0 c = Stop c) ->
  Get env key c = Panic.
Proof.
  intros Hwf Hall Hmax Hconn Hnone Hw Ht Hwait.
  destruct (packData_fresh env GET key [] c (or_introl eq_refl) Hnone) as (bin & _ & Hpack).
  rewrite app_nil_r in Hpack. unfold Get, retryRequest. rewrite Hpack.
  set (uid := getUid (env_now env)) in *. change (maxRetryTime (registered uid c)) with (maxRetryTime c).
  rewrite Hmax. change (Z.to_nat 1) with 1%nat. cbn [retry_loop]. unfold sendRequest.
  change (connections (registered uid c)) with (connections c). rewrite Hconn, Hw. simpl (deref _). go_step.
  rewrite Hwait, Ht. set (c1 := set_outbox _ _).
  destruct (Stop_closes c1) as (c2 & -> & _ & _ & Hclosed); [by apply registered_wf|done|]. go_step.
  assert (responseCh (registered uid c) !! uid = Some (length (chans c))) as Hreg by apply lookup_insert_eq.
  rewrite Hreg. unfold select_response. simpl. by rewrite (Hclosed uid (length (chans c)) Hreg).
Qed.

(** [connectToProxy] succeeds exactly when no dial of the first round
    fails, and then every requested operation has its connection, with APPEND
    on that of PUT by default.  A failure in the first round is final: the
    retry loop never takes an address off its list, so it ends with an error
    within ten passes when the retries fail, and never ends when they succeed. *)
Theorem connectToProxy_outcome dial addrs c :
  connections c = ∅ ->
  ((forall k, (k < length addrs)%nat -> dial k <> None) ->
   forall fuel, exists c', connectToProxy fuel dial addrs c = Some (c', Ok tt)
     /\ (forall op, op ∈ addrs.*1 -> exists conn, connections c' !! op = Some (Some conn))
     /\ (APPEND ∉ addrs.*1 -> PUT ∈ addrs.*1 -> connections c' !! APPEND = connections c' !! PUT))
  /\ ((exists k, (k < length addrs)%nat /\ dial k = None) ->
   (forall fuel c', connectToProxy fuel dial addrs c <> Some (c', Ok tt))
   /\ ((forall k, (length addrs <= k)%nat -> dial k <> None) ->
       forall fuel, connectToProxy fuel dial addrs c = None)
   /\ ((forall k, (length addrs <= k)%nat -> dial k = None) ->
       exists c', connectToProxy 10 dial addrs c = Some (c', Err ErrDial))).
Proof.
  intros Hc. unfold connectToProxy. rewrite Hc.
  destruct (connect_first dial 0 addrs [] ∅) as [[n failed] conns] eqn:E.
  pose proof (connect_first_failed _ _ _ _ _ _ _ _ E) as [Hn Hf]. simpl in Hn. subst n.
  split.
  - intros Hd fuel. assert (failed = []) as -> by (apply Hf; split; [done|intros; apply Hd; lia]).
    assert (forall op, op ∈ addrs.*1 -> exists conn, conns !! op = Some (Some conn)) as Hops.
    { intros op Hop. eapply connect_first_lookup; [exact E|by right|by intros ? ?%lookup_empty_Some]. }
    destruct fuel; simpl; (eexists; split; [done|]); simpl; (split; [|intros Hno HP; eapply connect_append; [exact E|done|destruct (Hops PUT HP) as [? ->]; by eexists]]);
      intros op Hop; destruct (Hops op Hop) as [conn Hcn]; exists conn; by apply connect_append_keep.
  - intros (k & Hk & Hd). assert (failed <> []) as Hne.
    { intros Hnil. apply Hf in Hnil as [_ H]. apply (H k); [lia|done]. }
    rewrite bool_decide_false by done. split_and!.
    + intros fuel c'. by destruct (connect_retry _ _ _ _ _ _).
    + intros Hok fuel. by rewrite connect_retry_forever.
    + intros Hfail. rewrite connect_retry_ends by (done || lia). by eexists.
Qed.

Lemma connectToProxy_outcome_witness :
  exists c', connectToProxy 10 (fun k => if (k =? 0)%nat then Some 7 else None)
    [(GET, [x61]); (PUT, [x62])] (set_connections ∅ new_clerk) = Some (c', Err ErrDial).
Proof.
  apply (proj2 (proj2 (proj2 (connectToProxy_outcome (fun k => if (k =? 0)%nat then Some 7 else None)
    [(GET, [x61]); (PUT, [x62])] (set_connections ∅ new_clerk) eq_refl)
    (ex_intro _ 1%nat (conj (le_n 2) eq_refl))))).
  intros [|k] Hk; simpl in *; [lia|reflexivity].
Defined.

(** The body of a [Put] result is a window of the receive buffer: handling the
    next response changes the bytes seen through an earlier result. *)
Theorem put_result_overwritten :
  exists c c' res, receive_loop (receivePutAppendResponse 0) [63%nat] (frame (sample_reply PUT)) c = Ok (c', [])
    /\ chans c' = [mkChan (Some res) true] /\ result_value c' res = Ok [x76]
    /\ exists c'', receive_loop (receivePutAppendResponse 0) [63%nat]
         (frame (ServerResponse.mk PUT 6 43 101 0 (ErrMap OK) [x01; x00; x00; x00; x6b; x77])) c' = Ok (c'', [])
       /\ chans c'' = chans c' /\ result_value c'' res = Ok [x77].
Proof.
  exists (registered 42 new_clerk). do 2 eexists. split; [vm_compute; reflexivity|].
  split; [reflexivity|]. split; [vm_compute; reflexivity|].
  eexists. split; [vm_compute; reflexivity|]. split; reflexivity.
Qed.

End ClientCalls.
