(* ===== verification/Cluster.v ===== *)
(** * Cluster: the cluster manager (server/clustermg.go)

    The manager accepts requests from the proxy, picks a node for each,
    forwards it, and returns the node's responses to the connection the
    request came from; nodes report their state on a second listener.

    Its goroutines are modelled at the points where they can be interrupted:
    a [goroutine] is a program counter with its local variables, and [step]
    runs one goroutine from one such point to the next, which is one critical
    section, one channel operation or one exchange on a connection.  The
    mutex is held across points only by the goroutine that retries a request
    ([Retry_locked]), and for ever by a [pick] in mode LOG.  A goroutine that
    has to wait has no step ([ErrBlocked]).  What is written to connections
    is the list of [event]s of a step. *)

From S2P Require Import Prelude Binary Types Wire.

Module Cluster.
Import Common.

(** ** Data *)

Definition MaxAdjustTime : Z := 100000.
Definition MeanWeight : Z := 10000000.

(** Pick modes. *)
Definition WEIGHT : Z := 0.
Definition RANDOM : Z := 1.
Definition LOG : Z := 2.

Record AdjustOp := mkAdjust { Id : Z; Value : Z (* int32 *) }.

Record Node := mkNode {
  CommitIndex : Z;   (* int64 *)
  IsLeader : bool;
  Port : Z;          (* int32 *)
  Ip : gostring
}.

Record Cluster := mkCluster {
  mu : bool;                       (* held *)
  Nodes : gmap Z Node;
  Weights : gmap Z Z;              (* int32 *)
  AdjustCh : list AdjustOp;        (* capacity 20 *)
  PickMode : Z;
  LeaderId : Z;
  ServAddr : gostring;
  SyncAddr : gostring;
  dead : Z;
  Conns : gmap Z Z;                (* node to connection *)
  ProxyConns : gmap Z Z;           (* clerk to connection *)
  SendQue : list ClientMessage.t;  (* capacity 100 each *)
  RespQue : list ServerResponse.t;
  FailQue : list ServerResponse.t;
  ques_closed : bool
}.

Definition adjust_cap : nat := 20.
Definition que_cap : nat := 100.

Definition set_mu x (c : Cluster) : Cluster :=
  mkCluster x (Nodes c) (Weights c) (AdjustCh c) (PickMode c) (LeaderId c) (ServAddr c) (SyncAddr c) (dead c)
    (Conns c) (ProxyConns c) (SendQue c) (RespQue c) (FailQue c) (ques_closed c).
Definition set_Nodes x (c : Cluster) : Cluster :=
  mkCluster (mu c) x (Weights c) (AdjustCh c) (PickMode c) (LeaderId c) (ServAddr c) (SyncAddr c) (dead c)
    (Conns c) (ProxyConns c) (SendQue c) (RespQue c) (FailQue c) (ques_closed c).
Definition set_Weights x (c : Cluster) : Cluster :=
  mkCluster (mu c) (Nodes c) x (AdjustCh c) (PickMode c) (LeaderId c) (ServAddr c) (SyncAddr c) (dead c)
    (Conns c) (ProxyConns c) (SendQue c) (RespQue c) (FailQue c) (ques_closed c).
Definition set_AdjustCh x (c : Cluster) : Cluster :=
  mkCluster (mu c) (Nodes c) (Weights c) x (PickMode c) (LeaderId c) (ServAddr c) (SyncAddr c) (dead c)
    (Conns c) (ProxyConns c) (SendQue c) (RespQue c) (FailQue c) (ques_closed c).
Definition set_LeaderId x (c : Cluster) : Cluster :=
  mkCluster (mu c) (Nodes c) (Weights c) (AdjustCh c) (PickMode c) x (ServAddr c) (SyncAddr c) (dead c)
    (Conns c) (ProxyConns c) (SendQue c) (RespQue c) (FailQue c) (ques_closed c).
Definition set_Conns x (c : Cluster) : Cluster :=
  mkCluster (mu c) (Nodes c) (Weights c) (AdjustCh c) (PickMode c) (LeaderId c) (ServAddr c) (SyncAddr c) (dead c)
    x (ProxyConns c) (SendQue c) (RespQue c) (FailQue c) (ques_closed c).
Definition set_ProxyConns x (c : Cluster) : Cluster :=
  mkCluster (mu c) (Nodes c) (Weights c) (AdjustCh c) (PickMode c) (LeaderId c) (ServAddr c) (SyncAddr c) (dead c)
    (Conns c) x (SendQue c) (RespQue c) (FailQue c) (ques_closed c).
Definition set_SendQue x (c : Cluster) : Cluster :=
  mkCluster (mu c) (Nodes c) (Weights c) (AdjustCh c) (PickMode c) (LeaderId c) (ServAddr c) (SyncAddr c) (dead c)
    (Conns c) (ProxyConns c) x (RespQue c) (FailQue c) (ques_closed c).
Definition set_RespQue x (c : Cluster) : Cluster :=
  mkCluster (mu c) (Nodes c) (Weights c) (AdjustCh c) (PickMode c) (LeaderId c) (ServAddr c) (SyncAddr c) (dead c)
    (Conns c) (ProxyConns c) (SendQue c) x (FailQue c) (ques_closed c).
Definition set_FailQue x (c : Cluster) : Cluster :=
  mkCluster (mu c) (Nodes c) (Weights c) (AdjustCh c) (PickMode c) (LeaderId c) (ServAddr c) (SyncAddr c) (dead c)
    (Conns c) (ProxyConns c) (SendQue c) (RespQue c) x (ques_closed c).

Definition killed (c : Cluster) : bool := dead c =? 1.

(** [mod] is a [uint32]; anything unknown becomes WEIGHT. *)
Definition SetPickMod (mod_ : Z) (c : Cluster) : Cluster :=
  let m := if (mod_ =? RANDOM) || (mod_ =? LOG) || (mod_ =? WEIGHT) then mod_ else WEIGHT in
  mkCluster (mu c) (Nodes c) (Weights c) (AdjustCh c) m (LeaderId c) (ServAddr c) (SyncAddr c) (dead c)
    (Conns c) (ProxyConns c) (SendQue c) (RespQue c) (FailQue c) (ques_closed c).

Definition NewCluster (servAddr syncAddr : gostring) : Cluster :=
  mkCluster false ∅ ∅ [] WEIGHT 0 servAddr syncAddr 0 ∅ ∅ [] [] [] false.

(** [kill] and the three [close]s; closing twice panics. *)
Definition Stop (c : Cluster) : go Cluster :=
  if ques_closed c then Panic
  else Ok (mkCluster (mu c) (Nodes c) (Weights c) (AdjustCh c) (PickMode c) (LeaderId c) (ServAddr c) (SyncAddr c) 1
             (Conns c) (ProxyConns c) (SendQue c) (RespQue c) (FailQue c) true).

(** ** Weights *)

(** The sum of the weights in [int32], in the order of the iteration. *)
Definition total_weight (order : list (Z * Z)) : Z :=
  fold_left (fun acc iv => wrap_s 32 (acc + iv.2)) order 0.

(** [totalWeight / int32(len)] truncates; an empty map divides by zero. *)
Definition balanced (avg v : Z) : Z :=
  let v := wrap_s 32 (v + wrap_s 32 (MeanWeight - avg)) in
  wrap_s 32 (v + Z.quot (wrap_s 32 (v - MeanWeight)) 2).

Definition balanceWeight (c : Cluster) : go Cluster :=
  let order := map_to_list (Weights c) in
  let n := wrap_s 32 (zlen order) in
  if n =? 0 then Panic
  else Ok (set_Weights (balanced (wrap_s 32 (Z.quot (total_weight order) n)) <$> Weights c) c).

(** The critical section of the loop of [adjustWeight] for one [op]; [count]
    is the incremented counter. *)
Definition adjust_apply (count : Z) (op : AdjustOp) (c : Cluster) : go (Cluster * Z) :=
  '(c, count) ← (if MaxAdjustTime <? count then c ← balanceWeight c; mret (c, 0) else mret (c, count));
  let weight := match Weights c !! Id op with
                | None => wrap_s 32 (MeanWeight + Value op)
                | Some weight => wrap_s 32 (weight + Value op)
                end in
  mret (set_Weights (<[Id op := weight]> (Weights c)) c, count).

(** ** pick *)

(** The loop of mode WEIGHT over the weights in iteration order. *)
Fixpoint pick_weight (order : list (Z * Z)) (pickedWeight selectId : Z) : Z :=
  match order with
  | [] => selectId
  | (id, v) :: order =>
      let pickedWeight := wrap_s 32 (pickedWeight - v) in
      if pickedWeight <=? 0 then id else pick_weight order pickedWeight selectId
  end.

(** One pass of the inner loop of mode RANDOM, which skips the leader and
    stops when the index reaches 0. *)
Fixpoint random_pass (leader : Z) (order : list (Z * Z)) (randidx selectId : Z) : Z * Z :=
  match order with
  | [] => (randidx, selectId)
  | (id, _) :: order =>
      if id =? leader then random_pass leader order randidx selectId
      else if randidx - 1 <? 1 then (randidx - 1, id)
      else random_pass leader order (randidx - 1) id
  end.

(** The outer loop, one iteration order per pass.  A pass lowers the index
    when it meets a node other than the leader, so [randidx] passes are
    enough. *)
Fixpoint pick_random (fuel : nat) (leader : Z) (orders : nat -> list (Z * Z)) (randidx selectId : Z) : go Z :=
  if randidx <=? 0 then Ok selectId
  else match fuel with
       | O => Err ErrBlocked
       | S fuel =>
           let '(randidx, selectId) := random_pass leader (orders fuel) randidx selectId in
           pick_random fuel leader orders randidx selectId
       end.

(** [r] is the state of the generator, [orders] the iteration orders of
    [Weights].  Mode LOG locks the mutex [pick] already holds. *)
Definition pick (r : Z) (orders : nat -> list (Z * Z)) (op : Z) (c : Cluster) : go Z :=
  if op =? GET then
    if PickMode c =? WEIGHT then
      let order := orders O in
      pickedWeight ← rand_Intn r (total_weight order);
      mret (pick_weight order pickedWeight (LeaderId c))
    else if PickMode c =? RANDOM then
      randidx ← rand_Intn r (zlen (orders O));
      pick_random (Z.to_nat randidx) (LeaderId c) orders randidx (LeaderId c)
    else if PickMode c =? LOG then Err ErrBlocked
    else Ok (LeaderId c)
  else Ok (LeaderId c).

(** ** Goroutines *)

Inductive goroutine :=
  (* [Moniter] and [Serve]: one listener each *)
  | Moniter
  | Moniter_loop
  | Moniter_accept
  | Serving
  | Serving_loop
  | Serving_accept
  (* [serve]: one per proxy connection, with the bytes still to come *)
  | Serve (conn : Z) (s : list byte)
  | Serve_read (conn : Z) (s : list byte)
  | Serve_send (conn : Z) (s : list byte) (m : ClientMessage.t)
  | Serve_register (conn : Z) (s : list byte) (clerk : Z)
  (* [procSendQue] *)
  | Send
  | Send_recv
  | Send_pick (m : ClientMessage.t)
  | Send_lookup (m : ClientMessage.t) (id : Z)
  | Send_connect (m : ClientMessage.t) (id : Z)
  | Send_dialled (m : ClientMessage.t) (id conn : Z)
  | Send_again (m : ClientMessage.t) (id : Z)
  | Send_write (m : ClientMessage.t) (id conn : Z)
  | Send_adjust (id : Z)
  | Send_stuck
  (* [procRespQue] *)
  | Resp
  | Resp_recv
  | Resp_lookup (r : ServerResponse.t)
  | Resp_write (r : ServerResponse.t) (conn : Z)
  (* [procFailedReq] and the goroutines it starts *)
  | Fail
  | Fail_recv
  | Fail_adjust (r : ServerResponse.t)
  | Retry_lock (r : ServerResponse.t)
  | Retry_locked (r : ServerResponse.t)
  | Retry_send (r : ServerResponse.t)
  (* [serveServ]: one per node connection *)
  | ServeServ (conn : Z) (s : list byte)
  | ServeServ_read (conn : Z) (s : list byte)
  | ServeServ_route (conn : Z) (s : list byte) (r : ServerResponse.t)
  | ServeServ_adjust (conn : Z) (s : list byte) (r : ServerResponse.t)
  (* [handleSync]: one per status connection *)
  | Sync (conn : Z) (s : list byte)
  | Sync_read (conn : Z) (s : list byte)
  | Sync_register (conn : Z) (s : list byte) (m : SyncMsgPack.SyncMsg)
  | Sync_confirm (conn : Z) (s : list byte) (m : SyncMsgPack.SyncMsg)
  | Sync_check (conn : Z) (s : list byte) (id : Z)
  | Sync_connect (conn : Z) (s : list byte) (id : Z)
  | Sync_dialled (conn : Z) (s : list byte) (id node : Z)
  | Sync_status (conn : Z) (s : list byte) (m : SyncMsgPack.SyncMsg)
  | Sync_adjust (conn : Z) (s : list byte) (op : AdjustOp)
  (* [adjustWeight] *)
  | Adjust (count : Z)
  | Adjust_recv (count : Z)
  | Adjust_apply (count : Z) (op : AdjustOp).

(** What the outside sees or supplies: requests and responses read, bytes
    written to a node, a proxy or a status connection. *)
Inductive event :=
  | Received (conn : Z) (m : ClientMessage.t)
  | Answered (conn : Z) (r : ServerResponse.t)
  | ToNode (conn : Z) (bs : list byte)
  | ToProxy (conn : Z) (bs : list byte)
  | ToSync (conn : Z) (bs : list byte).

(** The choices of the runtime and the network in a step. *)
Record choice := mkChoice {
  listen : bool;                    (* a listener opens *)
  accept : option (Z * list byte);  (* outcome of an accept: a connection and what it will send *)
  rnd : Z;                          (* generator *)
  orders : nat -> list (Z * Z);     (* iteration orders of [Weights] *)
  dial : option Z;                  (* outcome of a dial: the new connection *)
  node_stream : list byte;          (* what a dialled node will send *)
  write_ok : bool                   (* a write succeeds *)
}.

Definition result : Type := go (Cluster * list goroutine * list event).

Definition to (c : Cluster) (gs : list goroutine) : result := Ok (c, gs, []).
Definition emit (c : Cluster) (gs : list goroutine) (evs : list event) : result := Ok (c, gs, evs).

(** The condition of a [for !cu.killed()] loop, and the first statement of
    its body, which may wait. *)
Definition loop (c : Cluster) (body : goroutine) : result := if killed c then to c [] else to c [body].

(** A critical section waits for the mutex. *)
Definition locked (c : Cluster) (body : result) : result := if mu c then Err ErrBlocked else body.

(** Opening a listener, then starting [gs]; without a listener the deferred
    function closes nil. *)
Definition listening (ok : bool) (c : Cluster) (gs : list goroutine) : result := if ok then to c gs else Panic.

(** One [Accept]: a goroutine for the connection, or the return with an error. *)
Definition accepting (conn : option (Z * list byte)) (c : Cluster)
    (again : goroutine) (handler : Z -> list byte -> goroutine) : result :=
  match conn with
  | Some (conn, s) => to c [again; handler conn s]
  | None => to c []
  end.

(** Sends: on a closed channel they panic, on a full one they wait. *)
Definition send_SendQue (m : ClientMessage.t) (c : Cluster) (k : Cluster -> result) : result :=
  if ques_closed c then Panic
  else if (que_cap <=? length (SendQue c))%nat then Err ErrBlocked
  else k (set_SendQue (SendQue c ++ [m]) c).
Definition send_RespQue (r : ServerResponse.t) (c : Cluster) (k : Cluster -> result) : result :=
  if ques_closed c then Panic
  else if (que_cap <=? length (RespQue c))%nat then Err ErrBlocked
  else k (set_RespQue (RespQue c ++ [r]) c).
Definition send_FailQue (r : ServerResponse.t) (c : Cluster) (k : Cluster -> result) : result :=
  if ques_closed c then Panic
  else if (que_cap <=? length (FailQue c))%nat then Err ErrBlocked
  else k (set_FailQue (FailQue c ++ [r]) c).
Definition send_AdjustCh (op : AdjustOp) (c : Cluster) (k : Cluster -> result) : result :=
  if (adjust_cap <=? length (AdjustCh c))%nat then Err ErrBlocked
  else k (set_AdjustCh (AdjustCh c ++ [op]) c).

(** *** serve *)

(** Header, then body; the concrete type is asserted before the error of
    [Unpack] is looked at. *)
Definition serve_read (max conn : Z) (s : list byte) (c : Cluster) : result :=
  match read_full (Z.to_nat ClientDataPack.GetHeadLen) s with
  | Ok (headerBuffer, s) =>
      match ClientDataPack.Unpack max headerBuffer with
      | Ok cmsg =>
          match read_full (Z.to_nat (ClientMessage.DataLen cmsg)) s with
          | Ok (body, s) =>
              let m := ClientMessage.SetData body cmsg in
              emit c [Serve_send conn s m] [Received conn m]
          | _ => to c []
          end
      | _ => Panic
      end
  | _ => to c []
  end.

Definition serve_register (conn clerk : Z) (c : Cluster) : Cluster :=
  match ProxyConns c !! clerk with
  | Some old => if old =? conn then c else set_ProxyConns (<[clerk := conn]> (ProxyConns c)) c
  | None => set_ProxyConns (<[clerk := conn]> (ProxyConns c)) c
  end.

(** *** connectToNode: the two critical sections around the dial *)

(** [true]: the node is known, and is dialled. *)
Definition connect_known (id : Z) (c : Cluster) : bool := bool_decide (is_Some (Nodes c !! id)).

Definition connect_address (id : Z) (c : Cluster) : option gostring :=
  node ← Nodes c !! id; Some (Ip node ++ [Byte.x3a] ++ fmt_d (Port node)).

Definition connect_store (id conn : Z) (c : Cluster) : Cluster := set_Conns (<[id := conn]> (Conns c)) c.

(** *** handleSync *)

(** [make([]byte, msg.IpLen+4)] computes its length in [int16]. *)
Definition sync_read (conn : Z) (s : list byte) (c : Cluster) : result :=
  match read_full (Z.to_nat SyncMsgPack.GetHeadLen) s with
  | Ok (headBuffer, s) =>
      match SyncMsgPack.UnpackHead headBuffer with
      | Ok msg =>
          if 0 <? SyncMsgPack.IpLen msg then
            let n := wrap_s 16 (SyncMsgPack.IpLen msg + 4) in
            if n <? 0 then Panic
            else match read_full (Z.to_nat n) s with
                 | Ok (bodyBuffer, s) =>
                     match SyncMsgPack.UnpackBody bodyBuffer msg with
                     | Ok msg => to c [Sync_register conn s msg]
                     | Err _ => to c []
                     | Panic => Panic
                     end
                 | _ => to c []
                 end
          else to c [Sync_status conn s msg]
      | _ => to c []
      end
  | _ => to c []
  end.

Definition sync_register (msg : SyncMsgPack.SyncMsg) (c : Cluster) : Cluster :=
  let node := mkNode (SyncMsgPack.CommitIndex msg) (SyncMsgPack.IsLeader msg)
                (SyncMsgPack.Port msg) (SyncMsgPack.Ip msg) in
  let c := set_Nodes (<[SyncMsgPack.ServerId msg := node]> (Nodes c)) c in
  if SyncMsgPack.IsLeader msg then set_LeaderId (SyncMsgPack.ServerId msg) c else c.

(** The confirmation: a buffer made with four zero bytes, then the code. *)
Definition sync_confirm_bytes : list byte := le_put 4 0 ++ le_put 4 (ErrMap OK).

(** The status section: the new state and the weight change it asks for. *)
Definition sync_status (msg : SyncMsgPack.SyncMsg) (c : Cluster) : Cluster * AdjustOp :=
  let c := if SyncMsgPack.IsLeader msg then set_LeaderId (SyncMsgPack.ServerId msg) c else c in
  let node := match Nodes c !! SyncMsgPack.ServerId msg with
              | None => mkNode (SyncMsgPack.CommitIndex msg) (SyncMsgPack.IsLeader msg) 0 []
              | Some node => mkNode (SyncMsgPack.CommitIndex msg) (SyncMsgPack.IsLeader msg) (Port node) (Ip node)
              end in
  let c := set_Nodes (<[SyncMsgPack.ServerId msg := node]> (Nodes c)) c in
  let diff := match Nodes c !! LeaderId c with
              | None => 0
              | Some leader => wrap_s 32 (wrap_s 64 (CommitIndex node - CommitIndex leader))
              end in
  (c, mkAdjust (SyncMsgPack.ServerId msg) diff).

(** *** procFailedReq: the goroutine a failed response starts *)

Definition failed_retry (r : ServerResponse.t) : list goroutine :=
  if ServerResponse.Err r =? ErrMap LeaderChanged then []
  else if ServerResponse.Err r =? ErrMap WrongLeader then [Retry_lock r]
  else if ServerResponse.Err r =? ErrMap ChanClosed then []
  else if ServerResponse.Err r =? ErrMap HandleTimeout then [Retry_send r]
  else [].

(** A response [serveServ] passes on to the client. *)
Definition is_final (r : ServerResponse.t) : bool :=
  (ServerResponse.Err r =? ErrMap OK) || (ServerResponse.Err r =? ErrMap NoKey).

(** *** One step of a goroutine

    [max] is [utils.GlobalObject.MaxPackageSize].  A receive from a closed
    empty queue yields nil, which the receiver dereferences. *)

Definition step (max : Z) (ch : choice) (c : Cluster) (g : goroutine) : result :=
  match g with
  (* Moniter *)
  | Moniter => listening (listen ch) c [Adjust 0; Moniter_loop]
  | Moniter_loop => loop c Moniter_accept
  | Moniter_accept => accepting (accept ch) c Moniter_loop Sync
  (* Serve *)
  | Serving => listening (listen ch) c [Send; Resp; Fail; Serving_loop]
  | Serving_loop => loop c Serving_accept
  | Serving_accept => accepting (accept ch) c Serving_loop Serve
  (* serve *)
  | Serve conn s => loop c (Serve_read conn s)
  | Serve_read conn s => serve_read max conn s c
  | Serve_send conn s m =>
      send_SendQue m c (fun c => to c [Serve_register conn s (ClientMessage.ClerkId m)])
  | Serve_register conn s clerk => locked c (to (serve_register conn clerk c) [Serve conn s])
  (* procSendQue *)
  | Send => loop c Send_recv
  | Send_recv =>
      match SendQue c with
      | m :: q => to (set_SendQue q c) [Send_pick m]
      | [] => if ques_closed c then Panic else Err ErrBlocked
      end
  | Send_pick m =>
      locked c
        match pick (rnd ch) (orders ch) (ClientMessage.OpId m) c with
        | Ok id => to c [Send_lookup m id]
        | Err _ => to (set_mu true c) [Send_stuck]
        | Panic => Panic
        end
  | Send_lookup m id =>
      locked c
        match Conns c !! id with
        | Some conn => to c [Send_write m id conn]
        | None => to c [Send_connect m id]
        end
  | Send_connect m id =>
      locked c
        (if connect_known id c then
           match dial ch with
           | Some conn => to c [Send_dialled m id conn]
           | None => to c [Send_pick m]
           end
         else to c [Send_pick m])
  | Send_dialled m id conn =>
      locked c (to (connect_store id conn c) [Send_again m id; ServeServ conn (node_stream ch)])
  | Send_again m id =>
      match Conns c !! id with
      | Some conn => to c [Send_write m id conn]
      | None => Panic
      end
  | Send_write m id conn =>
      match MsgProcess.ClientMsgToBit (IClient m) with
      | Ok bs => emit c [Send_adjust id] (if write_ok ch then [ToNode conn bs] else [])
      | Err _ => to c [Send]
      | Panic => Panic
      end
  | Send_adjust id => send_AdjustCh (mkAdjust id (-1)) c (fun c => to c [Send])
  | Send_stuck => Err ErrBlocked
  (* procRespQue *)
  | Resp => loop c Resp_recv
  | Resp_recv =>
      match RespQue c with
      | r :: q => to (set_RespQue q c) [Resp_lookup r]
      | [] => if ques_closed c then Panic else Err ErrBlocked
      end
  | Resp_lookup r =>
      locked c
        match ProxyConns c !! ServerResponse.ClerkId r with
        | Some conn => to c [Resp_write r conn]
        | None => to c [Resp]
        end
  | Resp_write r conn =>
      match MsgProcess.RespToBinary r with
      | Ok bs => emit c [Resp] (if write_ok ch then [ToProxy conn bs] else [])
      | Err _ => to c [Resp]
      | Panic => Panic
      end
  (* procFailedReq *)
  | Fail => loop c Fail_recv
  | Fail_recv =>
      match FailQue c with
      | r :: q => to (set_FailQue q c) [Fail_adjust r]
      | [] => if ques_closed c then Panic else Err ErrBlocked
      end
  | Fail_adjust r =>
      send_AdjustCh (mkAdjust (ServerResponse.ServerId r) (-10)) c (fun c => to c (Fail :: failed_retry r))
  | Retry_lock r =>
      locked c
        (if negb (LeaderId c =? ServerResponse.ServerId r) then to (set_mu true c) [Retry_locked r]
         else to c [Retry_send r])
  | Retry_locked r => send_SendQue (MsgProcess.RespToReq r) c (fun c => to (set_mu false c) [])
  | Retry_send r => send_SendQue (MsgProcess.RespToReq r) c (fun c => to c [])
  (* serveServ *)
  | ServeServ conn s => loop c (ServeServ_read conn s)
  | ServeServ_read conn s =>
      match Framing.read_response max s with
      | Ok (r, s) => emit c [ServeServ_route conn s r] [Answered conn r]
      | Err _ => to c []
      | Panic => Panic
      end
  | ServeServ_route conn s r =>
      if is_final r then send_RespQue r c (fun c => to c [ServeServ_adjust conn s r])
      else send_FailQue r c (fun c => to c [ServeServ conn s])
  | ServeServ_adjust conn s r =>
      send_AdjustCh (mkAdjust (ServerResponse.ServerId r) 1) c (fun c => to c [ServeServ conn s])
  (* handleSync *)
  | Sync conn s => loop c (Sync_read conn s)
  | Sync_read conn s => sync_read conn s c
  | Sync_register conn s m => locked c (to (sync_register m c) [Sync_confirm conn s m])
  | Sync_confirm conn s m =>
      emit c [Sync_check conn s (SyncMsgPack.ServerId m)]
        (if write_ok ch then [ToSync conn sync_confirm_bytes] else [])
  | Sync_check conn s id =>
      locked c
        match Conns c !! id with
        | Some _ => to c [Sync conn s]
        | None => to c [Sync_connect conn s id]
        end
  | Sync_connect conn s id =>
      locked c
        (if connect_known id c then
           match dial ch with
           | Some node => to c [Sync_dialled conn s id node]
           | None => to c [Sync conn s]
           end
         else to c [Sync conn s])
  | Sync_dialled conn s id node =>
      locked c (to (connect_store id node c) [Sync conn s; ServeServ node (node_stream ch)])
  | Sync_status conn s m =>
      locked c (let '(c, op) := sync_status m c in to c [Sync_adjust conn s op])
  | Sync_adjust conn s op => send_AdjustCh op c (fun c => to c [Sync conn s])
  (* adjustWeight *)
  | Adjust count => loop c (Adjust_recv count)
  | Adjust_recv count =>
      match AdjustCh c with
      | op :: q => to (set_AdjustCh q c) [Adjust_apply (wrap_s 32 (count + 1)) op]
      | [] => Err ErrBlocked
      end
  | Adjust_apply count op =>
      locked c
        match adjust_apply count op c with
        | Ok (c, count) => to c [Adjust count]
        | Err e => Err e
        | Panic => Panic
        end
  end.

(** ** The manager *)

Record manager := mkManager { cu : Cluster; threads : list goroutine; trace : list event }.

Definition Start (servAddr syncAddr : gostring) : manager :=
  mkManager (NewCluster servAddr syncAddr) [Serving; Moniter] [].

(** The runtime iterates over [Weights] in any order, a new one per loop. *)
Definition choice_ok (ch : choice) (c : Cluster) : Prop :=
  forall n, orders ch n ≡ₚ map_to_list (Weights c).

(** Any goroutine that can move may move; [Stop] and [SetPickMod] may be
    called at any time. *)
Inductive mstep (max : Z) : manager -> manager -> Prop :=
  | m_run ch c gs1 g gs2 tr c' gs evs :
      choice_ok ch c -> step max ch c g = Ok (c', gs, evs) ->
      mstep max (mkManager c (gs1 ++ g :: gs2) tr) (mkManager c' (gs1 ++ gs ++ gs2) (tr ++ evs))
  | m_stop c gs tr c' :
      Stop c = Ok c' -> mstep max (mkManager c gs tr) (mkManager c' gs tr)
  | m_mode c gs tr m :
      mstep max (mkManager c gs tr) (mkManager (SetPickMod m c) gs tr).

Definition reachable (max : Z) (m m' : manager) : Prop := rtc (mstep max) m m'.

End Cluster.
