(* ===== verification/ClusterSpec.v ===== *)
(** * ClusterSpec: what the cluster manager does with messages

    Invariants of every interleaving of the manager's goroutines: where the
    bytes it writes come from, and where they go.  Then the runs in which it
    stops working. *)

From S2P Require Import Prelude Binary Types Wire Cluster.

Module ClusterSpec.
Import Common Cluster.

(** ** Provenance

    [tr] is the list of events so far. *)

(** A request read from a proxy connection. *)
Definition accepted (tr : list event) (m : ClientMessage.t) : Prop := exists conn, Received conn m ∈ tr.

(** A response read from a node connection. *)
Definition answered (tr : list event) (r : ServerResponse.t) : Prop := exists conn, Answered conn r ∈ tr.

(** A message the manager may send to a node: a request as it was read, or
    the request of a response whose code is retried. *)
Definition origin (tr : list event) (m : ClientMessage.t) : Prop :=
  accepted tr m \/ exists r, answered tr r /\ failed_retry r <> [] /\ m = MsgProcess.RespToReq r.

(** A connection on which a request of this clerk was read. *)
Definition route (tr : list event) (clerk conn : Z) : Prop :=
  exists m, Received conn m ∈ tr /\ ClientMessage.ClerkId m = clerk.

Definition final_answer (tr : list event) (r : ServerResponse.t) : Prop := answered tr r /\ is_final r = true.

Definition failed_answer (tr : list event) (r : ServerResponse.t) : Prop := answered tr r /\ is_final r = false.

(** What is written: requests of known origin to nodes, final answers to the
    connection their clerk used. *)
Definition output_ok (tr : list event) (ev : event) : Prop :=
  match ev with
  | ToNode _ bs => exists m, origin tr m /\ MsgProcess.ClientMsgToBit (IClient m) = Ok bs
  | ToProxy conn bs => exists r, final_answer tr r /\ route tr (ServerResponse.ClerkId r) conn
      /\ MsgProcess.RespToBinary r = Ok bs
  | ToSync _ bs => bs = sync_confirm_bytes
  | _ => True
  end.

(** The local variables of a goroutine. *)
Definition goroutine_ok (tr : list event) (g : goroutine) : Prop :=
  match g with
  | Serve_send conn _ m => Received conn m ∈ tr
  | Serve_register conn _ clerk => route tr clerk conn
  | Send_pick m | Send_lookup m _ | Send_connect m _ | Send_dialled m _ _ | Send_again m _ | Send_write m _ _ => origin tr m
  | Resp_lookup r => final_answer tr r
  | Resp_write r conn => final_answer tr r /\ route tr (ServerResponse.ClerkId r) conn
  | Fail_adjust r => failed_answer tr r
  | Retry_lock r | Retry_locked r | Retry_send r => answered tr r /\ failed_retry r <> []
  | ServeServ_route _ _ r => answered tr r
  | _ => True
  end.

Record state_ok (tr : list event) (c : Cluster) : Prop := mkOk {
  ok_send : Forall (origin tr) (SendQue c);
  ok_resp : Forall (final_answer tr) (RespQue c);
  ok_fail : Forall (failed_answer tr) (FailQue c);
  ok_proxy : forall clerk conn, ProxyConns c !! clerk = Some conn -> route tr clerk conn
}.

Section monotone.
Context (tr evs : list event).

Lemma accepted_mono m : accepted tr m -> accepted (tr ++ evs) m.
Proof. unfold accepted. set_solver. Qed.

Lemma answered_mono r : answered tr r -> answered (tr ++ evs) r.
Proof. unfold answered. set_solver. Qed.

Lemma origin_mono m : origin tr m -> origin (tr ++ evs) m.
Proof. intros [H|(r & H & ? & ?)]; [left; by apply accepted_mono|right; exists r; eauto using answered_mono]. Qed.

Lemma route_mono clerk conn : route tr clerk conn -> route (tr ++ evs) clerk conn.
Proof. intros (m & ? & ?). exists m. set_solver. Qed.

Lemma final_answer_mono r : final_answer tr r -> final_answer (tr ++ evs) r.
Proof. intros [? ?]. split; eauto using answered_mono. Qed.

Lemma failed_answer_mono r : failed_answer tr r -> failed_answer (tr ++ evs) r.
Proof. intros [? ?]. split; eauto using answered_mono. Qed.

Lemma goroutine_ok_mono g : goroutine_ok tr g -> goroutine_ok (tr ++ evs) g.
Proof.
  destruct g; simpl; try done;
    try (intros [? ?]; split); eauto using origin_mono, route_mono, final_answer_mono, failed_answer_mono, answered_mono.
  set_solver.
Qed.

Lemma output_ok_mono ev : output_ok tr ev -> output_ok (tr ++ evs) ev.
Proof.
  destruct ev; simpl; try done.
  - intros (m & ? & ?). exists m. eauto using origin_mono.
  - intros (r & ? & ? & ?). exists r. eauto using final_answer_mono, route_mono.
Qed.

Lemma state_ok_mono c : state_ok tr c -> state_ok (tr ++ evs) c.
Proof.
  intros [H1 H2 H3 H4]. split; [eapply Forall_impl; [done|]..|intros; eapply route_mono; eauto];
    eauto using origin_mono, final_answer_mono, failed_answer_mono.
Qed.
End monotone.

(** ** Preservation *)

(** What a step of [g] must establish. *)
Definition step_ok (tr : list event) (res : Cluster * list goroutine * list event) : Prop :=
  let '(c, gs, evs) := res in
  state_ok (tr ++ evs) c /\ Forall (goroutine_ok (tr ++ evs)) gs /\ Forall (output_ok (tr ++ evs)) evs.

(** The step emits nothing and keeps the checked fields. *)
Lemma step_ok_quiet tr c c' gs :
  state_ok tr c -> SendQue c' = SendQue c -> RespQue c' = RespQue c -> FailQue c' = FailQue c ->
  ProxyConns c' = ProxyConns c -> Forall (goroutine_ok tr) gs -> step_ok tr (c', gs, []).
Proof.
  intros [H1 H2 H3 H4] E1 E2 E3 E4 Hgs. unfold step_ok. rewrite app_nil_r.
  split_and!; [|done|constructor]. split; rewrite ?E1, ?E2, ?E3, ?E4; done.
Qed.

(** A continuation that leaves the state alone. *)
Definition quiet_to (k : Cluster -> result) (gs : list goroutine) : Prop := forall c, k c = to c gs.

Section sends.
Context (tr : list event) (c : Cluster) (Hc : state_ok tr c).

Lemma send_SendQue_ok m k gs res :
  origin tr m -> (forall c, k c = to c gs \/ k c = to (set_mu false c) gs) -> Forall (goroutine_ok tr) gs ->
  send_SendQue m c k = Ok res -> step_ok tr res.
Proof.
  intros Hm Hk Hgs. unfold send_SendQue. repeat case_match; try done.
  assert (state_ok tr (set_SendQue (SendQue c ++ [m]) c)) as Hc'.
  { destruct Hc as [H1 H2 H3 H4]. split; simpl; try done. apply Forall_app. by rewrite Forall_singleton. }
  destruct (Hk (set_SendQue (SendQue c ++ [m]) c)) as [->| ->]; intros [= <-]; by apply (step_ok_quiet _ _ _ _ Hc').
Qed.

Lemma send_RespQue_ok r k gs res :
  final_answer tr r -> quiet_to k gs -> Forall (goroutine_ok tr) gs ->
  send_RespQue r c k = Ok res -> step_ok tr res.
Proof.
  intros Hr Hk Hgs. unfold send_RespQue. repeat case_match; try done. rewrite Hk. intros [= <-].
  unfold step_ok. rewrite app_nil_r. split_and!; [|done|constructor].
  destruct Hc as [H1 H2 H3 H4]. split; simpl; try done. apply Forall_app. by rewrite Forall_singleton.
Qed.

Lemma send_FailQue_ok r k gs res :
  failed_answer tr r -> quiet_to k gs -> Forall (goroutine_ok tr) gs ->
  send_FailQue r c k = Ok res -> step_ok tr res.
Proof.
  intros Hr Hk Hgs. unfold send_FailQue. repeat case_match; try done. rewrite Hk. intros [= <-].
  unfold step_ok. rewrite app_nil_r. split_and!; [|done|constructor].
  destruct Hc as [H1 H2 H3 H4]. split; simpl; try done. apply Forall_app. by rewrite Forall_singleton.
Qed.

Lemma send_AdjustCh_ok op k gs res :
  quiet_to k gs -> Forall (goroutine_ok tr) gs -> send_AdjustCh op c k = Ok res -> step_ok tr res.
Proof.
  intros Hk Hgs. unfold send_AdjustCh. case_match; [done|]. rewrite Hk. intros [= <-].
  by apply (step_ok_quiet _ c).
Qed.

(** Receives: the head of a queue satisfies what the queue does. *)
Lemma receive_ok c' gs :
  (exists m q, SendQue c = m :: q /\ c' = set_SendQue q c /\ gs = [Send_pick m])
  \/ (exists r q, RespQue c = r :: q /\ c' = set_RespQue q c /\ gs = [Resp_lookup r])
  \/ (exists r q, FailQue c = r :: q /\ c' = set_FailQue q c /\ gs = [Fail_adjust r]) ->
  step_ok tr (c', gs, []).
Proof.
  destruct Hc as [H1 H2 H3 H4]. unfold step_ok. rewrite app_nil_r.
  intros [(m & q & E & -> & ->)|[(r & q & E & -> & ->)|(r & q & E & -> & ->)]];
    [rewrite E in H1; inversion H1|rewrite E in H2; inversion H2|rewrite E in H3; inversion H3]; subst;
    (split_and!; [split; by simpl|by rewrite Forall_singleton|constructor]).
Qed.

End sends.

Lemma failed_retry_cases r :
  failed_retry r = [] \/ failed_retry r = [Retry_lock r] \/ failed_retry r = [Retry_send r].
Proof. unfold failed_retry. repeat case_match; auto. Qed.

Lemma failed_retry_ok tr r :
  failed_answer tr r -> Forall (goroutine_ok tr) (failed_retry r).
Proof.
  intros [Ha _]. destruct (failed_retry_cases r) as [E|[E|E]]; rewrite E; [constructor|..];
    rewrite Forall_singleton; simpl; by rewrite E.
Qed.

Lemma serve_register_ok tr c conn clerk :
  state_ok tr c -> route tr clerk conn -> state_ok tr (serve_register conn clerk c).
Proof.
  intros [H1 H2 H3 H4] Hr. unfold serve_register.
  assert (forall clerk' conn', <[clerk := conn]> (ProxyConns c) !! clerk' = Some conn' -> route tr clerk' conn') as Hins.
  { intros clerk' conn' [[<- <-]|[_ H]]%lookup_insert_Some; eauto. }
  repeat case_match; split; simpl; eauto.
Qed.

Lemma sync_fields m c :
  (SendQue (sync_register m c) = SendQue c /\ RespQue (sync_register m c) = RespQue c
   /\ FailQue (sync_register m c) = FailQue c /\ ProxyConns (sync_register m c) = ProxyConns c)
  /\ (SendQue (sync_status m c).1 = SendQue c /\ RespQue (sync_status m c).1 = RespQue c
   /\ FailQue (sync_status m c).1 = FailQue c /\ ProxyConns (sync_status m c).1 = ProxyConns c).
Proof. unfold sync_register, sync_status. by destruct (SyncMsgPack.IsLeader m). Qed.

Lemma adjust_apply_fields count op c c' count' :
  adjust_apply count op c = Ok (c', count') -> exists w, c' = set_Weights w c.
Proof.
  unfold adjust_apply, balanceWeight. intros H. repeat case_match; go_inv; try done; by eexists.
Qed.


(** A step that reads from a connection, or changes only the goroutine. *)
Ltac quiet Hc := apply (step_ok_quiet _ _ _ _ Hc); try done; rewrite ?Forall_cons, ?Forall_nil; try done.

Lemma serve_read_ok max tr conn s c res :
  state_ok tr c -> serve_read max conn s c = Ok res -> step_ok tr res.
Proof.
  intros Hc. unfold serve_read, to, emit. repeat case_match; intros [= <-]; try by quiet Hc.
  unfold step_ok. split_and!; [by apply state_ok_mono| |by repeat constructor].
  rewrite Forall_singleton. simpl. set_solver.
Qed.

Lemma sync_read_ok tr conn s c res :
  state_ok tr c -> sync_read conn s c = Ok res -> step_ok tr res.
Proof. intros Hc. unfold sync_read, to. repeat case_match; intros [= <-]; by quiet Hc. Qed.

Lemma output_step_ok tr c gs evs :
  state_ok tr c -> Forall (goroutine_ok tr) gs -> Forall (output_ok tr) evs -> step_ok tr (c, gs, evs).
Proof.
  intros Hc Hg Ho. unfold step_ok. split_and!; [by apply state_ok_mono|..].
  - eapply Forall_impl; [exact Hg|]. intros g. apply goroutine_ok_mono.
  - eapply Forall_impl; [exact Ho|]. intros ev. apply output_ok_mono.
Qed.

Lemma send_step_ok max ch tr c g res :
  state_ok tr c -> goroutine_ok tr g -> step max ch c g = Ok res ->
  match g with
  | Moniter | Moniter_loop | Moniter_accept | Serving | Serving_loop | Serving_accept
  | Serve _ _ | Serve_read _ _ | Serve_send _ _ _ | Serve_register _ _ _ | Send | Send_recv | Send_pick _ | Send_lookup _ _ | Send_connect _ _
  | Send_dialled _ _ _ | Send_again _ _ | Send_write _ _ _ | Send_adjust _ | Send_stuck => step_ok tr res
  | _ => True
  end.
Proof.
  intros Hc Hg. destruct g; try done; simpl in Hg; cbn [step]; unfold listening, accepting, loop, locked, to, emit.
  1-6: repeat case_match; intros [= <-]; by quiet Hc.
  - case_match; intros [= <-]; by quiet Hc.
  - by apply serve_read_ok.
  - eapply (send_SendQue_ok _ _ Hc); [left; by exists conn|by left|].
    rewrite Forall_singleton. simpl. by exists m.
  - case_match; intros [= <-]. unfold step_ok. rewrite app_nil_r.
    split_and!; [by apply serve_register_ok|by rewrite Forall_singleton|constructor].
  - case_match; intros [= <-]; by quiet Hc.
  - repeat case_match; intros [= <-]. apply (receive_ok _ _ Hc). left. eauto.
  - repeat case_match; intros [= <-]; by quiet Hc.
  - repeat case_match; intros [= <-]; by quiet Hc.
  - repeat case_match; intros [= <-]; by quiet Hc.
  - repeat case_match; intros [= <-]; by quiet Hc.
  - repeat case_match; intros [= <-]; by quiet Hc.
  - intros [= <-]. apply output_step_ok; [done|by rewrite Forall_singleton|].
    destruct (write_ok ch); [|constructor]. rewrite Forall_singleton. simpl. by exists m.
  - by apply (send_AdjustCh_ok _ _ Hc _ _ [Send]); [intros ?|rewrite Forall_singleton].
Qed.

Lemma resp_step_ok max ch tr c g res :
  state_ok tr c -> goroutine_ok tr g -> step max ch c g = Ok res ->
  match g with
  | Resp | Resp_recv | Resp_lookup _ | Resp_write _ _ | Fail | Fail_recv | Fail_adjust _ | Retry_lock _ | Retry_locked _ | Retry_send _
  | ServeServ _ _ | ServeServ_read _ _ | ServeServ_route _ _ _ | ServeServ_adjust _ _ _ => step_ok tr res
  | _ => True
  end.
Proof.
  intros Hc Hg. destruct g; try done; simpl in Hg; cbn [step]; unfold listening, accepting, loop, locked, to, emit.
  - case_match; intros [= <-]; by quiet Hc.
  - repeat case_match; intros [= <-]. apply (receive_ok _ _ Hc). right. left. eauto.
  - repeat case_match; intros [= <-]; quiet Hc. split; [|done]. split; [done|]. by apply (ok_proxy _ _ Hc).
  - intros [= <-]. apply output_step_ok; [done|by rewrite Forall_singleton|].
    destruct (write_ok ch); [|constructor]. rewrite Forall_singleton. simpl. exists r. by destruct Hg.
  - case_match; intros [= <-]; by quiet Hc.
  - repeat case_match; intros [= <-]. apply (receive_ok _ _ Hc). right. right. eauto.
  - apply (send_AdjustCh_ok _ _ Hc _ _ (Fail :: failed_retry r)); [by intros ?|].
    constructor; [done|by apply failed_retry_ok].
  - repeat case_match; intros [= <-]; by quiet Hc.
  - apply (send_SendQue_ok _ _ Hc _ _ []); [|by right|constructor]. right. by exists r; destruct Hg.
  - apply (send_SendQue_ok _ _ Hc _ _ []); [|by left|constructor]. right. by exists r; destruct Hg.
  - case_match; intros [= <-]; by quiet Hc.
  - repeat case_match; intros [= <-]; try by quiet Hc. unfold step_ok.
    split_and!; [by apply state_ok_mono| |by repeat constructor].
    rewrite Forall_singleton. exists conn. set_solver.
  - destruct (is_final r) eqn:E.
    + intros H. eapply (send_RespQue_ok _ _ Hc r _ [ServeServ_adjust conn s r]); [done|by intros ?| |exact H].
      by rewrite Forall_singleton.
    + intros H. eapply (send_FailQue_ok _ _ Hc r _ [ServeServ conn s]); [done|by intros ?| |exact H].
      by rewrite Forall_singleton.
  - by apply (send_AdjustCh_ok _ _ Hc _ _ [ServeServ conn s]); [intros ?|rewrite Forall_singleton].
Qed.

Lemma sync_step_ok max ch tr c g res :
  state_ok tr c -> goroutine_ok tr g -> step max ch c g = Ok res ->
  match g with
  | Sync _ _ | Sync_read _ _ | Sync_register _ _ _ | Sync_confirm _ _ _ | Sync_check _ _ _ | Sync_connect _ _ _
  | Sync_dialled _ _ _ _ | Sync_status _ _ _ | Sync_adjust _ _ _ | Adjust _
  | Adjust_recv _ | Adjust_apply _ _ => step_ok tr res
  | _ => True
  end.
Proof.
  intros Hc Hg. destruct g; try done; simpl in Hg; cbn [step]; unfold listening, accepting, loop, locked, to, emit.
  - case_match; intros [= <-]; by quiet Hc.
  - by apply sync_read_ok.
  - case_match; intros [= <-]. destruct (sync_fields m c) as [(? & ? & ? & ?) _]. by quiet Hc.
  - intros [= <-]. apply output_step_ok; [done|by rewrite Forall_singleton|].
    destruct (write_ok ch); [|constructor]. by rewrite Forall_singleton.
  - repeat case_match; intros [= <-]; by quiet Hc.
  - repeat case_match; intros [= <-]; by quiet Hc.
  - case_match; intros [= <-]; by quiet Hc.
  - case_match; [done|]. destruct (sync_fields m c) as [_ (? & ? & ? & ?)].
    destruct (sync_status m c) as [c' op]. intros [= <-]. by quiet Hc.
  - by apply (send_AdjustCh_ok _ _ Hc _ _ [Sync conn s]); [intros ?|rewrite Forall_singleton].
  - case_match; intros [= <-]; by quiet Hc.
  - repeat case_match; intros [= <-]; by quiet Hc.
  - repeat case_match; intros [= <-]; subst.
    match goal with E : adjust_apply _ _ _ = _ |- _ => apply adjust_apply_fields in E as (w & ->) end.
    by quiet Hc.
Qed.

Lemma step_preserves max ch tr c g res :
  state_ok tr c -> goroutine_ok tr g -> step max ch c g = Ok res -> step_ok tr res.
Proof.
  intros Hc Hg E. pose proof (send_step_ok max ch tr c g res Hc Hg E).
  pose proof (resp_step_ok max ch tr c g res Hc Hg E). pose proof (sync_step_ok max ch tr c g res Hc Hg E).
  by destruct g.
Qed.

(** The invariant of the manager. *)
Definition manager_ok (m : manager) : Prop :=
  state_ok (trace m) (cu m) /\ Forall (goroutine_ok (trace m)) (threads m) /\ Forall (output_ok (trace m)) (trace m).

Lemma mstep_ok max m m' : manager_ok m -> mstep max m m' -> manager_ok m'.
Proof.
  intros (Hc & Hg & Ho) Hs. destruct Hs as [ch c gs1 g gs2 tr c' gs evs _ E|c gs tr c' E|c gs tr md];
    simpl in *.
  - apply Forall_app in Hg as [Hg1 Hg2]. apply Forall_cons in Hg2 as [Hg Hg2].
    destruct (step_preserves max ch tr c g _ Hc Hg E) as (Hc' & Hgs & Ho').
    split_and!; simpl; [done| |].
    + rewrite !Forall_app. split_and!; [|done|]; eapply Forall_impl; try done; intros; by apply goroutine_ok_mono.
    + rewrite Forall_app. split; [|done]. eapply Forall_impl; [done|]. intros. by apply output_ok_mono.
  - unfold Stop in E. case_match; [done|]. injection E as <-. split_and!; simpl; try done.
    destruct Hc. by split.
  - split_and!; simpl; try done. destruct Hc. by split.
Qed.

Lemma start_ok a b : manager_ok (Start a b).
Proof.
  split_and!; simpl; [split; simpl; try constructor; by intros ? ? ?%lookup_empty_Some|by repeat constructor|constructor].
Qed.

Lemma reachable_ok max a b m : reachable max (Start a b) m -> manager_ok m.
Proof.
  intros H. apply (rtc_ind_r (fun m => manager_ok m) (Start a b)) in H; [done|apply start_ok|].
  intros y z _ Hs Hy. by eapply mstep_ok.
Qed.

#[export] Instance reachable_preorder max : PreOrder (reachable max).
Proof. exact rtc_po. Qed.

(** ** A scheduler to run the model *)

(** What the schedule decides: the goroutine by position, and the choices;
    [Weights] is iterated in the order of the map. *)
Record turn := mkTurn {
  pos : nat;
  t_accept : option (Z * list byte);
  t_dial : option Z;
  t_stream : list byte
}.

Definition turn_choice (t : turn) (c : Cluster) : choice :=
  mkChoice true (t_accept t) 0 (fun _ => map_to_list (Weights c)) (t_dial t) (t_stream t) true.

Definition run_turn (max : Z) (m : manager) (t : turn) : option manager :=
  g ← threads m !! pos t;
  match step max (turn_choice t (cu m)) (cu m) g with
  | Ok (c, gs, evs) =>
      Some (mkManager c (take (pos t) (threads m) ++ gs ++ drop (S (pos t)) (threads m)) (trace m ++ evs))
  | _ => None
  end.

Fixpoint run (max : Z) (ts : list turn) (m : manager) : option manager :=
  match ts with
  | [] => Some m
  | t :: ts => m ← run_turn max m t; run max ts m
  end.

Lemma run_turn_mstep max m t m' : run_turn max m t = Some m' -> mstep max m m'.
Proof.
  destruct m as [c gs tr]. unfold run_turn. simpl. intros H.
  destruct (gs !! pos t) as [g|] eqn:Eg; simpl in H; [|done].
  destruct (step max (turn_choice t c) c g) as [[[c' gs'] evs]| |] eqn:Es; simplify_eq/=.
  rewrite <- (take_drop_middle gs (pos t) g Eg) at 1. eapply (m_run max (turn_choice t c)); [intros n; reflexivity|exact Es].
Qed.

Lemma run_reachable max ts m m' : run max ts m = Some m' -> reachable max m m'.
Proof.
  revert m. induction ts as [|t ts IH]; intros m H; simpl in H; [by simplify_eq; constructor|].
  destruct (run_turn max m t) as [m1|] eqn:E; [|done]. simpl in H.
  eapply rtc_l; [by apply run_turn_mstep in E|by apply IH].
Qed.

(** ** The deadlock of a retry *)

(** No goroutine is at a point from which [procSendQue] takes a request
    without the mutex. *)
Definition past_receive (g : goroutine) : bool :=
  match g with
  | Serving | Send | Send_recv | Send_again _ _ | Send_write _ _ _ | Send_adjust _ => false
  | _ => true
  end.

Definition deadlocked (m : manager) : Prop :=
  mu (cu m) = true /\ (que_cap <= length (SendQue (cu m)))%nat /\ Forall (fun g => past_receive g = true) (threads m).

Definition is_to_node (ev : event) : bool := match ev with ToNode _ _ => true | _ => false end.

(** The requests written to nodes. *)
Definition to_nodes (tr : list event) : list event := filter (fun ev => is_to_node ev = true) tr.

(** Nothing moves the mutex, the queue or the nodes any more. *)
Lemma deadlocked_step max ch c g c' gs evs :
  mu c = true -> (que_cap <= length (SendQue c))%nat -> past_receive g = true ->
  step max ch c g = Ok (c', gs, evs) ->
  mu c' = true /\ SendQue c' = SendQue c /\ Forall (fun g => past_receive g = true) gs /\ to_nodes evs = [].
Proof.
  intros Hmu Hq Hg.
  assert ((que_cap <=? length (SendQue c))%nat = true) as Hfull by by apply Nat.leb_le.
  assert (Forall (fun g => past_receive g = true) (Fail :: match g with Fail_adjust r => failed_retry r | _ => [] end)) as Hf.
  { constructor; [done|]. destruct g; try constructor.
    destruct (failed_retry_cases r) as [E|[E|E]]; rewrite E; by repeat constructor. }
  destruct g; try done; cbn [step]; unfold listening, accepting, loop, locked, send_SendQue, send_RespQue, send_FailQue, send_AdjustCh,
    serve_read, sync_read, to, emit; rewrite ?Hmu, ?Hfull; repeat case_match; intros [= <- <- <-];
    (split_and!; [done|done|by first [exact Hf|repeat constructor]|by try (destruct (write_ok ch))]).
Qed.

Lemma deadlocked_mstep max m m' :
  deadlocked m -> mstep max m m' ->
  deadlocked m' /\ SendQue (cu m') = SendQue (cu m) /\ to_nodes (trace m') = to_nodes (trace m).
Proof.
  intros (Hmu & Hq & Hg) Hs.
  destruct Hs as [ch c gs1 g gs2 tr c' gs evs _ E|c gs tr c' E|c gs tr md]; simpl in *.
  - apply Forall_app in Hg as [Hg1 Hg2]. apply Forall_cons in Hg2 as [Hg Hg2].
    destruct (deadlocked_step max ch c g c' gs evs Hmu Hq Hg E) as (Hmu' & Hq' & Hgs & Ho).
    unfold deadlocked, to_nodes in *. simpl. rewrite Hmu', Hq', filter_app, Ho, app_nil_r, !Forall_app. done.
  - unfold Stop in E. case_match; [done|]. by injection E as <-.
  - done.
Qed.

Lemma deadlocked_forever max m m' :
  deadlocked m -> reachable max m m' ->
  deadlocked m' /\ SendQue (cu m') = SendQue (cu m) /\ to_nodes (trace m') = to_nodes (trace m).
Proof.
  intros Hd H. apply (rtc_ind_r (fun m' => deadlocked m' /\ SendQue (cu m') = SendQue (cu m)
    /\ to_nodes (trace m') = to_nodes (trace m)) m) in H; [done|done|].
  intros y z _ Hs (Hy & E1 & E2). destruct (deadlocked_mstep max y z Hy Hs) as (? & -> & ->). done.
Qed.

(** ** Properties *)

(** C14. In every interleaving of the manager's goroutines, with any
    connections and stops: what it writes to a node is the packed form of a
    request it read from the proxy, or of the request of a response with a
    retried code; what it writes to the proxy is the packed form of a final
    response read from a node, on a connection on which the clerk of that
    response sent a request. *)
Theorem manager_forwards max a b m :
  reachable max (Start a b) m ->
  (forall conn bs, ToNode conn bs ∈ trace m ->
     exists q, MsgProcess.ClientMsgToBit (IClient q) = Ok bs
       /\ ((exists from, Received from q ∈ trace m)
           \/ exists r from, Answered from r ∈ trace m /\ q = MsgProcess.RespToReq r
                /\ (ServerResponse.Err r = ErrMap WrongLeader \/ ServerResponse.Err r = ErrMap HandleTimeout)))
  /\ (forall conn bs, ToProxy conn bs ∈ trace m ->
     exists r from q, MsgProcess.RespToBinary r = Ok bs /\ Answered from r ∈ trace m
       /\ (ServerResponse.Err r = ErrMap OK \/ ServerResponse.Err r = ErrMap NoKey)
       /\ Received conn q ∈ trace m /\ ClientMessage.ClerkId q = ServerResponse.ClerkId r).
Proof.
  intros (_ & _ & Ho)%reachable_ok. rewrite Forall_forall in Ho. split; intros conn bs H%Ho; simpl in H.
  - destruct H as (q & [Hq|(r & [from Hr] & Hret & ->)] & E); eexists; (split; [done|]); [left; exact Hq|right].
    exists r, from. split_and!; [done|done|]. unfold failed_retry in Hret.
    repeat match type of Hret with context [?x =? ?y] => destruct (Z.eqb_spec x y) end; auto; done.
  - destruct H as (r & [[from Hr] Hf] & (q & Hq & Hc) & E). exists r, from, q. split_and!; try done.
    unfold is_final in Hf. apply orb_true_iff in Hf as [?%Z.eqb_eq|?%Z.eqb_eq]; auto.
Qed.

(** A PUT request and a status message, as bytes. *)
Definition sample_put : list byte :=
  match MsgProcess.OpToBinary (mkOp PUT 7 101 [x6b] [x76]) with Ok bs => bs | _ => [] end.

Definition sample_register : list byte :=
  match SyncMsgPack.PackAddr (SyncMsgPack.mk 0 false 9 5 5000
    [x31; x32; x37; x2e; x30; x2e; x30; x2e; x31]) with Ok bs => bs | _ => [] end.

(** A node that answers with the code WrongLeader. *)
Definition wrong_leader_answer : list byte :=
  match MsgProcess.RespToBinary (ServerResponse.mk PUT 2 7 101 5 (ErrMap WrongLeader) [x01; x02])
  with Ok bs => bs | _ => [] end.

Definition at_pos (n : nat) : turn := mkTurn n None None [].

(** The listeners start, a proxy connects as 1 and a node as 2: [procSendQue]
    is goroutine 0, [procRespQue] 1, [procFailedReq] 2, [serve] 4 and
    [handleSync] 7. *)
Definition boot (requests status : list byte) : list turn :=
  [at_pos 0; at_pos 4; at_pos 3; mkTurn 3 (Some (1, requests)) None [];
   at_pos 6; mkTurn 6 (Some (2, status)) None []].

(** Node 5 registers and answers; its failed answer is on its way. *)
Definition registration : list turn :=
  [at_pos 7; at_pos 7; at_pos 7; at_pos 7; at_pos 7; mkTurn 7 None (Some 9) []; mkTurn 7 None None wrong_leader_answer;
   at_pos 8; at_pos 8; at_pos 8; at_pos 2; at_pos 2; at_pos 2].

(** One request taken by [procSendQue], one hundred left in the queue, then
    the retry takes the mutex. *)
Definition deadlock_schedule : list turn :=
  boot (concat (replicate (S que_cap) sample_put)) sample_register
  ++ registration ++ [at_pos 5; at_pos 5; at_pos 5; at_pos 5; at_pos 0; at_pos 0]
  ++ concat (replicate que_cap [at_pos 5; at_pos 5; at_pos 5; at_pos 5]) ++ [at_pos 3].

Definition is_deadlocked (m : manager) : bool :=
  mu (cu m) && (que_cap <=? length (SendQue (cu m)))%nat && forallb past_receive (threads m).

Lemma is_deadlocked_sound m : is_deadlocked m = true -> deadlocked m.
Proof.
  unfold is_deadlocked. rewrite !andb_true_iff. intros [[Hmu Hq%Nat.leb_le] H].
  split_and!; [done|done|]. apply Forall_forall. intros g Hg. rewrite forallb_forall in H.
  apply H. by apply list_elem_of_In.
Qed.

(** A leader registers, a request is forwarded to it and its answer returned. *)
Definition leader_register : list byte :=
  match SyncMsgPack.PackAddr (SyncMsgPack.mk 0 true 1 5 5000 [x61]) with Ok bs => bs | _ => [] end.

Definition ok_answer : list byte :=
  match MsgProcess.RespToBinary (ServerResponse.mk PUT 2 7 101 5 (ErrMap OK) [x01; x02]) with Ok bs => bs | _ => [] end.

Definition forward_schedule : list turn :=
  boot sample_put leader_register
  ++ [at_pos 7; at_pos 7; at_pos 7; at_pos 7; at_pos 7; mkTurn 7 None (Some 9) []; mkTurn 7 None None ok_answer;
      at_pos 4; at_pos 4; at_pos 4; at_pos 4; at_pos 0; at_pos 0; at_pos 0; at_pos 0; at_pos 0; at_pos 0;
      at_pos 8; at_pos 8; at_pos 8; at_pos 8; at_pos 1; at_pos 1; at_pos 1; at_pos 1].

Definition forwarded : manager := default (Start [] []) (run 0 forward_schedule (Start [] [])).

Lemma forwarded_reachable : reachable 0 (Start [] []) forwarded.
Proof. apply (run_reachable 0 forward_schedule). vm_compute. reflexivity. Qed.

Lemma manager_forwards_witness :
  ToNode 9 sample_put ∈ trace forwarded /\ ToProxy 1 ok_answer ∈ trace forwarded
  /\ exists r from q, MsgProcess.RespToBinary r = Ok ok_answer /\ Answered from r ∈ trace forwarded
      /\ (ServerResponse.Err r = ErrMap OK \/ ServerResponse.Err r = ErrMap NoKey)
      /\ Received 1 q ∈ trace forwarded /\ ClientMessage.ClerkId q = ServerResponse.ClerkId r.
Proof.
  assert (ToProxy 1 ok_answer ∈ trace forwarded) as Hp by (vm_compute; repeat (apply list_elem_of_here || apply list_elem_of_further)).
  split; [vm_compute; repeat (apply list_elem_of_here || apply list_elem_of_further)|].
  split; [exact Hp|]. exact (proj2 (manager_forwards 0 [] [] forwarded forwarded_reachable) 1 ok_answer Hp).
Defined.

(** A reachable state in which the manager is deadlocked: a goroutine that
    retries a request whose leader changed waits for room in the full request
    queue while it holds the mutex, and the only goroutine that empties the
    queue waits for the mutex.  Whatever happens next, the hundred queued
    requests stay where they are and nothing is sent to a node again. *)
Theorem retry_deadlock :
  exists m, reachable 0 (Start [] []) m /\ length (SendQue (cu m)) = que_cap
    /\ forall m', reachable 0 m m' ->
       SendQue (cu m') = SendQue (cu m) /\ to_nodes (trace m') = to_nodes (trace m).
Proof.
  assert (match run 0 deadlock_schedule (Start [] []) with
          | Some m => is_deadlocked m && (length (SendQue (cu m)) =? que_cap)%nat
          | None => false
          end = true) as H by (vm_compute; reflexivity).
  destruct (run 0 deadlock_schedule (Start [] [])) as [m|] eqn:E; [|discriminate H].
  apply run_reachable in E. apply andb_true_iff in H as [Hd%is_deadlocked_sound Hl%Nat.eqb_eq].
  exists m. split; [exact E|split; [exact Hl|]].
  intros m' Hr. exact (proj2 (deadlocked_forever 0 m m' Hd Hr)).
Qed.

(** A failed response with the code LeaderChanged or ChanClosed starts no
    retry, and no answer goes to the client: the request is dropped. *)
Theorem failed_request_dropped max ch c r c' gs evs :
  ServerResponse.Err r = ErrMap LeaderChanged \/ ServerResponse.Err r = ErrMap ChanClosed ->
  step max ch c (Fail_adjust r) = Ok (c', gs, evs) ->
  gs = [Fail] /\ evs = [] /\ SendQue c' = SendQue c /\ RespQue c' = RespQue c.
Proof.
  intros Hr. cbn [step]. unfold send_AdjustCh, to. case_match; [done|]. intros [= <- <- <-].
  unfold failed_retry. destruct Hr as [-> | ->]; done.
Qed.

(** A request whose write fails is neither sent again nor answered, and the
    broken connection stays in use for its node. *)
Theorem failed_write_loses_request max ch c m id conn :
  write_ok ch = false -> step max ch c (Send_write m id conn) = Ok (c, [Send_adjust id], []).
Proof. intros Hw. cbn [step]. by rewrite Hw. Qed.

(** A manager that cannot open a listener does not return the error: the
    deferred function closes the nil listener first. *)
Theorem listen_error_panics max ch c :
  listen ch = false -> step max ch c Moniter = Panic /\ step max ch c Serving = Panic.
Proof. cbn [step]. unfold listening. by intros ->. Qed.

(** [Stop] crashes an idle manager: each of the three queue goroutines waits
    in a receive, gets the nil of the closed channel and dereferences it. *)
Theorem Stop_crashes_idle max ch c c' :
  Stop c = Ok c' -> SendQue c = [] -> RespQue c = [] -> FailQue c = [] ->
  (forall g, g ∈ [Send_recv; Resp_recv; Fail_recv] ->
    step max ch c g = Err ErrBlocked /\ step max ch c' g = Panic).
Proof.
  unfold Stop. destruct (ques_closed c) eqn:Hq; [done|]. intros [= <-] Hs Hr Hf g Hg.
  rewrite !elem_of_cons, elem_of_nil in Hg. destruct Hg as [->|[->|[->|[]]]]; cbn [step]; simpl; by rewrite ?Hs, ?Hr, ?Hf, ?Hq.
Qed.

End ClusterSpec.
