(* ===== verification/ClusterWeights.v ===== *)
(** * ClusterWeights: choosing a node, and the weights behind the choice

    [pick] on the modes that return, the weights as sums of adjustments, and
    what [balanceWeight] does to the distance between two nodes. *)

From S2P Require Import Prelude Binary Types Wire Cluster ClusterSpec.

Module ClusterWeights.
Import Common Cluster.

(** ** Sums *)

Definition sum_weights (order : list (Z * Z)) : Z := foldr (fun iv acc => iv.2 + acc) 0 order.

Arguments sum_weights : simpl never.

Lemma sum_weights_cons iv order : sum_weights (iv :: order) = iv.2 + sum_weights order.
Proof. done. Qed.

Lemma wrap_s_add_l w x y : 0 < w -> wrap_s w (wrap_s w x + y) = wrap_s w (x + y).
Proof.
  intros Hw. unfold wrap_s. f_equal.
  replace ((x + 2 ^ (w - 1)) mod 2 ^ w - 2 ^ (w - 1) + y + 2 ^ (w - 1)) with ((x + 2 ^ (w - 1)) mod 2 ^ w + y) by lia.
  rewrite Zplus_mod_idemp_l. f_equal. lia.
Qed.

(** The running sum wraps once, whatever the order. *)
Lemma total_weight_sum order : total_weight order = wrap_s 32 (sum_weights order).
Proof.
  unfold total_weight.
  assert (forall acc, fold_left (fun acc iv => wrap_s 32 (acc + iv.2)) order (wrap_s 32 acc)
    = wrap_s 32 (acc + sum_weights order)) as H; [|exact (H 0)].
  induction order as [|iv order IH]; intros acc; simpl.
  - by rewrite Z.add_0_r.
  - rewrite wrap_s_add_l, IH by lia. by rewrite sum_weights_cons, Z.add_assoc.
Qed.

Lemma sum_weights_perm o1 o2 : o1 ≡ₚ o2 -> sum_weights o1 = sum_weights o2.
Proof. induction 1; rewrite ?sum_weights_cons in *; lia. Qed.

(** Weights the choice is meant for: none negative, their sum an [int32]. *)
Definition weights_ok (c : Cluster) : Prop :=
  map_Forall (fun _ v => 0 <= v) (Weights c) /\ 0 < sum_weights (map_to_list (Weights c)) < 2 ^ 31.

Lemma order_nonneg c order :
  weights_ok c -> order ≡ₚ map_to_list (Weights c) -> Forall (fun iv : Z * Z => 0 <= iv.2) order.
Proof.
  intros [Hpos _] Hp. rewrite Hp. apply Forall_forall. intros [i v] Hin%elem_of_map_to_list. by apply (Hpos i v).
Qed.

Lemma sum_weights_nonneg order : Forall (fun iv : Z * Z => 0 <= iv.2) order -> 0 <= sum_weights order.
Proof. induction 1; rewrite ?sum_weights_cons; [done|lia]. Qed.

(** ** The weighted choice *)

(** The first position whose running sum reaches the draw. *)
Lemma pick_weight_spec order picked dflt :
  Forall (fun iv : Z * Z => 0 <= iv.2) order -> 0 <= picked < sum_weights order -> sum_weights order < 2 ^ 31 ->
  exists pre id v post, order = pre ++ (id, v) :: post /\ pick_weight order picked dflt = id
    /\ picked <= sum_weights pre + v /\ (pre = [] \/ sum_weights pre < picked).
Proof.
  intros Hpos. revert picked. induction Hpos as [|[id v] order Hv Hpos IH]; intros picked Hp Hs.
  { change (sum_weights []) with 0 in Hp. lia. }
  rewrite sum_weights_cons in *. simpl in Hp, Hs, Hv. simpl.
  pose proof (sum_weights_nonneg order Hpos).
  rewrite wrap_s_id by (unfold in_s; lia). destruct (Z.leb_spec (picked - v) 0).
  - exists [], id, v, order. change (sum_weights []) with 0. split_and!; [done|done|lia|by left].
  - destruct (IH (picked - v)) as (pre & id' & v' & post & -> & E & H1 & H2); [lia..|].
    exists ((id, v) :: pre), id', v', post. rewrite E, sum_weights_cons. simpl.
    split_and!; [done|done|lia|]. right. destruct H2 as [->|H2]; [change (sum_weights []) with 0|]; lia.
Qed.

(** ** The random choice *)

Lemma random_pass_ids leader order randidx sel r s :
  random_pass leader order randidx sel = (r, s) -> s = sel \/ s ∈ order.*1.
Proof.
  revert randidx sel. induction order as [|[id v] order IH]; intros randidx sel H; simpl in H; [by left; simplify_eq|].
  repeat case_match; simplify_eq; [apply IH in H; set_solver|set_solver|apply IH in H; set_solver].
Qed.

Lemma random_pass_bounds leader order randidx sel r s :
  0 < randidx -> random_pass leader order randidx sel = (r, s) -> 0 <= r <= randidx.
Proof.
  revert randidx sel. induction order as [|[id v] order IH]; intros randidx sel H0 H; simpl in H; [simplify_eq; lia|].
  destruct (id =? leader); [by eapply IH|]. destruct (Z.ltb_spec (randidx - 1) 1); [simplify_eq; lia|].
  apply IH in H; lia.
Qed.

Lemma random_pass_lowers leader order randidx sel r s :
  0 < randidx -> random_pass leader order randidx sel = (r, s) ->
  (exists id, id ∈ order.*1 /\ id <> leader) -> 0 <= r < randidx.
Proof.
  revert randidx sel. induction order as [|[id v] order IH]; intros randidx sel H0 H (x & Hin & Hx); simpl in H;
    [set_solver|].
  destruct (Z.eqb_spec id leader).
  - eapply IH; [done|done|]. exists x. set_solver.
  - destruct (Z.ltb_spec (randidx - 1) 1); [simplify_eq; lia|].
    apply random_pass_bounds in H; lia.
Qed.

(** A second node makes every pass lower the index. *)
Lemma two_nodes (l : list (Z * Z)) leader :
  NoDup l.*1 -> (2 <= length l)%nat -> exists id, id ∈ l.*1 /\ id <> leader.
Proof.
  intros Hnd Hl. destruct l as [|[a va] [|[b vb] l]]; simpl in *; [lia..|].
  destruct (decide (a = leader)) as [->|Hne]; [exists b|exists a]; split; try set_solver.
  apply NoDup_cons in Hnd as [Hnd _]. set_solver.
Qed.

Lemma pick_random_ids fuel leader orders randidx sel (ids : Z -> Prop) :
  randidx <= Z.of_nat fuel -> ids sel ->
  (forall n id, id ∈ (orders n).*1 -> ids id) ->
  (0 < randidx -> forall n, exists id, id ∈ (orders n).*1 /\ id <> leader) ->
  exists id, pick_random fuel leader orders randidx sel = Ok id /\ ids id.
Proof.
  revert randidx sel. induction fuel as [|fuel IH]; intros randidx sel Hf Hsel Hids Htwo; simpl;
    destruct (Z.leb_spec randidx 0); [by eauto|lia|by eauto|].
  destruct (random_pass leader (orders fuel) randidx sel) as [r s] eqn:E.
  pose proof (random_pass_lowers _ _ _ _ _ _ H E (Htwo H fuel)).
  apply IH; [lia| |done|auto]. apply random_pass_ids in E as [->|Hin]; eauto.
Qed.

(** ** Adjustments *)

(** The loop of [adjustWeight] on a sequence of adjustments. *)
Fixpoint adjust_all (ops : list AdjustOp) (count : Z) (c : Cluster) : go (Cluster * Z) :=
  match ops with
  | [] => Ok (c, count)
  | op :: ops => '(c, count) ← adjust_apply (wrap_s 32 (count + 1)) op c; adjust_all ops count c
  end.

(** The total a node was adjusted by. *)
Definition total_for (id : Z) (ops : list AdjustOp) : Z :=
  foldr (fun op acc => (if Id op =? id then Value op else 0) + acc) 0 ops.

(** The weights as a function of the adjustments so far. *)
Definition spec_weight (ops : list AdjustOp) (id : Z) : option Z :=
  if bool_decide (id ∈ map Id ops) then Some (wrap_s 32 (MeanWeight + total_for id ops)) else None.

Lemma total_for_snoc id ops op :
  total_for id (ops ++ [op]) = total_for id ops + (if Id op =? id then Value op else 0).
Proof. induction ops as [|x ops IH]; unfold total_for in *; simpl; [lia|]. rewrite IH. lia. Qed.

Lemma total_for_absent id ops : id ∉ map Id ops -> total_for id ops = 0.
Proof.
  induction ops as [|x ops IH]; intros H; [done|]. simpl in H. apply not_elem_of_cons in H as [Hne H].
  unfold total_for in *. simpl. rewrite IH by done. destruct (Z.eqb_spec (Id x) id); [congruence|lia].
Qed.

Lemma adjust_apply_small count op c :
  count <= MaxAdjustTime ->
  adjust_apply count op c =
  Ok (set_Weights (<[Id op := wrap_s 32 (default MeanWeight (Weights c !! Id op) + Value op)]> (Weights c)) c, count).
Proof.
  intros H. unfold adjust_apply. destruct (Z.ltb_spec MaxAdjustTime count); [lia|]. simpl.
  by destruct (Weights c !! Id op).
Qed.

(** One more adjustment. *)
Lemma spec_weight_step ops op (w : gmap Z Z) id :
  (forall id, w !! id = spec_weight ops id) ->
  <[Id op := wrap_s 32 (default MeanWeight (w !! Id op) + Value op)]> w !! id = spec_weight (ops ++ [op]) id.
Proof.
  intros Hw. unfold spec_weight. rewrite map_app, total_for_snoc. simpl.
  destruct (Z.eqb_spec (Id op) id) as [<-|Hne].
  - rewrite lookup_insert_eq, Hw. rewrite (bool_decide_true (Id op ∈ map Id ops ++ [Id op])) by set_solver.
    f_equal. unfold spec_weight. case_bool_decide as Hin; simpl; [by rewrite wrap_s_add_l, Z.add_assoc by lia|].
    by rewrite total_for_absent.
  - rewrite lookup_insert_ne, Hw by done. unfold spec_weight. rewrite Z.add_0_r.
    do 2 case_bool_decide; (done || set_solver).
Qed.

Lemma adjust_all_spec ops done_ops c :
  (forall id, Weights c !! id = spec_weight done_ops id) ->
  zlen (done_ops ++ ops) <= MaxAdjustTime ->
  exists c', adjust_all ops (zlen done_ops) c = Ok (c', zlen (done_ops ++ ops))
    /\ forall id, Weights c' !! id = spec_weight (done_ops ++ ops) id.
Proof.
  revert done_ops c. induction ops as [|op ops IH]; intros done_ops c Hw Hl; simpl.
  { exists c. by rewrite app_nil_r. }
  rewrite zlen_app, zlen_cons in Hl. pose proof (zlen_nonneg done_ops). pose proof (zlen_nonneg ops).
  unfold MaxAdjustTime in *.
  rewrite wrap_s_id by (unfold in_s; lia). rewrite adjust_apply_small by (unfold MaxAdjustTime; lia). go_step.
  destruct (IH (done_ops ++ [op])
    (set_Weights (<[Id op := wrap_s 32 (default MeanWeight (Weights c !! Id op) + Value op)]> (Weights c)) c))
    as (c' & E & Hc').
  - intros id. by apply spec_weight_step.
  - rewrite <- app_assoc. simpl. rewrite zlen_app, zlen_cons. lia.
  - rewrite zlen_app, zlen_cons, zlen_nil in E. rewrite <- app_assoc in *. simpl in *. by exists c'.
Qed.

(** ** Balancing *)

(** Half of a larger distance to the mean, truncated. *)
Lemma quot2_spread x y : y <= x -> x - y - 2 <= 2 * (Z.quot x 2 - Z.quot y 2).
Proof.
  intros. pose proof (Z.quot_rem' x 2) as Hx. pose proof (Z.quot_rem' y 2) as Hy.
  pose proof (Z.rem_bound_abs x 2). pose proof (Z.rem_bound_abs y 2). lia.
Qed.

Lemma balanced_exact avg v :
  0 <= avg <= 1000000000 -> 0 <= v <= 1000000000 ->
  balanced avg v = v + (MeanWeight - avg) + Z.quot (v - avg) 2.
Proof.
  intros Ha Hv. unfold balanced, MeanWeight.
  pose proof (Z.quot_rem' (v - avg) 2) as Hq. pose proof (Z.rem_bound_abs (v - avg) 2).
  rewrite (wrap_s_id 32 (10000000 - avg)) by (unfold in_s; lia).
  rewrite (wrap_s_id 32 (v + (10000000 - avg))) by (unfold in_s; lia).
  replace (v + (10000000 - avg) - 10000000) with (v - avg) by lia.
  rewrite (wrap_s_id 32 (v - avg)) by (unfold in_s; lia). apply wrap_s_id; [lia|]. unfold in_s. lia.
Qed.

(** A weight is at most the sum. *)
Lemma weight_le_sum order id v :
  Forall (fun iv : Z * Z => 0 <= iv.2) order -> (id, v) ∈ order -> 0 <= v <= sum_weights order.
Proof.
  induction 1 as [|iv order Hv Hpos IH]; intros Hin; [set_solver|]. rewrite sum_weights_cons.
  pose proof (sum_weights_nonneg order Hpos).
  apply elem_of_cons in Hin as [<-|Hin]; [simpl in *; lia|]. specialize (IH Hin). lia.
Qed.

Lemma average_range c :
  map_Forall (fun _ v => 0 <= v) (Weights c) -> Weights c <> ∅ -> zlen (map_to_list (Weights c)) < 2 ^ 31 ->
  sum_weights (map_to_list (Weights c)) <= 1000000000 ->
  exists avg, balanceWeight c = Ok (set_Weights (balanced avg <$> Weights c) c) /\ 0 <= avg <= 1000000000.
Proof.
  intros Hpos Hne Hlen Hsum. set (order := map_to_list (Weights c)) in *.
  assert (Forall (fun iv : Z * Z => 0 <= iv.2) order) as HF.
  { apply Forall_forall. intros [i v] Hin%elem_of_map_to_list. by apply (Hpos i v). }
  pose proof (sum_weights_nonneg order HF) as H0.
  assert (0 < zlen order) as Hn.
  { destruct order as [|x o] eqn:E; [|rewrite zlen_cons; pose proof (zlen_nonneg o); lia].
    exfalso. apply Hne. by apply map_to_list_empty_iff. }
  unfold balanceWeight. fold order. rewrite wrap_s_id by (unfold in_s; lia).
  destruct (Z.eqb_spec (zlen order) 0); [lia|]. eexists. split; [done|].
  rewrite total_weight_sum, (wrap_s_id 32 (sum_weights order)) by (unfold in_s; lia).
  assert (0 <= Z.quot (sum_weights order) (zlen order) <= 1000000000) as Hq.
  { split; [apply Z.quot_pos; lia|]. rewrite Z.quot_div_nonneg by lia.
    pose proof (Z.div_le_upper_bound (sum_weights order) (zlen order) 1000000000). nia. }
  rewrite wrap_s_id; [done|lia|unfold in_s; lia].
Qed.

(** ** Properties *)

(** [pick] returns, whatever order the runtime iterates in: a write goes
    to the leader; a read in mode WEIGHT goes to the node whose interval of
    the running sum of weights holds the draw; a read in mode RANDOM goes to
    the leader or to a node with a weight. *)
Theorem pick_returns_node r orders op c :
  (forall n, orders n ≡ₚ map_to_list (Weights c)) ->
  (op <> GET -> pick r orders op c = Ok (LeaderId c))
  /\ (op = GET -> PickMode c = WEIGHT -> weights_ok c ->
      exists pre id v post, orders O = pre ++ (id, v) :: post /\ pick r orders op c = Ok id
        /\ Weights c !! id = Some v
        /\ (pre = [] \/ sum_weights pre < r mod sum_weights (orders O)) 
        /\ r mod sum_weights (orders O) <= sum_weights pre + v)
  /\ (op = GET -> PickMode c = RANDOM -> Weights c <> ∅ ->
      exists id, pick r orders op c = Ok id /\ (id = LeaderId c \/ is_Some (Weights c !! id))).
Proof.
  intros Ho. unfold pick. split_and!.
  - intros Hop. by destruct (Z.eqb_spec op GET).
  - intros -> Hm Hok. rewrite Hm. simpl. pose proof (sum_weights_perm _ _ (Ho O)) as Hsum.
    pose proof (order_nonneg c _ Hok (Ho O)) as HF. destruct Hok as [_ Hs].
    rewrite total_weight_sum, wrap_s_id by (unfold in_s; lia).
    unfold rand_Intn. destruct (Z.leb_spec (sum_weights (orders O)) 0); [lia|]. go_step.
    pose proof (Z.mod_pos_bound r (sum_weights (orders O))).
    destruct (pick_weight_spec (orders O) (r mod sum_weights (orders O)) (LeaderId c) HF)
      as (pre & id & v & post & E & -> & H1 & H2); [lia..|].
    exists pre, id, v, post. split_and!; [done|done| |done|done].
    apply elem_of_map_to_list. rewrite <- (Ho O), E. set_solver.
  - intros -> Hm Hne. rewrite Hm. simpl.
    assert (0 < zlen (orders O)) as Hpos.
    { unfold zlen. rewrite (Ho O). destruct (map_to_list (Weights c)) eqn:E; [|simpl; lia].
      by apply map_to_list_empty_iff in E. }
    destruct (rand_Intn_pos r (zlen (orders O)) Hpos) as (x & -> & Hx). go_step.
    apply pick_random_ids; [lia|by left| |].
    + intros n id ([i v] & -> & Hin)%list_elem_of_fmap. right. rewrite (Ho n) in Hin.
      apply elem_of_map_to_list in Hin. by eexists.
    + intros H0 n. apply two_nodes; [rewrite (Ho n); apply NoDup_fst_map_to_list|].
      rewrite (Ho n), <- (Ho O). unfold zlen in Hx. lia.
Qed.

Definition sample_cluster : Cluster :=
  set_LeaderId 2 (set_Weights {[1 := 10; 2 := 20; 3 := 5]} (NewCluster [] [])).

Lemma pick_returns_node_witness :
  pick 0 (fun _ => map_to_list (Weights sample_cluster)) PUT sample_cluster = Ok 2.
Proof.
  exact (proj1 (pick_returns_node 0 (fun _ => map_to_list (Weights sample_cluster)) PUT sample_cluster
    (fun _ => Permutation_refl _)) ltac:(discriminate)).
Defined.

(** A read in mode WEIGHT crashes the manager when the [int32] sum of the
    weights is not positive: before any weight is recorded, after enough
    failures, or with so many nodes that the sum overflows. *)
Theorem pick_needs_positive_sum r orders c :
  (forall n, orders n ≡ₚ map_to_list (Weights c)) -> PickMode c = WEIGHT ->
  - 2 ^ 31 <= sum_weights (map_to_list (Weights c)) <= 0
  \/ 2 ^ 31 <= sum_weights (map_to_list (Weights c)) < 2 ^ 32 ->
  pick r orders GET c = Panic.
Proof.
  intros Ho Hm Hs. unfold pick. rewrite Hm. simpl. rewrite total_weight_sum, (sum_weights_perm _ _ (Ho O)).
  assert (wrap_s 32 (sum_weights (map_to_list (Weights c))) <= 0) as Hw.
  { destruct Hs as [Hs|Hs]; [rewrite wrap_s_id by (unfold in_s; lia); lia|].
    unfold wrap_s. rewrite <- (Z_mod_plus_full _ (-1)), Z.mod_small; lia. }
  unfold rand_Intn. by destruct (Z.leb_spec (wrap_s 32 (sum_weights (map_to_list (Weights c)))) 0); [|lia].
Qed.

(** Until the weights are balanced for the first time, the weight of a
    node is the mean weight plus all adjustments made for it, in [int32], and
    a node has a weight exactly when there was an adjustment for it. *)
Theorem weights_are_sums ops c :
  Weights c = ∅ -> zlen ops <= MaxAdjustTime ->
  exists c', adjust_all ops 0 c = Ok (c', zlen ops)
    /\ forall id, Weights c' !! id = spec_weight ops id.
Proof.
  intros Hc Hl. apply (adjust_all_spec ops [] c); [|done]. intros id. by rewrite Hc, lookup_empty.
Qed.

Lemma weights_are_sums_witness :
  exists c', adjust_all [mkAdjust 1 (-1); mkAdjust 2 5; mkAdjust 1 1] 0 (NewCluster [] []) = Ok (c', 3)
    /\ forall id, Weights c' !! id = spec_weight [mkAdjust 1 (-1); mkAdjust 2 5; mkAdjust 1 1] id.
Proof.
  apply (weights_are_sums [mkAdjust 1 (-1); mkAdjust 2 5; mkAdjust 1 1] (NewCluster [] [])).
  - reflexivity.
  - vm_compute. discriminate.
Defined.

(** [balanceWeight] widens the distance between any two nodes to one and
    a half times what it was, up to rounding, where the comment on
    [MaxAdjustTime] announces that the largest distance shrinks. *)
Theorem balance_widens c :
  map_Forall (fun _ v => 0 <= v) (Weights c) -> Weights c <> ∅ -> zlen (map_to_list (Weights c)) < 2 ^ 31 ->
  sum_weights (map_to_list (Weights c)) <= 1000000000 ->
  exists c', balanceWeight c = Ok c' /\ dom (Weights c') = dom (Weights c)
    /\ forall i j vi vj, Weights c !! i = Some vi -> Weights c !! j = Some vj -> vj <= vi ->
       exists vi' vj', Weights c' !! i = Some vi' /\ Weights c' !! j = Some vj'
         /\ 3 * (vi - vj) - 2 <= 2 * (vi' - vj').
Proof.
  intros Hpos Hne Hlen Hsum. destruct (average_range c Hpos Hne Hlen Hsum) as (avg & -> & Ha).
  eexists. split; [done|]. simpl. split; [by rewrite dom_fmap_L|]. intros i j vi vj Hi Hj Hle.
  exists (balanced avg vi), (balanced avg vj). rewrite !lookup_fmap, Hi, Hj. split_and!; [done..|].
  assert (Forall (fun iv : Z * Z => 0 <= iv.2) (map_to_list (Weights c))) as HF.
  { apply Forall_forall. intros [k v] Hin%elem_of_map_to_list. by apply (Hpos k v). }
  assert (forall k v, Weights c !! k = Some v -> 0 <= v <= 1000000000) as Hb.
  { intros k v Hk%elem_of_map_to_list. apply (weight_le_sum _ k v HF) in Hk. lia. }
  pose proof (Hb i vi Hi). pose proof (Hb j vj Hj). rewrite !balanced_exact by lia.
  pose proof (quot2_spread (vi - avg) (vj - avg)). lia.
Qed.

End ClusterWeights.
