(* ===== verification/ClusterSync.v ===== *)
(** * ClusterSync: a node and the cluster manager

    The status protocol between [KVServer.sendStatus] and
    [Cluster.handleSync], and the path of an operation from a node's failed
    response back to a node. *)

From S2P Require Import Prelude Binary Types Wire RaftNode KVServer Cluster.

Module ClusterSync.
Import Common Cluster.

(** ** Status messages *)

(** The integers of a node's status fit their fields. *)
Definition status_wf (kv : KV.KVServer) (commitIndex : Z) : Prop :=
  in_s 64 commitIndex /\ in_s 32 (KV.me kv) /\ in_s 32 (KV.sendPort kv)
  /\ 0 < zlen (KV.ip kv) < 2 ^ 15 - 4.

Definition first_status (kv : KV.KVServer) (state : Z * bool) : SyncMsgPack.SyncMsg :=
  SyncMsgPack.mk state.1 state.2 (zlen (KV.ip kv)) (KV.me kv) (KV.sendPort kv) (KV.ip kv).

Definition next_status (kv : KV.KVServer) (state : Z * bool) : SyncMsgPack.SyncMsg :=
  SyncMsgPack.mk state.1 state.2 0 (KV.me kv) 0 [].

(** The manager's reader on the first message of a node. *)
Lemma sync_read_first kv state conn rest c :
  KV.initialized kv = false -> status_wf kv state.1 ->
  exists bs, KV.sendStatus_message kv state = Ok bs
    /\ sync_read conn (bs ++ rest) c = to c [Sync_register conn rest (first_status kv state)].
Proof.
  intros Hi (H1 & H2 & H3 & H4). destruct state as [ci il]. simpl in H1.
  unfold KV.sendStatus_message. rewrite Hi. simpl (negb false). cbv iota.
  rewrite wrap_s_id by (unfold in_s; lia).
  destruct (sync_addr_roundtrip (first_status kv (ci, il))) as (head & body & h & Hp & Hhl & Hbl & Hh & Hb).
  { split_and!; simpl; try done; unfold in_s; lia. }
  { done. }
  exists (head ++ body). split; [exact Hp|]. unfold sync_read.
  unfold SyncMsgPack.GetHeadLen, SyncMsgPack.headLen in *. unfold zlen in Hhl.
  rewrite <- app_assoc, read_full_app by lia. rewrite Hh.
  assert (SyncMsgPack.IpLen h = zlen (KV.ip kv)) as Hl.
  { unfold SyncMsgPack.UnpackBody in Hb. apply bind_Ok in Hb as (x1 & _ & Hb). apply bind_Ok in Hb as ([x2 x3] & _ & Hb).
    apply bind_Ok in Hb as (x4 & _ & Hb). by injection Hb as _ _ ? _ _ _. }
  rewrite Hl. destruct (Z.ltb_spec 0 (zlen (KV.ip kv))); [|lia].
  simpl in Hbl. rewrite wrap_s_id by (unfold in_s; lia).
  destruct (Z.ltb_spec (zlen (KV.ip kv) + 4) 0); [lia|].
  rewrite read_full_app by (unfold zlen in *; lia). by rewrite Hb.
Qed.

(** And on the later ones. *)
Lemma sync_read_next kv state conn rest c :
  KV.initialized kv = true -> status_wf kv state.1 ->
  exists bs, KV.sendStatus_message kv state = Ok bs
    /\ sync_read conn (bs ++ rest) c = to c [Sync_status conn rest (next_status kv state)].
Proof.
  intros Hi (H1 & H2 & _). destruct state as [ci il]. simpl in H1.
  unfold KV.sendStatus_message. rewrite Hi. simpl (negb true). cbv iota. eexists. split; [done|].
  unfold sync_read. rewrite read_full_app by (by rewrite !length_app, !length_le_put).
  unfold SyncMsgPack.UnpackHead.
  cbn [SyncMsgPack.CommitIndex SyncMsgPack.IsLeader SyncMsgPack.IpLen SyncMsgPack.ServerId].
  rewrite <- (app_nil_r (le_put 4 (KV.me kv))). assert (in_s 16 0) by (unfold in_s; lia). wire_read. done.
Qed.

(** The four bytes the node waits for. *)
Lemma confirm_accepted kv more :
  KV.initialized kv = false ->
  KV.sendStatus_confirm kv (sync_confirm_bytes ++ more) = Ok (KV.set_initialized true kv).
Proof.
  intros Hi. unfold KV.sendStatus_confirm, sync_confirm_bytes. rewrite Hi. simpl (negb false). cbv iota.
  rewrite <- app_assoc, read_full_app by apply length_le_put. go_step.
  rewrite <- (app_nil_r (le_put 4 0)), read_u_put by (unfold in_u; lia). done.
Qed.

(** ** Addresses *)

Lemma parse_printed host port sync_host sync_port :
  Byte.x3a ∉ host -> Byte.x3a ∉ sync_host -> 0 <= port < 2 ^ 31 -> 0 <= sync_port < 2 ^ 31 ->
  KV.parse_addresses (host ++ [Byte.x3a] ++ fmt_d port) (sync_host ++ [Byte.x3a] ++ fmt_d sync_port)
  = Ok (host, port, sync_port).
Proof.
  intros Hh Hs Hp Hsp. unfold KV.parse_addresses.
  assert (forall z, 0 <= z -> Byte.x3a ∉ fmt_d z) as Hno.
  { intros z Hz Hin. destruct (fmt_d_digits z Hz) as (Hd & _). rewrite Forall_forall in Hd.
    apply Hd in Hin as [d Hd']. done. }
  simpl app. rewrite !Split_one by (auto; apply Hno; lia). simpl.
  rewrite !Atoi_fmt_d by lia. simpl. rewrite !wrap_s_id by (unfold in_s; lia). done.
Qed.

(** ** Properties *)

(** C21. A node configured with the address "host:port" announces itself to the
    manager: the manager reads the message whole, records the node's commit
    index and leadership, follows it as leader if it claims to be, and dials
    it at exactly the configured address, on which the node listens; the
    confirmation completes the node's initialisation, and from then on its
    status messages update commit index and leadership and keep the address. *)
Theorem node_registers host port sync_host sync_port kv kv' state state' conn rest c :
  Byte.x3a ∉ host -> Byte.x3a ∉ sync_host -> 0 <= port < 2 ^ 31 -> 0 <= sync_port < 2 ^ 31 ->
  KV.parse_addresses (host ++ [Byte.x3a] ++ fmt_d port) (sync_host ++ [Byte.x3a] ++ fmt_d sync_port)
    = Ok (KV.ip kv, KV.sendPort kv, sync_port) ->
  KV.initialized kv = false -> status_wf kv state.1 -> status_wf kv state'.1 ->
  KV.sendStatus_confirm kv (sync_confirm_bytes) = Ok kv' ->
  exists bs m bs' m', KV.sendStatus_message kv state = Ok bs
    /\ sync_read conn (bs ++ rest) c = Ok (c, [Sync_register conn rest m], [])
    /\ Nodes (sync_register m c) !! KV.me kv = Some (mkNode state.1 state.2 port host)
    /\ LeaderId (sync_register m c) = (if state.2 then KV.me kv else LeaderId c)
    /\ connect_address (KV.me kv) (sync_register m c) = Some (host ++ [Byte.x3a] ++ fmt_d port)
    /\ KV.serve_address kv = host ++ [Byte.x3a] ++ fmt_d port
    /\ KV.initialized kv' = true
    /\ KV.sendStatus_message kv' state' = Ok bs'
    /\ sync_read conn (bs' ++ rest) (sync_register m c) = Ok (sync_register m c, [Sync_status conn rest m'], [])
    /\ Nodes (sync_status m' (sync_register m c)).1 !! KV.me kv = Some (mkNode state'.1 state'.2 port host).
Proof.
  intros Hh Hs Hp Hsp Hparse Hi Hwf Hwf' Hconf. rewrite parse_printed in Hparse by done.
  injection Hparse as Eip Eport. rewrite <- (app_nil_r sync_confirm_bytes), confirm_accepted in Hconf by done.
  injection Hconf as <-.
  destruct (sync_read_first kv state conn rest c Hi Hwf) as (bs & Hbs & Hread).
  destruct (sync_read_next (KV.set_initialized true kv) state' conn rest (sync_register (first_status kv state) c))
    as (bs' & Hbs' & Hread'); [done|done|].
  exists bs, (first_status kv state), bs', (next_status (KV.set_initialized true kv) state').
  assert (Nodes (sync_register (first_status kv state) c) !! KV.me kv = Some (mkNode state.1 state.2 port host)) as Hnode.
  { unfold sync_register. rewrite Eip, Eport. simpl. destruct (state.2); simpl; apply lookup_insert_eq. }
  split_and!; try done.
  - unfold sync_register. simpl. by destruct (state.2).
  - unfold connect_address. rewrite Hnode. done.
  - unfold KV.serve_address. by rewrite <- Eip, <- Eport.
  - unfold sync_status. cbv zeta. set (c1 := sync_register _ _) in *. simpl.
    destruct (state'.2); simpl; rewrite lookup_insert_eq, Hnode; done.
Qed.

Definition sample_node : KV.KVServer := KV.mkKV 3 ∅ ∅ (-1) ∅ 0 false 0 [x61; x62] 5000 ∅.

Lemma node_registers_witness :
  exists bs m, KV.sendStatus_message sample_node (7, true) = Ok bs
    /\ sync_read 4 (bs ++ []) (NewCluster [] []) = Ok (NewCluster [] [], [Sync_register 4 [] m], [])
    /\ connect_address 3 (sync_register m (NewCluster [] [])) = Some ([x61; x62] ++ [Byte.x3a] ++ fmt_d 5000).
Proof.
  destruct (node_registers [x61; x62] 5000 [x61] 5050 sample_node (KV.set_initialized true sample_node)
    (7, true) (9, true) 4 [] (NewCluster [] [])) as (bs & m & bs' & m' & H1 & H2 & _ & _ & H3 & _).
  - by apply (bool_decide_eq_true _).
  - by apply (bool_decide_eq_true _).
  - split; vm_compute; congruence.
  - split; vm_compute; congruence.
  - vm_compute. reflexivity.
  - reflexivity.
  - vm_compute. intuition congruence.
  - vm_compute. intuition congruence.
  - vm_compute. reflexivity.
  - exists bs, m. split; [exact H1|]. split; [exact H2|exact H3].
Defined.

(** ** Transparency *)

Lemma serve_read_packed max m conn rest c :
  ClientMessage.head_wf m -> ClientMessage.DataLen m = zlen (ClientMessage.Data m) ->
  max <= 0 \/ ClientMessage.DataLen m <= max ->
  exists bs, MsgProcess.ClientMsgToBit (IClient m) = Ok bs
    /\ serve_read max conn (bs ++ rest) c = Ok (c, [Serve_send conn rest m], [Received conn m]).
Proof.
  intros Hwf Hlen Hmax. eexists. split; [done|]. unfold serve_read.
  change (Z.to_nat ClientDataPack.GetHeadLen) with 20%nat. rewrite <- !app_assoc.
  destruct (read_full 20 _) as [s|e|] eqn:Hr.
  2,3: rewrite !app_assoc, read_full_app in Hr; [done|]; by rewrite !length_app, !length_le_put.
  apply (ClientDataPack_Unpack_Pack max m) in Hr as (head & -> & E); [|done..].
  rewrite E. rewrite read_full_app by (simpl; rewrite Hlen; unfold zlen; lia). by destruct m.
Qed.

(** A request as the manager reads it: the message packs into the same bytes,
    and a node reads the operation from them. *)
Lemma request_passes max op conn rest c s :
  op_wf op -> op_fits max op ->
  exists bin m, MsgProcess.OpToBinary op = Ok bin
    /\ serve_read max conn (bin ++ rest) c = Ok (c, [Serve_send conn rest m], [Received conn m])
    /\ MsgProcess.ClientMsgToBit (IClient m) = Ok bin
    /\ Framing.read_request max (bin ++ s) = Ok (op, s)
    /\ ClientMessage.ClerkId m = ClerkId op /\ ClientMessage.OpId m = Optype op.
Proof.
  intros Hwf Hfit. pose proof (zlen_nonneg (Key op)). pose proof (zlen_nonneg (Types.Value op)).
  destruct (read_request_OpToBinary max op s Hwf Hfit) as (bin & Hbin & _ & Hread).
  destruct Hfit as [Hsize Hmax].
  destruct (op_body_Unpack op) as (body & Hbody & Hbl & _); [lia|].
  pose proof Hbin as Hb. unfold MsgProcess.OpToBinary in Hb. rewrite Hbody in Hb. go_step.
  set (m := ClientMessage.mk (Optype op) (wrap_u 32 (zlen body)) (IncrId op) (ClerkId op) body) in *.
  destruct (serve_read_packed max m conn rest c) as (bs & Hbs & Hserve).
  - unfold m. destruct Hwf as (? & ? & ?). split_and!; try done. apply wrap_u_range. lia.
  - simpl. apply wrap_u_id. unfold in_u. lia.
  - simpl. rewrite wrap_u_id by (unfold in_u; lia). lia.
  - assert (bs = bin) as ->.
    { change (ClientDataPack.Pack (IClient m) = Ok bin) in Hb. unfold MsgProcess.ClientMsgToBit in Hbs. congruence. }
    by exists bin, m.
Qed.

(** C23. The manager is transparent.  A request written by a clerk is read
    whole, queued as a message whose packed form is the bytes the clerk wrote,
    and a node's reader turns those bytes into the clerk's operation; when the
    node answers with a retried code, the request the manager rebuilds from the
    answer packs into bytes that are again that operation. *)
Theorem manager_transparent max op code conn rest c s :
  op_wf op -> op_fits max op ->
  exists bin m r bin', MsgProcess.OpToBinary op = Ok bin
    /\ serve_read max conn (bin ++ rest) c = Ok (c, [Serve_send conn rest m], [Received conn m])
    /\ MsgProcess.ClientMsgToBit (IClient m) = Ok bin
    /\ Framing.read_request max (bin ++ s) = Ok (op, s)
    /\ MsgProcess.OpToResp op code = Ok r
    /\ MsgProcess.ClientMsgToBit (IClient (MsgProcess.RespToReq r)) = Ok bin'
    /\ Framing.read_request max (bin' ++ s) = Ok (op, s).
Proof.
  intros Hwf Hfit. destruct (request_passes max op conn rest c s Hwf Hfit) as (bin & m & Hbin & Hserve & Hbit & Hread & _).
  pose proof Hbin as Hb. unfold MsgProcess.OpToBinary in Hb. apply bind_Ok in Hb as (body & Hbody & Hb).
  exists bin, m, (ServerResponse.mk (Optype op) (wrap_u 32 (zlen body)) (IncrId op) (ClerkId op) 0 code body), bin.
  split_and!; try done. unfold MsgProcess.OpToResp. by rewrite Hbody.
Qed.

Lemma manager_transparent_witness :
  exists bin m, MsgProcess.OpToBinary (mkOp PUT 7 101 [x6b] [x76]) = Ok bin
    /\ serve_read 0 1 (bin ++ []) (NewCluster [] []) = Ok (NewCluster [] [], [Serve_send 1 [] m], [Received 1 m])
    /\ MsgProcess.ClientMsgToBit (IClient m) = Ok bin.
Proof.
  destruct (manager_transparent 0 (mkOp PUT 7 101 [x6b] [x76]) (ErrMap WrongLeader) 1 [] (NewCluster [] []) [])
    as (bin & m & r & bin' & H1 & H2 & H3 & _).
  - vm_compute. intuition congruence.
  - vm_compute. split; [reflexivity|left; congruence].
  - exists bin, m. split; [exact H1|]. split; [exact H2|exact H3].
Defined.

End ClusterSync.
