(* ===== verification/EndToEnd.v ===== *)
(** * EndToEnd: requests from the client's call to its result

    One request on its way: the clerk writes it, the manager's goroutines read
    it, queue it, pick a node for it and write it to that node's connection, the
    node executes it on its replica, the manager's goroutines read the response,
    queue it, look the clerk's connection up and write it there, and the clerk's
    receiver hands it to the call.  The manager is the one of Cluster.v with
    nothing else under way ([ready]), its goroutines are run one after the other
    ([drive]), and that is one of its runs ([round_trip_runs]).  The proxy copies
    bytes. *)

From S2P Require Import Prelude Binary Types Wire RaftNode KVServer KVRefine.
From S2P Require Import Client ClientSpec ClientCalls Cluster ClusterSync.

Module EndToEnd.
Import Common.

(** ** The way of a request *)

(** One goroutine of the manager run for [k] steps, with the events of them. *)
Fixpoint drive (k : nat) (max : Z) (ch : Cluster.choice) (c : Cluster.Cluster) (g : Cluster.goroutine)
    : go (Cluster.Cluster * Cluster.goroutine * list Cluster.event) :=
  match k with
  | O => Ok (c, g, [])
  | S k =>
      match Cluster.step max ch c g with
      | Ok (c, [g], evs) =>
          '(c, g, evs') ← drive k max ch c g;
          Ok (c, g, evs ++ evs')
      | Ok _ => Err ErrBlocked
      | Err e => Err e
      | Panic => Panic
      end
  end.

(** [serve] reads a request from a proxy connection and queues it, and
    [procSendQue] takes a request from the queue to a node: the connection it
    goes to, and the bytes. *)
Definition request_way (max : Z) (ch : Cluster.choice) (c : Cluster.Cluster) (conn : Z) (bin : list byte)
    : go (Cluster.Cluster * Z * list byte) :=
  '(c, _, _) ← drive 4 max ch c (Cluster.Serve conn bin);
  '(c, _, evs) ← drive 6 max ch c Cluster.Send;
  match evs with
  | [Cluster.ToNode node bs] => Ok (c, node, bs)
  | _ => Err ErrBlocked
  end.

(** [serveServ] reads a response from a node connection and queues it, and
    [procRespQue] takes a response from the queue to a proxy connection. *)
Definition response_way (max : Z) (ch : Cluster.choice) (c : Cluster.Cluster) (node : Z) (bytes : list byte)
    : go (Cluster.Cluster * Z * list byte) :=
  '(c, _, _) ← drive 4 max ch c (Cluster.ServeServ node bytes);
  '(c, _, evs) ← drive 4 max ch c Cluster.Resp;
  match evs with
  | [Cluster.ToProxy conn bs] => Ok (c, conn, bs)
  | _ => Err ErrBlocked
  end.

(** A node that answers a read from its replica, with what it knows of the read index. *)
Definition read_node (kv : KV.KVServer) (known : option Z) (op : Op) : go ServerResponse.t :=
  '(_, outcome) ← KV.handleReadQue_execute kv op known;
  match outcome with
  | KV.ReadAnswers resp => Ok resp
  | _ => Err ErrBlocked
  end.

(** The apply message for the next entry of a replica. *)
Definition next_msg (kv : KV.KVServer) (term : Z) (op : Op) : Raft.ApplyMsg :=
  Raft.mkApplyMsg true (Some op) (KV.lastApplied kv + 1) false [] term 0.

(** A node that has had a write committed: Raft delivers the operation in an
    entry of [term]. *)
Definition write_node `{KV.SnapshotCodec} (kv : KV.KVServer) (term size : Z) (op : Op) : go ServerResponse.t :=
  '(_, resp, _) ← KV.ApplyHandler kv (next_msg kv term op) size;
  match resp with
  | Some resp => Ok resp
  | None => Err ErrBlocked
  end.

(** The network between a clerk and the nodes: the manager [cu] with its
    choices, the connection of the clerk's proxy, and what the node at the end
    of a connection does with an operation. *)
Record network := mkNetwork {
  cu : Cluster.Cluster;
  ch : Cluster.choice;
  proxy_conn : Z;
  execute : Z -> Op -> go ServerResponse.t
}.

(** What comes back on the clerk's connection for the bytes [bin]. *)
Definition round_trip (max : Z) (n : network) (bin : list byte) : go (list byte) :=
  '(c, node, bs) ← request_way max (ch n) (cu n) (proxy_conn n) bin;
  '(op, _) ← Framing.read_request max bs;
  resp ← execute n node op;
  bytes ← MsgProcess.RespToBinary resp;
  '(_, conn, bs) ← response_way max (ch n) c node bytes;
  if conn =? proxy_conn n then Ok bs else Err ErrBlocked.

(** The environment of a call through this network: what comes back for the
    request written last arrives on its side cut as [ks] says. *)
Definition through `{ClientSpec.Side} (max now : Z) (ks : list nat) (n : network) : Client.environment :=
  Client.mkEnv now (fun _ => None)
    (fun _ c =>
       match last (Client.outbox c) with
       | Some (_, bin) =>
           bytes ← round_trip max n bin;
           '(c, _) ← Client.receive_loop (ClientSpec.side_recv max) ks bytes c;
           mret c
       | None => Ok c
       end)
    (fun _ => false).

(** ** The node's answer *)

Lemma response_fits max op value code r :
  op_wf op -> in_u 32 code -> max <= 0 \/ 4 + zlen (Key op) + zlen value <= max ->
  32 + zlen (Key op) + zlen value <= Z.of_nat Client.buffer_size ->
  MsgProcess.OpToResp (KV.set_Value value op) code = Ok r ->
  ClientSpec.resp_fits max r /\ (length (ClientSpec.frame r) <= Client.buffer_size)%nat.
Proof.
  intros (H1 & H2 & H3) Hcode Hmax Hbuf Hr.
  pose proof (zlen_nonneg (Key op)). pose proof (zlen_nonneg value).
  unfold Client.buffer_size in *.
  destruct (op_body_Unpack (KV.set_Value value op)) as (body & Hbody & Hlen & _); [simpl; lia|].
  simpl in Hlen. unfold MsgProcess.OpToResp in Hr. rewrite Hbody in Hr. injection Hr as <-. simpl in *.
  assert (wrap_u 32 (zlen body) = zlen body) as Hw by (apply wrap_u_id; unfold in_u; lia).
  assert (zlen (ClientSpec.frame (ServerResponse.mk (Optype op) (wrap_u 32 (zlen body)) (IncrId op) (ClerkId op) 0 code body))
          = 28 + zlen body) as Hf.
  { unfold ClientSpec.frame. rewrite zlen_app. simpl. unfold zlen at 1. rewrite ClientSpec.length_frame_head. done. }
  split; [|unfold zlen in *; lia]. rewrite Hw in *. unfold ClientSpec.resp_fits, ServerResponse.head_wf. cbn [ServerResponse.OpId ServerResponse.DataLen
    ServerResponse.IncrId ServerResponse.ClerkId ServerResponse.ServerId ServerResponse.Err ServerResponse.Data].
  unfold Client.buffer_size. split_and!; try done; try lia; unfold in_u, in_s; lia.
Qed.

(** ** The way there and back *)

(** The manager has nothing else to do, its queue of weight changes has room
    for two, writes succeed, and the node it picks for the operation is the one
    at the end of the connection [node]. *)
Record ready (n : network) (op : Op) (node : Z) : Prop := {
  r_mu : Cluster.mu (cu n) = false;
  r_live : Cluster.killed (cu n) = false;
  r_open : Cluster.ques_closed (cu n) = false;
  r_queues : Cluster.SendQue (cu n) = [] /\ Cluster.RespQue (cu n) = [];
  r_room : (length (Cluster.AdjustCh (cu n)) + 2 <= Cluster.adjust_cap)%nat;
  r_write : Cluster.write_ok (ch n) = true;
  r_pick : exists id, Cluster.pick (Cluster.rnd (ch n)) (Cluster.orders (ch n)) (Optype op) (cu n) = Ok id
    /\ Cluster.Conns (cu n) !! id = Some node
}.

(** The manager during the request: what changes are the queues and the proxy
    connections. *)
Definition during (c : Cluster.Cluster) px sq rq aq : Cluster.Cluster :=
  Cluster.mkCluster (Cluster.mu c) (Cluster.Nodes c) (Cluster.Weights c) aq (Cluster.PickMode c) (Cluster.LeaderId c)
    (Cluster.ServAddr c) (Cluster.SyncAddr c) (Cluster.dead c) (Cluster.Conns c) px sq rq (Cluster.FailQue c)
    (Cluster.ques_closed c).

Lemma serve_register_during conn clerk c px sq rq aq :
  exists px', Cluster.serve_register conn clerk (during c px sq rq aq) = during c px' sq rq aq /\ px' !! clerk = Some conn.
Proof.
  unfold Cluster.serve_register. cbn [Cluster.ProxyConns during].
  destruct (px !! clerk) as [old|] eqn:E; [destruct (Z.eqb_spec old conn) as [->|]|];
    [by exists px|eexists; split; [reflexivity|apply lookup_insert_eq]..].
Qed.

(** A sequence of steps, the next one first. *)
Lemma drive_step k max ch c g c' g' evs :
  Cluster.step max ch c g = Ok (c', [g'], evs) ->
  drive (S k) max ch c g = ('(c'', g'', evs') ← drive k max ch c' g'; Ok (c'', g'', evs ++ evs')).
Proof. cbn [drive]. by intros ->. Qed.

Section ways.
Context (max : Z) (n : network) (op : Op) (node : Z) (Hready : ready n op node).

(** [serve] on the clerk's connection. *)
Lemma serve_way bin :
  op_wf op -> op_fits max op -> MsgProcess.OpToBinary op = Ok bin ->
  exists px m, drive 4 max (ch n) (cu n) (Cluster.Serve (proxy_conn n) bin)
      = Ok (during (cu n) px [m] [] (Cluster.AdjustCh (cu n)), Cluster.Serve (proxy_conn n) [], [Cluster.Received (proxy_conn n) m])
    /\ px !! ClerkId op = Some (proxy_conn n) /\ Framing.read_request max bin = Ok (op, [])
    /\ MsgProcess.ClientMsgToBit (IClient m) = Ok bin /\ ClientMessage.OpId m = Optype op.
Proof.
  intros Hwf Hfit Hbin. destruct Hready as [Hmu Hlive Hopen [Hsq Hrq] _ _ _].
  destruct (ClusterSync.request_passes max op (proxy_conn n) [] (cu n) [] Hwf Hfit)
    as (bin' & m & Hbin' & Hserve & Hbit & Hread & Hclerk & Hop).
  rewrite Hbin in Hbin'. injection Hbin' as <-. rewrite !app_nil_r in *.
  assert (Cluster.set_SendQue [m] (cu n) = during (cu n) (Cluster.ProxyConns (cu n)) [m] [] (Cluster.AdjustCh (cu n))) as Eq
    by (unfold during; by rewrite <- Hrq).
  destruct (serve_register_during (proxy_conn n) (ClerkId op) (cu n) (Cluster.ProxyConns (cu n)) [m] [] (Cluster.AdjustCh (cu n)))
    as (px & Hreg & Hpx).
  exists px, m. split; [|done].
  erewrite drive_step by (cbn [Cluster.step]; unfold Cluster.loop; by rewrite Hlive).
  erewrite drive_step by (cbn [Cluster.step]; exact Hserve).
  erewrite drive_step by (cbn [Cluster.step]; unfold Cluster.send_SendQue; rewrite Hopen, Hsq; reflexivity).
  cbn [app]. rewrite Eq, Hclerk.
  erewrite drive_step by (cbn [Cluster.step]; unfold Cluster.locked; cbn [Cluster.mu during]; rewrite Hmu, Hreg; reflexivity).
  reflexivity.
Qed.

(** [procSendQue] takes the request to the node it picks. *)
Lemma send_way px m bin :
  MsgProcess.ClientMsgToBit (IClient m) = Ok bin -> ClientMessage.OpId m = Optype op ->
  exists op', drive 6 max (ch n) (during (cu n) px [m] [] (Cluster.AdjustCh (cu n))) Cluster.Send
    = Ok (during (cu n) px [] [] (Cluster.AdjustCh (cu n) ++ [op']), Cluster.Send, [Cluster.ToNode node bin]).
Proof.
  intros Hbit Hop. destruct Hready as [Hmu Hlive _ _ Hroom Hw (id & Hpick & Hconn)]. exists (Cluster.mkAdjust id (-1)).
  erewrite drive_step by (cbn [Cluster.step]; unfold Cluster.loop, Cluster.killed in *; cbn [Cluster.dead during]; by rewrite Hlive).
  erewrite drive_step by reflexivity.
  erewrite drive_step; [|cbn [Cluster.step]; unfold Cluster.locked; cbn [Cluster.mu Cluster.set_SendQue during]; rewrite Hmu, Hop;
    change (Cluster.pick ?r ?o ?t _) with (Cluster.pick r o t (cu n)); rewrite Hpick; reflexivity].
  erewrite drive_step; [|cbn [Cluster.step]; unfold Cluster.locked; cbn [Cluster.mu Cluster.Conns Cluster.set_SendQue during]; rewrite Hmu, Hconn; reflexivity].
  erewrite drive_step; [|cbn [Cluster.step]; rewrite Hbit, Hw; reflexivity].
  assert ((Cluster.adjust_cap <=? length (Cluster.AdjustCh (cu n)))%nat = false) as Hcap by (apply Nat.leb_gt; lia).
  erewrite drive_step by (cbn [Cluster.step]; unfold Cluster.send_AdjustCh; cbn [Cluster.AdjustCh Cluster.set_SendQue during];
    rewrite Hcap; reflexivity).
  reflexivity.
Qed.

(** [serveServ] on the node's connection. *)
Lemma answer_way px op' r :
  ClientSpec.resp_fits max r -> Cluster.is_final r = true ->
  exists aq, drive 4 max (ch n) (during (cu n) px [] [] (Cluster.AdjustCh (cu n) ++ [op'])) (Cluster.ServeServ node (ClientSpec.frame r))
    = Ok (during (cu n) px [] [r] aq, Cluster.ServeServ node [], [Cluster.Answered node r]).
Proof.
  intros (Hh & Hl & _ & Hm) Hfin. destruct Hready as [Hmu Hlive Hopen _ Hroom _ _].
  destruct (response_roundtrip max r [] Hh Hl Hm) as (bs & Hbs & Hresp). rewrite ClientSpec.frame_packed in Hbs.
  injection Hbs as <-. rewrite app_nil_r in Hresp. eexists.
  erewrite drive_step by (cbn [Cluster.step]; unfold Cluster.loop, Cluster.killed in *; cbn [Cluster.dead during]; by rewrite Hlive).
  erewrite drive_step by (cbn [Cluster.step]; rewrite Hresp; reflexivity).
  erewrite drive_step; [|cbn [Cluster.step]; rewrite Hfin; unfold Cluster.send_RespQue; cbn [Cluster.ques_closed Cluster.RespQue during];
    rewrite Hopen; reflexivity].
  assert ((Cluster.adjust_cap <=? length (Cluster.AdjustCh (cu n) ++ [op']))%nat = false) as Hcap
    by (apply Nat.leb_gt; rewrite length_app; cbn [length]; lia).
  erewrite drive_step by (cbn [Cluster.step]; unfold Cluster.send_AdjustCh; cbn [Cluster.AdjustCh Cluster.set_RespQue during];
    rewrite Hcap; reflexivity).
  reflexivity.
Qed.

(** [procRespQue] takes the response to the clerk's connection. *)
Lemma resp_way px aq r :
  px !! ServerResponse.ClerkId r = Some (proxy_conn n) ->
  drive 4 max (ch n) (during (cu n) px [] [r] aq) Cluster.Resp
  = Ok (during (cu n) px [] [] aq, Cluster.Resp, [Cluster.ToProxy (proxy_conn n) (ClientSpec.frame r)]).
Proof.
  intros Hpx. destruct Hready as [Hmu Hlive _ _ _ Hw _].
  erewrite drive_step by (cbn [Cluster.step]; unfold Cluster.loop, Cluster.killed in *; cbn [Cluster.dead during]; by rewrite Hlive).
  erewrite drive_step by reflexivity.
  erewrite drive_step; [|cbn [Cluster.step]; unfold Cluster.locked; cbn [Cluster.mu Cluster.ProxyConns Cluster.set_RespQue during]; rewrite Hmu, Hpx; reflexivity].
  erewrite drive_step by (cbn [Cluster.step]; rewrite ClientSpec.frame_packed, Hw; reflexivity).
  reflexivity.
Qed.

End ways.

Lemma round_trip_answers max n op bin node r :
  ready n op node -> op_wf op -> op_fits max op -> MsgProcess.OpToBinary op = Ok bin ->
  execute n node op = Ok r -> ClientSpec.resp_fits max r -> Cluster.is_final r = true ->
  ServerResponse.ClerkId r = ClerkId op ->
  round_trip max n bin = Ok (ClientSpec.frame r).
Proof.
  intros Hready Hwf Hfit Hbin Hexec Hr Hfin Hclerk. unfold round_trip.
  destruct (serve_way max n op node Hready bin Hwf Hfit Hbin) as (px & m & Hserve & Hpx & Hread & Hbit & Hop).
  destruct (send_way max n op node Hready px m bin Hbit Hop) as (op' & Hsend).
  destruct (answer_way max n op node Hready px op' r Hr Hfin) as (aq & Hans).
  unfold request_way. rewrite Hserve. go_step. rewrite Hsend. go_step.
  rewrite Hread. go_step. rewrite Hexec. go_step. rewrite ClientSpec.frame_packed. go_step.
  unfold response_way. rewrite Hans. go_step. rewrite (resp_way max n op node Hready) by (by rewrite Hclerk). go_step.
  by rewrite Z.eqb_refl.
Qed.

(** ** A run of the manager *)

Definition adjusts (g : Cluster.goroutine) : bool :=
  match g with
  | Cluster.Adjust _ | Cluster.Adjust_recv _ | Cluster.Adjust_apply _ _ => true
  | _ => false
  end.

(** Only [adjustWeight] changes the weights. *)
Lemma step_weights max ch c g c' gs evs :
  Cluster.step max ch c g = Ok (c', gs, evs) -> adjusts g = false ->
  Cluster.Weights c' = Cluster.Weights c /\ forall g', gs = [g'] -> adjusts g' = false.
Proof.
  intros H Hg. destruct g; try done; cbn [Cluster.step] in H; unfold Cluster.listening, Cluster.accepting, Cluster.loop, Cluster.locked,
    Cluster.send_SendQue, Cluster.send_RespQue, Cluster.send_FailQue, Cluster.send_AdjustCh, Cluster.serve_read, Cluster.sync_read,
    Cluster.serve_register, Cluster.connect_store, Cluster.sync_register, Cluster.sync_status, Cluster.to, Cluster.emit in H;
    repeat case_match; simplify_eq/=; (split; [done|]); intros g' E; by simplify_eq.
Qed.

(** The steps of [drive] are steps of the manager with this goroutine among its
    goroutines. *)
Lemma drive_runs k max ch c g c' g' evs gs1 gs2 tr :
  Cluster.choice_ok ch c -> drive k max ch c g = Ok (c', g', evs) -> adjusts g = false ->
  Cluster.reachable max (Cluster.mkManager c (gs1 ++ g :: gs2) tr) (Cluster.mkManager c' (gs1 ++ g' :: gs2) (tr ++ evs))
  /\ Cluster.choice_ok ch c'.
Proof.
  revert c g evs tr. induction k as [|k IH]; intros c g evs tr Hok H Hna.
  { cbn [drive] in H. injection H as <- <- <-. rewrite app_nil_r. split; [apply rtc_refl|done]. }
  cbn [drive] in H. destruct (Cluster.step max ch c g) as [[[c1 gs] ev1]| |] eqn:Es; [|done..].
  destruct gs as [|g1 [|]]; [done| |done]. apply bind_Ok in H as ([[c2 g2] ev2] & Hd & H). injection H as <- <- <-.
  destruct (step_weights _ _ _ _ _ _ _ Es Hna) as [Ew Hna1].
  assert (Cluster.choice_ok ch c1) as Hok1 by (intros i; rewrite Ew; apply Hok).
  destruct (IH c1 g1 ev2 (tr ++ ev1)) as [Hr Hok2]; [done|done|by apply Hna1|split; [|done]].
  eapply rtc_l; [by eapply (Cluster.m_run max ch c gs1 g gs2 tr c1 [g1] ev1)|]. cbn [app]. by rewrite app_assoc.
Qed.

(** The round trip is a run of the manager: from any state with the goroutines
    it needs, whatever the others are, it gets to one in which the request has
    been written to the picked node and the response to the connection the
    request came from. *)
Theorem round_trip_runs max n op bin node r gs tr :
  ready n op node -> op_wf op -> op_fits max op -> MsgProcess.OpToBinary op = Ok bin ->
  ClientSpec.resp_fits max r -> Cluster.is_final r = true -> ServerResponse.ClerkId r = ClerkId op ->
  Cluster.choice_ok (ch n) (cu n) ->
  exists c' m, Cluster.reachable max
    (Cluster.mkManager (cu n)
       ([Cluster.Serve (proxy_conn n) bin; Cluster.Send; Cluster.Resp; Cluster.ServeServ node (ClientSpec.frame r)] ++ gs) tr)
    (Cluster.mkManager c'
       ([Cluster.Serve (proxy_conn n) []; Cluster.Send; Cluster.Resp; Cluster.ServeServ node []] ++ gs)
       (tr ++ [Cluster.Received (proxy_conn n) m; Cluster.ToNode node bin;
               Cluster.Answered node r; Cluster.ToProxy (proxy_conn n) (ClientSpec.frame r)])).
Proof.
  intros Hready Hwf Hfit Hbin Hr Hfin Hclerk Hok.
  destruct (serve_way max n op node Hready bin Hwf Hfit Hbin) as (px & m & Hserve & Hpx & _ & Hbit & Hop).
  destruct (send_way max n op node Hready px m bin Hbit Hop) as (op' & Hsend).
  destruct (answer_way max n op node Hready px op' r Hr Hfin) as (aq & Hans).
  pose proof (resp_way max n op node Hready px aq r ltac:(by rewrite Hclerk)) as Hresp.
  destruct (drive_runs _ _ _ _ _ _ _ _ [] ([Cluster.Send; Cluster.Resp; Cluster.ServeServ node (ClientSpec.frame r)] ++ gs)
    tr Hok Hserve eq_refl) as [R1 Hok1].
  eexists _, m. eapply (transitivity (R := rtc _)); [exact R1|]. clear R1 Hserve.
  match goal with |- rtc _ (Cluster.mkManager _ _ ?t) _ =>
    destruct (drive_runs _ _ _ _ _ _ _ _ [Cluster.Serve (proxy_conn n) []] ([Cluster.Resp; Cluster.ServeServ node (ClientSpec.frame r)] ++ gs)
      t Hok1 Hsend eq_refl) as [R2 Hok2] end.
  eapply (transitivity (R := rtc _)); [exact R2|]. clear R2 Hsend.
  match goal with |- rtc _ (Cluster.mkManager _ _ ?t) _ =>
    destruct (drive_runs _ _ _ _ _ _ _ _ [Cluster.Serve (proxy_conn n) []; Cluster.Send; Cluster.Resp] gs
      t Hok2 Hans eq_refl) as [R3 Hok3] end.
  eapply (transitivity (R := rtc _)); [exact R3|]. clear R3 Hans.
  match goal with |- rtc _ (Cluster.mkManager _ _ ?t) _ =>
    destruct (drive_runs _ _ _ _ _ _ _ _ [Cluster.Serve (proxy_conn n) []; Cluster.Send] (Cluster.ServeServ node [] :: gs)
      t Hok3 Hresp eq_refl) as [R4 _] end.
  rewrite <- !app_assoc in R4. rewrite <- !app_assoc. exact R4.
Qed.

(** ** The clerk's side *)

(** The call is answered by [r]. *)
Lemma through_answers `{ClientSpec.Side} max now ks n op uid conn bin node r c :
  ready n op node -> op_wf op -> op_fits max op -> MsgProcess.OpToBinary op = Ok bin ->
  execute n node op = Ok r -> ClientSpec.resp_fits max r -> Cluster.is_final r = true ->
  ServerResponse.ClerkId r = ClerkId op ->
  ClientCalls.answered_at max ks (ClientSpec.frame r) (through max now ks n) (ClientCalls.sent uid conn bin c).
Proof.
  intros. split_and!; [done|done|]. simpl. rewrite last_snoc. by erewrite round_trip_answers.
Qed.

Lemma reply_clerk op code r : MsgProcess.OpToResp op code = Ok r -> ServerResponse.ClerkId r = ClerkId op.
Proof. unfold MsgProcess.OpToResp. intros H. go_inv. done. Qed.

Section calls.
Context {codec : KV.SnapshotCodec}.

(** C12. A [Get] through the manager, which has no other request under way and
    is connected to the node it picks, to a replica that has applied up to its
    read index: it returns the key's value in the replica's map, or the no-key
    error, however the network cuts the response, and the clerk is ready for the
    next call.  The response must fit the clerk's buffer of 2048 bytes and the
    package limit. *)
Theorem get_end_to_end kv known max now ks n key c conn node :
  let env := @through ClientSpec.GetSide max now ks n in
  let op := ClientCalls.call_op GET env c key [] in
  let d := KV.db kv in
  ready n op node -> execute n node = read_node kv known ->
  KV.read_start kv op known <= KV.lastApplied kv -> @ClientCalls.idle ClientSpec.GetSide c ->
  Client.connections c !! GET = Some (Some conn) -> Client.responseCh c !! Client.getUid now = None ->
  op_wf op -> 32 + zlen key + zlen (default [] (d !! key)) <= Z.of_nat Client.buffer_size ->
  max <= 0 \/ 4 + zlen key + zlen (default [] (d !! key)) <= max ->
  (Client.buffer_size <= length ks)%nat ->
  exists c', Client.Get env key c = Ok (c', match d !! key with
                                            | Some v => Ok v
                                            | None => Err (ErrReply (ErrMap NoKey))
                                            end)
    /\ @ClientCalls.idle ClientSpec.GetSide c'.
Proof.
  intros env op d Hready Hex Hread Hidle Hconn Hnone Hwf Hbuf Hmax Hks.
  pose proof (zlen_nonneg key). pose proof (zlen_nonneg (default [] (d !! key))).
  destruct (DBExecute_spec kv op) as (r & Hexec & _ & _ & _ & Hresp). fold d in Hresp.
  assert (spec_value d op = default [] (d !! key)) as Hv by done.
  set (code := spec_err d op) in *. rewrite Hv in Hresp.
  assert (code = match d !! key with Some _ => ErrMap OK | None => ErrMap NoKey end) as Hcode.
  { unfold code, spec_err. simpl. by destruct (d !! key). }
  destruct (response_fits max op (default [] (d !! key)) code r Hwf) as [Hfit Hlen]; try done.
  { rewrite Hcode. by destruct (d !! key). }
  destruct (ClientCalls.Get_answered max ks env key (default [] (d !! key)) code c conn r) as (bin & c' & _ & Hget & Hidle' & _);
    try done; [unfold Client.buffer_size in *; lia| |lia|].
  - intros bin Hbin. eapply through_answers; [exact Hready|exact Hwf| |exact Hbin| |exact Hfit| |].
    + unfold op_fits, op, ClientCalls.call_op. cbn [Key Value]. rewrite zlen_nil. unfold Client.buffer_size in *. lia.
    + rewrite Hex. unfold read_node, KV.handleReadQue_execute.
      destruct (Z.leb_spec (KV.read_start kv op known) (KV.lastApplied kv)); [|lia]. by rewrite Hexec.
    + destruct (ClientCalls.reply_body _ code r Hresp) as (_ & He & _); [simpl; unfold Client.buffer_size in *; lia|].
      unfold Cluster.is_final. rewrite He, Hcode. by destruct (d !! key).
    + by rewrite (reply_clerk _ _ _ Hresp).
  - exists c'. split; [|done]. rewrite Hget, Hcode. by destruct (d !! key).
Qed.

(** C13. A [Put] or [Append] through the manager, which has no other request
    under way and is connected to the leader it knows, to the node that started
    it and to which Raft delivers it as the next entry in the term of its start,
    its id being larger than that of the clerk's result in the history: it
    returns without an error, the node's map is then the one with this operation
    performed, and the clerk is ready for the next call.  The response must fit
    the clerk's buffer of 2048 bytes and the package limit. *)
Theorem write_end_to_end kv term size max now ks n opId key value c conn node :
  let env := @through ClientSpec.PutSide max now ks n in
  let op := ClientCalls.call_op opId env c key value in
  opId = PUT \/ opId = APPEND ->
  (forall h, KV.history kv !! ClerkId op = Some h -> ServerResponse.IncrId h < IncrId op) ->
  KV.incrMapLogIdx kv !! IncrId op = Some term ->
  ready n op node -> execute n node = write_node kv term size -> @ClientCalls.idle ClientSpec.PutSide c ->
  Client.connections c !! opId = Some (Some conn) -> Client.responseCh c !! Client.getUid now = None ->
  op_wf op -> 32 + zlen key + zlen value <= Z.of_nat Client.buffer_size ->
  max <= 0 \/ 4 + zlen key + zlen value <= max -> (Client.buffer_size <= length ks)%nat ->
  exists c' kv' r s,
    (if opId =? PUT then Client.Put env key value c else Client.Append env key value c) = Ok (c', None)
    /\ @ClientCalls.idle ClientSpec.PutSide c'
    /\ KV.ApplyHandler kv (next_msg kv term op) size = Ok (kv', Some r, s)
    /\ KV.lastApplied kv' = KV.lastApplied kv + 1 /\ KV.db kv' = spec_apply (KV.db kv) op.
Proof.
  intros env op Hop Hh Hterm Hready Hex Hidle Hconn Hnone Hwf Hbuf Hmax Hks.
  pose proof (zlen_nonneg key). pose proof (zlen_nonneg value).
  assert (spec_err (KV.db kv) op = ErrMap OK) as Hcode by by destruct Hop as [->| ->].
  assert (KV.set_Value (spec_value (KV.db kv) op) op = op) as Hval by by destruct Hop as [->| ->].
  destruct (apply_fresh kv op (KV.lastApplied kv + 1) term) as (r & _ & Hresp & Happly); [lia|exact Hh|].
  rewrite Hcode, Hval in Hresp. rewrite Hterm, Z.eqb_refl in Happly.
  destruct (response_fits max op value (ErrMap OK) r Hwf) as [Hfit Hlen]; try done.
  set (kv' := KV.set_incrMapLogIdx _ _) in Happly.
  assert (exists s, KV.ApplyHandler kv (next_msg kv term op) size = Ok (kv', Some r, s)) as [s Hs].
  { unfold KV.ApplyHandler. cbn [next_msg Raft.CommandValid Raft.MsgCommand Raft.CommandIndex Raft.SnapshotTerm].
    rewrite Happly. go_step. by eexists. }
  destruct (ClientCalls.write_answered max ks env opId key value (ErrMap OK) c conn r) as (bin & c' & _ & Hput & Hidle' & _);
    try done; [unfold Client.buffer_size in *; lia| |lia|].
  - intros bin Hbin. eapply through_answers; [exact Hready|exact Hwf| |exact Hbin| |exact Hfit| |].
    + unfold op_fits, op, ClientCalls.call_op. cbn [Key Value]. unfold Client.buffer_size in *. lia.
    + rewrite Hex. unfold write_node. by rewrite Hs.
    + destruct (ClientCalls.reply_body _ _ r Hresp) as (_ & He & _); [simpl; unfold Client.buffer_size in *; lia|].
      unfold Cluster.is_final. by rewrite He.
    + by rewrite (reply_clerk _ _ _ Hresp).
  - exists c', kv', r, s. by split_and!; [exact Hput|..].
Qed.

End calls.

(** A manager connected to node 0, on connection 9, which picks it for every
    operation. *)
Definition sample_manager : Cluster.Cluster :=
  Cluster.set_Conns {[0 := 9]} (Cluster.set_Weights {[0 := 1]} (Cluster.NewCluster [] [])).

(** It stands in front of a replica that has applied one operation. *)
Definition sample_network (node : Op -> go ServerResponse.t) : network :=
  mkNetwork sample_manager (Cluster.mkChoice true None 0 (fun _ => [(0, 1)]) None [] true) 1
    (fun conn => if conn =? 9 then node else fun _ => Panic).

Lemma sample_ready node op : Optype op = GET \/ Optype op = PUT -> ready (sample_network node) op 9.
Proof.
  intros Hop. split; try (vm_compute; done); [vm_compute; lia|]. exists 0. split; [|done]. by destruct Hop as [E|E]; rewrite E.
Qed.

Lemma get_end_to_end_witness :
  exists c', Client.Get (@through ClientSpec.GetSide 0 12 (replicate Client.buffer_size 6%nat)
      (sample_network (read_node reading_one None))) [x61] ClientCalls.new_clerk
    = Ok (c', Ok [x41]).
Proof.
  destruct (get_end_to_end reading_one None 0 12
    (replicate Client.buffer_size 6%nat) (sample_network (read_node reading_one None)) [x61] ClientCalls.new_clerk 1 9) as (c' & E & _).
  - apply sample_ready. by left.
  - reflexivity.
  - vm_compute. discriminate.
  - apply ClientCalls.new_clerk_idle.
  - reflexivity.
  - reflexivity.
  - vm_compute. intuition congruence.
  - vm_compute. discriminate.
  - left. lia.
  - rewrite length_replicate. apply le_n.
  - exists c'. exact E.
Defined.

(** A replica that has started its first operation, which is a call of clerk
    1. *)
Definition started_kv : KV.KVServer := (KV.handleOpQue_started (fresh_kv 0) put_a (1, 1, true)).1.

Definition clerk_1 : Client.Clerk :=
  Client.mkClerk 1 {[GET := Some 1; PUT := Some 2; APPEND := Some 2]} 1 0 0
    (replicate Client.buffer_size Byte.x00) (replicate Client.buffer_size Byte.x00) ∅ 0 [] [] [].

Lemma write_end_to_end_witness :
  exists c', Client.Put (@through ClientSpec.PutSide 0 10 (replicate Client.buffer_size 6%nat)
      (sample_network (write_node started_kv 1 0))) [x61] [x41] clerk_1
    = Ok (c', None).
Proof.
  destruct (write_end_to_end started_kv 1 0 0 10
    (replicate Client.buffer_size 6%nat) (sample_network (write_node started_kv 1 0)) PUT [x61] [x41] clerk_1 2 9)
    as (c' & kv' & r & s & E & _).
  - left. reflexivity.
  - intros h E. vm_compute in E. discriminate.
  - reflexivity.
  - apply sample_ready. by right.
  - reflexivity.
  - exact (proj2 ClientCalls.new_clerk_idle).
  - reflexivity.
  - reflexivity.
  - vm_compute. intuition congruence.
  - vm_compute. discriminate.
  - left. lia.
  - rewrite length_replicate. apply le_n.
  - exists c'. exact E.
Defined.

End EndToEnd.
