(* ===== verification/Conf.v ===== *)
(** * Conf: configuration and the wiring of the program
    (conf/globalobj.go, main/main.go)

    [Reload] overrides the defaults of [init] with three JSON files.  What
    reading and decoding a file gives is an argument ([file]).  [StartServer]
    of main.go hands the addresses to the proxy, the cluster manager and the
    nodes; the record [deployment] is what each part is given. *)

From S2P Require Import Prelude TcpProxy KVServer.

Module Conf.

(** A string literal. *)
Definition str (s : string) : gostring := String.list_byte_of_string s.

(** ** Data *)

Module Node.
Record t := mk {
  Name : gostring;
  SerAddr : gostring;
  NodeAddr : gostring;
  SyncAddr : gostring
}.
End Node.

Module serversConfig.
Record t := mk {
  NodeNum : Z;               (* int *)
  SyncAddr : gostring;
  ServAddr : gostring;
  Servers : list Node.t
}.
End serversConfig.

Module proxyConfg.
Record t := mk {
  GetAddr : gostring;
  PutAddr : gostring;
  ResAddr : gostring;
  SyncAddr : gostring
}.
End proxyConfg.

Record GlobalObj := mkObj {
  ProxyAddrs : gmap Z gostring;                     (* uint32 *)
  ClusterConf : serversConfig.t;
  ServerAddrs : list (option (gmap gostring gostring));  (* maps, nil before they are made *)
  ClientNum : Z
}.

(** ** Reload *)

(** A configuration file: it cannot be read, it is not the JSON expected, it
    is [null] and leaves the pointer nil, or it gives a value. *)
Inductive file (A : Type) :=
  | Unreadable
  | Malformed
  | Null
  | Parsed (a : A).
Arguments Unreadable {A}. Arguments Malformed {A}. Arguments Null {A}. Arguments Parsed {A} _.

(** The pointer after a successful [Unmarshal]. *)
Definition pointer {A} (f : file A) : option A := match f with Parsed a => Some a | _ => None end.

(** The map of one server. *)
Definition server_addrs (sync serv : gostring) (n : Node.t) : gmap gostring gostring :=
  <[str "sync" := Node.SyncAddr n]>
  (<[str "server" := Node.SerAddr n]>
  (<[str "raft" := Node.NodeAddr n]>
  (<[str "cluster_serv" := serv]>
  (<[str "cluster_sync" := sync]> ∅)))).

(** The loop over the servers; [Servers[i]] may be out of range. *)
Fixpoint reload_servers (n i : nat) (c : serversConfig.t) (l : list (option (gmap gostring gostring)))
    : go (list (option (gmap gostring gostring))) :=
  match n with
  | O => Ok l
  | S n =>
      srv ← idx (serversConfig.Servers c) (Z.of_nat i);
      let m := server_addrs (serversConfig.SyncAddr c) (serversConfig.ServAddr c) srv in
      reload_servers n (S i) c (<[i := Some m]> l)
  end.

(** [getwd]: [os.Getwd] succeeds. *)
Definition Reload (getwd : bool) (proxyFile : file proxyConfg.t) (serversFile : file serversConfig.t)
    (clientFile : file Z) (g : GlobalObj) : go GlobalObj :=
  if negb getwd then Ok g else
  match proxyFile with
  | Unreadable => Ok g
  | Malformed => Panic
  | _ =>
      match serversFile with
      | Unreadable => Ok g
      | Malformed => Panic
      | _ =>
          cliNum ← match clientFile with
                   | Unreadable | Malformed => Ok (ClientNum g)
                   | _ => deref (pointer clientFile)
                   end;
          proxyAddr ← deref (pointer proxyFile);
          let addrs := <[1 := proxyConfg.PutAddr proxyAddr]>
                         (<[0 := proxyConfg.GetAddr proxyAddr]> (ProxyAddrs g)) in
          sersConfig ← deref (pointer serversFile);
          let n := serversConfig.NodeNum sersConfig in
          if n <? 0 then Panic
          else
            l ← reload_servers (Z.to_nat n) 0 sersConfig (replicate (Z.to_nat n) None);
            mret (mkObj addrs (ClusterConf g) l cliNum)
      end
  end.

(** ** init *)

Definition default_node (i : Z) : Node.t :=
  Node.mk (str "server_" ++ fmt_d i) (str "127.0.0.1:5000" ++ fmt_d i)
    (str "127.0.0.1:5003" ++ fmt_d i) (str "127.0.0.1:5005" ++ fmt_d i).

Definition defaultSerNum : nat := 5.

Definition default_conf : serversConfig.t :=
  serversConfig.mk (Z.of_nat defaultSerNum) (str "127.0.0.1:9999") (str "127.0.0.1:9998")
    (map default_node (seqZ 0 (Z.of_nat defaultSerNum))).

Definition default_object : GlobalObj :=
  mkObj (<[1 := str "127.0.0.1:9001"]> (<[0 := str "127.0.0.1:9000"]> ∅)) default_conf
    (map (fun n => Some (server_addrs (serversConfig.SyncAddr default_conf) (serversConfig.ServAddr default_conf) n))
       (serversConfig.Servers default_conf)) 1.

Definition init (getwd : bool) (proxyFile : file proxyConfg.t) (serversFile : file serversConfig.t)
    (clientFile : file Z) : go GlobalObj :=
  Reload getwd proxyFile serversFile clientFile default_object.

(** ** StartServer *)

Record deployment := mkDeployment {
  put_listen : gostring;                    (* the proxy's two listeners *)
  get_listen : gostring;
  endpoint : TcpProxy.SRV;                  (* where the proxy dials *)
  manager_serv : gostring;                  (* NewCluster *)
  manager_sync : gostring;
  nodeAddrs : gmap Z gostring;              (* raft.Make, int32 *)
  node_conf : list (gmap gostring gostring) (* StartKVServer, one per node *)
}.

(** Reading a missing key, or a nil map, gives the empty string. *)
Definition addr_of (k : gostring) (m : option (gmap gostring gostring)) : gostring :=
  default [] (m ≫= (.!! k)).

Definition StartServer (g : GlobalObj) : go deployment :=
  let serverAddr := Split (serversConfig.ServAddr (ClusterConf g)) Byte.x3a in
  portPart ← idx serverAddr 1;
  match Atoi portPart with
  | None => Err ErrDial
  | Some port =>
      target ← idx serverAddr 0;
      let addrs := imap (fun i m => (wrap_s 32 (Z.of_nat i), addr_of (str "raft") m)) (ServerAddrs g) in
      mret (mkDeployment (default [] (ProxyAddrs g !! 1)) (default [] (ProxyAddrs g !! 0))
              (TcpProxy.mkSRV target (wrap_u 16 port) 0 0)
              (serversConfig.ServAddr (ClusterConf g)) (serversConfig.SyncAddr (ClusterConf g))
              (fold_left (fun acc p => <[p.1 := p.2]> acc) addrs ∅)
              (map (default ∅) (ServerAddrs g)))
  end.

(** ** What a reload gives *)

Lemma reload_servers_Ok n i c l :
  (i + n <= length (serversConfig.Servers c))%nat -> (i + n <= length l)%nat ->
  exists l', reload_servers n i c l = Ok l' /\ length l' = length l
    /\ (forall j, (j < i)%nat -> l' !! j = l !! j)
    /\ forall j, (i <= j < i + n)%nat -> exists srv, serversConfig.Servers c !! j = Some srv
       /\ l' !! j = Some (Some (server_addrs (serversConfig.SyncAddr c) (serversConfig.ServAddr c) srv)).
Proof.
  revert i l. induction n as [|n IH]; intros i l Hs Hl; simpl.
  - exists l. split_and!; [done..|]. intros j Hj. lia.
  - destruct (lookup_lt_is_Some_2 (serversConfig.Servers c) i) as [srv Hsrv]; [lia|].
    rewrite (proj2 (idx_Ok (serversConfig.Servers c) (Z.of_nat i) srv)) by (rewrite Nat2Z.id; split; [lia|done]). simpl.
    set (m := server_addrs _ _ srv).
    destruct (IH (S i) (<[i := Some m]> l)) as (l' & E & Hlen & Hlow & Hhigh); [lia|rewrite length_insert; lia|].
    exists l'. split; [exact E|]. rewrite Hlen, length_insert. split; [done|]. split.
    + intros j Hj. rewrite Hlow by lia. by rewrite list_lookup_insert_ne by lia.
    + intros j Hj. destruct (decide (i = j)) as [<-|Hne].
      * exists srv. split; [done|]. rewrite Hlow by lia. rewrite list_lookup_insert_eq by lia. done.
      * apply Hhigh. lia.
Qed.

Lemma server_addrs_lookups sync serv n :
  server_addrs sync serv n !! str "cluster_sync" = Some sync
  /\ server_addrs sync serv n !! str "cluster_serv" = Some serv
  /\ server_addrs sync serv n !! str "raft" = Some (Node.NodeAddr n)
  /\ server_addrs sync serv n !! str "server" = Some (Node.SerAddr n)
  /\ server_addrs sync serv n !! str "sync" = Some (Node.SyncAddr n).
Proof. unfold server_addrs. by repeat split; rewrite ?lookup_insert_ne by done; rewrite lookup_insert_eq. Qed.

(** [nodeAddrs]: inserting pairs with distinct keys one by one. *)
Lemma insert_all_other (l : list (Z * gostring)) (m : gmap Z gostring) k :
  k ∉ l.*1 -> fold_left (fun acc p => <[p.1 := p.2]> acc) l m !! k = m !! k.
Proof.
  revert m. induction l as [|[k' v] l IH]; intros m Hk; [done|]. simpl in *.
  apply not_elem_of_cons in Hk as [? ?]. rewrite IH by done. by rewrite lookup_insert_ne.
Qed.

Lemma insert_all_lookup (l : list (Z * gostring)) (m : gmap Z gostring) k v :
  NoDup l.*1 -> (k, v) ∈ l -> fold_left (fun acc p => <[p.1 := p.2]> acc) l m !! k = Some v.
Proof.
  revert m. induction l as [|[k' v'] l IH]; intros m Hnd Hin; [by apply elem_of_nil in Hin|].
  simpl in Hnd. apply NoDup_cons in Hnd as [Hk Hnd]. simpl. apply elem_of_cons in Hin as [[= -> ->]|Hin].
  - rewrite insert_all_other by done. by rewrite lookup_insert_eq.
  - by apply IH.
Qed.

Lemma node_keys_NoDup {A} (f : A -> gostring) (l : list A) :
  zlen l < 2 ^ 31 -> NoDup (imap (fun i m => (wrap_s 32 (Z.of_nat i), f m)) l).*1.
Proof.
  intros Hl. rewrite fmap_imap. apply NoDup_alt. intros i j k.
  rewrite !list_lookup_imap. unfold zlen in Hl.
  destruct (l !! i) eqn:Ei, (l !! j) eqn:Ej; simpl; try done. apply lookup_lt_Some in Ei, Ej.
  rewrite !wrap_s_id by (unfold in_s; lia). intros [= <-] [= ?]. lia.
Qed.

Lemma StartServer_default g :
  ClusterConf g = default_conf ->
  StartServer g = Ok (mkDeployment (default [] (ProxyAddrs g !! 1)) (default [] (ProxyAddrs g !! 0))
    (TcpProxy.mkSRV (str "127.0.0.1") 9998 0 0)
    (serversConfig.ServAddr default_conf) (serversConfig.SyncAddr default_conf)
    (fold_left (fun acc p => <[p.1 := p.2]> acc)
       (imap (fun i m => (wrap_s 32 (Z.of_nat i), addr_of (str "raft") m)) (ServerAddrs g)) ∅)
    (map (default ∅) (ServerAddrs g))).
Proof.
  intros Hc. unfold StartServer. rewrite Hc.
  assert (Split (serversConfig.ServAddr default_conf) Byte.x3a = [str "127.0.0.1"; str "9998"]) as -> by (vm_compute; reflexivity).
  assert (Atoi (str "9998") = Some 9998) as Hport by (vm_compute; reflexivity). clear Hc.
  revert Hport. generalize (str "127.0.0.1") (str "9998"). intros a b Hport.
  change (idx [a; b] 1) with (Ok b). change (idx [a; b] 0) with (Ok a). cbn [mbind go_bind mret go_ret].
  rewrite Hport. reflexivity.
Qed.

(** The manager's addresses are those of [init] whatever the files say. *)
Theorem manager_addresses_fixed getwd proxyFile serversFile clientFile g :
  init getwd proxyFile serversFile clientFile = Ok g -> ClusterConf g = default_conf.
Proof.
  unfold init, Reload. intros H. repeat case_match; try discriminate H; try (by injection H as <-);
    repeat (apply bind_Ok in H as (? & _ & H)); case_match; try discriminate H;
    apply bind_Ok in H as (? & _ & H); by injection H as <-.
Qed.

(** The object built from readable files. *)
Lemma init_parsed p s clientFile :
  0 <= serversConfig.NodeNum s <= zlen (serversConfig.Servers s) -> clientFile <> Null ->
  exists l, init true (Parsed p) (Parsed s) clientFile =
      Ok (mkObj (<[1 := proxyConfg.PutAddr p]> (<[0 := proxyConfg.GetAddr p]> (ProxyAddrs default_object)))
            default_conf l match clientFile with Parsed n => n | _ => 1 end)
    /\ zlen l = serversConfig.NodeNum s
    /\ forall j, (j < length l)%nat -> exists srv, serversConfig.Servers s !! j = Some srv
       /\ l !! j = Some (Some (server_addrs (serversConfig.SyncAddr s) (serversConfig.ServAddr s) srv)).
Proof.
  intros Hn Hcli. set (n := Z.to_nat (serversConfig.NodeNum s)).
  destruct (reload_servers_Ok n 0 s (replicate n None)) as (l & El & Hlen & _ & Hl);
    [unfold n, zlen in *; lia|by rewrite length_replicate|]. rewrite length_replicate in Hlen.
  exists l. split; [|split; [unfold zlen, n in *; lia|intros j Hj; apply Hl; lia]].
  unfold init, Reload. simpl negb. cbv iota. unfold pointer.
  destruct clientFile; [..|done|]; simpl; (destruct (Z.ltb_spec (serversConfig.NodeNum s) 0); [lia|]);
    fold n; by rewrite El.
Qed.

(** ** Properties *)

(** With readable configuration files that list at least [nodeNum] servers
    the program starts one node per server: the proxy listens on the two
    configured addresses and dials the address the manager serves on; node
    [i] is given the five addresses of entry [i], and all nodes know its Raft
    address under the id [i]. *)
Theorem config_deployed p s clientFile :
  0 <= serversConfig.NodeNum s <= zlen (serversConfig.Servers s) -> serversConfig.NodeNum s < 2 ^ 31 ->
  clientFile <> Null ->
  exists g d, init true (Parsed p) (Parsed s) clientFile = Ok g /\ StartServer g = Ok d
    /\ ClientNum g = match clientFile with Parsed n => n | _ => 1 end
    /\ put_listen d = proxyConfg.PutAddr p /\ get_listen d = proxyConfg.GetAddr p
    /\ TcpProxy.addr (TcpProxy.Run_remote (endpoint d)) = manager_serv d
    /\ zlen (node_conf d) = serversConfig.NodeNum s
    /\ forall i n, 0 <= i < serversConfig.NodeNum s -> serversConfig.Servers s !! Z.to_nat i = Some n ->
       nodeAddrs d !! i = Some (Node.NodeAddr n)
       /\ exists m, node_conf d !! Z.to_nat i = Some m
          /\ m !! str "raft" = Some (Node.NodeAddr n) /\ m !! str "server" = Some (Node.SerAddr n)
          /\ m !! str "sync" = Some (Node.SyncAddr n)
          /\ m !! str "cluster_sync" = Some (serversConfig.SyncAddr s)
          /\ m !! str "cluster_serv" = Some (serversConfig.ServAddr s).
Proof.
  intros Hn Hmax Hcli. destruct (init_parsed p s clientFile Hn Hcli) as (l & Ei & Hlen & Hl).
  do 2 eexists. split; [exact Ei|]. split; [by apply StartServer_default|].
  cbn [put_listen get_listen endpoint manager_serv node_conf nodeAddrs ProxyAddrs ServerAddrs].
  split_and!; [done|by rewrite lookup_insert_eq| |vm_compute; reflexivity| |].
  - by rewrite lookup_insert_ne, lookup_insert_eq by done.
  - unfold zlen in *. by rewrite length_map.
  - intros i srv Hi Hsrv. destruct (Hl (Z.to_nat i)) as (srv' & Hsrv' & Hm); [unfold zlen in *; lia|].
    assert (srv' = srv) as -> by congruence.
    destruct (server_addrs_lookups (serversConfig.SyncAddr s) (serversConfig.ServAddr s) srv) as (H1 & H2 & H3 & H4 & H5).
    split.
    + apply insert_all_lookup; [apply node_keys_NoDup; lia|].
      apply list_elem_of_lookup. exists (Z.to_nat i). rewrite list_lookup_imap, Hm. simpl.
      rewrite Z2Nat.id, wrap_s_id by (unfold in_s; lia). unfold addr_of. simpl. by rewrite H3.
    + eexists. rewrite list_lookup_fmap, Hm. split; [done|]. done.
Qed.

Definition sample_servers : serversConfig.t :=
  serversConfig.mk 1 (str "h:7") (str "h:8") [Node.mk (str "n") (str "h:1") (str "h:2") (str "h:3")].

Definition sample_proxy_conf : proxyConfg.t := proxyConfg.mk (str "h:4") (str "h:5") [] [].

Lemma config_deployed_witness :
  exists g d, init true (Parsed sample_proxy_conf) (Parsed sample_servers) Unreadable = Ok g
    /\ StartServer g = Ok d /\ put_listen d = str "h:5" /\ nodeAddrs d !! 0 = Some (str "h:2").
Proof.
  destruct (config_deployed sample_proxy_conf sample_servers Unreadable)
    as (g & d & H1 & H2 & _ & H3 & _ & _ & _ & H4).
  - vm_compute. split; congruence.
  - reflexivity.
  - discriminate.
  - exists g, d. split; [exact H1|]. split; [exact H2|]. split; [exact H3|].
    apply (H4 0 (Node.mk (str "n") (str "h:1") (str "h:2") (str "h:3"))); [vm_compute; split; congruence|reflexivity].
Defined.

(** A file that moves the manager's status address moves the nodes but not
    the manager: every node dials an address on which nothing listens. *)
Theorem moved_manager_unreachable p s clientFile :
  0 < serversConfig.NodeNum s <= zlen (serversConfig.Servers s) -> serversConfig.NodeNum s < 2 ^ 31 ->
  clientFile <> Null -> serversConfig.SyncAddr s <> serversConfig.SyncAddr default_conf ->
  exists g d, init true (Parsed p) (Parsed s) clientFile = Ok g /\ StartServer g = Ok d
    /\ forall m, m ∈ node_conf d -> m !! str "cluster_sync" <> Some (manager_sync d).
Proof.
  intros Hn Hmax Hcli Hdiff. destruct (init_parsed p s clientFile) as (l & Ei & Hlen & Hl); [lia|done|].
  do 2 eexists. split; [exact Ei|]. split; [by apply StartServer_default|].
  cbn [node_conf manager_sync ServerAddrs]. intros m Hm. apply list_elem_of_lookup in Hm as [j Hj].
  rewrite list_lookup_fmap in Hj. destruct (l !! j) as [o|] eqn:Ej; [|done]. injection Hj as <-.
  pose proof (lookup_lt_Some _ _ _ Ej). destruct (Hl j) as (srv & _ & Hm); [lia|].
  rewrite Hm in Ej. injection Ej as <-. unfold default, from_option, id.
  destruct (server_addrs_lookups (serversConfig.SyncAddr s) (serversConfig.ServAddr s) srv) as (-> & _).
  intros E. apply Hdiff. by apply (inj Some) in E.
Qed.

End Conf.
