(* ===== verification/Pool.v ===== *)
(** * Pool: the pool of result channels (pool/channel_pool.go)

    The pool is a buffered channel of channels behind a mutex.  [Get] and
    [Put] take the mutex and then wait on the buffered channel while they hold
    it, so a call has two points at which it can wait: at the mutex and at the
    channel.  A channel is its number. *)

From S2P Require Import Prelude.

Module Pool.

(** ** Operations *)

Record ChannelPool := mkPool {
  pool : list nat;          (* the buffer *)
  size : nat;               (* its capacity *)
  mu : bool;                (* held *)
  closed : bool;
  closed_chans : list nat
}.

(** The loop that fills the buffer cannot wait: it sends as many channels as
    there is room for.  A negative size panics. *)
Definition NewChannelPool (n : Z) : go ChannelPool :=
  if n <? 0 then Panic else Ok (mkPool (seq 0 (Z.to_nat n)) (Z.to_nat n) false false []).

Definition Lock (cp : ChannelPool) : go ChannelPool :=
  if mu cp then Err ErrBlocked else Ok (mkPool (pool cp) (size cp) true (closed cp) (closed_chans cp)).

(** [return <-cp.pool], then the deferred [Unlock]; [None] is the nil channel
    that a closed pool yields. *)
Definition Get_recv (cp : ChannelPool) : go (ChannelPool * option nat) :=
  match pool cp with
  | ch :: q => Ok (mkPool q (size cp) false (closed cp) (closed_chans cp), Some ch)
  | [] => if closed cp then Ok (mkPool [] (size cp) false true (closed_chans cp), None) else Err ErrBlocked
  end.

(** [cp.pool <- ch], then the deferred [Unlock]. *)
Definition Put_send (ch : nat) (cp : ChannelPool) : go ChannelPool :=
  if closed cp then Panic
  else if (size cp <=? length (pool cp))%nat then Err ErrBlocked
  else Ok (mkPool (pool cp ++ [ch]) (size cp) false false (closed_chans cp)).

(** Closing a channel twice panics. *)
Fixpoint close_each (chs done_ : list nat) : go (list nat) :=
  match chs with
  | [] => Ok done_
  | ch :: chs => if bool_decide (ch ∈ done_) then Panic else close_each chs (done_ ++ [ch])
  end.

(** [Close] with the mutex taken: the buffer is drained and its channels closed. *)
Definition Close (cp : ChannelPool) : go ChannelPool :=
  if closed cp then Panic
  else l ← close_each (pool cp) (closed_chans cp); mret (mkPool [] (size cp) false true l).

(** ** Clients that get a channel, use it and put it back *)

Inductive client :=
  | Idle
  | Getting            (* in [Get], holding the mutex *)
  | Holding (ch : nat)
  | Putting (ch : nat) (* in [Put], holding the mutex *).

(** One step of a client: the next lock or channel operation. *)
Definition step (cp : ChannelPool) (c : client) : go (ChannelPool * client) :=
  match c with
  | Idle => cp ← Lock cp; mret (cp, Getting)
  | Getting => '(cp, ch) ← Get_recv cp; ch ← deref ch; mret (cp, Holding ch)
  | Holding ch => cp ← Lock cp; mret (cp, Putting ch)
  | Putting ch => cp ← Put_send ch cp; mret (cp, Idle)
  end.

Record system := mkSystem { cp : ChannelPool; clients : list client }.

Inductive sstep : system -> system -> Prop :=
  | s_run p cs i c p' c' :
      cs !! i = Some c -> step p c = Ok (p', c') -> sstep (mkSystem p cs) (mkSystem p' (<[i := c']> cs)).

Definition start (n : nat) (k : nat) : system :=
  mkSystem (mkPool (seq 0 n) n false false []) (replicate k Idle).

(** ** Invariant *)

Definition held (c : client) : list nat := match c with Holding ch | Putting ch => [ch] | _ => [] end.

Definition inside (c : client) : bool := match c with Getting | Putting _ => true | _ => false end.

Definition count_inside (cs : list client) : nat := length (filter (fun c => inside c = true) cs).

Record system_ok (n : nat) (s : system) : Prop := mkSysOk {
  so_size : size (cp s) = n;
  so_open : closed (cp s) = false;
  so_chans : pool (cp s) ++ concat (map held (clients s)) ≡ₚ seq 0 n;
  so_mutex : count_inside (clients s) = if mu (cp s) then 1%nat else 0%nat
}.

Lemma concat_insert cs i c c' :
  cs !! i = Some c ->
  concat (map held (<[i := c']> cs)) ++ held c ≡ₚ held c' ++ concat (map held cs).
Proof.
  revert i. induction cs as [|x cs IH]; intros [|i] H; simpl in H; [done..| |].
  - injection H as ->. simpl. rewrite <- !app_assoc. apply Permutation_app_head. apply Permutation_app_comm.
  - simpl. rewrite <- app_assoc, (IH i H), !app_assoc. apply Permutation_app_tail, Permutation_app_comm.
Qed.

Lemma count_inside_insert cs i c c' :
  cs !! i = Some c ->
  (count_inside (<[i := c']> cs) + (if inside c then 1 else 0) = count_inside cs + (if inside c' then 1 else 0))%nat.
Proof.
  unfold count_inside. revert i. induction cs as [|x cs IH]; intros [|i] H; simpl in H; [done..| |].
  - injection H as ->. simpl. rewrite !filter_cons. destruct (inside c), (inside c'); simpl; lia.
  - simpl. rewrite !filter_cons. specialize (IH i H). destruct (inside x); simpl; lia.
Qed.

Lemma sstep_ok n s s' : system_ok n s -> sstep s s' -> system_ok n s'.
Proof.
  intros Hok Hstep. destruct Hstep as [p cs i c p' c' Hi Hs]. destruct Hok as [Hsize Hopen Hch Hmu]. simpl in *.
  pose proof (concat_insert cs i c c' Hi) as Hc. pose proof (count_inside_insert cs i c c' Hi) as Hk.
  destruct p as [q sz m cl cc]. simpl in *. subst cl.
  destruct c; simpl in Hs; unfold Lock, Get_recv, Put_send in Hs; simpl in Hs; repeat case_match; go_inv; simplify_eq/=;
    split; simpl; try done; try lia; rewrite ?app_nil_r in Hc.
  - by rewrite Hc.
  - rewrite Hc. simpl. rewrite <- Hch. symmetry. apply Permutation_middle.
  - rewrite <- Hch. apply Permutation_app_head. apply (Permutation_app_inv_r [ch]). by rewrite Hc, Permutation_app_comm.
  - rewrite <- Hch, <- app_assoc. apply Permutation_app_head. by rewrite Permutation_app_comm.
Qed.

Lemma start_pool_ok n k : system_ok n (start n k).
Proof.
  split; simpl; [done|done| |].
  - induction k as [|k IH]; simpl; [by rewrite app_nil_r|done].
  - unfold count_inside. induction k as [|k IH]; [done|]. simpl. rewrite filter_cons. done.
Qed.

Lemma pool_reachable_ok n k s : rtc sstep (start n k) s -> system_ok n s.
Proof.
  intros H. apply (rtc_ind_r (fun s => system_ok n s) (start n k)) in H; [done|apply start_pool_ok|].
  intros y z _ Hs Hy. by eapply sstep_ok.
Qed.

(** ** Exhaustion *)

(** [k] clients have taken the first [k] channels. *)
Definition taken (n k m : nat) : system :=
  mkSystem (mkPool (seq k (n - k)) n false false []) (map Holding (seq 0 k) ++ replicate m Idle).

Lemma take_one n k m : (k < n)%nat -> rtc sstep (taken n k (S m)) (taken n (S k) m).
Proof.
  intros Hk. unfold taken. rewrite seq_S, map_app. set (p := map Holding (seq 0 k)).
  assert (length p = k) as Hp by (unfold p; by rewrite length_map, length_seq).
  assert (forall c, (p ++ c :: replicate m Idle) !! k = Some c) as Hat.
  { intros c. rewrite lookup_app_r by lia. by rewrite Hp, Nat.sub_diag. }
  assert (forall c c', <[k := c']> (p ++ c :: replicate m Idle) = p ++ c' :: replicate m Idle) as Hset.
  { intros c c'. rewrite insert_app_r_alt by lia. by rewrite Hp, Nat.sub_diag. }
  eapply rtc_l; [apply (s_run _ _ k Idle); [apply Hat|reflexivity]|]. simpl. rewrite Hset.
  destruct (n - k)%nat as [|d] eqn:Ed; [lia|]. replace (n - S k)%nat with d by lia. simpl.
  eapply rtc_l; [apply (s_run _ _ k Getting); [apply Hat|reflexivity]|]. simpl. rewrite Hset.
  rewrite <- app_assoc. apply rtc_refl.
Qed.

Lemma take_all n k m : (k <= n)%nat -> rtc sstep (taken n 0 (k + m)) (taken n k m).
Proof.
  revert m. induction k as [|k IH]; intros m Hk; [apply rtc_refl|].
  etransitivity; [|apply take_one; lia]. replace (S k + m)%nat with (k + S m)%nat by lia. apply IH. lia.
Qed.

(** ** Properties *)

(** Whatever the interleaving of clients that get a channel and put it
    back, no channel is lost or doubled, at most one client is inside the
    mutex, and a [Put] never finds the buffer full. *)
Theorem pool_conserves n k s :
  rtc sstep (start n k) s ->
  pool (cp s) ++ concat (map held (clients s)) ≡ₚ seq 0 n /\ NoDup (concat (map held (clients s)))
  /\ (count_inside (clients s) <= 1)%nat
  /\ forall i ch, clients s !! i = Some (Putting ch) -> exists p, step (cp s) (Putting ch) = Ok (p, Idle).
Proof.
  intros [Hsize Hopen Hch Hmu]%pool_reachable_ok. split; [done|].
  pose proof (NoDup_seq 0 n) as Hnd. rewrite <- Hch in Hnd. apply NoDup_app in Hnd as (_ & _ & Hnd).
  split; [done|]. split; [rewrite Hmu; case_match; lia|]. intros i ch Hi.
  apply Permutation_length in Hch. rewrite length_app, length_seq in Hch.
  assert (1 <= length (concat (map held (clients s))))%nat as Hone.
  { pose proof (concat_insert _ _ _ Idle Hi) as Hc. apply Permutation_length in Hc.
    rewrite !length_app in Hc. simpl in Hc. lia. }
  unfold step, Put_send. rewrite Hopen, Hsize. destruct (Nat.leb_spec n (length (pool (cp s)))); [lia|].
  simpl. by eexists.
Qed.

(** One client more than channels is enough to stop all of them: with every
    channel taken the last [Get] waits for one while it holds the mutex that
    every [Put] needs. *)
Theorem exhausted_pool_stuck n :
  exists s, rtc sstep (start n (S n)) s /\ forall s', ~ sstep s s'.
Proof.
  pose proof (take_all n n 1 (le_n n)) as H. rewrite Nat.add_1_r in H.
  exists (mkSystem (mkPool [] n true false []) (map Holding (seq 0 n) ++ [Getting])). split.
  - eapply rtc_r; [unfold taken in H at 1; rewrite Nat.sub_0_r in H; exact H|]. unfold taken. rewrite Nat.sub_diag. simpl.
    replace (map Holding (seq 0 n) ++ [Getting]) with (<[n := Getting]> (map Holding (seq 0 n) ++ [Idle])).
    + apply (s_run _ _ n Idle); [|done]. rewrite lookup_app_r by (rewrite length_map, length_seq; lia).
      by rewrite length_map, length_seq, Nat.sub_diag.
    + rewrite insert_app_r_alt by (rewrite length_map, length_seq; lia).
      by rewrite length_map, length_seq, Nat.sub_diag.
  - intros s' Hs. inversion Hs as [p cs i c p' c' Hi Hst]; subst.
    apply list_elem_of_lookup_2 in Hi. apply elem_of_app in Hi as [Hi|Hi%list_elem_of_singleton].
    + apply list_elem_of_fmap in Hi as (ch & -> & _). discriminate Hst.
    + subst c. discriminate Hst.
Qed.

End Pool.
