(* ===== verification/Labgob.v ===== *)
(** * Labgob: the checks around encoding/gob (labgob/labgob.go)

    Before it encodes or decodes, the wrapper walks the type of the value and
    warns about lower-case fields, which gob leaves out, and before it decodes
    it warns about variables that are not empty.  Types are the nodes of a
    graph, since a Go type may refer to itself: [kindOf] gives what the
    [reflect] package says of a type.  [IsUpper] is [unicode.IsUpper] of the
    first rune of a name, which also decides whether a field is exported. *)

From S2P Require Import Prelude.

Module Labgob.

(** ** Types and state *)

Record field (T : Type) := mkField { fname : gostring; ftype : T }.
Arguments mkField {T}. Arguments fname {T}. Arguments ftype {T}.

Inductive Kind (T : Type) :=
  | Struct (fs : list (field T))
  | Slice (e : T)
  | Array (e : T)
  | Ptr (e : T)
  | Map (key elem : T)
  | Basic.
Arguments Struct {T}. Arguments Slice {T}. Arguments Array {T}. Arguments Ptr {T}.
Arguments Map {T}. Arguments Basic {T}.

(** What is printed: a lower-case field of a type, a variable that is not empty. *)
Inductive message (T : Type) :=
  | LowerCase (f : gostring) (t : T)
  | NonDefault (what : gostring).
Arguments LowerCase {T}. Arguments NonDefault {T}.

(** A value as [reflect] shows it: fields with their name and whether they are
    embedded, pointers into a heap, basic values with the name of their type
    and whether they equal its zero value. *)
Inductive value :=
  | VStruct (fs : list (gostring * bool * value))
  | VPtr (p : option Z)
  | VBasic (tname : gostring) (zero : bool)
  | VOther.

Section labgob.
Context {T : Type} `{Countable T} (kindOf : T -> Kind T) (IsUpper : gostring -> bool).

(** The package variables and the output. *)
Record lab := mkLab {
  errorCount : Z;
  checked : gset T;
  printed : list (message T)
}.

Definition report (m : message T) (st : lab) : lab :=
  mkLab (errorCount st + 1) (checked st) (printed st ++ [m]).

Definition mark (t : T) (st : lab) : lab := mkLab (errorCount st) ({[t]} ∪ checked st) (printed st).

(** ** checkType *)

(** The test of one field of [t]. *)
Definition check_field (t : T) (f : field T) (st : lab) : lab :=
  if IsUpper (fname f) then st else report (LowerCase (fname f) t) st.

(** [None]: not finished with this fuel. *)
Fixpoint checkType (fuel : nat) (t : T) (st : lab) : option lab :=
  match fuel with
  | O => None
  | S fuel =>
      if decide (t ∈ checked st) then Some st
      else
        let st := mark t st in
        match kindOf t with
        | Struct fs =>
            fold_left (fun acc f => st ← acc; checkType fuel (ftype f) (check_field t f st)) fs (Some st)
        | Slice e | Array e | Ptr e => checkType fuel e st
        | Map key elem => st ← checkType fuel elem st; checkType fuel key st
        | Basic => Some st
        end
  end.

(** [reflect.TypeOf(nil)] is nil, and [Kind] of it panics. *)
Definition checkValue (fuel : nat) (t : option T) (st : lab) : option (go lab) :=
  match t with
  | None => Some Panic
  | Some t => Ok <$> checkType fuel t st
  end.

(** ** checkDefault *)

(** [sticky] and [embed] are the read-only flags of a [reflect.Value]: reached
    through an unexported field, which fields of it inherit, or through an
    unexported embedded one, which they do not.  [Interface] panics on either.
    [room] is [4 - depth], so that it is 0 when [depth > 3]. *)
Fixpoint checkDefault1 (room : nat) (heap : Z -> value) (sticky embed : bool) (v : value)
    (name : gostring) (st : lab) : go lab :=
  match room with
  | O => Ok st
  | S room =>
      match v with
      | VStruct fs =>
          fold_left (fun acc '(n, emb, v) =>
            st ← acc;
            let name1 := if bool_decide (name = []) then n else name ++ [Byte.x2e] ++ n in
            checkDefault1 room heap (sticky || (negb (IsUpper n) && negb emb)) (negb (IsUpper n) && emb) v name1 st)
            fs (Ok st)
      | VPtr None => Ok st
      | VPtr (Some p) => checkDefault1 room heap sticky embed (heap p) name st
      | VBasic tname zero =>
          if sticky || embed then Panic
          else if zero then Ok st
          else
            let what := if bool_decide (name = []) then tname else name in
            Ok (mkLab (errorCount st + 1) (checked st)
                  (if errorCount st <? 1 then printed st ++ [NonDefault what] else printed st))
      | VOther => Ok st
      end
  end.

Definition checkDefault (heap : Z -> value) (v : option value) (st : lab) : go lab :=
  match v with
  | None => Ok st
  | Some v => checkDefault1 3 heap false false v [] st
  end.

(** ** The wrapped operations; [gob] is the outcome of the wrapped call *)

(** [Encode], [EncodeValue], [Register] and [RegisterName]. *)
Definition Encode {A} (fuel : nat) (gob : go A) (t : option T) (st : lab) : option (go (lab * A)) :=
  r ← checkValue fuel t st;
  Some (st ← r; a ← gob; mret (st, a)).

Definition Decode {A} (fuel : nat) (gob : go A) (heap : Z -> value) (t : option T) (v : option value) (st : lab)
    : option (go (lab * A)) :=
  r ← checkValue fuel t st;
  Some (st ← r; st ← checkDefault heap v st; a ← gob; mret (st, a)).

(** ** The walk as a graph search *)

(** The types [checkType] goes on to, each with the field name it reports first. *)
Definition visits (t : T) : list (option gostring * T) :=
  match kindOf t with
  | Struct fs => map (fun f => (if IsUpper (fname f) then None else Some (fname f), ftype f)) fs
  | Slice e | Array e | Ptr e => [(None, e)]
  | Map key elem => [(None, elem); (None, key)]
  | Basic => []
  end.

Definition refers (t u : T) : Prop := u ∈ (visits t).*2.

(** The warnings due for a type. *)
Definition note (t : T) (v : option gostring * T) : list (message T) :=
  match v.1 with Some f => [LowerCase f t] | None => [] end.

Definition warnings (t : T) : list (message T) := flat_map (note t) (visits t).

Definition reports (ms : list (message T)) (st : lab) : lab :=
  mkLab (errorCount st + zlen ms) (checked st) (printed st ++ ms).

Definition walk (fuel : nat) (t : T) (l : list (option gostring * T)) (st : lab) : option lab :=
  fold_left (fun acc v => st ← acc; checkType fuel v.2 (reports (note t v) st)) l (Some st).

Lemma reports_nil st : reports [] st = st.
Proof. destruct st. unfold reports. simpl. by rewrite zlen_nil, Z.add_0_r, app_nil_r. Qed.

Lemma check_field_reports t f st :
  check_field t f st = reports (note t (if IsUpper (fname f) then None else Some (fname f), ftype f)) st.
Proof. unfold check_field, note. destruct (IsUpper (fname f)); simpl; [by rewrite reports_nil|done]. Qed.

Lemma checkType_walk fuel t st :
  checkType (S fuel) t st = if decide (t ∈ checked st) then Some st else walk fuel t (visits t) (mark t st).
Proof.
  simpl. case_decide; [done|]. unfold visits, walk. destruct (kindOf t) as [fs|e|e|e|key elem|]; simpl;
    rewrite ?reports_nil; try done.
  - generalize (Some (mark t st)). induction fs as [|f fs IH]; intros o; [done|]. simpl. rewrite IH. f_equal.
    destruct o as [s|]; simpl; [|done]. by rewrite check_field_reports.
  - unfold note. simpl. destruct (checkType fuel elem (mark t st)) as [s|]; simpl; [by rewrite reports_nil|done].
Qed.

Lemma walk_cons fuel t v l st :
  walk fuel t (v :: l) st = st ← checkType fuel v.2 (reports (note t v) st); walk fuel t l st.
Proof.
  unfold walk. simpl. destruct (checkType fuel v.2 _) as [s|]; simpl; [done|].
  induction l; [done|]. simpl. done.
Qed.

(** From [st] to [st'] the search below [roots] added types of [U] with all the
    types they refer to, and printed [own] and the warnings of the types added. *)
Record grown (U : gset T) (roots : T -> Prop) (own : list (message T)) (st st' : lab) : Prop := mkGrown {
  gr_sub : checked st ⊆ checked st';
  gr_in : checked st' ⊆ U;
  gr_closed : forall u w, u ∈ checked st' -> u ∉ checked st -> refers u w -> w ∈ checked st';
  gr_reach : forall u, u ∈ checked st' -> u ∉ checked st -> exists r, roots r /\ rtc refers r u;
  gr_printed : printed st' ≡ₚ printed st ++ own ++ flat_map warnings (elements (checked st' ∖ checked st));
  gr_count : errorCount st' - zlen (printed st') = errorCount st - zlen (printed st)
}.

Lemma grown_refl U roots st : checked st ⊆ U -> grown U roots [] st st.
Proof.
  intros HU. split; try done; try set_solver.
  rewrite difference_diag_L, elements_empty. simpl. by rewrite app_nil_r.
Qed.

Lemma new_elements (X Y Z : gset T) :
  X ⊆ Y -> Y ⊆ Z -> elements (Z ∖ X) ≡ₚ elements (Y ∖ X) ++ elements (Z ∖ Y).
Proof.
  intros HXY HYZ. replace (Z ∖ X) with ((Y ∖ X) ∪ (Z ∖ Y)).
  - apply elements_disj_union. set_solver.
  - apply set_eq. intros x. destruct (decide (x ∈ Y)); set_solver.
Qed.

Lemma grown_trans U roots own1 own2 st1 st2 st3 :
  grown U roots own1 st1 st2 -> grown U roots own2 st2 st3 -> grown U roots (own1 ++ own2) st1 st3.
Proof.
  intros [Hs1 Hi1 Hc1 Hr1 Hp1 Hn1] [Hs2 Hi2 Hc2 Hr2 Hp2 Hn2]. split.
  - by transitivity (checked st2).
  - done.
  - intros u w Hu Hnu Huw. destruct (decide (u ∈ checked st2)); eauto.
  - intros u Hu Hnu. destruct (decide (u ∈ checked st2)); eauto.
  - rewrite Hp2, Hp1, (new_elements _ _ _ Hs1 Hs2), flat_map_app, <- !app_assoc.
    do 2 apply Permutation_app_head. rewrite !app_assoc. apply Permutation_app_tail, Permutation_app_comm.
  - lia.
Qed.

Lemma grown_weaken U (roots roots' : T -> Prop) own st st' :
  (forall r, roots r -> exists r', roots' r' /\ rtc refers r' r) -> grown U roots own st st' -> grown U roots' own st st'.
Proof.
  intros Hr [Hs Hi Hc Hre Hp Hn]. split; try done. intros u Hu Hnu.
  destruct (Hre u Hu Hnu) as (r & Hroot & Hru). destruct (Hr r Hroot) as (r' & Hr' & Hrr).
  exists r'. split; [done|]. by transitivity r.
Qed.

Lemma grown_reports U roots ms st : checked st ⊆ U -> grown U roots ms st (reports ms st).
Proof.
  intros HU. split; simpl; try done; try set_solver.
  - rewrite difference_diag_L, elements_empty. simpl. by rewrite app_nil_r.
  - rewrite zlen_app. lia.
Qed.

(** A call that is enough fuel for the types not yet seen. *)
Definition search_ok (U : gset T) (fuel : nat) : Prop :=
  forall t st, t ∈ U -> checked st ⊆ U -> (size (U ∖ checked st) < fuel)%nat ->
  exists st', checkType fuel t st = Some st' /\ grown U (eq t) [] st st' /\ t ∈ checked st'.

Lemma walk_ok U fuel t l st :
  search_ok U fuel -> (forall w, w ∈ l.*2 -> w ∈ U) -> checked st ⊆ U -> (size (U ∖ checked st) < fuel)%nat ->
  exists st', walk fuel t l st = Some st' /\ grown U (fun r => r ∈ l.*2) (flat_map (note t) l) st st'
    /\ forall w, w ∈ l.*2 -> w ∈ checked st'.
Proof.
  intros Hok. revert st. induction l as [|v l IH]; intros st Hl HU Hfuel.
  - exists st. split; [done|]. split; [by apply grown_refl|set_solver].
  - rewrite walk_cons. destruct (Hok v.2 (reports (note t v) st)) as (st1 & -> & Hg1 & Hv); [set_solver|done|done|].
    simpl. pose proof (gr_sub _ _ _ _ _ Hg1) as Hsub. simpl in Hsub.
    destruct (IH st1) as (st' & -> & Hg & Hin).
    + intros w Hw. apply Hl. set_solver.
    + apply (gr_in _ _ _ _ _ Hg1).
    + eapply Nat.le_lt_trans; [|exact Hfuel]. apply subseteq_size. set_solver.
    + exists st'. split; [done|]. split.
      * change (flat_map (note t) (v :: l)) with (note t v ++ flat_map (note t) l). apply (grown_trans _ _ _ _ _ st1).
        -- rewrite <- (app_nil_r (note t v)). eapply grown_trans; [by apply grown_reports|].
           eapply grown_weaken; [|exact Hg1]. intros r <-. exists v.2. split; [set_solver|done].
        -- eapply grown_weaken; [|exact Hg]. intros r Hr. exists r. split; [set_solver|done].
      * intros w Hw. simpl in Hw. apply elem_of_cons in Hw as [->|Hw]; [|by apply Hin].
        apply (gr_sub _ _ _ _ _ Hg). done.
Qed.

(** The step from the search below the children of a new type to the search below it. *)
Lemma grown_mark U t st st' :
  t ∈ U -> t ∉ checked st -> (forall w, refers t w -> w ∈ checked st') ->
  grown U (refers t) (warnings t) (mark t st) st' -> grown U (eq t) [] st st'.
Proof.
  intros HtU Hnew Hin [Hs Hi Hc Hr Hp Hn]. simpl in *. split; [set_solver|done|..|done].
  - intros u w Hu Hnu Huw. destruct (decide (u = t)) as [->|]; [by apply Hin|]. apply (Hc u); set_solver.
  - intros u Hu Hnu. exists t. split; [done|]. destruct (decide (u = t)) as [->|]; [done|].
    destruct (Hr u) as (r & Htr & Hru); [done|set_solver|]. by eapply rtc_l.
  - rewrite Hp. simpl. apply Permutation_app_head.
    rewrite (new_elements (checked st) ({[t]} ∪ checked st) (checked st')) by set_solver.
    rewrite flat_map_app. apply Permutation_app_tail.
    replace (({[t]} ∪ checked st) ∖ checked st) with ({[t]} : gset T) by set_solver.
    rewrite elements_singleton. simpl. by rewrite app_nil_r.
Qed.

Lemma checkType_search U fuel :
  (forall u w, u ∈ U -> refers u w -> w ∈ U) -> search_ok U fuel.
Proof.
  intros Hclosed. induction fuel as [|fuel IH]; intros t st Ht HU Hfuel; [lia|].
  rewrite checkType_walk. case_decide as Hd.
  { exists st. split; [done|]. split; [by apply grown_refl|done]. }
  destruct (walk_ok U fuel t (visits t) (mark t st) IH) as (st' & -> & Hg & Hin).
  - intros w Hw. by apply (Hclosed t).
  - simpl. set_solver.
  - simpl. apply Nat.succ_lt_mono. eapply Nat.le_lt_trans; [|exact Hfuel]. apply Nat.le_succ_l.
    apply subset_size. set_solver.
  - exists st'. split; [done|]. split; [by apply grown_mark|]. apply (gr_sub _ _ _ _ _ Hg). simpl. set_solver.
Qed.

(** ** Properties *)

(** [checkType] ends on every type, also on one that refers to itself:
    when all types below [t] are in a finite set, more fuel than it has
    elements is enough.  It then has marked exactly the types below [t] besides
    those marked before, has printed one warning for each lower-case field of
    each newly marked struct and counted them, and a second call on the type
    says nothing more. *)
Theorem checkType_visits (U : gset T) fuel t st :
  (forall u w, u ∈ U -> refers u w -> w ∈ U) -> t ∈ U -> checked st ⊆ U -> (size U < fuel)%nat ->
  (forall u w, u ∈ checked st -> refers u w -> w ∈ checked st) ->
  exists st', checkType fuel t st = Some st'
    /\ (forall u, u ∈ checked st' <-> u ∈ checked st \/ rtc refers t u)
    /\ (forall u w, u ∈ checked st' -> refers u w -> w ∈ checked st')
    /\ printed st' ≡ₚ printed st ++ flat_map warnings (elements (checked st' ∖ checked st))
    /\ errorCount st' = errorCount st + zlen (flat_map warnings (elements (checked st' ∖ checked st)))
    /\ checkType fuel t st' = Some st'.
Proof.
  intros Hclosed Ht HU Hfuel Hst.
  destruct (checkType_search U fuel Hclosed t st Ht HU) as (st' & E & [Hs Hi Hc Hr Hp Hn] & Hin).
  { eapply Nat.le_lt_trans; [|exact Hfuel]. apply subseteq_size. set_solver. }
  assert (forall u w, u ∈ checked st' -> refers u w -> w ∈ checked st') as Hst'.
  { intros u w Hu Huw. destruct (decide (u ∈ checked st)) as [Hu'|]; [apply Hs; by apply (Hst u)|by apply (Hc u)]. }
  exists st'. split_and!; [done| |done|done| |].
  - intros u. split.
    + intros Hu. destruct (decide (u ∈ checked st)); [by left|right].
      by destruct (Hr u) as (r & <- & ?).
    + intros [Hu|Htu]; [by apply Hs|]. clear E Hr Ht. induction Htu as [|x y z Hxy _ IH]; [done|].
      apply IH. by apply (Hst' x).
  - apply Permutation_length in Hp. rewrite !length_app in Hp. simpl in Hp. unfold zlen in *. lia.
  - destruct fuel as [|fuel]; [lia|]. rewrite checkType_walk. by rewrite decide_True.
Qed.

(** Decoding into a struct with a lower-case field of a basic type does not
    warn: [value.Interface] panics on the unexported field. *)
Theorem lower_field_panics heap p n tname zero fs st :
  IsUpper n = false -> heap p = VStruct ((n, false, VBasic tname zero) :: fs) ->
  checkDefault heap (Some (VPtr (Some p))) st = Panic.
Proof.
  intros Hn Hp. unfold checkDefault. cbn [checkDefault1]. rewrite Hp. cbn [fold_left]. rewrite Hn. simpl. clear Hp.
  induction fs as [|[[n' emb] v] fs IH]; [done|]. simpl. exact IH.
Qed.

End labgob.

(** A struct with fields Yes and no and a pointer Next to itself. *)
Definition sample_kind (t : Z) : Kind Z :=
  match t with
  | 0 => Struct [mkField [Byte.x59] 1; mkField [Byte.x6e] 1; mkField [Byte.x4e] 2]
  | 2 => Ptr 0
  | _ => Basic
  end.

Definition ascii_upper (s : gostring) : bool :=
  match s with b :: _ => (65 <=? Z.of_N (Byte.to_N b)) && (Z.of_N (Byte.to_N b) <=? 90) | [] => false end.

Lemma checkType_visits_witness :
  exists st, checkType sample_kind ascii_upper 4 0 (mkLab 0 ∅ []) = Some st
    /\ errorCount st = 1 /\ checkType sample_kind ascii_upper 4 0 st = Some st.
Proof.
  destruct (checkType_visits sample_kind ascii_upper {[0; 1; 2]} 4 0 (mkLab 0 ∅ []))
    as (st & H1 & _ & _ & _ & _ & H2).
  - intros u w Hu Hw. assert (u = 0 \/ u = 1 \/ u = 2) as [->|[->| ->]] by set_solver;
      unfold refers, visits in Hw; simpl in Hw; set_solver.
  - set_solver.
  - set_solver.
  - vm_compute. lia.
  - set_solver.
  - exists st. split; [exact H1|]. split; [|exact H2]. vm_compute in H1. injection H1 as <-. reflexivity.
Defined.

End Labgob.
