(* ===== verification/Main.v ===== *)
(** * Main: the program's entry points (main/main.go) and the start of a node
    (raft/raft.go)

    [main] chooses between [StartServer] and [StartClient].  [StartServer]
    listens, starts the manager, the nodes and the proxy, and on the end of its
    input stops them in the order of the deferred calls; what each part is
    given is in [Conf].  [StartClient] is the loop that reads commands and calls
    the clerk; what [fmt.Scan] reads is an argument, [None] when it fails and
    leaves the variable alone, as at the end of the input.

    Of the start of a node: [connectToPeers], with the outcomes of
    [grpc.NewClient] as an argument, and the random time-outs. *)

From S2P Require Import Prelude Binary Types Wire Store RaftNode Client ClientSpec ClientCalls TcpProxy KVServer KVRefine EndToEnd Conf.

Module Main.
Import Client ClientSpec ClientCalls Conf.

(** ** The start of a node *)

Definition HeartbeatTime : Z := 80.
Definition ElectionTimeoutRangeBottom : Z := 100.
Definition ElectionTimeoutRangeTop : Z := 300.

(** [r] is the state of the generator. *)
Definition RandomElectionTimeout (r : Z) : go Z :=
  d ← rand_Intn r (ElectionTimeoutRangeTop - ElectionTimeoutRangeBottom);
  mret (ElectionTimeoutRangeBottom + d).

Definition HeartbeatTimeThreshold (r : Z) : go Z :=
  d ← rand_Intn r (HeartbeatTime * 5);
  mret (HeartbeatTime * 5 + d).

(** An election starts only after five heartbeats are missing. *)
Lemma thresholds_positive r :
  (exists t, RandomElectionTimeout r = Ok t /\ ElectionTimeoutRangeBottom <= t < ElectionTimeoutRangeTop)
  /\ exists t, HeartbeatTimeThreshold r = Ok t /\ 5 * HeartbeatTime <= t < 10 * HeartbeatTime.
Proof.
  unfold RandomElectionTimeout, HeartbeatTimeThreshold, ElectionTimeoutRangeTop, ElectionTimeoutRangeBottom, HeartbeatTime.
  split.
  - destruct (rand_Intn_pos r (300 - 100)) as (d & -> & Hd); [lia|]. eexists. split; [done|lia].
  - destruct (rand_Intn_pos r (80 * 5)) as (d & -> & Hd); [lia|]. eexists. split; [done|lia].
Qed.

(** What [grpc.NewClient] returns: an error, a nil client, or a client. *)
Inductive dialled := DialErr | DialNil | DialOK.

(** The first loop, over the addresses in the order they are iterated; [dial n]
    is the outcome of the [n]-th call.  [failed] has the node appended last in
    front. *)
Fixpoint connect_each (dial : nat -> dialled) (n : nat) (me : Z) (nodes failed peers : list Z)
    : go (nat * list Z * list Z) :=
  match nodes with
  | [] => mret (n, failed, peers)
  | i :: nodes =>
      if i =? me then connect_each dial n me nodes failed peers
      else match dial n with
           | DialErr => connect_each dial (S n) me nodes (i :: failed) peers
           | DialNil => Err ErrDial
           | DialOK => connect_each dial (S n) me nodes failed (peers ++ [i])
           end
  end.

(** The retry loop, with what is left of [maxRetry]; [None] when it is still
    running after [fuel] calls. *)
Fixpoint retry_failed (fuel : nat) (dial : nat -> dialled) (n : nat) (failed : list Z) (maxRetry : Z)
    (peers : list Z) : option (Z * list Z) :=
  match failed with
  | [] => Some (maxRetry, peers)
  | i :: rest =>
      if 0 <? maxRetry then
        match fuel with
        | O => None
        | S fuel =>
            match dial n with
            | DialErr => retry_failed fuel dial (S n) failed (maxRetry - 1) peers
            | _ => retry_failed fuel dial (S n) rest maxRetry (peers ++ [i])
            end
        end
      else Some (maxRetry, peers)
  end.

Definition connectToPeers (fuel : nat) (dial : nat -> dialled) (nodes : list Z) (me : Z)
    : option (go (list Z)) :=
  match connect_each dial 0 me nodes [] [] with
  | Ok (n, failed, peers) =>
      match retry_failed fuel dial n failed 30 peers with
      | None => None
      | Some (maxRetry, peers) => Some (if maxRetry =? 0 then Err ErrDial else Ok peers)
      end
  | Err e => Some (Err e)
  | Panic => Some Panic
  end.

(** The goroutine [Make] starts, on the clients made; an error of
    [connectToPeers] is a panic. *)
Definition Make_start {P} `{!RaftStore P} (fuel : nat) (dial : nat -> dialled) (nodes : list Z) (me : Z) (p : P)
    : option (go (list Raft.ApplyMsg * Raft.Raftserver P)) :=
  match connectToPeers fuel dial nodes me with
  | None => None
  | Some (Ok peers) => Some (Raft.startWork (Raft.Make (me :: peers) me p))
  | Some _ => Some Panic
  end.

Lemma connect_each_result dial n me nodes failed peers :
  (connect_each dial n me nodes failed peers = Err ErrDial /\ exists k, dial k = DialNil)
  \/ exists n' failed' peers', connect_each dial n me nodes failed peers = Ok (n', failed', peers')
       /\ (length failed' <= length failed + length nodes)%nat
       /\ failed' ++ peers' ≡ₚ failed ++ peers ++ filter (fun i => i <> me) nodes
       /\ ((forall k, dial k = DialOK) -> failed' = failed /\ peers' = peers ++ filter (fun i => i <> me) nodes).
Proof.
  revert n failed peers. induction nodes as [|i nodes IH]; intros n failed peers; cbn [connect_each].
  { right. do 3 eexists. split; [done|]. cbn [length filter]. rewrite app_nil_r. split_and!; [lia|done|done]. }
  destruct (Z.eqb_spec i me) as [->|Hne].
  { rewrite filter_cons_False by (by intros []). destruct (IH n failed peers) as [?|(n' & f' & p' & E & Hl & Hp & Hk)]; [by left|].
    right. exists n', f', p'. simpl. split_and!; [done|lia|done..]. }
  rewrite filter_cons_True by done. destruct (dial n) eqn:Ed.
  - destruct (IH (S n) (i :: failed) peers) as [?|(n' & f' & p' & E & Hl & Hp & Hk)]; [by left|].
    right. exists n', f', p'. simpl in *. split_and!; [done|lia| |].
    + rewrite Hp. by rewrite !(assoc_L (++)), Permutation_middle.
    + intros Hall. by rewrite Hall in Ed.
  - left. eauto.
  - destruct (IH (S n) failed (peers ++ [i])) as [?|(n' & f' & p' & E & Hl & Hp & Hk)]; [by left|].
    right. exists n', f', p'. simpl in *. rewrite <- app_assoc in *. split_and!; [done|lia|done..].
Qed.

Lemma retry_failed_result fuel dial n failed maxRetry peers :
  0 <= maxRetry -> (length failed + Z.to_nat maxRetry <= fuel)%nat ->
  exists left peers', retry_failed fuel dial n failed maxRetry peers = Some (left, peers') /\ 0 <= left
    /\ (0 < left -> peers' ≡ₚ failed ++ peers)
    /\ ((forall k, 29 <= k -> dial (Z.to_nat k) <> DialErr) -> 29 - Z.of_nat n < maxRetry -> 0 < maxRetry -> 0 < left).
Proof.
  revert n failed maxRetry peers. induction fuel as [|fuel IH]; intros n failed maxRetry peers Hm Hf;
    (destruct failed as [|i rest]; [do 2 eexists; split_and!; [done|lia|done|lia]|]); simpl in Hf; [lia|].
  cbn [retry_failed]. destruct (Z.ltb_spec 0 maxRetry); [|do 2 eexists; split_and!; [done|lia..]].
  destruct (dial n) eqn:Ed.
  - destruct (IH (S n) (i :: rest) (maxRetry - 1) peers) as (l & p' & E & H0 & Hp & Hk); [lia|simpl; lia|].
    exists l, p'. split_and!; [done..|]. intros Hall Hlt _.
    destruct (Z.lt_ge_cases (Z.of_nat n) 29); [apply Hk; [done|lia|lia]|]. specialize (Hall (Z.of_nat n) ltac:(lia)).
    by rewrite Nat2Z.id in Hall.
  - destruct (IH (S n) rest maxRetry (peers ++ [i])) as (l & p' & E & H0 & Hp & Hk); [lia|lia|].
    exists l, p'. split_and!; [done|done| |intros Hall Hlt Hpos; apply Hk; [done|lia|lia]].
    intros Hl. rewrite (Hp Hl). simpl. solve_Permutation.
  - destruct (IH (S n) rest maxRetry (peers ++ [i])) as (l & p' & E & H0 & Hp & Hk); [lia|lia|].
    exists l, p'. split_and!; [done|done| |intros Hall Hlt Hpos; apply Hk; [done|lia|lia]].
    intros Hl. rewrite (Hp Hl). simpl. solve_Permutation.
Qed.

(** [connectToPeers] returns: with a client for every other node, and for
    no more, or with an error; it returns no error when fewer than thirty calls
    fail. *)
Theorem connectToPeers_returns dial nodes me fuel :
  (length nodes + 30 <= fuel)%nat ->
  exists r, connectToPeers fuel dial nodes me = Some r
    /\ (r = Err ErrDial \/ exists peers, r = Ok peers /\ peers ≡ₚ filter (fun i => i <> me) nodes)
    /\ ((forall k, dial k <> DialNil) -> (forall k, 29 <= k -> dial (Z.to_nat k) <> DialErr) -> r <> Err ErrDial).
Proof.
  intros Hf. unfold connectToPeers.
  destruct (connect_each_result dial 0 me nodes [] []) as [(-> & k & Hk)|(n & failed & peers & -> & Hl & Hp & _)].
  { eexists. split; [done|]. split; [by left|]. intros Hn. by destruct (Hn k). }
  destruct (retry_failed_result fuel dial n failed 30 peers) as (left & peers' & -> & H0 & Hp' & Hk); [lia|simpl in Hl; lia|].
  eexists. split; [done|]. destruct (Z.eqb_spec left 0) as [->|Hne].
  - split; [by left|]. intros _ Hall. specialize (Hk Hall ltac:(lia) ltac:(lia)). lia.
  - split; [|done]. right. exists peers'. split; [done|]. rewrite Hp' by lia. by rewrite Hp.
Qed.

(** Three nodes, of which the second cannot be dialled at first. *)
Lemma connectToPeers_returns_witness :
  (forall k, 29 <= k -> (if (Z.to_nat k <? 3)%nat then DialErr else DialOK) <> DialErr)
  /\ connectToPeers 33 (fun k => if (k <? 3)%nat then DialErr else DialOK) [0; 1; 2] 1 = Some (Ok [2; 0])
  /\ [2; 0] ≡ₚ filter (fun i => i <> 1) [0; 1; 2].
Proof.
  assert (forall k, 29 <= k -> (if (Z.to_nat k <? 3)%nat then DialErr else DialOK) <> DialErr) as Hd.
  { intros k Hk. destruct (Nat.ltb_spec (Z.to_nat k) 3); [lia|done]. }
  destruct (connectToPeers_returns (fun k => if (k <? 3)%nat then DialErr else DialOK) [0; 1; 2] 1 33 ltac:(simpl; lia))
    as (r & E & Hr & Hno).
  vm_compute in E. injection E as <-. destruct Hr as [?|(peers & Hp & Hperm)]; [discriminate|].
  injection Hp as <-. split; [exact Hd|]. split; [vm_compute; reflexivity|exact Hperm].
Defined.

(** A node whose clients are all made at once starts work with the peers of
    the cluster. *)
Lemma Make_start_direct {P} `{!RaftStore P} fuel dial nodes me (p : P) :
  (length nodes + 30 <= fuel)%nat -> (forall k, dial k = DialOK) ->
  Make_start fuel dial nodes me p = Some (Raft.startWork (Raft.Make nodes me p)).
Proof.
  intros Hf Hd. unfold Make_start, connectToPeers.
  destruct (connect_each_result dial 0 me nodes [] []) as [(_ & k & Hk)|(n & failed & peers & -> & _ & _ & Hall)].
  { by rewrite Hd in Hk. }
  destruct (Hall Hd) as [-> ->]. destruct fuel; [lia|]. simpl. f_equal. f_equal. unfold Raft.Make. f_equal.
  rewrite filter_cons_False by (by intros []). apply list_filter_filter_l. by intros.
Qed.

(** ** main *)

Inductive launch :=
  | LaunchServer
  | LaunchClient
  | NotSupported (arg : gostring).

(** [arg] is the value of the flag [-s], if it is given. *)
Definition main (arg : option gostring) : launch :=
  let server_or_client := default (str "server") arg in
  if bool_decide (server_or_client = str "server") then LaunchServer
  else if bool_decide (server_or_client = str "client") then LaunchClient
  else NotSupported server_or_client.

(** ** StartServer *)

(** What the server process does, in order. *)
Inductive action :=
  | Listen (addr : gostring)
  | CloseListener (addr : gostring)
  | StartManager (serv sync : gostring)
  | StopManager
  | StartNode (i : Z) (peers : gmap Z gostring) (ports : gostring * Z * Z)
  | AwaitNode (i : Z)
  | StopNode (i : Z)
  | RunProxy (endpoint : TcpProxy.SRV)
  | StopProxy
  | AwaitEnd.

(** [StartKVServer] of node [i]: its addresses must be well formed. *)
Definition start_node (peers : gmap Z gostring) (i : nat) (conf : gmap gostring gostring) : go action :=
  ports ← KV.parse_addresses (addr_of (str "server") (Some conf)) (addr_of (str "sync") (Some conf));
  mret (StartNode (wrap_s 32 (Z.of_nat i)) peers ports).

Fixpoint start_nodes (peers : gmap Z gostring) (i : nat) (confs : list (gmap gostring gostring)) : go (list action) :=
  match confs with
  | [] => mret []
  | conf :: confs =>
      a ← start_node peers i conf;
      rest ← start_nodes peers (S i) confs;
      mret (a :: rest)
  end.

(** [listen addr] says that [net.Listen] succeeds; the [defer] on a listener
    that is nil panics.  The deferred calls run in reverse.  [StartServer] of
    [Conf] is what the parts are given; its error is an address of the manager
    whose port is no number, on which the function returns. *)
Definition StartServer_run (listen : gostring -> bool) (g : GlobalObj) : go (list action) :=
  let put := default [] (ProxyAddrs g !! 1) in
  let get := default [] (ProxyAddrs g !! 0) in
  if negb (listen put) then Panic
  else if negb (listen get) then Panic
  else
    match StartServer g with
    | Panic => Panic
    | Err _ => mret [Listen put; Listen get; CloseListener get; CloseListener put]
    | Ok d =>
        nodes ← start_nodes (nodeAddrs d) 0 (node_conf d);
        let ids := map Z.of_nat (seq 0 (length (node_conf d))) in
        mret ([Listen put; Listen get; StartManager (manager_serv d) (manager_sync d)] ++ nodes
              ++ map AwaitNode ids ++ [RunProxy (endpoint d); AwaitEnd]
              ++ map StopNode ids ++ [StopProxy; StopManager; CloseListener get; CloseListener put])
    end.

(** The default configuration: five nodes are started and waited for before the
    proxy takes requests. *)
Example StartServer_run_default :
  match StartServer_run (fun _ => true) default_object with
  | Ok acts => (length acts = 24)%nat
      /\ acts !! 12%nat = Some (AwaitNode 4)
      /\ acts !! 13%nat = Some (RunProxy (TcpProxy.mkSRV (str "127.0.0.1") 9998 0 0))
  | _ => False
  end.
Proof. vm_compute. done. Qed.

(** ** StartClient *)

(** The variables that live across turns of the loop. *)
Record vars := mkVars {
  Op : Z;                  (* int32 *)
  Key : gostring;
  Value : gostring;
  Got : gostring;
  err : option error
}.

Inductive output :=
  | AskOp
  | AskKey
  | AskValue
  | ProcessError (e : error)
  | YouGet (v : gostring)
  | ProcessOK.

(** What a turn of the loop meets: the three reads, and the rest of the process
    while the clerk's call is under way. *)
Record turn_input := mkTurn {
  scanOp : option Z;
  scanKey : option gostring;
  scanValue : option gostring;
  call_env : environment
}.

Definition scan {A} (r : option A) (old : A) : A := default old r.

(** The call of a turn: what it prints before, and the variables after it. *)
Definition process (t : turn_input) (v : vars) (c : Clerk) : go (Clerk * vars * list output) :=
  if Op v =? 1 then
    '(c, r) ← Get (call_env t) (Key v) c;
    match r with
    | Ok got => mret (c, mkVars (Op v) (Key v) (Value v) got None, [])
    | Err e => mret (c, mkVars (Op v) (Key v) (Value v) [] (Some e), [])
    | Panic => Panic
    end
  else if Op v =? 2 then
    let value := scan (scanValue t) (Value v) in
    '(c, e) ← Put (call_env t) (Key v) value c;
    mret (c, mkVars (Op v) (Key v) value (Got v) e, [AskValue])
  else if Op v =? 3 then
    let value := scan (scanValue t) (Value v) in
    '(c, e) ← Append (call_env t) (Key v) value c;
    mret (c, mkVars (Op v) (Key v) value (Got v) e, [AskValue])
  else mret (c, v, []).

Definition report (v : vars) : output :=
  match err v with
  | Some e => ProcessError e
  | None => if Op v =? 1 then YouGet (Got v) else ProcessOK
  end.

(** One turn: [None] when the loop is left. *)
Definition turn (t : turn_input) (v : vars) (c : Clerk) : go (option (Clerk * vars) * list output) :=
  let op := scan (scanOp t) (Op v) in
  if op =? -1 then mret (None, [AskOp])
  else
    let v := mkVars op (scan (scanKey t) (Key v)) (Value v) (Got v) (err v) in
    '(c, v, outs) ← process t v c;
    mret (Some (c, v), [AskOp; AskKey] ++ outs ++ [report v]).

(** The session so far: still running, or over and the clerk stopped. *)
Inductive session_state :=
  | Running (c : Clerk) (v : vars)
  | Stopped (c : Clerk).

Fixpoint session (ts : list turn_input) (v : vars) (c : Clerk) : go (session_state * list output) :=
  match ts with
  | [] => mret (Running c v, [])
  | t :: ts =>
      '(next, outs) ← turn t v c;
      match next with
      | None => c ← Stop c; mret (Stopped c, outs)
      | Some (c, v) => '(s, outs') ← session ts v c; mret (s, outs ++ outs')
      end
  end.

Definition start_vars : vars := mkVars 0 [] [] [] None.

(** [addrs] is [ProxyAddrs] in the order it is iterated; [None]: the clerk is
    still connecting. *)
Definition StartClient (fuel : nat) (dial : nat -> option Z) (addrs : list (Z * gostring)) (id : Z)
    (ts : list turn_input) : option (go (session_state * list output)) :=
  match MakeClerk fuel dial addrs id with
  | None => None
  | Some (_, c) => Some (c ← c; session ts start_vars c)
  end.

(** ** The session executes the commands typed *)

Inductive command :=
  | CGet (key : gostring)
  | CPut (key value : gostring)
  | CAppend (key value : gostring).

Definition write_output (e : option error) : output :=
  match e with Some e => ProcessError e | None => ProcessOK end.

(** A command by itself: the clerk's call and what the user sees. *)
Definition run_command (env : environment) (m : command) (c : Clerk) : go (Clerk * list output) :=
  match m with
  | CGet key =>
      '(c, r) ← Get env key c;
      match r with
      | Ok v => mret (c, [AskOp; AskKey; YouGet v])
      | Err e => mret (c, [AskOp; AskKey; ProcessError e])
      | Panic => Panic
      end
  | CPut key value =>
      '(c, e) ← Put env key value c; mret (c, [AskOp; AskKey; AskValue; write_output e])
  | CAppend key value =>
      '(c, e) ← Append env key value c; mret (c, [AskOp; AskKey; AskValue; write_output e])
  end.

Fixpoint run_commands (ms : list (environment * command)) (c : Clerk) : go (Clerk * list output) :=
  match ms with
  | [] => mret (c, [])
  | (env, m) :: ms =>
      '(c, outs) ← run_command env m c;
      '(c, outs') ← run_commands ms c;
      mret (c, outs ++ outs')
  end.

(** The command of a number, a key and a value. *)
Definition command_of (op : Z) (key value : gostring) : option command :=
  if op =? 1 then Some (CGet key)
  else if op =? 2 then Some (CPut key value)
  else if op =? 3 then Some (CAppend key value)
  else None.

(** The command of a turn, from what is read and what the variables hold. *)
Definition turn_command (t : turn_input) (v : vars) : option command :=
  command_of (scan (scanOp t) (Op v)) (scan (scanKey t) (Key v)) (scan (scanValue t) (Value v)).

Definition vars_command (v : vars) : option command := command_of (Op v) (Key v) (Value v).

(** [m] gives what the computation of a spec gives, with more in its state. *)
Definition gives {A B} (spec : go A) (m : go B) (R : A -> B -> Prop) : Prop :=
  match spec with
  | Ok a => exists b, m = Ok b /\ R a b
  | Err e => m = Err e
  | Panic => m = Panic
  end.

Lemma gives_bind {A A' B B'} (spec : go A) (m : go B) R (f : A -> go A') (g : B -> go B') R' :
  gives spec m R -> (forall a b, R a b -> gives (f a) (g b) R') -> gives (spec ≫= f) (m ≫= g) R'.
Proof. destruct spec; simpl; [intros (b & -> & HR) H; by apply H|by intros ->..]. Qed.

Lemma gives_ret {A B} (a : A) (b : B) (R : A -> B -> Prop) : R a b -> gives (mret a) (mret b) R.
Proof. intros. by exists b. Qed.

(** A turn with a command is that command, which stays in the variables. *)
Definition turned (m : command) (r : Clerk * list output) (r' : option (Clerk * vars) * list output) : Prop :=
  exists v', r' = (Some (r.1, v'), r.2) /\ vars_command v' = Some m.

Lemma turn_runs t v c m :
  turn_command t v = Some m -> gives (run_command (call_env t) m c) (turn t v c) (turned m).
Proof.
  unfold turn_command, command_of, turn, process. cbn [Op Key Value Got err].
  generalize (scan (scanOp t) (Op v)), (scan (scanKey t) (Key v)), (scan (scanValue t) (Value v)).
  intros op k x Hm.
  assert (op =? -1 = false) as -> by (apply Z.eqb_neq; intros ->; discriminate).
  destruct (Z.eqb_spec op 1) as [->|]; [|destruct (Z.eqb_spec op 2) as [->|];
    [|destruct (Z.eqb_spec op 3) as [->|]; [|done]]]; injection Hm as <-; cbn [run_command].
  - destruct (Get (call_env t) k c) as [[c' [got|e|]]|e|]; simpl; try done; by repeat eexists.
  - destruct (Put (call_env t) k x c) as [[c' [e|]]|e|]; simpl; try done; by repeat eexists.
  - destruct (Append (call_env t) k x c) as [[c' [e|]]|e|]; simpl; try done; by repeat eexists.
Qed.

(** A turn in which every read succeeds has the command typed, whatever the
    variables hold. *)
Definition types (t : turn_input) (m : environment * command) : Prop :=
  call_env t = m.1 /\
  match m.2 with
  | CGet k => scanOp t = Some 1 /\ scanKey t = Some k
  | CPut k x => scanOp t = Some 2 /\ scanKey t = Some k /\ scanValue t = Some x
  | CAppend k x => scanOp t = Some 3 /\ scanKey t = Some k /\ scanValue t = Some x
  end.

Lemma types_command t m v : types t m -> turn_command t v = Some m.2.
Proof.
  destruct m as [env []]; unfold types, turn_command; simpl; [intros (_ & -> & ->)|intros (_ & -> & -> & ->)..]; done.
Qed.

(** The session after some turns, as the commands of these turns. *)
Definition ran (r : Clerk * list output) (r' : session_state * list output) : Prop :=
  exists v', r' = (Running r.1 v', r.2).

(** Turns whose commands are [ms], the variables of each left by the one
    before. *)
Inductive commands_of : vars -> list turn_input -> list (environment * command) -> Prop :=
  | commands_nil v : commands_of v [] []
  | commands_cons v t ts m ms :
      turn_command t v = Some m ->
      (forall v', vars_command v' = Some m -> commands_of v' ts ms) ->
      commands_of v (t :: ts) ((call_env t, m) :: ms).

Lemma session_ran v ts ms c : commands_of v ts ms -> gives (run_commands ms c) (session ts v c) ran.
Proof.
  intros H. revert c. induction H as [v|v t ts m ms Hm _ IH]; intros c; cbn [run_commands session].
  - apply gives_ret. by exists v.
  - eapply gives_bind; [by apply turn_runs|]. intros [c1 o1] ? (v1 & -> & Hv1). cbn [fst snd].
    eapply gives_bind; [by apply IH|]. intros [c2 o2] ? (v2 & ->). apply gives_ret. by exists v2.
Qed.

Lemma session_app ts ts' v c :
  session (ts ++ ts') v c =
    ('(s, outs) ← session ts v c;
     match s with
     | Running c v => '(s, outs') ← session ts' v c; mret (s, outs ++ outs')
     | Stopped _ => mret (s, outs)
     end).
Proof.
  revert v c. induction ts as [|t ts IH]; intros v c; cbn [app session].
  - simpl. by destruct (session ts' v c) as [[]| |].
  - destruct (turn t v c) as [[[[c2 v2]|] o]| |]; simpl; [|by destruct (Stop c)|done..].
    rewrite IH. destruct (session ts v2 c2) as [[[c3 v3|c3] o3]| |]; simpl; [|done..].
    destruct (session ts' v3 c3) as [[]| |]; simpl; [by rewrite app_assoc|done..].
Qed.

(** C22. A client session in which every line is read as a command executes
    exactly these commands, one call of the clerk each, and shows the result of
    each call; nothing left in the variables by an earlier turn shows.  Typing
    -1 then stops the clerk. *)
Theorem session_runs_commands ts ms quit v c :
  Forall2 types ts ms -> scanOp quit = Some (-1) ->
  gives ('(c, outs) ← run_commands ms c; c ← Stop c; mret (c, outs ++ [AskOp]))
    (session (ts ++ [quit]) v c) (fun r r' => r' = (Stopped r.1, r.2)).
Proof.
  intros Hts Hq.
  assert (commands_of v ts ms) as Hc.
  { clear c. revert v. induction Hts as [|t [env m] ts ms Hm _ IH]; intros v; [constructor|].
    pose proof (proj1 Hm) as E. simpl in E. subst env. constructor; [by apply (types_command t (call_env t, m))|].
    intros v' _. apply IH. }
  rewrite session_app. eapply gives_bind; [by apply session_ran|]. intros [c1 o1] ? (v1 & ->).
  cbn [session fst snd]. unfold turn. rewrite Hq. simpl. destruct (Stop c1); simpl; [by eexists|done..].
Qed.

(** A client that reads nothing more. *)
Definition eof (env : environment) : turn_input := mkTurn None None None env.

(** At the end of its input the client does not stop: every further turn
    repeats the last command, so a last [Append] is appended again and
    again. *)
Theorem eof_repeats envs m v c :
  vars_command v = Some m ->
  gives (run_commands (map (fun env => (env, m)) envs) c) (session (map eof envs) v c) ran.
Proof.
  intros Hm. apply session_ran. revert v Hm. induction envs as [|env envs IH]; intros v Hm; cbn [map]; [constructor|].
  apply (commands_cons v (eof env)); [done|]. intros v' Hv'. by apply IH.
Qed.

(** A number that is no command sends nothing, and the turn shows the error of
    the turn before, or success. *)
Theorem unknown_op_stale t v c op :
  scanOp t = Some op -> op <> -1 -> op <> 1 -> op <> 2 -> op <> 3 ->
  exists v', turn t v c = Ok (Some (c, v'), [AskOp; AskKey; write_output (err v)]) /\ err v' = err v.
Proof.
  intros Ht ? ? ? ?. unfold turn, process. rewrite Ht. simpl.
  destruct (Z.eqb_spec op (-1)); [done|]. destruct (Z.eqb_spec op 1), (Z.eqb_spec op 2), (Z.eqb_spec op 3); try done.
  exists (mkVars op (scan (scanKey t) (Key v)) (Value v) (Got v) (err v)). split; [|done]. simpl. unfold report, write_output. simpl.
  destruct (err v); [done|]. by destruct (Z.eqb_spec op 1).
Qed.

(** ** Runs *)

(** Typing [1 a] and [-1] in front of the replica of [EndToEnd]. *)
Definition get_a : turn_input :=
  mkTurn (Some 1) (Some [x61]) None
    (@EndToEnd.through GetSide 0 12 (replicate buffer_size 6%nat)
      (EndToEnd.sample_network (EndToEnd.read_node reading_one None))).

Definition quit_turn : turn_input := mkTurn (Some (-1)) None None (call_env get_a).

Lemma session_runs_commands_witness :
  exists c, session [get_a; quit_turn] start_vars new_clerk = Ok (Stopped c, [AskOp; AskKey; YouGet [x41]; AskOp]).
Proof.
  pose proof (session_runs_commands [get_a] [(call_env get_a, CGet [x61])] quit_turn start_vars new_clerk
    ltac:(repeat constructor) eq_refl) as H.
  assert (exists c, ('(c, outs) ← run_commands [(call_env get_a, CGet [x61])] new_clerk; c ← Stop c; mret (c, outs ++ [AskOp]))
    = Ok (c, [AskOp; AskKey; YouGet [x41]; AskOp])) as [c E] by (eexists; vm_compute; reflexivity).
  rewrite E in H. destruct H as (r & H & ->). exists c. exact H.
Defined.

(** A reply with the code OK to the request made at [now]. *)
Definition replied (now : Z) : environment :=
  mkEnv now (fun _ => None)
    (fun _ c => '(c, _) ← processResponse (getUid now) (Common.ErrMap Common.OK)
                            (Owned [x01; x00; x00; x00; x6b; x76]) [x01; x00; x00; x00; x6b; x76] c;
                mret c)
    (fun _ => false).

(** Two turns after the end of the input, each a further [Append]. *)
Lemma eof_repeats_witness :
  exists c v, session (map eof [replied 5; replied 6]) (mkVars 3 [x6b] [x76] [] None) new_clerk
    = Ok (Running c v, [AskOp; AskKey; AskValue; ProcessOK; AskOp; AskKey; AskValue; ProcessOK])
    /\ length (outbox c) = 2%nat.
Proof.
  pose proof (eof_repeats [replied 5; replied 6] (CAppend [x6b] [x76]) (mkVars 3 [x6b] [x76] [] None) new_clerk eq_refl) as H.
  assert (exists c, run_commands (map (fun env => (env, CAppend [x6b] [x76])) [replied 5; replied 6]) new_clerk
    = Ok (c, [AskOp; AskKey; AskValue; ProcessOK; AskOp; AskKey; AskValue; ProcessOK]) /\ length (outbox c) = 2%nat)
    as (c & E & Hc) by (eexists; split; [vm_compute; reflexivity|vm_compute; reflexivity]).
  rewrite E in H. destruct H as (r & H & v & ->). exists c, v. split; [exact H|exact Hc].
Defined.

End Main.
